(* ===== verification/_CoqProject ===== *)
-Q . S2P
Prelude.v
Memory.v
Address.v
PlainData.v
AtomicIntegers.v
Bytes.v
CopySlice.v
Volatile.v
Os.v
Linux.v
RemoteMem.v
Concurrency.v
Transfers.v
Endian.v
GuestMemory.v
MmapUnix.v
Mmap.v
SharedMemory.v
RefCount.v
Files.v
Arcs.v
CrossRegion.v
Refine.v
MmapWindows.v
Atomic.v
AddressSpace.v
Snapshots.v
Display.v
Tests.v
TestsMmap.v
TestsThreads.v
Witnesses.v
