(* ===== verification/Prelude.v ===== *)
(** * vm-memory: safe access to the physical memory of a virtual machine

    The crate gives a virtual machine monitor access to the memory of its
    guest.  This library models its implementation ([src/src/*.rs]) and proves
    that accesses stay within bounds, move the right bytes, and report what
    they did.  In this fork of the crate the guest's memory belongs to another
    process and is accessed with [process_vm_readv] and [process_vm_writev].

    ** The parts and the files

    The parts build on each other in this order; each has a file, and each file
    has its data, its operations, what it promises, and its theorems.

    - [Prelude]: what the source takes from the language.  [Target] is the
      compilation target (pointer width, overflow checks, debug assertions, byte
      order) over which all theorems quantify.  [outcome] is the result of
      evaluating a Rust expression: a value, a panic, undefined behaviour, or
      a loop that exceeded its bound; [wp] is total correctness.  Integers are [Z]
      with their width written out ([uadd], [usub], [wrap], [as_usize]);
      loops are [while_loop], with the rule [while_loop_wp].
    - [Memory]: bytes, byte order, and flat memory as a finite map from addresses
      to bytes, with raw and volatile accesses.
    - [Address] ([address.rs], and the address types of [guest_memory.rs]): the
      trait [Address] is a class, the macro [impl_address_ops!] a section, and
      [AddressSpec] the laws between them.
    - [PlainData] ([bytes.rs]): [ByteValued], with the unsigned and signed integers
      and arrays.
    - [AtomicIntegers] ([atomic_integer.rs]): the trait [AtomicInteger] as a class, and
      the macro that implements it for the atomic integers of the standard library.
    - [Bytes] ([bytes.rs]): [AtomicAccess], the trait [Bytes], and the reader and
      writer of the standard library with their documented laws ([ReadSpec],
      [WriteSpec]).
    - [CopySlice] and [Volatile] ([volatile_memory.rs]): the copy routine of
      [mod copy_slice_impl]; [VolatileSlice], [VolatileRef], [VolatileArrayRef],
      the trait [VolatileMemory], and [Bytes<usize>] for [VolatileSlice] (module
      [VolatileBytes]).  Memory is passed explicitly; a slice is a pointer and
      a length into it.
    - [Os]: the operating system, which is not part of the repository.  [OS] has
      the calls that the source makes ([process_vm_readv], [process_vm_writev],
      [mmap], [munmap], [sysconf], [File]), [RemoteSpec] and [MmapSpec] what the
      manual pages say of them, and [toy_os] is a system that satisfies both.
    - [Linux]: a system with files and mappings for the unit tests, which satisfies
      them too.
    - [RemoteMem] ([remote_mem.rs]): transfers to and from another process, and
      the accesses to aligned words built on them.
    - [Concurrency]: the copies of [CopySlice] and the accesses to words of [RemoteMem]
      as threads that take turns, one turn for each access that the source
      assumes to be atomic, under every schedule; and the rule [pool_finished] for
      threads that share an invariant.
    - [Transfers] ([remote_mem.rs]): [process_read_bytes] and [process_write_bytes] as
      threads.  How the system moves the bytes of a call is a parameter
      ([AtomicCopy]), and [AtomicCopySpec] is the assumption of the comment on [ALG];
      [copying] is a system with which it holds.
    - [Endian] ([endian.rs]): the macro [endian_type!] as a section.
    - [GuestMemory] ([guest_memory.rs]): [GuestMemoryRegion] and [GuestMemory] as
      classes with their provided methods, [try_access], and [Bytes] for every
      [GuestMemory].  [GuestMemorySpec] and [RegionSpec] are the contracts of
      the two traits; the theorems are proved against these.
    - [MmapUnix] ([mmap_unix.rs], [check_file_offset] of [mmap.rs]): mappings.
    - [Mmap] ([mmap.rs]): [GuestRegionMmap] and [GuestMemoryMmap], which discharge
      the contracts of [GuestMemory].
    - [SharedMemory] ([guest_memory.rs], [mmap.rs]): the accesses to a
      [GuestMemoryMmap] as threads, which composes [GuestMemory], [Mmap] and [Transfers].
    - [RefCount]: the reference counts of [Arc] and [Rc], of the standard library.
    - [Files] ([guest_memory.rs], [mmap_unix.rs]): the [Arc<File>] of a [FileOffset],
      and the mappings that own one; programs that use them are a step relation.
    - [Arcs] ([mmap.rs]): [GuestMemoryMmap] as the source has it, a vector of
      [Arc<GuestRegionMmap>], with every clone and drop of a reference that its
      operations make and the release of a mapping by the last one ([Drop] of
      [mmap_unix.rs]); programs that use them are a step relation.
    - [CrossRegion] ([guest_memory.rs], [mmap.rs]): [write] and [read] that go past
      the end of a region, for regions that stop at their end as [Bytes]
      documents ([BoundedRegionSpec]) and for those of [mmap.rs], which do not.
    - [Refine]: an abstract machine of guest memory (ranges of addresses, and a
      byte at each address), and the refinement of it by [GuestMemoryMmap].
    - [MmapWindows] ([mmap_windows.rs]): mappings on Windows, with [kernel32] as a
      parameter ([WinOS], [WinSpec]).
    - [Atomic] ([atomic.rs]): [GuestMemoryAtomic] with [ArcSwap] as a parameter
      ([ArcSwapSpec]), and programs of several threads as a step relation.
    - [AddressSpace] ([guest_memory.rs]): the trait [GuestAddressSpace] as a class,
      with its implementations for [&M], [Rc], [Arc] and [GuestMemoryAtomic].
    - [Snapshots]: [GuestMemoryAtomic<GuestMemoryMmap>] and its clones, which composes
      [Atomic], [AddressSpace] and [Arcs].
    - [Display]: the messages of the error types.
    - [Tests], [TestsMmap] and [TestsThreads]: the unit tests of the crate, as definitions that
      evaluate on the model, and which of them pass.  Those of [mmap.rs],
      [guest_memory.rs] and [atomic.rs] omit the process id that the constructors
      take, and are given that of the process itself.
    - [Witnesses]: the theorems about guest memory at concrete inputs.  The
      theorems of the other files have their witnesses at the end of the file.

    ** What the theorems show

    - Addresses: alignment gives the least multiple, and the checked, overflowing
      and unchecked operations agree.
    - Copies: a copy of any alignment has the effect of a [memcpy], and an
      aligned integer of at most a word is moved by one access; so a reader never
      sees a mixture of the values that threads write at the same time.
    - Volatile memory: derived slices and references are within bounds; writes
      store a prefix and nothing else, reads return it; streams move a prefix and
      report how much; atomic accesses reject misaligned addresses.
    - Remote memory: what each transfer reports is what it did; a value within a
      word is stored without touching the rest of the word, and the cases in which
      the accesses panic are exactly characterised.  Stores of several threads into
      different words all take effect, in any interleaving; into the same word
      one can be lost.
    - Shared guest memory: a value within an aligned chunk of at most [ALG] bytes, in
      one region, that is only accessed with the whole chunk is never torn, whatever
      the threads that write and read it and the order in which the system moves the
      bytes.
    - Guest memory: [try_access] terminates, and its rule [try_access_wp] gives
      [check_range], [read_from] and [write_to] across regions and across the end
      of the address space, in terms of the bytes at guest-physical addresses
      ([guest_byte], [stored]); accesses within a region store and return the
      buffer.
    - Mappings: creation checks its arguments; [find_region] by binary search finds
      the region; the constructors, [insert_region] and [remove_region]
      preserve the order of the regions and report every violation of it.
    - Refinement: every sequence of operations that a client may make on a
      [GuestMemoryMmap] is a run of the abstract guest memory; the operations
      on vectors of [Arc] refine those on the regions.
    - Sharing: no reference to a dropped region, map or file is ever followed, and each
      is dropped once, exactly when nothing refers to it any more; a program can
      always release everything.  The system calls of a step are the [munmap]s of the
      regions it releases that own their mapping, with their address and size.
    - Atomic maps: one writer at a time, snapshots are maps that were current,
      stay as they are and keep their regions; no update is lost, and none gets stuck.
    - Address spaces: what [memory] returns is a counted reference to the current map,
      in each of the implementations; it outlives the address space, and the last
      one drops the map.
    - Windows: what the constructors and [Drop] leave behind.
    - Messages: no two errors of a type have the same message.
    - Defects: the theorems [write_across_misplaced], [region_write_overruns],
      [memory_atomic_access], [process_access_panics], [process_store_race], [empty_region_panics],
      [vs_copy_zero_sized_panics] and [win_from_file_outcome] state what the code
      does where that is not what its documentation says.

    ** Bounds

    A loop runs at most [2^64] steps.  Every loop of the source either advances a
    64-bit counter or retries a call that was interrupted; the theorems show
    that it returns ([wp] excludes [OutOfFuel]) when the count and the number
    of interruptions that are still to come are together below the bound.

    ** Not modelled

    The texts of [io::Error] and [nix::Error]; weak memory orderings and fences, as
    memory is sequentially consistent here and an access is one step (an ordering that
    an atomic access cannot have does panic, as in the standard library); [log];
    benchmarks, which measure time; the module declarations and re-exports of [lib.rs];
    the examples in documentation. *)

From stdpp Require Export base tactics numbers list gmap option.
From Stdlib Require Export ZArith Lia.
From Stdlib Require Import Eqdep_dec.
From Stdlib Require Export Init.Byte.
From Stdlib Require Import Strings.Byte.

#[global] Open Scope Z_scope.

(** ** The compilation target

    The source is compiled for targets with 32-bit and 64-bit pointers, in
    profiles with and without arithmetic overflow checks, and for both byte
    orders.  Every definition that depends on one of these choices takes it
    from this class, and theorems quantify over all targets. *)
Class Target := {
  pointer_width_64 : bool;  (** [cfg(target_pointer_width = "64")] *)
  overflow_checks : bool;   (** [+], [-], [*] panic on overflow instead of wrapping *)
  debug_assertions : bool;  (** [debug_assert!] is compiled in *)
  target_big_endian : bool  (** [cfg(target_endian = "big")] *)
}.

(** The target of the tests: 64-bit little endian, debug profile. *)
Definition x86_64_debug : Target := {|
  pointer_width_64 := true; overflow_checks := true;
  debug_assertions := true; target_big_endian := false |}.

(** The same machine in the release profile. *)
Definition x86_64_release : Target := {|
  pointer_width_64 := true; overflow_checks := false;
  debug_assertions := false; target_big_endian := false |}.

(** A 32-bit target in the debug profile. *)
Definition armv7_debug : Target := {|
  pointer_width_64 := false; overflow_checks := true;
  debug_assertions := true; target_big_endian := false |}.

(** ** Outcomes and results

    Evaluating a Rust expression returns a value, panics, performs undefined
    behaviour (an access through a raw pointer to memory that is not there or
    is misaligned), or does not stop within the loop bound of [while_loop].
    Rust's own [Result] is the ordinary data type [result]. *)
Inductive outcome (A : Type) :=
| Ret (a : A)
| Panic
| Undef
| OutOfFuel.
Arguments Ret {A} a.
Arguments Panic {A}.
Arguments Undef {A}.
Arguments OutOfFuel {A}.

Inductive result (A E : Type) :=
| Ok (a : A)
| Err (e : E).
Arguments Ok {A E} a.
Arguments Err {A E} e.

#[export] Instance outcome_ret : MRet outcome := @Ret.
#[export] Instance outcome_bind : MBind outcome := λ A B f o,
  match o with
  | Ret a => f a
  | Panic => Panic
  | Undef => Undef
  | OutOfFuel => OutOfFuel
  end.

#[export] Instance outcome_eq_dec `{EqDecision A} : EqDecision (outcome A).
Proof. solve_decision. Defined.
#[export] Instance result_eq_dec `{EqDecision A, EqDecision E} : EqDecision (result A E).
Proof. solve_decision. Defined.

Lemma bind_ret {A B} (a : A) (f : A → outcome B) : (Ret a ≫= f) = f a.
Proof. done. Qed.

Declare Scope rust_scope.
#[global] Open Scope rust_scope.

(** The [?] operator: on a computation that returns a [Result]; and on one
    that also returns the new state. *)
Notation "'let?' x := o 'in' k" :=
  (mbind (λ r, match r with Ok x => k | Err e => Ret (Err e) end) o)
  (at level 10, x name, k at level 200) : rust_scope.
Notation "'let?' x ',' s := o 'in' k" :=
  (mbind (λ p, match p with (Ok x, s) => k | (Err e, s) => Ret (Err e, s) end) o)
  (at level 10, x name, s name, k at level 200) : rust_scope.

(** [assert!(c)], and [Option::unwrap]. *)
Definition rassert (c : bool) : outcome unit := if c then Ret tt else Panic.
Definition unwrap {A} (o : option A) : outcome A :=
  match o with Some a => Ret a | None => Panic end.

(** [Option::ok_or] and [Result::map_err]. *)
Definition ok_or {A E} (o : option A) (e : E) : result A E :=
  match o with Some a => Ok a | None => Err e end.
Definition map_err {A E F} (f : E → F) (r : result A E) : result A F :=
  match r with Ok a => Ok a | Err e => Err (f e) end.

(** ** Machine integers

    A [w]-bit unsigned integer is a [Z] in [0 .. 2^w - 1]. *)
Section machine_integers.
Context `{Target}.

Definition usize_bytes : Z := if pointer_width_64 then 8 else 4.
Definition usize_bits : Z := 8 * usize_bytes.
Definition usize_max : Z := 2 ^ usize_bits - 1.
Definition isize_max : Z := 2 ^ (usize_bits - 1) - 1.
Definition u64_max : Z := 2 ^ 64 - 1.

Definition in_bits (w z : Z) : Prop := 0 ≤ z < 2 ^ w.
Definition wrap (w z : Z) : Z := z `mod` 2 ^ w.

(** [x as usize], [x as u64]. *)
Definition as_usize (z : Z) : Z := wrap usize_bits z.
Definition as_u64 (z : Z) : Z := wrap 64 z.

(** [checked_*], [overflowing_*]. *)
Definition uint_checked_add (w a b : Z) : option Z :=
  if a + b <? 2 ^ w then Some (a + b) else None.
Definition uint_checked_sub (a b : Z) : option Z :=
  if b <=? a then Some (a - b) else None.
Definition uint_overflowing_add (w a b : Z) : Z * bool :=
  (wrap w (a + b), 2 ^ w <=? a + b).
Definition uint_overflowing_sub (w a b : Z) : Z * bool :=
  (wrap w (a - b), a <? b).

(** The operators [+], [-] and [*]: what overflow does is the profile's. *)
Definition arith (w z : Z) : outcome Z :=
  if (0 <=? z) && (z <? 2 ^ w) then Ret z
  else if overflow_checks then Panic else Ret (wrap w z).
Definition uadd (w a b : Z) : outcome Z := arith w (a + b).
Definition usub (w a b : Z) : outcome Z := arith w (a - b).
Definition umul (w a b : Z) : outcome Z := arith w (a * b).

(** [!x] on a [w]-bit integer. *)
Definition unot (w a : Z) : Z := 2 ^ w - 1 - a.
End machine_integers.

(** ** Total correctness of outcomes *)

(** [wp o Q]: [o] returns, and what it returns satisfies [Q]. *)
Definition wp {A} (o : outcome A) (Q : A → Prop) : Prop :=
  match o with Ret a => Q a | _ => False end.

Lemma wp_ret {A} (a : A) Q : Q a → wp (Ret a) Q.
Proof. done. Qed.
Lemma wp_bind {A B} (o : outcome A) (f : A → outcome B) Q :
  wp (o ≫= f) Q ↔ wp o (λ a, wp (f a) Q).
Proof. by destruct o. Qed.
Lemma wp_mono {A} (o : outcome A) (P Q : A → Prop) :
  wp o P → (∀ a, P a → Q a) → wp o Q.
Proof. destruct o; simpl; auto. Qed.
Lemma wp_inv {A} (o : outcome A) Q : wp o Q → ∃ a, o = Ret a ∧ Q a.
Proof. destruct o; simpl; intros; try done. eauto. Qed.
Lemma wp_eq {A} (o : outcome A) a : wp o (λ b, b = a) ↔ o = Ret a.
Proof. destruct o; simpl; naive_solver. Qed.

(** ** Loops

    [while_loop step s] runs [step] until it returns [inr].  [iterate n] runs
    up to [2^n] steps, so the bound of [while_loop] is [2^64] steps, which no
    loop over a 64-bit counter exceeds; the bound is reached by doubling, so
    evaluating it costs nothing when the loop stops early. *)
Section loops.
Context {S R : Type} (step : S → outcome (S + R)).

Fixpoint iterate (n : nat) (s : S) : outcome (S + R) :=
  match n with
  | O => step s
  | Datatypes.S n =>
      r ← iterate n s;
      match r with
      | inl s' => iterate n s'
      | inr r => Ret (inr r)
      end
  end.

Definition while_loop (s : S) : outcome R :=
  r ← iterate 64 s;
  match r with
  | inl _ => OutOfFuel
  | inr r => Ret r
  end.

Section rule.
Context (Inv : S → Prop) (m : S → Z) (Q : R → Prop).
Context (Hm : ∀ s, Inv s → 0 ≤ m s).
Context (Hstep : ∀ s, Inv s → wp (step s) (λ r,
  match r with inl s' => Inv s' ∧ m s' < m s | inr r => Q r end)).

Lemma iterate_wp n s :
  Inv s → wp (iterate n s) (λ r,
    match r with inl s' => Inv s' ∧ m s' ≤ m s - 2 ^ Z.of_nat n | inr r => Q r end).
Proof.
  revert s. induction n as [|n IH]; intros s Hs; simpl.
  - eapply wp_mono; [by apply Hstep|]. intros [s'|r]; [|done].
    rewrite Z.pow_0_r. intros [??]. split; [done|lia].
  - apply wp_bind. eapply wp_mono; [by apply IH|]. intros [s'|r]; [|done].
    intros [Hs' ?]. eapply wp_mono; [by apply IH|]. intros [s''|r]; [|done].
    intros [? ?]. split; [done|]. rewrite Nat2Z.inj_succ, Z.pow_succ_r by lia. lia.
Qed.

(** The rule for loops: an invariant and a measure below the bound give
    termination and the postcondition. *)
Lemma while_loop_wp s : Inv s → m s < 2 ^ 64 → wp (while_loop s) Q.
Proof.
  intros Hs Hlt. unfold while_loop. apply wp_bind.
  eapply wp_mono; [by apply iterate_wp|]. intros [s'|r]; [|done].
  intros [Hs' Hle]. apply Hm in Hs'.
  change (Z.of_nat 64) with 64 in Hle. lia.
Qed.
End rule.
End loops.

#[global] Arguments while_loop : simpl never.

(** A loop that stops at its first step. *)
Lemma while_loop_once {S R} (step : S → outcome (S + R)) s o :
  step s = (r ← o; Ret (inr r)) → while_loop step s = o.
Proof.
  intros Hs. unfold while_loop.
  assert (∀ n, iterate step n s = (r ← o; Ret (inr r))) as Hi.
  { induction n as [|n IH]; simpl; [done|]. rewrite IH. by destruct o. }
  rewrite Hi. by destruct o.
Qed.

(** Two runs of a loop stay related when two runs of its body do. *)
Section related.
Context {S R : Type} (step : S → outcome (S + R)) (P : S → S → Prop) (Q : R → R → Prop).
Definition related (rs rt : S + R) : Prop :=
  match rs, rt with inl s, inl t => P s t | inr r, inr r' => Q r r' | _, _ => False end.
Context (Hstep : ∀ s t rs rt, P s t → step s = Ret rs → step t = Ret rt → related rs rt).

Lemma iterate_related n s t rs rt :
  P s t → iterate step n s = Ret rs → iterate step n t = Ret rt → related rs rt.
Proof.
  revert s t rs rt. induction n as [|n IH]; intros s t rs rt Hst; simpl; [by apply Hstep|].
  destruct (iterate step n s) as [rs1| | |] eqn:Es; simpl; [|done..].
  destruct (iterate step n t) as [rt1| | |] eqn:Et; [|destruct rs1; done..].
  pose proof (IH _ _ _ _ Hst Es Et) as H1.
  destruct rs1, rt1; simpl; try done; [by apply IH|]. by intros [= <-] [= <-].
Qed.
Lemma while_loop_related s t r r' :
  P s t → while_loop step s = Ret r → while_loop step t = Ret r' → Q r r'.
Proof.
  unfold while_loop. intros Hst. pose proof (iterate_related 64 s t) as Hr. revert Hr.
  generalize (iterate step 64 s) (iterate step 64 t). intros os ot Hr.
  destruct os as [[?|rs]| | |], ot as [[?|rt]| | |]; simpl; try done.
  intros [= <-] [= <-]. by apply (Hr (inr rs) (inr rt)).
Qed.
End related.

(** Loops are reasoned about with their rules, and evaluated by [vm_compute]. *)
#[global] Opaque while_loop.

(** ** Lemmas on machine integers *)
Create HintDb rust discriminated.
#[export] Hint Constants Opaque : rust.

Lemma pow2_pos w : 0 ≤ w → 0 < 2 ^ w.
Proof. intros. by apply Z.pow_pos_nonneg. Qed.

Lemma usize_bits_cases `{Target} :
  (usize_bits = 32 ∧ usize_bytes = 4) ∨ (usize_bits = 64 ∧ usize_bytes = 8).
Proof. unfold usize_bits, usize_bytes. destruct pointer_width_64; auto. Qed.

Lemma usize_le_u64 `{Target} z : in_bits usize_bits z → in_bits 64 z.
Proof.
  unfold in_bits. destruct usize_bits_cases as [[-> _]|[-> _]]; [|done].
  intros. split; [lia|]. trans (2 ^ 32); [lia|done].
Qed.

Lemma wrap_small w z : in_bits w z → wrap w z = z.
Proof. intros. by apply Z.mod_small. Qed.
Lemma wrap_range w z : 0 ≤ w → in_bits w (wrap w z).
Proof. intros. by apply Z.mod_pos_bound, pow2_pos. Qed.

Lemma as_usize_small `{Target} z : in_bits usize_bits z → as_usize z = z.
Proof. apply wrap_small. Qed.
Lemma as_usize_range `{Target} z : in_bits usize_bits (as_usize z).
Proof. apply wrap_range. by destruct usize_bits_cases as [[-> _]|[-> _]]. Qed.
Lemma as_u64_small z : in_bits 64 z → as_u64 z = z.
Proof. apply wrap_small. Qed.

Lemma arith_ok `{Target} w z : in_bits w z → arith w z = Ret z.
Proof.
  intros [??]. unfold arith.
  rewrite (proj2 (Z.leb_le _ _)), (proj2 (Z.ltb_lt _ _)); auto.
Qed.
Lemma arith_overflow `{Target} w z :
  ¬ in_bits w z → arith w z = if overflow_checks then Panic else Ret (wrap w z).
Proof.
  unfold in_bits, arith. intros Hn.
  destruct (Z.leb_spec 0 z), (Z.ltb_spec z (2 ^ w)); simpl; auto. lia.
Qed.

Lemma uadd_ok `{Target} w a b : in_bits w (a + b) → uadd w a b = Ret (a + b).
Proof. apply arith_ok. Qed.
Lemma usub_ok `{Target} w a b : in_bits w (a - b) → usub w a b = Ret (a - b).
Proof. apply arith_ok. Qed.
Lemma umul_ok `{Target} w a b : in_bits w (a * b) → umul w a b = Ret (a * b).
Proof. apply arith_ok. Qed.

Lemma uint_checked_add_Some w a b c :
  uint_checked_add w a b = Some c ↔ c = a + b ∧ a + b < 2 ^ w.
Proof. unfold uint_checked_add. destruct (Z.ltb_spec (a + b) (2 ^ w)); split; intros; destruct_and?; simplify_eq; first [done|lia|split; lia|f_equal; lia]. Qed.
Lemma uint_checked_add_None w a b :
  uint_checked_add w a b = None ↔ 2 ^ w ≤ a + b.
Proof. unfold uint_checked_add. destruct (Z.ltb_spec (a + b) (2 ^ w)); split; intros; destruct_and?; simplify_eq; first [done|lia|split; lia|f_equal; lia]. Qed.
Lemma uint_checked_sub_Some a b c :
  uint_checked_sub a b = Some c ↔ c = a - b ∧ b ≤ a.
Proof. unfold uint_checked_sub. destruct (Z.leb_spec b a); split; intros; destruct_and?; simplify_eq; first [done|lia|split; lia|f_equal; lia]. Qed.
Lemma uint_checked_sub_None a b :
  uint_checked_sub a b = None ↔ a < b.
Proof. unfold uint_checked_sub. destruct (Z.leb_spec b a); split; intros; destruct_and?; simplify_eq; first [done|lia|split; lia|f_equal; lia]. Qed.

(** ** Masks and powers of two *)
Lemma land_low_mask a k : 0 ≤ k → Z.land a (2 ^ k - 1) = a `mod` 2 ^ k.
Proof.
  intros. rewrite <-Z.land_ones by done. f_equal.
  rewrite Z.ones_equiv. lia.
Qed.

Lemma testbit_high w a n : 0 ≤ w → in_bits w a → w ≤ n → Z.testbit a n = false.
Proof.
  intros Hw Ha Hn. rewrite <-(Z.mod_small a (2 ^ w)) by done.
  apply Z.mod_pow2_bits_high. lia.
Qed.

(** Masking with the complement of a low mask rounds down. *)
Lemma land_high_mask w a k :
  0 ≤ k ≤ w → in_bits w a →
  Z.land a (unot w (2 ^ k - 1)) = a - a `mod` 2 ^ k.
Proof.
  intros Hk Ha. unfold unot.
  assert (Z.land a (2 ^ w - 1 - (2 ^ k - 1)) + Z.land a (2 ^ k - 1) = a); cycle 1.
  { rewrite land_low_mask in H by lia. lia. }
  assert (2 ^ w - 1 - (2 ^ k - 1) = Z.ldiff (Z.ones w) (Z.ones k)) as ->.
  { rewrite <-Z.sub_nocarry_ldiff; [rewrite !Z.ones_equiv; lia|].
    apply Z.bits_inj'. intros n Hn. rewrite Z.ldiff_spec, Z.bits_0.
    rewrite !Z.testbit_ones_nonneg by lia.
    destruct (Z.ltb_spec n k), (Z.ltb_spec n w); simpl; auto; lia. }
  replace (2 ^ k - 1) with (Z.ones k) by (rewrite Z.ones_equiv; lia).
  rewrite Z.add_nocarry_lxor.
  - apply Z.bits_inj'. intros n Hn.
    rewrite Z.lxor_spec, !Z.land_spec, Z.ldiff_spec, !Z.testbit_ones_nonneg by lia.
    destruct (Z.ltb_spec n w), (Z.ltb_spec n k); simpl; try lia;
      destruct (Z.testbit a n) eqn:E; simpl; try done.
    by rewrite (testbit_high w) in E by (done || lia).
  - apply Z.bits_inj'. intros n Hn.
    rewrite !Z.land_spec, Z.ldiff_spec, !Z.testbit_ones_nonneg, Z.bits_0 by lia.
    destruct (Z.ltb_spec n k); simpl; rewrite ?andb_false_r; done.
Qed.

Definition is_pow2 (p : Z) : Prop := ∃ k, 0 ≤ k ∧ p = 2 ^ k.

(** Every positive integer is an odd multiple of a power of two. *)
Lemma pow2_odd_decompose a : 0 < a → ∃ v q, 0 ≤ v ∧ 0 ≤ q ∧ a = 2 ^ v * (2 * q + 1).
Proof.
  induction a as [a IH] using (well_founded_induction (Z.lt_wf 0)). intros Ha. destruct (Z.Even_or_Odd a) as [[b ->]|[b ->]].
  - destruct (IH b) as (v & q & ? & ? & ->); [lia..|].
    exists (v + 1), q. rewrite Z.pow_add_r by lia. lia.
  - exists 0, b. rewrite Z.pow_0_r. lia.
Qed.

(** [x & (x - 1)] is zero on exactly zero and the powers of two. *)
Lemma land_pred_zero p : 0 < p → Z.land p (p - 1) = 0 ↔ is_pow2 p.
Proof.
  intros Hp. split.
  - intros Hl. destruct (pow2_odd_decompose p Hp) as (v & q & ? & ? & ->).
    assert (0 < 2 ^ v) by (apply pow2_pos; lia).
    exists v. split; [done|]. destruct (decide (q = 0)) as [->|]; [lia|]. exfalso.
    assert (Z.testbit 0 (Z.log2 q + 1 + v) = true) as Hb; [|by rewrite Z.bits_0 in Hb].
    pose proof (Z.log2_nonneg q). rewrite <-Hl, Z.land_spec.
    replace (2 ^ v * (2 * q + 1) - 1) with (2 ^ v * (2 * q) + (2 ^ v - 1)) by lia.
    assert (∀ r x, 0 ≤ r < 2 ^ v → Z.testbit (2 ^ v * x + r) (Z.log2 q + 1 + v)
      = Z.testbit x (Z.log2 q + 1)) as Hbit.
    { intros r x Hr. rewrite <-Z.div_pow2_bits by lia. f_equal.
      rewrite (Z.mul_comm (2 ^ v)), Z.div_add_l, Z.div_small; lia. }
    rewrite <-(Z.add_0_r (2 ^ v * (2 * q + 1))), !Hbit by lia.
    replace (Z.log2 q + 1) with (Z.succ (Z.log2 q)) by lia.
    rewrite Z.testbit_odd_succ, Z.testbit_even_succ, Z.bit_log2 by lia. done.
  - intros (k & Hk & ->). rewrite land_low_mask by done. apply Z_mod_same_full.
Qed.

(** The lowest set bit, [a & -a] on [w] bits. *)
Lemma land_opp_lowest_bit w v q :
  0 ≤ v → 0 ≤ q → 0 ≤ w → 2 ^ v * (2 * q + 1) < 2 ^ w →
  Z.land (2 ^ v * (2 * q + 1)) (2 ^ w - 2 ^ v * (2 * q + 1)) = 2 ^ v.
Proof.
  intros Hv Hq Hw Hlt. assert (0 < 2 ^ v) by (apply pow2_pos; lia).
  assert (v < w) as Hvw. { apply (Z.pow_lt_mono_r_iff 2); nia. }
  replace (2 ^ w) with (2 ^ v * (2 * 2 ^ (w - v - 1))); cycle 1.
  { rewrite <-Z.pow_succ_r, <-Z.pow_add_r by lia. f_equal. lia. }
  assert (q < 2 ^ (w - v - 1)) as Hqlt.
  { apply (Z.mul_lt_mono_pos_l (2 ^ v * 2)); [lia|].
    replace (2 ^ v * 2 * 2 ^ (w - v - 1)) with (2 ^ w); [lia|].
    rewrite <-(Z.pow_1_r 2) at 3. rewrite <-!Z.pow_add_r by lia. f_equal. lia. }
  set (Q := 2 ^ (w - v - 1)) in *.
  replace (2 ^ v * (2 * Q) - 2 ^ v * (2 * q + 1)) with (2 ^ v * (2 * (Q - 1 - q) + 1)) by lia.
  rewrite !(Z.mul_comm (2 ^ v)), <-!Z.shiftl_mul_pow2, <-Z.shiftl_land by lia.
  replace (Z.land (2 * q + 1) (2 * (Q - 1 - q) + 1)) with 1; [by rewrite Z.shiftl_1_l|].
  symmetry. apply Z.bits_inj'. intros n Hn. rewrite Z.land_spec.
  destruct (decide (n = 0)) as [->|].
  { by rewrite !Z.testbit_odd_0. }
  replace n with (Z.succ (n - 1)) by lia. rewrite !Z.testbit_odd_succ by lia.
  assert (Z.testbit 1 (Z.succ (n - 1)) = false) as -> by (by apply (Z.bits_above_log2 1); simpl; lia).
  assert (Q - 1 - q = Z.ldiff (Z.ones (w - v - 1)) q) as ->.
  { rewrite <-Z.sub_nocarry_ldiff; [rewrite Z.ones_equiv; unfold Q; lia|].
    apply Z.bits_inj'. intros i Hi. rewrite Z.ldiff_spec, Z.bits_0, Z.testbit_ones_nonneg by lia.
    destruct (Z.ltb_spec i (w - v - 1)); rewrite ?andb_false_r; [done|].
    by rewrite (testbit_high (w - v - 1)) by (done || lia). }
  rewrite Z.ldiff_spec. destruct (Z.testbit q (n - 1)); simpl; rewrite ?andb_false_r; done.
Qed.

(** ** Other primitives of the language *)

(** [a / b] on unsigned integers. *)
Definition udiv (a b : Z) : outcome Z := if b =? 0 then Panic else Ret (a / b).

(** [ptr::align_offset(al)] for a pointer to bytes: how far the next multiple
    of [al] is. *)
Definition align_offset (a al : Z) : Z := (- a) `mod` al.

(** [ptr::add] and [ptr::offset] by a non-negative amount: leaving the address
    space is undefined behaviour. *)
Definition ptr_add `{Target} (a n : Z) : outcome Z :=
  if a + n <? 2 ^ usize_bits then Ret (a + n) else Undef.

Lemma ptr_add_ok `{Target} a n : a + n < 2 ^ usize_bits → ptr_add a n = Ret (a + n).
Proof. intros. unfold ptr_add. by rewrite (proj2 (Z.ltb_lt _ _)). Qed.

Lemma align_offset_zero a al : 0 < al → align_offset a al = 0 ↔ a `mod` al = 0.
Proof.
  intros. unfold align_offset.
  rewrite !Z.mod_divide by lia. by rewrite Z.divide_opp_r.
Qed.
Lemma align_offset_pos a al :
  0 < al → a `mod` al ≠ 0 → align_offset a al = al - a `mod` al.
Proof.
  intros. unfold align_offset. rewrite Z.mod_opp_l_nz by lia. lia.
Qed.

(** ** Lists *)
Lemma Forall_elem {A} (P : A → Prop) (l : list A) : Forall P l ↔ ∀ x, x ∈ l → P x.
Proof.
  rewrite Forall_forall. split; intros Hf x Hx; apply Hf; by apply list_elem_of_In.
Qed.
