(* ===== verification/Memory.v ===== *)
(** * Bytes and flat memory

    What the source takes from the language: bytes, the native representation
    of integers, and raw-pointer accesses to the memory of the process.  A
    memory maps the addresses that are mapped to the byte stored there; a raw
    access to an address that is not mapped, or a typed access that is
    misaligned, is undefined behaviour ([Undef]). *)

From S2P Require Import Prelude.
From Stdlib Require Strings.Byte.

Abbreviation lenZ l := (Z.of_nat (length l)).

#[export] Instance byte_eq_dec : EqDecision byte := Strings.Byte.byte_eq_dec.
#[export] Instance byte_inhabited : Inhabited byte := populate x00.

(** ** Bytes as numbers *)
Definition byte_val (b : byte) : Z := Z.of_N (Strings.Byte.to_N b).
Definition byte_of (z : Z) : byte :=
  default x00 (Strings.Byte.of_N (Z.to_N (z `mod` 256))).

Lemma byte_val_range b : 0 ≤ byte_val b < 256.
Proof. unfold byte_val. pose proof (Strings.Byte.to_N_bounded b). lia. Qed.
Lemma byte_of_val b : byte_of (byte_val b) = b.
Proof.
  unfold byte_of. rewrite Z.mod_small by apply byte_val_range.
  unfold byte_val. by rewrite N2Z.id, Strings.Byte.of_to_N.
Qed.
Lemma byte_val_of z : byte_val (byte_of z) = z `mod` 256.
Proof.
  unfold byte_of. pose proof (Z.mod_pos_bound z 256 eq_refl).
  destruct (Strings.Byte.of_N (Z.to_N (z `mod` 256))) as [b|] eqn:E; simpl.
  - apply Strings.Byte.to_of_N in E. unfold byte_val. rewrite E. lia.
  - apply Strings.Byte.of_N_None_iff in E. lia.
Qed.
Lemma byte_val_inj b c : byte_val b = byte_val c → b = c.
Proof. intros E. by rewrite <-(byte_of_val b), E, byte_of_val. Qed.

(** Little-endian digits of an integer, and the integer of a list of digits. *)
Fixpoint le_bytes (n : nat) (z : Z) : list byte :=
  match n with
  | O => []
  | S n => byte_of z :: le_bytes n (z / 256)
  end.
Fixpoint le_value (bs : list byte) : Z :=
  match bs with
  | [] => 0
  | b :: bs => byte_val b + 256 * le_value bs
  end.

Lemma length_le_bytes n z : length (le_bytes n z) = n.
Proof. revert z. induction n; intros; simpl; auto. Qed.

Lemma le_value_le_bytes n z : le_value (le_bytes n z) = z `mod` 2 ^ (8 * Z.of_nat n).
Proof.
  revert z. induction n as [|n IH]; intros z; simpl.
  { by rewrite Z.mod_1_r. }
  rewrite IH, byte_val_of.
  replace (8 * Z.of_nat (S n)) with (8 + 8 * Z.of_nat n) by lia.
  rewrite Z.pow_add_r by lia. change (2 ^ 8) with 256.
  rewrite Z.rem_mul_r; [done|done|]. apply pow2_pos. lia.
Qed.

Lemma le_value_range bs : in_bits (8 * lenZ bs) (le_value bs).
Proof.
  induction bs as [|b bs IH]; simpl; [done|].
  pose proof (byte_val_range b).
  unfold in_bits in *. replace (8 * Z.of_nat (S (length bs))) with (8 + 8 * lenZ bs) by lia.
  rewrite Z.pow_add_r by lia. change (2 ^ 8) with 256. lia.
Qed.

Lemma le_bytes_le_value bs : le_bytes (length bs) (le_value bs) = bs.
Proof.
  induction bs as [|b bs IH]; simpl; [done|].
  pose proof (byte_val_range b). f_equal.
  - apply byte_val_inj. rewrite byte_val_of.
    rewrite (Z.mul_comm 256), Z.mod_add by done. by apply Z.mod_small.
  - rewrite (Z.mul_comm 256), Z.div_add, Z.div_small by lia. done.
Qed.

(** The representation of an integer in memory, by the target's byte order. *)
Definition ne_bytes `{Target} (n : nat) (z : Z) : list byte :=
  if target_big_endian then rev (le_bytes n z) else le_bytes n z.
Definition ne_value `{Target} (bs : list byte) : Z :=
  le_value (if target_big_endian then rev bs else bs).

Lemma length_ne_bytes `{Target} n z : length (ne_bytes n z) = n.
Proof.
  unfold ne_bytes. destruct target_big_endian; rewrite ?length_rev; apply length_le_bytes.
Qed.
Lemma ne_value_ne_bytes `{Target} n z :
  ne_value (ne_bytes n z) = z `mod` 2 ^ (8 * Z.of_nat n).
Proof.
  unfold ne_value, ne_bytes.
  destruct target_big_endian; rewrite ?rev_involutive; apply le_value_le_bytes.
Qed.
Lemma ne_bytes_mod `{Target} n z z' :
  z `mod` 2 ^ (8 * Z.of_nat n) = z' `mod` 2 ^ (8 * Z.of_nat n) → ne_bytes n z = ne_bytes n z'.
Proof.
  intros E. assert (∀ x, le_bytes n x = le_bytes n (le_value (le_bytes n x))) as Hle.
  { intros x. pose proof (le_bytes_le_value (le_bytes n x)) as Hx. by rewrite length_le_bytes in Hx. }
  unfold ne_bytes. by rewrite (Hle z), (Hle z'), !le_value_le_bytes, E.
Qed.
Lemma ne_bytes_ne_value `{Target} bs : ne_bytes (length bs) (ne_value bs) = bs.
Proof.
  unfold ne_value, ne_bytes. destruct target_big_endian; [|apply le_bytes_le_value].
  rewrite <-(length_rev bs), le_bytes_le_value. apply rev_involutive.
Qed.
Lemma ne_value_range `{Target} bs : in_bits (8 * lenZ bs) (ne_value bs).
Proof.
  unfold ne_value. destruct target_big_endian; [|apply le_value_range].
  rewrite <-(length_rev bs). apply le_value_range.
Qed.

(** ** Memory *)
Abbreviation mem := (gmap Z byte).

(** All of [a .. a + n - 1] is mapped. *)
Definition mapped (m : mem) (a n : Z) : Prop := ∀ i, 0 ≤ i < n → is_Some (m !! (a + i)).

Fixpoint load_list (m : mem) (a : Z) (n : nat) : option (list byte) :=
  match n with
  | O => Some []
  | S n => b ← m !! a; bs ← load_list m (a + 1) n; Some (b :: bs)
  end.
(** [store_list m a bs] overwrites the bytes at [a] with [bs]. *)
Fixpoint store_list (m : mem) (a : Z) (bs : list byte) : mem :=
  match bs with
  | [] => m
  | b :: bs => <[a := b]> (store_list m (a + 1) bs)
  end.

(** Reading and writing [n] bytes through a raw pointer. *)
Definition read_bytes (m : mem) (a n : Z) : outcome (list byte) :=
  match load_list m a (Z.to_nat n) with
  | Some bs => Ret bs
  | None => Undef
  end.
Definition write_bytes (m : mem) (a : Z) (bs : list byte) : outcome mem :=
  match load_list m a (length bs) with
  | Some _ => Ret (store_list m a bs)
  | None => Undef
  end.

(** [read_volatile::<T>] and [write_volatile::<T>] for a [T] of size [n] and
    alignment [al]. *)
Definition read_volatile (al : Z) (m : mem) (a n : Z) : outcome (list byte) :=
  if a `mod` al =? 0 then read_bytes m a n else Undef.
Definition write_volatile (al : Z) (m : mem) (a : Z) (bs : list byte) : outcome mem :=
  if a `mod` al =? 0 then write_bytes m a bs else Undef.

(** [ptr::copy(src, dst, n)], which allows the two ranges to overlap. *)
Definition ptr_copy (m : mem) (src dst n : Z) : outcome mem :=
  bs ← read_bytes m src n; write_bytes m dst bs.

(** [&l[a..b]] and [l[a..b].copy_from_slice(src)] on a slice held by value. *)
Definition index_range (l : list byte) (a b : Z) : outcome (list byte) :=
  if (a <=? b) && (b <=? lenZ l) then Ret (take (Z.to_nat (b - a)) (drop (Z.to_nat a) l))
  else Panic.
Definition update_range (l : list byte) (a b : Z) (src : list byte) : outcome (list byte) :=
  if (a <=? b) && (b <=? lenZ l) && (b - a =? lenZ src)
  then Ret (take (Z.to_nat a) l ++ src ++ drop (Z.to_nat b) l) else Panic.

(** ** Properties of memory *)
Lemma load_list_Some m a n bs :
  load_list m a n = Some bs ↔
  length bs = n ∧ ∀ i : nat, (i < n)%nat → m !! (a + Z.of_nat i) = bs !! i.
Proof.
  revert a bs. induction n as [|n IH]; intros a bs; simpl.
  { split; [intros [= <-]; split; [done|lia]|]. intros [Hl _]. by destruct bs. }
  split.
  - intros H. destruct (m !! a) as [b|] eqn:Hb; [|done].
    destruct (load_list m (a + 1) n) as [cs|] eqn:Hc; [|done]. simplify_eq/=.
    apply IH in Hc as [Hl Hi].
    split; [simpl; lia|]. intros [|i] ?; simpl.
    + by replace (a + Z.of_nat 0) with a by lia.
    + rewrite <-Hi by lia. f_equal. lia.
  - intros [Hl Hi]. destruct bs as [|b bs]; simplify_eq/=.
    pose proof (Hi O ltac:(lia)) as H0. rewrite Z.add_0_r in H0. rewrite H0. simpl.
    rewrite (proj2 (IH (a + 1) bs)); [done|]. split; [lia|].
    intros i ?. pose proof (Hi (S i) ltac:(lia)) as HS. simpl in HS. rewrite <-HS. f_equal. lia.
Qed.

Lemma load_list_mapped m a n : mapped m a (Z.of_nat n) ↔ is_Some (load_list m a n).
Proof.
  revert a. induction n as [|n IH]; intros a; simpl.
  { split; [eauto|]. intros _ i ?. lia. }
  split.
  - intros H. destruct (H 0) as [b Hb]; [lia|]. rewrite Z.add_0_r in Hb. rewrite Hb. simpl.
    destruct (proj1 (IH (a + 1))) as [bs ->]; [|eauto].
    intros i ?. replace (a + 1 + i) with (a + (i + 1)) by lia. apply H. lia.
  - intros [bs H] i Hi. destruct (m !! a) as [b|] eqn:Hb; [|done].
    destruct (load_list m (a + 1) n) as [cs|] eqn:Hc; [|done].
    destruct (decide (i = 0)) as [->|]; [rewrite Z.add_0_r; eauto|].
    replace (a + i) with (a + 1 + (i - 1)) by lia. apply (IH (a + 1)); [rewrite Hc; eauto|lia].
Qed.

Lemma lookup_store_list m a bs x :
  store_list m a bs !! x =
    if decide (a ≤ x < a + lenZ bs) then bs !! Z.to_nat (x - a) else m !! x.
Proof.
  revert a. induction bs as [|b bs IH]; intros a; simpl.
  { case_decide; [lia|done]. }
  rewrite lookup_insert. case_decide.
  - subst. rewrite decide_True by lia. by rewrite Z.sub_diag.
  - rewrite IH. repeat case_decide; try lia; [|done].
    replace (Z.to_nat (x - a)) with (S (Z.to_nat (x - (a + 1)))) by lia. done.
Qed.

Lemma mapped_mono m a n b k : mapped m a n → a ≤ b → b + k ≤ a + n → mapped m b k.
Proof.
  intros H ?? i ?. replace (b + i) with (a + (b - a + i)) by lia. apply H. lia.
Qed.
Lemma mapped_store_list m a bs b n : mapped m b n → mapped (store_list m a bs) b n.
Proof.
  intros H i Hi. rewrite lookup_store_list. case_decide; [|by apply H].
  apply lookup_lt_is_Some. lia.
Qed.

Lemma read_bytes_mapped m a n :
  0 ≤ n → mapped m a n → ∃ bs, read_bytes m a n = Ret bs ∧ lenZ bs = n.
Proof.
  intros Hn Hm. unfold read_bytes.
  rewrite <-(Z2Nat.id n) in Hm by done. apply load_list_mapped in Hm as [bs E].
  rewrite E. apply load_list_Some in E as [E _]. exists bs. split; [done|lia].
Qed.
Lemma read_bytes_Ret m a n bs :
  0 ≤ n → read_bytes m a n = Ret bs ↔
  lenZ bs = n ∧ ∀ i, 0 ≤ i < n → m !! (a + i) = bs !! Z.to_nat i.
Proof.
  intros Hn. unfold read_bytes. destruct (load_list m a (Z.to_nat n)) as [cs|] eqn:E.
  - pose proof (proj1 (load_list_Some _ _ _ _) E) as [Hl Hi]. split.
    + intros [= <-]. split; [lia|]. intros i ?. rewrite <-Hi by lia. f_equal. lia.
    + intros [Hl' Hi']. f_equal. apply list_eq_same_length with (n := Z.to_nat n); [lia..|].
      intros i x y ? Hx Hy. specialize (Hi i ltac:(lia)). specialize (Hi' (Z.of_nat i) ltac:(lia)).
      rewrite Nat2Z.id in Hi'. congruence.
  - split; [done|]. intros [Hl Hi]. exfalso.
    assert (load_list m a (Z.to_nat n) = Some bs) as E'; [|by rewrite E in E'].
    apply load_list_Some. split; [lia|]. intros i ?. rewrite Hi by lia. by rewrite Nat2Z.id.
Qed.
Lemma write_bytes_mapped m a bs :
  mapped m a (lenZ bs) → write_bytes m a bs = Ret (store_list m a bs).
Proof. intros H. unfold write_bytes. by apply load_list_mapped in H as [cs ->]. Qed.
Lemma read_volatile_aligned al m a n :
  a `mod` al = 0 → read_volatile al m a n = read_bytes m a n.
Proof. intros H. unfold read_volatile. by rewrite H. Qed.
Lemma write_volatile_aligned al m a bs :
  a `mod` al = 0 → write_volatile al m a bs = write_bytes m a bs.
Proof. intros H. unfold write_volatile. by rewrite H. Qed.
Lemma read_bytes_app m a n1 n2 xs ys :
  0 ≤ n1 → 0 ≤ n2 → read_bytes m a n1 = Ret xs → read_bytes m (a + n1) n2 = Ret ys →
  read_bytes m a (n1 + n2) = Ret (xs ++ ys).
Proof.
  intros H1 H2 Hx Hy. apply read_bytes_Ret in Hx as [Hlx Hx]; [|done].
  apply read_bytes_Ret in Hy as [Hly Hy]; [|done].
  apply read_bytes_Ret; [lia|]. rewrite length_app. split; [lia|]. intros i Hi.
  destruct (Z.lt_ge_cases i n1).
  - rewrite lookup_app_l by lia. apply Hx. lia.
  - rewrite lookup_app_r by lia. replace (Z.to_nat i - length xs)%nat with (Z.to_nat (i - n1)) by lia.
    rewrite <-Hy by lia. f_equal. lia.
Qed.
Lemma read_back m x bs : read_bytes (store_list m x bs) x (lenZ bs) = Ret bs.
Proof.
  apply read_bytes_Ret; [lia|]. split; [done|]. intros i Hi.
  rewrite lookup_store_list, decide_True by lia. f_equal. lia.
Qed.

(** ** Overwriting part of a list *)
Lemma inserts_0 {A} (xs l : list A) :
  (length xs ≤ length l)%nat → list_inserts 0 xs l = xs ++ drop (length xs) l.
Proof.
  intros Hl. rewrite <-(take_drop (length xs) l) at 1. apply list_inserts_0_r.
  rewrite length_take. lia.
Qed.
Lemma inserts_eq {A} a (xs l : list A) :
  (a + length xs ≤ length l)%nat →
  list_inserts a xs l = take a l ++ xs ++ drop (a + length xs) l.
Proof.
  intros Hl. rewrite <-(take_drop a l) at 1.
  replace a with (length (take a l) + 0)%nat at 1 by (rewrite length_take; lia).
  rewrite list_inserts_app_r, inserts_0 by (rewrite length_drop; lia).
  by rewrite drop_drop.
Qed.
(** Overwriting the start of a window of a list. *)
Lemma inserts_window {A} a n (xs l : list A) :
  (length xs ≤ n)%nat → (a + n ≤ length l)%nat →
  take a l ++ list_inserts 0 xs (take n (drop a l)) ++ drop (a + n) l = list_inserts a xs l.
Proof.
  intros Hx Hl. rewrite inserts_0 by (rewrite length_take, length_drop; lia).
  rewrite inserts_eq by lia. rewrite <-app_assoc. do 2 f_equal.
  rewrite <-!(drop_drop l). set (t := drop a l).
  assert (n ≤ length t)%nat by (unfold t; rewrite length_drop; lia).
  rewrite <-(take_drop n t) at 3. rewrite drop_app_le; [done|]. rewrite length_take. lia.
Qed.
