(* ===== verification/Address.v ===== *)
(** * Addresses ([src/src/address.rs])

    The trait [Address] is a class: its required methods are the fields, its
    provided methods are definitions over the class.  The macro
    [impl_address_ops!] is a section over the tuple-struct constructor, its
    projection and the width of the raw value.  [AddressSpec] is what the trait
    promises to its clients; it is proved once for the macro, and the theorems
    about the provided methods use only it. *)

From S2P Require Import Prelude.

(** ** The trait *)
Class Address `{Target} (T : Type) := {
  V_bits : Z;                                  (** width of [Self::V] *)
  new : Z → T;
  raw_value : T → Z;
  checked_offset_from : T → T → option Z;
  checked_add : T → Z → option T;
  overflowing_add : T → Z → T * bool;
  unchecked_add : T → Z → outcome T;
  checked_sub : T → Z → option T;
  overflowing_sub : T → Z → T * bool;
  unchecked_sub : T → Z → outcome T;
  bitand : T → Z → T;
  bitor : T → Z → T;
  addr_default : T                             (** [Default::default()] *)
}.

(** [AddressValue::zero] and [AddressValue::one]: a [u8] coerced into [V]. *)
Definition zero : Z := 0.
Definition one : Z := 1.

Section provided_methods.
Context `{Address T}.

Definition mask (a : T) (mask : Z) : Z := Z.land (raw_value a) mask.

Definition unchecked_offset_from (a base : T) : outcome Z :=
  usub V_bits (raw_value a) (raw_value base).

Definition checked_align_up (a : T) (power_of_two : Z) : outcome (option T) :=
  mask ← usub V_bits power_of_two one;
  _ ← rassert (negb (power_of_two =? zero));
  _ ← rassert (Z.land power_of_two mask =? zero);
  Ret ((λ x, bitand x (unot V_bits mask)) <$> checked_add a mask).

Definition unchecked_align_up (a : T) (power_of_two : Z) : outcome T :=
  mask ← usub V_bits power_of_two one;
  x ← unchecked_add a mask;
  Ret (bitand x (unot V_bits mask)).
End provided_methods.

(** ** The macro [impl_address_ops!($T, $V)] *)
Section impl_address_ops.
Context `{Target} {T : Type} (mk : Z → T) (fld : T → Z) (bits : Z).

Definition impl_checked_offset_from (a base : T) : option Z :=
  uint_checked_sub (fld a) (fld base).
Definition impl_checked_add (a : T) (other : Z) : option T :=
  mk <$> uint_checked_add bits (fld a) other.
Definition impl_overflowing_add (a : T) (other : Z) : T * bool :=
  let '(t, ovf) := uint_overflowing_add bits (fld a) other in (mk t, ovf).
Definition impl_unchecked_add (a : T) (offset : Z) : outcome T :=
  t ← uadd bits (fld a) offset; Ret (mk t).
Definition impl_checked_sub (a : T) (other : Z) : option T :=
  mk <$> uint_checked_sub (fld a) other.
Definition impl_overflowing_sub (a : T) (other : Z) : T * bool :=
  let '(t, ovf) := uint_overflowing_sub bits (fld a) other in (mk t, ovf).
Definition impl_unchecked_sub (a : T) (other : Z) : outcome T :=
  t ← usub bits (fld a) other; Ret (mk t).
Definition impl_bitand (a : T) (other : Z) : T := mk (Z.land (fld a) other).
Definition impl_bitor (a : T) (other : Z) : T := mk (Z.lor (fld a) other).

Definition impl_default : T := mk 0.

Definition impl_address_ops : Address T := {|
  V_bits := bits;
  new := mk;
  raw_value := fld;
  checked_offset_from := impl_checked_offset_from;
  checked_add := impl_checked_add;
  overflowing_add := impl_overflowing_add;
  unchecked_add := impl_unchecked_add;
  checked_sub := impl_checked_sub;
  overflowing_sub := impl_overflowing_sub;
  unchecked_sub := impl_unchecked_sub;
  bitand := impl_bitand;
  bitor := impl_bitor;
  addr_default := impl_default
|}.
End impl_address_ops.

(** ** What the trait promises *)
Class AddressSpec `{Address T} := {
  V_bits_pos : 0 < V_bits;
  raw_new : ∀ v, raw_value (new v) = v;
  new_raw : ∀ a : T, new (raw_value a) = a;
  checked_offset_from_spec : ∀ a b : T,
    checked_offset_from a b = uint_checked_sub (raw_value a) (raw_value b);
  checked_add_spec : ∀ (a : T) v,
    checked_add a v = new <$> uint_checked_add V_bits (raw_value a) v;
  overflowing_add_spec : ∀ (a : T) v,
    overflowing_add a v = prod_map new id (uint_overflowing_add V_bits (raw_value a) v);
  unchecked_add_spec : ∀ (a : T) v,
    unchecked_add a v = (t ← uadd V_bits (raw_value a) v; Ret (new t));
  checked_sub_spec : ∀ (a : T) v,
    checked_sub a v = new <$> uint_checked_sub (raw_value a) v;
  overflowing_sub_spec : ∀ (a : T) v,
    overflowing_sub a v = prod_map new id (uint_overflowing_sub V_bits (raw_value a) v);
  unchecked_sub_spec : ∀ (a : T) v,
    unchecked_sub a v = (t ← usub V_bits (raw_value a) v; Ret (new t));
  bitand_spec : ∀ (a : T) v, raw_value (bitand a v) = Z.land (raw_value a) v;
  bitor_spec : ∀ (a : T) v, raw_value (bitor a v) = Z.lor (raw_value a) v;
  default_spec : raw_value (addr_default : T) = 0
}.

(** A raw value that fits its type. *)
Definition addr_ok `{Address T} (a : T) : Prop := in_bits V_bits (raw_value a).

Lemma impl_address_ops_spec `{Target} {T} (mk : Z → T) (fld : T → Z) bits :
  0 < bits → (∀ v, fld (mk v) = v) → (∀ a, mk (fld a) = a) →
  @AddressSpec _ T (impl_address_ops mk fld bits).
Proof. intros Hb H1 H2. constructor; simpl; auto; intros; apply H1. Qed.

(** ** The address types of [src/src/guest_memory.rs] *)
Record GuestAddress := GuestAddr { ga_0 : Z }.
Record MemoryRegionAddress := RegionAddr { mra_0 : Z }.

#[export] Instance GuestAddress_eq_dec : EqDecision GuestAddress.
Proof. solve_decision. Defined.
#[export] Instance MemoryRegionAddress_eq_dec : EqDecision MemoryRegionAddress.
Proof. solve_decision. Defined.

#[export] Instance GuestAddress_Address `{Target} : Address GuestAddress :=
  impl_address_ops GuestAddr ga_0 64.
#[export] Instance MemoryRegionAddress_Address `{Target} : Address MemoryRegionAddress :=
  impl_address_ops RegionAddr mra_0 64.

#[export] Instance GuestAddress_spec `{Target} : AddressSpec (T := GuestAddress).
Proof. by apply impl_address_ops_spec; [|..|intros []]. Qed.
#[export] Instance MemoryRegionAddress_spec `{Target} : AddressSpec (T := MemoryRegionAddress).
Proof. by apply impl_address_ops_spec; [|..|intros []]. Qed.

(** ** Theorems *)

(** Reference definition of alignment: the least multiple of [p] not below [a]. *)
Definition round_up (a p : Z) : Z := (a + (p - 1)) / p * p.

Lemma round_up_least a p :
  0 < p → (p | round_up a p) ∧ a ≤ round_up a p ∧
    ∀ x, (p | x) → a ≤ x → round_up a p ≤ x.
Proof.
  intros Hp. unfold round_up.
  pose proof (Z.div_mod (a + (p - 1)) p) as Hd.
  pose proof (Z.mod_pos_bound (a + (p - 1)) p). split_and!.
  - apply Z.divide_factor_r.
  - lia.
  - intros x [k ->] Hx. apply Z.mul_le_mono_nonneg_r; [lia|].
    apply Z.lt_succ_r, Z.div_lt_upper_bound; lia.
Qed.

Section theorems.
Context `{AddressSpec T}.
Implicit Types a b : T.

(** For a power of two the alignment computed by masking is [round_up]. *)
Lemma align_mask a p :
  is_pow2 p → 0 ≤ raw_value a → raw_value a + (p - 1) < 2 ^ V_bits →
  bitand (new (raw_value a + (p - 1))) (unot V_bits (p - 1)) = new (round_up (raw_value a) p).
Proof.
  intros (k & Hk & ->) Ha Hlt. pose proof V_bits_pos.
  assert (0 < 2 ^ k) by (by apply pow2_pos).
  rewrite <-(new_raw (bitand _ _)), bitand_spec, raw_new. f_equal.
  rewrite land_high_mask; [| |split; lia].
  - unfold round_up. pose proof (Z.div_mod (raw_value a + (2 ^ k - 1)) (2 ^ k)). lia.
  - split; [done|]. destruct (Z.le_gt_cases k V_bits); [done|].
    assert (2 ^ V_bits < 2 ^ k) by (apply Z.pow_lt_mono_r; lia). lia.
Qed.

Lemma round_up_fits x p :
  is_pow2 p → p < 2 ^ V_bits → round_up x p < 2 ^ V_bits ↔ x + (p - 1) < 2 ^ V_bits.
Proof.
  intros (k & Hk & ->) Hlt. pose proof V_bits_pos.
  assert (0 < 2 ^ k) by (by apply pow2_pos).
  apply Z.pow_lt_mono_r_iff in Hlt; [|lia..].
  assert (2 ^ V_bits = 2 ^ (V_bits - k) * 2 ^ k) as E
    by (rewrite <-Z.pow_add_r by lia; f_equal; lia).
  unfold round_up. rewrite E. split.
  - intros Hr. apply Z.mul_lt_mono_pos_r in Hr; [|done].
    pose proof (Z.div_mod (x + (2 ^ k - 1)) (2 ^ k)).
    pose proof (Z.mod_pos_bound (x + (2 ^ k - 1)) (2 ^ k)). nia.
  - intros Hr. apply Z.mul_lt_mono_pos_r; [done|].
    apply Z.div_lt_upper_bound; lia.
Qed.

(** C39: [checked_align_up] with a power of two returns the least multiple of
    it that is not below the address, and [None] exactly when that multiple
    does not fit the address type; it never panics. *)
Theorem checked_align_up_least a p :
  addr_ok a → is_pow2 p → p < 2 ^ V_bits →
  ∃ r, ((p | r) ∧ raw_value a ≤ r ∧ ∀ x, (p | x) → raw_value a ≤ x → r ≤ x) ∧
    checked_align_up a p = Ret (if r <? 2 ^ V_bits then Some (new r) else None).
Proof.
  intros [Ha Ha'] Hp Hlt. pose proof Hp as (k & Hk & Ek).
  assert (0 < p) by (subst; by apply pow2_pos).
  exists (round_up (raw_value a) p). split; [by apply round_up_least|].
  unfold checked_align_up. rewrite usub_ok by (unfold one, in_bits; lia). simpl.
  rewrite (proj2 (Z.eqb_neq p zero)) by (unfold zero; lia).
  unfold one. rewrite (proj2 (land_pred_zero p ltac:(done)) Hp). simpl. f_equal.
  rewrite checked_add_spec. pose proof (round_up_fits (raw_value a) p Hp Hlt) as Hf.
  unfold uint_checked_add.
  destruct (Z.ltb_spec (raw_value a + (p - 1)) (2 ^ V_bits)), (Z.ltb_spec (round_up (raw_value a) p) (2 ^ V_bits));
    try lia; simpl; [|done].
  f_equal. by apply align_mask.
Qed.

(** [checked_align_up] panics for every argument that is not a power of
    two, zero included, with and without overflow checks. *)
Theorem checked_align_up_panics a p :
  in_bits V_bits p → ¬ is_pow2 p → checked_align_up a p = Panic.
Proof.
  intros [Hp Hp'] Hn. pose proof V_bits_pos. unfold checked_align_up.
  destruct (decide (p = 0)) as [->|].
  - unfold usub. rewrite arith_overflow by (unfold in_bits, one; lia).
    by destruct overflow_checks.
  - rewrite usub_ok by (unfold in_bits, one; lia). simpl.
    rewrite (proj2 (Z.eqb_neq p zero)) by done. simpl. unfold one.
    destruct (Z.eqb_spec (Z.land p (p - 1)) zero); [|done].
    exfalso. by apply Hn, land_pred_zero; [lia|].
Qed.

Lemma unchecked_align_up_agrees a p b :
  addr_ok a → is_pow2 p → p < 2 ^ V_bits →
  checked_align_up a p = Ret (Some b) → unchecked_align_up a p = Ret b.
Proof.
  intros [Ha Ha'] (k & Hk & ->) Hlt. unfold checked_align_up, unchecked_align_up.
  assert (0 < 2 ^ k) by (by apply pow2_pos).
  rewrite usub_ok by (unfold one, in_bits; lia). simpl.
  rewrite unchecked_add_spec, checked_add_spec. unfold one.
  destruct (negb _), (Z.land _ _ =? zero); simpl; try done.
  unfold uint_checked_add. destruct (Z.ltb_spec (raw_value a + (2 ^ k - 1)) (2 ^ V_bits)); [|done].
  rewrite uadd_ok by (unfold in_bits; lia). simpl. congruence.
Qed.

(** the checked, overflowing and unchecked additions agree: without
    overflow they all return the sum, from which [checked_sub] and
    [checked_offset_from] recover the operands; with overflow [checked_add]
    is [None], [overflowing_add] reports it with the wrapped sum that
    [overflowing_sub] maps back, and [unchecked_add] panics or wraps
    according to the profile. *)
Theorem add_sub_consistent a v :
  addr_ok a → in_bits V_bits v →
  match checked_add a v with
  | Some b =>
      overflowing_add a v = (b, false) ∧ unchecked_add a v = Ret b ∧
      checked_sub b v = Some a ∧ checked_offset_from b a = Some v ∧ addr_ok b
  | None =>
      ∃ b, overflowing_add a v = (b, true) ∧ overflowing_sub b v = (a, true) ∧
        unchecked_add a v = (if overflow_checks then Panic else Ret b) ∧ addr_ok b
  end.
Proof.
  intros [Ha Ha'] [Hv Hv']. pose proof V_bits_pos as Hb.
  rewrite checked_add_spec, overflowing_add_spec, unchecked_add_spec.
  unfold uint_checked_add, uint_overflowing_add, uadd.
  destruct (Z.ltb_spec (raw_value a + v) (2 ^ V_bits)); simpl.
  - rewrite wrap_small, arith_ok by (split; lia).
    rewrite (proj2 (Z.leb_gt _ _)), checked_sub_spec, checked_offset_from_spec, !raw_new by lia.
    unfold uint_checked_sub, addr_ok. rewrite raw_new, !(proj2 (Z.leb_le _ _)) by lia.
    split_and!; try done; simpl.
    + by replace (raw_value a + v - v) with (raw_value a) by lia; rewrite new_raw.
    + f_equal. lia.
    + split; lia.
  - rewrite (proj2 (Z.leb_le _ _)), arith_overflow by (unfold in_bits; lia).
    assert (wrap V_bits (raw_value a + v) = raw_value a + v - 2 ^ V_bits) as E.
    { symmetry. apply (Z.mod_unique_pos _ _ 1); lia. }
    eexists. split; [done|]. rewrite overflowing_sub_spec. unfold addr_ok.
    rewrite !raw_new. unfold uint_overflowing_sub. rewrite E.
    split_and!; [|by destruct overflow_checks|split; lia]. simpl. f_equal.
    + rewrite <-(new_raw a) at 2. f_equal.
      symmetry. apply (Z.mod_unique_pos _ _ (-1)); lia.
    + apply Z.ltb_lt. lia.
Qed.
End theorems.

(** ** Witnesses *)
Lemma checked_align_up_least_witness :
  let a := GuestAddr 0x128 in
  checked_align_up (H := x86_64_debug) a 16 = Ret (Some (GuestAddr 0x130)) ∧
  ∃ r, ((16 | r) ∧ raw_value (H := x86_64_debug) a ≤ r ∧
        ∀ x, (16 | x) → raw_value (H := x86_64_debug) a ≤ x → r ≤ x) ∧
    checked_align_up (H := x86_64_debug) a 16
      = Ret (if r <? 2 ^ V_bits (H := x86_64_debug) (T := GuestAddress)
             then Some (new (H := x86_64_debug) r) else None).
Proof.
  split; [by vm_compute|].
  apply checked_align_up_least.
  - split; vm_compute; congruence.
  - by exists 4.
  - by vm_compute.
Defined.

Lemma checked_align_up_panics_witness :
  checked_align_up (H := x86_64_release) (GuestAddr 0x128) 12 = Panic.
Proof.
  apply checked_align_up_panics.
  - split; [done|by vm_compute].
  - intros (k & Hk & E). assert (k < 4 ∨ 4 ≤ k) as [?|?] by lia.
    + assert (k = 0 ∨ k = 1 ∨ k = 2 ∨ k = 3) as [-> | [-> | [-> | ->]]] by lia; done.
    + assert (2 ^ 4 ≤ 2 ^ k) by (apply Z.pow_le_mono_r; lia).
      assert (2 ^ 4 = 16) by done. lia.
Defined.

Lemma add_sub_consistent_witness :
  match checked_add (H := x86_64_debug) (GuestAddr (2 ^ 64 - 1)) 1 with
  | Some _ => False
  | None =>
      ∃ b, overflowing_add (H := x86_64_debug) (GuestAddr (2 ^ 64 - 1)) 1 = (b, true) ∧
        overflowing_sub (H := x86_64_debug) b 1 = (GuestAddr (2 ^ 64 - 1), true) ∧
        unchecked_add (H := x86_64_debug) (GuestAddr (2 ^ 64 - 1)) 1 = Panic ∧
        addr_ok (H := x86_64_debug) b
  end.
Proof.
  pose proof (add_sub_consistent (H := x86_64_debug) (GuestAddr (2 ^ 64 - 1)) 1) as W.
  apply W; split; vm_compute; congruence.
Defined.
