(* ===== verification/PlainData.v ===== *)
(** * Plain data ([ByteValued] of [src/src/bytes.rs])

    [ByteValued] is the trait of types made of bytes; [byte_valued_type!] implements
    it for the unsigned and signed integers and for arrays of them. *)

From S2P Require Import Prelude Memory.

(** ** [ByteValued] *)

(** A type with its layout and its representation in memory. *)
Class ByteValued (T : Type) := {
  size_of : Z;
  align_of : Z;
  as_slice : T → list byte;        (** the bytes of a value, [as_slice] and [as_mut_slice] *)
  from_bytes : list byte → T;      (** the value with the given bytes *)
  default_value : T                (** [Default::default()] *)
}.
Arguments size_of T {_}.
Arguments align_of T {_}.

(** What implementing the [unsafe] trait guarantees: every list of [size_of]
    bytes is a value, and values are told apart by their bytes. *)
Class ByteValuedSpec `{Target} (T : Type) `{ByteValued T} : Prop := {
  size_of_range : 0 ≤ size_of T ≤ isize_max;
  align_of_pow2 : is_pow2 (align_of T);
  length_as_slice : ∀ v : T, lenZ (as_slice v) = size_of T;
  from_as_slice : ∀ v : T, from_bytes (as_slice v) = v;
  as_slice_from : ∀ bs, lenZ bs = size_of T → as_slice (from_bytes bs : T) = bs
}.

(** A slice [&[T]] or [&mut [T]]: a pointer and a number of elements. *)
Record slice := Slice { s_ptr : Z; s_len : Z }.

#[export] Instance slice_eq_dec : EqDecision slice.
Proof. solve_decision. Defined.

(** [<[u8]>::align_to::<T>]: the lengths of the unaligned prefix, of the
    middle (in elements of [T]) and of the suffix. *)
Definition align_to (T : Type) `{ByteValued T} (data : slice) : Z * Z * Z :=
  if size_of T =? 0 then (s_len data, 0, 0)
  else
    let offset := align_offset (s_ptr data) (align_of T) in
    if s_len data <? offset then (s_len data, 0, 0)
    else (offset, (s_len data - offset) / size_of T, (s_len data - offset) `mod` size_of T).

(** [from_slice] and [from_mut_slice] return a reference, that is an address. *)
Definition from_slice (T : Type) `{ByteValued T} (data : slice) : option Z :=
  if negb (s_len data =? size_of T) then None
  else match align_to T data with
       | (0, 1, 0) => Some (s_ptr data)
       | _ => None
       end.
Definition from_mut_slice (T : Type) `{ByteValued T} (data : slice) : option Z :=
  if negb (s_len data =? size_of T) then None
  else match align_to T data with
       | (0, 1, 0) => Some (s_ptr data)
       | _ => None
       end.

(** ** Unsigned integers of [n] bytes *)
Record uint (n : nat) := UInt {
  uval : Z;
  uval_ok : (0 <=? uval) && (uval <? 2 ^ (8 * Z.of_nat n)) = true
}.
Arguments UInt {n} _ _.
Arguments uval {n} _.
Arguments uval_ok {n} _.

Lemma uval_range {n} (u : uint n) : in_bits (8 * Z.of_nat n) (uval u).
Proof. destruct u as [z Hz]. simpl. unfold in_bits. lia. Qed.

Lemma uint_eq {n} (u v : uint n) : uval u = uval v → u = v.
Proof.
  destruct u as [x Hx], v as [y Hy]. simpl. intros ->. f_equal.
  apply Eqdep_dec.UIP_dec, bool_dec.
Qed.

#[export] Instance uint_eq_dec n : EqDecision (uint n).
Proof. refine (λ u v, cast_if (decide (uval u = uval v))); [by apply uint_eq|congruence]. Defined.

Lemma uint_of_ok n z :
  (0 <=? z `mod` 2 ^ (8 * Z.of_nat n)) &&
  (z `mod` 2 ^ (8 * Z.of_nat n) <? 2 ^ (8 * Z.of_nat n)) = true.
Proof.
  assert (0 < 2 ^ (8 * Z.of_nat n)) by (apply pow2_pos; lia).
  pose proof (Z.mod_pos_bound z (2 ^ (8 * Z.of_nat n)) ltac:(done)). lia.
Qed.
Definition uint_of {n} (z : Z) : uint n := UInt _ (uint_of_ok n z).

(** [byte_valued_type!] for the unsigned integers, whose alignment is their size
    (as it is on x86_64, aarch64 and arm). *)
#[export] Instance uint_byte_valued `{Target} n : ByteValued (uint n) := {|
  size_of := Z.of_nat n;
  align_of := Z.of_nat n;
  as_slice := λ u, ne_bytes n (uval u);
  from_bytes := λ bs, uint_of (ne_value bs);
  default_value := uint_of 0
|}.
Abbreviation u8 := (uint 1).
Abbreviation u16 := (uint 2).
Abbreviation u32 := (uint 4).
Abbreviation u64 := (uint 8).

Lemma uint_byte_valued_spec `{Target} n :
  is_pow2 (Z.of_nat n) → Z.of_nat n ≤ isize_max → ByteValuedSpec (uint n).
Proof.
  intros Hp Hn. constructor; simpl; try done; try lia.
  - intros u. by rewrite length_ne_bytes.
  - intros u. apply uint_eq. simpl. rewrite ne_value_ne_bytes, Z.mod_mod.
    + apply Z.mod_small, uval_range.
    + apply Z.pow_nonzero; lia.
  - intros bs Hbs. assert (length bs = n) as <- by lia.
    rewrite Z.mod_small by apply ne_value_range. apply ne_bytes_ne_value.
Qed.

Lemma isize_max_lower `{Target} : 2 ^ 31 - 1 ≤ isize_max.
Proof. unfold isize_max. destruct usize_bits_cases as [[-> _]|[-> _]]; vm_compute; congruence. Qed.

#[export] Instance u8_spec `{Target} : ByteValuedSpec u8.
Proof. apply uint_byte_valued_spec; [by exists 0|pose proof isize_max_lower; lia]. Qed.
#[export] Instance u16_spec `{Target} : ByteValuedSpec u16.
Proof. apply uint_byte_valued_spec; [by exists 1|pose proof isize_max_lower; lia]. Qed.
#[export] Instance u32_spec `{Target} : ByteValuedSpec u32.
Proof. apply uint_byte_valued_spec; [by exists 2|pose proof isize_max_lower; lia]. Qed.
#[export] Instance u64_spec `{Target} : ByteValuedSpec u64.
Proof. apply uint_byte_valued_spec; [by exists 3|pose proof isize_max_lower; lia]. Qed.

Abbreviation usize := (uint (Z.to_nat usize_bytes)).

Lemma usize_bytes_pow2 `{Target} : is_pow2 (Z.of_nat (Z.to_nat usize_bytes)).
Proof. destruct usize_bits_cases as [[_ ->]|[_ ->]]; [by exists 2|by exists 3]. Qed.
Lemma usize_bytes_small `{Target} : Z.of_nat (Z.to_nat usize_bytes) ≤ isize_max.
Proof. pose proof isize_max_lower. destruct usize_bits_cases as [[_ ->]|[_ ->]]; lia. Qed.
#[export] Instance usize_spec `{Target} : ByteValuedSpec usize.
Proof. apply uint_byte_valued_spec; [apply usize_bytes_pow2|apply usize_bytes_small]. Qed.

(** ** Signed integers of [n] bytes, in two's complement *)
Definition half (n : nat) : Z := 2 ^ (8 * Z.of_nat n) / 2.
Record sint (n : nat) := SInt {
  sval : Z;
  sval_ok : (- half n <=? sval) && (sval <? 2 ^ (8 * Z.of_nat n) - half n) = true
}.
Arguments SInt {n} _ _.
Arguments sval {n} _.
Arguments sval_ok {n} _.

Lemma sint_eq {n} (u v : sint n) : sval u = sval v → u = v.
Proof.
  destruct u as [x Hx], v as [y Hy]. simpl. intros ->. f_equal.
  apply Eqdep_dec.UIP_dec, bool_dec.
Qed.
Lemma sint_of_ok n z :
  (- half n <=? (z + half n) `mod` 2 ^ (8 * Z.of_nat n) - half n) &&
  ((z + half n) `mod` 2 ^ (8 * Z.of_nat n) - half n <? 2 ^ (8 * Z.of_nat n) - half n) = true.
Proof.
  assert (0 < 2 ^ (8 * Z.of_nat n)) by (apply pow2_pos; lia).
  pose proof (Z.mod_pos_bound (z + half n) (2 ^ (8 * Z.of_nat n)) ltac:(done)). lia.
Qed.
Definition sint_of {n} (z : Z) : sint n := SInt _ (sint_of_ok n z).

#[export] Instance sint_byte_valued `{Target} n : ByteValued (sint n) := {|
  size_of := Z.of_nat n;
  align_of := Z.of_nat n;
  as_slice := λ s, ne_bytes n (sval s);
  from_bytes := λ bs, sint_of (ne_value bs);
  default_value := sint_of 0
|}.
Abbreviation i8 := (sint 1).
Abbreviation i16 := (sint 2).
Abbreviation i32 := (sint 4).
Abbreviation i64 := (sint 8).
Abbreviation isize := (sint (Z.to_nat usize_bytes)).

Lemma sint_of_mod n z : sval (sint_of (n := n) (z `mod` 2 ^ (8 * Z.of_nat n))) = sval (sint_of (n := n) z).
Proof. simpl. by rewrite Zplus_mod_idemp_l. Qed.
Lemma sint_of_sval {n} (s : sint n) : sval (sint_of (n := n) (sval s)) = sval s.
Proof. destruct s as [z Hz]. simpl. rewrite Z.mod_small by lia. lia. Qed.

Lemma sint_byte_valued_spec `{Target} n :
  is_pow2 (Z.of_nat n) → Z.of_nat n ≤ isize_max → ByteValuedSpec (sint n).
Proof.
  intros Hp Hn. constructor; cbn [size_of align_of as_slice from_bytes sint_byte_valued]; try done; try lia.
  - intros s. by rewrite length_ne_bytes.
  - intros s. apply sint_eq. by rewrite ne_value_ne_bytes, sint_of_mod, sint_of_sval.
  - intros bs Hbs. assert (length bs = n) as <- by lia. etransitivity; [|apply ne_bytes_ne_value].
    apply ne_bytes_mod. simpl. rewrite Zminus_mod_idemp_l. f_equal. lia.
Qed.
#[export] Instance i8_spec `{Target} : ByteValuedSpec i8.
Proof. apply sint_byte_valued_spec; [by exists 0|pose proof isize_max_lower; lia]. Qed.
#[export] Instance i16_spec `{Target} : ByteValuedSpec i16.
Proof. apply sint_byte_valued_spec; [by exists 1|pose proof isize_max_lower; lia]. Qed.
#[export] Instance i32_spec `{Target} : ByteValuedSpec i32.
Proof. apply sint_byte_valued_spec; [by exists 2|pose proof isize_max_lower; lia]. Qed.
#[export] Instance i64_spec `{Target} : ByteValuedSpec i64.
Proof. apply sint_byte_valued_spec; [by exists 3|pose proof isize_max_lower; lia]. Qed.
#[export] Instance isize_spec `{Target} : ByteValuedSpec isize.
Proof. apply sint_byte_valued_spec; [apply usize_bytes_pow2|apply usize_bytes_small]. Qed.

(** ** Arrays [[T; n]] ([byte_valued_array!]) *)
Record array (T : Type) (n : nat) := Array {
  elems : list T;
  elems_length : Nat.eqb (length elems) n = true
}.
Arguments Array {T n} _ _.
Arguments elems {T n} _.
Arguments elems_length {T n} _.

Lemma array_eq {T n} (a b : array T n) : elems a = elems b → a = b.
Proof.
  destruct a as [x Hx], b as [y Hy]. simpl. intros ->. f_equal.
  apply Eqdep_dec.UIP_dec, bool_dec.
Qed.
Lemma length_elems {T n} (a : array T n) : length (elems a) = n.
Proof. destruct a as [x Hx]. simpl. by apply Nat.eqb_eq. Qed.

Section array.
Context `{ByteValued T}.

Fixpoint from_chunks (n : nat) (bs : list byte) : list T :=
  match n with
  | O => []
  | S n => from_bytes (take (Z.to_nat (size_of T)) bs) :: from_chunks n (drop (Z.to_nat (size_of T)) bs)
  end.
Lemma length_from_chunks n bs : Nat.eqb (length (from_chunks n bs)) n = true.
Proof. revert bs. induction n; intros; simpl; auto. Qed.
Lemma length_replicate_eqb n (x : T) : Nat.eqb (length (replicate n x)) n = true.
Proof. apply Nat.eqb_eq, length_replicate. Qed.

#[export] Instance array_byte_valued n : ByteValued (array T n) := {|
  size_of := Z.of_nat n * size_of T;
  align_of := align_of T;
  as_slice := λ a, concat (as_slice <$> elems a);
  from_bytes := λ bs, Array (from_chunks n bs) (length_from_chunks n bs);
  default_value := Array (replicate n default_value) (length_replicate_eqb n default_value)
|}.
End array.

Section array_spec.
Context `{ByteValuedSpec T}.

Lemma length_concat_as_slice (l : list T) :
  lenZ (concat (as_slice <$> l)) = lenZ l * size_of T.
Proof.
  induction l as [|v l IH]; [done|]. rewrite fmap_cons. cbn [concat length].
  rewrite length_app, Nat2Z.inj_add, IH, length_as_slice. lia.
Qed.
Lemma from_chunks_concat (l : list T) :
  from_chunks (length l) (concat (as_slice <$> l)) = l.
Proof.
  induction l as [|v l IH]; [done|]. pose proof (length_as_slice v) as Hl.
  rewrite fmap_cons. cbn [concat length from_chunks].
  rewrite take_app_length', drop_app_length' by lia. by rewrite from_as_slice, IH.
Qed.
Lemma concat_from_chunks n bs :
  lenZ bs = Z.of_nat n * size_of T → concat (as_slice <$> from_chunks (T := T) n bs) = bs.
Proof.
  pose proof size_of_range as [Hsz _].
  revert bs. induction n as [|n IH]; intros bs Hl; [by destruct bs|].
  cbn [from_chunks]. rewrite fmap_cons. cbn [concat].
  assert (size_of T ≤ lenZ bs) by nia.
  rewrite as_slice_from, IH, take_drop; [done| |].
  - rewrite length_drop. nia.
  - rewrite length_take. lia.
Qed.

Lemma array_byte_valued_spec n :
  Z.of_nat n * size_of T ≤ isize_max → ByteValuedSpec (array T n).
Proof.
  intros Hn. pose proof size_of_range as [Hsz _]. constructor; simpl; try nia.
  - apply align_of_pow2.
  - intros a. by rewrite length_concat_as_slice, length_elems.
  - intros a. apply array_eq. simpl. pose proof (from_chunks_concat (elems a)) as E.
    by rewrite length_elems in E.
  - intros bs Hl. by apply concat_from_chunks.
Qed.
End array_spec.

(** ** Theorems *)

(** [from_slice] and [from_mut_slice] return the address of the data
    exactly when its length is the size of the type, the address is aligned,
    and the type is not zero-sized. *)
Theorem from_slice_spec `{ByteValuedSpec T} (data : slice) :
  from_slice T data = from_mut_slice T data ∧
  from_slice T data =
    if (s_len data =? size_of T) && (s_ptr data `mod` align_of T =? 0) && negb (size_of T =? 0)
    then Some (s_ptr data) else None.
Proof.
  split; [done|]. unfold from_slice, align_to.
  destruct size_of_range as [Hs _]. destruct align_of_pow2 as (k & Hk & Hal).
  assert (0 < align_of T) by (rewrite Hal; by apply pow2_pos).
  destruct (Z.eqb_spec (s_len data) (size_of T)) as [Hlen|]; simpl; [|done].
  destruct (Z.eqb_spec (size_of T) 0) as [Hz|Hz]; simpl.
  { rewrite andb_false_r, Hlen, Hz. done. }
  rewrite andb_true_r. destruct (Z.eqb_spec (s_ptr data `mod` align_of T) 0) as [Ha|Ha].
  - apply (align_offset_zero (s_ptr data) (align_of T)) in Ha as ->; [|done].
    rewrite (proj2 (Z.ltb_ge _ _)), Z.sub_0_r, Hlen, Z.div_same, Z.mod_same by lia. done.
  - pose proof (align_offset_pos _ _ ltac:(done) Ha).
    pose proof (Z.mod_pos_bound (s_ptr data) (align_of T) ltac:(done)).
    destruct (Z.ltb_spec (s_len data) (align_offset (s_ptr data) (align_of T))); [by destruct (s_len data)|].
    destruct (align_offset (s_ptr data) (align_of T)) eqn:E; [lia|done..].
Qed.

Lemma from_slice_spec_witness :
  let data := Slice 0x1001 4 in
  from_slice (uint 4) (H := uint_byte_valued (H := x86_64_debug) 4) data = None ∧
  from_slice (uint 4) (H := uint_byte_valued (H := x86_64_debug) 4) data
    = from_mut_slice (uint 4) (H := uint_byte_valued (H := x86_64_debug) 4) data.
Proof.
  split; [by vm_compute|].
  exact (proj1 (from_slice_spec (H := x86_64_debug) (T := uint 4) (Slice 0x1001 4))).
Defined.
