(* ===== verification/AtomicIntegers.v ===== *)
(** * Atomic integers ([src/src/atomic_integer.rs])

    The trait [AtomicInteger] is a class, and the macro [impl_atomic_integer_ops!] a
    definition that makes an instance of it from an atomic type of the standard
    library. *)

From S2P Require Import Prelude Memory PlainData.

(** [std::sync::atomic::Ordering]. *)
Inductive Ordering := Relaxed | Release | Acquire | AcqRel | SeqCst.

(** ** [AtomicInteger]

    [&self] is the address of the integer; memory is passed explicitly. *)
Class AtomicInteger (A : Type) := {
  atomic_V : Type;
  atomic_size : Z;    (** [size_of::<A>()] *)
  atomic_align : Z;   (** [align_of::<A>()] *)
  atomic_new : atomic_V → A;
  atomic_load : mem → Z → Ordering → outcome atomic_V;
  atomic_store : mem → Z → atomic_V → Ordering → outcome mem
}.
Arguments atomic_V A {_}.
Arguments atomic_size A {_}.
Arguments atomic_align A {_}.
Arguments atomic_load A {_} _ _ _.
Arguments atomic_store A {_} _ _ _ _.

(** ** The atomic integers of [std::sync::atomic]

    [load] panics for the orderings of a store, and [store] for those of a load.  An
    atomic integer has the size of the integer, and is aligned to its size; a
    reference that is not aligned is undefined behaviour. *)
Record std_atomic (T : Type) := StdAtomic { inner : T }.
Arguments StdAtomic {T} _.
Arguments inner {T} _.

Definition load_order (order : Ordering) : bool :=
  match order with Release | AcqRel => false | _ => true end.
Definition store_order (order : Ordering) : bool :=
  match order with Acquire | AcqRel => false | _ => true end.

Section std.
Context (T : Type) `{ByteValued T}.

Definition std_load (m : mem) (self : Z) (order : Ordering) : outcome T :=
  _ ← rassert (load_order order);
  bs ← read_volatile (size_of T) m self (size_of T); Ret (from_bytes bs).
Definition std_store (m : mem) (self : Z) (val : T) (order : Ordering) : outcome mem :=
  _ ← rassert (store_order order); write_volatile (size_of T) m self (as_slice val).

Definition impl_atomic_integer_ops : AtomicInteger (std_atomic T) := {|
  atomic_V := T;
  atomic_size := size_of T;
  atomic_align := size_of T;
  atomic_new := StdAtomic;
  atomic_load := std_load;
  atomic_store := std_store
|}.
End std.

(** Those of 64 bits are there on 64-bit targets. *)
Abbreviation AtomicI8 := (std_atomic i8).
Abbreviation AtomicI16 := (std_atomic i16).
Abbreviation AtomicI32 := (std_atomic i32).
Abbreviation AtomicI64 := (std_atomic i64).
Abbreviation AtomicU8 := (std_atomic u8).
Abbreviation AtomicU16 := (std_atomic u16).
Abbreviation AtomicU32 := (std_atomic u32).
Abbreviation AtomicU64 := (std_atomic u64).
Abbreviation AtomicIsize := (std_atomic isize).
Abbreviation AtomicUsize := (std_atomic usize).

#[export] Instance signed_ops `{Target} n : AtomicInteger (std_atomic (sint n)) := impl_atomic_integer_ops (sint n).
#[export] Instance unsigned_ops `{Target} n : AtomicInteger (std_atomic (uint n)) := impl_atomic_integer_ops (uint n).

(** ** What the trait promises

    An implementation consists of atomic types of the standard library: an access is
    one access to all of its bytes, which are those of the raw value. *)
Class AtomicIntegerSpec `{Target} (A : Type) `{AtomicInteger A} := {
  V_valued : ByteValued (atomic_V A);
  V_spec : ByteValuedSpec (atomic_V A);
  atomic_size_eq : atomic_size A = size_of (atomic_V A);
  atomic_align_pow2 : is_pow2 (atomic_align A);
  atomic_load_spec : ∀ m a order, a `mod` atomic_align A = 0 →
    atomic_load A m a order =
      (_ ← rassert (load_order order); bs ← read_bytes m a (atomic_size A); Ret (from_bytes bs));
  atomic_store_spec : ∀ m a v order, a `mod` atomic_align A = 0 →
    atomic_store A m a v order = (_ ← rassert (store_order order); write_bytes m a (as_slice v))
}.

Lemma impl_atomic_integer_spec `{Target} (T : Type) `{!ByteValued T, !ByteValuedSpec T} :
  is_pow2 (size_of T) → AtomicIntegerSpec (std_atomic T) (H0 := impl_atomic_integer_ops T).
Proof.
  intros Hp. apply (Build_AtomicIntegerSpec _ _ (impl_atomic_integer_ops T) ByteValued0 ByteValuedSpec0);
    simpl; [done|done| |]; intros.
  - unfold std_load. by rewrite read_volatile_aligned.
  - unfold std_store. by rewrite write_volatile_aligned.
Defined.
#[export] Instance signed_atomic_spec `{Target} n `{!ByteValuedSpec (sint n)} : AtomicIntegerSpec (std_atomic (sint n)).
Proof. pose proof (align_of_pow2 (T := sint n)) as Hp. exact (impl_atomic_integer_spec (sint n) Hp). Defined.
#[export] Instance unsigned_atomic_spec `{Target} n `{!ByteValuedSpec (uint n)} : AtomicIntegerSpec (std_atomic (uint n)).
Proof. pose proof (align_of_pow2 (T := uint n)) as Hp. exact (impl_atomic_integer_spec (uint n) Hp). Defined.

#[local] Existing Instances V_valued V_spec.
(** A store followed by a load returns the value. *)
Lemma atomic_store_then_load `{AtomicIntegerSpec A} m a v os ol :
  a `mod` atomic_align A = 0 → mapped m a (atomic_size A) → store_order os = true → load_order ol = true →
  ∃ m', atomic_store A m a v os = Ret m' ∧ (∀ b n, mapped m b n → mapped m' b n) ∧
    atomic_load A m' a ol = Ret v.
Proof.
  intros Ha Hm Hos Hol. pose proof (length_as_slice v) as Hl.
  rewrite atomic_size_eq in Hm. rewrite atomic_store_spec, Hos, write_bytes_mapped by (done || by rewrite Hl).
  eexists. split; [done|]. split; [intros; by apply mapped_store_list|].
  rewrite atomic_load_spec, Hol, atomic_size_eq, <-Hl, read_back by done. simpl. by rewrite from_as_slice.
Qed.
