(* ===== verification/Bytes.v ===== *)
(** * Access to containers of bytes ([src/src/bytes.rs])

    [AtomicAccess] are the types that are accessed through an atomic integer of the
    same size; [Read] and [Write] are the byte streams of the standard library that
    the source is generic over; [Bytes] is the trait of containers. *)

From S2P Require Import Prelude Memory PlainData AtomicIntegers.

(** ** [AtomicAccess]

    The atomic integer that a type is accessed through, and the conversions between
    the type and its raw value ([From] and [Into]). *)
Class AtomicAccess (T : Type) `{ByteValued T} := {
  access_A : Type;
  A_integer : AtomicInteger access_A;
  from_V : atomic_V access_A → T;
  into_V : T → atomic_V access_A
}.
Arguments access_A T {_ _}.
#[export] Existing Instance A_integer.
#[export] Hint Mode AtomicAccess ! - : typeclass_instances.

(** [impl_atomic_access!], where [From] and [Into] are those of a type into itself. *)
#[export] Instance signed_access `{Target} n : AtomicAccess (sint n) := {|
  access_A := std_atomic (sint n); A_integer := signed_ops n; from_V (v : sint n) := v; into_V (v : sint n) := v |}.
#[export] Instance unsigned_access `{Target} n : AtomicAccess (uint n) := {|
  access_A := std_atomic (uint n); A_integer := unsigned_ops n; from_V (v : uint n) := v; into_V (v : uint n) := v |}.

(** What a client relies on: the conversions lose nothing. *)
Class AtomicAccessSpec `{Target} (T : Type) `{AtomicAccess T} := {
  A_spec : AtomicIntegerSpec (access_A T);
  A_size_eq : atomic_size (access_A T) = size_of T;
  from_into_V : ∀ v : T, from_V (into_V v) = v
}.
#[export] Existing Instance A_spec.
#[export] Hint Mode AtomicAccessSpec - ! - - : typeclass_instances.
#[export] Instance signed_access_spec `{Target} n `{!ByteValuedSpec (sint n)} : AtomicAccessSpec (sint n).
Proof. by apply (Build_AtomicAccessSpec _ _ _ (signed_access n) (signed_atomic_spec n)). Defined.
#[export] Instance unsigned_access_spec `{Target} n `{!ByteValuedSpec (uint n)} : AtomicAccessSpec (uint n).
Proof. by apply (Build_AtomicAccessSpec _ _ _ (unsigned_access n) (unsigned_atomic_spec n)). Defined.

(** ** Byte streams *)
Inductive ErrorKind := Interrupted | UnexpectedEof | WriteZero | OtherKind (code : Z).
Record io_error := IoError { io_kind : ErrorKind }.

#[export] Instance ErrorKind_eq_dec : EqDecision ErrorKind.
Proof. solve_decision. Defined.
#[export] Instance io_error_eq_dec : EqDecision io_error.
Proof. solve_decision. Defined.

(** [Read::read(&mut self, buf)]: the result, the new contents of [buf] and the
    new state of the reader. *)
Class Read (F : Type) := {
  io_read : F → list byte → result Z io_error * list byte * F
}.
(** [Write::write(&mut self, buf)]. *)
Class Write (F : Type) := {
  io_write : F → list byte → result Z io_error * F
}.

(** What [std::io] documents of a reader: a successful call moves the next [n]
    bytes of the stream to the front of the buffer, [n] being at most its
    length; a call that fails moves none, and one that moves none into a buffer
    that is not empty has reached the end of the stream.  [read_pending] bounds how often the
    reader can still be interrupted. *)
Class ReadSpec (F : Type) `{Read F} := {
  stream : F → list byte;
  read_pending : F → Z;
  read_pending_nonneg : ∀ f, 0 ≤ read_pending f;
  io_read_ok : ∀ f buf n buf' f', io_read f buf = (Ok n, buf', f') →
    0 ≤ n ≤ lenZ buf ∧ n ≤ lenZ (stream f) ∧
    buf' = list_inserts 0 (take (Z.to_nat n) (stream f)) buf ∧
    stream f' = drop (Z.to_nat n) (stream f) ∧ read_pending f' ≤ read_pending f;
  io_read_err : ∀ f buf e buf' f', io_read f buf = (Err e, buf', f') →
    buf' = buf ∧ stream f' = stream f ∧
    (io_kind e = Interrupted → read_pending f' < read_pending f);
  io_read_eof : ∀ f buf buf' f', io_read f buf = (Ok 0, buf', f') → buf ≠ [] → stream f = []
}.

(** And of a writer: a successful call appends the first [n] bytes of the
    buffer to what was written. *)
Class WriteSpec (F : Type) `{Write F} := {
  written : F → list byte;
  write_pending : F → Z;
  write_pending_nonneg : ∀ f, 0 ≤ write_pending f;
  io_write_ok : ∀ f buf n f', io_write f buf = (Ok n, f') →
    0 ≤ n ≤ lenZ buf ∧ written f' = written f ++ take (Z.to_nat n) buf ∧
    write_pending f' ≤ write_pending f;
  io_write_err : ∀ f buf e f', io_write f buf = (Err e, f') →
    written f' = written f ∧ (io_kind e = Interrupted → write_pending f' < write_pending f)
}.

(** The last call of the reader, which left it in state [f'], failed with [e]
    for another reason than an interruption. *)
Definition reader_failed `{Read F} (e : io_error) (f' : F) : Prop :=
  io_kind e ≠ Interrupted ∧ ∃ f buf buf', io_read f buf = (Err e, buf', f').
Definition writer_failed `{Write F} (e : io_error) (f' : F) : Prop :=
  io_kind e ≠ Interrupted ∧ ∃ f buf, io_write f buf = (Err e, f').
(** The last call of the writer took nothing of a buffer that is not empty. *)
Definition writer_full `{Write F} (e : io_error) (f' : F) : Prop :=
  e = IoError WriteZero ∧ ∃ f buf, buf ≠ [] ∧ io_write f buf = (Ok 0, f').

(** A stream in memory that is interrupted a number of times, moves at most
    [c_chunk + 1] bytes per call, and then reads its data or collects what is
    written to it. *)
Record Cursor := { c_data : list byte; c_interrupts : nat; c_chunk : nat }.

#[export] Instance Cursor_Read : Read Cursor := {|
  io_read c buf :=
    match c_interrupts c with
    | S k => (Err (IoError Interrupted), buf,
              {| c_data := c_data c; c_interrupts := k; c_chunk := c_chunk c |})
    | O =>
        let n := Nat.min (Nat.min (S (c_chunk c)) (length buf)) (length (c_data c)) in
        (Ok (Z.of_nat n), list_inserts 0 (take n (c_data c)) buf,
         {| c_data := drop n (c_data c); c_interrupts := 0; c_chunk := c_chunk c |})
    end |}.
#[export] Instance Cursor_Write : Write Cursor := {|
  io_write c buf :=
    match c_interrupts c with
    | S k => (Err (IoError Interrupted),
              {| c_data := c_data c; c_interrupts := k; c_chunk := c_chunk c |})
    | O =>
        let n := Nat.min (S (c_chunk c)) (length buf) in
        (Ok (Z.of_nat n),
         {| c_data := c_data c ++ take n buf; c_interrupts := 0; c_chunk := c_chunk c |})
    end |}.

#[export] Instance Cursor_ReadSpec : ReadSpec Cursor.
Proof.
  refine {| stream := c_data; read_pending := λ c, Z.of_nat (c_interrupts c) |};
    intros [d [|k] c]; cbn [io_read Cursor_Read c_data c_interrupts c_chunk]; intros; simplify_eq;
    cbn [c_data c_interrupts]; rewrite ?Nat2Z.id; split_and?; try done; try lia.
  - destruct buf; cbn [length]; lia.
  - destruct buf, d; done.
Defined.
#[export] Instance Cursor_WriteSpec : WriteSpec Cursor.
Proof.
  refine {| written := c_data; write_pending := λ c, Z.of_nat (c_interrupts c) |};
    intros [d [|k] c]; cbn [io_write Cursor_Write c_data c_interrupts c_chunk]; intros; simplify_eq;
    cbn [c_data c_interrupts]; rewrite ?Nat2Z.id; split_and?; try done; try lia.
  destruct buf; cbn [length]; lia.
Defined.

(** ** [Bytes<A>]

    A container [C] of bytes with addresses [A] and errors [E]; [W] is the state
    of the system that an access may change.  A buffer [&mut [u8]] is passed by
    value and its new contents are returned. *)
Class Bytes (C A E W : Type) := {
  write : C → W → list byte → A → outcome (result Z E * W);
  read : C → W → list byte → A → outcome (result Z E * (list byte * W));
  write_slice : C → W → list byte → A → outcome (result unit E * W);
  read_slice : C → W → list byte → A → outcome (result unit E * (list byte * W));
  read_from : ∀ {F} `{Read F}, C → W → A → F → Z → outcome (result Z E * (F * W));
  read_exact_from : ∀ {F} `{Read F}, C → W → A → F → Z → outcome (result unit E * (F * W));
  write_to : ∀ {F} `{Write F}, C → W → A → F → Z → outcome (result Z E * (F * W));
  write_all_to : ∀ {F} `{Write F}, C → W → A → F → Z → outcome (result unit E * (F * W));
  store : ∀ {T} `{AtomicAccess T}, C → W → T → A → Ordering → outcome (result unit E * W);
  load : ∀ T `{AtomicAccess T}, C → W → A → Ordering → outcome (result T E * W)
}.

Section bytes_provided.
Context `{Bytes C A E W}.

Definition write_obj {T} `{ByteValued T} (c : C) (w : W) (val : T) (addr : A)
    : outcome (result unit E * W) :=
  write_slice c w (as_slice val) addr.

Definition read_obj (T : Type) `{ByteValued T} (c : C) (w : W) (addr : A)
    : outcome (result T E * W) :=
  let result := as_slice (default_value : T) in
  '(r, (result, w)) ← read_slice c w result addr;
  match r with
  | Ok _ => Ret (Ok (from_bytes result), w)
  | Err e => Ret (Err e, w)
  end.
End bytes_provided.
