(* ===== verification/CopySlice.v ===== *)
(** * Copying between slices ([mod copy_slice_impl] of [src/src/volatile_memory.rs])

    Copies of at most a machine word are done with the widest accesses that
    both addresses are aligned to, so that an aligned integer is never torn;
    longer copies are a plain [memcpy].  The main theorem is that, whatever the
    alignments, the effect is the [memcpy]. *)

From S2P Require Import Prelude Memory PlainData AtomicIntegers Bytes.

Section copy_slice.
Context `{Target}.

(** [alignment(addr)]: the largest power of two that divides [addr]. *)
Definition alignment (addr : Z) : outcome Z :=
  n ← uadd usize_bits (unot usize_bits addr) 1;
  Ret (Z.land addr n).

Definition copy_single (m : mem) (align src_addr dst_addr : Z) : outcome mem :=
  if (align =? 8) || (align =? 4) || (align =? 2) || (align =? 1) then
    v ← read_volatile align m src_addr align;
    write_volatile align m dst_addr v
  else Panic.

(** The variables captured by the closure [copy_aligned_slice], and the
    accesses made so far: the addresses and the width of each. *)
Record copy_state := CopyState {
  cs_src : Z; cs_dst : Z; cs_left : Z; cs_mem : mem;
  cs_log : list (Z * Z * Z)
}.

Definition copy_aligned_slice (align min_align : Z) : copy_state → outcome copy_state :=
  while_loop (λ s,
    if (min_align <=? align) && (min_align <=? cs_left s) then
      m ← copy_single (cs_mem s) min_align (cs_src s) (cs_dst s);
      src_addr ← uadd usize_bits (cs_src s) min_align;
      dst_addr ← uadd usize_bits (cs_dst s) min_align;
      left ← usub usize_bits (cs_left s) min_align;
      Ret (inl (CopyState src_addr dst_addr left m
                  (cs_log s ++ [(cs_src s, cs_dst s, min_align)])))
    else Ret (inr s)).

(** The body of [copy_slice_volatile], up to the value of its variables. *)
Definition copy_slice_run (m : mem) (dst src : slice) : outcome copy_state :=
  let total := Z.min (s_len src) (s_len dst) in
  a_src ← alignment (s_ptr src);
  a_dst ← alignment (s_ptr dst);
  let align := Z.min a_src a_dst in
  let s := CopyState (s_ptr src) (s_ptr dst) total m [] in
  s ← (if 4 <? usize_bytes then copy_aligned_slice align 8 s else Ret s);
  s ← copy_aligned_slice align 4 s;
  s ← copy_aligned_slice align 2 s;
  copy_aligned_slice align 1 s.
Definition copy_slice_volatile (m : mem) (dst src : slice) : outcome (Z * mem) :=
  s ← copy_slice_run m dst src;
  Ret (Z.min (s_len src) (s_len dst), cs_mem s).

(** [dst.copy_from_slice(src)]: panics when the lengths differ. *)
Definition copy_from_slice (m : mem) (dst src : slice) : outcome mem :=
  _ ← rassert (s_len dst =? s_len src);
  ptr_copy m (s_ptr src) (s_ptr dst) (s_len src).

(** [s[..n]] and [s[a..b]]. *)
Definition slice_range (s : slice) (a b : Z) : outcome slice :=
  if (a <=? b) && (b <=? s_len s) then Ret (Slice (s_ptr s + a) (b - a)) else Panic.

Definition copy_slice (m : mem) (dst src : slice) : outcome (Z * mem) :=
  let total := Z.min (s_len src) (s_len dst) in
  if total <=? usize_bytes then
    '(_, m) ← copy_slice_volatile m dst src;
    Ret (total, m)
  else
    d ← slice_range dst 0 total;
    s ← slice_range src 0 total;
    m ← copy_from_slice m d s;
    Ret (total, m).
End copy_slice.

(** ** What the callers guarantee *)
Section specification.
Context `{Target}.

(** A slice is a non-null pointer to mapped memory that ends before the
    address space does. *)
Record slice_ok (m : mem) (s : slice) : Prop := {
  slice_ptr_pos : 0 < s_ptr s;
  slice_len_nonneg : 0 ≤ s_len s;
  slice_end : s_ptr s + s_len s < 2 ^ usize_bits;
  slice_mapped : mapped m (s_ptr s) (s_len s)
}.

(** A [&mut] slice does not alias another one. *)
Definition disjoint_ranges (a n b k : Z) : Prop := a + n ≤ b ∨ b + k ≤ a.
Definition disjoint_slices (s t : slice) : Prop :=
  disjoint_ranges (s_ptr s) (s_len s) (s_ptr t) (s_len t).

(** [alignment] returns the largest power of two that divides the address. *)
Lemma alignment_spec a :
  0 < a < 2 ^ usize_bits →
  ∃ v, 0 ≤ v ∧ alignment a = Ret (2 ^ v) ∧
    ∀ k, 0 ≤ k → (2 ^ k ≤ 2 ^ v ↔ (2 ^ k | a)).
Proof.
  intros Ha. destruct (pow2_odd_decompose a) as (v & q & Hv & Hq & E); [lia|].
  exists v. split; [done|]. split.
  - unfold alignment, unot. rewrite uadd_ok by (split; lia). simpl. f_equal.
    replace (2 ^ usize_bits - 1 - a + 1) with (2 ^ usize_bits - a) by lia. subst a.
    apply land_opp_lowest_bit; try lia.
    by destruct usize_bits_cases as [[-> _]|[-> _]].
  - intros k Hk. rewrite <-Z.pow_le_mono_r_iff by lia. split.
    + intros Hkv. rewrite E. apply Z.divide_mul_l. exists (2 ^ (v - k)).
      rewrite <-Z.pow_add_r by lia. f_equal. lia.
    + intros [c Hc]. destruct (Z.le_gt_cases k v); [done|]. exfalso.
      replace k with (v + 1 + (k - v - 1)) in Hc by lia.
      rewrite !Z.pow_add_r, Z.pow_1_r, E in Hc by lia.
      assert (0 < 2 ^ v) by (by apply pow2_pos).
      assert (2 * q + 1 = c * (2 * 2 ^ (k - v - 1))); [|lia].
      apply (Z.mul_cancel_l _ _ (2 ^ v)); lia.
Qed.

Lemma store_list_app m a xs ys :
  store_list m a (xs ++ ys) = store_list (store_list m a xs) (a + lenZ xs) ys.
Proof.
  apply map_eq. intros x. rewrite !lookup_store_list, length_app.
  repeat case_decide; try lia; try done.
  - rewrite lookup_app_r by lia. f_equal. lia.
  - rewrite lookup_app_l by lia. done.
Qed.

(** Storing a list in two consecutive pieces. *)
Lemma store_list_take_drop m a k n st :
  0 ≤ k ≤ lenZ st → 0 ≤ n →
  store_list (store_list m a (take (Z.to_nat k) st)) (a + k) (take (Z.to_nat n) (drop (Z.to_nat k) st))
    = store_list m a (take (Z.to_nat (k + n)) st).
Proof.
  intros Hk Hn. rewrite <-(take_drop (Z.to_nat k) (take (Z.to_nat (k + n)) st)).
  rewrite take_take, store_list_app, skipn_firstn_comm.
  assert (lenZ (take (Z.to_nat k `min` Z.to_nat (k + n)) st) = k) as -> by (rewrite length_take; lia).
  do 3 f_equal; lia.
Qed.

(** Storing elsewhere does not change what is read. *)
Lemma read_bytes_store_disjoint m a bs b n :
  disjoint_ranges a (lenZ bs) b n → read_bytes (store_list m a bs) b n = read_bytes m b n.
Proof.
  intros Hd. unfold read_bytes.
  assert (∀ k c, b ≤ c → c + Z.of_nat k ≤ b + Z.max 0 n →
    load_list (store_list m a bs) c k = load_list m c k) as Hk;
    [|by rewrite Hk by lia].
  induction k as [|k IH]; intros c ??; simpl; [done|].
  rewrite IH by lia. rewrite lookup_store_list, decide_False; [done|].
  unfold disjoint_ranges in Hd. lia.
Qed.

(** What a slice stores. *)
Definition contents (m : mem) (s : slice) (bs : list byte) : Prop :=
  read_bytes m (s_ptr s) (s_len s) = Ret bs.

Lemma contents_length m s bs : slice_ok m s → contents m s bs → lenZ bs = s_len s.
Proof. intros Hs Hb. apply read_bytes_Ret in Hb as [? _]; [done|]. apply Hs. Qed.

(** Storing [xs] at offset [i] of a range replaces its bytes from [i] on. *)
Lemma read_bytes_store m a n old i xs :
  read_bytes m a n = Ret old → 0 ≤ i → 0 ≤ n → i + lenZ xs ≤ n →
  read_bytes (store_list m (a + i) xs) a n = Ret (list_inserts (Z.to_nat i) xs old).
Proof.
  intros Hold Hi Hn Hle. apply read_bytes_Ret in Hold as [Hl Hx]; [|done].
  apply read_bytes_Ret; [done|]. split; [by rewrite length_inserts|].
  intros j Hj. rewrite lookup_store_list. case_decide.
  - rewrite list_lookup_inserts by lia. f_equal. lia.
  - rewrite Hx by lia. destruct (decide (j < i)).
    + by rewrite list_lookup_inserts_lt by lia.
    + by rewrite list_lookup_inserts_ge by lia.
Qed.
Lemma contents_store m s i xs old :
  slice_ok m s → contents m s old → 0 ≤ i → i + lenZ xs ≤ s_len s →
  contents (store_list m (s_ptr s + i) xs) s (list_inserts (Z.to_nat i) xs old).
Proof. intros [_ ? _ _] Hold Hi Hle. by apply read_bytes_store. Qed.

Lemma read_bytes_sub m a n bs i k :
  0 ≤ n → read_bytes m a n = Ret bs → 0 ≤ i → 0 ≤ k → i + k ≤ n →
  read_bytes m (a + i) k = Ret (take (Z.to_nat k) (drop (Z.to_nat i) bs)).
Proof.
  intros Hn Hr Hi Hk Hle. apply read_bytes_Ret in Hr as [Hl Hx]; [|done].
  apply read_bytes_Ret; [done|]. split; [rewrite length_take, length_drop; lia|].
  intros j Hj. rewrite lookup_take_lt, lookup_drop by lia.
  replace (a + i + j) with (a + (i + j)) by lia. rewrite Hx by lia. f_equal. lia.
Qed.
End specification.

(** ** Correctness of the word-wise copy *)
Section word_copy.
Context `{Target} (m0 : mem) (dst src : slice) (bs : list byte).
Context (Hdst : slice_ok m0 dst) (Hsrc : slice_ok m0 src).
Context (Hdisj : disjoint_slices dst src) (Hbs : contents m0 src bs).

Local Abbreviation total := (Z.min (s_len src) (s_len dst)).

(** The state after the first [k] bytes were copied by the accesses [log]. *)
Definition copied (k : Z) (log : list (Z * Z * Z)) : copy_state :=
  CopyState (s_ptr src + k) (s_ptr dst + k) (total - k)
    (store_list m0 (s_ptr dst) (take (Z.to_nat k) bs)) log.

(** Every chunk of [c] aligned bytes among the first [k] is within one access. *)
Definition covered (log : list (Z * Z * Z)) (c k : Z) : Prop :=
  ∀ o, 0 ≤ o → (c | o) → o + c ≤ k →
  ∃ p w, (s_ptr src + p, s_ptr dst + p, w) ∈ log ∧ p ≤ o ∧ o + c ≤ p + w.

Lemma covered_snoc log c k w :
  0 < c → covered log c k → (c | k) → (c | w) →
  covered (log ++ [(s_ptr src + k, s_ptr dst + k, w)]) c (k + w).
Proof.
  intros Hc Hcov Hk Hw o Ho Hco Hle. destruct (Z.le_gt_cases (o + c) k).
  - destruct (Hcov o) as (p & w' & Hin & ?); [done..|].
    exists p, w'. split; [|done]. apply elem_of_app. by left.
  - exists k, w. split; [apply elem_of_app; right; by apply list_elem_of_singleton|].
    split; [|done]. destruct Hk as [x ->], Hco as [y ->].
    apply Z.mul_le_mono_nonneg_r; [lia|]. apply Z.lt_succ_r, (Z.mul_lt_mono_pos_r c); lia.
Qed.

(** The accesses [log] transfer the first [k] bytes one after the other, each
    with a width to which both its addresses are aligned. *)
Inductive chain : list (Z * Z * Z) → Z → Prop :=
| chain_nil : chain [] 0
| chain_snoc log p w :
    chain log p → w = 8 ∨ w = 4 ∨ w = 2 ∨ w = 1 →
    (w | s_ptr src + p) → (w | s_ptr dst + p) → p + w ≤ total →
    chain (log ++ [(s_ptr src + p, s_ptr dst + p, w)]) (p + w).

Lemma chain_nonneg log k : chain log k → 0 ≤ k.
Proof. induction 1; lia. Qed.

(** One access copies the next [ma] bytes. *)
Lemma copy_single_copied ma k :
  ma = 8 ∨ ma = 4 ∨ ma = 2 ∨ ma = 1 →
  (ma | s_ptr src + k) → (ma | s_ptr dst + k) → 0 ≤ k → k + ma ≤ total →
  copy_single (store_list m0 (s_ptr dst) (take (Z.to_nat k) bs)) ma (s_ptr src + k) (s_ptr dst + k)
    = Ret (store_list m0 (s_ptr dst) (take (Z.to_nat (k + ma)) bs)).
Proof.
  intros Hma Hs Hd Hk0 Hle. pose proof (contents_length _ _ _ Hsrc Hbs) as Hlen.
  assert (0 < ma) by lia. unfold copy_single.
  assert ((ma =? 8) || (ma =? 4) || (ma =? 2) || (ma =? 1) = true) as -> by lia.
  rewrite read_volatile_aligned; [|apply Z.mod_divide; [lia|done]].
  rewrite read_bytes_store_disjoint; cycle 1.
  { rewrite length_take. unfold disjoint_slices, disjoint_ranges in *. lia. }
  rewrite (read_bytes_sub _ _ (s_len src) bs) by (done || apply Hsrc || lia). simpl.
  rewrite write_volatile_aligned; [|apply Z.mod_divide; [lia|done]].
  assert (lenZ (take (Z.to_nat ma) (drop (Z.to_nat k) bs)) = ma) as Hl
    by (rewrite length_take, length_drop; lia).
  rewrite write_bytes_mapped; cycle 1.
  { rewrite Hl. apply mapped_store_list, (mapped_mono _ (s_ptr dst) (s_len dst)); [apply Hdst|lia..]. }
  f_equal. apply store_list_take_drop; lia.
Qed.

(** A loop of [copy_aligned_slice] stops when the rest is shorter than its
    width, or does nothing when the addresses are not aligned enough. *)
Lemma copy_aligned_slice_spec align ma k log (C : Z → Prop) :
  ma = 8 ∨ ma = 4 ∨ ma = 2 ∨ ma = 1 →
  (ma ≤ align → (ma | s_ptr src) ∧ (ma | s_ptr dst)) →
  (ma | k) → 0 ≤ k ≤ total →
  (∀ c, C c → 0 < c ∧ (c | ma) ∧ covered log c k) → chain log k →
  wp (copy_aligned_slice align ma (copied k log)) (λ s, ∃ k' log',
    s = copied k' (log ++ log') ∧ k ≤ k' ≤ total ∧ (ma | k') ∧ chain (log ++ log') k' ∧
    (align < ma ∨ total - k' < ma) ∧ ∀ c, C c → covered (log ++ log') c k').
Proof.
  intros Hma Hal Hk Hk0 HC Hch.
  eapply (while_loop_wp _ (λ s, ∃ k' log', s = copied k' (log ++ log') ∧ k ≤ k' ≤ total ∧
    (ma | k') ∧ chain (log ++ log') k' ∧ ∀ c, C c → covered (log ++ log') c k') cs_left).
  - intros ? (k' & log' & -> & ? & ?). simpl. lia.
  - intros ? (k' & log' & -> & Hk' & Hdiv & Hch' & Hcov). cbn [cs_left cs_src cs_dst cs_log copied].
    destruct (Z.leb_spec ma align), (Z.leb_spec ma (total - k')); simpl;
      [|exists k', log'; split_and!; auto; lia..].
    pose proof (slice_ptr_pos _ _ Hsrc). pose proof (slice_ptr_pos _ _ Hdst).
    pose proof (slice_end _ _ Hsrc). pose proof (slice_end _ _ Hdst).
    pose proof (slice_len_nonneg _ _ Hsrc). pose proof (slice_len_nonneg _ _ Hdst).
    destruct Hal as [Hs Hd]; [done|].
    rewrite (copy_single_copied ma k') by (done || lia || by apply Z.divide_add_r). simpl.
    rewrite !uadd_ok, usub_ok by (split; lia). simpl. split; [|lia].
    exists (k' + ma), (log' ++ [(s_ptr src + k', s_ptr dst + k', ma)]).
    split_and!; try lia.
    + unfold copied. rewrite app_assoc. f_equal; lia.
    + by apply Z.divide_add_r; [|exists 1; lia].
    + rewrite app_assoc. constructor; [done..| | |lia]; by apply Z.divide_add_r.
    + intros c Hc. destruct (HC c Hc) as (? & ? & _).
      rewrite app_assoc. apply covered_snoc; auto. by trans ma.
  - exists k, []. rewrite app_nil_r. split_and!; auto; try lia. intros c Hc. by apply HC.
  - simpl. pose proof (slice_end _ _ Hsrc). pose proof (slice_ptr_pos _ _ Hsrc).
    assert (2 ^ usize_bits ≤ 2 ^ 64) by (destruct usize_bits_cases as [[-> _]|[-> _]]; done). lia.
Qed.

Lemma covered_app log log' c k : covered log c k → covered (log ++ log') c k.
Proof.
  intros Hc o ???. destruct (Hc o) as (p & w & Hin & ?); [done..|].
  exists p, w. split; [|done]. apply elem_of_app. by left.
Qed.
Lemma covered_total log c k :
  0 < c → (c | k) → total - k < c → covered log c k → covered log c total.
Proof.
  intros Hc [x ->] Hlt Hcov o Ho [y ->] Hle. apply Hcov; [done|by exists y|].
  replace (y * c + c) with ((y + 1) * c) by lia.
  apply Z.mul_le_mono_nonneg_r; [lia|].
  apply Z.lt_succ_r, (Z.mul_lt_mono_pos_r c); lia.
Qed.

(** Between the loops of widths [2^(j+1)] and [2^j]: [k] bytes are copied, in
    multiples of [2^j]; the chunks of the widths already done are copied
    whole. *)
Definition stage (align top j k : Z) (log : list (Z * Z * Z)) : Prop :=
  0 ≤ k ≤ total ∧ (0 ≤ j → (2 ^ j | k)) ∧ chain log k ∧
  (∀ i, 0 ≤ i ≤ j → covered log (2 ^ i) k) ∧
  (∀ i, j < i ≤ top → 0 ≤ i → 2 ^ i ≤ align → covered log (2 ^ i) total) ∧
  (j < 0 → 0 < align → k = total).

Lemma pow2_divide i j : 0 ≤ i ≤ j → (2 ^ i | 2 ^ j).
Proof. intros. exists (2 ^ (j - i)). rewrite <-Z.pow_add_r by lia. f_equal. lia. Qed.

(** Before the first loop nothing has been copied. *)
Lemma stage_init align top j : 0 ≤ total → 0 ≤ top ≤ j → stage align top j 0 [].
Proof.
  intros. unfold stage. split_and!; try lia.
  - intros _. apply Z.divide_0_r.
  - constructor.
  - intros i Hi o ???. pose proof (pow2_pos i). lia.
Qed.

Lemma stage_step align top j k log :
  0 ≤ j ≤ 3 → (2 ^ j ≤ align → (2 ^ j | s_ptr src) ∧ (2 ^ j | s_ptr dst)) →
  stage align top j k log →
  wp (copy_aligned_slice align (2 ^ j) (copied k log)) (λ s, ∃ k' log',
    s = copied k' log' ∧ stage align top (j - 1) k' log').
Proof.
  intros Hj Hal (Hk & Hdiv & Hch & Hlow & Hhigh & Hend).
  assert (0 < 2 ^ j) by (apply pow2_pos; lia).
  eapply wp_mono; [eapply (copy_aligned_slice_spec _ _ _ _ (λ c, ∃ i, 0 ≤ i ≤ j ∧ c = 2 ^ i))|].
  - assert (j = 0 ∨ j = 1 ∨ j = 2 ∨ j = 3) as [-> | [-> | [-> | ->]]] by lia; vm_compute; auto.
  - done.
  - apply Hdiv. lia.
  - done.
  - intros c (i & Hi & ->). split_and!; [apply pow2_pos; lia|by apply pow2_divide|by apply Hlow].
  - done.
  - intros s (k' & log' & -> & Hk' & Hdiv' & Hch' & Hstop & Hcov).
    exists k', (log ++ log'). split; [done|]. split_and!; [lia..| |done| | |].
    + intros ?. trans (2 ^ j); [apply pow2_divide; lia|done].
    + intros i ?. apply Hcov. exists i. split; [lia|done].
    + intros i Hi Hi0 Hia. destruct (decide (i = j)) as [->|].
      * apply covered_total with k'; [done..|lia|]. apply Hcov. eauto with lia.
      * apply covered_app, Hhigh; [lia..|done].
    + intros ??. assert (j = 0) as -> by lia. change (2 ^ 0) with 1 in *. lia.
Qed.
End word_copy.

Section theorems.
Context `{Target}.
Implicit Types (m : mem) (dst src : slice).

Local Abbreviation total src dst := (Z.min (s_len src) (s_len dst)).

(** The word-wise copy: all bytes are copied, and an aligned word is copied
    by one access. *)
Lemma copy_slice_run_spec m dst src bs :
  slice_ok m dst → slice_ok m src → disjoint_slices dst src → contents m src bs →
  ∃ log, copy_slice_run m dst src = Ret (copied m dst src bs (total src dst) log) ∧
    chain dst src log (total src dst) ∧
    ∀ i, 0 ≤ i ≤ 3 → 2 ^ i ≤ usize_bytes → (2 ^ i | s_ptr src) → (2 ^ i | s_ptr dst) →
      covered dst src log (2 ^ i) (total src dst).
Proof.
  intros Hdst Hsrc Hdisj Hbs. unfold copy_slice_run.
  pose proof (slice_ptr_pos _ _ Hsrc). pose proof (slice_ptr_pos _ _ Hdst).
  pose proof (slice_end _ _ Hsrc). pose proof (slice_end _ _ Hdst).
  pose proof (slice_len_nonneg _ _ Hsrc). pose proof (slice_len_nonneg _ _ Hdst).
  destruct (alignment_spec (s_ptr src)) as (v & Hv & -> & Hav); [lia|].
  destruct (alignment_spec (s_ptr dst)) as (w & Hw & -> & Haw); [lia|].
  cbn [mbind outcome_bind].
  set (align := Z.min (2 ^ v) (2 ^ w)).
  assert (∀ j, 0 ≤ j → 2 ^ j ≤ align ↔ (2 ^ j | s_ptr src) ∧ (2 ^ j | s_ptr dst)) as Hal.
  { intros j Hj. rewrite <-Hav, <-Haw by done. unfold align. lia. }
  assert (0 < align) by (unfold align; pose proof (pow2_pos v Hv); pose proof (pow2_pos w Hw); lia).
  set (top := if 4 <? usize_bytes then 3 else 2).
  assert (wp (if 4 <? usize_bytes
              then copy_aligned_slice align 8 (CopyState (s_ptr src) (s_ptr dst) (total src dst) m [])
              else Ret (CopyState (s_ptr src) (s_ptr dst) (total src dst) m []))
    (λ s, ∃ k log, s = copied m dst src bs k log ∧ stage dst src align top 2 k log)) as H8.
  { assert (CopyState (s_ptr src) (s_ptr dst) (total src dst) m [] = copied m dst src bs 0 []) as ->.
    { unfold copied. simpl. f_equal; lia. }
    assert (∀ j, top ≤ j → stage dst src align top j 0 []) as Hinit.
    { intros j Hj. apply stage_init; unfold top in *; destruct (4 <? usize_bytes); lia. }
    unfold top in *. destruct (4 <? usize_bytes); [|exists 0, []; split; [done|by apply Hinit]].
    apply (stage_step m dst src bs) with (j := 3); try assumption; [lia|apply (Hal 3); lia|].
    apply Hinit. lia. }
  assert (∀ j k log, 0 ≤ j ≤ 3 → stage dst src align top j k log →
    wp (copy_aligned_slice align (2 ^ j) (copied m dst src bs k log)) (λ s, ∃ k' log',
      s = copied m dst src bs k' log' ∧ stage dst src align top (j - 1) k' log')) as Hst.
  { intros j k log ??. apply stage_step; try assumption. apply (Hal j). lia. }
  match goal with |- ∃ log, ?o = _ ∧ _ => enough (wp o (λ s, ∃ k log,
    s = copied m dst src bs k log ∧ stage dst src align top (-1) k log)) as Hwp end.
  - apply wp_inv in Hwp as (s & -> & k & log & -> & (_ & _ & Hch & _ & Hhigh & Hend)).
    rewrite Hend in * by lia. exists log. split_and!; [done..|]. intros i Hi Hus Hs Hd.
    apply Hhigh; [|lia|apply (Hal i); [lia|split; assumption]]. unfold top. split; [lia|].
    destruct (Z.ltb_spec 4 usize_bytes); [lia|]. destruct (decide (i = 3)) as [->|]; [|lia].
    change (2 ^ 3) with 8 in Hus. lia.
  - apply wp_bind. eapply wp_mono; [exact H8|]. intros ? (k & log & -> & Hk).
    apply wp_bind. eapply wp_mono; [apply (Hst 2); [lia|done]|]. intros ? (? & ? & -> & ?).
    apply wp_bind. eapply wp_mono; [apply (Hst 1); [lia|done]|]. intros ? (? & ? & -> & ?).
    apply (Hst 0); [lia|done].
Qed.

(** [copy_slice] is [memcpy] of the first [min(src.len(), dst.len())] bytes. *)
Lemma copy_slice_spec m dst src bs :
  slice_ok m dst → slice_ok m src → disjoint_slices dst src → contents m src bs →
  copy_slice m dst src =
    Ret (total src dst, store_list m (s_ptr dst) (take (Z.to_nat (total src dst)) bs)).
Proof.
  intros Hdst Hsrc Hdisj Hbs. unfold copy_slice.
  pose proof (slice_len_nonneg _ _ Hsrc). pose proof (slice_len_nonneg _ _ Hdst).
  destruct (Z.leb_spec (total src dst) usize_bytes).
  - unfold copy_slice_volatile.
    destruct (copy_slice_run_spec m dst src bs) as (log & -> & _); done.
  - unfold slice_range.
    rewrite !(proj2 (Z.leb_le _ _)) by lia. simpl.
    unfold copy_from_slice, ptr_copy. simpl. rewrite Z.eqb_refl. simpl.
    rewrite (read_bytes_sub m (s_ptr src) (s_len src) bs 0) by (done || lia). simpl.
    rewrite !Z.add_0_r, Z.sub_0_r, drop_0.
    assert (lenZ (take (Z.to_nat (total src dst)) bs) = total src dst).
    { apply read_bytes_Ret in Hbs as [? _]; [|done]. rewrite length_take. lia. }
    rewrite write_bytes_mapped; [done|].
    apply (mapped_mono _ (s_ptr dst) (s_len dst)); [apply Hdst|lia..].
Qed.

(** C21: [copy_slice] between valid slices that do not alias copies the first
    [min(src.len(), dst.len())] bytes, whatever the alignment of the two
    pointers and whether it takes the word-wise or the bulk path: it returns
    that number, the destination holds the copied bytes followed by its own
    old ones, the source and all other memory are unchanged, and no step
    panics or performs a misaligned or out-of-bounds access. *)
Theorem copy_slice_memcpy m dst src bs old :
  slice_ok m dst → slice_ok m src → disjoint_slices dst src →
  contents m src bs → contents m dst old →
  ∃ m', copy_slice m dst src = Ret (total src dst, m') ∧
    contents m' dst (list_inserts 0 (take (Z.to_nat (total src dst)) bs) old) ∧
    contents m' src bs ∧
    ∀ x, ¬ s_ptr dst ≤ x < s_ptr dst + total src dst → m' !! x = m !! x.
Proof.
  intros Hdst Hsrc Hdisj Hbs Hold.
  pose proof (slice_len_nonneg _ _ Hsrc). pose proof (slice_len_nonneg _ _ Hdst).
  pose proof (contents_length _ _ _ Hsrc Hbs).
  eexists. split; [by apply copy_slice_spec|].
  assert (lenZ (take (Z.to_nat (total src dst)) bs) = total src dst) as Hl
    by (rewrite length_take; lia). split_and!.
  - rewrite <-(Z.add_0_r (s_ptr dst)). apply contents_store; [done..|]. lia.
  - unfold contents. rewrite read_bytes_store_disjoint; [done|].
    unfold disjoint_slices, disjoint_ranges in *. lia.
  - intros x Hx. rewrite lookup_store_list, decide_False by lia. done.
Qed.

(** No tearing. When a copy of at most a machine word runs between
    pointers that are both aligned to [2^i], every [2^i]-aligned chunk of the
    copied range is transferred by a single volatile access. *)
Theorem copy_slice_volatile_no_tearing m dst src bs i :
  slice_ok m dst → slice_ok m src → disjoint_slices dst src → contents m src bs →
  0 ≤ i → 2 ^ i ≤ usize_bytes → (2 ^ i | s_ptr src) → (2 ^ i | s_ptr dst) →
  ∃ s, copy_slice_run m dst src = Ret s ∧
    ∀ o, 0 ≤ o → (2 ^ i | o) → o + 2 ^ i ≤ total src dst →
    ∃ p w, (s_ptr src + p, s_ptr dst + p, w) ∈ cs_log s ∧ p ≤ o ∧ o + 2 ^ i ≤ p + w.
Proof.
  intros Hdst Hsrc Hdisj Hbs Hi Hus Hs Hd.
  destruct (copy_slice_run_spec m dst src bs) as (log & -> & _ & Hcov); [done..|].
  eexists. split; [done|]. apply Hcov; [|done..]. split; [done|].
  assert (usize_bytes ≤ 2 ^ 3) by (destruct usize_bits_cases as [[_ ->]|[_ ->]]; done).
  apply (Z.pow_le_mono_r_iff 2); lia.
Qed.
End theorems.

(** ** Witnesses: a 2-byte integer and 3 more bytes at the addresses 0x1002 and
    0x2002. *)
Definition example_mem : mem :=
  store_list (list_to_map ((λ i, (i, x00)) <$> (seqZ 0x1000 16 ++ seqZ 0x2000 16)))
    0x1002 [x01; x02; x03; x04; x05].

Lemma example_src_ok : slice_ok (H := x86_64_debug) example_mem (Slice 0x1002 5).
Proof.
  constructor; [by vm_compute..|]. intros i Hi. simpl in Hi.
  assert (i = 0 ∨ i = 1 ∨ i = 2 ∨ i = 3 ∨ i = 4) as [-> | [-> | [-> | [-> | ->]]]] by lia;
    vm_compute; eauto.
Qed.
Lemma example_dst_ok : slice_ok (H := x86_64_debug) example_mem (Slice 0x2002 5).
Proof.
  constructor; [by vm_compute..|]. intros i Hi. simpl in Hi.
  assert (i = 0 ∨ i = 1 ∨ i = 2 ∨ i = 3 ∨ i = 4) as [-> | [-> | [-> | [-> | ->]]]] by lia;
    vm_compute; eauto.
Qed.

Lemma copy_slice_memcpy_witness :
  ∃ m', copy_slice (H := x86_64_debug) example_mem (Slice 0x2002 5) (Slice 0x1002 5) = Ret (5, m') ∧
    contents m' (Slice 0x2002 5) [x01; x02; x03; x04; x05] ∧
    contents m' (Slice 0x1002 5) [x01; x02; x03; x04; x05] ∧
    ∀ x, ¬ 0x2002 ≤ x < 0x2002 + 5 → m' !! x = example_mem !! x.
Proof.
  apply (copy_slice_memcpy (H := x86_64_debug) example_mem (Slice 0x2002 5) (Slice 0x1002 5)
    [x01; x02; x03; x04; x05] [x00; x00; x00; x00; x00]).
  - apply example_dst_ok.
  - apply example_src_ok.
  - right. by vm_compute.
  - by vm_compute.
  - by vm_compute.
Defined.

Lemma copy_slice_volatile_no_tearing_witness :
  ∃ s, copy_slice_run (H := x86_64_debug) example_mem (Slice 0x2002 5) (Slice 0x1002 5) = Ret s ∧
    ∀ o, 0 ≤ o → (2 ^ 1 | o) → o + 2 ^ 1 ≤ Z.min 5 5 →
    ∃ p w, (0x1002 + p, 0x2002 + p, w) ∈ cs_log s ∧ p ≤ o ∧ o + 2 ^ 1 ≤ p + w.
Proof.
  apply (copy_slice_volatile_no_tearing (H := x86_64_debug) example_mem
    (Slice 0x2002 5) (Slice 0x1002 5) [x01; x02; x03; x04; x05] 1).
  - apply example_dst_ok.
  - apply example_src_ok.
  - right. by vm_compute.
  - by vm_compute.
  - done.
  - by vm_compute.
  - by exists 0x801.
  - by exists 0x1001.
Defined.
