(* ===== verification/Volatile.v ===== *)
(** * Volatile memory ([src/src/volatile_memory.rs])

    [VolatileSlice], [VolatileRef] and [VolatileArrayRef] are pointers with a
    length; the trait [VolatileMemory] is a class whose provided methods are
    definitions over it; the operations thread the memory of the process. *)

From S2P Require Import Prelude Memory PlainData AtomicIntegers Bytes CopySlice.

(** ** Errors *)
Inductive VolatileError :=
| OutOfBounds (addr : Z)
| Overflow (base offset : Z)
| TooBig (nelements size : Z)
| Misaligned (addr alignment : Z)
| VIOError (e : io_error)
| VPartialBuffer (expected completed : Z).

#[export] Instance VolatileError_eq_dec : EqDecision VolatileError.
Proof. solve_decision. Defined.

Abbreviation vresult A := (result A VolatileError).

(** ** The accessors *)
Record VolatileSlice := VSlice { vs_addr : Z; vs_size : Z }.
Record VolatileRef (T : Type) := VRef { vr_addr : Z }.
Record VolatileArrayRef (T : Type) := VArrayRef { va_addr : Z; va_nelem : Z }.
Arguments VRef {T} _.
Arguments vr_addr {T} _.
Arguments VArrayRef {T} _ _.
Arguments va_addr {T} _.
Arguments va_nelem {T} _.

#[export] Instance VolatileSlice_eq_dec : EqDecision VolatileSlice.
Proof. solve_decision. Defined.

Definition compute_offset `{Target} (base offset : Z) : vresult Z :=
  match uint_checked_add usize_bits base offset with
  | None => Err (Overflow base offset)
  | Some m => Ok m
  end.

(** ** The trait [VolatileMemory] *)
Class VolatileLen (Self : Type) := vm_len : Self → Z.
Class VolatileMemory (Self : Type) `{VolatileLen Self} :=
  get_slice : Self → Z → Z → outcome (vresult VolatileSlice).

Section inherent_slice_methods.
Context `{Target}.
Implicit Types s : VolatileSlice.

Definition vs_as_ptr s : Z := vs_addr s.
Definition vs_len s : Z := vs_size s.
Definition vs_is_empty s : bool := vs_size s =? 0.
(** [VolatileSlice::as_slice] and [VolatileSlice::as_mut_slice]. *)
Definition vs_as_slice s : slice := Slice (vs_addr s) (vs_size s).
Definition vs_as_mut_slice s : slice := Slice (vs_addr s) (vs_size s).

Definition check_alignment s (alignment : Z) : outcome (vresult unit) :=
  _ ← (if debug_assertions then
         m ← usub usize_bits alignment 1; rassert (Z.land alignment m =? 0)
       else Ret tt);
  m ← usub usize_bits alignment 1;
  if negb (Z.land (vs_addr s) m =? 0)
  then Ret (Err (Misaligned (vs_addr s) alignment))
  else Ret (Ok tt).

Definition offset s (count : Z) : outcome (vresult VolatileSlice) :=
  match uint_checked_add usize_bits (vs_addr s) count with
  | None => Ret (Err (Overflow (vs_addr s) count))
  | Some new_addr =>
      match uint_checked_sub (vs_size s) count with
      | None => Ret (Err (OutOfBounds new_addr))
      | Some new_size => Ret (Ok (VSlice new_addr new_size))
      end
  end.

Definition split_at s (mid : Z) : outcome (vresult (VolatileSlice * VolatileSlice)) :=
  let? end_ := offset s mid in
  Ret (Ok (VSlice (vs_addr s) mid, end_)).

Definition subslice s (offset count : Z) : outcome (vresult VolatileSlice) :=
  match compute_offset offset count with
  | Err e => Ret (Err e)
  | Ok mem_end =>
      if vs_size s <? mem_end then Ret (Err (OutOfBounds mem_end))
      else a ← uadd usize_bits (vs_addr s) offset; Ret (Ok (VSlice a count))
  end.
End inherent_slice_methods.

Section provided_methods_of_len.
Context `{Target} `{VolatileLen Self}.
Implicit Types self : Self.

Definition is_empty self : bool := vm_len self =? 0.

Definition compute_end_offset self (base offset : Z) : vresult Z :=
  match compute_offset base offset with
  | Err e => Err e
  | Ok mem_end => if vm_len self <? mem_end then Err (OutOfBounds mem_end) else Ok mem_end
  end.
End provided_methods_of_len.

Section provided_methods.
Context `{Target} `{VolatileMemory Self}.
Implicit Types self : Self.

Definition as_volatile_slice self : outcome VolatileSlice :=
  r ← get_slice self 0 (vm_len self);
  match r with Ok s => Ret s | Err _ => Panic end.

Definition get_ref (T : Type) `{ByteValued T} self (offset : Z) : outcome (vresult (VolatileRef T)) :=
  let? slice := get_slice self offset (size_of T) in
  Ret (Ok (VRef (vs_addr slice))).

(** [isize::try_from(n)] and [isize::checked_mul], on non-negative numbers. *)
Definition isize_try_from (n : Z) : option Z := if n <=? isize_max then Some n else None.
Definition isize_checked_mul (a b : Z) : option Z := if a * b <=? isize_max then Some (a * b) else None.

Definition get_array_ref (T : Type) `{ByteValued T} self (offset n : Z)
    : outcome (vresult (VolatileArrayRef T)) :=
  match isize_try_from n ≫= λ n, isize_checked_mul n (size_of T) with
  | None => Ret (Err (TooBig n (size_of T)))
  | Some nbytes =>
      let? slice := get_slice self offset nbytes in
      Ret (Ok (VArrayRef (vs_addr slice) n))
  end.

(** [aligned_as_ref] and [aligned_as_mut] return a reference: an address. *)
Definition aligned_as_ref (T : Type) `{ByteValued T} self (offset : Z) : outcome (vresult Z) :=
  let? slice := get_slice self offset (size_of T) in
  let? _u := check_alignment slice (align_of T) in
  Ret (Ok (vs_addr slice)).
Definition aligned_as_mut (T : Type) `{ByteValued T} self (offset : Z) : outcome (vresult Z) :=
  let? slice := get_slice self offset (size_of T) in
  let? _u := check_alignment slice (align_of T) in
  Ret (Ok (vs_addr slice)).

Definition get_atomic_ref (T : Type) `{AtomicInteger T} self (offset : Z) : outcome (vresult Z) :=
  let? slice := get_slice self offset (atomic_size T) in
  let? _u := check_alignment slice (atomic_align T) in
  Ret (Ok (vs_addr slice)).
End provided_methods.

(** ** Its implementations for [&mut [u8]] and [VolatileSlice] *)
Section instances.
Context `{Target}.

#[export] Instance slice_len : VolatileLen slice := s_len.
#[export] Instance VolatileSlice_len : VolatileLen VolatileSlice := vs_size.

Definition slice_get_slice (self : slice) (offset count : Z) : outcome (vresult VolatileSlice) :=
  match compute_end_offset self offset count with
  | Err e => Ret (Err e)
  | Ok _ => a ← uadd usize_bits (s_ptr self) offset; Ret (Ok (VSlice a count))
  end.
Definition vs_get_slice (self : VolatileSlice) (offset count : Z) : outcome (vresult VolatileSlice) :=
  match compute_end_offset self offset count with
  | Err e => Ret (Err e)
  | Ok _ => a ← uadd usize_bits (vs_addr self) offset; Ret (Ok (VSlice a count))
  end.

#[export] Instance slice_VolatileMemory : VolatileMemory slice := slice_get_slice.
#[export] Instance VolatileSlice_VolatileMemory : VolatileMemory VolatileSlice := vs_get_slice.
End instances.

(** ** [VolatileRef] *)
Section volatile_ref.
Context `{ByteValued T}.
Implicit Types r : VolatileRef T.

Definition vr_len r : Z := size_of T.
Definition vr_as_ptr r : Z := vr_addr r.
Definition vr_to_slice r : VolatileSlice := VSlice (vr_addr r) (size_of T).

(** The pointer is to [Packed<T>], so the access needs no alignment. *)
Definition vr_store (m : mem) r (v : T) : outcome mem :=
  write_volatile 1 m (vr_addr r) (as_slice v).
Definition vr_load (m : mem) r : outcome T :=
  bs ← read_volatile 1 m (vr_addr r) (size_of T); Ret (from_bytes bs).
End volatile_ref.

(** ** [VolatileArrayRef] *)
Section volatile_array_ref.
Context `{Target} `{ByteValued T}.
Implicit Types a : VolatileArrayRef T.

Definition va_is_empty a : bool := va_nelem a =? 0.
Definition va_len a : Z := va_nelem a.
Definition va_as_ptr a : Z := va_addr a.
Definition element_size a : Z := size_of T.

Definition va_to_slice a : outcome VolatileSlice :=
  n ← umul usize_bits (va_nelem a) (element_size a);
  Ret (VSlice (va_addr a) n).

Definition ref_at a (index : Z) : outcome (VolatileRef T) :=
  _ ← rassert (index <? va_nelem a);
  byteofs ← umul usize_bits (element_size a) index;
  ptr ← (if byteofs <=? isize_max then ptr_add (va_addr a) byteofs else Undef);
  Ret (VRef ptr).

Definition va_load (m : mem) a (index : Z) : outcome T :=
  r ← ref_at a index; vr_load m r.
Definition va_store (m : mem) a (index : Z) (value : T) : outcome mem :=
  r ← ref_at a index; vr_store m r value.

(** The loop of [copy_to] over the first [n] elements of [buf]: each is a
    volatile read of [Packed<T>] assigned to an element of [buf]. *)
Fixpoint copy_to_loop (m : mem) (addr buf : Z) (n : nat) : outcome mem :=
  match n with
  | O => Ret m
  | S n =>
      v ← read_volatile 1 m addr (size_of T);
      m ← write_bytes m buf (as_slice (from_bytes v : T));
      addr ← ptr_add addr (size_of T);
      copy_to_loop m addr (buf + size_of T) n
  end.

Definition va_copy_to (m : mem) a (buf : slice) : outcome (Z * mem) :=
  if size_of T =? 1 then
    source ← va_to_slice a;
    copy_slice m (Slice (s_ptr buf) (s_len buf)) (vs_as_slice source)
  else
    let n := Z.min (va_len a) (s_len buf) in
    m ← copy_to_loop m (va_addr a) (s_ptr buf) (Z.to_nat n);
    Ret (n, m).

Definition va_copy_to_volatile_slice (m : mem) a (slice : VolatileSlice) : outcome mem :=
  n ← umul usize_bits (va_len a) (element_size a);
  ptr_copy m (va_addr a) (vs_addr slice) (Z.min n (vs_size slice)).

Fixpoint copy_from_loop (m : mem) (addr buf : Z) (n : nat) : outcome mem :=
  match n with
  | O => Ret m
  | S n =>
      v ← read_bytes m buf (size_of T);
      m ← write_volatile 1 m addr (as_slice (from_bytes v : T));
      addr ← ptr_add addr (size_of T);
      copy_from_loop m addr (buf + size_of T) n
  end.

Definition va_copy_from (m : mem) a (buf : slice) : outcome mem :=
  if size_of T =? 1 then
    destination ← va_to_slice a;
    '(_, m) ← copy_slice m (vs_as_mut_slice destination) (Slice (s_ptr buf) (s_len buf));
    Ret m
  else
    copy_from_loop m (va_addr a) (s_ptr buf) (Z.to_nat (Z.min (va_len a) (s_len buf))).
End volatile_array_ref.

(** [impl From<VolatileSlice> for VolatileArrayRef<u8>]. *)
Definition array_ref_of_slice (s : VolatileSlice) : VolatileArrayRef u8 :=
  VArrayRef (vs_addr s) (vs_size s).

(** ** Copies of [VolatileSlice] *)
Section slice_copies.
Context `{Target}.
Implicit Types s : VolatileSlice.

Definition vs_copy_to (T : Type) `{ByteValued T} (m : mem) s (buf : slice) : outcome (Z * mem) :=
  if size_of T =? 1 then
    copy_slice m (Slice (s_ptr buf) (s_len buf)) (vs_as_slice s)
  else
    count ← udiv (vs_size s) (size_of T);
    r ← get_array_ref T s 0 count;
    match r with
    | Ok source => va_copy_to m source buf
    | Err _ => Panic
    end.

Definition vs_copy_to_volatile_slice (m : mem) s (slice : VolatileSlice) : outcome mem :=
  ptr_copy m (vs_addr s) (vs_addr slice) (Z.min (vs_size s) (vs_size slice)).

Definition vs_copy_from (T : Type) `{ByteValued T} (m : mem) s (buf : slice) : outcome mem :=
  if size_of T =? 1 then
    '(_, m) ← copy_slice m (vs_as_mut_slice s) (Slice (s_ptr buf) (s_len buf));
    Ret m
  else
    count ← udiv (vs_size s) (size_of T);
    r ← get_array_ref T s 0 count;
    match r with
    | Ok dest => va_copy_from m dest buf
    | Err _ => Panic
    end.
End slice_copies.

(** [ByteValued::as_bytes]: a value in memory at [addr] as a [VolatileSlice]. *)
Definition as_bytes (T : Type) `{ByteValued T} (addr : Z) : VolatileSlice := VSlice addr (size_of T).

(** ** [impl Bytes<usize> for VolatileSlice] *)
Module VolatileBytes.
Section bytes.
Context `{Target}.
Implicit Types (m : mem) (self : VolatileSlice).

(** [s.split_at(mid).1]. *)
Definition split_at_1 (s : slice) (mid : Z) : outcome slice := slice_range s mid (s_len s).

Definition write m self (buf : slice) (addr : Z) : outcome (vresult Z * mem) :=
  if vs_size self <=? addr then Ret (Err (OutOfBounds addr), m)
  else
    slice ← split_at_1 (vs_as_mut_slice self) addr;
    '(n, m) ← copy_slice m slice buf;
    Ret (Ok n, m).

Definition read m self (buf : slice) (addr : Z) : outcome (vresult Z * mem) :=
  if vs_size self <=? addr then Ret (Err (OutOfBounds addr), m)
  else
    slice ← split_at_1 (vs_as_slice self) addr;
    '(n, m) ← copy_slice m buf slice;
    Ret (Ok n, m).

Definition write_slice m self (buf : slice) (addr : Z) : outcome (vresult unit * mem) :=
  let? len, m := write m self buf addr in
  if negb (len =? s_len buf) then Ret (Err (VPartialBuffer (s_len buf) len), m)
  else Ret (Ok tt, m).

Definition read_slice m self (buf : slice) (addr : Z) : outcome (vresult unit * mem) :=
  let? len, m := read m self buf addr in
  if negb (len =? s_len buf) then Ret (Err (VPartialBuffer (s_len buf) len), m)
  else Ret (Ok tt, m).

(** [src.read(dst)] on a slice of memory. *)
Definition read_into {F} `{Read F} (m : mem) (src : F) (dst : slice)
    : outcome (result Z io_error * F * mem) :=
  buf ← read_bytes m (s_ptr dst) (s_len dst);
  let '(r, buf, src) := io_read src buf in
  m ← write_bytes m (s_ptr dst) buf;
  Ret (r, src, m).

(** The loop that retries a call that was interrupted. *)
Definition retry {S E} (io : io_error → E) (call : S → outcome (result Z io_error * S)) (s : S)
    : outcome (result Z E * S) :=
  while_loop (λ s,
    '(r, s) ← call s;
    match r with
    | Ok n => Ret (inr (Ok n, s))
    | Err e =>
        if decide (io_kind e = Interrupted) then Ret (inl s)
        else Ret (inr (Err (io e), s))
    end) s.

Definition read_from {F} `{Read F} m self (addr : Z) (src : F) (count : Z)
    : outcome (vresult Z * (F * mem)) :=
  match compute_end_offset self addr count with
  | Err e => Ret (Err e, (src, m))
  | Ok end_ =>
      dst ← slice_range (vs_as_mut_slice self) addr end_;
      retry VIOError (λ '(src, m), '(r, src, m) ← read_into m src dst; Ret (r, (src, m))) (src, m)
  end.

Definition write_to {F} `{Write F} m self (addr : Z) (dst : F) (count : Z)
    : outcome (vresult Z * F) :=
  match compute_end_offset self addr count with
  | Err e => Ret (Err e, dst)
  | Ok end_ =>
      src ← slice_range (vs_as_mut_slice self) addr end_;
      retry VIOError (λ dst, buf ← read_bytes m (s_ptr src) (s_len src); Ret (io_write dst buf)) dst
  end.

(** [Read::read_exact] and [Write::write_all] of the standard library: repeat
    the call on what is left of the buffer. *)
Definition read_exact {F} `{Read F} (m : mem) (src : F) (dst : slice)
    : outcome (result unit io_error * (F * mem)) :=
  while_loop (λ '(src, m, dst),
    if s_len dst =? 0 then Ret (inr (Ok tt, (src, m)))
    else
      '(r, src, m) ← read_into m src dst;
      match r with
      | Ok 0 => Ret (inr (Err (IoError UnexpectedEof), (src, m)))
      | Ok n => dst ← slice_range dst n (s_len dst); Ret (inl (src, m, dst))
      | Err e =>
          if decide (io_kind e = Interrupted) then Ret (inl (src, m, dst))
          else Ret (inr (Err e, (src, m)))
      end) (src, m, dst).
Definition write_all {F} `{Write F} (dst : F) (buf : list byte) : outcome (result unit io_error * F) :=
  while_loop (λ '(dst, buf),
    match buf with
    | [] => Ret (inr (Ok tt, dst))
    | _ =>
        let '(r, dst) := io_write dst buf in
        match r with
        | Ok 0 => Ret (inr (Err (IoError WriteZero), dst))
        | Ok n =>
            if n <=? lenZ buf then Ret (inl (dst, drop (Z.to_nat n) buf)) else Panic
        | Err e =>
            if decide (io_kind e = Interrupted) then Ret (inl (dst, buf))
            else Ret (inr (Err e, dst))
        end
    end) (dst, buf).

Definition read_exact_from {F} `{Read F} m self (addr : Z) (src : F) (count : Z)
    : outcome (vresult unit * (F * mem)) :=
  match compute_end_offset self addr count with
  | Err e => Ret (Err e, (src, m))
  | Ok end_ =>
      dst ← slice_range (vs_as_mut_slice self) addr end_;
      '(r, s) ← read_exact m src dst;
      Ret (map_err VIOError r, s)
  end.

Definition write_all_to {F} `{Write F} m self (addr : Z) (dst : F) (count : Z)
    : outcome (vresult unit * F) :=
  match compute_end_offset self addr count with
  | Err e => Ret (Err e, dst)
  | Ok end_ =>
      src ← slice_range (vs_as_mut_slice self) addr end_;
      buf ← read_bytes m (s_ptr src) (s_len src);
      '(r, dst) ← write_all dst buf;
      Ret (map_err VIOError r, dst)
  end.

Definition store {T} `{AtomicAccess T} m self (val : T) (addr : Z) (order : Ordering)
    : outcome (vresult unit * mem) :=
  r ← get_atomic_ref (access_A T) self addr;
  match r with
  | Err e => Ret (Err e, m)
  | Ok a => m ← atomic_store (access_A T) m a (into_V val) order; Ret (Ok tt, m)
  end.

Definition load {T} `{AtomicAccess T} m self (addr : Z) (order : Ordering) : outcome (vresult T) :=
  r ← get_atomic_ref (access_A T) self addr;
  match r with
  | Err e => Ret (Err e)
  | Ok a => v ← atomic_load (access_A T) m a order; Ret (Ok (from_V v))
  end.
End bytes.
End VolatileBytes.

(** ** Theorems *)
Section theorems.
Context `{Target}.
Implicit Types (m : mem) (s : VolatileSlice) (buf : slice).

Definition vslice_ok m s : Prop := slice_ok m (vs_as_slice s).

Lemma vslice_sub_ok m s off cnt :
  vslice_ok m s → 0 ≤ off → 0 ≤ cnt → off + cnt ≤ vs_size s →
  vslice_ok m (VSlice (vs_addr s + off) cnt).
Proof.
  intros [Hp Hl He Hm] ???. simpl in *. constructor; simpl; try lia.
  apply (mapped_mono _ (vs_addr s) (vs_size s)); [done|lia..].
Qed.

Lemma compute_end_offset_spec s base off :
  compute_end_offset s base off =
    if 2 ^ usize_bits <=? base + off then Err (Overflow base off)
    else if vs_size s <? base + off then Err (OutOfBounds (base + off)) else Ok (base + off).
Proof.
  unfold compute_end_offset, compute_offset, uint_checked_add, vm_len, VolatileSlice_len.
  destruct (Z.ltb_spec (base + off) (2 ^ usize_bits)), (Z.leb_spec (2 ^ usize_bits) (base + off));
    (done || lia).
Qed.

(** The error for the [n] bytes at [off] when they are not in the slice. *)
Definition range_error (off n : Z) : VolatileError :=
  if 2 ^ usize_bits <=? off + n then Overflow off n else OutOfBounds (off + n).

Lemma compute_end_offset_err s base off :
  vs_size s < base + off → compute_end_offset s base off = Err (range_error base off).
Proof.
  intros. rewrite compute_end_offset_spec. unfold range_error.
  by rewrite (proj2 (Z.ltb_lt _ _)) by lia; destruct (_ <=? _).
Qed.

(** C26: a subslice taken with [get_slice] or [subslice] lies within the
    slice: both return the [count] bytes at [offset] when that range is
    within the slice, [Overflow] when [offset + count] does not fit a [usize]
    and [OutOfBounds] when it exceeds the length; neither ever panics. *)
Theorem get_slice_in_bounds m s off cnt :
  vslice_ok m s → 0 ≤ off → 0 ≤ cnt →
  get_slice s off cnt = subslice s off cnt ∧
  get_slice s off cnt = Ret (
    if 2 ^ usize_bits <=? off + cnt then Err (Overflow off cnt)
    else if vs_size s <? off + cnt then Err (OutOfBounds (off + cnt))
    else Ok (VSlice (vs_addr s + off) cnt)) ∧
  (off + cnt ≤ vs_size s → vslice_ok m (VSlice (vs_addr s + off) cnt)).
Proof.
  intros Hs Ho Hc. pose proof (slice_end _ _ Hs) as He. pose proof (slice_ptr_pos _ _ Hs) as Hp.
  simpl in He, Hp. split_and!.
  - unfold get_slice, VolatileSlice_VolatileMemory, vs_get_slice, subslice, compute_end_offset.
    destruct (compute_offset off cnt) as [e|]; [|done]. unfold vm_len, VolatileSlice_len.
    by destruct (vs_size s <? e).
  - unfold get_slice, VolatileSlice_VolatileMemory, vs_get_slice.
    rewrite compute_end_offset_spec.
    destruct (Z.leb_spec (2 ^ usize_bits) (off + cnt)); [done|].
    destruct (Z.ltb_spec (vs_size s) (off + cnt)); [done|].
    rewrite uadd_ok by (split; lia). done.
  - intros. by apply vslice_sub_ok.
Qed.

Lemma get_slice_ok m s off cnt :
  vslice_ok m s → 0 ≤ off → 0 ≤ cnt → off + cnt ≤ vs_size s →
  get_slice s off cnt = Ret (Ok (VSlice (vs_addr s + off) cnt)).
Proof.
  intros Hs ???. pose proof (slice_end _ _ Hs) as He. pose proof (slice_ptr_pos _ _ Hs) as Hp.
  simpl in He, Hp. unfold get_slice, VolatileSlice_VolatileMemory, vs_get_slice.
  rewrite compute_end_offset_spec, (proj2 (Z.leb_gt _ _)), (proj2 (Z.ltb_ge _ _)) by lia.
  rewrite uadd_ok by (split; lia). done.
Qed.

(** [split_at] divides a slice into two adjacent valid slices whose
    contents, one after the other, are the contents of the slice; beyond the
    end it is [OutOfBounds], or [Overflow] when the address does not fit a
    [usize], and never a panic. *)
Theorem split_at_partition m s mid bs :
  vslice_ok m s → 0 ≤ mid < 2 ^ usize_bits → contents m (vs_as_slice s) bs →
  if mid <=? vs_size s then
    let a := VSlice (vs_addr s) mid in
    let b := VSlice (vs_addr s + mid) (vs_size s - mid) in
    split_at s mid = Ret (Ok (a, b)) ∧ vslice_ok m a ∧ vslice_ok m b ∧
    contents m (vs_as_slice a) (take (Z.to_nat mid) bs) ∧
    contents m (vs_as_slice b) (drop (Z.to_nat mid) bs)
  else split_at s mid = Ret (Err (
    if 2 ^ usize_bits <=? vs_addr s + mid then Overflow (vs_addr s) mid
    else OutOfBounds (vs_addr s + mid))).
Proof.
  intros Hs Hmid Hbs. pose proof Hs as [Hp Hl He Hm]. simpl in *.
  unfold split_at, offset, uint_checked_add, uint_checked_sub.
  destruct (Z.leb_spec mid (vs_size s)) as [Hle|Hgt]; cycle 1.
  { rewrite Z.ltb_antisym. destruct (2 ^ usize_bits <=? vs_addr s + mid); done. }
  rewrite (proj2 (Z.ltb_lt _ _)) by lia. simpl.
  pose proof Hbs as Hlen. apply read_bytes_Ret in Hlen as [Hlen _]; [|done]. simpl in Hlen.
  split_and!; [done| | | |].
  - rewrite <-(Z.add_0_r (vs_addr s)) at 1. apply vslice_sub_ok; [done|lia..].
  - apply vslice_sub_ok; [done|lia..].
  - unfold contents. simpl. rewrite <-(Z.add_0_r (vs_addr s)).
    rewrite (read_bytes_sub _ _ (vs_size s) bs) by (done || lia). by rewrite drop_0.
  - unfold contents. simpl. rewrite (read_bytes_sub _ _ (vs_size s) bs) by (done || lia).
    rewrite take_ge; [done|]. rewrite length_drop. lia.
Qed.

Lemma contents_sub m s off cnt bs :
  vslice_ok m s → contents m (vs_as_slice s) bs → 0 ≤ off → 0 ≤ cnt → off + cnt ≤ vs_size s →
  contents m (Slice (vs_addr s + off) cnt) (take (Z.to_nat cnt) (drop (Z.to_nat off) bs)).
Proof.
  intros Hs Hbs ???. apply (read_bytes_sub _ _ (vs_size s)); try done. apply Hs.
Qed.

Lemma split_at_1_tail s addr :
  0 ≤ addr < vs_size s →
  VolatileBytes.split_at_1 (vs_as_slice s) addr = Ret (Slice (vs_addr s + addr) (vs_size s - addr)).
Proof.
  intros. unfold VolatileBytes.split_at_1, slice_range. simpl.
  by rewrite !(proj2 (Z.leb_le _ _)) by lia.
Qed.

(** [write] and [read] in terms of the memory. *)
Lemma write_spec m s buf bs addr :
  vslice_ok m s → slice_ok m buf → disjoint_slices (vs_as_slice s) buf → contents m buf bs →
  0 ≤ addr →
  VolatileBytes.write m s buf addr = Ret (
    if vs_size s <=? addr then (Err (OutOfBounds addr), m)
    else let n := Z.min (s_len buf) (vs_size s - addr) in
         (Ok n, store_list m (vs_addr s + addr) (take (Z.to_nat n) bs))).
Proof.
  intros Hs Hb Hd Hbs Ha. unfold VolatileBytes.write.
  destruct (Z.leb_spec (vs_size s) addr); [done|].
  change (vs_as_mut_slice s) with (vs_as_slice s). rewrite split_at_1_tail by lia. simpl.
  rewrite (copy_slice_spec m _ _ bs); [done| |done| |done].
  - apply (vslice_sub_ok m s addr (vs_size s - addr)); [done|lia..].
  - unfold disjoint_slices, disjoint_ranges in *. simpl in *. lia.
Qed.

Lemma read_spec m s buf bs addr :
  vslice_ok m s → slice_ok m buf → disjoint_slices (vs_as_slice s) buf →
  contents m (vs_as_slice s) bs → 0 ≤ addr →
  VolatileBytes.read m s buf addr = Ret (
    if vs_size s <=? addr then (Err (OutOfBounds addr), m)
    else let n := Z.min (s_len buf) (vs_size s - addr) in
         (Ok n, store_list m (s_ptr buf) (take (Z.to_nat n) (drop (Z.to_nat addr) bs)))).
Proof.
  intros Hs Hb Hd Hbs Ha. unfold VolatileBytes.read.
  destruct (Z.leb_spec (vs_size s) addr); [done|].
  rewrite split_at_1_tail by lia. simpl.
  pose proof (contents_length _ _ _ Hs Hbs) as Hl. simpl in Hl.
  assert (contents m (Slice (vs_addr s + addr) (vs_size s - addr)) (drop (Z.to_nat addr) bs)) as Hc.
  { rewrite <-(take_ge (drop (Z.to_nat addr) bs) (Z.to_nat (vs_size s - addr))).
    - apply contents_sub; [done..|lia|lia].
    - rewrite length_drop. lia. }
  rewrite (copy_slice_spec m _ _ (drop (Z.to_nat addr) bs)); [|done| | |done].
  - simpl. by rewrite (Z.min_comm (vs_size s - addr)).
  - apply (vslice_sub_ok m s addr (vs_size s - addr)); [done|lia..].
  - unfold disjoint_slices, disjoint_ranges in *. simpl in *. lia.
Qed.

(** C24: [VolatileSlice::write] at an address within the slice stores the
    longest prefix of the buffer that fits and returns its length, leaving
    every other byte of the slice and of memory as it was; at an address
    outside the slice it fails without touching memory. *)
Theorem write_stores_prefix m s buf bs old addr :
  vslice_ok m s → slice_ok m buf → disjoint_slices (vs_as_slice s) buf →
  contents m buf bs → contents m (vs_as_slice s) old → 0 ≤ addr →
  if vs_size s <=? addr then VolatileBytes.write m s buf addr = Ret (Err (OutOfBounds addr), m)
  else let n := Z.min (s_len buf) (vs_size s - addr) in
    ∃ m', VolatileBytes.write m s buf addr = Ret (Ok n, m') ∧
      contents m' (vs_as_slice s) (list_inserts (Z.to_nat addr) (take (Z.to_nat n) bs) old) ∧
      ∀ x, ¬ vs_addr s + addr ≤ x < vs_addr s + addr + n → m' !! x = m !! x.
Proof.
  intros Hs Hb Hd Hbs Hold Ha. rewrite (write_spec m s buf bs addr) by done.
  pose proof (contents_length _ _ _ Hb Hbs). pose proof (slice_len_nonneg _ _ Hb).
  destruct (Z.leb_spec (vs_size s) addr); [done|].
  intros n. assert (lenZ (take (Z.to_nat n) bs) = n) as Hn by (rewrite length_take; lia).
  subst n. eexists. split_and!; [done| |].
  - by apply (contents_store m (vs_as_slice s) addr); [..|rewrite Hn; simpl; lia].
  - intros x Hx. rewrite lookup_store_list, decide_False by lia. done.
Qed.

(** C25: [VolatileSlice::read] fills the buffer with the bytes of the slice
    from [addr] on, as many as both hold, and returns how many; the rest of
    the buffer and all other memory keep their contents. *)
Theorem read_returns_contents m s buf bs old addr :
  vslice_ok m s → slice_ok m buf → disjoint_slices (vs_as_slice s) buf →
  contents m (vs_as_slice s) bs → contents m buf old → 0 ≤ addr →
  if vs_size s <=? addr then VolatileBytes.read m s buf addr = Ret (Err (OutOfBounds addr), m)
  else let n := Z.min (s_len buf) (vs_size s - addr) in
    ∃ m', VolatileBytes.read m s buf addr = Ret (Ok n, m') ∧
      contents m' buf (list_inserts 0 (take (Z.to_nat n) (drop (Z.to_nat addr) bs)) old) ∧
      ∀ x, ¬ s_ptr buf ≤ x < s_ptr buf + n → m' !! x = m !! x.
Proof.
  intros Hs Hb Hd Hbs Hold Ha. rewrite (read_spec m s buf bs addr) by done.
  pose proof (contents_length _ _ _ Hs Hbs) as Hl. simpl in Hl. pose proof (slice_len_nonneg _ _ Hb).
  destruct (Z.leb_spec (vs_size s) addr); [done|].
  intros n. assert (lenZ (take (Z.to_nat n) (drop (Z.to_nat addr) bs)) = n) as Hn
    by (rewrite length_take, length_drop; lia).
  subst n. eexists. split_and!; [done| |].
  - rewrite <-(Z.add_0_r (s_ptr buf)). apply contents_store; [done..|lia].
  - intros x Hx. rewrite lookup_store_list, decide_False by lia. done.
Qed.

(** round trip. What [write_slice] stored, [read_slice] at the same
    address reads back into another buffer of the same length; a buffer that
    does not fit is reported as [PartialBuffer] with the number of bytes that
    were stored. *)
Theorem write_read_slice_roundtrip m s src dst bs addr :
  vslice_ok m s → slice_ok m src → slice_ok m dst →
  disjoint_slices (vs_as_slice s) src → disjoint_slices (vs_as_slice s) dst →
  contents m src bs → s_len dst = s_len src → 0 ≤ addr < vs_size s →
  if addr + s_len src <=? vs_size s then
    ∃ m' m'', VolatileBytes.write_slice m s src addr = Ret (Ok tt, m') ∧
      VolatileBytes.read_slice m' s dst addr = Ret (Ok tt, m'') ∧ contents m'' dst bs
  else ∃ m',
    VolatileBytes.write_slice m s src addr
      = Ret (Err (VPartialBuffer (s_len src) (vs_size s - addr)), m').
Proof.
  intros Hs Hsrc Hdst Hd1 Hd2 Hbs Hlen Ha.
  pose proof (slice_len_nonneg _ _ Hsrc). pose proof (contents_length _ _ _ Hsrc Hbs) as Hl.
  unfold VolatileBytes.write_slice, VolatileBytes.read_slice.
  rewrite (write_spec m s src bs addr), (proj2 (Z.leb_gt (vs_size s) addr)) by (done || lia). simpl.
  destruct (Z.leb_spec (addr + s_len src) (vs_size s)); cycle 1.
  { rewrite Z.min_r, (proj2 (Z.eqb_neq _ _)) by lia. eauto. }
  rewrite Z.min_l, Z.eqb_refl, take_ge by lia. simpl.
  set (m' := store_list m (vs_addr s + addr) bs).
  assert (vslice_ok m' s) as Hs' by (destruct Hs; constructor; [done..|by apply mapped_store_list]).
  assert (slice_ok m' dst) as Hdst' by (destruct Hdst; constructor; [done..|by apply mapped_store_list]).
  destruct (read_bytes_mapped m (vs_addr s) (vs_size s)) as (old & Hold & Hlo); [lia|apply Hs|].
  destruct (read_bytes_mapped m' (s_ptr dst) (s_len dst)) as (old' & Hold' & Hlo'); [lia|apply Hdst'|].
  assert (contents m' (vs_as_slice s) (list_inserts (Z.to_nat addr) bs old)) as Hc
    by (apply (contents_store m (vs_as_slice s) addr); [done..|lia|simpl; lia]).
  exists m'. eexists. split; [done|].
  rewrite (read_spec m' s dst _ addr Hs' Hdst' Hd2 Hc), (proj2 (Z.leb_gt _ _)) by lia. simpl.
  rewrite Hlen, Z.min_l, Z.eqb_refl by lia. simpl. split; [done|].
  assert (take (Z.to_nat (s_len src)) (drop (Z.to_nat addr) (list_inserts (Z.to_nat addr) bs old)) = bs) as ->.
  { apply list_eq. intros i. destruct (decide (i < length bs)%nat).
    - rewrite lookup_take_lt, lookup_drop, list_lookup_inserts by lia. f_equal. lia.
    - rewrite !lookup_ge_None_2; [done|lia|]. rewrite length_take, length_drop, length_inserts. lia. }
  unfold contents. apply read_bytes_Ret; [lia|]. split; [lia|].
  intros i Hi. rewrite lookup_store_list, decide_True by lia. f_equal. lia.
Qed.
End theorems.

(** ** Typed accesses *)
Section typed.
Context `{ByteValuedSpec T}.
Implicit Types (m : mem) (s : VolatileSlice) (a : VolatileArrayRef T) (v : T).

(** The array is valid memory, and its size fits an [isize] as
    [get_array_ref] checks. *)
Record array_ok m a : Prop := {
  array_nelem : 0 ≤ va_nelem a;
  array_size : va_nelem a * size_of T ≤ isize_max;
  array_slice : vslice_ok m (VSlice (va_addr a) (va_nelem a * size_of T))
}.

Lemma isize_usize z : 0 ≤ z ≤ isize_max → in_bits usize_bits z.
Proof.
  unfold isize_max, in_bits. intros. split; [lia|].
  assert (2 ^ (usize_bits - 1) ≤ 2 ^ usize_bits); [|lia].
  apply Z.pow_le_mono_r; lia.
Qed.

(** Reading and writing a value through the packed pointer. *)
Lemma vr_load_eq m (r : VolatileRef T) : vr_load m r =
  (bs ← read_bytes m (vr_addr r) (size_of T); Ret (from_bytes bs)).
Proof. unfold vr_load. by rewrite read_volatile_aligned by apply Z.mod_1_r. Qed.
Lemma vr_store_eq m (r : VolatileRef T) v :
  mapped m (vr_addr r) (size_of T) → vr_store m r v = Ret (store_list m (vr_addr r) (as_slice v)).
Proof.
  intros. unfold vr_store. rewrite write_volatile_aligned by apply Z.mod_1_r.
  apply write_bytes_mapped. by rewrite length_as_slice.
Qed.

Lemma ref_at_ok m a i :
  array_ok m a → 0 ≤ i < va_nelem a → ref_at a i = Ret (VRef (va_addr a + i * size_of T)).
Proof.
  intros [Hn Hsz Hs] Hi. pose proof size_of_range as [Hsz0 _].
  pose proof (slice_end _ _ Hs) as He. pose proof (slice_ptr_pos _ _ Hs) as Hp. simpl in He, Hp.
  assert (0 ≤ i * size_of T ≤ va_nelem a * size_of T) by nia.
  unfold ref_at. rewrite (proj2 (Z.ltb_lt _ _)) by lia. simpl. unfold element_size.
  rewrite Z.mul_comm, umul_ok by (apply isize_usize; lia). simpl.
  rewrite (proj2 (Z.leb_le _ _)), ptr_add_ok by lia. done.
Qed.

(** elements of a [VolatileArrayRef]: an index in range stores and loads
    its own element and no other, without undefined behaviour; an index out
    of range panics. *)
Theorem array_store_load m a i j v :
  array_ok m a → 0 ≤ i → 0 ≤ j < va_nelem a →
  if i <? va_nelem a then
    ∃ m', va_store m a i v = Ret m' ∧ array_ok m' a ∧
      va_load m' a j = (if i =? j then Ret v else va_load m a j)
  else va_store m a i v = Panic ∧ va_load m a i = Panic.
Proof.
  intros Ha Hi Hj. pose proof size_of_range as [Hsz0 _].
  destruct (Z.ltb_spec i (va_nelem a)); cycle 1.
  { unfold va_store, va_load, ref_at. by rewrite (proj2 (Z.ltb_ge _ _)). }
  pose proof (slice_mapped _ _ (array_slice _ _ Ha)) as Hm. simpl in Hm.
  unfold va_store, va_load. rewrite !(ref_at_ok m) by (done || lia). simpl.
  rewrite vr_store_eq by (simpl; apply (mapped_mono _ _ _ _ _ Hm); nia). simpl.
  eexists. split; [done|]. split.
  { destruct Ha as [? ? [????]]. constructor; [done..|]. constructor; [done..|].
    by apply mapped_store_list. }
  rewrite !vr_load_eq. simpl. destruct (Z.eqb_spec i j) as [->|].
  - rewrite <-(length_as_slice v), read_back. simpl. by rewrite from_as_slice.
  - rewrite read_bytes_store_disjoint; [done|]. rewrite length_as_slice.
    unfold disjoint_ranges. assert (i < j ∨ j < i) as [?|?] by lia; nia.
Qed.

Lemma get_array_ref_ok m s off n :
  vslice_ok m s → 0 ≤ off → 0 ≤ n ≤ isize_max → n * size_of T ≤ isize_max →
  off + n * size_of T ≤ vs_size s →
  get_array_ref T s off n = Ret (Ok (VArrayRef (vs_addr s + off) n)) ∧
  array_ok m (VArrayRef (vs_addr s + off) n).
Proof.
  intros Hs Ho Hn Hsz Hle. pose proof size_of_range as [Hsz0 _].
  unfold get_array_ref, isize_try_from, isize_checked_mul.
  rewrite (proj2 (Z.leb_le _ _)) by lia. simpl. rewrite (proj2 (Z.leb_le _ _)) by lia.
  rewrite (get_slice_ok m) by (done || nia). split; [done|].
  constructor; [simpl; lia..|]. apply vslice_sub_ok; [done|lia|simpl; nia|done].
Qed.

(** [get_array_ref] on a valid slice returns exactly the arrays whose
    element count and size in bytes fit an [isize] and which lie within the
    slice; a count or size that does not fit is [TooBig], and it never
    panics. *)
Theorem get_array_ref_in_bounds m s off n :
  vslice_ok m s → 0 ≤ off → 0 ≤ n →
  if (isize_max <? n) || (isize_max <? n * size_of T) then
    get_array_ref T s off n = Ret (Err (TooBig n (size_of T)))
  else if off + n * size_of T <=? vs_size s then
    let a := VArrayRef (vs_addr s + off) n in
    get_array_ref T s off n = Ret (Ok a) ∧ array_ok m a
  else ∃ e, get_array_ref T s off n = Ret (Err e).
Proof.
  intros Hs Ho Hn. pose proof size_of_range as [Hsz0 _].
  destruct (Z.ltb_spec isize_max n), (Z.ltb_spec isize_max (n * size_of T)); simpl;
    [unfold get_array_ref, isize_try_from, isize_checked_mul..|].
  - by rewrite (proj2 (Z.leb_gt _ _)) by lia.
  - by rewrite (proj2 (Z.leb_gt _ _)) by lia.
  - rewrite (proj2 (Z.leb_le _ _)) by lia. simpl. by rewrite (proj2 (Z.leb_gt _ _)) by lia.
  - destruct (Z.leb_spec (off + n * size_of T) (vs_size s)); [by apply get_array_ref_ok|].
    unfold get_array_ref, isize_try_from, isize_checked_mul.
    rewrite (proj2 (Z.leb_le _ _)) by lia. simpl. rewrite (proj2 (Z.leb_le _ _)) by lia.
    unfold get_slice, VolatileSlice_VolatileMemory, vs_get_slice.
    rewrite compute_end_offset_spec.
    destruct (2 ^ usize_bits <=? off + n * size_of T); [by eexists|].
    rewrite (proj2 (Z.ltb_lt _ _)) by lia. by eexists.
Qed.

(** The element-wise loops are [memcpy]. *)
Lemma copy_to_loop_spec m addr buf n bs :
  read_bytes m addr (Z.of_nat n * size_of T) = Ret bs →
  mapped m buf (Z.of_nat n * size_of T) →
  disjoint_ranges buf (Z.of_nat n * size_of T) addr (Z.of_nat n * size_of T) →
  addr + Z.of_nat n * size_of T < 2 ^ usize_bits →
  copy_to_loop (T := T) m addr buf n = Ret (store_list m buf bs).
Proof.
  pose proof size_of_range as [Hsz0 _]. set (sz := size_of T) in *.
  revert m addr buf bs. induction n as [|n IH]; intros m addr buf bs Hr Hm Hd Hlt.
  { apply read_bytes_Ret in Hr as [Hl _]; [|lia]. by destruct bs. }
  assert (Z.of_nat (S n) * sz = sz + Z.of_nat n * sz) as E by lia.
  assert (0 ≤ Z.of_nat n * sz) by nia. rewrite E in *. clear E.
  simpl. rewrite read_volatile_aligned by apply Z.mod_1_r. fold sz.
  pose proof (read_bytes_sub m addr (sz + Z.of_nat n * sz) bs 0 sz ltac:(lia) Hr) as H0'.
  pose proof (read_bytes_sub m addr (sz + Z.of_nat n * sz) bs sz (Z.of_nat n * sz) ltac:(lia) Hr) as H1'.
  rewrite Z.add_0_r, drop_0 in H0'. rewrite H0' by lia. simpl.
  apply read_bytes_Ret in Hr as [Hl _]; [|lia].
  assert (lenZ (take (Z.to_nat sz) bs) = sz) as Hlt' by (rewrite length_take; lia).
  rewrite as_slice_from, write_bytes_mapped by (done || rewrite Hlt'; by apply (mapped_mono _ _ _ _ _ Hm); lia).
  simpl. rewrite ptr_add_ok by lia. simpl.
  rewrite (IH _ _ _ (drop (Z.to_nat sz) bs)).
  - rewrite <-(take_drop (Z.to_nat sz) bs) at 3. by rewrite store_list_app, Hlt'.
  - rewrite read_bytes_store_disjoint by (rewrite Hlt'; unfold disjoint_ranges in *; lia).
    rewrite H1' by lia. f_equal. apply take_ge. rewrite length_drop. lia.
  - apply mapped_store_list, (mapped_mono _ _ _ _ _ Hm); lia.
  - unfold disjoint_ranges in *. lia.
  - lia.
Qed.

Lemma copy_from_loop_spec m addr buf n bs :
  read_bytes m buf (Z.of_nat n * size_of T) = Ret bs →
  mapped m addr (Z.of_nat n * size_of T) →
  disjoint_ranges addr (Z.of_nat n * size_of T) buf (Z.of_nat n * size_of T) →
  addr + Z.of_nat n * size_of T < 2 ^ usize_bits →
  copy_from_loop (T := T) m addr buf n = Ret (store_list m addr bs).
Proof.
  pose proof size_of_range as [Hsz0 _]. set (sz := size_of T) in *.
  revert m addr buf bs. induction n as [|n IH]; intros m addr buf bs Hr Hm Hd Hlt.
  { apply read_bytes_Ret in Hr as [Hl _]; [|lia]. by destruct bs. }
  assert (Z.of_nat (S n) * sz = sz + Z.of_nat n * sz) as E by lia.
  assert (0 ≤ Z.of_nat n * sz) by nia. rewrite E in *. clear E. simpl. fold sz.
  pose proof (read_bytes_sub m buf (sz + Z.of_nat n * sz) bs 0 sz ltac:(lia) Hr) as H0'.
  pose proof (read_bytes_sub m buf (sz + Z.of_nat n * sz) bs sz (Z.of_nat n * sz) ltac:(lia) Hr) as H1'.
  rewrite Z.add_0_r, drop_0 in H0'. rewrite H0' by lia. simpl.
  apply read_bytes_Ret in Hr as [Hl _]; [|lia].
  assert (lenZ (take (Z.to_nat sz) bs) = sz) as Hlt' by (rewrite length_take; lia).
  rewrite as_slice_from, write_volatile_aligned by (done || apply Z.mod_1_r).
  rewrite write_bytes_mapped by (rewrite Hlt'; apply (mapped_mono _ _ _ _ _ Hm); lia).
  simpl. rewrite ptr_add_ok by lia. simpl.
  rewrite (IH _ _ _ (drop (Z.to_nat sz) bs)).
  - rewrite <-(take_drop (Z.to_nat sz) bs) at 3. by rewrite store_list_app, Hlt'.
  - rewrite read_bytes_store_disjoint by (rewrite Hlt'; unfold disjoint_ranges in *; lia).
    rewrite H1' by lia. f_equal. apply take_ge. rewrite length_drop. lia.
  - apply mapped_store_list, (mapped_mono _ _ _ _ _ Hm); lia.
  - unfold disjoint_ranges in *. lia.
  - lia.
Qed.

(** A buffer [&[T]] or [&mut [T]], as bytes. *)
Definition elements (buf : slice) : slice := Slice (s_ptr buf) (s_len buf * size_of T).

Lemma elements_one buf : size_of T = 1 → elements buf = Slice (s_ptr buf) (s_len buf).
Proof. intros E. unfold elements. by rewrite E, Z.mul_1_r. Qed.

Lemma read_bytes_prefix m x n bs k :
  read_bytes m x n = Ret bs → 0 ≤ k ≤ n → read_bytes m x k = Ret (take (Z.to_nat k) bs).
Proof.
  intros Hr Hk. rewrite <-(Z.add_0_r x).
  rewrite (read_bytes_sub m x n bs 0 k) by (done || lia). by rewrite drop_0.
Qed.

(** C28: [VolatileSlice::copy_to] and [copy_from] with elements of any size but
    zero copy [min(self.len() / size_of::<T>(), buf.len())] whole elements,
    in the order of memory, and nothing else. *)
Theorem vs_copy_elements m s buf bs old :
  size_of T ≠ 0 → vslice_ok m s → slice_ok m (elements buf) → vs_size s ≤ isize_max →
  disjoint_slices (vs_as_slice s) (elements buf) →
  contents m (vs_as_slice s) bs → contents m (elements buf) old →
  let n := Z.min (vs_size s / size_of T) (s_len buf) in
  let nbytes := Z.to_nat (n * size_of T) in
  vs_copy_to T m s buf = Ret (n, store_list m (s_ptr buf) (take nbytes bs)) ∧
  vs_copy_from T m s buf = Ret (store_list m (vs_addr s) (take nbytes old)).
Proof.
  intros Hz Hs Hb Hmax Hd Hbs Hold n nbytes. pose proof size_of_range as [Hsz0 _].
  pose proof Hs as [Hsp Hsl Hse Hsm]. pose proof Hb as [Hbp Hbl Hbe Hbm]. simpl in *.
  assert (0 ≤ s_len buf) by nia.
  assert (vs_size s / size_of T * size_of T ≤ vs_size s) as Hdiv
    by (pose proof (Z.mul_div_le (vs_size s) (size_of T)); lia).
  assert (0 ≤ vs_size s / size_of T) by (apply Z.div_pos; lia).
  unfold vs_copy_to, vs_copy_from. destruct (Z.eqb_spec (size_of T) 1) as [E1|E1].
  - rewrite (elements_one buf E1) in *. subst nbytes n. rewrite E1, Z.div_1_r, Z.mul_1_r.
    assert (disjoint_slices (Slice (s_ptr buf) (s_len buf)) (vs_as_slice s))
      by (unfold disjoint_slices, disjoint_ranges in *; simpl in *; lia).
    change (vs_as_mut_slice s) with (vs_as_slice s).
    rewrite (copy_slice_spec m _ (vs_as_slice s) bs) by done.
    rewrite (copy_slice_spec m (vs_as_slice s) _ old) by done.
    simpl. by rewrite (Z.min_comm (s_len buf)).
  - unfold udiv. rewrite (proj2 (Z.eqb_neq _ _)) by done. simpl.
    destruct (get_array_ref_ok m s 0 (vs_size s / size_of T)) as [-> _]; [done|lia|nia|nia|lia|].
    simpl. rewrite Z.add_0_r. unfold va_copy_to, va_copy_from, va_len. simpl.
    rewrite (proj2 (Z.eqb_neq (size_of T) 1)) by done.
    assert (0 ≤ n * size_of T ≤ vs_size s) by (subst n; nia).
    assert (n * size_of T ≤ s_len buf * size_of T) by (subst n; nia).
    assert (Z.of_nat (Z.to_nat n) = n) as En by lia.
    unfold disjoint_slices, disjoint_ranges, contents in *. simpl in *.
    rewrite (copy_to_loop_spec m _ _ _ (take nbytes bs)), (copy_from_loop_spec m _ _ _ (take nbytes old)).
    all: fold n; rewrite ?En.
    + done.
    + apply (read_bytes_prefix _ _ (s_len buf * size_of T)); [done|lia].
    + apply (mapped_mono _ _ _ _ _ Hsm); lia.
    + unfold disjoint_ranges. lia.
    + lia.
    + apply (read_bytes_prefix _ _ (vs_size s)); [done|lia].
    + apply (mapped_mono _ _ _ _ _ Hbm); lia.
    + unfold disjoint_ranges. lia.
    + lia.
Qed.

(** With elements of size zero, which [ByteValued] admits ([[u8; 0]] is
    one), [copy_to] and [copy_from] divide by zero and panic. *)
Theorem vs_copy_zero_sized_panics m s buf :
  size_of T = 0 → vs_copy_to T m s buf = Panic ∧ vs_copy_from T m s buf = Panic.
Proof. intros E. unfold vs_copy_to, vs_copy_from, udiv. by rewrite E. Qed.
End typed.

(** ** Atomic accesses *)
Section atomic.
Context `{ByteValuedSpec T} `{!AtomicAccess T} `{!AtomicAccessSpec T}.
Implicit Types (m : mem) (s : VolatileSlice) (v : T).

Lemma check_alignment_spec s k :
  0 ≤ k → 2 ^ k < 2 ^ usize_bits →
  check_alignment s (2 ^ k) = Ret (
    if vs_addr s `mod` 2 ^ k =? 0 then Ok tt else Err (Misaligned (vs_addr s) (2 ^ k))).
Proof.
  intros Hk Hlt. assert (0 < 2 ^ k) by (by apply pow2_pos).
  unfold check_alignment. rewrite usub_ok by (split; lia). simpl.
  rewrite !land_low_mask, Z_mod_same_full by done.
  destruct debug_assertions, (_ =? 0); done.
Qed.

(** atomic [store] and [load]: at an aligned address within the slice a
    store followed by a load returns the stored value, and an ordering that the
    access cannot have panics; an address that is not aligned for the atomic type
    is [Misaligned], one whose value does not fit the slice is [OutOfBounds] or
    [Overflow], and then memory is unchanged, whatever the ordering. *)
Theorem atomic_store_load m s v addr os ol :
  vslice_ok m s → 0 ≤ addr → atomic_align (access_A T) < 2 ^ usize_bits →
  if vs_size s <? addr + size_of T then
    let e := range_error addr (size_of T) in
    VolatileBytes.store m s v addr os = Ret (Err e, m) ∧
    VolatileBytes.load (T := T) m s addr ol = Ret (Err e)
  else if negb ((vs_addr s + addr) `mod` atomic_align (access_A T) =? 0) then
    let e := Misaligned (vs_addr s + addr) (atomic_align (access_A T)) in
    VolatileBytes.store m s v addr os = Ret (Err e, m) ∧
    VolatileBytes.load (T := T) m s addr ol = Ret (Err e)
  else if store_order os then
    ∃ m', VolatileBytes.store m s v addr os = Ret (Ok tt, m') ∧ vslice_ok m' s ∧
          VolatileBytes.load (T := T) m' s addr ol = if load_order ol then Ret (Ok v) else Panic
  else VolatileBytes.store m s v addr os = Panic.
Proof.
  intros Hs Ha Hal. pose proof size_of_range as [Hsz0 _].
  pose proof Hs as [Hsp Hsl Hse Hsm]. simpl in *.
  destruct (atomic_align_pow2 (A := access_A T)) as (k & Hk & Ek).
  unfold VolatileBytes.store, VolatileBytes.load, get_atomic_ref. rewrite A_size_eq.
  destruct (Z.ltb_spec (vs_size s) (addr + size_of T)).
  { unfold get_slice, VolatileSlice_VolatileMemory, vs_get_slice.
    by rewrite compute_end_offset_err by lia. }
  rewrite (get_slice_ok m) by (done || lia). simpl. rewrite Ek in *.
  rewrite (check_alignment_spec _ k) by done. simpl.
  destruct (Z.eqb_spec ((vs_addr s + addr) `mod` 2 ^ k) 0) as [Hmod|]; simpl; [|done].
  destruct (store_order os) eqn:Hos; [|by rewrite atomic_store_spec, Hos by (by rewrite Ek)].
  assert (mapped m (vs_addr s + addr) (atomic_size (access_A T))) as Hm
    by (rewrite A_size_eq; apply (mapped_mono _ _ _ _ _ Hsm); lia).
  destruct (atomic_store_then_load m (vs_addr s + addr) (into_V v) os Relaxed)
    as (m' & -> & Hm' & Hl); [by rewrite Ek|done..|].
  simpl. exists m'. split; [done|]. split; [destruct Hs; constructor; auto|].
  destruct (load_order ol) eqn:Hol; [|by rewrite atomic_load_spec, Hol by (by rewrite Ek)].
  rewrite atomic_load_spec in Hl |- * by (by rewrite Ek). rewrite Hol. simpl in *. rewrite Hl. simpl.
  by rewrite from_into_V.
Qed.
End atomic.

(** ** Streams *)
Section retry.
Context {S E : Type} (io : io_error → E) (call : S → outcome (result Z io_error * S)).
Context (Inv : S → Prop) (pending : S → Z) (Q : result Z E → S → Prop).
Context (Hpos : ∀ s, Inv s → 0 ≤ pending s).
Context (Hcall : ∀ s, Inv s → wp (call s) (λ '(r, s'),
  match r with
  | Ok n => Q (Ok n) s'
  | Err e => if decide (io_kind e = Interrupted) then Inv s' ∧ pending s' < pending s
             else Q (Err (io e)) s'
  end)).

(** A call that is interrupted finitely often is retried until it is not. *)
Lemma retry_wp s :
  Inv s → pending s < 2 ^ 64 → wp (VolatileBytes.retry io call s) (λ '(r, s'), Q r s').
Proof.
  intros Hs Hlt. apply (while_loop_wp _ Inv pending); [done| |done|done].
  clear s Hs Hlt. intros s Hs. apply wp_bind. eapply wp_mono; [by apply Hcall|].
  intros [[n|e] s']; simpl; [done|]. by case_decide.
Qed.
End retry.

Section readers.
Context `{Target} `{ReadSpec F}.
Implicit Types (m : mem) (s : VolatileSlice) (src : F).

Lemma store_list_inserts m a old xs :
  read_bytes m a (lenZ old) = Ret old → (length xs ≤ length old)%nat →
  store_list m a (list_inserts 0 xs old) = store_list m a xs.
Proof.
  intros Hr Hle. apply read_bytes_Ret in Hr as [_ Hx]; [|lia].
  apply map_eq. intros x. rewrite !lookup_store_list, length_inserts.
  repeat case_decide; try done; try lia.
  - rewrite list_lookup_inserts by lia. f_equal. lia.
  - rewrite list_lookup_inserts_ge by lia. rewrite <-Hx by lia. f_equal. lia.
Qed.

(** [src.read(dst)]: on success the next bytes of the stream are in [dst]. *)
Lemma read_into_wp m src dst :
  0 ≤ s_len dst → mapped m (s_ptr dst) (s_len dst) →
  wp (VolatileBytes.read_into m src dst) (λ '(r, src', m'),
    match r with
    | Ok n => 0 ≤ n ≤ s_len dst ∧ n ≤ lenZ (stream src) ∧
        m' = store_list m (s_ptr dst) (take (Z.to_nat n) (stream src)) ∧
        stream src' = drop (Z.to_nat n) (stream src) ∧ read_pending src' ≤ read_pending src ∧
        (n = 0 → s_len dst = 0 ∨ stream src = [])
    | Err e => m' = m ∧ stream src' = stream src ∧
        (io_kind e = Interrupted → read_pending src' < read_pending src) ∧
        (io_kind e ≠ Interrupted → reader_failed e src')
    end).
Proof.
  intros Hn Hm. destruct (read_bytes_mapped m (s_ptr dst) (s_len dst)) as (old & Hr & Hl); [done..|].
  unfold VolatileBytes.read_into. rewrite Hr. simpl.
  destruct (io_read src old) as [[r buf'] src'] eqn:E. destruct r as [n|e].
  - pose proof (io_read_ok _ _ _ _ _ E) as (Hn' & Hs & -> & Hst & Hp).
    rewrite write_bytes_mapped by (rewrite length_inserts, Hl; done). simpl. split_and!; try done; try lia.
    + apply store_list_inserts; [by rewrite Hl|]. rewrite length_take. lia.
    + intros ->. destruct old as [|b old]; [left; simpl in Hl; lia|right]. by eapply io_read_eof.
  - pose proof (io_read_err _ _ _ _ _ E) as (-> & Hst & Hp).
    rewrite write_bytes_mapped by (rewrite Hl; done). simpl.
    split_and!; try done; [|by unfold reader_failed; eauto 10].
    change old with (list_inserts 0 [] old). rewrite store_list_inserts; [done|by rewrite Hl|simpl; lia].
Qed.

Lemma range_slice s addr count :
  0 ≤ addr → 0 ≤ count → addr + count ≤ vs_size s →
  slice_range (vs_as_mut_slice s) addr (addr + count) = Ret (Slice (vs_addr s + addr) count).
Proof.
  intros. unfold slice_range. simpl. rewrite !(proj2 (Z.leb_le _ _)) by lia. simpl.
  do 2 f_equal. lia.
Qed.

(** The range check shared by the four stream operations. *)
Lemma end_offset_cases m s addr count :
  vslice_ok m s → 0 ≤ addr → 0 ≤ count →
  (vs_size s < addr + count ∧ compute_end_offset s addr count = Err (range_error addr count)) ∨
  (addr + count ≤ vs_size s ∧ compute_end_offset s addr count = Ok (addr + count) ∧
   mapped m (vs_addr s + addr) count).
Proof.
  intros [Hp Hl He Hm] Ha Hc. simpl in *.
  destruct (Z.ltb_spec (vs_size s) (addr + count)) as [|Hle]; [left|right]; split; try done.
  - by apply compute_end_offset_err.
  - rewrite compute_end_offset_spec, (proj2 (Z.leb_gt _ _)), (proj2 (Z.ltb_ge _ _)) by lia.
    split; [done|]. apply (mapped_mono _ _ _ _ _ Hm); lia.
Qed.

(** [read_from] on a valid slice with a reader that is interrupted
    finitely often returns: it stores the next [n <= count] bytes of the
    stream at [addr] and nothing else, none only when none were asked for or
    the stream has ended, or reports the error with which the reader failed
    and leaves memory unchanged; a range outside the slice is [OutOfBounds] or
    [Overflow] before anything is read. *)
Theorem read_from_stream m s addr src count :
  vslice_ok m s → 0 ≤ addr → 0 ≤ count → read_pending src < 2 ^ 64 →
  if vs_size s <? addr + count then
    VolatileBytes.read_from m s addr src count = Ret (Err (range_error addr count), (src, m))
  else ∃ r src' m', VolatileBytes.read_from m s addr src count = Ret (r, (src', m')) ∧
    match r with
    | Ok n => 0 ≤ n ≤ count ∧ n ≤ lenZ (stream src) ∧
        m' = store_list m (vs_addr s + addr) (take (Z.to_nat n) (stream src)) ∧
        stream src' = drop (Z.to_nat n) (stream src) ∧ (n = 0 → count = 0 ∨ stream src = [])
    | Err e => ∃ io, e = VIOError io ∧ reader_failed io src' ∧ m' = m ∧ stream src' = stream src
    end.
Proof.
  intros Hs Ha Hc Hp. unfold VolatileBytes.read_from.
  destruct (end_offset_cases m s addr count) as [(Hlt & ->)|(Hle & -> & Hm)]; [done..| |].
  { by rewrite (proj2 (Z.ltb_lt _ _)) by lia. }
  rewrite (proj2 (Z.ltb_ge _ _)), range_slice by lia. simpl.
  match goal with |- ∃ r src' m', ?o = _ ∧ _ => enough (wp o (λ '(r, (src', m')),
    match r with
    | Ok n => 0 ≤ n ≤ count ∧ n ≤ lenZ (stream src) ∧
        m' = store_list m (vs_addr s + addr) (take (Z.to_nat n) (stream src)) ∧
        stream src' = drop (Z.to_nat n) (stream src) ∧ (n = 0 → count = 0 ∨ stream src = [])
    | Err e => ∃ io, e = VIOError io ∧ reader_failed io src' ∧ m' = m ∧ stream src' = stream src
    end)) as Hwp end.
  { apply wp_inv in Hwp as ([r [src' m']] & -> & Hq). eauto. }
  apply (retry_wp _ _ (λ '(src', m'), m' = m ∧ stream src' = stream src) (λ '(src', _), read_pending src')
    (λ r '(src', m'), _)); [by intros [??] _; apply read_pending_nonneg| |done|done].
  intros [src1 m1] [-> Hst]. apply wp_bind. eapply wp_mono; [by apply read_into_wp|].
  intros [[[n|e] src'] m'].
  - intros (? & ? & -> & ? & ? & ?). simpl in *. rewrite Hst in *. done.
  - intros (-> & Hst' & Hpend & Hf). simpl. rewrite Hst in Hst'. case_decide; [auto|].
    exists e. auto.
Qed.

(** [read_exact] stores a prefix of the stream, as long as [dst] on success. *)
Definition transferred m (a : Z) src k src' m' : Prop :=
  0 ≤ k ≤ lenZ (stream src) ∧
  m' = store_list m a (take (Z.to_nat k) (stream src)) ∧
  stream src' = drop (Z.to_nat k) (stream src).

Lemma transferred_more m a src k src1 m1 n src' :
  transferred m a src k src1 m1 → 0 ≤ n ≤ lenZ (stream src1) →
  stream src' = drop (Z.to_nat n) (stream src1) →
  transferred m a src (k + n) src' (store_list m1 (a + k) (take (Z.to_nat n) (stream src1))).
Proof.
  intros (Hk & -> & Hst) Hn Hst'. rewrite Hst in *. rewrite length_drop in Hn.
  unfold transferred. split_and!; [lia..| |].
  - apply store_list_take_drop; lia.
  - rewrite Hst', drop_drop. f_equal. lia.
Qed.

(** The result of [read_exact] after [k] bytes. *)
Definition exact_result (count k : Z) (r : result unit io_error) src' : Prop :=
  match r with
  | Ok _ => k = count
  | Err e => k < count ∧ (reader_failed e src' ∨ e = IoError UnexpectedEof ∧ stream src' = [])
  end.

Lemma read_exact_wp m src a count :
  0 ≤ count → mapped m a count → count + read_pending src < 2 ^ 64 →
  wp (VolatileBytes.read_exact m src (Slice a count)) (λ '(r, (src', m')),
    ∃ k, transferred m a src k src' m' ∧ k ≤ count ∧ exact_result count k r src').
Proof.
  intros Hc Hm Hp. unfold VolatileBytes.read_exact.
  apply (while_loop_wp _ (λ '(src', m', dst), ∃ k, transferred m a src k src' m' ∧ k ≤ count ∧
    dst = Slice (a + k) (count - k) ∧ read_pending src' ≤ read_pending src)
    (λ '(src', _, dst), s_len dst + read_pending src')).
  - intros [[src' m'] dst] (k & _ & ? & -> & _). simpl. pose proof (read_pending_nonneg src'). lia.
  - intros [[src1 m1] dst] (k & Ht & Hk & -> & Hpd). cbn [s_len].
    destruct (Z.eqb_spec (count - k) 0) as [|Hne].
    { simpl. exists k. split_and!; [done..|]. simpl. lia. }
    apply wp_bind. pose proof Ht as (Hk0 & Hm1 & Hst).
    eapply wp_mono; [apply read_into_wp; simpl; [lia|]|].
    { subst m1. apply mapped_store_list, (mapped_mono _ _ _ _ _ Hm); lia. }
    intros [[[n|e] src'] m']; cbn [s_len s_ptr].
    + intros (Hn & Hn' & -> & Hst' & Hpd' & Hz).
      pose proof (transferred_more _ _ _ _ _ _ n src' Ht ltac:(lia) Hst') as Ht'.
      destruct (decide (n = 0)) as [->|].
      { simpl. exists (k + 0). split_and!; [done|lia|lia|]. right. split; [done|].
        destruct (Hz eq_refl) as [?|Hnil]; [lia|]. by rewrite Hst', Hnil. }
      assert (∀ (A : Type) (x y : A), match n with 0 => x | _ => y end = y) as Hmatch by (by destruct n).
      rewrite Hmatch. unfold slice_range. cbn [s_len s_ptr].
      rewrite !(proj2 (Z.leb_le _ _)) by lia. simpl. split; [|lia].
      exists (k + n). split_and!; [done|lia|f_equal; lia|lia].
    + intros (-> & Hst' & Hint & Hf). simpl.
      assert (transferred m a src k src' m1) by (by unfold transferred; rewrite Hst').
      case_decide; simpl; [specialize (Hint ltac:(done)); split; [|lia]|].
      * exists k. split_and!; [done|done|done|lia].
      * exists k. split_and!; [done|done|lia|auto].
  - exists 0. split_and!; [|lia|f_equal; lia|lia]. unfold transferred. split_and!; [lia..|done|done].
  - simpl. lia.
Qed.

(** C27: [read_exact_from] on a valid range, with a reader that is interrupted
    finitely often, returns; what it stored is the prefix of the stream that
    it consumed, and it succeeds exactly when that prefix fills the range.
    Otherwise the error is the one with which the reader failed, or
    [UnexpectedEof] at the end of the stream. *)
Theorem read_exact_from_stream m s addr src count :
  vslice_ok m s → 0 ≤ addr → 0 ≤ count → addr + count ≤ vs_size s →
  count + read_pending src < 2 ^ 64 →
  ∃ r src' m' k, VolatileBytes.read_exact_from m s addr src count = Ret (r, (src', m')) ∧
    0 ≤ k ≤ lenZ (stream src) ∧ k ≤ count ∧
    m' = store_list m (vs_addr s + addr) (take (Z.to_nat k) (stream src)) ∧
    stream src' = drop (Z.to_nat k) (stream src) ∧
    match r with
    | Ok _ => k = count
    | Err e => k < count ∧ ∃ io, e = VIOError io ∧
        (reader_failed io src' ∨ io = IoError UnexpectedEof ∧ stream src' = [])
    end.
Proof.
  intros Hs Ha Hc Hle Hp. unfold VolatileBytes.read_exact_from.
  destruct (end_offset_cases m s addr count) as [(Hlt & ->)|(_ & -> & Hm)]; [done..|lia|].
  rewrite range_slice by lia. rewrite bind_ret.
  destruct (wp_inv _ _ (read_exact_wp m src _ count Hc Hm Hp))
    as ([r [src' m']] & -> & k & (? & ? & ?) & ? & Hr). rewrite bind_ret.
  exists (map_err VIOError r), src', m', k. split_and!; try done; try lia.
  destruct r as [[]|io]; simpl in *; [done|]. destruct Hr. by split; [|exists io].
Qed.
End readers.

Section writers.
Context `{Target} `{WriteSpec F}.
Implicit Types (m : mem) (s : VolatileSlice) (dst : F).

(** [write_all] writes a prefix of the buffer, all of it on success. *)
Lemma write_all_wp dst buf :
  lenZ buf + write_pending dst < 2 ^ 64 →
  wp (VolatileBytes.write_all dst buf) (λ '(r, dst'), ∃ k, (k ≤ length buf)%nat ∧
    written dst' = written dst ++ take k buf ∧
    match r with
    | Ok _ => k = length buf ∧ write_pending dst' ≤ write_pending dst
    | Err e => (k < length buf)%nat ∧ (writer_failed e dst' ∨ writer_full e dst')
    end).
Proof.
  intros Hp. apply (while_loop_wp _ (λ '(dst', buf'), ∃ k, (k ≤ length buf)%nat ∧
    buf' = drop k buf ∧ written dst' = written dst ++ take k buf ∧
    write_pending dst' ≤ write_pending dst) (λ '(dst', buf'), lenZ buf' + write_pending dst')).
  - intros [dst' buf'] _. pose proof (write_pending_nonneg dst'). lia.
  - intros [dst1 buf1] (k & Hk & -> & Hw & Hpd).
    destruct (drop k buf) as [|b bs] eqn:E.
    { simpl. exists k. assert (length (drop k buf) = 0%nat) as Hl by (by rewrite E).
      rewrite length_drop in Hl. split_and!; [done..|lia|done]. }
    assert (length (b :: bs) = length buf - k)%nat as Hlen by (by rewrite <-E, length_drop).
    assert (0 < length (b :: bs))%nat by (simpl; lia).
    destruct (io_write dst1 (b :: bs)) as [[n|e] dst'] eqn:Ew.
    + pose proof (io_write_ok _ _ _ _ Ew) as (Hn & Hw' & Hpd').
      destruct (decide (n = 0)) as [->|].
      { simpl. exists k. rewrite Hw', Hw, app_nil_r. split_and!; [done..|lia|].
        right. split; [done|]. by exists dst1, (b :: bs). }
      assert (∀ (A : Type) (x y : A), match n with 0 => x | _ => y end = y) as Hmatch by (by destruct n).
      rewrite Hmatch, (proj2 (Z.leb_le _ _)) by lia. apply wp_ret.
      split; [|rewrite length_drop; lia].
      exists (k + Z.to_nat n)%nat. rewrite <-E in Hw' |- *. split_and!; [lia|by rewrite drop_drop| |lia].
      rewrite Hw', Hw, <-app_assoc. f_equal. by rewrite take_take_drop.
    + pose proof (io_write_err _ _ _ _ Ew) as (Hw' & Hint). cbn [length] in *.
      case_decide; simpl; [split; [|specialize (Hint ltac:(done)); lia]|].
      * exists k. split_and!; [done|by rewrite E|congruence|]. specialize (Hint ltac:(done)). lia.
      * exists k. split_and!; [done|congruence|lia|]. left. split; eauto.
  - exists 0%nat. rewrite take_0, app_nil_r, drop_0. split_and!; [lia|done|done|lia].
  - done.
Qed.

(** [write_to] and [write_all_to] with a writer that is interrupted
    finitely often return, and what they appended to the writer is a prefix
    of the range they were given; [write_all_to] succeeds exactly when that
    prefix is the whole range.  An error is the one with which the writer
    failed or, of [write_all_to], [WriteZero] when the writer takes no more. *)
Theorem write_to_stream m s addr dst count bs :
  vslice_ok m s → contents m (vs_as_slice s) bs → 0 ≤ addr → 0 ≤ count → addr + count ≤ vs_size s →
  count + write_pending dst < 2 ^ 64 →
  let range := take (Z.to_nat count) (drop (Z.to_nat addr) bs) in
  (∃ r dst', VolatileBytes.write_to m s addr dst count = Ret (r, dst') ∧
    match r with
    | Ok n => 0 ≤ n ≤ count ∧ written dst' = written dst ++ take (Z.to_nat n) range
    | Err e => ∃ io, e = VIOError io ∧ writer_failed io dst' ∧ written dst' = written dst
    end) ∧
  (∃ r dst' k, VolatileBytes.write_all_to m s addr dst count = Ret (r, dst') ∧
    0 ≤ k ≤ count ∧ written dst' = written dst ++ take (Z.to_nat k) range ∧
    match r with
    | Ok _ => k = count
    | Err e => k < count ∧ ∃ io, e = VIOError io ∧ (writer_failed io dst' ∨ writer_full io dst')
    end).
Proof.
  intros Hs Hbs Ha Hc Hle Hp range. pose proof (contents_length _ _ _ Hs Hbs) as Hl. simpl in Hl.
  assert (lenZ range = count) as Hr by (unfold range; rewrite length_take, length_drop; lia).
  assert (read_bytes m (vs_addr s + addr) count = Ret range) as Hread by (by apply (contents_sub m s)).
  unfold VolatileBytes.write_to, VolatileBytes.write_all_to.
  destruct (end_offset_cases m s addr count) as [(Hlt & ->)|(_ & -> & Hm)]; [done..|lia|].
  rewrite range_slice by lia. rewrite !bind_ret. cbn [s_ptr s_len].
  rewrite Hread, bind_ret. split.
  - match goal with |- ∃ r dst', ?o = _ ∧ _ => enough (wp o (λ '(r, dst'),
      match r with
      | Ok n => 0 ≤ n ≤ count ∧ written dst' = written dst ++ take (Z.to_nat n) range
      | Err e => ∃ io, e = VIOError io ∧ writer_failed io dst' ∧ written dst' = written dst
      end)) as Hwp end.
    { apply wp_inv in Hwp as ([r dst'] & -> & Hq). eauto. }
    apply (retry_wp _ _ (λ dst', written dst' = written dst) write_pending (λ r dst', _));
      [intros; apply write_pending_nonneg| |done|lia].
    intros dst1 Hw. rewrite bind_ret. destruct (io_write dst1 range) as [[n|e] dst'] eqn:Ew; simpl.
    + apply io_write_ok in Ew as (? & Hw' & _). rewrite Hw', Hw. split; [lia|done].
    + pose proof (io_write_err _ _ _ _ Ew) as (Hw' & Hint). rewrite Hw in Hw'.
      case_decide; [auto|]. exists e. split_and!; [done|by split; eauto|done].
  - pose proof (write_all_wp dst range ltac:(lia)) as Hwp.
    apply wp_inv in Hwp as ([r dst'] & -> & k & Hk & Hw & Hrk). rewrite bind_ret.
    exists (map_err VIOError r), dst', (Z.of_nat k). rewrite Nat2Z.id. split_and!; try done; try lia.
    destruct r as [[]|io]; simpl in *; [lia|]. destruct Hrk. split; [lia|by exists io].
Qed.
End writers.

(** ** Witnesses

    The memory of [CopySlice.example_mem]: 16 bytes at 0x1000 and 16 at 0x2000,
    all zero except for 1, 2, 3, 4, 5 at 0x1002, on [x86_64_debug]. *)
#[local] Existing Instance x86_64_debug.

Lemma mapped_all (m : mem) a n :
  forallb (λ i, bool_decide (is_Some (m !! (a + i)))) (seqZ 0 n) = true → mapped m a n.
Proof.
  intros Hf i Hi. rewrite forallb_forall in Hf.
  eapply bool_decide_eq_true_1, Hf, list_elem_of_In, elem_of_seqZ. lia.
Qed.

Lemma example_slice_ok (a n : Z) :
  (0 <? a) && (0 <=? n) && (a + n <? 2 ^ 64) &&
  forallb (λ i, bool_decide (is_Some (example_mem !! (a + i)))) (seqZ 0 n) = true →
  slice_ok example_mem (Slice a n).
Proof.
  rewrite !andb_true_iff. intros [[[??]?]?].
  constructor; simpl; [lia..|change (2 ^ usize_bits) with (2 ^ 64); lia|by apply mapped_all].
Qed.

(** Closes the conditions of a theorem applied to the example. *)
Ltac by_example := solve
  [ by apply example_slice_ok; vm_compute | by vm_compute
  | by left; vm_compute | by right; vm_compute | done ].

(** Evaluates the case distinctions of a theorem [W] applied to the example. *)
Ltac pick_branch W :=
  repeat match type of W with
  | context [if ?c then _ else _] =>
      first [ let E := fresh in assert ((c) = false) as E by by_example; rewrite E in W; clear E
            | let E := fresh in assert ((c) = true) as E by by_example; rewrite E in W; clear E ]
  end.

Definition example_slice : VolatileSlice := VSlice 0x1000 16.
Definition example_bytes : list byte :=
  [x00; x00; x01; x02; x03; x04; x05; x00; x00; x00; x00; x00; x00; x00; x00; x00].

Lemma get_slice_in_bounds_witness :
  get_slice example_slice 4 8
    = subslice example_slice 4 8.
Proof.
  apply (get_slice_in_bounds example_mem example_slice 4 8); by_example.
Defined.

Lemma split_at_partition_witness :
  let a := VSlice 0x1000 4 in
  let b := VSlice 0x1004 12 in
  split_at example_slice 4 = Ret (Ok (a, b)) ∧
  vslice_ok example_mem a ∧ vslice_ok example_mem b ∧
  contents example_mem (vs_as_slice a) (take 4 example_bytes) ∧
  contents example_mem (vs_as_slice b) (drop 4 example_bytes).
Proof.
  apply (split_at_partition example_mem example_slice 4 example_bytes); by_example.
Defined.

Lemma write_stores_prefix_witness :
  ∃ m', VolatileBytes.write example_mem (VSlice 0x2000 16) (Slice 0x1002 5) 13
      = Ret (Ok 3, m') ∧
    contents m' (Slice 0x2000 16) (replicate 13 x00 ++ [x01; x02; x03]) ∧
    ∀ x, ¬ 0x2000 + 13 ≤ x < 0x2000 + 13 + 3 → m' !! x = example_mem !! x.
Proof.
  apply (write_stores_prefix example_mem (VSlice 0x2000 16) (Slice 0x1002 5)
    [x01; x02; x03; x04; x05] (replicate 16 x00) 13); by_example.
Defined.

Lemma read_returns_contents_witness :
  ∃ m', VolatileBytes.read example_mem example_slice (Slice 0x2000 4) 3
      = Ret (Ok 4, m') ∧
    contents m' (Slice 0x2000 4) [x02; x03; x04; x05] ∧
    ∀ x, ¬ 0x2000 ≤ x < 0x2000 + 4 → m' !! x = example_mem !! x.
Proof.
  apply (read_returns_contents example_mem example_slice (Slice 0x2000 4)
    example_bytes (replicate 4 x00) 3); by_example.
Defined.

Lemma write_read_slice_roundtrip_witness :
  ∃ m' m'', VolatileBytes.write_slice example_mem (VSlice 0x2000 8) (Slice 0x1002 5) 2
      = Ret (Ok tt, m') ∧
    VolatileBytes.read_slice m' (VSlice 0x2000 8) (Slice 0x200a 5) 2
      = Ret (Ok tt, m'') ∧ contents m'' (Slice 0x200a 5) [x01; x02; x03; x04; x05].
Proof.
  apply (write_read_slice_roundtrip example_mem (VSlice 0x2000 8)
    (Slice 0x1002 5) (Slice 0x200a 5) [x01; x02; x03; x04; x05] 2); by_example.
Defined.

Lemma array_store_load_witness :
  let a : VolatileArrayRef u16 := VArrayRef 0x1001 3 in
  ∃ m', va_store
          example_mem a 2 (uint_of 0xabcd) = Ret m' ∧
    array_ok m' a ∧
    va_load m' a 2
      = Ret (uint_of 0xabcd).
Proof.
  apply (array_store_load (T := u16) example_mem (VArrayRef 0x1001 3) 2 2 (uint_of 0xabcd)).
  - constructor; [by vm_compute..|by apply example_slice_ok; vm_compute].
  - done.
  - simpl. lia.
Defined.

Lemma get_array_ref_in_bounds_witness :
  let a : VolatileArrayRef u32 := VArrayRef 0x1002 3 in
  get_array_ref u32 example_slice 2 3
    = Ret (Ok a) ∧ array_ok example_mem a.
Proof.
  pose proof (get_array_ref_in_bounds (T := u32) example_mem example_slice 2 3) as W.
  pick_branch W. apply W; by_example.
Defined.

Lemma vs_copy_elements_witness :
  vs_copy_to u16
      example_mem (VSlice 0x1002 5) (Slice 0x2000 4)
    = Ret (2, store_list example_mem 0x2000 [x01; x02; x03; x04]) ∧
  vs_copy_from u16 example_mem (VSlice 0x1002 5) (Slice 0x2000 4)
    = Ret (store_list example_mem 0x1002 [x00; x00; x00; x00]).
Proof.
  assert (W := vs_copy_elements (T := u16) example_mem (VSlice 0x1002 5) (Slice 0x2000 4)
    [x01; x02; x03; x04; x05] (replicate 8 x00)).
  do 7 (specialize (W ltac:(by_example))). vm_cast_no_check W.
Defined.

Lemma vs_copy_zero_sized_panics_witness :
  vs_copy_to (array u8 0)
      example_mem example_slice (Slice 0x2000 4) = Panic.
Proof. apply (vs_copy_zero_sized_panics (T := array u8 0)); by_example. Defined.

Lemma atomic_store_load_witness :
  ∃ m', VolatileBytes.store (T := u32)
          example_mem example_slice (uint_of 100) 8 Release = Ret (Ok tt, m') ∧
    vslice_ok m' example_slice ∧
    VolatileBytes.load (T := u32) m' example_slice 8 Acquire = Ret (Ok (uint_of 100)).
Proof.
  assert (W := atomic_store_load (T := u32) example_mem example_slice (uint_of 100) 8 Release Acquire).
  pick_branch W. apply W; by_example.
Defined.

Definition example_stream : Cursor :=
  {| c_data := [x0a; x0b; x0c; x0d; x0e]; c_interrupts := 2; c_chunk := 3 |}.

Lemma read_from_stream_witness :
  ∃ r src' m', VolatileBytes.read_from example_mem example_slice 4 example_stream 5
      = Ret (r, (src', m')) ∧
    match r with
    | Ok n => 0 ≤ n ≤ 5 ∧ n ≤ lenZ (stream example_stream) ∧
        m' = store_list example_mem (0x1000 + 4) (take (Z.to_nat n) (stream example_stream)) ∧
        stream src' = drop (Z.to_nat n) (stream example_stream) ∧
        (n = 0 → 5 = 0 ∨ stream example_stream = [])
    | Err e => ∃ io, e = VIOError io ∧ reader_failed io src' ∧ m' = example_mem ∧
        stream src' = stream example_stream
    end.
Proof.
  assert (W := read_from_stream example_mem example_slice 4 example_stream 5).
  pick_branch W. apply W; by_example.
Defined.

Lemma read_exact_from_stream_witness :
  ∃ r src' m' k,
    VolatileBytes.read_exact_from example_mem example_slice 4 example_stream 5
      = Ret (r, (src', m')) ∧
    0 ≤ k ≤ lenZ (stream example_stream) ∧ k ≤ 5 ∧
    m' = store_list example_mem (0x1000 + 4) (take (Z.to_nat k) (stream example_stream)) ∧
    stream src' = drop (Z.to_nat k) (stream example_stream) ∧
    match r with
    | Ok _ => k = 5
    | Err e => k < 5 ∧ ∃ io, e = VIOError io ∧
        (reader_failed io src' ∨ io = IoError UnexpectedEof ∧ stream src' = [])
    end.
Proof.
  assert (W := read_exact_from_stream example_mem example_slice 4 example_stream 5).
  pick_branch W. apply W; by_example.
Defined.

Lemma write_to_stream_witness :
  (∃ r dst', VolatileBytes.write_to example_mem example_slice 2 example_stream 5
      = Ret (r, dst') ∧
    match r with
    | Ok n => 0 ≤ n ≤ 5 ∧ written dst' = written example_stream ++ take (Z.to_nat n) [x01; x02; x03; x04; x05]
    | Err e => ∃ io, e = VIOError io ∧ writer_failed io dst' ∧ written dst' = written example_stream
    end) ∧
  (∃ r dst' k, VolatileBytes.write_all_to example_mem example_slice 2 example_stream 5
      = Ret (r, dst') ∧ 0 ≤ k ≤ 5 ∧
    written dst' = written example_stream ++ take (Z.to_nat k) [x01; x02; x03; x04; x05] ∧
    match r with
    | Ok _ => k = 5
    | Err e => k < 5 ∧ ∃ io, e = VIOError io ∧ (writer_failed io dst' ∨ writer_full io dst')
    end).
Proof.
  assert (W := write_to_stream example_mem example_slice 2 example_stream 5 example_bytes).
  pick_branch W. apply W; by_example.
Defined.
