(* ===== verification/Os.v ===== *)
(** * The operating system

    What the source calls outside the repository: the [nix] wrappers of
    [process_vm_readv] and [process_vm_writev], [libc]'s [mmap], [munmap] and
    [sysconf] with its constants, and [std::fs::File].  They are the fields of
    a class over the state [W] of the system; what the source relies on is in
    the classes [RemoteSpec] (from the manual page of [process_vm_readv]) and
    [MmapSpec] (from that of [mmap]).  [toy_os] is a system with which all of
    it holds. *)

From S2P Require Import Prelude Memory PlainData AtomicIntegers Bytes.

Inductive errno := EFAULT | ESRCH | EPERM | EINVAL | ENOMEM | Errno (code : Z).

#[export] Instance errno_eq_dec : EqDecision errno.
Proof. solve_decision. Defined.

(** [nix::sys::uio::RemoteIoVec]. *)
Record RemoteIoVec := { iov_base : Z; iov_len : Z }.

(** [libc::mmap] returns a pointer, [MAP_FAILED] on error, and [io::Error] is
    then made from [errno]. *)
Class OS (W : Type) := {
  process_vm_readv : W → Z → list (list byte) → list RemoteIoVec → result Z errno * list (list byte);
  process_vm_writev : W → Z → list (list byte) → list RemoteIoVec → result Z errno * W;
  File : Type;
  as_raw_fd : File → Z;
  metadata_len : W → File → option Z;   (** [file.metadata()], its length *)
  page_size : Z;                        (** [sysconf(_SC_PAGESIZE) as usize] *)
  PROT_READ : Z; PROT_WRITE : Z;
  MAP_SHARED : Z; MAP_PRIVATE : Z; MAP_FIXED : Z; MAP_ANONYMOUS : Z; MAP_NORESERVE : Z;
  MAP_FAILED : Z;
  mmap : W → Z → Z → Z → Z → Z → Z → Z * W;  (** address, size, prot, flags, fd, offset *)
  munmap : W → Z → Z → W;
  last_os_error : W → io_error
}.

(** [space w pid] is the memory of process [pid]; [attached w pid] says that
    this process may access it ([PTRACE_MODE_ATTACH_REALCREDS]).  A transfer
    moves a prefix of the buffer, all of it when the range is there; distinct
    addresses of a process are distinct memory. *)
Class RemoteSpec (W : Type) `{OS W} := {
  space : W → Z → mem;
  attached : W → Z → Prop;
  readv_ok : ∀ w pid buf base n bufs,
    process_vm_readv w pid [buf] [{| iov_base := base; iov_len := lenZ buf |}] = (Ok n, bufs) →
    0 ≤ n ≤ lenZ buf ∧ ∃ bs, read_bytes (space w pid) base n = Ret bs ∧
      bufs = [bs ++ drop (Z.to_nat n) buf];
  readv_full : ∀ w pid buf base,
    attached w pid → mapped (space w pid) base (lenZ buf) →
    (process_vm_readv w pid [buf] [{| iov_base := base; iov_len := lenZ buf |}]).1 = Ok (lenZ buf);
  writev_ok : ∀ w pid buf base n w',
    process_vm_writev w pid [buf] [{| iov_base := base; iov_len := lenZ buf |}] = (Ok n, w') →
    0 ≤ n ≤ lenZ buf ∧ mapped (space w pid) base n ∧
    space w' pid = store_list (space w pid) base (take (Z.to_nat n) buf) ∧
    (attached w pid → attached w' pid);
  writev_err : ∀ w pid buf base e w',
    process_vm_writev w pid [buf] [{| iov_base := base; iov_len := lenZ buf |}] = (Err e, w') →
    space w' pid = space w pid ∧ (attached w pid → attached w' pid);
  writev_full : ∀ w pid buf base,
    attached w pid → mapped (space w pid) base (lenZ buf) →
    (process_vm_writev w pid [buf] [{| iov_base := base; iov_len := lenZ buf |}]).1 = Ok (lenZ buf)
}.

(** [mmap] fails, or returns the address of a fresh range of pages; it does not
    create an empty mapping.  The flags are distinct bits. *)
Class MmapSpec `{Target} (W : Type) `{OS W} := {
  page_size_pow2 : is_pow2 page_size;
  page_size_range : page_size < 2 ^ usize_bits;
  flags_anonymous : Z.land (Z.lor (Z.lor MAP_ANONYMOUS MAP_NORESERVE) MAP_PRIVATE) MAP_FIXED = 0;
  flags_shared : Z.land (Z.lor MAP_NORESERVE MAP_SHARED) MAP_FIXED = 0;
  mmap_ok : ∀ w size prot flags fd off a w',
    0 ≤ size → mmap w 0 size prot flags fd off = (a, w') → a ≠ MAP_FAILED →
    0 < size ∧ 0 < a ∧ a + size ≤ 2 ^ usize_bits ∧ a `mod` page_size = 0
}.

(** ** A system with one thread and no files *)
Record toy := Toy {
  toy_space : gmap Z mem;          (** the processes *)
  toy_next : Z;                    (** the next free page of this process *)
  toy_unmapped : list (Z * Z)      (** the ranges that [munmap] was called with *)
}.

Definition toy_readv (w : toy) (pid : Z) (bufs : list (list byte)) (iov : list RemoteIoVec)
  : result Z errno * list (list byte) :=
  match toy_space w !! pid, bufs, iov with
  | Some m, [buf], [v] =>
      match read_bytes m (iov_base v) (Z.min (lenZ buf) (iov_len v)) with
      | Ret bs => (Ok (lenZ bs), [bs ++ drop (length bs) buf])
      | _ => (Err EFAULT, bufs)
      end
  | None, _, _ => (Err ESRCH, bufs)
  | _, _, _ => (Err EINVAL, bufs)
  end.
Definition toy_writev (w : toy) (pid : Z) (bufs : list (list byte)) (iov : list RemoteIoVec)
  : result Z errno * toy :=
  match toy_space w !! pid, bufs, iov with
  | Some m, [buf], [v] =>
      match write_bytes m (iov_base v) (take (Z.to_nat (iov_len v)) buf) with
      | Ret m' => (Ok (Z.min (lenZ buf) (iov_len v)), Toy (<[pid := m']> (toy_space w)) (toy_next w) (toy_unmapped w))
      | _ => (Err EFAULT, w)
      end
  | None, _, _ => (Err ESRCH, w)
  | _, _, _ => (Err EINVAL, w)
  end.
(** Mappings are handed out at increasing addresses below [2^31]. *)
Definition toy_mmap (w : toy) (addr size prot flags fd off : Z) : Z * toy :=
  let pages := (size + 4095) / 4096 * 4096 in
  if (0 <? size) && (0 <? toy_next w) && (toy_next w `mod` 4096 =? 0)
     && (toy_next w + size <? 2 ^ 31)
  then (toy_next w, Toy (toy_space w) (toy_next w + pages) (toy_unmapped w)) else (-1, w).

#[export] Instance toy_os : OS toy := {|
  process_vm_readv := toy_readv;
  process_vm_writev := toy_writev;
  File := Z;
  as_raw_fd f := f;
  metadata_len _ f := Some (4096 * f);
  page_size := 4096;
  PROT_READ := 1; PROT_WRITE := 2;
  MAP_SHARED := 1; MAP_PRIVATE := 2; MAP_FIXED := 0x10; MAP_ANONYMOUS := 0x20;
  MAP_NORESERVE := 0x4000;
  MAP_FAILED := -1;
  mmap := toy_mmap;
  munmap w a size := Toy (toy_space w) (toy_next w) ((a, size) :: toy_unmapped w);
  last_os_error _ := IoError (OtherKind 12)
|}.

Lemma mapped_read_bytes m a n : 0 ≤ n → mapped m a n ↔ ∃ bs, read_bytes m a n = Ret bs.
Proof.
  intros Hn. split.
  - intros Hm. destruct (read_bytes_mapped m a n Hn Hm) as (bs & ? & _). eauto.
  - intros (bs & E). unfold read_bytes in E.
    destruct (load_list m a (Z.to_nat n)) eqn:El; [|done].
    rewrite <-(Z2Nat.id n) by done. apply load_list_mapped. eauto.
Qed.

#[export] Instance toy_remote_spec : RemoteSpec toy.
Proof.
  refine {| space w pid := toy_space w !!! pid; attached w pid := is_Some (toy_space w !! pid) |}.
  - intros w pid buf base n bufs. simpl. unfold toy_readv. rewrite lookup_total_alt.
    destruct (toy_space w !! pid) as [m|] eqn:E; [|done]. simpl. rewrite Z.min_id.
    destruct (read_bytes m base (lenZ buf)) as [bs| | |] eqn:Er; [|done..].
    intros [= <- <-]. pose proof Er as Hl. apply read_bytes_Ret in Hl as [Hl _]; [|lia].
    split; [lia|]. exists bs. by rewrite Hl, Er, Nat2Z.id, (Nat2Z.inj _ _ Hl).
  - intros w pid buf base [m E] Hm. simpl. unfold toy_readv. rewrite lookup_total_alt, E in *.
    simpl in *. rewrite Z.min_id.
    destruct (read_bytes_mapped m base (lenZ buf)) as (bs & -> & Hl); [lia|done|]. simpl. congruence.
  - intros w pid buf base n w'. simpl. unfold toy_writev. rewrite !lookup_total_alt.
    destruct (toy_space w !! pid) as [m|] eqn:E; [|done]. simpl.
    rewrite Z.min_id, Nat2Z.id, take_ge by lia.
    destruct (write_bytes m base buf) as [m'| | |] eqn:Ew; [|done..].
    intros [= <- <-]. unfold write_bytes in Ew.
    destruct (load_list m base (length buf)) eqn:El; [|done]. injection Ew as [= <-].
    rewrite Nat2Z.id, take_ge by lia. simpl. rewrite lookup_insert, decide_True by done. simpl.
    split_and!; [lia..| |done|eauto]. apply load_list_mapped. eauto.
  - intros w pid buf base e w'. simpl. unfold toy_writev.
    destruct (toy_space w !! pid) as [m|] eqn:E; [|by intros [= _ <-]]. simpl.
    destruct (write_bytes _ _ _); [done|by intros [= _ <-]..].
  - intros w pid buf base [m E] Hm. simpl. unfold toy_writev. rewrite lookup_total_alt, E in *.
    simpl in *. rewrite Z.min_id, Nat2Z.id, take_ge by lia.
    by rewrite write_bytes_mapped.
Defined.

#[export] Instance toy_mmap_spec `{Target} : MmapSpec toy.
Proof.
  constructor; simpl.
  - by exists 12.
  - destruct usize_bits_cases as [[-> _]|[-> _]]; done.
  - done.
  - done.
  - intros w size prot flags fd off a w' Hs. unfold toy_mmap.
    destruct (_ && _) eqn:E; [|by intros [= <- <-]]. intros [= <- <-] _.
    rewrite !andb_true_iff, !Z.ltb_lt, Z.eqb_eq in E.
    assert (2 ^ 31 ≤ 2 ^ usize_bits) by (destruct usize_bits_cases as [[-> _]|[-> _]]; done).
    split_and!; try tauto; lia.
Qed.
