(* ===== verification/Linux.v ===== *)
(** * A Linux system for the tests

    The operating system as far as the unit tests need it: files with their
    contents, and the memory of the process that runs the tests, into which
    [mmap] maps a copy of the file, in whole pages, and which [process_vm_readv] and
    [process_vm_writev] access when they are given the id of the process itself.
    Mappings are placed one above the other or one below the other, as Linux
    does.  The laws of [Os] hold of it ([linux_remote_spec], [linux_mmap_spec]). *)

From S2P Require Import Prelude Memory PlainData AtomicIntegers Bytes CopySlice Os.

Record linux := Linux {
  l_files : gmap Z (list byte);  (** by file descriptor *)
  l_procs : toy;                 (** the processes, and where the next mapping goes *)
  l_down : bool;                 (** mappings go below the last one *)
  l_errno : Z
}.

(** The process that runs the tests. *)
Definition own_pid : Z := 1.
Definition l_mem (w : linux) : mem := toy_space (l_procs w) !!! own_pid.
Definition with_mem (w : linux) (m : mem) : linux :=
  Linux (l_files w) (Toy (<[own_pid := m]> (toy_space (l_procs w))) (toy_next (l_procs w)) (toy_unmapped (l_procs w)))
    (l_down w) (l_errno w).

Definition round_up (size : Z) : Z := (size + 4095) / 4096 * 4096.

Definition linux_mmap (w : linux) (addr size prot flags fd off : Z) : Z * linux :=
  let next := toy_next (l_procs w) in
  let pages := round_up size in
  let a := if l_down w then next - pages else next in
  if (size <=? 0) || negb (off `mod` 4096 =? 0) then
    (-1, Linux (l_files w) (l_procs w) (l_down w) 22)
  else if (0 <? a) && (a `mod` 4096 =? 0) && (a + size <? 2 ^ 31) then
    let n := Z.to_nat pages in
    let file := drop (Z.to_nat off) (default [] (l_files w !! fd)) in
    let bs := take n (take (Z.to_nat size) file ++ replicate n x00) in
    (a, Linux (l_files w)
          (Toy (<[own_pid := store_list (l_mem w) a bs]> (toy_space (l_procs w)))
               (if l_down w then a else a + pages) (toy_unmapped (l_procs w)))
          (l_down w) (l_errno w))
  else (-1, Linux (l_files w) (l_procs w) (l_down w) 12).

Definition linux_munmap (w : linux) (a size : Z) : linux :=
  with_mem w (filter (λ '(x, _), ¬ (a ≤ x < a + round_up size)) (l_mem w)).

#[export] Instance linux_os : OS linux := {|
  process_vm_readv w := toy_readv (l_procs w);
  process_vm_writev w pid bufs iov :=
    let '(r, p) := toy_writev (l_procs w) pid bufs iov in
    (r, Linux (l_files w) p (l_down w) (l_errno w));
  File := Z;
  as_raw_fd f := f;
  metadata_len w f := (λ bs, lenZ bs) <$> l_files w !! f;
  page_size := 4096;
  PROT_READ := 1; PROT_WRITE := 2;
  MAP_SHARED := 1; MAP_PRIVATE := 2; MAP_FIXED := 0x10; MAP_ANONYMOUS := 0x20;
  MAP_NORESERVE := 0x4000;
  MAP_FAILED := -1;
  mmap := linux_mmap;
  munmap := linux_munmap;
  last_os_error w := IoError (OtherKind (l_errno w))
|}.

(** A process with no mappings and no files. *)
Definition linux_start (down : bool) : linux :=
  Linux ∅ (Toy {[ own_pid := ∅ ]} (if down then 0x1000000 else 0x10000) []) down 0.

(** [TempFile::new], with its contents; [set_len] and [ftruncate] beyond the end. *)
Definition with_file (w : linux) (fd : Z) (bs : list byte) : linux :=
  Linux (<[fd := bs]> (l_files w)) (l_procs w) (l_down w) (l_errno w).
Definition set_len (w : linux) (fd n : Z) : linux := with_file w fd (replicate (Z.to_nat n) x00).

(** ** The laws of the system *)
#[export] Instance linux_remote_spec : RemoteSpec linux.
Proof.
  refine {| space w := space (l_procs w); attached w := attached (l_procs w) |}.
  - intros w. exact (readv_ok (W := toy) (l_procs w)).
  - intros w. exact (readv_full (W := toy) (l_procs w)).
  - intros w pid buf base n w'. simpl. destruct (toy_writev _ _ _ _) as [r p] eqn:E.
    intros [= -> <-]. exact (writev_ok (W := toy) _ _ _ _ _ _ E).
  - intros w pid buf base e w'. simpl. destruct (toy_writev _ _ _ _) as [r p] eqn:E.
    intros [= -> <-]. exact (writev_err (W := toy) _ _ _ _ _ _ E).
  - intros w pid buf base Ha Hm. simpl.
    pose proof (writev_full (W := toy) (l_procs w) pid buf base Ha Hm) as E. simpl in E.
    by destruct (toy_writev _ _ _ _).
Defined.

#[export] Instance linux_mmap_spec `{Target} : MmapSpec linux.
Proof.
  constructor; simpl.
  - by exists 12.
  - destruct usize_bits_cases as [[-> _]|[-> _]]; done.
  - done.
  - done.
  - intros w size prot flags fd off a w' Hs. unfold linux_mmap.
    set (next := if l_down w then _ else _). clearbody next.
    destruct (_ || _) eqn:E1; [by intros [= <- _]|].
    destruct (_ && _) eqn:E2; [|by intros [= <- _]]. intros [= <- _] _.
    rewrite !andb_true_iff, !Z.ltb_lt, Z.eqb_eq in E2. rewrite orb_false_iff, Z.leb_gt in E1.
    assert (2 ^ 31 ≤ 2 ^ usize_bits) by (destruct usize_bits_cases as [[-> _]|[-> _]]; done).
    split_and!; try tauto; lia.
Qed.
