(* ===== verification/RemoteMem.v ===== *)
(** * Memory of another process ([src/src/remote_mem.rs])

    The functions that move bytes and values between this process and the
    memory of another one, and the "atomic" accesses built on them, which
    transfer the aligned word that contains the value. *)

From S2P Require Import Prelude Memory PlainData AtomicIntegers Bytes CopySlice Os.

Definition ALG : Z := 8.

Inductive RemoteError :=
| Rw (e : errno)
| ByteCount (got should : Z).

#[export] Instance RemoteError_eq_dec : EqDecision RemoteError.
Proof. solve_decision. Defined.

(** [ptr::sub]: leaving the address space is undefined behaviour. *)
Definition ptr_sub (a n : Z) : outcome Z := if n <=? a then Ret (a - n) else Undef.

(** The bytes of [MaybeUninit::uninit()]: they are overwritten before use. *)
Definition uninit (n : Z) : list byte := replicate (Z.to_nat n) x00.

Section remote.
Context `{Target} `{OS W}.
Implicit Types (w : W) (pid addr : Z).

Definition any_as_bytes {T} `{ByteValued T} (p : T) : list byte := as_slice p.

Definition process_read_bytes w pid (buf : list byte) addr : result Z RemoteError * list byte :=
  let len := lenZ buf in
  match process_vm_readv w pid [buf] [{| iov_base := addr; iov_len := len |}] with
  | (r, bufs) => (map_err Rw r, default buf (head bufs))
  end.

Definition process_write_bytes w pid addr (val : list byte) : result Z RemoteError * W :=
  let len := lenZ val in
  match process_vm_writev w pid [val] [{| iov_base := addr; iov_len := len |}] with
  | (f, w') => (map_err Rw f, w')
  end.

Definition process_read (T : Type) `{ByteValued T} w pid addr : result T RemoteError :=
  let len := size_of T in
  match process_read_bytes w pid (uninit len) addr with
  | (Err e, _) => Err e
  | (Ok read, t_slice) =>
      if negb (read =? len) then Err (ByteCount read len) else Ok (from_bytes t_slice)
  end.

Definition process_write {T} `{ByteValued T} w pid addr (val : T) : result unit RemoteError * W :=
  let len := size_of T in
  let t_bytes := any_as_bytes val in
  match process_write_bytes w pid addr t_bytes with
  | (Err e, w') => (Err e, w')
  | (Ok written, w') =>
      if negb (written =? len) then (Err (ByteCount written len), w') else (Ok tt, w')
  end.

(** The start of the word and the offset of [addr] in it, as [process_load]
    and [process_store] compute them, with the assertions they make. *)
Definition containing_word addr len : outcome (Z * Z) :=
  offset ← usub usize_bits ALG (align_offset addr ALG);
  aligned ← ptr_sub addr offset;
  value_end ← uadd usize_bits addr len;
  word_end ← uadd usize_bits aligned ALG;
  _ ← rassert (value_end <=? word_end);
  Ret (aligned, offset).

Definition process_load (T : Type) `{ByteValued T} w pid addr : outcome (result T RemoteError) :=
  let len := size_of T in
  _ ← rassert (len <=? ALG);
  p ← containing_word addr len;
  let '(aligned, offset) := p in
  let? data := Ret (process_read (array u8 8) w pid aligned) in
  last ← uadd usize_bits offset len;
  t_slice ← index_range (as_slice data) offset last;
  _ ← rassert (lenZ t_slice =? len);
  Ret (Ok (from_bytes t_slice)).

Definition process_store {T} `{ByteValued T} w pid addr (val : T)
  : outcome (result unit RemoteError * W) :=
  let len := size_of T in
  _ ← rassert (len <=? ALG);
  p ← containing_word addr len;
  let '(aligned, offset) := p in
  match process_read (array u8 8) w pid aligned with
  | Err e => Ret (Err e, w)
  | Ok data =>
      let val_b := any_as_bytes val in
      last ← uadd usize_bits offset len;
      data ← update_range (as_slice data) offset last val_b;
      Ret (process_write (T := array u8 8) w pid aligned (from_bytes data))
  end.
End remote.

(** ** Transfers *)
Section transfers.
Context `{Target} `{RemoteSpec W}.
Implicit Types (w : W) (pid addr : Z).

Definition accessible w pid addr n : Prop :=
  attached w pid ∧ mapped (space w pid) addr n.

(** A read returns a prefix of the memory, followed by the old contents of
    the buffer. *)
Lemma process_read_bytes_ok w pid buf addr n buf' :
  process_read_bytes w pid buf addr = (Ok n, buf') →
  0 ≤ n ≤ lenZ buf ∧ ∃ bs, read_bytes (space w pid) addr n = Ret bs ∧
    buf' = bs ++ drop (Z.to_nat n) buf.
Proof.
  unfold process_read_bytes. destruct (process_vm_readv _ _ _ _) as [r bufs] eqn:E.
  destruct r as [k|e]; intros [= <- <-].
  apply readv_ok in E as (Hn & bs & Hr & ->). eauto.
Qed.
Lemma process_read_bytes_full w pid buf addr :
  accessible w pid addr (lenZ buf) → ∃ bs,
  read_bytes (space w pid) addr (lenZ buf) = Ret bs ∧
  process_read_bytes w pid buf addr = (Ok (lenZ buf), bs).
Proof.
  intros [Ha Hm]. pose proof (readv_full w pid buf addr Ha Hm) as E.
  destruct (process_read_bytes w pid buf addr) as [r buf'] eqn:Er.
  assert (r = Ok (lenZ buf)) as ->.
  { revert Er. unfold process_read_bytes.
    destruct (process_vm_readv _ _ _ _) as [r' bufs]. simpl in *. subst. by intros [= <- _]. }
  apply process_read_bytes_ok in Er as (_ & bs & ? & ->). exists bs.
  by rewrite Nat2Z.id, drop_all, app_nil_r.
Qed.
Lemma process_write_bytes_full w pid addr val :
  accessible w pid addr (lenZ val) → ∃ w',
  process_write_bytes w pid addr val = (Ok (lenZ val), w') ∧
  space w' pid = store_list (space w pid) addr val ∧ attached w' pid.
Proof.
  intros [Ha Hm]. pose proof (writev_full w pid val addr Ha Hm) as E.
  unfold process_write_bytes. destruct (process_vm_writev _ _ _ _) as [r w'] eqn:Ew.
  simpl in *. subst. apply writev_ok in Ew as (_ & _ & Hs & Ha').
  rewrite Nat2Z.id, take_ge in Hs by lia. exists w'. eauto.
Qed.

Lemma accessible_store w w' pid a n b bs :
  accessible w pid a n → attached w' pid → space w' pid = store_list (space w pid) b bs →
  accessible w' pid a n.
Proof. intros [_ ?] ? Hs. split; [done|]. rewrite Hs. by apply mapped_store_list. Qed.
Lemma accessible_sub w pid a n b k :
  accessible w pid a n → a ≤ b → b + k ≤ a + n → accessible w pid b k.
Proof. intros [? ?] ??. split; [done|]. by eapply mapped_mono. Qed.

Section value.
Context `{!ByteValued T, !ByteValuedSpec T}.

Lemma process_read_spec w pid addr :
  match process_read T w pid addr with
  | Ok v => read_bytes (space w pid) addr (size_of T) = Ret (as_slice v)
  | Err (ByteCount got should) => should = size_of T ∧ 0 ≤ got < should ∧
      mapped (space w pid) addr got
  | Err (Rw e) => ¬ accessible w pid addr (size_of T)
  end ∧
  (accessible w pid addr (size_of T) → ∃ v, process_read T w pid addr = Ok v).
Proof.
  pose proof size_of_range as [Hsz _].
  assert (lenZ (uninit (size_of T)) = size_of T) as Hl by (unfold uninit; rewrite length_replicate; lia).
  assert (accessible w pid addr (size_of T) → ∃ bs,
    process_read_bytes w pid (uninit (size_of T)) addr = (Ok (size_of T), bs)) as Hfull.
  { rewrite <-Hl at 1. intros Ha.
    destruct (process_read_bytes_full w pid (uninit (size_of T)) addr) as (bs & _ & ->); [done|].
    exists bs. by rewrite Hl. }
  unfold process_read.
  destruct (process_read_bytes _ _ _ _) as [[n|e] buf'] eqn:E; simpl.
  - apply process_read_bytes_ok in E as (Hn & bs & Hr & ->). rewrite Hl in Hn.
    pose proof (proj1 (read_bytes_Ret _ _ n _ ltac:(lia)) Hr) as [Hlb _].
    destruct (Z.eqb_spec n (size_of T)) as [->|Hne]; simpl.
    + rewrite drop_ge, app_nil_r by lia. rewrite as_slice_from by done. split; [done|eauto].
    + split; [|intros Ha; destruct (Hfull Ha) as (? & [=]); lia].
      split_and!; [done|lia..|]. apply mapped_read_bytes; [lia|eauto].
  - assert (∃ r, e = Rw r) as [r ->].
    { revert E. unfold process_read_bytes. destruct (process_vm_readv _ _ _ _) as [[?|r] ?];
        intros [= <- _]; eauto. }
    split; [intros Ha|intros Ha]; by destruct (Hfull Ha).
Qed.

(** [process_read] returns the value whose bytes are at the address, or
    reports how many bytes arrived when it is fewer than the size of the
    type, or the error of the system; it is the value whenever the range is
    accessible. *)
Theorem process_read_outcome w pid addr :
  match process_read T w pid addr with
  | Ok v => read_bytes (space w pid) addr (size_of T) = Ret (as_slice v)
  | Err (ByteCount got should) => should = size_of T ∧ 0 ≤ got < should ∧
      mapped (space w pid) addr got
  | Err (Rw e) => ¬ accessible w pid addr (size_of T)
  end ∧
  (accessible w pid addr (size_of T) → ∃ v, process_read T w pid addr = Ok v).
Proof. apply process_read_spec. Qed.

(** [process_write] reports success exactly when every byte of the
    value was stored; when fewer were, the error counts them and only they
    were; on an error of the system memory is unchanged.  It succeeds
    whenever the range is accessible. *)
Theorem process_write_outcome w pid addr (val : T) :
  let '(r, w') := process_write w pid addr val in
  let stored n := space w' pid = store_list (space w pid) addr (take (Z.to_nat n) (as_slice val)) in
  match r with
  | Ok _ => stored (size_of T)
  | Err (ByteCount got should) => should = size_of T ∧ 0 ≤ got < should ∧ stored got
  | Err (Rw _) => stored 0
  end ∧
  (accessible w pid addr (size_of T) → r = Ok tt).
Proof.
  pose proof (length_as_slice val) as Hl.
  assert (accessible w pid addr (size_of T) → ∃ w',
    process_write_bytes w pid addr (as_slice val) = (Ok (size_of T), w')) as Hfull.
  { rewrite <-Hl. intros Ha.
    destruct (process_write_bytes_full w pid addr (as_slice val) Ha) as (w' & ? & _). eauto. }
  unfold process_write, any_as_bytes.
  destruct (process_write_bytes _ _ _ _) as [[n|e] w'] eqn:E; revert E;
    unfold process_write_bytes; destruct (process_vm_writev _ _ _ _) as [[k|er] w''] eqn:Ew;
    intros [= <- <-].
  - apply writev_ok in Ew as (Hn & _ & Hs & _).
    destruct (Z.eqb_spec k (size_of T)) as [->|]; simpl; [done|].
    split; [split_and!; [done|lia..|done]|]. intros Ha. by destruct (Hfull Ha) as (? & [=]).
  - apply writev_err in Ew as [Hs _]. split; [done|]. intros Ha. by destruct (Hfull Ha).
Qed.
End value.
End transfers.

(** ** Accesses to a word *)
Section word.
Context `{Target} `{RemoteSpec W}.
Implicit Types (w : W) (pid addr : Z).

(** The offset of an address in its word is computed as 8, not 0, for the
    first address of a word. *)
Lemma containing_word_spec addr len :
  8 ≤ addr → 0 < len ≤ 8 → addr + 8 < 2 ^ usize_bits →
  containing_word addr len =
    if (0 <? addr `mod` 8) && (addr `mod` 8 + len <=? 8)
    then Ret (addr - addr `mod` 8, addr `mod` 8) else Panic.
Proof.
  intros Ha Hlen Hlt. unfold containing_word, ALG.
  pose proof (Z.mod_pos_bound addr 8 eq_refl).
  assert (∀ z, 0 ≤ z ≤ addr + 8 → in_bits usize_bits z) as Hb by (unfold in_bits; lia).
  destruct (Z.ltb_spec 0 (addr `mod` 8)) as [Hm|Hm]; simpl.
  - rewrite align_offset_pos by lia. rewrite usub_ok by (apply Hb; lia). simpl.
    unfold ptr_sub. rewrite (proj2 (Z.leb_le _ _)) by lia. simpl.
    rewrite !uadd_ok by (apply Hb; lia). simpl.
    replace (8 - (8 - addr `mod` 8)) with (addr `mod` 8) by lia.
    destruct (Z.leb_spec (addr + len) (addr - addr `mod` 8 + 8)),
      (Z.leb_spec (addr `mod` 8 + len) 8); try lia; done.
  - rewrite (proj2 (align_offset_zero addr 8 eq_refl)) by lia.
    rewrite usub_ok by (apply Hb; lia). simpl.
    unfold ptr_sub. rewrite (proj2 (Z.leb_le _ _)) by lia. simpl.
    rewrite !uadd_ok by (apply Hb; lia). simpl.
    rewrite (proj2 (Z.leb_gt _ _)) by lia. done.
Qed.

#[export] Instance word_spec : ByteValuedSpec (array u8 8).
Proof. apply array_byte_valued_spec. pose proof isize_max_lower. simpl. lia. Qed.

Lemma word_read w pid a :
  accessible w pid a 8 → ∃ v, process_read (array u8 8) w pid a = Ok v ∧
    read_bytes (space w pid) a 8 = Ret (as_slice v).
Proof.
  intros Ha. destruct (process_read_spec (T := array u8 8) w pid a) as [Ho Hf]. destruct (Hf Ha) as [v E].
  rewrite E in Ho. eauto.
Qed.

(** Writing back a window of what was read changes only the middle. *)
Lemma store_list_window m a n old k src :
  read_bytes m a n = Ret old → 0 ≤ k → k + lenZ src ≤ n →
  store_list m a (take (Z.to_nat k) old ++ src ++ drop (Z.to_nat (k + lenZ src)) old)
    = store_list m (a + k) src.
Proof.
  intros Hr Hk Hle. apply read_bytes_Ret in Hr as [Hl Hr]; [|lia].
  apply map_eq. intros x. rewrite !lookup_store_list.
  rewrite !length_app, length_take, length_drop.
  destruct (decide (a ≤ x < a + n)) as [Hx|Hx]; repeat case_decide; try lia.
  - rewrite lookup_app_r by (rewrite length_take; lia).
    rewrite lookup_app_l by (rewrite length_take; lia). rewrite length_take. f_equal. lia.
  - replace x with (a + (x - a)) at 2 by lia. rewrite Hr by lia.
    destruct (decide (x < a + k)).
    + rewrite lookup_app_l by (rewrite length_take; lia). rewrite lookup_take_lt by lia. done.
    + rewrite !lookup_app_r by (rewrite ?length_take; lia). rewrite lookup_drop, length_take.
      f_equal. lia.
  - done.
Qed.

Section value.
Context `{!ByteValued T, !ByteValuedSpec T}.

(** The condition under which the accesses do not panic: the value starts
    after the first byte of its word and ends in it. *)
Definition within_word addr : Prop := 0 < addr `mod` 8 ∧ addr `mod` 8 + size_of T ≤ 8.

Lemma containing_word_within addr :
  8 ≤ addr → addr + 8 < 2 ^ usize_bits → 0 < size_of T → within_word addr →
  (size_of T <=? ALG) = true ∧
  containing_word addr (size_of T) = Ret (addr - addr `mod` 8, addr `mod` 8) ∧
  uadd usize_bits (addr `mod` 8) (size_of T) = Ret (addr `mod` 8 + size_of T).
Proof.
  intros Ha Hlt Hsz [Hm Hle]. unfold ALG. split_and!; [lia| |].
  - rewrite containing_word_spec by lia.
    rewrite (proj2 (Z.ltb_lt _ _)), (proj2 (Z.leb_le _ _)) by lia. done.
  - apply uadd_ok. unfold in_bits. lia.
Qed.

Lemma process_load_spec w pid addr :
  8 ≤ addr → addr + 8 < 2 ^ usize_bits → 0 < size_of T → within_word addr →
  accessible w pid (addr - addr `mod` 8) 8 →
  ∃ v, process_load T w pid addr = Ret (Ok v) ∧
    read_bytes (space w pid) addr (size_of T) = Ret (as_slice v).
Proof.
  intros Ha Hlt Hsz Hw Hacc. pose proof Hw as [Hm Hle].
  destruct (containing_word_within addr) as (E1 & E2 & E3); [done..|].
  unfold process_load. rewrite E1, E2. cbn [rassert mbind outcome_bind].
  destruct (word_read w pid _ Hacc) as (data & -> & Hr). rewrite E3. cbn [mbind outcome_bind].
  pose proof (length_as_slice data) as Hl. change (size_of (array u8 8)) with 8 in Hl.
  pose proof (read_bytes_sub _ _ 8 _ (addr `mod` 8) (size_of T) ltac:(lia) Hr) as Hs.
  rewrite Z.sub_add in Hs. specialize (Hs ltac:(lia) ltac:(lia) ltac:(lia)).
  unfold index_range. rewrite Hl, !(proj2 (Z.leb_le _ _)) by lia. cbn [andb]. rewrite bind_ret.
  replace (addr `mod` 8 + size_of T - addr `mod` 8) with (size_of T) by lia.
  pose proof Hs as Hl'. apply read_bytes_Ret in Hl' as [Hl' _]; [|lia].
  rewrite (proj2 (Z.eqb_eq _ _) Hl'). eexists. split; [done|]. by rewrite as_slice_from.
Qed.

(** [process_load] of a value that lies within an 8-byte word, after its
    first byte, returns the value stored at the address when the word is
    accessible. *)
Theorem process_load_value w pid addr bs :
  8 ≤ addr → addr + 8 < 2 ^ usize_bits → 0 < size_of T → within_word addr →
  accessible w pid (addr - addr `mod` 8) 8 →
  read_bytes (space w pid) addr (size_of T) = Ret bs →
  process_load T w pid addr = Ret (Ok (from_bytes bs)).
Proof.
  intros Ha Hlt Hsz Hw Hacc Hr.
  destruct (process_load_spec w pid addr) as (v & -> & Hv); [done..|].
  rewrite Hr in Hv. injection Hv as ->. by rewrite from_as_slice.
Qed.

Lemma process_store_spec w pid addr (v : T) :
  8 ≤ addr → addr + 8 < 2 ^ usize_bits → 0 < size_of T → within_word addr →
  accessible w pid (addr - addr `mod` 8) 8 →
  ∃ w', process_store w pid addr v = Ret (Ok tt, w') ∧
    space w' pid = store_list (space w pid) addr (as_slice v) ∧ attached w' pid.
Proof.
  intros Ha Hlt Hsz Hw Hacc. pose proof Hw as [Hm Hle]. pose proof (length_as_slice v) as Hv.
  destruct (containing_word_within addr) as (E1 & E2 & E3); [done..|].
  unfold process_store, any_as_bytes. rewrite E1, E2. cbn [rassert mbind outcome_bind].
  destruct (word_read w pid _ Hacc) as (data & -> & Hr). rewrite E3. cbn [mbind outcome_bind].
  pose proof (length_as_slice data) as Hl. change (size_of (array u8 8)) with 8 in Hl.
  unfold update_range. rewrite Hl, !(proj2 (Z.leb_le _ _)), (proj2 (Z.eqb_eq _ _)) by lia.
  cbn [andb]. set (new := take _ _ ++ _). rewrite bind_ret.
  assert (lenZ new = 8) as Hn.
  { unfold new. rewrite !length_app, length_take, length_drop. lia. }
  pose proof (process_write_bytes_full w pid (addr - addr `mod` 8) new) as Hf.
  rewrite Hn in Hf. destruct (Hf Hacc) as (w' & E & Hs & Ha').
  exists w'. unfold process_write, any_as_bytes. rewrite as_slice_from by done.
  rewrite E. split_and!; [done| |done]. rewrite Hs. unfold new. rewrite <-Hv.
  rewrite (store_list_window _ _ 8) by (done || lia). f_equal. lia.
Qed.

(** C29: [process_store] within an accessible word changes exactly the bytes
    of the value, leaving the rest of the word and of the process as they
    were, and [process_load] returns what was stored. *)
Theorem process_store_load w pid addr (v : T) :
  8 ≤ addr → addr + 8 < 2 ^ usize_bits → 0 < size_of T → within_word addr →
  accessible w pid (addr - addr `mod` 8) 8 →
  ∃ w', process_store w pid addr v = Ret (Ok tt, w') ∧
    space w' pid = store_list (space w pid) addr (as_slice v) ∧
    process_load T w' pid addr = Ret (Ok v).
Proof.
  intros Ha Hlt Hsz Hw Hacc.
  destruct (process_store_spec w pid addr v) as (w' & E & Hs & Ha'); [done..|].
  exists w'. split_and!; [done..|].
  destruct (process_load_spec w' pid addr) as (u & -> & Hu); [done..| |].
  { by eapply accessible_store. }
  rewrite Hs, <-(length_as_slice v), read_back in Hu. injection Hu as Hu.
  do 2 f_equal. by rewrite <-(from_as_slice u), <-Hu, from_as_slice.
Qed.

Lemma word_panics w pid addr (v : T) :
  8 ≤ addr → addr + 8 < 2 ^ usize_bits → 0 < size_of T ≤ 8 →
  addr `mod` 8 = 0 ∨ 8 < addr `mod` 8 + size_of T →
  process_load T w pid addr = Panic ∧ process_store w pid addr v = Panic.
Proof.
  intros Ha Hlt Hsz Hw. unfold process_load, process_store, ALG.
  rewrite (proj2 (Z.leb_le _ _)) by lia. cbn [rassert mbind outcome_bind].
  rewrite containing_word_spec by lia.
  destruct (Z.ltb_spec 0 (addr `mod` 8)), (Z.leb_spec (addr `mod` 8 + size_of T) 8);
    try lia; done.
Qed.

(** C32: [process_load] and [process_store] panic for every other value of
    at most 8 bytes: one that starts at the first byte of a word, that is
    at an address aligned to 8, and one that crosses the end of its word.
    For a type of 8 bytes every address is of one of the two kinds. *)
Theorem process_access_panics w pid addr (v : T) :
  8 ≤ addr → addr + 8 < 2 ^ usize_bits → 0 < size_of T ≤ 8 →
  addr `mod` 8 = 0 ∨ 8 < addr `mod` 8 + size_of T →
  process_load T w pid addr = Panic ∧ process_store w pid addr v = Panic.
Proof. apply word_panics. Qed.
End value.
End word.
Arguments within_word T {_} _.
#[export] Instance within_word_dec `{ByteValued T} addr : Decision (within_word T addr).
Proof. unfold within_word. apply _. Defined.

(** ** Witnesses: process 7, with 32 bytes at 0x1000 *)
#[local] Existing Instance x86_64_debug.

Definition example_world : toy :=
  Toy {[ 7 := store_list ∅ 0x1000 (byte_of <$> seqZ 0 32) ]} 0x4000 [].

Lemma example_accessible a n :
  forallb (λ i, bool_decide (is_Some (space example_world 7 !! (a + i)))) (seqZ 0 n) = true →
  accessible example_world 7 a n.
Proof.
  intros Hf. split; [by eexists|]. intros i Hi. rewrite forallb_forall in Hf.
  eapply bool_decide_eq_true_1, Hf, list_elem_of_In, elem_of_seqZ. lia.
Qed.

(** Closes the conditions of a theorem applied to the example. *)
Ltac by_word := solve
  [ by apply example_accessible; vm_compute | by vm_compute | by split; vm_compute
  | by left; vm_compute ].

Lemma process_load_value_witness :
  process_load u16 example_world 7 0x100a = Ret (Ok (from_bytes [x0a; x0b])).
Proof.
  apply (process_load_value (T := u16)); by_word.
Defined.

Lemma process_store_load_witness :
  ∃ w', process_store example_world 7 0x100a (uint_of 0xabcd : u16) = Ret (Ok tt, w') ∧
    space w' 7 = store_list (space example_world 7) 0x100a (as_slice (uint_of 0xabcd : u16)) ∧
    process_load u16 w' 7 0x100a = Ret (Ok (uint_of 0xabcd)).
Proof.
  apply (process_store_load (T := u16) example_world 7 0x100a); by_word.
Defined.

Lemma process_access_panics_witness :
  process_load u32 example_world 7 0x1008 = Panic ∧
  process_store example_world 7 0x1008 (uint_of 1 : u32) = Panic.
Proof. apply (process_access_panics (T := u32)); by_word. Defined.
