(* ===== verification/Concurrency.v ===== *)
(** * Accesses of several threads to the same memory

    The operations of the other files run alone.  Here they run as threads that
    take turns: a thread is what is left of a call, cut at the accesses that the
    source assumes to be atomic, and a schedule says whose turn it is.  For a
    copy by [copy_slice_volatile] ([src/src/volatile_memory.rs]) these are the
    volatile accesses, and for [process_load] and [process_store]
    ([src/src/remote_mem.rs]) the transfers of one aligned word, as the comment
    on [ALG] says.  Memory is sequentially consistent.

    The theorems: an aligned integer that is copied while others write it is
    never torn; stores into different words of another process do not disturb
    each other; of two stores into the same word one can be lost. *)

From S2P Require Import Prelude Memory PlainData AtomicIntegers Bytes CopySlice Os RemoteMem.

(** ** Threads and schedules *)
Section threads.
Context {W R : Type}.

#[local] Unset Elimination Schemes.
(** A call that returned, or one that waits for its next turn. *)
Inductive thread :=
| Finished (r : R)
| Running (turn : W → outcome (thread * W)).
#[local] Set Elimination Schemes.

(** A call that runs alone. *)
Fixpoint run_alone (t : thread) (w : W) : outcome (R * W) :=
  match t with
  | Finished r => Ret (r, w)
  | Running turn =>
      match turn w with
      | Ret (t', w') => run_alone t' w'
      | Panic => Panic
      | Undef => Undef
      | OutOfFuel => OutOfFuel
      end
  end.

(** The turn of thread [i], of those that share [w]. *)
Definition pool_turn (i : nat) (s : list thread * W) : outcome (list thread * W) :=
  match s.1 !! i with
  | Some (Running turn) => '(t, w) ← turn s.2; Ret (<[i := t]> s.1, w)
  | _ => Ret s
  end.
Fixpoint run_pool (schedule : list nat) (s : list thread * W) : outcome (list thread * W) :=
  match schedule with
  | [] => Ret s
  | i :: schedule => s ← pool_turn i s; run_pool schedule s
  end.

(** An invariant of every turn holds after every schedule. *)
Lemma run_pool_wp (Inv : list thread * W → Prop) schedule s :
  (∀ i s, Inv s → wp (pool_turn i s) Inv) → Inv s → wp (run_pool schedule s) Inv.
Proof.
  intros Hstep. revert s. induction schedule as [|i schedule IH]; intros s Hs; [done|].
  simpl. apply wp_bind. eapply wp_mono; [by apply Hstep|]. apply IH.
Qed.

Lemma run_pool_app schedule schedule' s :
  run_pool (schedule ++ schedule') s = (s ← run_pool schedule s; run_pool schedule' s).
Proof.
  revert s. induction schedule as [|i schedule IH]; intros s; [done|]. simpl.
  destruct (pool_turn i s); simpl; auto.
Qed.

(** A thread that returns within [n] turns. *)
Inductive within : nat → thread → Prop :=
| within_finished n r : within n (Finished r)
| within_running n turn :
    (∀ w t w', turn w = Ret (t, w') → within n t) → within (S n) (Running turn).

Lemma within_mono n k t : within n t → (n ≤ k)%nat → within k t.
Proof.
  intros Ht. revert k. induction Ht as [|n turn _ IH]; intros k Hk; [constructor|].
  destruct k as [|k]; [lia|]. constructor. intros. eapply IH; [done|lia].
Qed.

(** The turns of thread [i]. *)
Definition turns (i : nat) (schedule : list nat) : nat := length (filter (i =.) schedule).

Lemma pool_turn_within i j n t s s' :
  s.1 !! i = Some t → within n t → pool_turn j s = Ret s' →
  ∃ t', s'.1 !! i = Some t' ∧ within (if decide (i = j) then Nat.pred n else n) t'.
Proof.
  intros Ht Hn. unfold pool_turn.
  destruct (s.1 !! j) as [[r|turn]|] eqn:Ej.
  - intros [= <-]. exists t. split; [done|]. case_decide; [|done]. subst.
    rewrite Ht in Ej. injection Ej as ->. constructor.
  - destruct (turn s.2) as [[u w]| | |] eqn:Eu; simpl; [|done..]. intros [= <-]. simpl.
    case_decide as Eij.
    + subst. rewrite Ht in Ej. injection Ej as ->. exists u.
      rewrite list_lookup_insert_eq by (by eapply lookup_lt_Some).
      split; [done|]. inversion Hn; subst; simpl; eauto.
    + exists t. by rewrite list_lookup_insert_ne.
  - intros [= <-]. exists t. split; [done|]. case_decide; [|done]. congruence.
Qed.

Lemma run_pool_finishes schedule i n t s s' :
  s.1 !! i = Some t → within n t → run_pool schedule s = Ret s' →
  (n ≤ turns i schedule)%nat → ∃ r, s'.1 !! i = Some (Finished r).
Proof.
  unfold turns. revert n t s. induction schedule as [|j schedule IH]; intros n t s Ht Hn; simpl.
  - intros [= <-] ?. assert (n = 0)%nat as -> by lia. inversion Hn; subst. eauto.
  - destruct (pool_turn j s) as [s1| | |] eqn:Ej; simpl; [|done..]. intros Hr Hle.
    destruct (pool_turn_within i j n t s s1) as (t1 & Ht1 & Hw1); [done..|].
    eapply IH; [done..|]. rewrite filter_cons in Hle.
    destruct (decide (i = j)); simpl in Hle; lia.
Qed.
End threads.
Arguments thread : clear implicits.

(** A call that goes on with [k] when [t] returns. *)
Fixpoint bind_thread {W A B} (t : thread W A) (k : A → thread W B) : thread W B :=
  match t with
  | Finished a => k a
  | Running turn => Running (λ w,
      match turn w with
      | Ret (t', w') => Ret (bind_thread t' k, w')
      | Panic => Panic
      | Undef => Undef
      | OutOfFuel => OutOfFuel
      end)
  end.

Lemma run_alone_bind {W A B} (t : thread W A) (k : A → thread W B) w :
  run_alone (bind_thread t k) w = ('(a, w) ← run_alone t w; run_alone (k a) w).
Proof.
  revert t w. fix IH 1. intros [a|turn] w; simpl; [done|].
  destruct (turn w) as [[t' w']| | |]; simpl; [apply IH|done..].
Qed.

(** ** Invariants of what the threads share

    Every turn of a thread keeps the invariant when it finds it, and within [n] turns
    the thread returns something that satisfies [Q], whatever the others do to the
    shared state in the meantime as long as they keep the invariant too. *)
Section invariants.
Context {W : Type} (Inv : W → Prop).

Inductive ok_thread {R} (Q : R → Prop) : nat → thread W R → Prop :=
| ok_finished n r : Q r → ok_thread Q n (Finished r)
| ok_running n turn :
    (∀ w, Inv w → wp (turn w) (λ '(_, w'), Inv w')) →
    (∀ w t w', Inv w → turn w = Ret (t, w') → ok_thread Q n t) →
    ok_thread Q (S n) (Running turn).

Lemma ok_running_wp {R} (Q : R → Prop) n turn :
  (∀ w, Inv w → wp (turn w) (λ '(t, w'), ok_thread Q n t ∧ Inv w')) → ok_thread Q (S n) (Running turn).
Proof.
  intros Hw. constructor.
  - intros w Hi. eapply wp_mono; [by apply Hw|]. by intros [t w'] [_ ?].
  - intros w t w' Hi E. specialize (Hw w Hi). rewrite E in Hw. apply Hw.
Qed.
Lemma ok_running_inv {R} (Q : R → Prop) n turn w :
  ok_thread Q n (Running turn) → Inv w → wp (turn w) (λ '(t, w'), ok_thread Q (Nat.pred n) t ∧ Inv w').
Proof.
  intros Ht Hi. inversion Ht as [|? ? Hw Hok]; subst. specialize (Hw w Hi).
  destruct (turn w) as [[t w']| | |] eqn:E; [|done..]. split; [exact (Hok _ _ _ Hi E)|done].
Qed.
Lemma ok_finished_inv {R} (Q : R → Prop) n r : ok_thread Q n (Finished r) → Q r.
Proof. by inversion 1. Qed.
Lemma ok_mono {R} (P Q : R → Prop) n j t :
  ok_thread P n t → (n ≤ j)%nat → (∀ r, P r → Q r) → ok_thread Q j t.
Proof.
  intros Ht Hj Hpq. revert j Hj. induction Ht as [n r Hr|n turn Hw _ IH]; intros j Hj; [constructor; auto|].
  destruct j as [|j]; [lia|]. constructor; [done|]. intros. eapply IH; [done..|lia].
Qed.
Lemma ok_bind {A B} (Q : A → Prop) (P : B → Prop) n j t (k : A → thread W B) :
  ok_thread Q n t → (∀ a, Q a → ok_thread P j (k a)) → ok_thread P (n + j) (bind_thread t k).
Proof.
  intros Ht Hk. induction Ht as [n a Ha|n turn Hw Hok IH]; simpl.
  { eapply ok_mono; [by apply Hk|lia|done]. }
  constructor.
  - intros w Hi. specialize (Hw w Hi). by destruct (turn w) as [[]| | |].
  - intros w t' w' Hi. destruct (turn w) as [[t1 w1]| | |] eqn:E; [|done..]. intros [= <- <-]. by eapply IH.
Qed.

(** What follows takes no turn. *)
Lemma ok_bind_finished {A B} (Q : A → Prop) (P : B → Prop) n t (k : A → thread W B) :
  ok_thread Q n t → (∀ a, Q a → ok_thread P 0 (k a)) → ok_thread P n (bind_thread t k).
Proof. intros Ht Hk. eapply ok_mono; [by eapply ok_bind|lia|done]. Qed.

(** Under every schedule, the invariant holds and the threads stay on course; [ns] are
    the turns that they need at most. *)
Definition on_course {R} (Qs : list (R → Prop)) (ns : nat → nat) (ts : list (thread W R)) : Prop :=
  length ts = length Qs ∧
  ∀ i Q t, Qs !! i = Some Q → ts !! i = Some t → ok_thread Q (ns i) t.

Lemma pool_turn_rule {R} (Qs : list (R → Prop)) ns ts w i :
  Inv w → on_course Qs ns ts →
  wp (pool_turn i (ts, w)) (λ s, Inv s.2 ∧
    on_course Qs (λ j, if decide (j = i) then Nat.pred (ns j) else ns j) s.1).
Proof.
  intros Hi [Hl Hts]. unfold pool_turn. cbn [fst snd].
  destruct (ts !! i) as [[r|turn]|] eqn:Et.
  - split; [done|]. split; [done|]. cbn [fst]. intros j Q t HQ Ht. case_decide; [|by apply Hts]. subst. simplify_eq.
    constructor. eapply ok_finished_inv. by apply (Hts i).
  - destruct (lookup_lt_is_Some_2 Qs i) as [Q HQ]; [rewrite <-Hl; by eapply lookup_lt_Some|].
    apply wp_bind. eapply wp_mono; [by eapply ok_running_inv; [eapply Hts|]|]. intros [t w'] [Ht' Hi'].
    split; [done|]. cbn [fst]. split; [by rewrite length_insert|]. intros j Q' t' HQ' Hj.
    case_decide as Eij; [subst|by rewrite list_lookup_insert_ne in Hj by done; apply Hts].
    rewrite list_lookup_insert_eq in Hj by (by eapply lookup_lt_Some). by simplify_eq.
  - split; [done|]. split; [done|]. cbn [fst]. intros j Q t HQ Ht. case_decide; [congruence|by apply Hts].
Qed.
Lemma pool_rule {R} (Qs : list (R → Prop)) ns ts w schedule :
  Inv w → on_course Qs ns ts →
  wp (run_pool schedule (ts, w)) (λ s, Inv s.2 ∧ on_course Qs (λ i, ns i - turns i schedule)%nat s.1).
Proof.
  revert ns ts w. induction schedule as [|i schedule IH]; intros ns ts w Hi Hts.
  - split; [done|]. destruct Hts as [Hl Hts]. split; [done|]. intros j Q t HQ Ht.
    eapply ok_mono; [by apply (Hts j)|unfold turns; simpl; lia|done].
  - cbn [run_pool]. apply wp_bind. eapply wp_mono; [by apply pool_turn_rule|].
    intros [ts1 w1] [Hi1 Hts1]. eapply wp_mono; [by apply IH|]. intros [ts2 w2] [Hi2 [Hl2 Hts2]].
    split; [done|]. split; [done|]. intros j Q t HQ Ht. eapply ok_mono; [by apply (Hts2 j)| |done].
    unfold turns. rewrite filter_cons. repeat case_decide; simpl; subst; try lia; congruence.
Qed.

(** When all threads have had their turns, they have returned, with what their
    postconditions say. *)
Lemma pool_finished {R} (Qs : list (R → Prop)) ns ts w schedule :
  Inv w → on_course Qs ns ts → (∀ i, (i < length Qs)%nat → (ns i ≤ turns i schedule)%nat) →
  ∃ rs w', run_pool schedule (ts, w) = Ret (Finished <$> rs, w') ∧ Inv w' ∧ Forall2 (λ Q r, Q r) Qs rs.
Proof.
  intros Hi Hts Hn.
  destruct (wp_inv _ _ (pool_rule Qs ns ts w schedule Hi Hts)) as ([ts' w'] & E & Hi' & [Hl Hts']). cbn [fst snd] in *.
  assert (∃ rs, ts' = Finished <$> rs ∧ Forall2 (λ Q r, Q r) Qs rs) as (rs & -> & Hrs); [|by exists rs, w'].
  assert (∀ i Q t, Qs !! i = Some Q → ts' !! i = Some t → ok_thread Q 0 t) as H0.
  { intros i Q t HQ Ht. eapply ok_mono; [by apply (Hts' i)| |done].
    apply lookup_lt_Some in HQ. specialize (Hn i HQ). lia. }
  clear -Hl H0. revert Qs Hl H0. induction ts' as [|t ts' IH]; intros [|Q Qs] Hl H0; try done.
  { by exists []. }
  pose proof (H0 0%nat Q t eq_refl eq_refl) as Ht. inversion Ht as [? r Hr|]; subst.
  destruct (IH Qs) as (rs & -> & Hrs); [simpl in Hl; lia|intros i; apply (H0 (S i))|].
  exists (r :: rs). split; [done|by constructor].
Qed.
End invariants.

(** ** Accesses to the words of another process *)
Section remote.
Context `{Target} `{OS W}.
Implicit Types (w : W) (pid addr : Z).

(** The second turn of [process_store]: [process_write] of the word. *)
Definition store_turn pid aligned (data : list byte) : thread W (result unit RemoteError) :=
  Running (λ w, let '(r, w) := process_write (T := array u8 8) w pid aligned (from_bytes data) in
                Ret (Finished r, w)).

(** [process_store], which reads the word in one turn and writes it in another. *)
Definition process_store_thread {T} `{ByteValued T} pid addr (val : T)
    : outcome (thread W (result unit RemoteError)) :=
  let len := size_of T in
  _ ← rassert (len <=? ALG);
  '(aligned, offset) ← containing_word addr len;
  Ret (Running (λ w,
    match process_read (array u8 8) w pid aligned with
    | Err e => Ret (Finished (Err e), w)
    | Ok data =>
        last ← uadd usize_bits offset len;
        data ← update_range (as_slice data) offset last (any_as_bytes val);
        Ret (store_turn pid aligned data, w)
    end)).

(** [process_load] reads the word in its only turn. *)
Definition process_load_thread (T : Type) `{ByteValued T} pid addr
    : outcome (thread W (result T RemoteError)) :=
  let len := size_of T in
  _ ← rassert (len <=? ALG);
  '(aligned, offset) ← containing_word addr len;
  Ret (Running (λ w,
    match process_read (array u8 8) w pid aligned with
    | Err e => Ret (Finished (Err e), w)
    | Ok data =>
        last ← uadd usize_bits offset len;
        t_slice ← index_range (as_slice data) offset last;
        _ ← rassert (lenZ t_slice =? len);
        Ret (Finished (Ok (from_bytes t_slice)), w)
    end)).

(** Threads that run alone are the calls of [RemoteMem]. *)
Lemma process_store_alone {T} `{ByteValued T} w pid addr (val : T) :
  (t ← process_store_thread pid addr val; run_alone t w) = process_store w pid addr val.
Proof.
  unfold process_store_thread, process_store. destruct (rassert _); simpl; [|done..].
  destruct (containing_word _ _) as [[aligned offset]| | |]; simpl; [|done..].
  destruct (process_read _ _ _ _); simpl; [|done].
  destruct (uadd _ _ _); simpl; [|done..].
  destruct (update_range _ _ _ _); simpl; [|done..]. by destruct (process_write _ _ _ _).
Qed.
Lemma process_load_alone {T} `{ByteValued T} w pid addr :
  (t ← process_load_thread T pid addr; run_alone t w)
  = (r ← process_load T w pid addr; Ret (r, w)).
Proof.
  unfold process_load_thread, process_load. destruct (rassert _); simpl; [|done..].
  destruct (containing_word _ _) as [[aligned offset]| | |]; simpl; [|done..].
  destruct (process_read _ _ _ _); simpl; [|done].
  destruct (uadd _ _ _); simpl; [|done..].
  destruct (index_range _ _ _); simpl; [|done..]. by destruct (rassert _).
Qed.
End remote.

(** ** Stores of several threads *)
Section stores.
Context `{Target} `{RemoteSpec W} (pid : Z).
Implicit Types (w : W).

(** A call [process_store(pid, rq_addr, &rq_val)] that does not panic. *)
Record request := Request {
  rq_type : Type;
  rq_byte_valued :: ByteValued rq_type;
  rq_spec :: ByteValuedSpec rq_type;
  rq_addr : Z;
  rq_val : rq_type
}.
Definition rq_bytes (rq : request) : list byte := as_slice (rq_val rq).
Definition rq_word (rq : request) : Z := rq_addr rq - rq_addr rq `mod` 8.
Definition rq_thread (rq : request) : outcome (thread W (result unit RemoteError)) :=
  process_store_thread pid (rq_addr rq) (rq_val rq).
Definition store_request (rq : request) (m : mem) : mem := store_list m (rq_addr rq) (rq_bytes rq).

Record request_ok (m : mem) (rq : request) : Prop := {
  rq_low : 8 ≤ rq_addr rq;
  rq_high : rq_addr rq + 8 < 2 ^ usize_bits;
  rq_size : 0 < size_of (rq_type rq);
  rq_within : within_word (rq_type rq) (rq_addr rq);
  rq_mapped : mapped m (rq_word rq) 8
}.

Definition in_word (rq : request) (x : Z) : Prop := rq_word rq ≤ x < rq_word rq + 8.
(** Two memories with the same bytes in the word of [rq]. *)
Definition same_word (rq : request) (m m' : mem) : Prop := ∀ x, in_word rq x → m !! x = m' !! x.

(** The word with the value in it, as the second turn writes it. *)
Definition new_word (rq : request) (old : list byte) : list byte :=
  let k := rq_addr rq `mod` 8 in
  take (Z.to_nat k) old ++ rq_bytes rq ++ drop (Z.to_nat (k + lenZ (rq_bytes rq))) old.

(** The threads of a request: before its first turn, and between the two. *)
Definition store_start (rq : request) : thread W (result unit RemoteError) :=
  Running (λ w,
    match process_read (array u8 8) w pid (rq_word rq) with
    | Err e => Ret (Finished (Err e), w)
    | Ok data =>
        last ← uadd usize_bits (rq_addr rq `mod` 8) (size_of (rq_type rq));
        data ← update_range (as_slice data) (rq_addr rq `mod` 8) last (rq_bytes rq);
        Ret (store_turn pid (rq_word rq) data, w)
    end).

Section request.
Context (m0 : mem) (rq : request) (Hrq : request_ok m0 rq).

Lemma rq_bounds :
  0 < rq_addr rq `mod` 8 ∧ rq_addr rq `mod` 8 + lenZ (rq_bytes rq) ≤ 8 ∧
  lenZ (rq_bytes rq) = size_of (rq_type rq) ∧ rq_word rq + rq_addr rq `mod` 8 = rq_addr rq.
Proof.
  destruct (rq_within _ _ Hrq). pose proof (length_as_slice (rq_val rq)) as Hl.
  unfold rq_bytes, rq_word. rewrite Hl. lia.
Qed.

Lemma rq_thread_start : rq_thread rq = Ret (store_start rq).
Proof.
  destruct Hrq. unfold rq_thread, process_store_thread.
  destruct (containing_word_within (T := rq_type rq) (rq_addr rq)) as (E1 & E2 & E3); [done..|].
  by rewrite E1, E2.
Qed.

(** The word as it was: the first turn prepares it and changes nothing. *)
Lemma first_turn i ts w :
  ts !! i = Some (store_start rq) → attached w pid → same_word rq (space w pid) m0 →
  ∃ old, read_bytes m0 (rq_word rq) 8 = Ret old ∧
    pool_turn i (ts, w) = Ret (<[i := store_turn pid (rq_word rq) (new_word rq old)]> ts, w).
Proof.
  intros Hi Ha Hs. pose proof rq_bounds as (Hm & Hle & Hl & _).
  assert (mapped (space w pid) (rq_word rq) 8) as Hmap.
  { intros k Hk. rewrite Hs by (unfold in_word; lia). by apply Hrq. }
  destruct (word_read w pid (rq_word rq)) as (data & E & Hr); [by split|].
  pose proof Hr as Hr'. apply read_bytes_Ret in Hr' as [Hd Hx]; [|lia].
  exists (as_slice data). split.
  { apply read_bytes_Ret; [lia|]. split; [done|]. intros k Hk.
    rewrite <-Hx by done. symmetry. apply Hs. unfold in_word. lia. }
  unfold pool_turn. cbn [fst snd]. rewrite Hi. unfold store_start. rewrite E.
  rewrite uadd_ok; [|unfold in_bits; destruct Hrq; lia]. rewrite bind_ret.
  unfold update_range. rewrite Hd, !(proj2 (Z.leb_le _ _)), (proj2 (Z.eqb_eq _ _)) by lia.
  cbn [andb]. rewrite bind_ret. unfold new_word. by rewrite Hl.
Qed.

(** The second turn writes the value into the word as the first turn read it. *)
Lemma second_turn i ts w old :
  ts !! i = Some (store_turn pid (rq_word rq) (new_word rq old)) → attached w pid → mapped (space w pid) (rq_word rq) 8 →
  read_bytes m0 (rq_word rq) 8 = Ret old →
  ∃ w', pool_turn i (ts, w) = Ret (<[i := Finished (Ok tt)]> ts, w') ∧ attached w' pid ∧
    (∀ x, ¬ in_word rq x → space w' pid !! x = space w pid !! x) ∧
    same_word rq (space w' pid) (store_request rq m0).
Proof.
  intros Hi Ha Hmap Hr. pose proof rq_bounds as (Hm & Hle & Hl & Hw).
  assert (lenZ (new_word rq old) = 8) as Hn.
  { apply read_bytes_Ret in Hr as [? _]; [|lia].
    unfold new_word. rewrite !length_app, length_take, length_drop. lia. }
  pose proof (process_write_bytes_full w pid (rq_word rq) (new_word rq old)) as Hf.
  rewrite Hn in Hf. destruct (Hf (conj Ha Hmap)) as (w' & E & Hs & Ha').
  exists w'. split_and!; [|done|..].
  - unfold pool_turn. cbn [fst snd]. rewrite Hi. unfold store_turn, process_write, any_as_bytes. rewrite as_slice_from by done. by rewrite E.
  - intros x Hx. rewrite Hs, lookup_store_list, decide_False; [done|].
    unfold in_word in Hx. lia.
  - intros x Hx. unfold store_request. rewrite Hs, <-Hw.
    rewrite <-(store_list_window m0 (rq_word rq) 8 old) by (done || lia).
    fold (new_word rq old). rewrite !lookup_store_list, !decide_True by (unfold in_word in *; lia).
    done.
Qed.
End request.

Lemma store_request_outside m rq x :
  request_ok m rq → ∀ m', ¬ in_word rq x → store_request rq m' !! x = m' !! x.
Proof.
  intros Hrq m' Hx. pose proof (rq_bounds m rq Hrq) as (? & ? & ? & ?).
  unfold store_request. rewrite lookup_store_list, decide_False; [done|].
  unfold in_word in Hx. lia.
Qed.



Section pool.
Context (m0 : mem) (rqs : list request).
Context (Hok : Forall (request_ok m0) rqs) (Hnd : NoDup (rq_word <$> rqs)).







End pool.


(** Two memories that differ in the word of a request at most. *)
Lemma word_eq rq m m' m1 :
  request_ok m1 rq → (∀ x, ¬ in_word rq x → m' !! x = m !! x) →
  same_word rq m' (store_request rq m) → m' = store_request rq m.
Proof.
  intros Hrq Hout Hin. apply map_eq. intros x. destruct (decide (rq_word rq ≤ x < rq_word rq + 8)).
  - by apply Hin.
  - rewrite (store_request_outside m1) by done. by apply Hout.
Qed.
Lemma request_ok_store m rq rq' : request_ok m rq → request_ok (store_request rq' m) rq.
Proof. intros []. constructor; try done. by apply mapped_store_list. Qed.

(** Two turns in a row store the value. *)
Lemma both_turns rq i ts w :
  ts !! i = Some (store_start rq) → attached w pid → request_ok (space w pid) rq →
  ∃ w', run_pool [i; i] (ts, w) = Ret (<[i := Finished (Ok tt)]> ts, w') ∧ attached w' pid ∧
    space w' pid = store_request rq (space w pid).
Proof.
  intros Hi Ha Hok.
  destruct (first_turn _ _ Hok i ts w) as (old & Hr & E1); [done..|].
  destruct (second_turn _ _ Hok i (<[i := store_turn pid (rq_word rq) (new_word rq old)]> ts) w old)
    as (w1 & E2 & Ha1 & Hout & Hin); [|done|apply Hok|done|].
  { apply list_lookup_insert_eq. by eapply lookup_lt_Some. }
  exists w1. cbn [run_pool]. rewrite E1, bind_ret, E2, bind_ret, list_insert_insert_eq.
  split_and!; [done..|]. by eapply word_eq.
Qed.

(** C31: [process_store] is not atomic.  Of two calls that store into the same
    word, when both read the word before either writes it, the second to write
    undoes the store of the first: both report success, and memory is as if the
    first call had not been made, so that a value of the first that does not
    overlap the second is lost.  One call after the other, both values are stored. *)
Theorem process_store_race w rq1 rq2 :
  attached w pid → request_ok (space w pid) rq1 → request_ok (space w pid) rq2 →
  rq_word rq1 = rq_word rq2 →
  disjoint_ranges (rq_addr rq2) (lenZ (rq_bytes rq2)) (rq_addr rq1) (lenZ (rq_bytes rq1)) →
  ∃ t1 t2, rq_thread rq1 = Ret t1 ∧ rq_thread rq2 = Ret t2 ∧
    (∃ w', run_pool [0; 1; 0; 1]%nat ([t1; t2], w) = Ret ([Finished (Ok tt); Finished (Ok tt)], w') ∧
       space w' pid = store_request rq2 (space w pid) ∧
       read_bytes (space w' pid) (rq_addr rq1) (lenZ (rq_bytes rq1))
       = read_bytes (space w pid) (rq_addr rq1) (lenZ (rq_bytes rq1))) ∧
    (∃ w', run_pool [0; 0; 1; 1]%nat ([t1; t2], w) = Ret ([Finished (Ok tt); Finished (Ok tt)], w') ∧
       space w' pid = store_request rq2 (store_request rq1 (space w pid))).
Proof.
  intros Ha Hok1 Hok2 Hw Hd. exists (store_start rq1), (store_start rq2).
  split_and!; [by eapply rq_thread_start..| |].
  - destruct (first_turn _ _ Hok1 0 [store_start rq1; store_start rq2] w) as (old1 & Hr1 & E1); [done..|].
    destruct (first_turn _ _ Hok2 1 [store_turn pid (rq_word rq1) (new_word rq1 old1); store_start rq2] w)
      as (old2 & Hr2 & E2); [done..|].
    destruct (second_turn _ _ Hok1 0 [store_turn pid (rq_word rq1) (new_word rq1 old1);
      store_turn pid (rq_word rq2) (new_word rq2 old2)] w old1) as (w1 & E3 & Ha1 & Hout1 & Hin1);
      [done..|apply Hok1|done|].
    assert (space w1 pid = store_request rq1 (space w pid)) as Hs1 by (by eapply word_eq).
    destruct (second_turn _ _ Hok2 1 [Finished (Ok tt); store_turn pid (rq_word rq2) (new_word rq2 old2)]
      w1 old2) as (w2 & E4 & Ha2 & Hout2 & Hin2); [done..| |done|].
    { rewrite Hs1. apply mapped_store_list, Hok2. }
    exists w2. cbn [run_pool]. rewrite E1, bind_ret. cbn [run_pool list_insert insert].
    rewrite E2, bind_ret. cbn [list_insert insert].
    rewrite E3, bind_ret. cbn [list_insert insert]. rewrite E4. split; [done|].
    assert (space w2 pid = store_request rq2 (space w pid)) as Hs2.
    { eapply word_eq; [done| |done]. intros x Hx. rewrite Hout2, Hout1; [done| |done].
      unfold in_word in *. by rewrite Hw. }
    split; [done|]. rewrite Hs2. unfold store_request. by rewrite read_bytes_store_disjoint.
  - destruct (both_turns rq1 0 [store_start rq1; store_start rq2] w) as (w1 & E1 & Ha1 & Hs1); [done..|].
    destruct (both_turns rq2 1 [Finished (Ok tt); store_start rq2] w1) as (w2 & E2 & Ha2 & Hs2); [done..| |].
    { rewrite Hs1. by apply request_ok_store. }
    exists w2. change [0; 0; 1; 1]%nat with ([0; 0] ++ [1; 1])%nat.
    rewrite run_pool_app, E1, bind_ret. cbn [list_insert insert]. rewrite E2. split; [done|].
    by rewrite Hs2, Hs1.
Qed.
End stores.

(** ** Copies by volatile accesses *)
Section copies.
Context `{Target}.
Implicit Types (m : mem) (dst src : slice).

(** What is left of a copy: its accesses, each one call of [copy_single]. *)
Fixpoint accesses_thread (log : list (Z * Z * Z)) : thread mem unit :=
  match log with
  | [] => Finished tt
  | (src_addr, dst_addr, width) :: log =>
      Running (λ m, m ← copy_single m width src_addr dst_addr; Ret (accesses_thread log, m))
  end.
(** [copy_slice_volatile]: which accesses it makes depends on the addresses
    only ([copy_slice_run_log]), so any memory in which it runs gives them. *)
Definition copy_thread m dst src : outcome (thread mem unit) :=
  s ← copy_slice_run m dst src;
  Ret (accesses_thread (cs_log s)).

(** Two states of a copy in different memories. *)
Definition same_access (s t : copy_state) : Prop :=
  cs_src s = cs_src t ∧ cs_dst s = cs_dst t ∧ cs_left s = cs_left t ∧ cs_log s = cs_log t.

Lemma copy_aligned_slice_related align w s t s' t' :
  same_access s t → copy_aligned_slice align w s = Ret s' → copy_aligned_slice align w t = Ret t' →
  same_access s' t'.
Proof.
  apply while_loop_related. clear.
  intros [a1 b1 l1 m1 g1] [a2 b2 l2 m2 g2] rs rt (E1 & E2 & E3 & E4).
  cbn [cs_src cs_dst cs_left cs_log cs_mem] in *. subst.
  destruct (_ && _); [|by intros [= <-] [= <-]].
  destruct (copy_single m1 _ _ _), (copy_single m2 _ _ _); simpl; try done.
  destruct (uadd _ a2 _); simpl; [|done..]. destruct (uadd _ b2 _); simpl; [|done..].
  destruct (usub _ _ _); simpl; [|done..]. by intros [= <-] [= <-].
Qed.
Lemma bind_related {A} (P : A → A → Prop) {B} (Q : B → B → Prop) (o o' : outcome A) (f f' : A → outcome B) :
  (∀ a a', o = Ret a → o' = Ret a' → P a a') →
  (∀ a a', P a a' → ∀ b b', f a = Ret b → f' a' = Ret b' → Q b b') →
  ∀ b b', (o ≫= f) = Ret b → (o' ≫= f') = Ret b' → Q b b'.
Proof.
  intros Ho Hf b b'. destruct o as [a| | |], o' as [a'| | |]; simpl; try done. apply Hf. by apply Ho.
Qed.
Lemma copy_slice_run_log m m' dst src s s' :
  copy_slice_run m dst src = Ret s → copy_slice_run m' dst src = Ret s' → cs_log s = cs_log s'.
Proof.
  intros E E'. enough (same_access s s') as (_ & _ & _ & ?) by done. revert s s' E E'.
  unfold copy_slice_run.
  apply (bind_related eq); [congruence|]. intros a ? <-.
  apply (bind_related eq); [congruence|]. intros b ? <-.
  apply (bind_related same_access).
  { destruct (4 <? usize_bytes); intros ??; [by apply copy_aligned_slice_related|]. by intros [= <-] [= <-]. }
  intros s s' Hs. apply (bind_related same_access); [intros ??; by apply copy_aligned_slice_related|].
  clear s s' Hs. intros s s' Hs.
  apply (bind_related same_access); [intros ??; by apply copy_aligned_slice_related|].
  clear s s' Hs. intros s s' Hs ??. by apply copy_aligned_slice_related.
Qed.

(** A copy whose accesses nothing interrupts is [copy_slice_volatile]. *)
Lemma run_accesses_snoc log a m :
  run_alone (accesses_thread (log ++ [a])) m =
  ('(_, m) ← run_alone (accesses_thread log) m; run_alone (accesses_thread [a]) m).
Proof.
  revert m. induction log as [|[[p q] w] log IH]; intros m; simpl; [done|].
  destruct (copy_single m w p q); simpl; [|done..]. apply IH.
Qed.
Lemma copy_thread_alone m dst src bs :
  slice_ok m dst → slice_ok m src → disjoint_slices dst src → contents m src bs →
  (t ← copy_thread m dst src; run_alone t m) = (s ← copy_slice_run m dst src; Ret (tt, cs_mem s)).
Proof.
  intros Hdst Hsrc Hd Hbs. unfold copy_thread.
  destruct (copy_slice_run_spec m dst src bs) as (log & -> & Hch & _); [done..|]. simpl.
  induction Hch as [|log p w Hch IH Hw Hs Hd' Hle]; [done|].
  rewrite run_accesses_snoc, IH. simpl.
  rewrite (copy_single_copied m dst src bs); try done. by apply chain_nonneg in Hch.
Qed.

(** An access of a copy: [w] bytes at offset [p] of [src] and of [dst]. *)
Definition access_ok dst src (a : Z * Z * Z) (p w : Z) : Prop :=
  a = (s_ptr src + p, s_ptr dst + p, w) ∧ (w = 8 ∨ w = 4 ∨ w = 2 ∨ w = 1) ∧
  (w | s_ptr src + p) ∧ (w | s_ptr dst + p) ∧ 0 ≤ p.

Lemma chain_access dst src log k a :
  chain dst src log k → a ∈ log → ∃ p w, access_ok dst src a p w ∧ p + w ≤ k.
Proof.
  intros Hc. revert a.
  induction Hc as [|log p w Hc IH Hw Hs Hd Hle]; [by intros ? ?%not_elem_of_nil|].
  pose proof (chain_nonneg _ _ _ _ Hc). intros a. rewrite elem_of_app, list_elem_of_singleton. intros [Ha | ->].
  - destruct (IH a Ha) as (p' & w' & ? & ?). exists p', w'. split; [done|lia].
  - exists p, w. split; [done|lia].
Qed.
Lemma chain_length dst src log k : chain dst src log k → lenZ log ≤ k.
Proof. induction 1; [done|]. rewrite length_app. simpl. lia. Qed.

(** Two accesses of a copy are the same one, or one is before the other. *)
Lemma chain_disjoint dst src log k p w p' w' :
  chain dst src log k →
  (s_ptr src + p, s_ptr dst + p, w) ∈ log → (s_ptr src + p', s_ptr dst + p', w') ∈ log →
  (p = p' ∧ w = w') ∨ p + w ≤ p' ∨ p' + w' ≤ p.
Proof.
  induction 1 as [|log q v Hc IH Hw Hs Hd Hle]; [by intros ?%elem_of_nil|].
  assert (∀ p w, (s_ptr src + p, s_ptr dst + p, w) ∈ log → p + w ≤ q) as Hb.
  { intros p1 w1 Hin. destruct (chain_access _ _ _ _ _ Hc Hin) as (p2 & w2 & (E & _) & ?).
    simplify_eq. lia. }
  rewrite !elem_of_app, !list_elem_of_singleton. intros [H1|E1] [H2|E2].
  - auto.
  - simplify_eq. apply Hb in H1. lia.
  - simplify_eq. apply Hb in H2. lia.
  - simplify_eq. left. lia.
Qed.

(** The accesses of a copy, seen from a chunk of [c] bytes at offset [o]: one of
    them transfers it whole, and the others do not touch it. *)
Definition covers (o c p w : Z) : Prop := p ≤ o ∧ o + c ≤ p + w.
Definition chunk_access dst src (n o c : Z) (a : Z * Z * Z) : Prop :=
  ∃ p w, access_ok dst src a p w ∧ p + w ≤ n ∧ (covers o c p w ∨ p + w ≤ o ∨ o + c ≤ p).
Definition covering dst src (o c : Z) (a : Z * Z * Z) : Prop :=
  ∃ p w, a = (s_ptr src + p, s_ptr dst + p, w) ∧ covers o c p w.

Lemma copy_thread_accesses m dst src bs i :
  slice_ok m dst → slice_ok m src → disjoint_slices dst src → contents m src bs →
  0 ≤ i → 2 ^ i ≤ usize_bytes → (2 ^ i | s_ptr src) → (2 ^ i | s_ptr dst) →
  let n := Z.min (s_len src) (s_len dst) in
  ∃ log, copy_thread m dst src = Ret (accesses_thread log) ∧ lenZ log ≤ n ∧
    ∀ o, 0 ≤ o → (2 ^ i | o) → o + 2 ^ i ≤ n →
      Forall (chunk_access dst src n o (2 ^ i)) log ∧ Exists (covering dst src o (2 ^ i)) log.
Proof.
  intros Hdst Hsrc Hdisj Hbs Hi Hus Hs Hd n.
  destruct (copy_slice_run_spec m dst src bs) as (log & E & Hch & Hcov); [done..|].
  exists log. unfold copy_thread. rewrite E. split_and!; [done|by eapply chain_length|].
  intros o Ho Hio Hle.
  assert (i ≤ 3) as Hi3.
  { assert (usize_bytes ≤ 2 ^ 3) by (destruct usize_bits_cases as [[_ ->]|[_ ->]]; done).
    apply (Z.pow_le_mono_r_iff 2); lia. }
  destruct (Hcov i ltac:(lia) Hus Hs Hd o Ho Hio Hle) as (p0 & w0 & Hin0 & Hc1 & Hc2).
  split; cycle 1.
  { apply list.Exists_exists. eexists. split; [done|]. by exists p0, w0. }
  apply list.Forall_forall. intros a Ha.
  destruct (chain_access _ _ _ _ _ Hch Ha) as (p & w & Hok & Hpw). exists p, w. split_and!; [done..|].
  pose proof Hok as (-> & _). unfold covers.
  destruct (chain_disjoint _ _ _ _ _ _ _ _ Hch Ha Hin0) as [[-> ->]|[?|?]]; [by left|right; lia..].
Qed.

(** One access: the destination changes in its bytes only, and a chunk that it
    does not tear is afterwards the one of the source or what it was. *)
Lemma chunk_access_turn m dst src n o c a :
  chunk_access dst src n o c a → mapped m (s_ptr src) n → mapped m (s_ptr dst) n → 0 < c →
  ∃ m', copy_single m a.2 a.1.1 a.1.2 = Ret m' ∧
    (∀ x, is_Some (m !! x) → is_Some (m' !! x)) ∧
    (∀ b k, disjoint_ranges (s_ptr dst) n b k → read_bytes m' b k = read_bytes m b k) ∧
    ((covering dst src o c a ∧ read_bytes m' (s_ptr dst + o) c = read_bytes m (s_ptr src + o) c) ∨
     (¬ covering dst src o c a ∧ read_bytes m' (s_ptr dst + o) c = read_bytes m (s_ptr dst + o) c)).
Proof.
  intros (p & w & (-> & Hw & Hds & Hdd & Hp) & Hle & Hcase) Hms Hmd Hc. cbn [fst snd].
  destruct (read_bytes_mapped m (s_ptr src + p) w) as (bs & Hr & Hl); [lia|by apply (mapped_mono _ (s_ptr src) n); [|lia..]|].
  exists (store_list m (s_ptr dst + p) bs). split_and!.
  - unfold copy_single.
    assert ((w =? 8) || (w =? 4) || (w =? 2) || (w =? 1) = true) as -> by lia.
    rewrite read_volatile_aligned, Hr, bind_ret by (apply Z.mod_divide; [lia|done]).
    rewrite write_volatile_aligned by (apply Z.mod_divide; [lia|done]).
    apply write_bytes_mapped. rewrite Hl. by apply (mapped_mono _ (s_ptr dst) n); [|lia..].
  - intros x Hx. rewrite lookup_store_list. case_decide; [|done]. apply lookup_lt_is_Some. lia.
  - intros b k Hd. apply read_bytes_store_disjoint. unfold disjoint_ranges in *. lia.
  - destruct (decide (p ≤ o ∧ o + c ≤ p + w)) as [Hco|Hco].
    + left. split; [by exists p, w|].
      pose proof (read_back m (s_ptr dst + p) bs) as Hb. rewrite Hl in Hb.
      replace (s_ptr dst + o) with (s_ptr dst + p + (o - p)) by lia.
      rewrite (read_bytes_sub _ _ w bs) by (done || lia).
      replace (s_ptr src + o) with (s_ptr src + p + (o - p)) by lia.
      symmetry. apply (read_bytes_sub _ _ w bs); (done || lia).
    + right. split.
      * intros (p' & w' & E & Hcv). simplify_eq. unfold covers in Hcv.
        assert (p = p') as <- by lia. done.
      * apply read_bytes_store_disjoint. unfold covers, disjoint_ranges in *. lia.
Qed.

(** A variable [x] that the threads of [ws] write, each from a buffer of its
    own, while another thread copies it to its buffer [b]. *)
Record shared_ok m (x b : slice) (ws : list slice) (old : list byte) (vals : list (list byte)) (n i : Z) : Prop := {
  sh_slices : Forall (λ s, slice_ok m s ∧ s_len s = n ∧ (2 ^ i | s_ptr s)) (x :: b :: ws);
  sh_exponent : 0 ≤ i;
  sh_width : 2 ^ i ≤ usize_bytes;
  sh_length : 2 ^ i ≤ n;
  sh_reader : disjoint_slices x b;
  sh_writers : Forall (λ a, disjoint_slices x a ∧ disjoint_slices b a) ws;
  sh_old : contents m x old;
  sh_vals : Forall2 (contents m) ws vals
}.

(** The [c] bytes at offset [o]. *)
Definition chunk (o c : Z) (v : list byte) : list byte := take (Z.to_nat c) (drop (Z.to_nat o) v).

Section sharing.
Context (m0 : mem) (x b : slice) (ws : list slice) (old : list byte) (vals : list (list byte)) (n i : Z).
Context (Hsh : shared_ok m0 x b ws old vals n i).
Context (o : Z) (Ho : 0 ≤ o) (Hle : o + 2 ^ i ≤ n).

(** The chunk at [p] is that of a value which was in [x] at some time. *)
Definition whole m (p : Z) : Prop :=
  ∃ v, v ∈ old :: vals ∧ read_bytes m (p + o) (2 ^ i) = Ret (chunk o (2 ^ i) v).

Definition shared_inv (s : list (thread mem unit) * mem) : Prop :=
  let '(ts, m) := s in
  (∀ y, is_Some (m0 !! y) → is_Some (m !! y)) ∧
  Forall2 (λ a v, read_bytes m (s_ptr a) n = Ret v) ws vals ∧
  whole m (s_ptr x) ∧
  length ts = S (length ws) ∧
  (∀ j a, ws !! j = Some a →
    ∃ l, ts !! j = Some (accesses_thread l) ∧ Forall (chunk_access x a n o (2 ^ i)) l) ∧
  (∃ l, ts !! length ws = Some (accesses_thread l) ∧ Forall (chunk_access b x n o (2 ^ i)) l ∧
    (Exists (covering b x o (2 ^ i)) l ∨ whole m (s_ptr b))).

Lemma chunk_pos : 0 < 2 ^ i.
Proof. apply pow2_pos, Hsh. Qed.
Lemma sh_x : x ∈ x :: b :: ws.
Proof. apply elem_of_cons. by left. Qed.
Lemma sh_b : b ∈ x :: b :: ws.
Proof. apply elem_of_cons. right. apply elem_of_cons. by left. Qed.
Lemma sh_ws a : a ∈ ws → a ∈ x :: b :: ws.
Proof. intros. rewrite !elem_of_cons. auto. Qed.
Lemma sh_mapped m s :
  s ∈ x :: b :: ws → (∀ y, is_Some (m0 !! y) → is_Some (m !! y)) → mapped m (s_ptr s) n.
Proof.
  intros Hs Hm k Hk. apply Hm.
  destruct (proj1 (list.Forall_forall _ _) (sh_slices _ _ _ _ _ _ _ _ Hsh) s Hs) as ([_ _ _ Hmap] & <- & _).
  by apply Hmap.
Qed.
(** Distinct buffers, as ranges. *)
Lemma sh_disjoint_writer a :
  a ∈ ws → disjoint_ranges (s_ptr x) n (s_ptr a) n ∧ disjoint_ranges (s_ptr b) n (s_ptr a) n.
Proof.
  intros Ha. destruct Hsh as [Hs _ _ _ _ Hd _ _].
  apply list.Forall_forall with (x := a) in Hd; [|done].
  rewrite list.Forall_forall in Hs.
  destruct (Hs x sh_x) as (_ & Ex & _).
  destruct (Hs b sh_b) as (_ & Eb & _).
  destruct (Hs a (sh_ws a Ha)) as (_ & Ea & _).
  unfold disjoint_slices in Hd. by rewrite Ex, Eb, Ea in Hd.
Qed.
Lemma sh_disjoint_reader : disjoint_ranges (s_ptr x) n (s_ptr b) n.
Proof.
  destruct Hsh as [Hs _ _ _ Hd _ _ _]. rewrite list.Forall_forall in Hs.
  destruct (Hs x sh_x) as (_ & Ex & _).
  destruct (Hs b sh_b) as (_ & Eb & _).
  unfold disjoint_slices in Hd. by rewrite Ex, Eb in Hd.
Qed.

(** The buffers of the writers do not change. *)
Lemma writers_unchanged m m' (d : slice) :
  d = x ∨ d = b →
  (∀ p k, disjoint_ranges (s_ptr d) n p k → read_bytes m' p k = read_bytes m p k) →
  Forall2 (λ a v, read_bytes m (s_ptr a) n = Ret v) ws vals →
  Forall2 (λ a v, read_bytes m' (s_ptr a) n = Ret v) ws vals.
Proof.
  intros Hd Hout Hf. apply Forall2_same_length_lookup in Hf as [Hlen Hf].
  apply Forall2_same_length_lookup. split; [done|]. intros j a v Hj Hv.
  rewrite Hout; [by eapply Hf|]. destruct (sh_disjoint_writer a); [by eapply list_elem_of_lookup_2|].
  by destruct Hd as [-> | ->].
Qed.
Lemma whole_unchanged m m' (p : Z) :
  read_bytes m' (p + o) (2 ^ i) = read_bytes m (p + o) (2 ^ i) → whole m p → whole m' p.
Proof. intros E (v & ? & ?). exists v. by rewrite E. Qed.
Lemma disjoint_chunk p q :
  disjoint_ranges p n q n → disjoint_ranges p n (q + o) (2 ^ i).
Proof. unfold disjoint_ranges. lia. Qed.

(** The turn of a writer. *)
Lemma writer_turn ts m j a :
  shared_inv (ts, m) → ws !! j = Some a → wp (pool_turn j (ts, m)) shared_inv.
Proof.
  intros Hinv Hj. pose proof Hinv as (Hm & Hvals & Hx & Hlen & Hw & l' & Hr & Hrl & Hrb).
  destruct (Hw j a Hj) as ([|[[p q] w] l] & Hl & Hall); unfold pool_turn; cbn [fst snd]; rewrite Hl; [done|].
  cbn [accesses_thread]. apply Forall_cons_iff in Hall as [Ha Hall].
  assert (a ∈ ws) as Hin by (by eapply list_elem_of_lookup_2).
  destruct (chunk_access_turn m _ _ _ _ _ _ Ha) as (m' & E & Hm' & Hout & Hc);
    [apply sh_mapped; auto using sh_x, sh_b, sh_ws..|apply chunk_pos|].
  cbn [fst snd] in E. rewrite E, !bind_ret.
  pose proof (lookup_lt_Some _ _ _ Hj) as Hlt.
  split_and!.
  - auto.
  - by eapply (writers_unchanged _ _ x); [left|..].
  - destruct Hc as [[_ Ec]|[_ Ec]]; [|by eapply whole_unchanged].
    destruct (Forall2_lookup_l _ _ _ _ _ Hvals Hj) as (v & Hv & Hav).
    exists v. split; [apply elem_of_cons; right; by eapply list_elem_of_lookup_2|].
    rewrite Ec. apply (read_bytes_sub _ _ n); [lia|done|done|pose proof chunk_pos; lia|lia].
  - by rewrite length_insert.
  - intros k a' Hk. destruct (decide (j = k)) as [<-|].
    + rewrite list_lookup_insert_eq by lia. simplify_eq. eauto.
    + rewrite list_lookup_insert_ne by done. eauto.
  - exists l'. rewrite list_lookup_insert_ne by lia. split_and!; [done..|].
    destruct Hrb as [?|Hb]; [by left|]. right. eapply whole_unchanged; [|done].
    apply Hout, disjoint_chunk, sh_disjoint_reader.
Qed.

(** The turn of the reader. *)
Lemma reader_turn ts m :
  shared_inv (ts, m) → wp (pool_turn (length ws) (ts, m)) shared_inv.
Proof.
  intros Hinv. pose proof Hinv as (Hm & Hvals & Hx & Hlen & Hw & l & Hl & Hall & Hrb).
  unfold pool_turn; cbn [fst snd]; rewrite Hl. destruct l as [|[[p q] w] l]; [done|].
  cbn [accesses_thread]. apply Forall_cons_iff in Hall as [Ha Hall].
  destruct (chunk_access_turn m _ _ _ _ _ _ Ha) as (m' & E & Hm' & Hout & Hc);
    [apply sh_mapped; auto using sh_x, sh_b, sh_ws..|apply chunk_pos|].
  cbn [fst snd] in E. rewrite E, !bind_ret.
  split_and!.
  - auto.
  - by eapply (writers_unchanged _ _ b); [right|..].
  - eapply whole_unchanged; [|done]. apply Hout, disjoint_chunk.
    pose proof sh_disjoint_reader as Hd. unfold disjoint_ranges in *. lia.
  - by rewrite length_insert.
  - intros k a' Hk. pose proof (lookup_lt_Some _ _ _ Hk).
    rewrite list_lookup_insert_ne by lia. eauto.
  - exists l. rewrite list_lookup_insert_eq by lia. split_and!; [done..|].
    destruct Hc as [[_ Ec]|[Hn Ec]].
    + right. destruct Hx as (v & ? & ?). exists v. by rewrite Ec.
    + destruct Hrb as [[?|?]%Exists_cons|Hb]; [done|by left|right; by eapply whole_unchanged].
Qed.

Lemma shared_inv_turn k s : shared_inv s → wp (pool_turn k s) shared_inv.
Proof.
  destruct s as [ts m]. intros Hinv. destruct (ws !! k) as [a|] eqn:Ek; [by eapply writer_turn|].
  apply lookup_ge_None in Ek. destruct (decide (k = length ws)) as [->|]; [by apply reader_turn|].
  pose proof Hinv as (_ & _ & _ & Hlen & _). unfold pool_turn. cbn [fst].
  by rewrite (proj2 (lookup_ge_None ts k)) by lia.
Qed.
End sharing.

Lemma Forall2_choice {A B} (P : A → B → Prop) (l : list A) :
  (∀ a, a ∈ l → ∃ b, P a b) → ∃ k, Forall2 P l k.
Proof.
  induction l as [|a l IH]; intros Hl; [by exists []|].
  destruct (Hl a) as [b ?]; [by left|]. destruct IH as [k ?]; [intros; apply Hl; by right|].
  exists (b :: k). by constructor.
Qed.
Lemma accesses_within log : within (length log) (accesses_thread log).
Proof.
  induction log as [|[[p q] w] log IH]; [constructor|]. constructor. intros m t m'.
  destruct (copy_single _ _ _ _); simpl; [|done..]. by intros [= <- <-].
Qed.

Section threads_of_copies.
Context m x b ws old vals n i (Hsh : shared_ok m x b ws old vals n i).

(** The threads that start in the state [m]. *)
Lemma copy_threads_start :
  ∃ ts rlog, Forall2 (λ a t, copy_thread m x a = Ret t) ws ts ∧
    copy_thread m b x = Ret (accesses_thread rlog) ∧ lenZ rlog ≤ n ∧
    ∀ o, 0 ≤ o → (2 ^ i | o) → o + 2 ^ i ≤ n →
      shared_inv m x b ws old vals n i o (ts ++ [accesses_thread rlog], m).
Proof.
  pose proof Hsh as [Hsl Hi Hw Hln Hrd Hwr Hold Hvals]. rewrite list.Forall_forall in Hsl.
  destruct (Hsl x (sh_x _ _ _)) as (Hx & Lx & Dx). destruct (Hsl b (sh_b _ _ _)) as (Hb & Lb & Db).
  assert (disjoint_slices b x) as Hrd' by (unfold disjoint_slices, disjoint_ranges in *; lia).
  destruct (copy_thread_accesses m b x old i) as (rlog & Er & Hlen & Hro); [done..|].
  rewrite Lx, Lb, Z.min_id in Hlen, Hro.
  destruct (Forall2_choice (λ a t, copy_thread m x a = Ret t ∧ ∃ l, t = accesses_thread l ∧
    ∀ o, 0 ≤ o → (2 ^ i | o) → o + 2 ^ i ≤ n → Forall (chunk_access x a n o (2 ^ i)) l) ws) as [ts Hts].
  { intros a Ha. destruct (Hsl a (sh_ws _ _ _ a Ha)) as (Hal & La & Da).
    apply list_elem_of_lookup in Ha as [j Hj].
    destruct (Forall2_lookup_l _ _ _ _ _ Hvals Hj) as (v & _ & Hv).
    destruct (Forall_lookup_1 _ _ _ _ Hwr Hj) as [Hd _].
    destruct (copy_thread_accesses m x a v i) as (l & El & _ & Hlo); [done..|].
    rewrite Lx, La, Z.min_id in Hlo. eexists. split; [done|]. exists l. split; [done|].
    intros. by apply Hlo. }
  exists ts, rlog. split_and!; [eapply Forall2_impl; [|exact Hts]; by intros ?? [? _]|done..|].
  intros o Ho Hdo Hle. pose proof (Forall2_length Hts) as Hlt.
  split_and!; [done| | | | |].
  - apply Forall2_same_length_lookup in Hvals as [Hlv Hvals].
    apply Forall2_same_length_lookup. split; [done|]. intros j a v Hj Hv.
    pose proof (Hvals j a v Hj Hv) as Hc.
    destruct (Hsl a) as (_ & <- & _); [by eapply sh_ws, list_elem_of_lookup_2|done].
  - exists old. split; [by left|]. unfold contents in Hold. rewrite Lx in Hold.
    apply (read_bytes_sub _ _ n); [lia|done|done|lia|lia].
  - rewrite length_app. simpl. lia.
  - intros j a Hj. destruct (Forall2_lookup_l _ _ _ _ _ Hts Hj) as (t & Ht & _ & l & -> & Hl).
    exists l. rewrite lookup_app_l by (by eapply lookup_lt_Some). auto.
  - exists rlog. rewrite Hlt, list_lookup_middle by done. destruct (Hro o) as [??]; [done..|]. auto.
Qed.
End threads_of_copies.

(** C23: no torn values.  Any number of threads copy values from their buffers
    into a variable with [copy_slice_volatile], while another thread copies the
    variable into its own buffer, and the accesses happen in any order.  No
    thread fails; the reader returns after at most [n] turns; and every
    chunk of [2^i] bytes, for an [i] to which all buffers are aligned, is the one that
    the variable had at first or the one of some writer, never a mixture. *)
Theorem copies_never_torn m x b ws old vals n i schedule :
  shared_ok m x b ws old vals n i →
  ∃ ts r, Forall2 (λ a t, copy_thread m x a = Ret t) ws ts ∧ copy_thread m b x = Ret r ∧
  ∃ ts' m', run_pool schedule (ts ++ [r], m) = Ret (ts', m') ∧
    (n ≤ Z.of_nat (turns (length ws) schedule) → ts' !! length ws = Some (Finished tt)) ∧
    (ts' !! length ws = Some (Finished tt) →
      ∀ o, 0 ≤ o → (2 ^ i | o) → o + 2 ^ i ≤ n →
      ∃ v, v ∈ old :: vals ∧ read_bytes m' (s_ptr b + o) (2 ^ i) = Ret (chunk o (2 ^ i) v)).
Proof.
  intros Hsh. destruct (copy_threads_start _ _ _ _ _ _ _ _ Hsh) as (ts & rlog & Hts & Hr & Hlen & Hinv).
  exists ts, (accesses_thread rlog). split_and!; [done..|].
  assert (∀ o, 0 ≤ o → (2 ^ i | o) → o + 2 ^ i ≤ n →
    wp (run_pool schedule (ts ++ [accesses_thread rlog], m)) (shared_inv m x b ws old vals n i o)) as Hwp.
  { intros o Ho Hd Hle. apply run_pool_wp; [|by apply Hinv].
    intros k s. apply shared_inv_turn; done. }
  destruct (wp_inv _ _ (Hwp 0 ltac:(lia) (Z.divide_0_r _) (sh_length _ _ _ _ _ _ _ _ Hsh)))
    as ([ts' m'] & E & _).
  exists ts', m'. rewrite E in *. pose proof (Forall2_length Hts) as Hl. split_and!; [done| |].
  - intros Hn. destruct (run_pool_finishes schedule (length ws) (length rlog) (accesses_thread rlog)
      (ts ++ [accesses_thread rlog], m) (ts', m')) as [[] Hf]; [|apply accesses_within|done|lia|done].
    simpl. by rewrite Hl, list_lookup_middle.
  - intros Hf o Ho Hd Hle. destruct (Hwp o Ho Hd Hle) as (_ & _ & _ & _ & _ & l & Hl' & _ & Hc).
    rewrite Hf in Hl'. destruct l as [|[[]]]; [|done]. destruct Hc as [Hc|Hc]; [by inversion Hc|done].
Qed.

End copies.

(** ** Witnesses *)
#[local] Existing Instance x86_64_debug.

(** Process 7 has 32 bytes at 0x1000: values in the words at 0x1008 and 0x1010. *)
Definition example_u16 (a v : Z) : request := Request u16 _ _ a (uint_of v).

Ltac by_request := constructor;
  [by vm_compute|by vm_compute|by vm_compute|by split; vm_compute|
   by apply example_accessible; vm_compute].


Lemma process_store_race_witness :
  let rq1 := example_u16 0x100a 0xabcd in
  let rq2 := example_u16 0x100c 0x1234 in
  ∃ t1 t2, rq_thread (W := toy) 7 rq1 = Ret t1 ∧ rq_thread (W := toy) 7 rq2 = Ret t2 ∧
    (∃ w', run_pool [0; 1; 0; 1]%nat ([t1; t2], example_world)
         = Ret ([Finished (Ok tt); Finished (Ok tt)], w') ∧
       space w' 7 = store_request rq2 (space example_world 7) ∧
       read_bytes (space w' 7) (rq_addr rq1) (lenZ (rq_bytes rq1))
       = read_bytes (space example_world 7) (rq_addr rq1) (lenZ (rq_bytes rq1))) ∧
    (∃ w', run_pool [0; 0; 1; 1]%nat ([t1; t2], example_world)
         = Ret ([Finished (Ok tt); Finished (Ok tt)], w') ∧
       space w' 7 = store_request rq2 (store_request rq1 (space example_world 7))).
Proof.
  apply (process_store_race 7 example_world (example_u16 0x100a 0xabcd) (example_u16 0x100c 0x1234)).
  - by eexists.
  - by_request.
  - by_request.
  - done.
  - right. by vm_compute.
Defined.

(** Two integers of 4 bytes each at 0x1000, that is written from 0x2000 and from
    0x2010 while it is read to 0x3000. *)
Definition example_shared : mem :=
  store_list (store_list (list_to_map ((λ i, (i, x00)) <$> (seqZ 0x1000 8 ++ seqZ 0x2000 32 ++ seqZ 0x3000 8)))
    0x2000 (replicate 8 x01)) 0x2010 (replicate 8 x02).
Definition example_slice (a : Z) : slice := Slice a 8.

Lemma example_shared_ok a :
  forallb (λ i, bool_decide (is_Some (example_shared !! (a + i)))) (seqZ 0 8) = true →
  0 < a < 0x4000 → (4 | a) →
  slice_ok example_shared (example_slice a) ∧ s_len (example_slice a) = 8 ∧ (2 ^ 2 | s_ptr (example_slice a)).
Proof.
  intros Hf Ha Hd. split_and!; [|done..]. constructor; simpl; [lia..| |].
  - change (2 ^ usize_bits) with (2 ^ 64). lia.
  - intros i Hi. rewrite forallb_forall in Hf.
    eapply bool_decide_eq_true_1, Hf, list_elem_of_In, elem_of_seqZ. lia.
Qed.

Lemma copies_never_torn_witness :
  let ws := [example_slice 0x2000; example_slice 0x2010] in
  let vals := [replicate 8 x01; replicate 8 x02] in
  let old := replicate 8 x00 in
  ∃ ts r, Forall2 (λ a t, copy_thread example_shared (example_slice 0x1000) a = Ret t) ws ts ∧
  copy_thread example_shared (example_slice 0x3000) (example_slice 0x1000) = Ret r ∧
  ∃ ts' m', run_pool [0; 2; 1; 2; 0; 1]%nat (ts ++ [r], example_shared) = Ret (ts', m') ∧
    (8 ≤ Z.of_nat (turns (length ws) [0; 2; 1; 2; 0; 1]%nat) → ts' !! length ws = Some (Finished tt)) ∧
    (ts' !! length ws = Some (Finished tt) →
      ∀ o, 0 ≤ o → (2 ^ 2 | o) → o + 2 ^ 2 ≤ 8 →
      ∃ v, v ∈ old :: vals ∧ read_bytes m' (0x3000 + o) (2 ^ 2) = Ret (chunk o (2 ^ 2) v)).
Proof.
  apply (copies_never_torn example_shared (example_slice 0x1000) (example_slice 0x3000)
    [example_slice 0x2000; example_slice 0x2010] (replicate 8 x00)
    [replicate 8 x01; replicate 8 x02] 8 2 [0; 2; 1; 2; 0; 1]%nat).
  constructor.
  - do 4 (apply List.Forall_cons; [apply example_shared_ok;
      [by vm_compute|by split|by apply Z.mod_divide; vm_compute]|]). constructor.
  - done.
  - by vm_compute.
  - by vm_compute.
  - left. by vm_compute.
  - do 2 (apply List.Forall_cons; [split; unfold disjoint_slices, disjoint_ranges; simpl; lia|]).
    constructor.
  - by vm_compute.
  - do 2 (apply List.Forall2_cons; [by vm_compute|]). constructor.
Defined.
