(* ===== verification/Transfers.v ===== *)
(** * Transfers of several threads ([src/src/remote_mem.rs])

    [process_read_bytes] and [process_write_bytes] make one system call each, but
    the call is not one access to memory: other threads may get between the bytes
    that it moves.  How the system goes about it is not in the source, and is a
    parameter here: [AtomicCopy] has the two calls as threads.  The comment on
    [ALG] states what the source assumes, and [AtomicCopySpec] says no more: there
    is a width [c] of at most [ALG] bytes such that each aligned chunk of [c] bytes
    that lies within the transfer is moved at once.  The bytes before the first
    and after the last such chunk may be moved one at a time, and all of it in any
    order.  The theorem: a value within a chunk that is only transferred with its
    whole chunk is never torn, under any schedule. *)

From S2P Require Import Prelude Memory PlainData AtomicIntegers Bytes CopySlice Os RemoteMem Concurrency.

(** ** The system calls, as threads *)
Class AtomicCopy (W : Type) := {
  writev_thread : Z → list (list byte) → list RemoteIoVec → thread W (result Z errno);
  readv_thread : Z → list (list byte) → list RemoteIoVec → thread W (result Z errno * list (list byte))
}.

Section copies.
Context `{Target} `{RemoteSpec W}.
Implicit Types (w : W) (pid addr a b : Z) (val buf : list byte) (moved P : Z → bool).

(** The addresses [P] of a transfer of [len] bytes at [addr]: all of a chunk, or
    nothing of it. *)
Definition whole_chunks (c addr len : Z) P : Prop :=
  (∀ a, P a = true → addr ≤ a < addr + len) ∧
  ∀ b, b `mod` c = 0 → addr ≤ b → b + c ≤ addr + len → ∀ a, b ≤ a < b + c → P a = P b.

(** A call that takes at most [n] turns, in each of which it moves the bytes at
    some such addresses; [moved] are those it has moved. *)
Fixpoint writing (n : nat) (c : Z) pid addr val moved (t : thread W (result Z errno)) : Prop :=
  match t, n with
  | Finished r, _ => r = Ok (lenZ val) ∧ ∀ a, addr ≤ a < addr + lenZ val → moved a = true
  | Running turn, S n => ∀ w, accessible w pid addr (lenZ val) → ∃ P t' w',
      whole_chunks c addr (lenZ val) P ∧ turn w = Ret (t', w') ∧ attached w' pid ∧
      (∀ a, space w' pid !! a = if P a then val !! Z.to_nat (a - addr) else space w pid !! a) ∧
      writing n c pid addr val (λ a, moved a || P a) t'
  | Running _, O => False
  end.
Fixpoint reading (n : nat) (c : Z) pid addr buf moved (t : thread W (result Z errno * list (list byte))) : Prop :=
  match t, n with
  | Finished (r, bufs), _ => r = Ok (lenZ buf) ∧ bufs = [buf] ∧
      ∀ a, addr ≤ a < addr + lenZ buf → moved a = true
  | Running turn, S n => ∀ w, accessible w pid addr (lenZ buf) → ∃ P t' buf',
      whole_chunks c addr (lenZ buf) P ∧ turn w = Ret (t', w) ∧ length buf' = length buf ∧
      (∀ i, 0 ≤ i < lenZ buf → buf' !! Z.to_nat i =
        if P (addr + i) then space w pid !! (addr + i) else buf !! Z.to_nat i) ∧
      reading n c pid addr buf' (λ a, moved a || P a) t'
  | Running _, O => False
  end.
End copies.

(** The assumption, for chunks of [c] bytes; a transfer of [len] bytes takes at
    most [copy_turns len] turns. *)
Class AtomicCopySpec `{Target} (W : Type) `{RemoteSpec W} `{!AtomicCopy W} (c : Z) := {
  copy_width : 0 < c ≤ ALG;
  copy_turns : nat → nat;
  writev_copy : ∀ pid addr val, writing (copy_turns (length val)) c pid addr val (λ _, false)
    (writev_thread pid [val] [{| iov_base := addr; iov_len := lenZ val |}]);
  readv_copy : ∀ pid addr buf, reading (copy_turns (length buf)) c pid addr buf (λ _, false)
    (readv_thread pid [buf] [{| iov_base := addr; iov_len := lenZ buf |}])
}.

(** What a call returns: its result and, when it reads, the buffer. *)
Abbreviation transfer := (result Z RemoteError * list byte)%type.

Section threads.
Context `{Target} `{OS W} `{!AtomicCopy W}.
Implicit Types (w : W) (pid addr : Z) (val buf : list byte).

(** [process_write_bytes] and [process_read_bytes]. *)
Definition write_bytes_thread pid addr val : thread W transfer :=
  let len := lenZ val in
  bind_thread (writev_thread pid [val] [{| iov_base := addr; iov_len := len |}])
    (λ f, Finished (map_err Rw f, [])).
Definition read_bytes_thread pid addr buf : thread W transfer :=
  let len := lenZ buf in
  bind_thread (readv_thread pid [buf] [{| iov_base := addr; iov_len := len |}])
    (λ '(f, bufs), Finished (map_err Rw f, default buf (head bufs))).

(** Threads that make several calls, one after the other. *)
Inductive call := WriteBytes (addr : Z) (val : list byte) | ReadBytes (addr : Z) (buf : list byte).
Definition call_addr (x : call) : Z := match x with WriteBytes a _ | ReadBytes a _ => a end.
Definition call_buf (x : call) : list byte := match x with WriteBytes _ b | ReadBytes _ b => b end.
Definition call_thread pid (x : call) : thread W transfer :=
  match x with
  | WriteBytes addr val => write_bytes_thread pid addr val
  | ReadBytes addr buf => read_bytes_thread pid addr buf
  end.
Fixpoint client pid (calls : list call) (results : list transfer) : thread W (list transfer) :=
  match calls with
  | [] => Finished results
  | x :: calls => bind_thread (call_thread pid x) (λ r, client pid calls (results ++ [r]))
  end.
End threads.

Definition client_turns `{AtomicCopySpec W c} (calls : list call) : nat :=
  sum_list ((λ x, copy_turns (length (call_buf x))) <$> calls).

(** ** Parts of a buffer *)
Lemma chunk_lookup o k (v : list byte) i :
  0 ≤ o → 0 ≤ i < k → chunk o k v !! Z.to_nat i = v !! Z.to_nat (o + i).
Proof. intros. unfold chunk. rewrite lookup_take_lt, lookup_drop by lia. f_equal. lia. Qed.
Lemma lenZ_chunk o k (v : list byte) : 0 ≤ o → 0 ≤ k → o + k ≤ lenZ v → lenZ (chunk o k v) = k.
Proof. intros. unfold chunk. rewrite length_take, length_drop. lia. Qed.
Lemma chunk_ext o k (v bs : list byte) :
  0 ≤ o → 0 ≤ k → o + k ≤ lenZ v → lenZ bs = k →
  (∀ i, 0 ≤ i < k → v !! Z.to_nat (o + i) = bs !! Z.to_nat i) → chunk o k v = bs.
Proof.
  intros Ho Hk Hv Hb Hi. pose proof (lenZ_chunk o k v Ho Hk Hv) as Hl. apply (list_eq_same_length _ _ (length bs)); [done|lia|].
  intros i x y Hlt Hx Hy. rewrite <-(Nat2Z.id i) in Hx, Hy.
  rewrite chunk_lookup, Hi in Hx by lia. congruence.
Qed.

(** A transfer of [len] bytes at [addr] that has all of the [k] bytes at [f], that
    has none of them, and that has all of the chunk of [c] bytes around [f]. *)
Definition covers_field (f k addr len : Z) : Prop := addr ≤ f ∧ f + k ≤ addr + len.
Definition apart_field (f k addr len : Z) : Prop := f + k ≤ addr ∨ addr + len ≤ f.
Definition covers_chunk (c f addr len : Z) : Prop := addr ≤ f - f `mod` c ∧ f - f `mod` c + c ≤ addr + len.

(** ** A value that threads read and write *)
Section field.
Context `{AtomicCopySpec W c} (pid lo n f k : Z) (value : list byte → Prop).
Context (Hk : 0 < k).
(** The [k] bytes at [f] are within a chunk. *)
Context (Hchunk : f `mod` c + k ≤ c).
Implicit Types (w : W) (addr a : Z) (val buf : list byte).

(** What the threads share: the memory at [lo], with one of the values at [f]. *)
Definition field_inv w : Prop :=
  accessible w pid lo n ∧ ∃ bs, read_bytes (space w pid) f k = Ret bs ∧ value bs.

(** A buffer that is written, or was read, at [addr]. *)
Definition has_value addr buf : Prop := value (chunk (f - addr) k buf).

Lemma width_pos : 0 < c.
Proof. pose proof copy_width. lia. Qed.
Lemma covers_chunk_field addr len : covers_chunk c f addr len → covers_field f k addr len.
Proof. unfold covers_chunk, covers_field. pose proof (Z.mod_pos_bound f c width_pos). lia. Qed.

(** A turn moves all of the value or nothing of it. *)
Lemma moved_whole addr len P :
  whole_chunks c addr len P → apart_field f k addr len ∨ covers_chunk c f addr len →
  ∃ b, (b = true → covers_chunk c f addr len) ∧ ∀ i, 0 ≤ i < k → P (f + i) = b.
Proof.
  intros [Hin Hwhole] [Hap|[Hc1 Hc2]].
  - exists false. split; [done|]. intros i Hi. destruct (P (f + i)) eqn:E; [|done].
    apply Hin in E. unfold apart_field in Hap. lia.
  - exists (P (f - f `mod` c)). split; [done|]. intros i Hi.
    pose proof (Z.mod_pos_bound f c width_pos). apply Hwhole; [|lia..].
    rewrite Zminus_mod_idemp_r, Z.sub_diag. apply Z.mod_0_l. lia.
Qed.

(** A write that stays clear of the value, or writes all of its chunk. *)
Definition write_ok addr val : Prop :=
  lo ≤ addr ∧ addr + lenZ val ≤ lo + n ∧
  (apart_field f k addr (lenZ val) ∨ (covers_chunk c f addr (lenZ val) ∧ has_value addr val)).

Lemma write_turn w w' addr val P :
  write_ok addr val → whole_chunks c addr (lenZ val) P → field_inv w → attached w' pid →
  (∀ a, space w' pid !! a = if P a then val !! Z.to_nat (a - addr) else space w pid !! a) → field_inv w'.
Proof.
  intros (Hlo & Hhi & Hcase) HP [[Ha Hm] (bs & Hr & Hv)] Ha' Hs. split; [split; [done|]|].
  - intros i Hi. rewrite Hs. destruct (P (lo + i)) eqn:E; [|by apply Hm].
    apply HP in E. apply lookup_lt_is_Some. lia.
  - destruct (moved_whole addr (lenZ val) P HP) as (b & Hb & HPb); [tauto|].
    apply read_bytes_Ret in Hr as [Hl Hr]; [|lia]. destruct b.
    + destruct Hcase as [Hap|[Hcov Hval]].
      { destruct HP as [Hin _]. specialize (HPb 0 ltac:(lia)). apply Hin in HPb. unfold apart_field in Hap. lia. }
      apply covers_chunk_field in Hcov as [Hc1 Hc2]. exists (chunk (f - addr) k val). split; [|done].
      apply read_bytes_Ret; [lia|]. split; [apply lenZ_chunk; lia|]. intros i Hi.
      rewrite Hs, HPb, chunk_lookup by lia. do 2 f_equal. lia.
    + exists bs. split; [|done]. apply read_bytes_Ret; [lia|]. split; [done|]. intros i Hi.
      rewrite Hs, HPb by done. by apply Hr.
Qed.
Lemma writing_ok j addr val moved t :
  write_ok addr val → writing j c pid addr val moved t →
  ok_thread field_inv (λ r, r = Ok (lenZ val)) j t.
Proof.
  intros Hok. revert moved t. induction j as [|j IH]; intros moved [r|turn]; simpl; [|done| |].
  1-2: intros [-> _]; by constructor.
  intros Ht. apply ok_running_wp. intros w Hw. destruct (Ht w) as (P & t' & w' & HP & -> & Ha & Hs & Hrest).
  { destruct Hw as [[? ?] _], Hok as (? & ? & _). split; [done|]. by eapply mapped_mono. }
  split; [by eapply IH|by eapply write_turn].
Qed.

(** A read that stays clear of the value, or reads all of its chunk. *)
Definition read_ok addr buf : Prop :=
  lo ≤ addr ∧ addr + lenZ buf ≤ lo + n ∧
  (apart_field f k addr (lenZ buf) ∨ covers_chunk c f addr (lenZ buf)).
Definition read_result addr buf (r : transfer) : Prop :=
  r.1 = Ok (lenZ buf) ∧ lenZ r.2 = lenZ buf ∧ (covers_field f k addr (lenZ buf) → has_value addr r.2).

Lemma read_turn w addr buf buf' P :
  read_ok addr buf → whole_chunks c addr (lenZ buf) P → field_inv w → length buf' = length buf →
  (∀ i, 0 ≤ i < lenZ buf → buf' !! Z.to_nat i =
    if P (addr + i) then space w pid !! (addr + i) else buf !! Z.to_nat i) →
  covers_field f k addr (lenZ buf) →
  if P f then has_value addr buf' else chunk (f - addr) k buf' = chunk (f - addr) k buf.
Proof.
  intros (Hlo & Hhi & Hcase) HP [_ (bs & Hr & Hv)] Hl Hs [Hc1 Hc2].
  destruct (moved_whole addr (lenZ buf) P HP Hcase) as (b & _ & HPb).
  pose proof (HPb 0 ltac:(lia)) as HPf. rewrite Z.add_0_r in HPf. rewrite HPf.
  assert (∀ i, 0 ≤ i < k → buf' !! Z.to_nat (f - addr + i) =
    if b then space w pid !! (f + i) else buf !! Z.to_nat (f - addr + i)) as Hi.
  { intros i Hi. rewrite Hs by lia. replace (addr + (f - addr + i)) with (f + i) by lia. by rewrite HPb. }
  destruct b.
  - apply read_bytes_Ret in Hr as [Hlb Hr]; [|lia]. unfold has_value.
    rewrite (chunk_ext _ _ _ bs); [done|lia..|]. intros i Hi'. rewrite Hi by lia. by apply Hr.
  - apply chunk_ext; [lia..|apply lenZ_chunk; lia|]. intros i Hi'. rewrite Hi, chunk_lookup by lia. done.
Qed.
Lemma reading_ok j addr buf moved t :
  read_ok addr buf → (covers_field f k addr (lenZ buf) → moved f = true → has_value addr buf) →
  reading j c pid addr buf moved t →
  ok_thread field_inv (λ r, r.1 = Ok (lenZ buf) ∧ ∃ bs, r.2 = [bs] ∧ lenZ bs = lenZ buf ∧
    (covers_field f k addr (lenZ buf) → has_value addr bs)) j t.
Proof.
  revert buf moved t. induction j as [|j IH]; intros buf moved [[r bufs]|turn] Hok Hv; simpl; [|done| |].
  1-2: intros (-> & -> & Hm); constructor; split; [done|]; exists buf; split_and!; [done..|];
    intros Hc; apply Hv; [done|]; apply Hm; unfold covers_field in Hc; lia.
  intros Ht. apply ok_running_wp. intros w Hw. destruct (Ht w) as (P & t' & buf' & HP & -> & Hl & Hs & Hrest).
  { destruct Hw as [[? ?] _], Hok as (? & ? & _). split; [done|]. by eapply mapped_mono. }
  split; [|done]. rewrite <-Hl. eapply IH; [by unfold read_ok in *; rewrite Hl| |exact Hrest].
  rewrite Hl. intros Hc Hm. pose proof (read_turn w addr buf buf' P Hok HP Hw Hl Hs Hc) as Hturn.
  destruct (P f); [done|]. unfold has_value. rewrite Hturn. apply Hv; [done|]. by rewrite orb_false_r in Hm.
Qed.

(** *** Calls *)
Definition call_ok (x : call) : Prop :=
  match x with WriteBytes a v => write_ok a v | ReadBytes a b => read_ok a b end.
Definition call_result (x : call) (r : transfer) : Prop :=
  match x with WriteBytes a v => r = (Ok (lenZ v), []) | ReadBytes a b => read_result a b r end.

Lemma call_thread_ok x :
  call_ok x → ok_thread field_inv (call_result x) (copy_turns (length (call_buf x))) (call_thread pid x).
Proof.
  destruct x as [a v|a b]; intros Hx; cbn [call_thread call_buf].
  - eapply ok_bind_finished; [by eapply writing_ok; [|apply writev_copy]|]. intros r ->. by constructor.
  - eapply ok_bind_finished; [by eapply reading_ok; [exact Hx| |apply readv_copy]|].
    intros [r bufs] (E & bs & Eb & Hl & Hv). simpl in E, Eb. subst r bufs. by constructor.
Qed.
Lemma client_ok calls results :
  Forall call_ok calls →
  ok_thread field_inv (λ rs, ∃ rs', rs = results ++ rs' ∧ Forall2 call_result calls rs')
    (client_turns calls) (client pid calls results).
Proof.
  revert results. induction calls as [|x calls IH]; intros results Hok; simpl.
  { constructor. exists []. by rewrite app_nil_r. }
  apply Forall_cons_iff in Hok as [Hx Hok]. eapply ok_bind; [by apply call_thread_ok|].
  intros r Hr. eapply ok_mono; [by apply (IH (results ++ [r]))|done|]. intros rs (rs' & -> & Hrs). exists (r :: rs').
  rewrite <-(assoc_L (++)). split; [done|by constructor].
Qed.
End field.
Arguments write_ok : clear implicits.
Arguments read_ok : clear implicits.
Arguments call_ok : clear implicits.

(** ** Calls that run alone are those of [RemoteMem] *)
Section alone.
Context `{AtomicCopySpec W c} (pid : Z).
Implicit Types (w : W) (addr : Z) (val buf : list byte) (moved : Z → bool).

(** The memory [m] with the bytes at [moved] written. *)
Lemma writing_alone j addr val moved t w (m : mem) :
  (∀ a, moved a = true → addr ≤ a < addr + lenZ val) → accessible w pid addr (lenZ val) →
  (∀ a, space w pid !! a = if moved a then val !! Z.to_nat (a - addr) else m !! a) →
  writing j c pid addr val moved t →
  ∃ w', run_alone t w = Ret (Ok (lenZ val), w') ∧ space w' pid = store_list m addr val ∧ attached w' pid.
Proof.
  revert moved t w. induction j as [|j IH]; intros moved [r|turn] w Hin Hacc Hs; simpl; [|done| |].
  1-2: intros [-> Hall]; exists w; split_and!; [done| |apply Hacc]; apply map_eq; intros a;
    rewrite Hs, lookup_store_list; case_decide as Ha; [by rewrite Hall|];
    destruct (moved a) eqn:E; [by apply Hin in E|done].
  intros Ht. destruct (Ht w Hacc) as (P & t' & w' & HP & -> & Ha & Hs' & Hrest). eapply IH; [| | |exact Hrest].
  - intros a [E|E]%orb_true_iff; [by apply Hin|by apply HP].
  - split; [done|]. intros i Hi. rewrite Hs'. destruct (P (addr + i)); [|by apply Hacc].
    apply lookup_lt_is_Some. lia.
  - intros a. rewrite Hs', Hs. by destruct (moved a), (P a).
Qed.
Lemma write_bytes_alone w addr val :
  accessible w pid addr (lenZ val) →
  ∃ w', run_alone (write_bytes_thread pid addr val) w = Ret ((Ok (lenZ val), []), w') ∧
    space w' pid = store_list (space w pid) addr val ∧ attached w' pid.
Proof.
  intros Hacc. destruct (writing_alone _ addr val (λ _, false) _ w (space w pid) ltac:(done) Hacc ltac:(done)
    (writev_copy pid addr val)) as (w' & E & Hs & Ha).
  exists w'. unfold write_bytes_thread. by rewrite run_alone_bind, E.
Qed.

Lemma reading_alone j addr buf moved t w :
  accessible w pid addr (lenZ buf) →
  (∀ i, 0 ≤ i < lenZ buf → moved (addr + i) = true → buf !! Z.to_nat i = space w pid !! (addr + i)) →
  reading j c pid addr buf moved t →
  ∃ bs, read_bytes (space w pid) addr (lenZ buf) = Ret bs ∧ run_alone t w = Ret ((Ok (lenZ buf), [bs]), w).
Proof.
  revert buf moved t. induction j as [|j IH]; intros buf moved [[r bufs]|turn] Hacc Hs; simpl; [|done| |].
  1-2: intros (-> & -> & Hall); exists buf; split; [|done]; apply read_bytes_Ret; [lia|]; split; [done|];
    intros i Hi; symmetry; apply Hs; [done|]; apply Hall; lia.
  intros Ht. destruct (Ht w Hacc) as (P & t' & buf' & HP & -> & Hl & Hs' & Hrest).
  rewrite <-Hl in *. eapply IH; [done| |exact Hrest].
  intros i Hi [E|E]%orb_true_iff; rewrite Hs' by lia; [|by rewrite E].
  destruct (P (addr + i)); [done|]. by apply Hs.
Qed.
Lemma read_bytes_alone w addr buf :
  accessible w pid addr (lenZ buf) →
  ∃ bs, read_bytes (space w pid) addr (lenZ buf) = Ret bs ∧
    run_alone (read_bytes_thread pid addr buf) w = Ret ((Ok (lenZ buf), bs), w).
Proof.
  intros Hacc. destruct (reading_alone _ addr buf (λ _, false) _ w Hacc ltac:(done) (readv_copy pid addr buf))
    as (bs & Hr & E).
  exists bs. split; [done|]. unfold read_bytes_thread. by rewrite run_alone_bind, E.
Qed.
End alone.

(** ** No torn values *)
Section transfers.
Context `{AtomicCopySpec W c} (pid : Z).
Implicit Types (w : W) (clients : list (list call)).

(** A call within the [n] bytes at [lo] that transfers all of the chunk of the [k]
    bytes at [f], or none of these bytes. *)
Definition call_within (lo n f k : Z) (x : call) : Prop :=
  lo ≤ call_addr x ∧ call_addr x + lenZ (call_buf x) ≤ lo + n ∧
  (apart_field f k (call_addr x) (lenZ (call_buf x)) ∨ covers_chunk c f (call_addr x) (lenZ (call_buf x))).
(** The values of these bytes: the one before, and those that are written. *)
Definition field_value w clients (f k : Z) (bs : list byte) : Prop :=
  read_bytes (space w pid) f k = Ret bs ∨
  ∃ calls a v, calls ∈ clients ∧ WriteBytes a v ∈ calls ∧ covers_field f k a (lenZ v) ∧
    bs = chunk (f - a) k v.

Lemma call_within_ok w clients calls lo n f k x :
  f `mod` c + k ≤ c →
  calls ∈ clients → x ∈ calls → call_within lo n f k x → call_ok c lo n f k (field_value w clients f k) x.
Proof.
  intros Hk Hcs Hx (Hlo & Hhi & Hcase). destruct x as [a v|a b]; simpl in *; split_and!; try done.
  destruct Hcase as [?|Hcov]; [by left|]. right. split; [done|]. right. exists calls, a, v.
  split_and!; [done..| |done]. by eapply covers_chunk_field.
Qed.

(** No torn values between processes.  Any number of threads make any number of calls
    of [process_write_bytes] and [process_read_bytes] each, and the turns of the
    system calls are interleaved in any way.  No thread fails, every call reports all
    of its bytes, and a value that lies within a chunk and is only transferred with
    the whole chunk is, in the buffer of every call that reads it and in memory in
    the end, the value that was there at first or one that some thread has written,
    never a mixture. *)
Theorem transfers_never_torn w lo n f k clients schedule :
  accessible w pid lo n → 0 < k → lo ≤ f → f + k ≤ lo + n → f `mod` c + k ≤ c →
  Forall (Forall (call_within lo n f k)) clients →
  (∀ i calls, clients !! i = Some calls → (client_turns calls ≤ turns i schedule)%nat) →
  ∃ results w', run_pool schedule ((λ calls, client pid calls []) <$> clients, w)
      = Ret (Finished <$> results, w') ∧
    Forall2 (Forall2 (call_result f k (field_value w clients f k))) clients results ∧
    ∃ bs, read_bytes (space w' pid) f k = Ret bs ∧ field_value w clients f k bs.
Proof.
  intros Hacc Hk Hlo Hhi Hchunk Hok Hturns.
  destruct (pool_finished (field_inv pid lo n f k (field_value w clients f k))
    ((λ calls rs, Forall2 (call_result f k (field_value w clients f k)) calls rs) <$> clients)
    (λ i, client_turns (clients !!! i)) ((λ calls, client pid calls []) <$> clients) w schedule)
    as (results & w' & E & (_ & Hv) & Hrs).
  - split; [done|]. destruct (read_bytes_mapped (space w pid) f k) as (bs & Hr & _);
      [lia|by eapply mapped_mono; [apply Hacc|..]|]. exists bs. split; [done|by left].
  - split; [by rewrite !length_fmap|]. intros i Q t. rewrite !list_lookup_fmap, list_lookup_total_alt.
    destruct (clients !! i) as [calls|] eqn:Ei; simpl; intros [= <-] [= <-].
    apply list_elem_of_lookup_2 in Ei.
    eapply ok_mono; [apply (client_ok pid lo n f k _ Hk Hchunk)|done|by intros rs (rs' & -> & Hrs)].
    apply list.Forall_forall. intros x Hx. eapply call_within_ok; [done..|].
    rewrite list.Forall_forall in Hok. specialize (Hok _ Ei). by rewrite list.Forall_forall in Hok; apply Hok.
  - intros i Hi. rewrite length_fmap in Hi. destruct (lookup_lt_is_Some_2 _ _ Hi) as [calls Ei].
    rewrite list_lookup_total_alt, Ei. by apply Hturns.
  - exists results, w'. split_and!; [done| |done]. by apply Forall2_fmap_l in Hrs.
Qed.
End transfers.

(** ** A system with which the assumption holds

    It copies from the lowest address on, chunk by chunk where an aligned chunk
    is left and byte by byte elsewhere, with a call of [process_vm_writev] or
    [process_vm_readv] for each. *)
Section copying.
Context `{Target} `{RemoteSpec W} (c : Z).
Implicit Types (w : W) (pid addr a : Z) (val buf : list byte) (moved : Z → bool).

Definition piece addr (len : Z) : nat := if (addr `mod` c =? 0) && (c <=? len) then Z.to_nat c else 1%nat.

(** [val] is what is left of the transfer, [sofar] how much was moved. *)
Fixpoint copy_out (fuel : nat) pid addr val (sofar : Z) : thread W (result Z errno) :=
  match fuel, val with
  | S fuel, _ :: _ =>
      let k := piece addr (lenZ val) in
      Running (λ w,
        match process_vm_writev w pid [take k val] [{| iov_base := addr; iov_len := lenZ (take k val) |}] with
        | (Ok n, w) =>
            if n =? lenZ (take k val)
            then Ret (copy_out fuel pid (addr + n) (drop k val) (sofar + n), w)
            else Ret (Finished (Ok (sofar + n)), w)
        | (Err e, w) => Ret (Finished (if sofar =? 0 then Err e else Ok sofar), w)
        end)
  | _, _ => Finished (Ok sofar)
  end.
(** [got] is the part of the buffer that was filled. *)
Fixpoint copy_in (fuel : nat) pid addr buf (got : list byte) : thread W (result Z errno * list (list byte)) :=
  match fuel, buf with
  | S fuel, _ :: _ =>
      let k := piece addr (lenZ buf) in
      Running (λ w,
        match process_vm_readv w pid [take k buf] [{| iov_base := addr; iov_len := lenZ (take k buf) |}] with
        | (Ok n, [bs]) =>
            if n =? lenZ (take k buf)
            then Ret (copy_in fuel pid (addr + n) (drop k buf) (got ++ bs), w)
            else Ret (Finished (Ok (lenZ got + n), [got ++ bs ++ drop k buf]), w)
        | (Err e, _) => Ret (Finished (if lenZ got =? 0 then Err e else Ok (lenZ got), [got ++ buf]), w)
        | _ => Undef
        end)
  | _, _ => Finished (Ok (lenZ got), [got ++ buf])
  end.
Definition copying : AtomicCopy W := {|
  writev_thread pid bufs iov :=
    match bufs, iov with
    | [val], [v] => copy_out (length val) pid (iov_base v) val 0
    | _, _ => Finished (Err EINVAL)
    end;
  readv_thread pid bufs iov :=
    match bufs, iov with
    | [buf], [v] => copy_in (length buf) pid (iov_base v) buf []
    | _, _ => Finished (Err EINVAL, bufs)
    end
|}.

(** A piece does not begin within a chunk of the transfer of [len] bytes at [addr]. *)
Definition between addr (len : Z) a : Prop :=
  a `mod` c = 0 ∨ a - a `mod` c < addr ∨ addr + len < a - a `mod` c + c.
(** The addresses of a piece. *)
Definition piece_at a (n : Z) : Z → bool := λ x, (a <=? x) && (x <? a + n).
Lemma piece_at_spec a n x : piece_at a n x = true ↔ a ≤ x < a + n.
Proof. unfold piece_at. rewrite andb_true_iff, Z.leb_le, Z.ltb_lt. lia. Qed.

Context (Hc : 0 < c).

Lemma same_chunk a b : b `mod` c = 0 → b ≤ a < b + c → a - a `mod` c = b.
Proof using Hc.
  clear -Hc. intros Hb Ha. pose proof (Z.div_mod b c ltac:(lia)). pose proof (Z.div_mod a c ltac:(lia)).
  pose proof (Z.mod_pos_bound a c Hc). assert (a / c = b / c) by nia. nia.
Qed.
Lemma mod_add a n : (a + n) `mod` c = (a `mod` c + n) `mod` c.
Proof. by rewrite Zplus_mod_idemp_l. Qed.

Lemma piece_ok addr len a :
  addr ≤ a → a < addr + len → between addr len a →
  let n := Z.of_nat (piece a (addr + len - a)) in
  0 < n ≤ addr + len - a ∧ whole_chunks c addr len (piece_at a n) ∧ between addr len (a + n).
Proof using Hc.
  clear -Hc. intros Hlo Hhi Hbet. unfold piece. pose proof (Z.mod_pos_bound a c Hc) as Hm.
  destruct (Z.eqb_spec (a `mod` c) 0) as [E|E], (Z.leb_spec c (addr + len - a)) as [Hle|Hlt]; cbn [andb].
  1: rewrite Z2Nat.id by lia; split_and!; [lia..| |left; by rewrite mod_add, E, Z.add_0_l, Z_mod_same_full].
  1: { split; [intros x ?%piece_at_spec; lia|]. intros b Hb Hb1 Hb2 x Hx. apply eq_bool_prop_intro.
    rewrite !Is_true_true, !piece_at_spec. split; intros ?.
    - assert (b = a) by (rewrite <-(same_chunk x b), <-(same_chunk x a) by (done || lia); done). lia.
    - assert (b = a) by (rewrite <-(same_chunk b b), <-(same_chunk b a) by (done || lia); done). lia. }
  all: change (Z.of_nat 1) with 1; assert (∀ b, b `mod` c = 0 → addr ≤ b → b + c ≤ addr + len → ¬ (b ≤ a < b + c)) as Hnot
    by (intros b Hb Hb1 Hb2 Hab; rewrite <-(same_chunk a b) in Hb1, Hb2 by done; unfold between in Hbet; lia).
  all: split_and!; [lia..| |].
  1,3,5: split; [intros x ?%piece_at_spec; lia|]; intros b Hb Hb1 Hb2 x Hx; specialize (Hnot b Hb Hb1 Hb2);
    apply eq_bool_prop_intro; rewrite !Is_true_true, !piece_at_spec; lia.
  all: destruct (decide ((a + 1) `mod` c = 0)) as [|Hne]; [by left|]; right;
    rewrite (mod_add a 1) in *;
    assert (a `mod` c + 1 < c) by (destruct (decide (a `mod` c + 1 = c)) as [Eq|]; [by rewrite Eq, Z_mod_same_full in Hne|lia]);
    rewrite Z.mod_small by lia; unfold between in Hbet; lia.
Qed.

(** A system call on memory that is there. *)
Lemma writev_all w pid addr val :
  accessible w pid addr (lenZ val) → ∃ w',
    process_vm_writev w pid [val] [{| iov_base := addr; iov_len := lenZ val |}] = (Ok (lenZ val), w') ∧
    space w' pid = store_list (space w pid) addr val ∧ attached w' pid.
Proof.
  intros [Ha Hm]. pose proof (writev_full w pid val addr Ha Hm) as E.
  destruct (process_vm_writev _ _ _ _) as [r w'] eqn:Ew. simpl in E. subst r. exists w'. split; [done|].
  apply writev_ok in Ew as (_ & _ & Hs & Ha'). rewrite Nat2Z.id, take_ge in Hs by lia. auto.
Qed.
Lemma readv_all w pid addr buf :
  accessible w pid addr (lenZ buf) → ∃ bs,
    process_vm_readv w pid [buf] [{| iov_base := addr; iov_len := lenZ buf |}] = (Ok (lenZ buf), [bs]) ∧
    read_bytes (space w pid) addr (lenZ buf) = Ret bs.
Proof.
  intros [Ha Hm]. pose proof (readv_full w pid buf addr Ha Hm) as E.
  destruct (process_vm_readv _ _ _ _) as [r bufs] eqn:Ew. simpl in E. subst r.
  apply readv_ok in Ew as (_ & bs & Hr & ->). exists bs. by rewrite Nat2Z.id, drop_all, app_nil_r.
Qed.

Lemma copy_out_writing fuel pid addr val (i : nat) moved :
  (i ≤ length val)%nat → (length val - i ≤ fuel)%nat → between addr (lenZ val) (addr + Z.of_nat i) →
  (∀ a, addr ≤ a < addr + Z.of_nat i → moved a = true) →
  writing fuel c pid addr val moved (copy_out fuel pid (addr + Z.of_nat i) (drop i val) (Z.of_nat i)).
Proof using Hc.
  revert i moved. induction fuel as [|fuel IH]; intros i moved Hi Hfuel Hbet Hmoved;
    (destruct (drop i val) as [|b v] eqn:Ev;
      [apply (f_equal length) in Ev; rewrite length_drop in Ev; simpl in Ev;
       split; [f_equal; lia|intros a Ha; apply Hmoved; lia]|]).
  { apply (f_equal length) in Ev. rewrite length_drop in Ev. simpl in Ev. lia. }
  cbn [copy_out writing]. rewrite <-Ev. intros w [Ha Hm].
  assert (i < length val)%nat as Hlt by (apply (f_equal length) in Ev; rewrite length_drop in Ev; simpl in Ev; lia).
  destruct (piece_ok addr (lenZ val) (addr + Z.of_nat i)) as (Hn & HP & Hbet'); [lia..|done|].
  replace (addr + lenZ val - (addr + Z.of_nat i)) with (lenZ (drop i val)) in * by (rewrite length_drop; lia).
  set (k := piece (addr + Z.of_nat i) (lenZ (drop i val))) in *. rewrite length_drop in Hn.
  assert (lenZ (take k (drop i val)) = Z.of_nat k) as Hl by (rewrite length_take, length_drop; lia).
  destruct (writev_all w pid (addr + Z.of_nat i) (take k (drop i val))) as (w' & -> & Hs & Ha').
  { split; [done|]. rewrite Hl. apply (mapped_mono _ _ _ _ _ Hm); lia. }
  rewrite Z.eqb_refl, Hl. eexists _, _, w'. split_and!; [exact HP|done|done| |].
  - intros a. rewrite Hs, lookup_store_list, Hl. unfold piece_at.
    case_decide as Hr; destruct (Z.leb_spec (addr + Z.of_nat i) a), (Z.ltb_spec a (addr + Z.of_nat i + Z.of_nat k));
      try lia; cbn [andb]; [|done..].
    rewrite lookup_take_lt, lookup_drop by lia. f_equal. lia.
  - rewrite drop_drop, <-Z.add_assoc, <-!Nat2Z.inj_add. apply IH; [lia..|by rewrite Nat2Z.inj_add, Z.add_assoc|].
    intros a Hr. apply orb_true_iff. rewrite piece_at_spec.
    destruct (Z.lt_ge_cases a (addr + Z.of_nat i)); [left; apply Hmoved; lia|right; lia].
Qed.

Lemma copy_in_reading fuel pid addr buf (got : list byte) moved :
  (length got ≤ length buf)%nat → (length buf - length got ≤ fuel)%nat → take (length got) buf = got →
  between addr (lenZ buf) (addr + lenZ got) → (∀ a, addr ≤ a < addr + lenZ got → moved a = true) →
  reading fuel c pid addr buf moved (copy_in fuel pid (addr + lenZ got) (drop (length got) buf) got).
Proof using Hc.
  revert buf got moved. induction fuel as [|fuel IH]; intros buf got moved Hi Hfuel Hgot Hbet Hmoved;
    (destruct (drop (length got) buf) as [|b v] eqn:Ev;
      [apply (f_equal length) in Ev; rewrite length_drop in Ev; simpl in Ev;
       rewrite take_ge in Hgot by lia; subst got; cbn [copy_in reading]; rewrite app_nil_r; by split_and!|]).
  { apply (f_equal length) in Ev. rewrite length_drop in Ev. simpl in Ev. lia. }
  cbn [copy_in reading]. rewrite <-Ev. intros w [Ha Hm].
  assert (length got < length buf)%nat as Hlt by (apply (f_equal length) in Ev; rewrite length_drop in Ev; simpl in Ev; lia).
  destruct (piece_ok addr (lenZ buf) (addr + lenZ got)) as (Hn & HP & Hbet'); [lia..|done|].
  replace (addr + lenZ buf - (addr + lenZ got)) with (lenZ (drop (length got) buf)) in * by (rewrite length_drop; lia).
  set (k := piece (addr + lenZ got) (lenZ (drop (length got) buf))) in *. rewrite length_drop in Hn.
  assert (lenZ (take k (drop (length got) buf)) = Z.of_nat k) as Hl by (rewrite length_take, length_drop; lia).
  destruct (readv_all w pid (addr + lenZ got) (take k (drop (length got) buf))) as (bs & -> & Hr).
  { split; [done|]. rewrite Hl. apply (mapped_mono _ _ _ _ _ Hm); lia. }
  rewrite Z.eqb_refl, Hl in *. apply read_bytes_Ret in Hr as [Hbs Hr]; [|lia].
  set (buf' := (got ++ bs) ++ drop k (drop (length got) buf)).
  assert (length buf' = length buf) as Hl' by (unfold buf'; rewrite !length_app, !length_drop; lia).
  eexists _, _, buf'. split_and!; [exact HP|done|done| |].
  - intros j Hj. unfold piece_at, buf'. rewrite drop_drop.
    destruct (Z.leb_spec (addr + lenZ got) (addr + j)), (Z.ltb_spec (addr + j) (addr + lenZ got + Z.of_nat k)); cbn [andb].
    + rewrite lookup_app_l, lookup_app_r by (rewrite ?length_app; lia).
      replace (Z.to_nat j - length got)%nat with (Z.to_nat (j - lenZ got)) by lia. rewrite <-Hr by lia. f_equal. lia.
    + rewrite lookup_app_r, lookup_drop by (rewrite length_app; lia). f_equal. rewrite length_app. lia.
    + rewrite <-app_assoc, lookup_app_l by lia. rewrite <-Hgot at 1. by rewrite lookup_take_lt by lia.
    + lia.
  - assert (Z.of_nat k = lenZ bs) as Hk by lia.
    assert (lenZ (got ++ bs) = lenZ got + lenZ bs) as Hlg by (rewrite length_app; lia).
    assert (drop k (drop (length got) buf) = drop (length (got ++ bs)) buf') as ->.
    { unfold buf'. by rewrite drop_app_length. }
    rewrite Hk, <-Z.add_assoc, <-Hlg. apply IH.
    + lia.
    + lia.
    + unfold buf'. apply take_app_length.
    + by rewrite Hl', Hlg, Z.add_assoc, <-Hk.
    + intros a Hr'. apply orb_true_iff. rewrite piece_at_spec.
      destruct (Z.lt_ge_cases a (addr + lenZ got)); [left; apply Hmoved; lia|right; lia].
Qed.
End copying.

Lemma copying_spec `{Target} `{RemoteSpec W} c : 0 < c ≤ ALG → @AtomicCopySpec _ W _ _ (copying c) c.
Proof.
  intros Hc. assert (∀ addr len, between c addr len (addr + Z.of_nat 0)) as Hb.
  { intros addr len. unfold between. rewrite Z.add_0_r. pose proof (Z.mod_pos_bound addr c ltac:(lia)).
    destruct (decide (addr `mod` c = 0)); [by left|right; left; lia]. }
  refine (@Build_AtomicCopySpec _ W _ _ (copying c) c Hc (λ n, n) _ _).
  - intros pid addr val. pose proof (copy_out_writing c ltac:(lia) (length val) pid addr val 0 (λ _, false)
      ltac:(lia) ltac:(lia) (Hb _ _) ltac:(lia)) as Hw. by rewrite Z.add_0_r in Hw.
  - intros pid addr buf. pose proof (copy_in_reading c ltac:(lia) (length buf) pid addr buf [] (λ _, false)
      ltac:(simpl; lia) ltac:(simpl; lia) eq_refl (Hb _ _) ltac:(simpl; lia)) as Hr. simpl in Hr. by rewrite Z.add_0_r in Hr.
Defined.
