(* ===== verification/Endian.v ===== *)
(** * Integers with an explicit byte order ([src/src/endian.rs])

    The macro [endian_type!] is a section over the byte order and the number of
    bytes; [Le16] to [BeSize] are its eight instances. *)

From S2P Require Import Prelude Memory PlainData AtomicIntegers Bytes.

(** [swap_bytes], and [to_le], [from_le], [to_be], [from_be] on the unsigned
    integers: they swap the bytes when the byte order is not the target's. *)
Definition swap_bytes {n} (u : uint n) : uint n :=
  uint_of (le_value (rev (le_bytes n (uval u)))).
Definition to_le `{Target} {n} (u : uint n) : uint n :=
  if target_big_endian then swap_bytes u else u.
Definition from_le `{Target} {n} (u : uint n) : uint n :=
  if target_big_endian then swap_bytes u else u.
Definition to_be `{Target} {n} (u : uint n) : uint n :=
  if target_big_endian then u else swap_bytes u.
Definition from_be `{Target} {n} (u : uint n) : uint n :=
  if target_big_endian then u else swap_bytes u.

Inductive order := LE | BE.

(** The struct [$new_type($old_type)]. *)
Record endian (o : order) (n : nat) := Endian { e_0 : uint n }.
Arguments Endian {o n} _.
Arguments e_0 {o n} _.

Section endian_type.
Context `{Target} {o : order} {n : nat}.

(** The parameters [$to_new] and [$from_new]. *)
Definition to_new (u : uint n) : uint n := match o with LE => to_le u | BE => to_be u end.
Definition from_new (u : uint n) : uint n := match o with LE => from_le u | BE => from_be u end.

Definition to_native (e : endian o n) : uint n := from_new (e_0 e).
Definition endian_eq_old (e : endian o n) (other : uint n) : bool :=
  uval (e_0 e) =? uval (to_new other).
Definition old_eq_endian (u : uint n) (other : endian o n) : bool :=
  uval (to_new (e_0 other)) =? uval u.
Definition endian_into (e : endian o n) : uint n := from_new (e_0 e).
Definition endian_from (v : uint n) : endian o n := Endian (to_new v).

#[export] Instance endian_byte_valued : ByteValued (endian o n) := {|
  size_of := size_of (uint n);
  align_of := align_of (uint n);
  as_slice e := as_slice (e_0 e);
  from_bytes bs := Endian (from_bytes bs);
  default_value := Endian default_value
|}.

(** [const_assert!]: the length of the array is computed when the crate is
    compiled, and below 0 this fails. *)
Definition const_assert (condition : bool) : outcome unit :=
  _len ← unwrap (uint_checked_sub 0 (if negb condition then 1 else 0)); Ret tt.
Definition endian_assert : outcome unit :=
  _ ← const_assert (align_of (endian o n) =? align_of (uint n));
  const_assert (size_of (endian o n) =? size_of (uint n)).
Lemma endian_assert_compiles : endian_assert = Ret tt.
Proof. unfold endian_assert. simpl. by rewrite !Z.eqb_refl. Qed.
End endian_type.

Abbreviation Le16 := (endian LE 2).
Abbreviation Le32 := (endian LE 4).
Abbreviation Le64 := (endian LE 8).
Abbreviation Be16 := (endian BE 2).
Abbreviation Be32 := (endian BE 4).
Abbreviation Be64 := (endian BE 8).
Definition LeSize `{Target} : Type := endian LE (Z.to_nat usize_bytes).
Definition BeSize `{Target} : Type := endian BE (Z.to_nat usize_bytes).

(** ** Theorems *)
Section theorems.
Context `{Target} {o : order} {n : nat}.
Implicit Types (u v : uint n) (e : endian o n).

#[export] Instance endian_byte_valued_spec `{!ByteValuedSpec (uint n)} :
  ByteValuedSpec (endian o n).
Proof.
  destruct ByteValuedSpec0 as [Hs Ha Hl Hf Hb]. constructor; simpl in *; try done.
  intros [u]. f_equal. apply (Hf u).
Qed.

Lemma uval_small u : uval u `mod` 2 ^ (8 * Z.of_nat n) = uval u.
Proof. apply Z.mod_small, uval_range. Qed.

Lemma le_value_rev_range z : in_bits (8 * Z.of_nat n) (le_value (rev (le_bytes n z))).
Proof.
  pose proof (le_value_range (rev (le_bytes n z))) as Hr.
  by rewrite length_rev, length_le_bytes in Hr.
Qed.

(** Swapping reverses the digits. *)
Lemma le_bytes_swap u : le_bytes n (uval (swap_bytes u)) = rev (le_bytes n (uval u)).
Proof.
  simpl. rewrite Z.mod_small by apply le_value_rev_range.
  assert (length (rev (le_bytes n (uval u))) = n) as Hl by (by rewrite length_rev, length_le_bytes).
  rewrite <-Hl at 1. apply le_bytes_le_value.
Qed.
Lemma swap_swap u : swap_bytes (swap_bytes u) = u.
Proof.
  apply uint_eq. unfold swap_bytes at 1. cbn [uint_of uval].
  rewrite le_bytes_swap, rev_involutive, le_value_le_bytes, !uval_small. done.
Qed.

Lemma to_new_involutive u : to_new (o := o) (to_new (o := o) u) = u.
Proof.
  unfold to_new, to_le, to_be. destruct o, target_big_endian; auto using swap_swap.
Qed.

(** C40: a value with an explicit byte order has that order in memory on every
    target, and converting it from and to the native integer loses nothing. *)
Theorem endian_representation v :
  as_slice (endian_from v : endian o n)
    = match o with LE => le_bytes n (uval v) | BE => rev (le_bytes n (uval v)) end ∧
  to_native (endian_from v : endian o n) = v ∧ endian_into (endian_from v : endian o n) = v ∧
  ∀ e, endian_from (to_native e) = e.
Proof.
  split_and!; [|apply (to_new_involutive v)..|].
  - simpl. unfold to_new, to_le, to_be, ne_bytes.
    destruct o, target_big_endian; auto using le_bytes_swap.
    by rewrite le_bytes_swap, rev_involutive.
  - intros [u]. apply (f_equal Endian (to_new_involutive u)).
Qed.

(** Both comparisons of a value with a native integer hold exactly when
    the native value is that integer. *)
Theorem endian_comparison e v :
  endian_eq_old e v = bool_decide (uval (to_native e) = uval v) ∧
  old_eq_endian v e = bool_decide (uval (to_native e) = uval v).
Proof.
  destruct e as [u]. change (to_native (Endian u : endian o n)) with (to_new (o := o) u).
  unfold endian_eq_old, old_eq_endian. cbn [e_0].
  split; apply eq_bool_prop_intro; rewrite !Is_true_true, bool_decide_eq_true, Z.eqb_eq; [|done].
  split; intros E; apply uint_eq in E; subst; by rewrite to_new_involutive.
Qed.
End theorems.
