(* ===== verification/GuestMemory.v ===== *)
(** * Guest memory ([src/src/guest_memory.rs])

    [GuestMemoryRegion] and [GuestMemory] are classes: the methods that every
    implementation defines or may override are fields, the other provided
    methods are definitions.  [try_access] splits an access to guest-physical
    memory into accesses to regions, and [Bytes<GuestAddress>] is implemented
    with it for every [GuestMemory].

    [GuestMemorySpec] is what an implementation of [GuestMemory] promises and
    [RegionSpec] what a region does; the theorems are proved against the two,
    and [Mmap] discharges them. *)

From S2P Require Import Prelude Memory Address PlainData AtomicIntegers Bytes CopySlice Volatile Os RemoteMem.

Definition MAX_ACCESS_CHUNK : Z := 4096.

(** ** Errors *)
Inductive GuestError :=
| InvalidGuestAddress (addr : GuestAddress)
| GIOError (e : io_error)
| GPartialBuffer (expected completed : Z)
| InvalidBackendAddress
| HostAddressNotAvailable
| RemoteMemError (e : RemoteError).

#[export] Instance GuestError_eq_dec : EqDecision GuestError.
Proof. solve_decision. Defined.

Abbreviation gresult A := (result A GuestError).

(** [From<volatile_memory::Error>]. *)
Definition from_volatile_error (e : VolatileError) : GuestError :=
  match e with
  | OutOfBounds _ => InvalidBackendAddress
  | Overflow _ _ => InvalidBackendAddress
  | TooBig _ _ => InvalidBackendAddress
  | Misaligned _ _ => InvalidBackendAddress
  | VIOError e => GIOError e
  | VPartialBuffer expected completed => GPartialBuffer expected completed
  end.

(** ** [FileOffset] *)
Record FileOffset `{OS W} := FileOff { fo_file : File; fo_start : Z }.
Arguments FileOffset W {_}.

(** [FileOffset::new] and [FileOffset::from_arc]: the [Arc] is not represented. *)
Definition file_offset_from_arc `{OS W} (file : File) (start : Z) : FileOffset W := FileOff _ _ file start.
Definition file_offset_new `{OS W} (file : File) (start : Z) : FileOffset W :=
  file_offset_from_arc file start.
Definition fo_get_file `{OS W} (self : FileOffset W) : File := fo_file self.
Definition fo_get_start `{OS W} (self : FileOffset W) : Z := fo_start self.

(** ** [GuestMemoryRegion]

    [as_slice] is the contents of the region, and [as_mut_slice] also the way
    to put new contents in place. *)
Class GuestMemoryRegion `{Target} (R W : Type) `{OS W} := {
  region_bytes_impl :: Bytes R MemoryRegionAddress GuestError W;
  len : R → Z;
  start_addr : R → GuestAddress;
  get_host_address : R → MemoryRegionAddress → gresult Z;
  file_offset : R → option (FileOffset W);
  region_as_slice : R → W → option (list byte);
  region_as_mut_slice : R → W → option (list byte * (list byte → W));
  region_get_slice : R → MemoryRegionAddress → Z → outcome (gresult VolatileSlice);
  is_hugetlbfs : R → option bool
}.

Section region_provided.
Context `{GuestMemoryRegion R W}.
Implicit Types (r : R).

Definition region_last_addr r : outcome GuestAddress :=
  n ← usub 64 (len r) 1; unchecked_add (start_addr r) n.

Definition region_address_in_range r (addr : MemoryRegionAddress) : bool :=
  raw_value addr <? len r.

Definition region_check_address r (addr : MemoryRegionAddress) : option MemoryRegionAddress :=
  if region_address_in_range r addr then Some addr else None.

Definition region_checked_offset r (base : MemoryRegionAddress) (offset : Z)
    : option MemoryRegionAddress :=
  addr ← checked_add base (as_u64 offset); region_check_address r addr.

Definition region_to_region_addr r (addr : GuestAddress) : option MemoryRegionAddress :=
  offset ← checked_offset_from addr (start_addr r); region_check_address r (RegionAddr offset).

(** The provided bodies of the methods that a region may override. *)
Definition default_get_host_address r (_ : MemoryRegionAddress) : gresult Z :=
  Err HostAddressNotAvailable.
Definition default_file_offset r : option (FileOffset W) := None.
Definition default_as_slice r (_ : W) : option (list byte) := None.
Definition default_as_mut_slice r (_ : W) : option (list byte * (list byte → W)) := None.
Definition default_get_slice r (offset : MemoryRegionAddress) (count : Z)
    : outcome (gresult VolatileSlice) := Ret (Err HostAddressNotAvailable).
Definition default_is_hugetlbfs r : option bool := None.

Definition region_as_volatile_slice r : outcome (gresult VolatileSlice) :=
  region_get_slice r (RegionAddr 0) (as_usize (len r)).
End region_provided.

(** ** [GuestMemory] *)
Class GuestMemory (M : Type) `{GuestMemoryRegion R W} := {
  num_regions : M → Z;
  find_region : M → GuestAddress → outcome (option R);
  iter : M → list R
}.

(** [with_regions] and [with_regions_mut]: the callback is called on the regions
    in order, with its state, until it fails. *)
Fixpoint enumerate_until {R S E} (cb : S → Z → R → outcome (result unit E * S)) (s : S)
    (index : Z) (l : list R) : outcome (result unit E * S) :=
  match l with
  | [] => Ret (Ok tt, s)
  | region :: l =>
      '(r, s) ← cb s index region;
      match r with
      | Ok _ => enumerate_until cb s (index + 1) l
      | Err e => Ret (Err e, s)
      end
  end.

(** [iter.enumerate().map(mapf).fold(init, foldf)]. *)
Fixpoint fold_enumerated {R T} (mapf : Z * R → T) (foldf : T → T → T) (acc : T) (index : Z)
    (l : list R) : T :=
  match l with
  | [] => acc
  | r :: l => fold_enumerated mapf foldf (foldf acc (mapf (index, r))) (index + 1) l
  end.

Section memory_provided.
Context `{GuestMemory M}.
Implicit Types (m : M) (addr base : GuestAddress).

Definition with_regions {E} m (cb : Z → R → outcome (result unit E)) : outcome (result unit E) :=
  '(r, _) ← enumerate_until (λ (_ : unit) i x, r ← cb i x; Ret (r, tt)) tt 0 (iter m); Ret r.
Definition with_regions_mut {S E} m (cb : S → Z → R → outcome (result unit E * S)) (s : S)
    : outcome (result unit E * S) :=
  enumerate_until cb s 0 (iter m).

Definition map_and_fold {T} m (init : T) (mapf : Z * R → T) (foldf : T → T → T) : T :=
  fold_enumerated mapf foldf init 0 (iter m).

Definition max_addr (a b : GuestAddress) : GuestAddress :=
  if raw_value a <=? raw_value b then b else a.
Definition last_addr m : outcome GuestAddress :=
  foldl (λ acc r, acc ← acc; a ← region_last_addr r; Ret (max_addr acc a))
    (Ret (GuestAddr 0)) (iter m).

Definition to_region_addr m addr : outcome (option (R * MemoryRegionAddress)) :=
  o ← find_region m addr;
  match o with
  | Some r => a ← unwrap (region_to_region_addr r addr); Ret (Some (r, a))
  | None => Ret None
  end.

Definition address_in_range m addr : outcome bool :=
  o ← find_region m addr; Ret (match o with Some _ => true | None => false end).

Definition check_address m addr : outcome (option GuestAddress) :=
  o ← find_region m addr; Ret (match o with Some _ => Some addr | None => None end).

(** [try_access], with the state [S] of the [FnMut] callback. *)
Section try_access.
Context {S : Type} (m : M) (count : Z) (addr : GuestAddress).
Context (f : Z → Z → MemoryRegionAddress → R → S → outcome (gresult Z * S)).

(** What follows the loop. *)
Definition access_done (total : Z) (s : S) : gresult Z * S :=
  if total =? 0 then (Err (InvalidGuestAddress addr), s) else (Ok total, s).

Definition access_step (st : GuestAddress * Z * S)
    : outcome ((GuestAddress * Z * S) + (gresult Z * S)) :=
  let '(cur, total, s) := st in
  o ← find_region m cur;
  match o with
  | None => Ret (inr (access_done total s))
  | Some region =>
      start ← unwrap (region_to_region_addr region cur);
      cap ← usub 64 (len region) (raw_value start);
      rest ← usub usize_bits count total;
      let l := Z.min cap (as_u64 rest) in
      '(r, s) ← f total (as_usize l) start region s;
      match r with
      | Ok n =>
          if n =? 0 then Ret (inr (Ok total, s))
          else
            total ← uadd usize_bits total n;
            if total =? count then Ret (inr (access_done total s))
            else match overflowing_add cur (as_u64 n) with
                 | (GuestAddr 0, _) => Ret (inl (GuestAddr 0, total, s))
                 | (result, false) => Ret (inl (result, total, s))
                 | (_, true) => Panic
                 end
      | Err e => Ret (inr (Err e, s))
      end
  end.

Definition try_access (s : S) : outcome (gresult Z * S) :=
  while_loop access_step (addr, 0, s).
End try_access.

Definition check_range m base (len : Z) : outcome bool :=
  '(r, _) ← try_access m len base (λ _ count _ _ (s : unit), Ret (Ok count, s)) tt;
  Ret (match r with Ok count => count =? len | Err _ => false end).

Definition checked_offset m base (offset : Z) : outcome (option GuestAddress) :=
  match checked_add base (as_u64 offset) with
  | Some addr => check_address m addr
  | None => Ret None
  end.

(** [self.to_region_addr(addr).ok_or(InvalidGuestAddress(addr)).and_then(k)]. *)
Definition on_region {A} m addr (invalid : GuestError → A)
    (k : R → MemoryRegionAddress → outcome A) : outcome A :=
  o ← to_region_addr m addr;
  match o with
  | Some (r, a) => k r a
  | None => Ret (invalid (InvalidGuestAddress addr))
  end.

Definition memory_get_host_address m addr : outcome (gresult Z) :=
  on_region m addr Err (λ r a, Ret (get_host_address r a)).
Definition memory_get_slice m addr (count : Z) : outcome (gresult VolatileSlice) :=
  on_region m addr Err (λ r a, region_get_slice r a count).
End memory_provided.

(** ** [Bytes<GuestAddress>] for every [GuestMemory] *)
Section memory_bytes.
Context `{GuestMemory M}.
Implicit Types (m : M) (w : W) (buf : list byte) (addr : GuestAddress) (count : Z).

Definition memory_write m w buf addr : outcome (gresult Z * W) :=
  try_access m (lenZ buf) addr (λ offset _ caddr region w,
    rest ← index_range buf offset (lenZ buf);
    write region w rest caddr) w.

Definition memory_read m w buf addr : outcome (gresult Z * (list byte * W)) :=
  try_access m (lenZ buf) addr (λ offset _ caddr region '(buf, w),
    rest ← index_range buf offset (lenZ buf);
    '(r, (rest, w)) ← read region w rest caddr;
    buf ← update_range buf offset (lenZ buf) rest;
    Ret (r, (buf, w))) (buf, w).

(** The check that follows a call that may have been partial. *)
Definition complete {S} (expected : Z) (p : gresult Z * S) : gresult unit * S :=
  match p with
  | (Ok res, s) =>
      if negb (res =? expected) then (Err (GPartialBuffer expected res), s) else (Ok tt, s)
  | (Err e, s) => (Err e, s)
  end.

Definition memory_write_slice m w buf addr : outcome (gresult unit * W) :=
  p ← memory_write m w buf addr; Ret (complete (lenZ buf) p).
Definition memory_read_slice m w buf addr : outcome (gresult unit * (list byte * W)) :=
  p ← memory_read m w buf addr; Ret (complete (lenZ buf) p).

(** The callback of [read_from]. *)
Definition read_from_chunk {F} `{Read F} count (offset len : Z) (caddr : MemoryRegionAddress)
    (region : R) (s : F * W) : outcome (gresult Z * (F * W)) :=
  let '(src, w) := s in
  _ ← rassert (offset <=? count);
  match region_as_mut_slice region w with
  | Some (dst, put) =>
      let start := as_usize (raw_value caddr) in
      end_ ← uadd usize_bits start len;
      '(r, (src, dst)) ← VolatileBytes.retry GIOError (λ '(src, dst),
        piece ← index_range dst start end_;
        let '(r, piece, src) := io_read src piece in
        dst ← update_range dst start end_ piece;
        Ret (r, (src, dst))) (src, dst);
      Ret (r, (src, put dst))
  | None =>
      let len := Z.min len MAX_ACCESS_CHUNK in
      let buf := replicate (Z.to_nat len) x00 in
      '(r, (src, buf)) ← VolatileBytes.retry GIOError (λ '(src, buf),
        let '(r, buf, src) := io_read src buf in Ret (r, (src, buf))) (src, buf);
      match r with
      | Err e => Ret (Err e, (src, w))
      | Ok bytes_read =>
          piece ← index_range buf 0 bytes_read;
          '(r, w) ← write region w piece caddr;
          match r with
          | Err e => Ret (Err e, (src, w))
          | Ok bytes_written =>
              _ ← rassert (bytes_written =? bytes_read);
              Ret (Ok bytes_read, (src, w))
          end
      end
  end.

Definition memory_read_from {F} `{Read F} m w addr (src : F) count
    : outcome (gresult Z * (F * W)) :=
  try_access m count addr (read_from_chunk count) (src, w).
Definition memory_read_exact_from {F} `{Read F} m w addr (src : F) count
    : outcome (gresult unit * (F * W)) :=
  p ← memory_read_from m w addr src count; Ret (complete count p).

(** The callback of [write_to]. *)
Definition write_to_chunk {F} `{Write F} count (offset len : Z) (caddr : MemoryRegionAddress)
    (region : R) (s : F * W) : outcome (gresult Z * (F * W)) :=
  let '(dst, w) := s in
  _ ← rassert (offset <=? count);
  match region_as_slice region w with
  | Some src =>
      let start := as_usize (raw_value caddr) in
      end_ ← uadd usize_bits start len;
      '(r, dst) ← VolatileBytes.retry GIOError (λ dst,
        piece ← index_range src start end_; Ret (io_write dst piece)) dst;
      Ret (r, (dst, w))
  | None =>
      let len := Z.min len MAX_ACCESS_CHUNK in
      let buf := replicate (Z.to_nat len) x00 in
      '(r, (buf, w)) ← read region w buf caddr;
      match r with
      | Err e => Ret (Err e, (dst, w))
      | Ok bytes_read =>
          _ ← rassert (bytes_read =? len);
          '(r, dst) ← VolatileBytes.write_all dst buf;
          match r with
          | Err e => Ret (Err (GIOError e), (dst, w))
          | Ok _ => Ret (Ok len, (dst, w))
          end
      end
  end.

Definition memory_write_to {F} `{Write F} m w addr (dst : F) count
    : outcome (gresult Z * (F * W)) :=
  try_access m count addr (write_to_chunk count) (dst, w).
Definition memory_write_all_to {F} `{Write F} m w addr (dst : F) count
    : outcome (gresult unit * (F * W)) :=
  p ← memory_write_to m w addr dst count; Ret (complete count p).

Definition memory_store {T} `{AtomicAccess T} m w (val : T) addr (order : Ordering) : outcome (gresult unit * W) :=
  on_region m addr (λ e, (Err e, w)) (λ region region_addr, store region w val region_addr order).
Definition memory_load T `{AtomicAccess T} m w addr (order : Ordering) : outcome (gresult T * W) :=
  on_region m addr (λ e, (Err e, w)) (λ region region_addr, load T region w region_addr order).

#[export] Instance memory_bytes : Bytes M GuestAddress GuestError W := {|
  write := memory_write;
  read := memory_read;
  write_slice := memory_write_slice;
  read_slice := memory_read_slice;
  read_from := λ F _, memory_read_from;
  read_exact_from := λ F _, memory_read_exact_from;
  write_to := λ F _, memory_write_to;
  write_all_to := λ F _, memory_write_all_to;
  store := λ T _ _, memory_store;
  load := λ T _ _, memory_load T
|}.
End memory_bytes.

(** ** What a [GuestMemory] promises

    The guest-physical address [a] lies in region [r]; it is backed by memory. *)
Definition contains `{GuestMemoryRegion R W} (r : R) (a : Z) : Prop :=
  ga_0 (start_addr r) ≤ a < ga_0 (start_addr r) + len r.
Definition backed `{GuestMemory M} (m : M) (a : Z) : Prop :=
  ∃ r, r ∈ iter m ∧ contains r a.

Class GuestMemorySpec (M : Type) `{GuestMemory M} := {
  memory_ok : M → Prop;
  region_bounds : ∀ m r, memory_ok m → r ∈ iter m →
    0 ≤ ga_0 (start_addr r) ∧ 0 < len r < 2 ^ 64 ∧ ga_0 (start_addr r) + len r ≤ 2 ^ 64;
  contains_unique : ∀ m r r' a, memory_ok m → r ∈ iter m → r' ∈ iter m →
    contains r a → contains r' a → r = r';
  find_region_spec : ∀ m a, memory_ok m → in_bits 64 (ga_0 a) → ∃ o,
    find_region m a = Ret o ∧
    match o with
    | Some r => r ∈ iter m ∧ contains r (ga_0 a)
    | None => ∀ r, r ∈ iter m → ¬ contains r (ga_0 a)
    end
}.

(** Guest-physical addresses form a ring: the address after the last is 0. *)
Definition ring (addr : GuestAddress) (i : Z) : Z := wrap 64 (ga_0 addr + i).

Lemma ring_range addr i : in_bits 64 (ring addr i).
Proof. by apply wrap_range. Qed.
Lemma ring_0 addr : in_bits 64 (ga_0 addr) → ring addr 0 = ga_0 addr.
Proof. intros. unfold ring. rewrite Z.add_0_r. by apply wrap_small. Qed.
Lemma ring_add addr i j : wrap 64 (ring addr i + j) = ring addr (i + j).
Proof. unfold ring, wrap. rewrite Zplus_mod_idemp_l. f_equal. lia. Qed.
Lemma ring_inj addr i j :
  0 ≤ i < 2 ^ 64 → 0 ≤ j < 2 ^ 64 → ring addr i = ring addr j → i = j.
Proof.
  unfold ring, wrap. intros Hi Hj E.
  assert ((i - j) `mod` 2 ^ 64 = 0) as Hm.
  { replace (i - j) with (ga_0 addr + i - (ga_0 addr + j)) by lia.
    rewrite Zminus_mod, E, Z.sub_diag. done. }
  apply Z.mod_divide in Hm as [q Hq]; [nia|done].
Qed.
(** The next [k] addresses, where the ring is not left. *)
Lemma ring_next addr i k :
  0 ≤ k → ring addr i + k < 2 ^ 64 → ring addr (i + k) = ring addr i + k.
Proof.
  intros. rewrite <-ring_add. apply wrap_small. pose proof (ring_range addr i).
  unfold in_bits in *. lia.
Qed.

Section try_access_rule.
Context `{GuestMemorySpec M} {S : Type}.
Context (m : M) (count : Z) (addr : GuestAddress).
Context (f : Z → Z → MemoryRegionAddress → R → S → outcome (gresult Z * S)).
Context (I : Z → S → Prop) (Q : gresult Z → S → Prop).
Context (Hm : memory_ok m) (Ha : in_bits 64 (ga_0 addr)) (Hc : in_bits usize_bits count).

(** The callback, called for a piece of the range that lies in region [r]. *)
Context (Hf : ∀ total s r,
  I total s → 0 ≤ total ≤ count → total < count ∨ count = 0 →
  r ∈ iter m → contains r (ring addr total) →
  let off := ring addr total - ga_0 (start_addr r) in
  let n := Z.min (len r - off) (count - total) in
  wp (f total n (RegionAddr off) r s) (λ '(res, s'),
    match res with
    | Ok k => 0 ≤ k ≤ n ∧ if k =? 0 then Q (Ok total) s' else I (total + k) s'
    | Err e => Q (Err e) s'
    end)).
Context (Hdone : ∀ total s, I total s → 0 ≤ total ≤ count →
  0 < total ∧ total = count ∨ ¬ backed m (ring addr total) →
  Q (if total =? 0 then Err (InvalidGuestAddress addr) else Ok total) s).

Lemma access_done_Q total s :
  I total s → 0 ≤ total ≤ count → 0 < total ∧ total = count ∨ ¬ backed m (ring addr total) →
  (λ '(r, s'), Q r s') (access_done addr total s).
Proof.
  intros HI Ht Hd. pose proof (Hdone total s HI Ht Hd). unfold access_done.
  by destruct (total =? 0).
Qed.

Lemma region_addr_ok r a :
  contains r (ga_0 a) → region_to_region_addr r a = Some (RegionAddr (ga_0 a - ga_0 (start_addr r))).
Proof.
  intros [Hl Hu]. unfold region_to_region_addr. simpl.
  unfold impl_checked_offset_from, uint_checked_sub. rewrite (proj2 (Z.leb_le _ _)) by lia. simpl.
  unfold region_check_address, region_address_in_range. simpl.
  by rewrite (proj2 (Z.ltb_lt _ _)) by lia.
Qed.

(** The next address never overflows, and is 0 at the end of the ring. *)
Lemma next_address {A} total k (x : GuestAddress → A) (z : A) :
  ring addr total + k ≤ 2 ^ 64 →
  match overflowing_add (GuestAddr (ring addr total)) k with
  | (GuestAddr 0, _) => x (GuestAddr 0)
  | (result, false) => x result
  | (_, true) => z
  end = x (GuestAddr (ring addr (total + k))).
Proof.
  intros Hle. cbn [overflowing_add GuestAddress_Address impl_address_ops].
  unfold impl_overflowing_add, uint_overflowing_add. cbn [ga_0]. rewrite ring_add.
  destruct (Z.leb_spec (2 ^ 64) (ring addr total + k)).
  - rewrite <-ring_add. replace (ring addr total + k) with (2 ^ 64) by lia. done.
  - by destruct (ring addr (total + k)).
Qed.

Lemma access_step_wp cur total s :
  cur = GuestAddr (ring addr total) → 0 ≤ total ≤ count → total < count ∨ count = 0 → I total s →
  wp (access_step m count addr f (cur, total, s)) (λ r,
    match r with
    | inl (cur', total', s') => (cur' = GuestAddr (ring addr total') ∧ 0 ≤ total' ≤ count ∧
        (total' < count ∨ count = 0) ∧ I total' s') ∧ count - total' < count - total
    | inr p => (λ '(r, s'), Q r s') p
    end).
Proof.
  intros -> Ht Hlt HI. pose proof (usize_le_u64 _ Hc) as Hc64. unfold in_bits in Hc, Hc64.
  pose proof (ring_range addr total) as Hr. unfold in_bits in Hr.
  destruct (find_region_spec m (GuestAddr (ring addr total)) Hm Hr) as (o & E & Ho).
  unfold access_step. rewrite E, bind_ret. destruct o as [r|]; simpl in Ho; cycle 1.
  { apply wp_ret, access_done_Q; [done..|]. right. intros (r & Hin & Hcon). by apply (Ho r). }
  destruct Ho as [Hin Hcon]. destruct (region_bounds m r Hm Hin) as (? & ? & ?).
  rewrite region_addr_ok by done. cbn [unwrap ga_0]. rewrite bind_ret.
  pose proof Hcon as [Hlo Hhi]. cbn [raw_value MemoryRegionAddress_Address impl_address_ops mra_0].
  rewrite (usub_ok 64 (len r)) by (unfold in_bits; lia). rewrite bind_ret.
  rewrite usub_ok by (unfold in_bits; lia). rewrite bind_ret.
  rewrite as_u64_small, as_usize_small by (unfold in_bits; lia).
  apply wp_bind. eapply wp_mono; [by apply Hf|]. intros [[k|e] s'].
  - cbn beta iota. intros [Hk HQ]. destruct (Z.eqb_spec k 0) as [|Hk0]; [done|].
    rewrite uadd_ok by (unfold in_bits; lia). rewrite bind_ret.
    destruct (Z.eqb_spec (total + k) count) as [|Hne].
    { apply wp_ret, access_done_Q; [done|lia|left; lia]. }
    rewrite as_u64_small by (unfold in_bits; lia).       pose proof (next_address total k
      (λ c, Ret (inl (c, total + k, s')) : outcome (_ + gresult Z * S)) Panic ltac:(lia)) as En.
    cbn beta in En. rewrite En. apply wp_ret. split; [split_and!; [done|lia..|left; lia|done]|lia].
  - done.
Qed.

(** The rule: with an invariant of the callback [try_access] returns. *)
Lemma try_access_wp s :
  I 0 s → wp (try_access m count addr f s) (λ '(r, s'), Q r s').
Proof.
  intros HI. unfold try_access. pose proof (usize_le_u64 _ Hc) as Hc64. unfold in_bits in Hc, Hc64.
  apply (while_loop_wp _ (λ '(cur, total, s), cur = GuestAddr (ring addr total) ∧
    0 ≤ total ≤ count ∧ (total < count ∨ count = 0) ∧ I total s)
    (λ '(_, total, _), count - total)).
  - intros [[cur total] s'] (_ & ? & _). lia.
  - intros [[cur total] s'] (? & ? & ? & ?). eapply wp_mono; [by apply access_step_wp|].
    by intros [[[cur' total'] s'']|p].
  - rewrite ring_0 by done. split_and!; [by destruct addr|lia..|done].
  - lia.
Qed.
End try_access_rule.

(** ** Ranges *)
Section ranges.
Context `{GuestMemorySpec M}.
Implicit Types (m : M) (addr base : GuestAddress).

(** The first [n] addresses from [addr] on are backed. *)
Definition backed_range m addr (n : Z) : Prop := ∀ i, 0 ≤ i < n → backed m (ring addr i).

Lemma backed_range_more m addr total r k :
  backed_range m addr total → r ∈ iter m → contains r (ring addr total) → memory_ok m →
  k ≤ len r - (ring addr total - ga_0 (start_addr r)) → backed_range m addr (total + k).
Proof.
  intros Hb Hin [Hlo Hhi] Hm Hk i Hi. destruct (region_bounds m r Hm Hin) as (? & ? & ?).
  destruct (decide (i < total)); [apply Hb; lia|].
  replace i with (total + (i - total)) by lia. rewrite ring_next by lia.
  exists r. split; [done|]. split; lia.
Qed.

Lemma check_range_ok m base n :
  memory_ok m → in_bits 64 (ga_0 base) → in_bits usize_bits n →
  ∃ b, check_range m base n = Ret b ∧
    (b = true ↔ backed m (ga_0 base) ∧ backed_range m base n).
Proof.
  intros Hm Ha Hc. unfold check_range.
  assert (wp (try_access m n base (λ _ count _ _ (s : unit), Ret (Ok count, s)) tt) (λ '(r, _),
    match r with
    | Ok k => 0 ≤ k ≤ n ∧ backed m (ga_0 base) ∧ backed_range m base k ∧
        (k = n ∨ ¬ backed m (ring base k))
    | Err _ => ¬ backed m (ga_0 base)
    end)) as Hwp.
  { apply (try_access_wp _ _ _ _ (λ total _, backed_range m base total ∧
      (0 < total → backed m (ga_0 base))) (λ r (_ : unit), _) Hm Ha Hc).
    - intros total s r [Hb Hb0] Ht Hlt Hin Hcon off l. simpl.
      assert (backed m (ga_0 base)) as Hbase.
      { destruct (decide (total = 0)) as [->|]; [|apply Hb0; lia].
        rewrite ring_0 in Hcon by done. by exists r. }
      pose proof Hcon as [??]. split; [lia|].
      destruct (Z.eqb_spec l 0) as [E|].
      + split_and!; [lia..|done|done|left; lia].
      + split; [|done]. eapply backed_range_more; eauto. lia.
    - intros total s [Hb Hb0] Ht Hend. destruct (Z.eqb_spec total 0) as [->|].
      + destruct Hend as [?|Hn]; [lia|]. by rewrite ring_0 in Hn.
      + split_and!; [lia..|apply Hb0; lia|done|by destruct Hend as [[_ ?]|?]; [left|right]].
    - split; [intros i Hi; lia|lia]. }
  apply wp_inv in Hwp as ([[k|e] []] & -> & Hk); rewrite bind_ret; eexists; (split; [done|]).
  - destruct Hk as (Hk & Hb & Hr & Hend). rewrite Z.eqb_eq. split; [by intros ->|].
    intros [_ Hall]. destruct Hend as [|Hend]; [done|].
    destruct (decide (k = n)); [done|]. exfalso. apply Hend, Hall. lia.
  - split; [done|]. by intros [? _].
Qed.
(** C7: [check_range] returns, and its answer is true exactly when the base
    address and every address of the range are backed by some region, whether
    or not the range spans several regions or passes the end of the address
    space. *)
Theorem check_range_iff m base n :
  memory_ok m → in_bits 64 (ga_0 base) → in_bits usize_bits n →
  ∃ b, check_range m base n = Ret b ∧
    (b = true ↔ backed m (ga_0 base) ∧ backed_range m base n).
Proof. apply check_range_ok. Qed.

(** The region and the offset of a backed address. *)
Lemma to_region_addr_ok m a :
  memory_ok m → in_bits 64 (ga_0 a) → ∃ o, to_region_addr m a = Ret o ∧
    match o with
    | Some (r, off) => r ∈ iter m ∧ contains r (ga_0 a) ∧ off = RegionAddr (ga_0 a - ga_0 (start_addr r))
    | None => ¬ backed m (ga_0 a)
    end.
Proof.
  intros Hm Ha. destruct (find_region_spec m a Hm Ha) as (o & E & Ho).
  unfold to_region_addr. rewrite E, bind_ret. destruct o as [r|].
  - destruct Ho as [Hin Hcon]. rewrite region_addr_ok by done. simpl. eexists. split; [done|].
    split_and!; done.
  - eexists. split; [done|]. intros (r & Hin & Hcon). by apply (Ho r).
Qed.

(** on a well-formed memory [to_region_addr] never panics: it returns the
    one region that contains the address with the offset of the address in
    it, which is below the length of the region, and [None] exactly when no
    region does; [address_in_range] and [check_address] agree with it. *)
Theorem to_region_addr_spec m a :
  memory_ok m → in_bits 64 (ga_0 a) → ∃ o, to_region_addr m a = Ret o ∧
    (∀ r off, o = Some (r, off) ↔
       r ∈ iter m ∧ ga_0 a = ga_0 (start_addr r) + mra_0 off ∧ 0 ≤ mra_0 off < len r) ∧
    address_in_range m a = Ret (bool_decide (is_Some o)) ∧
    check_address m a = Ret (if bool_decide (is_Some o) then Some a else None) ∧
    (o = None ↔ ¬ backed m (ga_0 a)).
Proof.
  intros Hm Ha. destruct (to_region_addr_ok m a Hm Ha) as (o & E & Ho). exists o.
  destruct (find_region_spec m a Hm Ha) as (o' & E' & _).
  assert (is_Some o ↔ is_Some o') as Hiff.
  { revert E. unfold to_region_addr. rewrite E', bind_ret. destruct o' as [r|]; simpl.
    - destruct (region_to_region_addr r a); simpl; intros [= <-]; split; eauto.
    - intros [= <-]. done. }
  split_and!; [done| | | |].
  - intros r off. destruct o as [[r' off']|].
    + destruct Ho as (Hin & Hcon & ->). pose proof Hcon as [??]. split.
      * intros [= -> <-]. simpl. split_and!; [done|lia..].
      * intros (Hin' & Ea & Hoff). assert (r = r') as -> by
          (apply (contains_unique m _ _ (ga_0 a)); try done; split; lia).
        destruct off as [off]. simpl in *. do 3 f_equal. lia.
    + split; [done|]. intros (Hin & Ea & ?). destruct Ho. exists r. split; [done|]. split; lia.
  - unfold address_in_range. rewrite E', bind_ret. f_equal.
    destruct o', o; simpl; try done; exfalso; destruct Hiff as [H4 H5];
      [by destruct H5; eauto|by destruct H4; eauto].
  - unfold check_address. rewrite E', bind_ret. f_equal.
    destruct o', o; simpl; try done; exfalso; destruct Hiff as [H4 H5];
      [by destruct H5; eauto|by destruct H4; eauto].
  - destruct o as [[r off]|]; [|done]. destruct Ho as (? & ? & _). split; [done|].
    intros Hn. destruct Hn. by exists r.
Qed.

Lemma region_last_addr_ok r :
  0 ≤ ga_0 (start_addr r) → 0 < len r < 2 ^ 64 → ga_0 (start_addr r) + len r ≤ 2 ^ 64 →
  region_last_addr r = Ret (GuestAddr (ga_0 (start_addr r) + len r - 1)).
Proof.
  intros. unfold region_last_addr. rewrite usub_ok by (unfold in_bits; lia). simpl.
  unfold impl_unchecked_add. rewrite uadd_ok by (unfold in_bits; lia). simpl.
  do 2 f_equal. lia.
Qed.

(** [last_addr] of a well-formed memory with regions is its greatest backed
    address. *)
Theorem last_addr_greatest m :
  memory_ok m → iter m ≠ [] → ∃ a, last_addr m = Ret a ∧ backed m (ga_0 a) ∧
    ∀ x, backed m x → x ≤ ga_0 a.
Proof.
  intros Hm Hne. unfold last_addr.
  assert (∀ l a, l ⊆ iter m → ∃ b,
    foldl (λ acc r, acc ← acc; a ← region_last_addr r; Ret (max_addr acc a)) (Ret a) l = Ret b ∧
    ga_0 a ≤ ga_0 b ∧ (b = a ∨ backed m (ga_0 b)) ∧
    ∀ r x, r ∈ l → contains r x → x ≤ ga_0 b) as Hfold.
  { induction l as [|r l IH]; intros a Hl; simpl.
    { exists a. split_and!; [done|lia|by left|]. intros r x Hr. by apply not_elem_of_nil in Hr. }
    assert (r ∈ iter m) as Hin by (apply Hl; left).
    destruct (region_bounds m r Hm Hin) as (? & ? & ?).
    rewrite region_last_addr_ok by done. simpl.
    destruct (IH (max_addr a (GuestAddr (ga_0 (start_addr r) + len r - 1))))
      as (b & -> & Hle & Hor & Hall); [by intros y Hy; apply Hl; right|].
    exists b. split; [done|]. unfold max_addr in *. simpl in *.
    destruct (Z.leb_spec (ga_0 a) (ga_0 (start_addr r) + len r - 1)); simpl in *;
      (split_and!; [lia| |]).
    - right. destruct Hor as [->|]; [|done]. exists r. split; [done|]. split; simpl; lia.
    - intros r' x [->|Hr']%elem_of_cons [??]; [lia|]. apply (Hall r'); [done|]. by split.
    - naive_solver.
    - intros r' x [->|Hr']%elem_of_cons [??]; [lia|]. apply (Hall r'); [done|]. by split. }
  destruct (Hfold (iter m) (GuestAddr 0)) as (b & -> & Hle & Hor & Hall); [done|].
  exists b. split; [done|]. split.
  - destruct Hor as [->|]; [|done]. destruct (iter m) as [|r l] eqn:E; [done|].
    destruct (region_bounds m r Hm) as (? & ? & ?); [rewrite E; left|].
    assert (0 ≤ ga_0 (GuestAddr 0)) by done.
    exists r. split; [rewrite E; left|]. split; simpl.
    + specialize (Hall r (ga_0 (start_addr r)) ltac:(left) ltac:(split; lia)). simpl in Hall. lia.
    + lia.
  - intros x (r & Hin & Hcon). by apply (Hall r).
Qed.
End ranges.

(** ** What a region promises

    [view w r] is the contents of region [r] in state [w].  An access that fits
    the region moves all of its bytes; a write changes the region and no region
    that is [separate] from it.  A region that gives out a slice gives out its
    contents. *)
Class RegionSpec (R W : Type) `{GuestMemoryRegion R W} := {
  region_ok : W → R → Prop;
  view : W → R → list byte;
  separate : R → R → Prop;
  replaced : W → W → R → list byte → Prop := λ w w' r bs,
    region_ok w' r ∧ view w' r = bs ∧
    ∀ r', separate r r' → region_ok w r' → region_ok w' r' ∧ view w' r' = view w r';
  view_length : ∀ w r, region_ok w r → lenZ (view w r) = len r;
  write_fits : ∀ w r off buf, region_ok w r → 0 ≤ off < len r → off + lenZ buf ≤ len r →
    ∃ w', write r w buf (RegionAddr off) = Ret (Ok (lenZ buf), w') ∧
      replaced w w' r (list_inserts (Z.to_nat off) buf (view w r));
  read_fits : ∀ w r off buf, region_ok w r → 0 ≤ off < len r → off + lenZ buf ≤ len r →
    read r w buf (RegionAddr off)
      = Ret (Ok (lenZ buf), (take (length buf) (drop (Z.to_nat off) (view w r)), w));
  as_mut_slice_ok : ∀ w r bs put, region_ok w r → region_as_mut_slice r w = Some (bs, put) →
    bs = view w r ∧ in_bits usize_bits (len r) ∧
    ∀ bs', length bs' = length bs → replaced w (put bs') r bs';
  as_slice_ok : ∀ w r bs, region_ok w r → region_as_slice r w = Some bs →
    bs = view w r ∧ in_bits usize_bits (len r)
}.

Instance contains_dec `{GuestMemoryRegion R W} (r : R) (a : Z) : Decision (contains r a).
Proof. unfold contains. apply _. Defined.

Lemma list_find_absent {A} (P : A → Prop) `{∀ x, Decision (P x)} (l : list A) x :
  list_find P l = None → x ∈ l → ¬ P x.
Proof.
  intros E Hx. apply list_find_None in E. rewrite Forall_forall in E.
  by apply E, list_elem_of_In.
Qed.

Section contents.
Context `{GuestMemorySpec M} `{!RegionSpec R W}.
Implicit Types (m : M) (w : W) (addr : GuestAddress).

(** All regions are in order, and distinct regions are separate. *)
Definition world_ok m w : Prop :=
  (∀ r, r ∈ iter m → region_ok w r) ∧
  (∀ r r', r ∈ iter m → r' ∈ iter m → r ≠ r' → separate r r').

(** The byte at a guest-physical address. *)
Definition guest_byte m w (a : Z) : option byte :=
  '(_, r) ← list_find (λ r, contains r a) (iter m);
  view w r !! Z.to_nat (a - ga_0 (start_addr r)).

Lemma guest_byte_in m w r a :
  memory_ok m → r ∈ iter m → contains r a →
  guest_byte m w a = view w r !! Z.to_nat (a - ga_0 (start_addr r)).
Proof.
  intros Hm Hin Hcon. unfold guest_byte.
  destruct (list_find (λ r, contains r a) (iter m)) as [[i r']|] eqn:E; simpl.
  - apply list_find_Some in E as (Hi & Hcon' & _).
    apply list_elem_of_lookup_2 in Hi. by assert (r' = r) as -> by (by eapply contains_unique).
  - by destruct (list_find_absent _ _ _ E Hin).
Qed.
Lemma guest_byte_out m w a : ¬ backed m a → guest_byte m w a = None.
Proof.
  intros Hn. unfold guest_byte.
  destruct (list_find (λ r, contains r a) (iter m)) as [[i r']|] eqn:E; simpl; [|done].
  apply list_find_Some in E as (Hi & Hcon' & _). apply list_elem_of_lookup_2 in Hi.
  destruct Hn. by exists r'.
Qed.

(** Replacing bytes of one region changes those guest-physical addresses. *)
Lemma guest_byte_replaced m w w' r off bs :
  memory_ok m → world_ok m w → r ∈ iter m → 0 ≤ off → off + lenZ bs ≤ len r →
  replaced w w' r (list_inserts (Z.to_nat off) bs (view w r)) →
  let first := ga_0 (start_addr r) + off in
  world_ok m w' ∧ ∀ a, guest_byte m w' a =
    if decide (first ≤ a < first + lenZ bs) then bs !! Z.to_nat (a - first)
    else guest_byte m w a.
Proof.
  intros Hm [Hok Hsep] Hin Hoff Hle (Hok' & Hv & Hother) first.
  pose proof (view_length w r (Hok r Hin)) as Hl.
  assert (∀ r' a, r' ∈ iter m → contains r' a → ¬ contains r a → separate r r') as Hne.
  { intros r' a Hin' Hcon Hn. apply Hsep; [done..|]. by intros ->. }
  split.
  - split; [|done]. intros r' Hin'. destruct (region_bounds m r' Hm Hin') as (? & ? & ?).
    set (a := ga_0 (start_addr r')). assert (contains r' a) by (unfold contains, a; lia).
    destruct (decide (contains r a)) as [Hcon|Hcon].
    + by assert (r' = r) as -> by (by eapply contains_unique).
    + apply Hother; [by eapply Hne|by apply Hok].
  - intros a. destruct (list_find (λ r, contains r a) (iter m)) as [[i r']|] eqn:E; cycle 1.
    { unfold guest_byte. rewrite E, decide_False; [done|]. intros Hx.
      apply (list_find_absent _ _ _ E Hin). unfold contains. lia. }
    apply list_find_Some in E as (Hi & Hcon & _). apply list_elem_of_lookup_2 in Hi.
    rewrite !(guest_byte_in m _ r') by done. destruct (decide (contains r a)) as [Hc|Hc].
    + assert (r' = r) as -> by (by eapply contains_unique). rewrite Hv. destruct Hc as [??].
      case_decide as Hx.
      * rewrite list_lookup_inserts by lia. f_equal. lia.
      * destruct (decide (a < first)); [rewrite list_lookup_inserts_lt by lia; done|].
        rewrite list_lookup_inserts_ge by lia. done.
    + rewrite decide_False by (unfold contains in Hc; lia).
      by destruct (Hother r') as [_ ->]; [eapply Hne|apply Hok|].
Qed.

(** From [w] to [w'], the bytes from [addr] on became [bs] and nothing else of
    the guest's memory changed. *)
Definition stored m w w' addr (bs : list byte) : Prop :=
  world_ok m w' ∧ ∀ a, in_bits 64 a → guest_byte m w' a =
    let i := wrap 64 (a - ga_0 addr) in
    if decide (i < lenZ bs) then bs !! Z.to_nat i else guest_byte m w a.

Lemma ring_index addr a total k :
  in_bits 64 a → 0 ≤ total → 0 ≤ k → total + k ≤ 2 ^ 64 → ring addr total + k ≤ 2 ^ 64 →
  let i := wrap 64 (a - ga_0 addr) in
  (ring addr total ≤ a < ring addr total + k ↔ total ≤ i < total + k) ∧
  (total ≤ i < total + k → a - ring addr total = i - total).
Proof.
  intros Ha Ht Hk Hle Hr i. assert (in_bits 64 i) as Hi by (by apply wrap_range).
  assert (a = ring addr i) as Ea.
  { unfold ring, i, wrap. rewrite Zplus_mod_idemp_r.
    replace (ga_0 addr + (a - ga_0 addr)) with a by lia. by rewrite Z.mod_small. }
  pose proof (ring_range addr total). unfold in_bits in *.
  assert (total ≤ i < total + k → a = ring addr total + (i - total)) as Hfwd.
  { intros ?. rewrite Ea. replace i with (total + (i - total)) at 1 by lia.
    apply ring_next; [lia|]. destruct (decide (ring addr total + (i - total) < 2 ^ 64)); lia. }
  split; [split|]; [|intros ?; rewrite Hfwd by done; lia|lia].
  intros ?. assert (i = total + (a - ring addr total)); [|lia].
  apply (ring_inj addr); [done|lia|]. rewrite ring_next by lia. lia.
Qed.

Lemma stored_nil m w addr : world_ok m w → stored m w w addr [].
Proof.
  intros Hw. split; [done|]. intros a Ha. simpl. rewrite decide_False; [done|].
  pose proof (wrap_range 64 (a - ga_0 addr)). unfold in_bits in *. lia.
Qed.

Lemma stored_more m w w1 w2 addr xs r ys :
  memory_ok m → stored m w w1 addr xs → r ∈ iter m → contains r (ring addr (lenZ xs)) →
  let off := ring addr (lenZ xs) - ga_0 (start_addr r) in
  off + lenZ ys ≤ len r → lenZ xs + lenZ ys ≤ 2 ^ 64 →
  replaced w1 w2 r (list_inserts (Z.to_nat off) ys (view w1 r)) →
  stored m w w2 addr (xs ++ ys).
Proof.
  intros Hm [Hw1 Hs1] Hin [??] off Hle Hle64 Hrep. destruct (region_bounds m r Hm Hin) as (? & ? & ?).
  destruct (guest_byte_replaced m w1 w2 r off ys) as [Hw2 Hs2]; [done..|lia|done|done|].
  split; [done|]. intros a Ha. rewrite Hs2, Hs1 by done. cbn zeta.
  replace (ga_0 (start_addr r) + off) with (ring addr (lenZ xs)) by lia.
  destruct (ring_index addr a (lenZ xs) (lenZ ys)) as [Hiff Heq]; [done|lia..|].
  assert (in_bits 64 (wrap 64 (a - ga_0 addr))) as [Hi _] by (by apply wrap_range).
  rewrite length_app, Nat2Z.inj_add.
  destruct (decide (ring addr (lenZ xs) ≤ a < ring addr (lenZ xs) + lenZ ys)) as [Hx|Hx].
  - apply Hiff in Hx. rewrite decide_True, Heq, lookup_app_r by lia. f_equal. lia.
  - rewrite Hiff in Hx. repeat case_decide; try lia; [|done]. by rewrite lookup_app_l by lia.
Qed.
End contents.

(** ** Streams into and out of guest memory *)
Section index.
Lemma index_range_ok l a b :
  0 ≤ a ≤ b → b ≤ lenZ l →
  index_range l a b = Ret (take (Z.to_nat (b - a)) (drop (Z.to_nat a) l)).
Proof. intros. unfold index_range. rewrite !(proj2 (Z.leb_le _ _)) by lia. done. Qed.
Lemma update_range_ok l a b src :
  0 ≤ a ≤ b → b ≤ lenZ l → lenZ src = b - a →
  update_range l a b src = Ret (take (Z.to_nat a) l ++ src ++ drop (Z.to_nat b) l).
Proof.
  intros. unfold update_range.
  rewrite !(proj2 (Z.leb_le _ _)), (proj2 (Z.eqb_eq _ _)) by lia. done.
Qed.
End index.

Section region_streams.
Context `{RegionSpec R W}.
Implicit Types (r : R) (w : W).

Lemma replaced_refl w r : region_ok w r → replaced w w r (view w r).
Proof. intros. by split; [|split]. Qed.

Section reader.
Context `{ReadSpec F}.
Implicit Types (src : F).

(** What [src.read(buf)] with retries returns. *)
Definition read_result (n : Z) src (res : gresult Z) src' : Prop :=
  match res with
  | Ok k => 0 ≤ k ≤ n ∧ k ≤ lenZ (stream src) ∧ stream src' = drop (Z.to_nat k) (stream src) ∧
      read_pending src' ≤ read_pending src ∧ (k = 0 → n = 0 ∨ stream src = [])
  | Err e => ∃ io, e = GIOError io ∧ reader_failed io src' ∧ stream src' = stream src
  end.

Lemma read_retry_wp (call : F * list byte → outcome (result Z io_error * (F * list byte)))
    (n off : Z) (old : list byte) src :
  0 ≤ n → 0 ≤ off → off + n ≤ lenZ old →
  (∀ src', call (src', old) =
    let '(r, piece, src'') := io_read src' (take (Z.to_nat n) (drop (Z.to_nat off) old)) in
    Ret (r, (src'', take (Z.to_nat off) old ++ piece ++ drop (Z.to_nat (off + n)) old))) →
  read_pending src < 2 ^ 64 →
  wp (VolatileBytes.retry GIOError call (src, old)) (λ '(res, (src', new)),
    read_result n src res src' ∧
    new = match res with
          | Ok k => list_inserts (Z.to_nat off) (take (Z.to_nat k) (stream src)) old
          | Err _ => old
          end).
Proof.
  intros Hn Hoff Hle Hcall Hp.
  apply (retry_wp _ _ (λ '(src', l), l = old ∧ stream src' = stream src ∧
    read_pending src' ≤ read_pending src) (λ '(src', _), read_pending src')
    (λ res '(src', new), _)); [by intros [??] _; apply read_pending_nonneg| |done|done].
  intros [src1 l] (-> & Hst & Hpend). rewrite Hcall.
  set (piece := take (Z.to_nat n) (drop (Z.to_nat off) old)).
  assert (lenZ piece = n) as Hl by (unfold piece; rewrite length_take, length_drop; lia).
  destruct (io_read src1 piece) as [[[k|e] piece'] src'] eqn:E; apply wp_ret.
  - pose proof (io_read_ok _ _ _ _ _ E) as (Hk & Hks & -> & Hst' & Hp').
    rewrite Hst in *. split.
    + split_and!; [lia..|done|lia|]. intros ->.
      destruct piece as [|x piece']; [left; simpl in Hl; lia|right].
      rewrite <-Hst. by eapply io_read_eof.
    + replace (Z.to_nat (off + n)) with (Z.to_nat off + Z.to_nat n)%nat by lia.
      apply inserts_window; [rewrite length_take|]; lia.
  - pose proof (io_read_err _ _ _ _ _ E) as (-> & Hst' & Hp'). unfold piece.
    replace (Z.to_nat (off + n)) with (Z.to_nat off + Z.to_nat n)%nat by lia.
    rewrite <-(drop_drop old), take_drop, take_drop. case_decide as Hint.
    + specialize (Hp' Hint). split_and!; [done|congruence|lia|lia].
    + split; [|done]. exists e. split_and!; [done|split; eauto|congruence].
Qed.

(** One [src.read(&mut dst[off..off + n])] fills the window and keeps the rest. *)
Lemma read_window src (old : list byte) (off n : Z) :
  0 ≤ n → 0 ≤ off → off + n ≤ lenZ old →
  (piece ← index_range old off (off + n);
   let '(r, piece, src) := io_read src piece in
   dst ← update_range old off (off + n) piece;
   Ret (r, (src, dst))) =
  let '(r, piece, src') := io_read src (take (Z.to_nat n) (drop (Z.to_nat off) old)) in
  Ret (r, (src', take (Z.to_nat off) old ++ piece ++ drop (Z.to_nat (off + n)) old)).
Proof.
  intros. rewrite index_range_ok by lia. rewrite bind_ret.
  replace (off + n - off) with n by lia.
  set (piece := take (Z.to_nat n) (drop (Z.to_nat off) old)).
  destruct (io_read src piece) as [[res piece'] src'] eqn:E.
  rewrite update_range_ok; [done|lia..|].
  assert (lenZ piece = n) as Hlp by (unfold piece; rewrite length_take, length_drop; lia).
  replace (off + n - off) with (lenZ piece) by lia. f_equal.
  destruct res as [k|e].
  - apply io_read_ok in E as (_ & _ & -> & _). apply length_inserts.
  - by apply io_read_err in E as (-> & _).
Qed.

Lemma read_from_chunk_wp count offset n off r src w :
  region_ok w r → 0 ≤ off < len r → 0 ≤ n → off + n ≤ len r → offset ≤ count →
  in_bits usize_bits n → read_pending src < 2 ^ 64 →
  wp (read_from_chunk count offset n (RegionAddr off) r (src, w)) (λ '(res, (src', w')),
    read_result n src res src' ∧
    replaced w w' r match res with
      | Ok k => list_inserts (Z.to_nat off) (take (Z.to_nat k) (stream src)) (view w r)
      | Err _ => view w r
      end).
Proof.
  intros Hok Hoff Hn Hle Hc Hb Hp. pose proof (view_length w r Hok) as Hl.
  unfold read_from_chunk. rewrite (proj2 (Z.leb_le _ _)) by done.
  cbn [rassert]. rewrite bind_ret.
  destruct (region_as_mut_slice r w) as [[dst put]|] eqn:Es.
  - destruct (as_mut_slice_ok w r dst put Hok Es) as (-> & Hlb & Hput). unfold in_bits in Hlb.
    cbn [raw_value MemoryRegionAddress_Address impl_address_ops mra_0].
    rewrite as_usize_small by (unfold in_bits; lia).
    rewrite uadd_ok by (unfold in_bits; lia). rewrite bind_ret. apply wp_bind.
    eapply wp_mono; [apply (read_retry_wp _ n off (view w r)); try done; try lia|].
    + intros src'. by apply read_window; lia.
    + intros [res [src' new]] [Hr ->]. apply wp_ret. split; [done|]. apply Hput.
      destruct res; [apply length_inserts|done].
  - set (l := Z.min n MAX_ACCESS_CHUNK). set (buf := replicate (Z.to_nat l) x00).
    assert (0 ≤ l) by (unfold l, MAX_ACCESS_CHUNK; lia).
    assert (lenZ buf = l) as Hbuf by (unfold buf; rewrite length_replicate; lia).
    apply wp_bind. eapply wp_mono; [apply (read_retry_wp _ l 0 buf); try done; try lia|].
    { intros src'. rewrite drop_0, take_ge by lia.
      destruct (io_read src' buf) as [[res piece] src'']. cbn [app take Z.to_nat].
      rewrite drop_ge, app_nil_r by lia. done. }
    intros [[k|e] [src' new]] [Hr ->].
    + destruct Hr as (Hk & Hks & Hst & Hp' & Hz).
      assert (lenZ (take (Z.to_nat k) (stream src)) = k) as Hlk by (rewrite length_take; lia).
      rewrite inserts_0 by lia. rewrite index_range_ok; [|lia|].
      2: { rewrite length_app, length_drop. lia. }
      rewrite bind_ret, drop_0, Z.sub_0_r, take_app_length' by lia.
      destruct (write_fits w r off (take (Z.to_nat k) (stream src))) as (w' & -> & Hrep);
        [done..|lia|].
      rewrite Hlk, bind_ret, Z.eqb_refl. cbn [rassert]. rewrite bind_ret. apply wp_ret.
      split; [|done]. split_and!; [lia..|done|done|]. intros ->.
      destruct (Hz eq_refl) as [E|E]; [left|by right].
      unfold l, MAX_ACCESS_CHUNK in E. lia.
    + destruct Hr as (io & ? & ? & ?). apply wp_ret. split; [by exists io|]. by apply replaced_refl.
Qed.
End reader.

Section writer.
Context `{WriteSpec F}.
Implicit Types (dst : F).

(** [bs] was appended to the writer, and the result is its length unless
    the writer failed. *)
Definition write_result dst (bs : list byte) (res : gresult Z) dst' : Prop :=
  written dst' = written dst ++ bs ∧
  match res with
  | Ok k => k = lenZ bs ∧ write_pending dst' ≤ write_pending dst
  | Err e => ∃ io, e = GIOError io ∧ (writer_failed io dst' ∨ writer_full io dst')
  end.

(** [dst.write(&src[off..off + n])] with retries sends a prefix of the window. *)
Lemma write_window_wp dst (src : list byte) (off n : Z) :
  0 ≤ n → 0 ≤ off → off + n ≤ lenZ src → write_pending dst < 2 ^ 64 →
  wp (VolatileBytes.retry GIOError (λ dst,
        piece ← index_range src off (off + n); Ret (io_write dst piece)) dst) (λ '(res, dst'),
    ∃ j, 0 ≤ j ≤ n ∧ write_result dst (take (Z.to_nat j) (drop (Z.to_nat off) src)) res dst').
Proof.
  intros. apply (retry_wp _ _
    (λ dst', written dst' = written dst ∧ write_pending dst' ≤ write_pending dst)
    write_pending (λ res dst', _)); [by intros; apply write_pending_nonneg| |done|lia].
  intros dst1 [Hw Hp1]. rewrite index_range_ok by lia. rewrite bind_ret.
  replace (off + n - off) with n by lia.
  set (piece := take (Z.to_nat n) (drop (Z.to_nat off) src)).
  assert (lenZ piece = n) as Hlp by (unfold piece; rewrite length_take, length_drop; lia).
  destruct (io_write dst1 piece) as [[k|e] dst'] eqn:E; apply wp_ret.
  - apply io_write_ok in E as (Hk & Hw' & Hp').
    assert (take (Z.to_nat k) piece = take (Z.to_nat k) (drop (Z.to_nat off) src)) as Ek
      by (unfold piece; rewrite take_take; f_equal; lia).
    exists k. split; [lia|]. split; [congruence|]. split; [|lia].
    rewrite <-Ek, length_take. lia.
  - pose proof (io_write_err _ _ _ _ E) as (Hw' & Hint). case_decide as Hi.
    + specialize (Hint Hi). split_and!; [congruence|lia|lia].
    + exists 0. split; [lia|]. split; [rewrite app_nil_r; congruence|].
      exists e. split; [done|]. left. split; eauto.
Qed.

Lemma write_to_chunk_wp count offset n off r dst w :
  region_ok w r → 0 ≤ off < len r → 0 ≤ n → off + n ≤ len r → offset ≤ count →
  in_bits usize_bits n → n + write_pending dst < 2 ^ 64 →
  wp (write_to_chunk count offset n (RegionAddr off) r (dst, w)) (λ '(res, (dst', w')),
    w' = w ∧ (res = Ok 0 → n = 0 ∨ is_Some (region_as_slice r w)) ∧ ∃ j, 0 ≤ j ≤ n ∧
      write_result dst (take (Z.to_nat j) (drop (Z.to_nat off) (view w r))) res dst').
Proof.
  intros Hok Hoff Hn Hle Hc Hb Hp. pose proof (view_length w r Hok) as Hl.
  unfold write_to_chunk. rewrite (proj2 (Z.leb_le _ _)) by done.
  cbn [rassert]. rewrite bind_ret.
  destruct (region_as_slice r w) as [src|] eqn:Es.
  - destruct (as_slice_ok w r src Hok Es) as (-> & Hlb). unfold in_bits in Hlb.
    cbn [raw_value MemoryRegionAddress_Address impl_address_ops mra_0].
    rewrite as_usize_small by (unfold in_bits; lia).
    rewrite uadd_ok by (unfold in_bits; lia). rewrite bind_ret. apply wp_bind.
    eapply wp_mono; [by apply (write_window_wp dst (view w r) off n); lia|].
    intros [res dst'] ?. by split_and!; [|right; eexists|].
  - set (l := Z.min n MAX_ACCESS_CHUNK). set (buf := replicate (Z.to_nat l) x00).
    assert (0 ≤ l) by (unfold l, MAX_ACCESS_CHUNK; lia).
    assert (lenZ buf = l) as Hbuf by (unfold buf; rewrite length_replicate; lia).
    rewrite read_fits by (done || lia). rewrite bind_ret, Hbuf, Z.eqb_refl.
    cbn [rassert]. rewrite bind_ret.
    replace (length buf) with (Z.to_nat l) by lia.
    set (piece := take (Z.to_nat l) (drop (Z.to_nat off) (view w r))).
    assert (lenZ piece = l) as Hlp by (unfold piece; rewrite length_take, length_drop; lia).
    apply wp_bind. eapply wp_mono; [apply write_all_wp; lia|].
    intros [res dst'] (k & Hk & Hw & Hres).
    assert (take k piece = take (Z.to_nat (Z.of_nat k)) (drop (Z.to_nat off) (view w r))) as Ek
      by (unfold piece; rewrite take_take; f_equal; lia).
    destruct res as [[]|e]; apply wp_ret; (split; [done|]).
    + split; [intros [= E]; left; unfold l, MAX_ACCESS_CHUNK in E; lia|].
      exists (Z.of_nat k). split; [lia|]. split; [congruence|]. split; [|apply Hres].
      rewrite <-Ek, length_take. lia.
    + split; [done|]. exists (Z.of_nat k). split; [lia|]. split; [congruence|].
      exists e. split; [done|apply Hres].
Qed.
End writer.
End region_streams.

Section memory_streams.
Context `{GuestMemorySpec M} `{!RegionSpec R W}.
Implicit Types (m : M) (w : W) (addr : GuestAddress).

(** Why a transfer ended: [n] bytes were moved, out of [count] asked for, and
    [exhausted] says that the stream could not move more, [failed] that it
    failed.  The result tells whether the first address is backed. *)
Definition ended m addr (count n : Z) (exhausted : Prop) (failed : io_error → Prop)
    (res : gresult Z) : Prop :=
  match res with
  | Ok k => k = n ∧ backed m (ga_0 addr) ∧ (n = count ∨ exhausted ∨ ¬ backed m (ring addr n))
  | Err (InvalidGuestAddress a) => a = addr ∧ n = 0 ∧ ¬ backed m (ga_0 addr)
  | Err (GIOError io) => failed io ∧ backed m (ga_0 addr)
  | Err _ => False
  end.

Lemma ended_done m addr count total exhausted failed :
  in_bits 64 (ga_0 addr) → backed_range m addr total → 0 ≤ total →
  0 < total ∧ total = count ∨ ¬ backed m (ring addr total) →
  ended m addr count total exhausted failed (if total =? 0 then Err (InvalidGuestAddress addr) else Ok total).
Proof.
  intros Ha Hb Ht Hend. destruct (Z.eqb_spec total 0) as [->|]; simpl.
  - rewrite ring_0 in Hend by done. destruct Hend as [?|?]; [lia|done].
  - split; [done|]. split.
    + rewrite <-ring_0 by done. apply Hb. lia.
    + destruct Hend as [[_ ?]|?]; auto.
Qed.
Lemma backed_here m addr total r :
  in_bits 64 (ga_0 addr) → backed_range m addr total → 0 ≤ total →
  r ∈ iter m → contains r (ring addr total) → backed m (ga_0 addr).
Proof.
  intros Ha Hb Ht Hin Hcon. rewrite <-ring_0 by done.
  destruct (decide (total = 0)) as [->|]; [by exists r|]. apply Hb. lia.
Qed.

Section reader.
Context `{ReadSpec F}.
Implicit Types (src : F).

(** [n] bytes of the stream are in memory from [addr] on. *)
Definition received m w addr src (n : Z) src' w' : Prop :=
  0 ≤ n ≤ lenZ (stream src) ∧ backed_range m addr n ∧
  stored m w w' addr (take (Z.to_nat n) (stream src)) ∧
  stream src' = drop (Z.to_nat n) (stream src).

Lemma received_more m w addr src total src1 w1 r k src2 w2 :
  memory_ok m → received m w addr src total src1 w1 → total + k ≤ 2 ^ 64 →
  r ∈ iter m → contains r (ring addr total) →
  let off := ring addr total - ga_0 (start_addr r) in
  0 ≤ k → k ≤ lenZ (stream src1) → off + k ≤ len r →
  stream src2 = drop (Z.to_nat k) (stream src1) →
  replaced w1 w2 r (list_inserts (Z.to_nat off) (take (Z.to_nat k) (stream src1)) (view w1 r)) →
  received m w addr src (total + k) src2 w2.
Proof.
  intros Hm (Ht & Hb & Hs & Hst) H64 Hin Hcon off Hk Hks Hle Hst2 Hrep.
  rewrite Hst in *. rewrite length_drop in Hks.
  assert (lenZ (take (Z.to_nat total) (stream src)) = total) as Hl by (rewrite length_take; lia).
  split_and!; [lia..| | |].
  - eapply backed_range_more; eauto. lia.
  - replace (take (Z.to_nat (total + k)) (stream src)) with
      (take (Z.to_nat total) (stream src) ++ take (Z.to_nat k) (drop (Z.to_nat total) (stream src))).
    + eapply (stored_more m w w1); rewrite ?Hl; try done; rewrite length_take, length_drop; lia.
    + replace (Z.to_nat (total + k)) with (Z.to_nat total + Z.to_nat k)%nat by lia.
      by rewrite take_take_drop.
  - rewrite Hst2, drop_drop. f_equal. lia.
Qed.

Lemma memory_read_from_ok m w addr src count :
  memory_ok m → world_ok m w → in_bits 64 (ga_0 addr) → in_bits usize_bits count →
  read_pending src < 2 ^ 64 →
  ∃ res src' w' n, memory_read_from m w addr src count = Ret (res, (src', w')) ∧
    n ≤ count ∧ received m w addr src n src' w' ∧
    ended m addr count n (stream src' = []) (λ io, reader_failed io src') res.
Proof.
  intros Hm Hw Ha Hc Hp. pose proof (usize_le_u64 _ Hc) as Hc64. unfold in_bits in Hc64.
  assert (wp (memory_read_from m w addr src count) (λ '(res, (src', w')), ∃ n,
    n ≤ count ∧ received m w addr src n src' w' ∧
    ended m addr count n (stream src' = []) (λ io, reader_failed io src') res)) as Hwp;
    [|apply wp_inv in Hwp as ([res [src' w']] & E & n & ?); by exists res, src', w', n].
  apply (try_access_wp _ _ _ _ (λ total '(src', w'), received m w addr src total src' w' ∧
    read_pending src' ≤ read_pending src) (λ res '(src', w'), _) Hm Ha Hc).
  - intros total [src1 w1] r [Hrec Hp1] Ht Hlt Hin Hcon off n.
    pose proof Hrec as (Ht' & Hb & [[Hok _] _] & Hst). pose proof Hcon as [??].
    assert (backed m (ga_0 addr)) by (eapply backed_here; eauto; lia).
    unfold in_bits in Hc.
    eapply wp_mono; [apply read_from_chunk_wp;
      solve [by apply Hok|lia|unfold in_bits; lia]|].
    intros [[k|e] [src2 w2]] [Hres Hrep].
    + destruct Hres as (Hk & Hks & Hst2 & Hp2 & Hz). split; [done|].
      assert (received m w addr src (total + k) src2 w2) as Hrec' by
        (eapply received_more; eauto; lia).
      destruct (Z.eqb_spec k 0) as [->|]; [|split; [done|lia]].
      exists total. rewrite Z.add_0_r in Hrec'. split_and!; [lia|done|].
      split; [done|]. split; [done|]. destruct (Hz eq_refl) as [?|Hnil]; [left; lia|right; left].
      by rewrite Hst2, Hnil, drop_nil.
    + destruct Hres as (io & -> & Hio & Hst2). exists total. split_and!; [lia| |done].
      rewrite <-(Z.add_0_r total). eapply received_more; eauto; lia.
  - intros total [src' w'] [Hrec _] Ht Hend. exists total. split_and!; [lia|done|].
    apply ended_done; [done| |lia|done]. by destruct Hrec as (_ & ? & _).
  - split; [|lia]. split_and!; [lia..| |by apply stored_nil|done]. intros i Hi. lia.
Qed.
(** C2: [read_from] with a reader that is interrupted finitely often returns.
    It moves the first [n] bytes of the stream to the addresses from [addr]
    on, across regions, and changes no other byte of the guest's memory.
    On success [n] is the result, and all bytes asked for were moved unless
    the stream ended or the next address is not backed; it fails with
    [InvalidGuestAddress] exactly when the first address is not backed, and
    otherwise only with the error with which the reader failed. *)
Theorem memory_read_from_stream m w addr src count :
  memory_ok m → world_ok m w → in_bits 64 (ga_0 addr) → in_bits usize_bits count →
  read_pending src < 2 ^ 64 →
  ∃ res src' w' n, memory_read_from m w addr src count = Ret (res, (src', w')) ∧
    n ≤ count ∧ received m w addr src n src' w' ∧
    ended m addr count n (stream src' = []) (λ io, reader_failed io src') res.
Proof. apply memory_read_from_ok. Qed.
End reader.

Section writer.
Context `{WriteSpec F}.
Implicit Types (dst : F).

(** [bs] is the contents of the guest's memory from [addr] on. *)
Definition guest_bytes m w addr (bs : list byte) : Prop :=
  backed_range m addr (lenZ bs) ∧
  ∀ i, 0 ≤ i < lenZ bs → guest_byte m w (ring addr i) = bs !! Z.to_nat i.

Lemma guest_bytes_more m w addr xs r j :
  memory_ok m → world_ok m w → guest_bytes m w addr xs → r ∈ iter m →
  contains r (ring addr (lenZ xs)) →
  let off := ring addr (lenZ xs) - ga_0 (start_addr r) in
  0 ≤ j → off + j ≤ len r →
  guest_bytes m w addr (xs ++ take (Z.to_nat j) (drop (Z.to_nat off) (view w r))).
Proof.
  intros Hm [Hok _] [Hb Hx] Hin Hcon off Hj Hle. pose proof Hcon as [??].
  destruct (region_bounds m r Hm Hin) as (? & ? & ?).
  pose proof (view_length w r (Hok r Hin)) as Hl.
  assert (lenZ (take (Z.to_nat j) (drop (Z.to_nat off) (view w r))) = j) as Hlj by
    (rewrite length_take, length_drop; lia).
  split; rewrite length_app, Nat2Z.inj_add, Hlj.
  - eapply backed_range_more; eauto. lia.
  - intros i Hi. destruct (decide (i < lenZ xs)).
    + rewrite Hx, lookup_app_l by lia. done.
    + replace i with (lenZ xs + (i - lenZ xs)) at 1 by lia. rewrite ring_next by lia.
      rewrite (guest_byte_in m w r) by (done || split; lia).
      rewrite lookup_app_r, lookup_take_lt, lookup_drop by lia. f_equal. lia.
Qed.

Lemma memory_write_to_ok m w addr dst count :
  memory_ok m → world_ok m w → in_bits 64 (ga_0 addr) → in_bits usize_bits count →
  count + write_pending dst < 2 ^ 64 →
  ∃ res dst' bs, memory_write_to m w addr dst count = Ret (res, (dst', w)) ∧
    lenZ bs ≤ count ∧ guest_bytes m w addr bs ∧ written dst' = written dst ++ bs ∧
    ended m addr count (lenZ bs) (∃ r, r ∈ iter m ∧ is_Some (region_as_slice r w))
      (λ io, writer_failed io dst' ∨ writer_full io dst') res.
Proof.
  intros Hm Hw Ha Hc Hp. pose proof (usize_le_u64 _ Hc) as Hc64. unfold in_bits in Hc64.
  assert (wp (memory_write_to m w addr dst count) (λ '(res, (dst', w')), w' = w ∧ ∃ bs,
    lenZ bs ≤ count ∧ guest_bytes m w addr bs ∧ written dst' = written dst ++ bs ∧
    ended m addr count (lenZ bs) (∃ r, r ∈ iter m ∧ is_Some (region_as_slice r w))
      (λ io, writer_failed io dst' ∨ writer_full io dst') res)) as Hwp;
    [|apply wp_inv in Hwp as ([res [dst' w']] & E & -> & bs & ?); by exists res, dst', bs].
  apply (try_access_wp _ _ _ _ (λ total '(dst', w'), w' = w ∧ ∃ bs, lenZ bs = total ∧
    guest_bytes m w addr bs ∧ written dst' = written dst ++ bs ∧
    write_pending dst' ≤ write_pending dst) (λ res '(dst', w'), _) Hm Ha Hc).
  - intros total [dst1 w1] r (-> & bs & <- & Hbs & Hw1 & Hp1) Ht Hlt Hin Hcon off n.
    pose proof Hcon as [??]. pose proof Hw as [Hok _]. unfold in_bits in Hc.
    assert (backed m (ga_0 addr)) by (eapply backed_here; [done|apply Hbs|lia|done..]).
    eapply wp_mono; [apply write_to_chunk_wp; solve [by apply Hok|lia|unfold in_bits; lia]|].
    intros [res [dst2 w2]] (-> & Hz & j & Hj & Hw2 & Hres).
    set (new := take _ _) in *. rewrite Hw1, <-app_assoc in Hw2.
    assert (guest_bytes m w addr (bs ++ new)) by (apply guest_bytes_more; done || lia).
    assert (lenZ new = j) as Hlj.
    { unfold new. rewrite length_take, length_drop.
      pose proof (view_length w r (Hok r Hin)). lia. }
    assert (lenZ (bs ++ new) = lenZ bs + lenZ new) as Hlen by (rewrite length_app; lia).
    destruct res as [k|e].
    + destruct Hres as [-> Hp2]. split; [lia|].
      destruct (Z.eqb_spec (lenZ new) 0) as [E|]; (split; [done|]); exists (bs ++ new).
      * split_and!; [lia|done..|]. split; [lia|]. split; [done|]. rewrite E in Hz.
        destruct (Hz eq_refl) as [?|?]; [left; lia|right; left; by exists r].
      * split_and!; [done..|lia].
    + destruct Hres as (io & -> & Hio). split; [done|]. exists (bs ++ new).
      split_and!; [lia|done..].
  - intros total [dst' w'] (-> & bs & <- & Hbs & Hw1 & _) Ht Hend. split; [done|].
    exists bs. split_and!; [lia|done..|]. apply ended_done; [done|apply Hbs|lia|done].
  - split; [done|]. exists []. rewrite app_nil_r. split_and!; [done| |done..].
    split; intros i Hi; simpl in Hi; lia.
Qed.
(** C3: [write_to] with a writer that is interrupted finitely often returns.
    It appends to the writer the contents of the guest's memory from
    [addr] on, across regions, and changes nothing in that memory.  On
    success the result is the number of bytes it appended, and these are
    all that were asked for unless the next address is not backed or a region
    that is accessed as a slice left it to the writer how much to take; it
    fails with [InvalidGuestAddress] exactly when the first address is not backed, and
    otherwise only with the error with which the writer failed, or
    [WriteZero] when it takes no more. *)
Theorem memory_write_to_stream m w addr dst count :
  memory_ok m → world_ok m w → in_bits 64 (ga_0 addr) → in_bits usize_bits count →
  count + write_pending dst < 2 ^ 64 →
  ∃ res dst' bs, memory_write_to m w addr dst count = Ret (res, (dst', w)) ∧
    lenZ bs ≤ count ∧ guest_bytes m w addr bs ∧ written dst' = written dst ++ bs ∧
    ended m addr count (lenZ bs) (∃ r, r ∈ iter m ∧ is_Some (region_as_slice r w))
      (λ io, writer_failed io dst' ∨ writer_full io dst') res.
Proof. apply memory_write_to_ok. Qed.
End writer.
End memory_streams.

(** ** Accesses within one region *)
Section within_region.
Context `{GuestMemorySpec M} `{!RegionSpec R W}.
Implicit Types (m : M) (w : W) (addr : GuestAddress) (buf : list byte).

(** The [n] addresses from [addr] on lie in region [r]. *)
Definition fits m (r : R) addr (n : Z) : Prop :=
  r ∈ iter m ∧ contains r (ga_0 addr) ∧ ga_0 addr + n ≤ ga_0 (start_addr r) + len r.

Lemma fits_first m r addr n r' :
  memory_ok m → in_bits 64 (ga_0 addr) → fits m r addr n →
  r' ∈ iter m → contains r' (ring addr 0) →
  r' = r ∧ ring addr 0 = ga_0 addr ∧ n ≤ len r - (ga_0 addr - ga_0 (start_addr r)).
Proof.
  intros Hm Ha (Hin & Hcon & Hle) Hin'. rewrite ring_0 by done. intros Hcon'.
  split_and!; [by eapply contains_unique|done|lia].
Qed.

Lemma memory_write_spec m w r buf addr :
  memory_ok m → world_ok m w → in_bits 64 (ga_0 addr) → in_bits usize_bits (lenZ buf) →
  fits m r addr (lenZ buf) →
  ∃ w', memory_write m w buf addr = Ret (Ok (lenZ buf), w') ∧ stored m w w' addr buf.
Proof.
  intros Hm Hw Ha Hc Hfit.
  assert (wp (memory_write m w buf addr) (λ '(res, w'), res = Ok (lenZ buf) ∧ stored m w w' addr buf))
    as Hwp; [|apply wp_inv in Hwp as ([res w'] & E & -> & ?); by exists w'].
  apply (try_access_wp _ _ _ _ (λ total w', total = 0 ∧ w' = w ∨
    0 < lenZ buf ∧ total = lenZ buf ∧ stored m w w' addr buf) (λ res w', _) Hm Ha Hc).
  - intros total w1 r' [[-> ->]|(? & -> & ?)] Ht Hlt Hin Hcon off n; [|lia].
    destruct (fits_first m r addr (lenZ buf) r') as (-> & Er & Hle); [done..|].
    pose proof Hw as [Hok _]. pose proof Hcon as [??].
    rewrite index_range_ok by lia. rewrite bind_ret, drop_0, Z.sub_0_r, take_ge by lia.
    destruct (write_fits w r off buf) as (w' & -> & Hrep); [by apply Hok|lia..|].
    assert (stored m w w' addr ([] ++ buf)) as Hst.
    { unfold in_bits in Hc. pose proof (usize_le_u64 _ Hc) as [_ ?].
      pose proof (stored_more m w w w' addr [] r buf) as Hmore. change (lenZ []) with 0 in Hmore.
      apply Hmore; solve [by apply stored_nil|done|lia]. }
    apply wp_ret. split; [lia|]. destruct (Z.eqb_spec (lenZ buf) 0) as [E|]; [by rewrite E|].
    right. split_and!; [lia..|done].
  - intros total w1 HI Ht Hend. destruct HI as [[-> ->]|(? & -> & ?)].
    + destruct Hend as [?|Hn]; [lia|]. destruct Hn. rewrite ring_0 by done.
      destruct Hfit as (? & ? & ?). by exists r.
    + rewrite (proj2 (Z.eqb_neq _ _)) by lia. done.
  - by left.
Qed.

Lemma memory_read_spec m w r buf addr :
  memory_ok m → world_ok m w → in_bits 64 (ga_0 addr) → in_bits usize_bits (lenZ buf) →
  fits m r addr (lenZ buf) →
  ∃ bs, memory_read m w buf addr = Ret (Ok (lenZ buf), (bs, w)) ∧ length bs = length buf ∧
    guest_bytes m w addr bs.
Proof.
  intros Hm Hw Ha Hc Hfit.
  assert (wp (memory_read m w buf addr) (λ '(res, (bs, w')), res = Ok (lenZ buf) ∧ w' = w ∧
    length bs = length buf ∧ guest_bytes m w addr bs)) as Hwp;
    [|apply wp_inv in Hwp as ([res [bs w']] & E & -> & -> & ?); by exists bs].
  apply (try_access_wp _ _ _ _ (λ total '(bs, w'), w' = w ∧ length bs = length buf ∧
    (total = 0 ∨ 0 < lenZ buf ∧ total = lenZ buf ∧ guest_bytes m w addr bs))
    (λ res '(bs, w'), _) Hm Ha Hc).
  - intros total [bs w1] r' (-> & Hl & [-> |(? & -> & ?)]) Ht Hlt Hin Hcon off n; [|lia].
    destruct (fits_first m r addr (lenZ buf) r') as (-> & Er & Hle); [done..|].
    pose proof Hw as [Hok _]. pose proof Hcon as [??].
    pose proof (view_length w r (Hok r Hin)) as Hv.
    rewrite index_range_ok by lia. rewrite bind_ret, drop_0, Z.sub_0_r, take_ge by lia.
    rewrite read_fits by (lia || by apply Hok). rewrite bind_ret.
    set (new := take _ _). assert (length new = length bs) as Hn.
    { unfold new. rewrite length_take, length_drop. lia. }
    rewrite update_range_ok by lia. rewrite bind_ret. change (Z.to_nat 0) with 0%nat.
    rewrite take_0, drop_ge, app_nil_r by lia. cbn [app]. apply wp_ret. split; [lia|].
    assert (guest_bytes m w addr new) as Hg.
    { pose proof (guest_bytes_more m w addr [] r (lenZ bs)) as Hg. rewrite Nat2Z.id in Hg.
      change (lenZ []) with 0 in Hg.
      apply Hg; try done; [|lia..]. split; intros i Hi; simpl in Hi; lia. }
    destruct (Z.eqb_spec (lenZ bs) 0) as [E|].
    + split_and!; [f_equal; lia|done|congruence|done].
    + split_and!; [done|congruence|]. right. split_and!; [lia..|done].
  - intros total [bs w1] (-> & Hl & HI) Ht Hend. destruct HI as [-> |(? & -> & ?)].
    + destruct Hend as [?|Hn]; [lia|]. destruct Hn. rewrite ring_0 by done.
      destruct Hfit as (? & ? & ?). by exists r.
    + rewrite (proj2 (Z.eqb_neq _ _)) by lia. done.
  - split_and!; [done..|by left].
Qed.

Lemma stored_guest_bytes m w w' addr bs :
  stored m w w' addr bs → backed_range m addr (lenZ bs) → lenZ bs ≤ 2 ^ 64 →
  guest_bytes m w' addr bs.
Proof.
  intros [_ Hs] Hb Hle. split; [done|]. intros i Hi.
  rewrite Hs by apply ring_range. cbn zeta.
  assert (wrap 64 (ring addr i - ga_0 addr) = i) as ->; [|by rewrite decide_True by lia].
  unfold ring, wrap. rewrite Zminus_mod_idemp_l.
  replace (ga_0 addr + i - ga_0 addr) with i by lia. apply Z.mod_small. lia.
Qed.
Lemma guest_bytes_unique m w addr bs bs' :
  guest_bytes m w addr bs → guest_bytes m w addr bs' → length bs = length bs' → bs = bs'.
Proof.
  intros [_ H4] [_ H5] Hl. apply list_eq_same_length with (n := length bs); [done..|].
  intros i x y Hi Hx Hy. specialize (H4 (Z.of_nat i) ltac:(lia)).
  specialize (H5 (Z.of_nat i) ltac:(lia)). rewrite Nat2Z.id in *. congruence.
Qed.
Lemma fits_backed m r addr n :
  memory_ok m → in_bits 64 (ga_0 addr) → fits m r addr n → backed_range m addr n.
Proof.
  intros Hm Ha (Hin & [??] & Hle) i Hi. destruct (region_bounds m r Hm Hin) as (? & ? & ?).
  exists r. split; [done|]. replace i with (0 + i) by lia.
  pose proof (ring_0 addr Ha). rewrite ring_next by lia. split; lia.
Qed.

(** C4: writing a buffer that fits the region of its address stores all of it
    there and changes nothing else in the guest's memory, and reading the
    same range returns it, into a buffer with any contents. *)
Theorem memory_write_read m w r buf dst addr :
  memory_ok m → world_ok m w → in_bits 64 (ga_0 addr) → in_bits usize_bits (lenZ buf) →
  fits m r addr (lenZ buf) → length dst = length buf →
  ∃ w', write_slice m w buf addr = Ret (Ok tt, w') ∧ stored m w w' addr buf ∧
    read_slice m w' dst addr = Ret (Ok tt, (buf, w')).
Proof.
  intros Hm Hw Ha Hc Hfit Hlen.
  destruct (memory_write_spec m w r buf addr) as (w' & E & Hst); [done..|].
  exists w'. cbn [write_slice read_slice memory_bytes].
  unfold memory_write_slice, memory_read_slice, complete. rewrite E, bind_ret, Z.eqb_refl.
  split_and!; [done..|].
  destruct (memory_read_spec m w' r dst addr) as (bs & -> & Hl & Hg);
    [done|apply Hst|done|by rewrite Hlen..|].
  rewrite bind_ret, Z.eqb_refl. repeat f_equal. pose proof (usize_le_u64 _ Hc) as [_ ?].
  eapply guest_bytes_unique; [done| |lia].
  eapply stored_guest_bytes; [done|by eapply fits_backed|lia].
Qed.
End within_region.
