(* ===== verification/MmapUnix.v ===== *)
(** * Mappings on Unix ([src/src/mmap_unix.rs], [check_file_offset] of [src/src/mmap.rs])

    [MmapRegion] is a range of host memory, created with [mmap] or taken over
    from a mapping that exists.  Creating and dropping a region change the
    state [W] of the system. *)

From S2P Require Import Prelude Memory Address PlainData AtomicIntegers Bytes CopySlice Volatile Os RemoteMem GuestMemory.

Inductive MmapRegionError :=
| InvalidOffsetLength
| InvalidPointer
| InvalidSize
| MapFixed
| MappingOverlap
| MappingPastEof
| MmapFailed (e : io_error).

#[export] Instance MmapRegionError_eq_dec : EqDecision MmapRegionError.
Proof. solve_decision. Defined.

Record MmapRegion `{OS W} := MmapReg {
  mr_addr : Z;
  mr_size : Z;
  mr_file_offset : option (FileOffset W);
  mr_prot : Z;
  mr_flags : Z;
  mr_owned : bool;
  mr_hugetlbfs : option bool
}.
Arguments MmapRegion W {_}.
Arguments MmapReg {W _} _ _ _ _ _ _ _.

Section mmap_region.
Context `{Target} `{OS W}.
Implicit Types (w : W) (self other : MmapRegion W) (f_off : FileOffset W).

(** [x as libc::off_t]. *)
Definition as_off_t (z : Z) : Z :=
  let x := wrap usize_bits z in if x <? 2 ^ (usize_bits - 1) then x else x - 2 ^ usize_bits.

Definition check_file_offset w f_off (size : Z) : result unit MmapRegionError :=
  match uint_checked_add 64 (fo_start f_off) (as_u64 size) with
  | Some end_ =>
      match metadata_len w (fo_file f_off) with
      | Some l => if l <? end_ then Err MappingPastEof else Ok tt
      | None => Ok tt
      end
  | None => Err InvalidOffsetLength
  end.

(** The call of [mmap] in [build], with what follows it. *)
Definition call_mmap w (file_offset : option (FileOffset W)) (size prot flags fd offset : Z)
    : result (MmapRegion W) MmapRegionError * W :=
  let '(addr, w) := mmap w 0 size prot flags fd (as_off_t offset) in
  if addr =? MAP_FAILED then (Err (MmapFailed (last_os_error w)), w)
  else (Ok (MmapReg addr size file_offset prot flags true None), w).

Definition build w (file_offset : option (FileOffset W)) (size prot flags : Z)
    : result (MmapRegion W) MmapRegionError * W :=
  if negb (Z.land flags MAP_FIXED =? 0) then (Err MapFixed, w)
  else
    match (match file_offset with
           | Some f_off =>
               match check_file_offset w f_off size with
               | Ok _ => Ok (as_raw_fd (fo_file f_off), fo_start f_off)
               | Err e => Err e
               end
           | None => Ok (-1, 0)
           end) with
    | Err e => (Err e, w)
    | Ok (fd, offset) => call_mmap w file_offset size prot flags fd offset
    end.

Definition mmap_region_new w (size : Z) : result (MmapRegion W) MmapRegionError * W :=
  build w None size (Z.lor PROT_READ PROT_WRITE)
    (Z.lor (Z.lor MAP_ANONYMOUS MAP_NORESERVE) MAP_PRIVATE).

Definition from_file w f_off (size : Z) : result (MmapRegion W) MmapRegionError * W :=
  build w (Some f_off) size (Z.lor PROT_READ PROT_WRITE) (Z.lor MAP_NORESERVE MAP_SHARED).

Definition build_raw (addr size prot flags : Z)
    : outcome (result (MmapRegion W) MmapRegionError) :=
  mask ← usub usize_bits page_size 1;
  if negb (Z.land addr mask =? 0) then Ret (Err InvalidPointer)
  else if negb (Z.land size mask =? 0) then Ret (Err InvalidSize)
  else Ret (Ok (MmapReg addr size None prot flags false None)).

Definition as_ptr self : Z := mr_addr self.
Definition size self : Z := mr_size self.
Definition mmap_file_offset self : option (FileOffset W) := mr_file_offset self.
Definition mmap_prot self : Z := mr_prot self.
Definition mmap_flags self : Z := mr_flags self.
Definition mmap_owned self : bool := mr_owned self.
Definition mmap_is_hugetlbfs self : option bool := mr_hugetlbfs self.

Definition fds_overlap self other : outcome bool :=
  match mr_file_offset self, mr_file_offset other with
  | Some f_off1, Some f_off2 =>
      if as_raw_fd (fo_file f_off1) =? as_raw_fd (fo_file f_off2) then
        let s1 := fo_start f_off1 in
        let s2 := fo_start f_off2 in
        let l1 := as_u64 (mr_size self) in
        let l2 := as_u64 (mr_size other) in
        if s1 <? s2 then e ← uadd 64 s1 l1; Ret (s2 <? e)
        else e ← uadd 64 s2 l2; Ret (s1 <? e)
      else Ret false
  | _, _ => Ret false
  end.

Definition set_hugetlbfs self (hugetlbfs : bool) : MmapRegion W :=
  MmapReg (mr_addr self) (mr_size self) (mr_file_offset self) (mr_prot self) (mr_flags self)
    (mr_owned self) (Some hugetlbfs).

(** [AsSlice]: a slice of the whole mapping. *)
Definition mmap_as_slice self : slice := Slice (mr_addr self) (mr_size self).
Definition mmap_as_mut_slice self : slice := Slice (mr_addr self) (mr_size self).

#[export] Instance MmapRegion_len : VolatileLen (MmapRegion W) := mr_size.
Definition mmap_get_slice self (offset count : Z) : outcome (vresult VolatileSlice) :=
  match compute_offset offset count with
  | Err e => Ret (Err e)
  | Ok end_ =>
      if mr_size self <? end_ then Ret (Err (OutOfBounds end_))
      else a ← uadd usize_bits (mr_addr self) offset; Ret (Ok (VSlice a count))
  end.
#[export] Instance MmapRegion_VolatileMemory : VolatileMemory (MmapRegion W) := mmap_get_slice.

(** [Drop]. *)
Definition drop_region w self : W :=
  if mr_owned self then munmap w (mr_addr self) (mr_size self) else w.
End mmap_region.

(** ** Theorems *)
Section theorems.
Context `{Target} `{!OS W} `{!MmapSpec W}.
Implicit Types (w : W) (r : MmapRegion W).

(** The range of a region is not empty and lies in the address space. *)
Definition mmap_ok_region r : Prop :=
  0 < mr_size r ∧ 0 < mr_addr r ∧ mr_addr r + mr_size r ≤ 2 ^ usize_bits.

(** The file descriptor and the offset that [build] passes to [mmap]. *)
Definition mmap_fd (fo : option (FileOffset W)) : Z :=
  match fo with Some f => as_raw_fd (fo_file f) | None => -1 end.
Definition mmap_offset (fo : option (FileOffset W)) : Z :=
  match fo with Some f => as_off_t (fo_start f) | None => 0 end.

(** The range of the file that a mapping is asked for: its end is a [u64], and
    it is not past the end of the file, when that is known. *)
Definition file_range_ok w (fo : option (FileOffset W)) (sz : Z) : Prop :=
  ∀ f, fo = Some f → fo_start f + sz < 2 ^ 64 ∧
    ∀ l, metadata_len w (fo_file f) = Some l → fo_start f + sz ≤ l.

(** What [build] returns, and when. *)
Definition build_post w fo sz prot flags (res : result (MmapRegion W) MmapRegionError) w' : Prop :=
  match res with
  | Ok r => r = MmapReg (mr_addr r) sz fo prot flags true None ∧
      mmap w 0 sz prot flags (mmap_fd fo) (mmap_offset fo) = (mr_addr r, w') ∧
      Z.land flags MAP_FIXED = 0 ∧ mmap_ok_region r ∧ mr_addr r `mod` page_size = 0 ∧
      file_range_ok w fo sz
  | Err MapFixed => Z.land flags MAP_FIXED ≠ 0 ∧ w' = w
  | Err InvalidOffsetLength => w' = w ∧ ∃ f, fo = Some f ∧ 2 ^ 64 ≤ fo_start f + sz
  | Err MappingPastEof => w' = w ∧ ∃ f l, fo = Some f ∧
      metadata_len w (fo_file f) = Some l ∧ l < fo_start f + sz < 2 ^ 64
  | Err (MmapFailed e) => e = last_os_error w' ∧ Z.land flags MAP_FIXED = 0 ∧ file_range_ok w fo sz ∧
      mmap w 0 sz prot flags (mmap_fd fo) (mmap_offset fo) = (MAP_FAILED, w')
  | Err _ => False
  end.

Lemma call_mmap_post w fo sz prot flags off :
  0 ≤ sz → as_off_t off = mmap_offset fo → Z.land flags MAP_FIXED = 0 → file_range_ok w fo sz →
  let '(res, w') := call_mmap w fo sz prot flags (mmap_fd fo) off in
  build_post w fo sz prot flags res w'.
Proof.
  intros Hsz Hoff Hfl Hf. unfold call_mmap. rewrite Hoff.
  destruct (mmap _ _ _ _ _ _ _) as [a w'] eqn:Em.
  destruct (Z.eqb_spec a MAP_FAILED) as [->|Ha]; [by split_and!|].
  pose proof Em as (? & ? & ? & ?)%mmap_ok; [|done..]. by split_and!.
Qed.

Lemma build_spec w fo sz prot flags :
  in_bits usize_bits sz →
  let '(res, w') := build w fo sz prot flags in build_post w fo sz prot flags res w'.
Proof.
  intros Hsz. pose proof (usize_le_u64 _ Hsz) as Hsz64. unfold build.
  destruct (Z.eqb_spec (Z.land flags MAP_FIXED) 0) as [Hfl|]; simpl; [|done].
  destruct fo as [f|]; [|apply (call_mmap_post w None); [apply Hsz| |done..]].
  2: { unfold as_off_t. by destruct usize_bits_cases as [[-> _]|[-> _]]. }
  unfold check_file_offset. rewrite as_u64_small by done.
  destruct (uint_checked_add 64 (fo_start f) sz) as [e|] eqn:E; cycle 1.
  { apply uint_checked_add_None in E. split; [done|]. by exists f. }
  apply uint_checked_add_Some in E as [-> ?].
  destruct (metadata_len w (fo_file f)) as [l|] eqn:El;
    [destruct (Z.ltb_spec l (fo_start f + sz)); [split; [done|by exists f, l]|]|];
    (apply (call_mmap_post w (Some f)); [apply Hsz|done|done|]); intros ? [= <-]; rewrite El;
    (split; [lia|]); by intros ? [= <-].
Qed.

(** C37: [build] calls [mmap] once, for any address and with its arguments, and
    never with [MAP_FIXED], with a range of a file whose end is not a [u64], or
    past the end of a file whose length is known: each of these is reported
    before the call, also when the file has no metadata (then the end of the file
    is not known and only the overflow is).  A region it returns is what [mmap]
    returned, owned, with the arguments as its fields, not empty, beginning at a
    page and within the address space; otherwise [mmap] itself failed, and it had
    been called with such a range. *)
Theorem build_outcome w fo sz prot flags :
  in_bits usize_bits sz →
  let '(res, w') := build w fo sz prot flags in
  match res with
  | Ok r => r = MmapReg (mr_addr r) sz fo prot flags true None ∧
      mmap w 0 sz prot flags (mmap_fd fo) (mmap_offset fo) = (mr_addr r, w') ∧
      Z.land flags MAP_FIXED = 0 ∧ mmap_ok_region r ∧ mr_addr r `mod` page_size = 0 ∧
      file_range_ok w fo sz
  | Err MapFixed => Z.land flags MAP_FIXED ≠ 0 ∧ w' = w
  | Err InvalidOffsetLength => w' = w ∧ ∃ f, fo = Some f ∧ 2 ^ 64 ≤ fo_start f + sz
  | Err MappingPastEof => w' = w ∧ ∃ f l, fo = Some f ∧
      metadata_len w (fo_file f) = Some l ∧ l < fo_start f + sz < 2 ^ 64
  | Err (MmapFailed e) => e = last_os_error w' ∧ Z.land flags MAP_FIXED = 0 ∧ file_range_ok w fo sz ∧
      mmap w 0 sz prot flags (mmap_fd fo) (mmap_offset fo) = (MAP_FAILED, w')
  | Err _ => False
  end.
Proof. apply build_spec. Qed.

(** [build_raw] takes over a mapping exactly when its address and its size
    are multiples of the page size; the region is then not owned, so dropping
    it leaves the mapping in place. *)
Theorem build_raw_outcome addr sz prot flags :
  in_bits usize_bits addr → in_bits usize_bits sz →
  build_raw addr sz prot flags = Ret (
    if negb (addr `mod` page_size =? 0) then Err InvalidPointer
    else if negb (sz `mod` page_size =? 0) then Err InvalidSize
    else Ok (MmapReg addr sz None prot flags false None)) ∧
  ∀ r w, build_raw addr sz prot flags = Ret (Ok r) → drop_region w r = w.
Proof.
  intros Ha Hs. destruct page_size_pow2 as (k & Hk & Ek). pose proof page_size_range.
  assert (0 < page_size) by (rewrite Ek; by apply pow2_pos).
  assert (build_raw addr sz prot flags = Ret (
    if negb (addr `mod` page_size =? 0) then Err InvalidPointer
    else if negb (sz `mod` page_size =? 0) then Err InvalidSize
    else Ok (MmapReg addr sz None prot flags false None))) as E.
  { unfold build_raw. rewrite usub_ok by (unfold in_bits; lia). rewrite bind_ret, Ek.
    rewrite !land_low_mask by done. by destruct (_ =? 0), (_ =? 0). }
  split; [done|]. intros r w. rewrite E.
  destruct (addr `mod` page_size =? 0), (sz `mod` page_size =? 0); simpl; by intros [= <-].
Qed.

(** The part of its file that a region maps. *)
Definition maps_file_byte r (fd x : Z) : Prop :=
  ∃ f, mr_file_offset r = Some f ∧ as_raw_fd (fo_file f) = fd ∧
    fo_start f ≤ x < fo_start f + mr_size r.

(** [fds_overlap] of two regions that are not empty is true exactly when
    some byte of some file descriptor is mapped by both. *)
Theorem fds_overlap_iff r1 r2 :
  in_bits usize_bits (mr_size r1) → in_bits usize_bits (mr_size r2) →
  0 < mr_size r1 → 0 < mr_size r2 →
  (∀ f, mr_file_offset r1 = Some f → 0 ≤ fo_start f ∧ fo_start f + mr_size r1 < 2 ^ 64) →
  (∀ f, mr_file_offset r2 = Some f → 0 ≤ fo_start f ∧ fo_start f + mr_size r2 < 2 ^ 64) →
  ∃ b, fds_overlap r1 r2 = Ret b ∧
    (b = true ↔ ∃ fd x, maps_file_byte r1 fd x ∧ maps_file_byte r2 fd x).
Proof.
  intros H1 H2 Hp1 Hp2 Hf1 Hf2. unfold fds_overlap, maps_file_byte.
  destruct (mr_file_offset r1) as [f1|];
    [|exists false; split; [done|]; split; [done|]; by intros (? & ? & (? & ? & _) & (? & ? & _))].
  destruct (mr_file_offset r2) as [f2|];
    [|exists false; split; [done|]; split; [done|]; by intros (? & ? & (? & ? & _) & (? & ? & _))].
  destruct (Hf1 f1 eq_refl), (Hf2 f2 eq_refl). rewrite !as_u64_small by (by apply usize_le_u64).
  destruct (Z.eqb_spec (as_raw_fd (fo_file f1)) (as_raw_fd (fo_file f2))) as [Efd|Hfd]; cycle 1.
  { exists false. split; [done|]. split; [done|]. intros (fd & x & (? & [= <-] & ? & ?) & ? & [= <-] & ? & ?).
    congruence. }
  destruct (Z.ltb_spec (fo_start f1) (fo_start f2)); rewrite uadd_ok by (unfold in_bits; lia);
    rewrite bind_ret; eexists; (split; [done|]); rewrite Z.ltb_lt; split.
  - intros ?. exists (as_raw_fd (fo_file f1)), (fo_start f2). split; eexists; (split; [done|split; [done|lia]]).
  - intros (fd & x & (? & [= <-] & ? & ?) & ? & [= <-] & ? & ?). lia.
  - intros ?. exists (as_raw_fd (fo_file f1)), (fo_start f1). split; eexists; (split; [done|split; [done|lia]]).
  - intros (fd & x & (? & [= <-] & ? & ?) & ? & [= <-] & ? & ?). lia.
Qed.
End theorems.
