(* ===== verification/Mmap.v ===== *)
(** * Guest memory made of mappings ([src/src/mmap.rs])

    [GuestRegionMmap] is a mapping of the process [pid] with a guest-physical
    base address; it is accessed with the functions of [RemoteMem].
    [GuestMemoryMmap] is a vector of regions, sorted by address, that are
    looked up by binary search.  [GuestMemorySpec] and [RegionSpec] are
    discharged here, so the theorems of [GuestMemory] apply to it. *)

From stdpp Require Import sorting.
From S2P Require Import Prelude Memory Address PlainData AtomicIntegers Bytes CopySlice Volatile Os RemoteMem GuestMemory MmapUnix.

(** ** From the standard library

    [<[T]>::binary_search_by_key]: [Ok] with the index of an element with the
    key, or [Err] with the index where it can be inserted. *)
Section slices.
Context {A : Type}.
Implicit Types (l : list A).

(** [l[i]]. *)
Definition index l (i : Z) : outcome A := unwrap (if 0 <=? i then l !! Z.to_nat i else None).

Definition binary_search_by_key l (b : Z) (key : A → Z) : outcome (result Z Z) :=
  while_loop (λ '(size, left_, right_),
    if left_ <? right_ then
      let mid := left_ + size / 2 in
      x ← index l mid;
      if key x <? b then Ret (inl (right_ - (mid + 1), mid + 1, right_))
      else if b <? key x then Ret (inl (mid - left_, left_, mid))
      else Ret (inr (Ok mid))
    else Ret (inr (Err left_))) (lenZ l, 0, lenZ l).

(** [<[T]>::sort_by_key], which is stable. *)
Fixpoint insert_by_key (key : A → Z) (x : A) l : list A :=
  match l with
  | [] => [x]
  | y :: l' => if key y <=? key x then y :: insert_by_key key x l' else x :: l
  end.
Definition sort_by_key l (key : A → Z) : list A :=
  foldl (λ sorted x, insert_by_key key x sorted) [] l.

(** [Vec::remove]. *)
Definition vec_remove l (i : Z) : outcome (A * list A) :=
  x ← index l i; Ret (x, take (Z.to_nat i) l ++ drop (S (Z.to_nat i)) l).
End slices.

(** ** Errors *)
Inductive MmapError :=
| InvalidGuestRegion
| MmapRegionErr (e : MmapRegionError)
| NoMemoryRegion
| MemoryRegionOverlap
| UnsortedMemoryRegions.

#[export] Instance MmapError_eq_dec : EqDecision MmapError.
Proof. solve_decision. Defined.

(** ** [GuestRegionMmap] *)
Record GuestRegionMmap `{OS W} := GRegion {
  mapping : MmapRegion W;
  guest_base : GuestAddress;
  pid : Z
}.
Arguments GuestRegionMmap W {_}.
Arguments GRegion {W _} _ _ _.

Section region.
Context `{Target} `{OS W}.
Implicit Types (self : GuestRegionMmap W) (w : W) (addr : MemoryRegionAddress) (buf : list byte).

Definition guest_region_new (pid : Z) (mapping : MmapRegion W) (guest_base : GuestAddress)
    : result (GuestRegionMmap W) MmapError :=
  match uint_checked_add 64 (ga_0 guest_base) (as_u64 (vm_len mapping)) with
  | None => Err InvalidGuestRegion
  | Some _ => Ok (GRegion mapping guest_base pid)
  end.

(** [Deref]: the methods of the mapping are methods of the region. *)
Definition region_deref self : MmapRegion W := mapping self.

(** The check and the host address that [write], [read], [store] and [load]
    begin with. *)
Definition host_ptr self addr : outcome (gresult Z) :=
  let maddr := as_usize (raw_value addr) in
  if MmapUnix.size (mapping self) <=? maddr then Ret (Err (InvalidGuestAddress (GuestAddr (mra_0 addr))))
  else ptr ← uadd usize_bits (as_ptr (mapping self)) maddr; Ret (Ok ptr).

Definition region_write self w buf addr : outcome (gresult Z * W) :=
  r ← host_ptr self addr;
  match r with
  | Err e => Ret (Err e, w)
  | Ok ptr =>
      let '(r, w) := process_write_bytes w (pid self) ptr buf in
      Ret (map_err RemoteMemError r, w)
  end.

Definition region_read self w buf addr : outcome (gresult Z * (list byte * W)) :=
  r ← host_ptr self addr;
  match r with
  | Err e => Ret (Err e, (buf, w))
  | Ok ptr =>
      let '(r, buf) := process_read_bytes w (pid self) buf ptr in
      Ret (map_err RemoteMemError r, (buf, w))
  end.

Definition region_write_slice self w buf addr : outcome (gresult unit * W) :=
  '(r, w) ← region_write self w buf addr;
  match r with
  | Err e => Ret (Err e, w)
  | Ok written =>
      if negb (written =? lenZ buf)
      then Ret (Err (RemoteMemError (ByteCount written (lenZ buf))), w) else Ret (Ok tt, w)
  end.

Definition region_read_slice self w buf addr : outcome (gresult unit * (list byte * W)) :=
  '(r, (buf, w)) ← region_read self w buf addr;
  match r with
  | Err e => Ret (Err e, (buf, w))
  | Ok read =>
      if negb (read =? lenZ buf)
      then Ret (Err (RemoteMemError (ByteCount read (lenZ buf))), (buf, w)) else Ret (Ok tt, (buf, w))
  end.

(** [unimplemented!()]. *)
Definition region_read_from {F} `{Read F} self w addr (src : F) (count : Z)
    : outcome (gresult Z * (F * W)) := Panic.
Definition region_read_exact_from {F} `{Read F} self w addr (src : F) (count : Z)
    : outcome (gresult unit * (F * W)) := Panic.
Definition region_write_to {F} `{Write F} self w addr (dst : F) (count : Z)
    : outcome (gresult Z * (F * W)) := Panic.
Definition region_write_all_to {F} `{Write F} self w addr (dst : F) (count : Z)
    : outcome (gresult unit * (F * W)) := Panic.

Definition region_store {T} `{AtomicAccess T} self w (val : T) addr (order : Ordering)
    : outcome (gresult unit * W) :=
  r ← host_ptr self addr;
  match r with
  | Err e => Ret (Err e, w)
  | Ok ptr =>
      '(r, w) ← process_store w (pid self) ptr val;
      Ret (map_err RemoteMemError r, w)
  end.

Definition region_load T `{AtomicAccess T} self w addr (order : Ordering) : outcome (gresult T * W) :=
  r ← host_ptr self addr;
  match r with
  | Err e => Ret (Err e, w)
  | Ok ptr =>
      r ← process_load T w (pid self) ptr;
      Ret (map_err RemoteMemError r, w)
  end.

#[export] Instance GuestRegionMmap_Bytes :
    Bytes (GuestRegionMmap W) MemoryRegionAddress GuestError W := {|
  write := region_write;
  read := region_read;
  write_slice := region_write_slice;
  read_slice := region_read_slice;
  read_from := λ F _, region_read_from;
  read_exact_from := λ F _, region_read_exact_from;
  write_to := λ F _, region_write_to;
  write_all_to := λ F _, region_write_all_to;
  store := λ T _ _, region_store;
  load := λ T _ _, region_load T
|}.

Definition region_len self : Z := as_u64 (vm_len (mapping self)).

Definition region_get_host_address self addr : gresult Z :=
  if raw_value addr <? region_len self
  then Ok (wrap usize_bits (as_ptr (mapping self) + raw_value addr))
  else Err InvalidBackendAddress.

#[export] Instance GuestRegionMmap_Region : GuestMemoryRegion (GuestRegionMmap W) W := {|
  region_bytes_impl := GuestRegionMmap_Bytes;
  len := region_len;
  start_addr := guest_base;
  get_host_address := region_get_host_address;
  file_offset r := mmap_file_offset (mapping r);
  region_as_slice _ _ := None;
  region_as_mut_slice _ _ := None;
  region_get_slice _ _ _ := Panic;
  is_hugetlbfs r := mmap_is_hugetlbfs (mapping r)
|}.
End region.

(** ** [GuestMemoryMmap] *)
Record GuestMemoryMmap `{OS W} := GMemory {
  mm_pid : Z;
  regions : list (GuestRegionMmap W)
}.
Arguments GuestMemoryMmap W {_}.
Arguments GMemory {W _} _ _.

Section memory.
Context `{Target} `{OS W}.
Implicit Types (self : GuestMemoryMmap W) (w : W) (rs : list (GuestRegionMmap W)).

Definition key (r : GuestRegionMmap W) : Z := ga_0 (start_addr r).

Definition memory_new (pid : Z) : GuestMemoryMmap W := GMemory pid [].

(** The loop over [regions.windows(2)]. *)
Fixpoint check_windows rs : outcome (result unit MmapError) :=
  match rs with
  | prev :: (next :: _) as rest =>
      if key next <? key prev then Ret (Err UnsortedMemoryRegions)
      else
        last ← region_last_addr prev;
        if key next <=? ga_0 last then Ret (Err MemoryRegionOverlap)
        else check_windows rest
  | _ => Ret (Ok tt)
  end.

Definition from_arc_regions (pid : Z) rs : outcome (result (GuestMemoryMmap W) MmapError) :=
  match rs with
  | [] => Ret (Err NoMemoryRegion)
  | _ => let? _x := check_windows rs in Ret (Ok (GMemory pid rs))
  end.
Definition from_regions (pid : Z) rs : outcome (result (GuestMemoryMmap W) MmapError) :=
  from_arc_regions pid rs.

(** The regions that were created are dropped when the constructor fails. *)
Definition drop_regions w rs : W := foldl (λ w r, drop_region w (mapping r)) w rs.

Fixpoint collect_regions w (pid : Z) (acc : list (GuestRegionMmap W))
    (ranges : list (GuestAddress * Z * option (FileOffset W)))
    : result (list (GuestRegionMmap W)) MmapError * W :=
  match ranges with
  | [] => (Ok acc, w)
  | (guest_base, size, fo) :: ranges =>
      let '(r, w) := match fo with
                     | Some f_off => from_file w f_off size
                     | None => mmap_region_new w size
                     end in
      match r with
      | Err e => (Err (MmapRegionErr e), drop_regions w acc)
      | Ok r =>
          match guest_region_new pid r guest_base with
          | Err e => (Err e, drop_regions (drop_region w r) acc)
          | Ok g => collect_regions w pid (acc ++ [g]) ranges
          end
      end
  end.

Definition from_ranges_with_files w (pid : Z) (ranges : list (GuestAddress * Z * option (FileOffset W)))
    : outcome (result (GuestMemoryMmap W) MmapError * W) :=
  match collect_regions w pid [] ranges with
  | (Err e, w) => Ret (Err e, w)
  | (Ok rs, w) =>
      r ← from_regions pid rs;
      match r with
      | Err e => Ret (Err e, drop_regions w rs)
      | Ok m => Ret (Ok m, w)
      end
  end.
Definition from_ranges w (pid : Z) (ranges : list (GuestAddress * Z))
    : outcome (result (GuestMemoryMmap W) MmapError * W) :=
  from_ranges_with_files w pid ((λ '(a, n), (a, n, None)) <$> ranges).

Definition insert_region self (region : GuestRegionMmap W)
    : outcome (result (GuestMemoryMmap W) MmapError) :=
  let rs := regions self ++ [region] in
  let rs := sort_by_key rs key in
  from_arc_regions (mm_pid self) rs.

Definition remove_region self (base : GuestAddress) (size : Z)
    : outcome (result (GuestMemoryMmap W * GuestRegionMmap W) MmapError) :=
  r ← binary_search_by_key (regions self) (ga_0 base) key;
  match r with
  | Ok region_index =>
      g ← index (regions self) region_index;
      if as_u64 (MmapUnix.size (mapping g)) =? size then
        '(region, rs) ← vec_remove (regions self) region_index;
        Ret (Ok (GMemory (mm_pid self) rs, region))
      else Ret (Err InvalidGuestRegion)
  | Err _ => Ret (Err InvalidGuestRegion)
  end.

Definition mmap_find_region self (addr : GuestAddress) : outcome (option (GuestRegionMmap W)) :=
  r ← binary_search_by_key (regions self) (ga_0 addr) key;
  i ← match r with
      | Ok x => Ret (Some x)
      | Err x =>
          if 0 <? x then
            prev ← index (regions self) (x - 1);
            last ← region_last_addr prev;
            Ret (if ga_0 addr <=? ga_0 last then Some (x - 1) else None)
          else Ret None
      end;
  match i with
  | Some x => g ← index (regions self) x; Ret (Some g)
  | None => Ret None
  end.

(** The iterator: the regions that are still to come. *)
Record Iter := MkIter { iter_0 : list (GuestRegionMmap W) }.
Definition iter_next (self : Iter) : option (GuestRegionMmap W) * Iter :=
  match iter_0 self with
  | r :: rs => (Some r, MkIter rs)
  | [] => (None, self)
  end.
Definition memory_iter self : Iter := MkIter (regions self).

#[export] Instance GuestMemoryMmap_Memory : GuestMemory (GuestMemoryMmap W) := {|
  num_regions self := lenZ (regions self);
  find_region := mmap_find_region;
  iter := regions
|}.

(** [iter] has what the iterator yields until it is exhausted. *)
Fixpoint collect (n : nat) (it : Iter) : list (GuestRegionMmap W) :=
  match n, iter_next it with
  | S n, (Some r, it) => r :: collect n it
  | _, _ => []
  end.
Lemma memory_iter_yields self n :
  (length (regions self) ≤ n)%nat → collect n (memory_iter self) = iter self.
Proof.
  unfold memory_iter. simpl. generalize (regions self) as rs. induction n as [|n IH]; intros rs Hn.
  - by destruct rs; simpl in *; [|lia].
  - destruct rs as [|r rs]; [done|]. simpl in *. by rewrite IH by lia.
Qed.
End memory.

(** ** Binary search *)
Section binary_search.
Context {A : Type} (l : list A) (key : A → Z) (b : Z).
Context (Hsorted : ∀ i j x y, l !! i = Some x → l !! j = Some y → (i < j)%nat → key x < key y).

Lemma index_ok (l' : list A) i : 0 ≤ i < lenZ l' → ∃ x, index l' i = Ret x ∧ l' !! Z.to_nat i = Some x.
Proof.
  intros Hi. unfold index. rewrite (proj2 (Z.leb_le _ _)) by lia.
  destruct (lookup_lt_is_Some_2 l' (Z.to_nat i)) as [x Hx]; [lia|]. exists x. by rewrite Hx.
Qed.

(** All keys before index [i] are below [b], and all from [i] on above. *)
Definition all_below (i : Z) : Prop := ∀ j x, l !! j = Some x → Z.of_nat j < i → key x < b.
Definition all_above (i : Z) : Prop := ∀ j x, l !! j = Some x → i ≤ Z.of_nat j → b < key x.

Lemma binary_search_wp :
  lenZ l < 2 ^ 64 →
  wp (binary_search_by_key l b key) (λ r,
    match r with
    | Ok i => 0 ≤ i ∧ ∃ x, l !! Z.to_nat i = Some x ∧ key x = b
    | Err i => 0 ≤ i ≤ lenZ l ∧ all_below i ∧ all_above i
    end).
Proof.
  intros Hlen. unfold binary_search_by_key.
  apply (while_loop_wp _ (λ '(size, lo, hi), size = hi - lo ∧ 0 ≤ lo ≤ hi ∧ hi ≤ lenZ l ∧
    all_below lo ∧ all_above hi) (λ '(_, lo, hi), hi - lo)).
  - intros [[? lo] hi] (_ & ? & _). lia.
  - intros [[size lo] hi] (-> & Hlo & Hhi & Hb & Ha).
    destruct (Z.ltb_spec lo hi); cycle 1.
    { apply wp_ret. assert (lo = hi) by lia. subst. split_and!; [lia..|done|done]. }
    cbn zeta. set (mid := lo + (hi - lo) / 2).
    assert (lo ≤ mid < hi) as Hmid.
    { unfold mid. pose proof (Z.div_lt_upper_bound (hi - lo) 2 (hi - lo)).
      pose proof (Z.div_pos (hi - lo) 2). lia. }
    destruct (index_ok l mid) as (x & -> & Hx); [lia|]. rewrite bind_ret.
    destruct (Z.ltb_spec (key x) b); [|destruct (Z.ltb_spec b (key x))]; apply wp_ret.
    + split; [|lia]. split_and!; [lia..| |done]. intros j y Hy Hj.
      destruct (decide (j = Z.to_nat mid)) as [->|]; [congruence|].
      specialize (Hsorted j (Z.to_nat mid) y x Hy Hx). lia.
    + split; [|lia]. split_and!; [lia..|done|]. intros j y Hy Hj.
      destruct (decide (j = Z.to_nat mid)) as [->|]; [congruence|].
      specialize (Hsorted (Z.to_nat mid) j x y Hx Hy). lia.
    + split; [lia|]. exists x. split; [done|lia].
  - split_and!; [lia..| |].
    + intros j x _ Hj. lia.
    + intros j x Hx Hj. apply lookup_lt_Some in Hx. lia.
  - lia.
Qed.
End binary_search.

(** Any two elements of a sorted list are related. *)
Lemma sorted_pair {A} (Rel : A → A → Prop) l i j x y :
  StronglySorted Rel l → l !! i = Some x → l !! j = Some y → (i < j)%nat → Rel x y.
Proof.
  intros Hs. revert i j. induction Hs as [|z l Hs IH Hall]; intros i j Hi Hj Hlt; [done|].
  destruct j as [|j]; [lia|]. simpl in Hj. destruct i as [|i]; simpl in Hi; [|eapply IH; eauto; lia].
  simplify_eq. rewrite Forall_lookup in Hall. by eapply Hall.
Qed.

(** ** Well-formed regions *)
Section well_formed.
Context `{Target} `{OS W}.
Implicit Types (r : GuestRegionMmap W) (rs : list (GuestRegionMmap W)) (m : GuestMemoryMmap W).

Definition region_size r : Z := mr_size (mapping r).
(** A region is not empty and ends before the last guest-physical address, as
    [guest_region_new] checks. *)
Definition region_wf r : Prop :=
  0 ≤ key r ∧ 0 < region_size r ∧ in_bits usize_bits (region_size r) ∧ key r + region_size r < 2 ^ 64.
(** [r] ends before [r'] starts. *)
Definition before r r' : Prop := key r + region_size r ≤ key r'.
Definition regions_ok rs : Prop := Forall region_wf rs ∧ StronglySorted before rs.

Lemma region_len_ok r : region_wf r → len r = region_size r.
Proof. intros (_ & _ & Hs & _). by apply as_u64_small, usize_le_u64. Qed.
Lemma region_bounds_ok r :
  region_wf r → 0 ≤ ga_0 (start_addr r) ∧ 0 < len r < 2 ^ 64 ∧ ga_0 (start_addr r) + len r ≤ 2 ^ 64.
Proof.
  intros Hr. rewrite region_len_ok by done. destruct Hr as (? & ? & ? & ?).
  unfold key in *. split_and!; lia.
Qed.
Lemma contains_eq r a : region_wf r → contains r a ↔ key r ≤ a < key r + region_size r.
Proof. intros. unfold contains. by rewrite region_len_ok. Qed.
Lemma last_addr_ok r :
  region_wf r → region_last_addr r = Ret (GuestAddr (key r + region_size r - 1)).
Proof.
  intros Hr. destruct (region_bounds_ok r Hr) as (? & ? & ?).
  rewrite region_last_addr_ok by done. by rewrite region_len_ok.
Qed.

Lemma sorted_lookup rs i j r r' :
  StronglySorted before rs → rs !! i = Some r → rs !! j = Some r' → (i < j)%nat → before r r'.
Proof. apply sorted_pair. Qed.
Lemma regions_wf rs i r : regions_ok rs → rs !! i = Some r → region_wf r.
Proof. intros [Hf _] Hi. rewrite Forall_lookup in Hf. eauto. Qed.
Lemma regions_wf_in rs r : regions_ok rs → r ∈ rs → region_wf r.
Proof. intros Hok [i Hi]%list_elem_of_lookup_1. by eapply regions_wf. Qed.
Lemma keys_sorted rs i j r r' :
  regions_ok rs → rs !! i = Some r → rs !! j = Some r' → (i < j)%nat → key r < key r'.
Proof.
  intros Hok Hi Hj Hlt. pose proof (sorted_lookup rs i j r r' (proj2 Hok) Hi Hj Hlt) as Hb.
  destruct (regions_wf rs i r Hok Hi) as (? & ? & _). unfold before in Hb. lia.
Qed.
(** There are fewer regions than addresses. *)
Lemma key_lower rs i r : regions_ok rs → rs !! i = Some r → Z.of_nat i ≤ key r.
Proof.
  intros Hok. revert r. induction i as [|i IH]; intros r Hi.
  - destruct (regions_wf rs 0 r Hok Hi). lia.
  - destruct (lookup_lt_is_Some_2 rs i) as [x Hx]; [apply lookup_lt_Some in Hi; lia|].
    pose proof (keys_sorted rs i (S i) x r Hok Hx Hi ltac:(lia)). specialize (IH x Hx). lia.
Qed.
Lemma regions_length rs : regions_ok rs → lenZ rs < 2 ^ 64.
Proof.
  intros Hok. destruct (decide (length rs = 0%nat)) as [E|]; [rewrite E; done|].
  destruct (lookup_lt_is_Some_2 rs (length rs - 1)) as [r Hr]; [lia|].
  pose proof (key_lower rs _ r Hok Hr). destruct (regions_wf rs _ r Hok Hr) as (? & ? & ? & ?). lia.
Qed.

Lemma search_ok rs b :
  regions_ok rs → ∃ res, binary_search_by_key rs b key = Ret res ∧
    match res with
    | Ok i => 0 ≤ i ∧ ∃ r, rs !! Z.to_nat i = Some r ∧ key r = b
    | Err i => 0 ≤ i ≤ lenZ rs ∧ all_below rs key b i ∧ all_above rs key b i
    end.
Proof.
  intros Hok. apply wp_inv, binary_search_wp.
  - intros i j x y Hx Hy Hlt. by apply (keys_sorted rs i j).
  - by apply regions_length.
Qed.

(** Two regions that share an address are at the same index. *)
Lemma contains_index rs i j r r' a :
  regions_ok rs → rs !! i = Some r → rs !! j = Some r' → contains r a → contains r' a → i = j.
Proof.
  intros Hok Hi Hj. pose proof (regions_wf rs i r Hok Hi). pose proof (regions_wf rs j r' Hok Hj).
  rewrite !contains_eq by done. intros Hr Hr'. pose proof Hok as [_ Hs].
  destruct (lt_eq_lt_dec i j) as [[?|?]|?]; [|done|]; exfalso.
  - pose proof (sorted_lookup rs i j r r' Hs Hi Hj ltac:(done)). unfold before in *. lia.
  - pose proof (sorted_lookup rs j i r' r Hs Hj Hi ltac:(done)). unfold before in *. lia.
Qed.

Lemma find_region_ok m a :
  regions_ok (regions m) → ∃ o, mmap_find_region m a = Ret o ∧
    match o with
    | Some r => r ∈ regions m ∧ contains r (ga_0 a)
    | None => ∀ r, r ∈ regions m → ¬ contains r (ga_0 a)
    end.
Proof.
  intros Hok. unfold mmap_find_region.
  destruct (search_ok (regions m) (ga_0 a) Hok) as ([i|i] & -> & Hres); rewrite bind_ret.
  - destruct Hres as (Hi & r & Hr & Hk). rewrite bind_ret. unfold index.
    rewrite (proj2 (Z.leb_le _ _)), Hr by done. eexists. split; [done|].
    split; [by eapply list_elem_of_lookup_2|]. pose proof (regions_wf _ _ r Hok Hr) as Hwf.
    rewrite contains_eq by done. destruct Hwf as (? & ? & _). lia.
  - destruct Hres as (Hi & Hb & Ha). destruct (Z.ltb_spec 0 i); cycle 1.
    { rewrite bind_ret. exists None. split; [done|]. intros r [j Hj]%list_elem_of_lookup_1.
      specialize (Ha j r Hj ltac:(lia)). rewrite contains_eq by (by eapply regions_wf). lia. }
    destruct (index_ok (regions m) (i - 1)) as (r & -> & Hr); [lia|]. rewrite bind_ret.
    pose proof (regions_wf _ _ r Hok Hr) as Hwf. rewrite last_addr_ok, bind_ret, bind_ret by done.
    cbn [ga_0]. destruct (Z.leb_spec (ga_0 a) (key r + region_size r - 1)).
    + unfold index. rewrite (proj2 (Z.leb_le _ _)), Hr by lia. eexists. split; [done|].
      split; [by eapply list_elem_of_lookup_2|]. rewrite contains_eq by done.
      specialize (Hb _ r Hr ltac:(lia)). lia.
    + exists None. split; [done|]. intros r' [j Hj]%list_elem_of_lookup_1.
      pose proof (regions_wf _ _ r' Hok Hj) as Hwf'. rewrite contains_eq by done. intros Hc.
      destruct (decide (i ≤ Z.of_nat j)); [specialize (Ha j r' Hj ltac:(done)); lia|].
      destruct (decide (j = Z.to_nat (i - 1))) as [->|]; [simplify_eq; lia|].
      pose proof (sorted_lookup _ j _ r' r (proj2 Hok) Hj Hr ltac:(lia)) as Hbf.
      specialize (Hb _ r Hr ltac:(lia)). unfold before in Hbf. lia.
Qed.

#[export] Instance GuestMemoryMmap_Spec : GuestMemorySpec (GuestMemoryMmap W).
Proof.
  refine {| memory_ok m := regions_ok (regions m) |}.
  - intros m r Hok Hin. by apply region_bounds_ok, (regions_wf_in (regions m)).
  - intros m r r' a Hok [i Hi]%list_elem_of_lookup_1 [j Hj]%list_elem_of_lookup_1 Hr Hr'.
    rewrite (contains_index _ i j r r' a Hok Hi Hj Hr Hr') in Hi. simpl in *. congruence.
  - intros m a Hok _. by apply find_region_ok.
Defined.

(** C6: [find_region] by binary search finds the one region that contains the
    address, and nothing exactly when no region does; it never panics on a
    well-formed memory. *)
Theorem find_region_iff m a :
  regions_ok (regions m) → ∃ o, mmap_find_region m a = Ret o ∧
    ∀ r, o = Some r ↔ r ∈ regions m ∧ contains r (ga_0 a).
Proof.
  intros Hok. destruct (find_region_ok m a Hok) as (o & -> & Ho). exists o. split; [done|].
  intros r. destruct o as [r'|].
  - destruct Ho as [Hin Hc]. split; [by intros [= <-]|]. intros [Hin' Hc']. f_equal.
    by apply (contains_unique m r' r (ga_0 a)).
  - split; [done|]. intros [Hin Hc]. by destruct (Ho r Hin).
Qed.
End well_formed.

(** ** Sorting and sorted lists *)
Section sorting.
Context {A : Type}.
Implicit Types (l : list A) (key : A → Z).

Lemma insert_by_key_perm key x l : insert_by_key key x l ≡ₚ x :: l.
Proof.
  induction l as [|y l IH]; simpl; [done|]. destruct (key y <=? key x); [|done].
  rewrite IH. apply Permutation_swap.
Qed.
Lemma insert_by_key_sorted key x l :
  StronglySorted (λ a b, key a ≤ key b) l → StronglySorted (λ a b, key a ≤ key b) (insert_by_key key x l).
Proof.
  induction 1 as [|y l Hs IH Hall]; simpl; [by repeat constructor|].
  destruct (Z.leb_spec (key y) (key x)); constructor; try done.
  - rewrite insert_by_key_perm. by constructor.
  - by constructor.
  - constructor; [lia|]. rewrite Forall_elem in *. intros z Hz. specialize (Hall z Hz). lia.
Qed.
Lemma sort_by_key_spec key l :
  sort_by_key l key ≡ₚ l ∧ StronglySorted (λ a b, key a ≤ key b) (sort_by_key l key).
Proof.
  unfold sort_by_key.
  assert (∀ acc, StronglySorted (λ a b, key a ≤ key b) acc →
    foldl (λ sorted x, insert_by_key key x sorted) acc l ≡ₚ acc ++ l ∧
    StronglySorted (λ a b, key a ≤ key b) (foldl (λ sorted x, insert_by_key key x sorted) acc l)) as Hf;
    [|by apply (Hf []); constructor].
  induction l as [|x l IH]; intros acc Hacc; simpl; [by rewrite app_nil_r|].
  destruct (IH (insert_by_key key x acc)) as [Hp Hs]; [by apply insert_by_key_sorted|].
  split; [|done]. rewrite Hp, insert_by_key_perm. simpl. apply Permutation_middle.
Qed.

(** A symmetric relation between all pairs does not depend on the order. *)
Lemma pairwise_perm (Rel : A → A → Prop) l l' :
  (∀ x y, Rel x y → Rel y x) → l ≡ₚ l' → StronglySorted Rel l → StronglySorted Rel l'.
Proof.
  intros Hsym. induction 1 as [|x l l' Hp IH|x y l|l l' l'' ? IH1 ? IH2]; auto.
  - rewrite !StronglySorted_cons. intros [Hf Hs]. split; [by rewrite <-Hp|auto].
  - rewrite !StronglySorted_cons, !Forall_cons_iff. intuition.
Qed.
Lemma sorted_mono (R1 R2 : A → A → Prop) l :
  (∀ i j x y, l !! i = Some x → l !! j = Some y → (i < j)%nat → R1 x y → R2 x y) →
  StronglySorted R1 l → StronglySorted R2 l.
Proof.
  intros Hm. induction 1 as [|x l Hs IH Hall]; constructor.
  - apply IH. intros i j y z Hy Hz Hlt. by apply (Hm (S i) (S j)); [| |lia].
  - rewrite Forall_lookup in *. intros j y Hy. apply (Hm 0%nat (S j)); [done|done|lia|]. by eapply Hall.
Qed.
Lemma sorted_delete (Rel : A → A → Prop) l i : StronglySorted Rel l → StronglySorted Rel (delete i l).
Proof.
  intros Hs. revert i. induction Hs as [|x l Hs IH Hall]; intros [|i]; simpl; try done; try by constructor.
  constructor; [apply IH|]. rewrite Forall_elem in *. intros y Hy. apply Hall.
  destruct (decide (i < length l)%nat) as [Hi|Hi].
  - destruct (lookup_lt_is_Some_2 l i Hi) as [z Hz]. rewrite (delete_Permutation l i z Hz). by right.
  - by rewrite delete_take_drop, take_ge, drop_ge, app_nil_r in Hy by lia.
Qed.
End sorting.

(** ** Constructing, extending and shrinking a memory *)
Section operations.
Context `{Target} `{OS W}.
Implicit Types (r : GuestRegionMmap W) (rs : list (GuestRegionMmap W)) (m : GuestMemoryMmap W).

Lemma before_trans r1 r2 r3 : region_wf r2 → before r1 r2 → before r2 r3 → before r1 r3.
Proof. intros (_ & ? & _). unfold before. lia. Qed.

(** The first neighbours that are not one before the other are in the wrong
    order, or overlap. *)
Definition unsorted rs : Prop :=
  ∃ i r r', rs !! i = Some r ∧ rs !! S i = Some r' ∧ key r' < key r ∧
    StronglySorted before (take (S i) rs).
Definition overlapping rs : Prop :=
  ∃ i r r', rs !! i = Some r ∧ rs !! S i = Some r' ∧ key r ≤ key r' < key r + region_size r ∧
    StronglySorted before (take (S i) rs).

Lemma before_cons x y rs :
  region_wf y → before x y → StronglySorted before (y :: rs) → StronglySorted before (x :: y :: rs).
Proof.
  intros Hy Hxy Hs. constructor; [done|]. constructor; [done|].
  apply StronglySorted_cons in Hs as [Hall _]. rewrite Forall_elem in *. intros z Hz.
  by apply (before_trans x y z); [| |apply Hall].
Qed.

Lemma check_windows_ok rs :
  Forall region_wf rs → ∃ res, check_windows rs = Ret res ∧
    match res with
    | Ok _ => StronglySorted before rs
    | Err UnsortedMemoryRegions => unsorted rs
    | Err MemoryRegionOverlap => overlapping rs
    | Err _ => False
    end.
Proof.
  induction rs as [|x rs IH]; intros Hwf; [by exists (Ok tt); split; [|constructor]|].
  apply Forall_cons_iff in Hwf as [Hx Hwf]. destruct rs as [|y rs].
  { exists (Ok tt). split; [done|]. by repeat constructor. }
  cbn [check_windows]. destruct (Z.ltb_spec (key y) (key x)).
  { eexists. split; [done|]. exists 0%nat, x, y. split_and!; [done..|]. by repeat constructor. }
  rewrite (last_addr_ok x), bind_ret by done. cbn [ga_0].
  destruct (Z.leb_spec (key y) (key x + region_size x - 1)).
  { eexists. split; [done|]. exists 0%nat, x, y.
    split_and!; [done|done|lia|lia|by repeat constructor]. }
  destruct (IH Hwf) as (res & E & Hres). exists res. split; [done|].
  apply Forall_cons_iff in Hwf as [Hy _]. assert (before x y) as Hxy by (unfold before; lia).
  destruct res as [u|[]]; try done; [by apply before_cons|..];
    destruct Hres as (i & r & r' & ? & ? & ? & ?); exists (S i), r, r';
    (split_and?; [solve [done|lia]..|by apply before_cons]).
Qed.

Lemma not_unsorted rs : regions_ok rs → ¬ unsorted rs ∧ ¬ overlapping rs.
Proof.
  intros Hok. split; intros (i & r & r' & Hr & Hr' & Hk & _);
    pose proof (sorted_lookup rs i (S i) r r' (proj2 Hok) Hr Hr' ltac:(lia)) as Hb;
    destruct (regions_wf rs i r Hok Hr) as (? & ? & _); unfold before in Hb; lia.
Qed.

Lemma from_arc_regions_ok pid rs :
  Forall region_wf rs → ∃ res, from_arc_regions pid rs = Ret res ∧
    match res with
    | Ok m => m = GMemory pid rs ∧ regions_ok rs ∧ rs ≠ []
    | Err NoMemoryRegion => rs = []
    | Err UnsortedMemoryRegions => unsorted rs
    | Err MemoryRegionOverlap => overlapping rs
    | Err _ => False
    end.
Proof.
  intros Hwf. destruct rs as [|x rs]; [by eexists|]. unfold from_arc_regions.
  destruct (check_windows_ok (x :: rs) Hwf) as (res & -> & Hres). rewrite bind_ret.
  destruct res as [u|e]; eexists; (split; [done|]); [done|by destruct e].
Qed.

(** C10: [from_arc_regions] accepts regions exactly when there is one, each
    starts after the end of the one before it, and then holds them unchanged;
    otherwise it reports that there is no region, or what is wrong with the
    first neighbours that violate this: that they are unsorted, or overlap. *)
Theorem from_arc_regions_iff pid rs :
  Forall region_wf rs → ∃ res, from_arc_regions pid rs = Ret res ∧
    (res = Ok (GMemory pid rs) ↔ rs ≠ [] ∧ regions_ok rs) ∧
    match res with
    | Ok m => m = GMemory pid rs
    | Err NoMemoryRegion => rs = []
    | Err UnsortedMemoryRegions => unsorted rs
    | Err MemoryRegionOverlap => overlapping rs
    | Err _ => False
    end.
Proof.
  intros Hwf. destruct (from_arc_regions_ok pid rs Hwf) as (res & E & Hres).
  exists res. split; [done|]. destruct res as [m|e].
  - destruct Hres as (-> & ? & ?). done.
  - split; [|by destruct e]. split; [done|]. intros [Hne Hok].
    destruct (not_unsorted rs Hok). by destruct e.
Qed.

(** Two regions that do not share an address. *)
Definition apart r r' : Prop := before r r' ∨ before r' r.

Lemma apart_iff r r' : region_wf r → region_wf r' → ¬ apart r r' ↔ ∃ a, contains r a ∧ contains r' a.
Proof.
  intros Hr Hr'. setoid_rewrite contains_eq; [|done..].
  destruct Hr as (? & ? & _), Hr' as (? & ? & _). unfold apart, before. split.
  - intros Hn. exists (Z.max (key r) (key r')). lia.
  - intros (a & ? & ?). lia.
Qed.
Instance apart_dec r r' : Decision (apart r r').
Proof. unfold apart, before. apply _. Qed.

Lemma insert_region_ok m r :
  regions_ok (regions m) → region_wf r → ∃ res, insert_region m r = Ret res ∧
    match res with
    | Ok m' => regions_ok (regions m') ∧ regions m' ≡ₚ r :: regions m ∧ mm_pid m' = mm_pid m ∧
        ∀ r', r' ∈ regions m → apart r r'
    | Err e => e = MemoryRegionOverlap ∧ ∃ r', r' ∈ regions m ∧ ¬ apart r r'
    end.
Proof.
  intros [Hwf Hs] Hr. unfold insert_region.
  destruct (sort_by_key_spec key (regions m ++ [r])) as [Hp Hk].
  set (rs := sort_by_key _ _) in *.
  assert (rs ≡ₚ r :: regions m) as Hp' by (by rewrite Hp, Permutation_app_comm).
  assert (Forall region_wf rs) as Hwf' by (rewrite Hp'; by constructor).
  assert ((∀ r', r' ∈ regions m → apart r r') → regions_ok rs) as Hap.
  { intros Ha. split; [done|].
    assert (StronglySorted apart rs) as Hsa.
    { apply (pairwise_perm apart (r :: regions m)); [unfold apart; tauto|by symmetry|].
      constructor; [|by apply Forall_elem].
      eapply sorted_mono; [|exact Hs]. by left. }
    eapply sorted_mono; [|exact Hk]. intros i j x y Hx Hy Hlt Hle.
    destruct (sorted_pair apart rs i j x y) as [?|Hyx]; [done..|].
    rewrite Forall_lookup in Hwf'. destruct (Hwf' j y Hy) as (? & ? & _). unfold before in Hyx. cbn beta in Hle. lia. }
  destruct (from_arc_regions_ok (mm_pid m) rs Hwf') as (res & -> & Hres). exists res. split; [done|].
  destruct res as [m'|e].
  - destruct Hres as (-> & Hok & _). split_and!; try done.
    assert (StronglySorted apart (r :: regions m)) as Hsa.
    { apply (pairwise_perm apart rs); [unfold apart; tauto|done|].
      eapply sorted_mono; [|apply Hok]. by left. }
    apply StronglySorted_cons in Hsa as [Hsa _]. by apply Forall_elem.
  - destruct (decide (Forall (apart r) (regions m))) as [Hall|Hn].
    + destruct (not_unsorted rs) as [??]; [by apply Hap, Forall_elem|].
      destruct e; try done. rewrite Hres in Hp'. by apply Permutation_nil_l in Hp'.
    + apply not_Forall_Exists, Exists_exists in Hn as (r' & Hin & Hn); [|apply _].
      split; [|exists r'; split; [by apply list_elem_of_In|done]].
      destruct e; try done; [by rewrite Hres in Hp'; apply Permutation_nil_l in Hp'|].
      exfalso. destruct Hres as (i & x & y & Hx & Hy & Hlt).
      pose proof (sorted_pair _ rs i (S i) x y Hk Hx Hy ltac:(lia)) as Hle. simpl in Hle. lia.
Qed.

(** C8: [insert_region] succeeds exactly when the new region shares no address
    with the memory; the result is well formed and has the old regions and
    the new one, so that an address is backed when it was before or lies in
    the new region.  Otherwise it fails with [MemoryRegionOverlap]. *)
Theorem insert_region_iff m r :
  regions_ok (regions m) → region_wf r →
  if decide (Forall (apart r) (regions m)) then
    ∃ m', insert_region m r = Ret (Ok m') ∧ regions_ok (regions m') ∧
      regions m' ≡ₚ r :: regions m ∧ mm_pid m' = mm_pid m ∧
      ∀ a, backed m' a ↔ contains r a ∨ backed m a
  else insert_region m r = Ret (Err MemoryRegionOverlap).
Proof.
  intros Hok Hr. destruct (insert_region_ok m r Hok Hr) as (res & -> & Hres).
  destruct res as [m'|e].
  - destruct Hres as (Hok' & Hp & ? & Hap). rewrite decide_True by (by apply Forall_elem).
    exists m'. split_and!; [done..|]. intros a. unfold backed. simpl. setoid_rewrite Hp.
    setoid_rewrite elem_of_cons. split.
    + intros (x & [->|Hx] & Hc); [by left|right; by exists x].
    + intros [Hc|(x & Hx & Hc)]; [exists r; auto|exists x; auto].
  - destruct Hres as (-> & r' & Hin & Hn). rewrite decide_False; [done|].
    rewrite Forall_elem. intros Hall. by apply Hn, Hall.
Qed.

Lemma remove_region_ok m base sz :
  regions_ok (regions m) → ∃ res, remove_region m base sz = Ret res ∧
    match res with
    | Ok (m', r) => ∃ i, regions m !! i = Some r ∧ regions m' = delete i (regions m) ∧
        mm_pid m' = mm_pid m ∧ guest_base r = base ∧ region_size r = sz
    | Err e => e = InvalidGuestRegion ∧
        ∀ r, r ∈ regions m → guest_base r = base → region_size r ≠ sz
    end.
Proof.
  intros Hok. unfold remove_region.
  destruct (search_ok (regions m) (ga_0 base) Hok) as ([i|i] & -> & Hres); rewrite bind_ret.
  - destruct Hres as (Hi & r & Hr & Hk). pose proof (regions_wf _ _ r Hok Hr) as Hwf.
    unfold vec_remove, index. rewrite (proj2 (Z.leb_le _ _)), Hr by done. cbn [unwrap].
    rewrite !bind_ret. unfold MmapUnix.size.
    rewrite as_u64_small by (apply usize_le_u64, Hwf). change (mr_size (mapping r)) with (region_size r).
    destruct (Z.eqb_spec (region_size r) sz); eexists; (split; [done|]).
    + exists (Z.to_nat i). rewrite delete_take_drop. split_and!; try done.
      unfold key in Hk. simpl in Hk. destruct (guest_base r), base. simpl in *. congruence.
    + split; [done|]. intros r' [j Hj]%list_elem_of_lookup_1 Hb.
      destruct (decide (j = Z.to_nat i)) as [->|Hne]; [congruence|].
      assert (key r' = key r) as Hkk by (rewrite Hk; unfold key; simpl; by rewrite Hb).
      destruct (lt_eq_lt_dec j (Z.to_nat i)) as [[?|?]|?]; [|done|].
      * pose proof (keys_sorted _ j _ r' r Hok Hj Hr ltac:(done)). lia.
      * pose proof (keys_sorted _ _ j r r' Hok Hr Hj ltac:(done)). lia.
  - destruct Hres as (Hi & Hb & Ha). eexists. split; [done|]. split; [done|].
    intros r [j Hj]%list_elem_of_lookup_1 <-. exfalso.
    destruct (decide (Z.of_nat j < i)).
    + specialize (Hb j r Hj ltac:(done)). unfold key in Hb. simpl in Hb. lia.
    + specialize (Ha j r Hj ltac:(lia)). unfold key in Ha. simpl in Ha. lia.
Qed.

Lemma regions_ok_delete rs i : regions_ok rs → regions_ok (delete i rs).
Proof.
  intros [Hwf Hs]. split; [|by apply sorted_delete]. by apply Forall_delete.
Qed.

(** C9: [remove_region] succeeds exactly when a region has the given base and
    size; it returns that region with a well-formed memory of the others, in
    their order.  Otherwise it fails with [InvalidGuestRegion]. *)
Theorem remove_region_iff m base sz :
  regions_ok (regions m) → ∃ res, remove_region m base sz = Ret res ∧
    match res with
    | Ok (m', r) => r ∈ regions m ∧ guest_base r = base ∧ region_size r = sz ∧
        regions_ok (regions m') ∧ regions m ≡ₚ r :: regions m' ∧ mm_pid m' = mm_pid m ∧
        sublist (regions m') (regions m)
    | Err e => e = InvalidGuestRegion ∧
        ¬ ∃ r, r ∈ regions m ∧ guest_base r = base ∧ region_size r = sz
    end.
Proof.
  intros Hok. destruct (remove_region_ok m base sz Hok) as (res & E & Hres).
  exists res. split; [done|]. destruct res as [[m' r]|e].
  - destruct Hres as (i & Hi & Hd & ? & ? & ?). split_and!; try done.
    + by eapply list_elem_of_lookup_2.
    + rewrite Hd. by apply regions_ok_delete.
    + rewrite Hd. by apply delete_Permutation.
    + rewrite Hd. apply sublist_delete.
  - destruct Hres as [-> Hn]. split; [done|]. intros (r & Hin & Hb & Hs). by apply (Hn r).
Qed.

(** removing a region that was just inserted returns it, together with the
    memory that it was inserted into. *)
Theorem insert_remove_region m r m' :
  regions_ok (regions m) → region_wf r → insert_region m r = Ret (Ok m') →
  remove_region m' (guest_base r) (region_size r) = Ret (Ok (m, r)).
Proof.
  intros Hok Hr Hins. destruct (insert_region_ok m r Hok Hr) as (res & E & Hres).
  rewrite Hins in E. injection E as <-. destruct Hres as (Hok' & Hp & Hpid & Hap).
  destruct (remove_region_ok m' (guest_base r) (region_size r) Hok') as (res & -> & Hres).
  assert (r ∈ regions m') as Hin by (rewrite Hp; left).
  destruct res as [[m'' r'']|e]; [|by destruct Hres as [_ Hn]; destruct (Hn r Hin)].
  destruct Hres as (i & Hi & Hd & Hpid' & Hb & Hs).
  assert (r'' = r) as ->.
  { apply list_elem_of_lookup_1 in Hin as [j Hj].
    assert (contains r'' (key r) ∧ contains r (key r)) as [Hc Hc'].
    { rewrite !contains_eq by (done || by eapply regions_wf). unfold key. simpl.
      rewrite Hb, Hs. destruct Hr as (? & ? & _). lia. }
    rewrite (contains_index _ i j r'' r (key r) Hok' Hi Hj Hc Hc') in Hi. congruence. }
  pose proof (delete_Permutation _ _ _ Hi) as Hpd. rewrite <-Hd in Hpd.
  rewrite Hp in Hpd. apply (inj (r ::.)) in Hpd. assert (regions m'' = regions m) as Hrs.
  { symmetry. apply (StronglySorted_unique_strong before); [|apply Hok| |done].
    - intros x y Hx Hy. pose proof (regions_wf_in _ x Hok Hx) as (_ & ? & _).
      rewrite <-Hpd in Hy. pose proof (regions_wf_in _ y Hok Hy) as (_ & ? & _).
      unfold before. lia.
    - rewrite Hd. apply regions_ok_delete, Hok'. }
  destruct m as [p l], m'' as [p'' l'']. simpl in *. by subst.
Qed.
End operations.

(** ** Accessing the memory of a region *)
Section access.
Context `{Target} `{RemoteSpec W}.
Implicit Types (r : GuestRegionMmap W) (m : GuestMemoryMmap W) (w : W).

(** The host range of a region is accessible and lies in the address space. *)
Definition host_ok w r : Prop :=
  0 < region_size r ∧ in_bits usize_bits (region_size r) ∧
  0 ≤ mr_addr (mapping r) ∧ mr_addr (mapping r) + region_size r ≤ 2 ^ usize_bits ∧
  accessible w (pid r) (mr_addr (mapping r)) (region_size r).
Definition host_view w r : list byte :=
  match read_bytes (space w (pid r)) (mr_addr (mapping r)) (region_size r) with
  | Ret bs => bs
  | _ => []
  end.
(** Host ranges of one process that do not overlap. *)
Definition host_separate r r' : Prop :=
  pid r = pid r' ∧
  disjoint_ranges (mr_addr (mapping r)) (region_size r) (mr_addr (mapping r')) (region_size r').

Lemma host_view_read w r :
  host_ok w r → read_bytes (space w (pid r)) (mr_addr (mapping r)) (region_size r) = Ret (host_view w r) ∧
    lenZ (host_view w r) = region_size r.
Proof.
  intros (? & _ & _ & _ & _ & Hm). unfold host_view.
  destruct (read_bytes_mapped _ _ (region_size r) ltac:(lia) Hm) as (bs & -> & ?). done.
Qed.
Lemma host_len w r : host_ok w r → len r = region_size r.
Proof. intros (_ & Hs & _). by apply as_u64_small, usize_le_u64. Qed.
Lemma host_ptr_ok w r off :
  host_ok w r → 0 ≤ off < region_size r →
  host_ptr r (RegionAddr off) = Ret (Ok (mr_addr (mapping r) + off)).
Proof.
  intros (Hp & Hs & Ha & He & _) Hoff. unfold host_ptr. simpl. unfold in_bits in Hs.
  unfold MmapUnix.size, as_ptr, region_size in *.
  rewrite as_usize_small by (unfold in_bits; lia). rewrite (proj2 (Z.leb_gt _ _)) by lia.
  by rewrite uadd_ok by (unfold in_bits; lia).
Qed.

(** A store in the host range of a region. *)
Lemma host_stored w w' r off bs :
  host_ok w r → 0 ≤ off → off + lenZ bs ≤ region_size r → attached w' (pid r) →
  space w' (pid r) = store_list (space w (pid r)) (mr_addr (mapping r) + off) bs →
  host_ok w' r ∧ host_view w' r = list_inserts (Z.to_nat off) bs (host_view w r) ∧
  ∀ r', host_separate r r' → host_ok w r' → host_ok w' r' ∧ host_view w' r' = host_view w r'.
Proof.
  intros Hok Hoff Hle Ha Hs. pose proof (host_view_read w r Hok) as [Hr _].
  pose proof Hok as (? & ? & ? & ? & Hacc).
  split_and!.
  - split_and!; try done. by eapply accessible_store.
  - unfold host_view at 1. by rewrite Hs, (read_bytes_store _ _ _ (host_view w r)) by (done || lia).
  - intros r' [Ep Hd] (? & ? & ? & ? & Hacc'). rewrite <-Ep in Hacc'. split.
    + split_and!; try done. rewrite <-Ep. by eapply accessible_store.
    + unfold host_view. rewrite <-Ep, Hs, read_bytes_store_disjoint; [done|].
      unfold disjoint_ranges in *. lia.
Qed.

#[export] Instance GuestRegionMmap_Spec : RegionSpec (GuestRegionMmap W) W.
Proof.
  refine {| region_ok := host_ok; view := host_view; separate := host_separate |}; try done.
  - intros w r Hok. rewrite (host_len w) by done. by apply host_view_read.
  - intros w r off buf Hok. rewrite (host_len w) by done. intros Hoff Hle.
    simpl. unfold region_write. rewrite (host_ptr_ok w) by done. rewrite bind_ret.
    pose proof Hok as (_ & _ & _ & _ & Hacc).
    destruct (process_write_bytes_full w (pid r) (mr_addr (mapping r) + off) buf) as (w' & -> & Hs & Ha).
    { eapply accessible_sub; [done|lia..]. }
    exists w'. split; [done|]. eapply host_stored; eauto; lia.
  - intros w r off buf Hok. rewrite (host_len w) by done. intros Hoff Hle.
    simpl. unfold region_read. rewrite (host_ptr_ok w) by done. rewrite bind_ret.
    pose proof Hok as (? & _ & _ & _ & Hacc). pose proof (host_view_read w r Hok) as [Hr _].
    destruct (process_read_bytes_full w (pid r) buf (mr_addr (mapping r) + off)) as (bs & Hb & ->).
    { eapply accessible_sub; [done|lia..]. }
    rewrite (read_bytes_sub _ _ (region_size r) (host_view w r)) in Hb by (done || lia).
    rewrite Nat2Z.id in Hb. by injection Hb as <-.
Defined.

(** [GuestRegionMmap::write] does not stop at the end of the region: a
    buffer that is longer than the room from its offset on is written in full
    when the host memory behind the region is accessible, and the bytes past
    the room overwrite that memory. *)
Theorem region_write_overruns w r off buf :
  host_ok w r → 0 ≤ off < region_size r → region_size r < off + lenZ buf →
  accessible w (pid r) (mr_addr (mapping r) + region_size r) (off + lenZ buf - region_size r) →
  ∃ w', write r w buf (RegionAddr off) = Ret (Ok (lenZ buf), w') ∧
    read_bytes (space w' (pid r)) (mr_addr (mapping r) + region_size r) (off + lenZ buf - region_size r)
      = Ret (drop (Z.to_nat (region_size r - off)) buf).
Proof.
  intros Hok Hoff Hlt Hacc2. pose proof Hok as (? & _ & _ & _ & Hacc).
  simpl. unfold region_write. rewrite (host_ptr_ok w) by done. rewrite bind_ret.
  destruct (process_write_bytes_full w (pid r) (mr_addr (mapping r) + off) buf) as (w' & -> & Hs & Ha).
  { destruct Hacc as [? Hm], Hacc2 as [_ Hm2]. split; [done|]. intros i Hi.
    destruct (decide (off + i < region_size r)).
    - rewrite <-Z.add_assoc. apply Hm. lia.
    - replace (mr_addr (mapping r) + off + i)
        with (mr_addr (mapping r) + region_size r + (off + i - region_size r)) by lia.
      apply Hm2. lia. }
  exists w'. split; [done|]. rewrite Hs.
  pose proof (read_back (space w (pid r)) (mr_addr (mapping r) + off) buf) as Hb.
  apply (read_bytes_sub _ _ (lenZ buf) _ (region_size r - off) (off + lenZ buf - region_size r)) in Hb;
    [|lia..].
  replace (mr_addr (mapping r) + off + (region_size r - off))
    with (mr_addr (mapping r) + region_size r) in Hb by lia.
  rewrite Hb. f_equal. apply take_ge. rewrite length_drop. lia.
Qed.

(** C34: [store] and [load] through the guest memory panic for every value of
    at most 8 bytes whose host address is a multiple of 8, and for every value
    of 8 bytes; the value at any other host address within its word is
    stored and read back.  The orderings make no difference. *)
Theorem memory_atomic_access `{!ByteValued T, !AtomicAccess T, !ByteValuedSpec T} m w r a (v : T) os ol :
  memory_ok m → r ∈ regions m → host_ok w r → contains r (ga_0 a) → in_bits 64 (ga_0 a) →
  0 < size_of T ≤ 8 →
  let host := mr_addr (mapping r) + (ga_0 a - key r) in
  8 ≤ host → host + 8 < 2 ^ usize_bits →
  if decide (within_word T host) then
    accessible w (pid r) (host - host `mod` 8) 8 →
    ∃ w', store m w v a os = Ret (Ok tt, w') ∧
      space w' (pid r) = store_list (space w (pid r)) host (as_slice v) ∧
      load T m w' a ol = Ret (Ok v, w')
  else store m w v a os = Panic ∧ load T m w a ol = Panic.
Proof.
  intros Hm Hin Hok Hcon Ha Hsz host Hh Hlt.
  assert (to_region_addr m a = Ret (Some (r, RegionAddr (ga_0 a - key r)))) as E.
  { destruct (to_region_addr_ok m a Hm Ha) as (o & -> & Ho). destruct o as [[r' off]|].
    - destruct Ho as (Hin' & Hcon' & ->). by rewrite (contains_unique m r' r (ga_0 a)).
    - destruct Ho. by exists r. }
  assert (host_ptr r (RegionAddr (ga_0 a - key r)) = Ret (Ok host)) as Ep.
  { apply (host_ptr_ok w); [done|]. destruct Hcon as [??]. rewrite (host_len w) in * by done.
    unfold key. lia. }
  cbn [store load memory_bytes]. unfold memory_store, memory_load, on_region.
  rewrite !E, !bind_ret. cbn [store load region_bytes_impl GuestRegionMmap_Region GuestRegionMmap_Bytes].
  unfold region_store, region_load. rewrite !Ep, !bind_ret.
  destruct (decide (within_word T host)) as [Hw|Hw].
  - intros Hacc. destruct (process_store_spec w (pid r) host v) as (w' & -> & Hs & Ha');
      [done|done|lia|done..|].
    exists w'. split_and!; [done..|]. rewrite bind_ret.
    cbn [load region_bytes_impl GuestRegionMmap_Region GuestRegionMmap_Bytes].
    unfold region_load. rewrite Ep, bind_ret.
    destruct (process_load_spec (T := T) w' (pid r) host) as (u & -> & Hu); [done|done|lia|done| |].
    { by eapply accessible_store. }
    rewrite Hs, <-(length_as_slice v), read_back in Hu. injection Hu as Hu. rewrite bind_ret.
    simpl. repeat f_equal. by rewrite <-(from_as_slice u), <-Hu, from_as_slice.
  - destruct (word_panics w (pid r) host v) as [-> ->]; [done|done|lia| |done].
    unfold within_word in Hw. pose proof (Z.mod_pos_bound host 8). lia.
Qed.
End access.

(** ** Memory made of new mappings *)
Section from_ranges.
Context `{Target} `{!OS W} `{!MmapSpec W}.
Implicit Types (w : W).

Definition made (p : Z) (r : GuestRegionMmap W) (range : GuestAddress * Z * option (FileOffset W)) : Prop :=
  let '(base, sz, fo) := range in
  guest_base r = base ∧ region_size r = sz ∧ pid r = p ∧ file_offset r = fo ∧
  mr_owned (mapping r) = true ∧ mmap_ok_region (mapping r).

(** [mmap] for one range. *)
Definition map_range w (range : GuestAddress * Z * option (FileOffset W))
    : result (MmapRegion W) MmapRegionError * W :=
  let '(_, sz, fo) := range in
  match fo with Some f => from_file w f sz | None => mmap_region_new w sz end.

(** Two ranges follow each other in the list, and satisfy [P] of their bases
    and of the size of the first. *)
Definition neighbours (P : Z → Z → Z → Prop) (ranges : list (GuestAddress * Z * option (FileOffset W))) : Prop :=
  ∃ i b n fo b' n' fo', ranges !! i = Some (b, n, fo) ∧ ranges !! S i = Some (b', n', fo') ∧
    P (ga_0 b) n (ga_0 b').

Lemma made_neighbours p rs ranges i r r' (P : Z → Z → Z → Prop) :
  Forall2 (made p) rs ranges → rs !! i = Some r → rs !! S i = Some r' →
  P (key r) (region_size r) (key r') → neighbours P ranges.
Proof.
  intros Hm Hr Hr' HP. destruct (Forall2_lookup_l _ _ _ _ _ Hm Hr) as ([[b n] fo] & ? & <- & <- & _).
  destruct (Forall2_lookup_l _ _ _ _ _ Hm Hr') as ([[b' n'] fo'] & ? & <- & <- & _).
  by exists i, (guest_base r), (region_size r), fo, (guest_base r'), (region_size r'), fo'.
Qed.

Definition range_ok (range : GuestAddress * Z * option (FileOffset W)) : Prop :=
  let '(base, sz, _) := range in 0 ≤ ga_0 base ∧ in_bits usize_bits sz.

Lemma build_ok w fo sz prot flags r w' :
  in_bits usize_bits sz → build w fo sz prot flags = (Ok r, w') →
  mr_size r = sz ∧ mr_file_offset r = fo ∧ mr_owned r = true ∧ mmap_ok_region r.
Proof.
  intros Hsz E. pose proof (build_spec w fo sz prot flags Hsz) as Hb. rewrite E in Hb.
  destruct Hb as (-> & _ & _ & ? & _). by split_and!.
Qed.

Lemma guest_region_new_ok p r base g :
  0 ≤ ga_0 base → in_bits usize_bits (mr_size r) → mmap_ok_region r →
  guest_region_new p r base = Ok g → region_wf g ∧ g = GRegion r base p.
Proof.
  intros Hb Hs (? & ? & ?). unfold guest_region_new.
  change (vm_len r) with (mr_size r). rewrite as_u64_small by (by apply usize_le_u64).
  destruct (uint_checked_add 64 (ga_0 base) (mr_size r)) eqn:E; [|done]. intros [= <-].
  apply uint_checked_add_Some in E as [_ ?]. by split_and!.
Qed.

Lemma collect_regions_ok w p acc ranges :
  Forall range_ok ranges → Forall region_wf acc →
  match collect_regions w p acc ranges with
  | (Ok rs, _) => ∃ rs', rs = acc ++ rs' ∧ Forall region_wf rs ∧ Forall2 (made p) rs' ranges
  | (Err e, _) => ∃ b sz fo, (b, sz, fo) ∈ ranges ∧
      (e = InvalidGuestRegion ∧ 2 ^ 64 ≤ ga_0 b + sz ∨
       ∃ me w' w'', e = MmapRegionErr me ∧ map_range w' (b, sz, fo) = (Err me, w''))
  end.
Proof.
  intros Hr. revert w acc. induction Hr as [|[[base sz] fo] ranges [Hb Hs] Hr IH]; intros w acc Hacc; simpl.
  { exists []. rewrite app_nil_r. by split_and!. }
  destruct (match fo with Some f_off => _ | None => _ end) as [[r|e] w'] eqn:E; cycle 1.
  { exists base, sz, fo. split; [by left|]. right. by exists e, w, w'. }
  assert (mr_size r = sz ∧ mr_file_offset r = fo ∧ mr_owned r = true ∧ mmap_ok_region r) as (Esz & Efo & Eow & Hok).
  { destruct fo; by apply build_ok in E. }
  destruct (guest_region_new p r base) as [g|e] eqn:Eg; cycle 1.
  { exists base, sz, fo. split; [by left|]. left. revert Eg. unfold guest_region_new.
    change (vm_len r) with (mr_size r). rewrite Esz, as_u64_small by (by apply usize_le_u64).
    destruct (uint_checked_add _ _ _) eqn:Ea; [done|]. intros [= <-].
    by apply uint_checked_add_None in Ea. }
  apply guest_region_new_ok in Eg as [Hwf ->]; [|done|by rewrite Esz|done].
  assert (Forall region_wf (acc ++ [GRegion r base p])) as Hacc' by
    (apply Forall_app; split; [done|by constructor]).
  specialize (IH w' (acc ++ [GRegion r base p]) Hacc').
  destruct (collect_regions w' p (acc ++ [GRegion r base p]) ranges) as [[rs|e] w''];
    [|destruct IH as (b & n & f & ? & ?); exists b, n, f; by split; [right|]].
  destruct IH as (rs' & -> & Hwf' & Hm).
  exists (GRegion r base p :: rs'). rewrite <-app_assoc in *. split_and!; [done..|].
  constructor; [|done]. by split_and!.
Qed.

(** C35: [from_ranges_with_files] never panics.  A memory that it returns is
    well formed and has one region for each range, in order, with the base,
    size and file of the range, mapped for this memory and not empty.  Each
    error has its cause: there are no ranges, neighbours are unsorted, or
    overlap, a range ends beyond the address space, or mapping it failed. *)
Theorem from_ranges_outcome w p ranges :
  Forall range_ok ranges → ∃ res w', from_ranges_with_files w p ranges = Ret (res, w') ∧
    match res with
    | Ok m => regions_ok (regions m) ∧ mm_pid m = p ∧ Forall2 (made p) (regions m) ranges ∧ ranges ≠ []
    | Err NoMemoryRegion => ranges = []
    | Err UnsortedMemoryRegions => neighbours (λ b _ b', b' < b) ranges
    | Err MemoryRegionOverlap => neighbours (λ b n b', b ≤ b' < b + n) ranges
    | Err InvalidGuestRegion => ∃ b sz fo, (b, sz, fo) ∈ ranges ∧ 2 ^ 64 ≤ ga_0 b + sz
    | Err (MmapRegionErr e) => ∃ range w1 w2, range ∈ ranges ∧ map_range w1 range = (Err e, w2)
    end.
Proof.
  intros Hr. unfold from_ranges_with_files, from_regions.
  pose proof (collect_regions_ok w p [] ranges Hr (Forall_nil _)) as Hc.
  destruct (collect_regions w p [] ranges) as [[rs|e] w']; cycle 1.
  { eexists _, _. split; [done|].
    destruct Hc as (b & sz & fo & Hin & [[-> ?]|(me & w1 & w2 & -> & ?)]); [by exists b, sz, fo|].
    by exists (b, sz, fo), w1, w2. }
  destruct Hc as (rs' & -> & Hwf & Hm). simpl in *.
  destruct (from_arc_regions_ok p rs' Hwf) as (res & -> & Hres). rewrite bind_ret.
  destruct res as [m|e]; eexists _, _; (split; [done|]).
  - destruct Hres as (-> & Hok & Hne). split_and!; try done. intros ->. by apply Forall2_nil_inv_r in Hm.
  - destruct e; try done; [subst; by apply Forall2_nil_inv_l in Hm|..];
      destruct Hres as (i & r & r' & Hr1 & Hr2 & Hk & _);
      by apply (made_neighbours _ _ _ _ _ _ _ Hm Hr1 Hr2).
Qed.
End from_ranges.

(** ** Empty regions *)
Section empty_region.
Context `{Target} `{OS W}.

(** C36: a region of size 0, which [MmapRegion::build_raw] and
    [GuestRegionMmap::new] accept, makes a memory with which translating its
    base address panics, in every profile. *)
Theorem empty_region_panics p r :
  region_size r = 0 → in_bits 64 (key r) →
  guest_region_new (pid r) (mapping r) (guest_base r) = Ok r ∧
  from_arc_regions p [r] = Ret (Ok (GMemory p [r])) ∧
  to_region_addr (GMemory p [r]) (guest_base r) = Panic.
Proof.
  intros Hs Hb. split; [|split; [done|]].
  - unfold guest_region_new. change (vm_len (mapping r)) with (region_size r). rewrite Hs.
    rewrite as_u64_small by done. unfold uint_checked_add.
    destruct Hb as [_ Hb]. unfold key in Hb. simpl in Hb.
    rewrite (proj2 (Z.ltb_lt _ _)) by lia. by destruct r.
  - unfold to_region_addr. simpl. unfold mmap_find_region, binary_search_by_key. cbn [regions].
    rewrite (while_loop_once _ _ (Ret (Ok 0))); cycle 1.
    { simpl. unfold key. simpl. by rewrite Z.ltb_irrefl. }
    simpl. unfold region_to_region_addr. simpl. unfold impl_checked_offset_from, uint_checked_sub.
    rewrite (proj2 (Z.leb_le _ _)), Z.sub_diag by lia. simpl.
    unfold region_check_address, region_address_in_range. simpl.
    unfold region_len. change (vm_len (mapping r)) with (region_size r). by rewrite Hs.
Qed.
End empty_region.
