(* ===== verification/SharedMemory.v ===== *)
(** * Guest memory that several threads access ([src/src/guest_memory.rs], [src/src/mmap.rs])

    [write], [read], [write_slice] and [read_slice] of a [GuestMemoryMmap] as threads: the
    loop of [try_access] runs as in [GuestMemory], and the transfer to or from
    each region takes the turns of its system call, as in [Transfers]. *)

From S2P Require Import Prelude Memory Address PlainData AtomicIntegers Bytes CopySlice Volatile Os RemoteMem Concurrency Transfers GuestMemory MmapUnix Mmap.

(** Evaluation that takes no turn: when it does not return, nor does the thread. *)
Definition lift_thread {W A} (o : outcome (thread W A)) : thread W A :=
  match o with
  | Ret t => t
  | Panic => Running (λ _, Panic)
  | Undef => Running (λ _, Undef)
  | OutOfFuel => Running (λ _, OutOfFuel)
  end.

(** ** [try_access] *)
Section try_access.
Context `{Target} `{GuestMemory M R W} {S : Type}.
Context (m : M) (count : Z) (addr : GuestAddress).
Implicit Types (cur : GuestAddress) (total : Z) (s : S).

(** An iteration up to the callback, and from there on. *)
Definition access_find cur total : outcome (option (R * MemoryRegionAddress * Z)) :=
  o ← find_region m cur;
  match o with
  | None => Ret None
  | Some region =>
      start ← unwrap (region_to_region_addr region cur);
      cap ← usub 64 (len region) (raw_value start);
      rest ← usub usize_bits count total;
      Ret (Some (region, start, as_usize (Z.min cap (as_u64 rest))))
  end.
Definition access_next cur total (p : gresult Z * S) : outcome ((GuestAddress * Z * S) + (gresult Z * S)) :=
  let '(r, s) := p in
  match r with
  | Ok n =>
      if n =? 0 then Ret (inr (Ok total, s))
      else
        total ← uadd usize_bits total n;
        if total =? count then Ret (inr (access_done addr total s))
        else match overflowing_add cur (as_u64 n) with
             | (GuestAddr 0, _) => Ret (inl (GuestAddr 0, total, s))
             | (result, false) => Ret (inl (result, total, s))
             | (_, true) => Panic
             end
  | Err e => Ret (inr (Err e, s))
  end.

(** Together they are the iteration of [GuestMemory]. *)
Lemma access_step_split f cur total s :
  access_step m count addr f (cur, total, s) =
  (o ← access_find cur total;
   match o with
   | None => Ret (inr (access_done addr total s))
   | Some (region, start, l) => p ← f total l start region s; access_next cur total p
   end).
Proof.
  unfold access_step, access_find, access_next. destruct (find_region m cur) as [[region|]| | |]; simpl; [|done..].
  destruct (unwrap _); simpl; [|done..]. destruct (usub 64 _ _); simpl; [|done..].
  destruct (usub usize_bits _ _); simpl; [|done..]. by destruct (f _ _ _ _ _) as [[]| | |].
Qed.

(** The callback takes turns. *)
Context (f : Z → Z → MemoryRegionAddress → R → S → thread W (gresult Z * S)).
Fixpoint access_turns (fuel : nat) cur total s : thread W (gresult Z * S) :=
  match fuel with
  | O => lift_thread OutOfFuel
  | Datatypes.S fuel => lift_thread (
      o ← access_find cur total;
      match o with
      | None => Ret (Finished (access_done addr total s))
      | Some (region, start, l) =>
          Ret (bind_thread (f total l start region s) (λ p, lift_thread (
            x ← access_next cur total p;
            Ret (match x with
                 | inl (cur, total, s) => access_turns fuel cur total s
                 | inr p => Finished p
                 end))))
      end)
  end.
(** Each iteration but the last advances by a byte at least. *)
Definition try_access_thread s : thread W (gresult Z * S) :=
  access_turns (Datatypes.S (Z.to_nat count)) addr 0 s.
End try_access.

(** ** [GuestMemoryMmap] *)
Section threads.
Context `{Target} `{OS W} `{!AtomicCopy W}.
Implicit Types (self : GuestRegionMmap W) (m : GuestMemoryMmap W) (buf : list byte).

Definition region_write_thread self buf (addr : MemoryRegionAddress) : thread W (gresult Z * unit) :=
  lift_thread (
    r ← host_ptr self addr;
    match r with
    | Err e => Ret (Finished (Err e, tt))
    | Ok ptr =>
        Ret (bind_thread (write_bytes_thread (pid self) ptr buf)
          (λ t, Finished (map_err RemoteMemError t.1, tt)))
    end).
Definition region_read_thread self buf (addr : MemoryRegionAddress) : thread W (gresult Z * list byte) :=
  lift_thread (
    r ← host_ptr self addr;
    match r with
    | Err e => Ret (Finished (Err e, buf))
    | Ok ptr =>
        Ret (bind_thread (read_bytes_thread (pid self) ptr buf)
          (λ t, Finished (map_err RemoteMemError t.1, t.2)))
    end).

Definition memory_write_thread m buf (addr : GuestAddress) : thread W (gresult Z * unit) :=
  try_access_thread m (lenZ buf) addr (λ offset _ caddr region _, lift_thread (
    rest ← index_range buf offset (lenZ buf);
    Ret (region_write_thread region rest caddr))) tt.
Definition memory_read_thread m buf (addr : GuestAddress) : thread W (gresult Z * list byte) :=
  try_access_thread m (lenZ buf) addr (λ offset _ caddr region buf, lift_thread (
    rest ← index_range buf offset (lenZ buf);
    Ret (bind_thread (region_read_thread region rest caddr) (λ p, lift_thread (
      buf ← update_range buf offset (lenZ buf) p.2;
      Ret (Finished (p.1, buf))))))) buf.

(** [write_slice] and [read_slice]. *)
Inductive access := WriteSlice (buf : list byte) (addr : GuestAddress) | ReadSlice (buf : list byte) (addr : GuestAddress).
Definition access_thread m (x : access) : thread W (gresult unit * list byte) :=
  match x with
  | WriteSlice buf addr =>
      bind_thread (memory_write_thread m buf addr) (λ p, Finished ((complete (lenZ buf) p).1, []))
  | ReadSlice buf addr =>
      bind_thread (memory_read_thread m buf addr) (λ p, Finished (complete (lenZ buf) p))
  end.
(** A thread that makes several accesses, one after the other. *)
Fixpoint guest_client m (xs : list access) (results : list (gresult unit * list byte))
    : thread W (list (gresult unit * list byte)) :=
  match xs with
  | [] => Finished results
  | x :: xs => bind_thread (access_thread m x) (λ r, guest_client m xs (results ++ [r]))
  end.
End threads.

(** ** Accesses in one transfer

    [m] has [addr] in region [r], at [ptr] in the memory of the process. *)
Section placed.
Context `{Target} `{RemoteSpec W}.
Implicit Types (r : GuestRegionMmap W) (m : GuestMemoryMmap W) (w : W) (buf : list byte) (addr : GuestAddress).

Definition placed m addr (count : Z) r (ptr : Z) : Prop :=
  0 < count ∧ in_bits usize_bits count ∧
  ∃ start l, access_find m count addr 0 = Ret (Some (r, start, l)) ∧ host_ptr r start = Ret (Ok ptr).

Lemma placed_ok m w r addr count :
  memory_ok m → r ∈ regions m → host_ok w r → contains r (ga_0 addr) → in_bits 64 (ga_0 addr) →
  0 < count → in_bits usize_bits count →
  placed m addr count r (mr_addr (mapping r) + (ga_0 addr - key r)).
Proof.
  intros Hm Hin Hok Hcon Ha Hpos Hc. split_and!; [done..|].
  destruct (find_region_spec m addr Hm Ha) as (o & Ef & Ho).
  destruct o as [r'|]; [|by destruct (Ho r Hin)].
  destruct Ho as [Hin' Hcon']. rewrite (contains_unique m r' r _ Hm Hin' Hin Hcon' Hcon) in Ef.
  destruct (region_bounds m r Hm Hin) as (? & ? & ?). unfold in_bits in Hc. pose proof Hcon as [Hlo Hhi].
  eexists _, _. split.
  - unfold access_find. rewrite Ef, bind_ret, region_addr_ok by done. cbn [unwrap]. rewrite bind_ret.
    cbn [raw_value MemoryRegionAddress_Address impl_address_ops mra_0].
    rewrite (usub_ok 64) by (unfold in_bits; lia). rewrite bind_ret.
    rewrite usub_ok by (unfold in_bits; lia). by rewrite bind_ret.
  - apply (host_ptr_ok w); [done|]. rewrite (host_len w) in Hhi by done. change (ga_0 (start_addr r)) with (key r) in *. lia.
Qed.

(** The loop ends with the first iteration. *)
Lemma access_next_all {S} addr count cur (s : S) :
  0 < count → in_bits usize_bits count →
  access_next count addr cur 0 (Ok count, s) = Ret (inr (Ok count, s)).
Proof.
  intros Hpos Hc. unfold access_next. rewrite (proj2 (Z.eqb_neq _ _)) by lia.
  rewrite uadd_ok by done. simpl. rewrite Z.eqb_refl. unfold access_done. by rewrite (proj2 (Z.eqb_neq _ _)) by lia.
Qed.
Lemma try_access_once_ok {S} (Inv : W → Prop) (Q : S → Prop) m addr count r ptr n f (s : S) :
  placed m addr count r ptr →
  (∀ start l, host_ptr r start = Ret (Ok ptr) →
    ok_thread Inv (λ p, p.1 = Ok count ∧ Q p.2) n (f 0 l start r s)) →
  ok_thread Inv (λ p, p.1 = Ok count ∧ Q p.2) n (try_access_thread m count addr f s).
Proof.
  intros (Hpos & Hc & start & l & Ef & Ep) Hf. unfold try_access_thread. cbn [access_turns].
  rewrite Ef, bind_ret. cbn [lift_thread].
  eapply ok_bind_finished; [by apply Hf|]. intros [res s'] [E HQ]. simpl in E. subst res.
  rewrite access_next_all by done. by constructor.
Qed.

(** A call that runs alone does what it does in [GuestMemory]. *)
Lemma try_access_once {S} m addr count r ptr (f : Z → Z → MemoryRegionAddress → _ → S → _) (s s' : S) :
  placed m addr count r ptr →
  (∀ start l, host_ptr r start = Ret (Ok ptr) → f 0 l start r s = Ret (Ok count, s')) →
  try_access m count addr f s = Ret (Ok count, s').
Proof.
  intros (Hpos & Hc & start & l & Ef & Ep) Hf. apply while_loop_once.
  rewrite access_step_split, Ef, bind_ret, (Hf start l Ep), bind_ret, access_next_all by done. done.
Qed.
Lemma try_access_once_alone {S} m addr count r ptr f (s s' : S) w w' :
  placed m addr count r ptr →
  (∀ start l, host_ptr r start = Ret (Ok ptr) → run_alone (f 0 l start r s) w = Ret ((Ok count, s'), w')) →
  run_alone (try_access_thread m count addr f s) w = Ret ((Ok count, s'), w').
Proof.
  intros (Hpos & Hc & start & l & Ef & Ep) Hf. unfold try_access_thread. cbn [access_turns].
  rewrite Ef, bind_ret. cbn [lift_thread]. rewrite run_alone_bind, (Hf start l Ep), bind_ret.
  by rewrite access_next_all by done.
Qed.

End placed.

(** With the transfers of [Transfers], too. *)
Section alone.
Context `{AtomicCopySpec W c}.
Implicit Types (r : GuestRegionMmap W) (m : GuestMemoryMmap W) (w : W) (buf : list byte) (addr : GuestAddress).
Lemma write_slice_alone m w r addr buf ptr :
  placed m addr (lenZ buf) r ptr → accessible w (pid r) ptr (lenZ buf) →
  ∃ w1 w2, run_alone (access_thread m (WriteSlice buf addr)) w = Ret ((Ok tt, []), w1) ∧
    memory_write_slice m w buf addr = Ret (Ok tt, w2) ∧ space w1 (pid r) = space w2 (pid r).
Proof.
  intros Hp Hacc. destruct (write_bytes_alone (pid r) w ptr buf Hacc) as (w1 & E1 & Hs1 & _).
  destruct (process_write_bytes_full w (pid r) ptr buf Hacc) as (w2 & E2 & Hs2 & _).
  exists w1, w2. split_and!; [| |by rewrite Hs1, Hs2].
  - unfold access_thread. rewrite run_alone_bind. unfold memory_write_thread.
    rewrite (try_access_once_alone m addr (lenZ buf) r ptr _ tt tt w w1); [|done|].
    { rewrite bind_ret. unfold complete. simpl. by rewrite Z.eqb_refl. }
    intros start l Ep. rewrite index_range_ok, drop_0, Z.sub_0_r, take_ge, bind_ret by lia. cbn [lift_thread].
    unfold region_write_thread. rewrite Ep, bind_ret. cbn [lift_thread]. by rewrite run_alone_bind, E1.
  - unfold memory_write_slice, memory_write. rewrite (try_access_once m addr (lenZ buf) r ptr _ w w2); [|done|].
    { rewrite bind_ret. unfold complete. by rewrite Z.eqb_refl. }
    intros start l Ep. rewrite index_range_ok, drop_0, Z.sub_0_r, take_ge, bind_ret by lia.
    cbn [write region_bytes_impl GuestRegionMmap_Region GuestRegionMmap_Bytes].
    unfold region_write. by rewrite Ep, bind_ret, E2.
Qed.
Lemma read_slice_alone m w r addr buf ptr :
  placed m addr (lenZ buf) r ptr → accessible w (pid r) ptr (lenZ buf) →
  ∃ bs, run_alone (access_thread m (ReadSlice buf addr)) w = Ret ((Ok tt, bs), w) ∧
    memory_read_slice m w buf addr = Ret (Ok tt, (bs, w)).
Proof.
  intros Hp Hacc. destruct (read_bytes_alone (pid r) w ptr buf Hacc) as (bs & Hr & E1).
  destruct (process_read_bytes_full w (pid r) buf ptr Hacc) as (bs' & Hr' & E2).
  rewrite Hr in Hr'. injection Hr' as <-.
  assert (update_range buf 0 (lenZ buf) bs = Ret bs) as Hu.
  { apply read_bytes_Ret in Hr as [Hl _]; [|lia]. unfold update_range.
    rewrite !(proj2 (Z.leb_le _ _)), (proj2 (Z.eqb_eq _ _)) by lia. simpl. by rewrite drop_ge, app_nil_r by lia. }
  exists bs. split.
  - unfold access_thread. rewrite run_alone_bind. unfold memory_read_thread.
    rewrite (try_access_once_alone m addr (lenZ buf) r ptr _ buf bs w w); [|done|].
    { rewrite bind_ret. unfold complete. simpl. by rewrite Z.eqb_refl. }
    intros start l Ep. rewrite index_range_ok, drop_0, Z.sub_0_r, take_ge, bind_ret by lia. cbn [lift_thread].
    unfold region_read_thread. rewrite Ep, bind_ret. cbn [lift_thread]. rewrite !run_alone_bind, E1, !bind_ret.
    simpl. by rewrite Hu.
  - unfold memory_read_slice, memory_read.
    rewrite (try_access_once m addr (lenZ buf) r ptr _ (buf, w) (bs, w)); [|done|].
    { rewrite bind_ret. unfold complete. by rewrite Z.eqb_refl. }
    intros start l Ep. rewrite index_range_ok, drop_0, Z.sub_0_r, take_ge, bind_ret by lia.
    cbn [read region_bytes_impl GuestRegionMmap_Region GuestRegionMmap_Bytes].
    unfold region_read. rewrite Ep, bind_ret, E2. cbn [map_err]. rewrite !bind_ret. by rewrite Hu, bind_ret.
Qed.
End alone.

(** ** A value in guest memory that threads read and write *)
Section field.
Context `{AtomicCopySpec W c} (lo n f k : Z) (value : list byte → Prop).
Context (Hk : 0 < k) (Hchunk : f `mod` c + k ≤ c).
Context (m : GuestMemoryMmap W) (r : GuestRegionMmap W).

(** The transfer that an access makes. *)
Definition host_call (x : access) (y : call) : Prop :=
  match x, y with
  | WriteSlice buf addr, WriteBytes ptr val => val = buf ∧ placed m addr (lenZ buf) r ptr
  | ReadSlice buf addr, ReadBytes ptr buf' => buf' = buf ∧ placed m addr (lenZ buf) r ptr
  | _, _ => False
  end.
Definition access_result (y : call) (res : gresult unit * list byte) : Prop :=
  res.1 = Ok tt ∧
  match y with
  | WriteBytes _ _ => res.2 = []
  | ReadBytes ptr buf => lenZ res.2 = lenZ buf ∧ (covers_field f k ptr (lenZ buf) → has_value f k value ptr res.2)
  end.

Abbreviation ok := (ok_thread (field_inv (pid r) lo n f k value)).

Lemma memory_write_thread_ok buf addr ptr :
  placed m addr (lenZ buf) r ptr → write_ok c lo n f k value ptr buf →
  ok (λ p, p.1 = Ok (lenZ buf) ∧ p.2 = tt) (copy_turns (length buf)) (memory_write_thread m buf addr).
Proof.
  intros Hp Hw. eapply (try_access_once_ok _ (λ s, s = tt)); [done|]. intros start l Ep.
  rewrite index_range_ok, drop_0, Z.sub_0_r, take_ge, bind_ret by lia. cbn [lift_thread].
  unfold region_write_thread. rewrite Ep, bind_ret. cbn [lift_thread].
  eapply ok_bind_finished; [by apply (call_thread_ok (pid r) lo n f k value Hk Hchunk (WriteBytes ptr buf))|].
  intros t ->. by constructor.
Qed.
Lemma memory_read_thread_ok buf addr ptr :
  placed m addr (lenZ buf) r ptr → read_ok c lo n f k ptr buf →
  ok (λ p, p.1 = Ok (lenZ buf) ∧ lenZ p.2 = lenZ buf ∧
      (covers_field f k ptr (lenZ buf) → has_value f k value ptr p.2))
    (copy_turns (length buf)) (memory_read_thread m buf addr).
Proof.
  intros Hp Hr. eapply (try_access_once_ok _ (λ b, lenZ b = lenZ buf ∧
    (covers_field f k ptr (lenZ buf) → has_value f k value ptr b))); [done|]. intros start l Ep.
  rewrite index_range_ok, drop_0, Z.sub_0_r, take_ge, bind_ret by lia. cbn [lift_thread].
  unfold region_read_thread. rewrite Ep, bind_ret. cbn [lift_thread].
  eapply (ok_bind_finished _ (λ p, p.1 = Ok (lenZ buf) ∧ lenZ p.2 = lenZ buf ∧
    (covers_field f k ptr (lenZ buf) → has_value f k value ptr p.2))); [eapply ok_bind_finished|].
  - by apply (call_thread_ok (pid r) lo n f k value Hk Hchunk (ReadBytes ptr buf)).
  - intros [res b] (E & Hl & Hv). simpl in *. subst. by constructor.
  - intros [res b] (E & Hl & Hv). simpl in *. unfold update_range.
    rewrite !(proj2 (Z.leb_le _ _)), (proj2 (Z.eqb_eq _ _)) by lia. simpl. constructor. simpl.
    by rewrite drop_ge, app_nil_r by lia.
Qed.

Lemma access_thread_ok x y :
  host_call x y → call_ok c lo n f k value y →
  ok (access_result y) (copy_turns (length (call_buf y))) (access_thread m x).
Proof.
  destruct x as [buf addr|buf addr], y as [ptr val|ptr buf']; intros Hx; try done;
    destruct Hx as [-> Hp]; simpl; intros Hy; eapply ok_bind_finished.
  - by eapply memory_write_thread_ok.
  - intros [res []] [E _]. simpl in E. subst. constructor. unfold access_result, complete. simpl. by rewrite Z.eqb_refl.
  - by eapply memory_read_thread_ok.
  - intros [res b] (E & Hl & Hv). simpl in E. subst. constructor. unfold access_result, complete. simpl.
    by rewrite Z.eqb_refl.
Qed.
Lemma guest_client_ok xs ys results :
  Forall2 host_call xs ys → Forall (call_ok c lo n f k value) ys →
  ok (λ rs, ∃ rs', rs = results ++ rs' ∧ Forall2 access_result ys rs')
    (client_turns ys) (guest_client m xs results).
Proof.
  intros Hxs. revert results. induction Hxs as [|x y xs ys Hx _ IH]; intros results Hok; simpl.
  { constructor. exists []. by rewrite app_nil_r. }
  apply Forall_cons_iff in Hok as [Hy Hok]. eapply ok_bind; [by apply access_thread_ok|].
  intros res Hres. eapply ok_mono; [by apply (IH (results ++ [res]))|done|].
  intros rs (rs' & -> & Hrs). exists (res :: rs'). rewrite <-(assoc_L (++)). split; [done|by constructor].
Qed.
End field.

(** ** No torn values *)
Section guest.
Context `{AtomicCopySpec W c}.
Implicit Types (m : GuestMemoryMmap W) (r : GuestRegionMmap W) (w : W) (clients : list (list access)).

Definition access_addr (x : access) : Z := match x with WriteSlice _ a | ReadSlice _ a => ga_0 a end.
Definition access_buf (x : access) : list byte := match x with WriteSlice b _ | ReadSlice b _ => b end.
Definition access_turns_of (xs : list access) : nat :=
  sum_list ((λ x, copy_turns (length (access_buf x))) <$> xs).

(** Where the guest's addresses are in the memory of the process. *)
Definition host_addr r (a : Z) : Z := mr_addr (mapping r) + (a - key r).


(** An access to region [r] that transfers none of the [k] bytes at [g], or all of
    the chunk of the host's memory that they lie in. *)
Definition access_within r (g k : Z) (x : access) : Prop :=
  access_buf x ≠ [] ∧ key r ≤ access_addr x ∧
  access_addr x + lenZ (access_buf x) ≤ key r + region_size r ∧
  (apart_field g k (access_addr x) (lenZ (access_buf x)) ∨
   covers_chunk c (host_addr r g) (host_addr r (access_addr x)) (lenZ (access_buf x))).
(** The values of these bytes: the one before, and those that are written. *)
Definition guest_value w r clients (g k : Z) (bs : list byte) : Prop :=
  bs = chunk (g - key r) k (host_view w r) ∨
  ∃ xs buf addr, xs ∈ clients ∧ WriteSlice buf addr ∈ xs ∧ covers_field g k (ga_0 addr) (lenZ buf) ∧
    bs = chunk (g - ga_0 addr) k buf.

Definition to_call r (x : access) : call :=
  match x with
  | WriteSlice buf addr => WriteBytes (host_addr r (ga_0 addr)) buf
  | ReadSlice buf addr => ReadBytes (host_addr r (ga_0 addr)) buf
  end.

Lemma to_call_ok m w r clients g k xs x :
  host_addr r g `mod` c + k ≤ c → memory_ok m → r ∈ regions m → host_ok w r → xs ∈ clients → x ∈ xs → access_within r g k x →
  host_call m r x (to_call r x) ∧
  call_ok c (mr_addr (mapping r)) (region_size r) (host_addr r g) k (guest_value w r clients g k) (to_call r x).
Proof.
  intros Hchunk Hm Hin Hok Hxs Hx (Hne & Hlo & Hhi & Hcase).
  assert (0 < lenZ (access_buf x)) by (destruct (access_buf x); simpl; [done|lia]).
  assert (∀ addr, ga_0 addr = access_addr x →
    placed m addr (lenZ (access_buf x)) r (host_addr r (ga_0 addr))) as Hp.
  { intros addr Ea. destruct (region_bounds m r Hm Hin) as (? & ? & ?). pose proof (host_len w r Hok) as Hlen.
    pose proof Hok as (? & Hbits & _). change (ga_0 (start_addr r)) with (key r) in *. unfold in_bits in Hbits.
    apply (placed_ok m w); [done..| | |done|unfold in_bits; lia].
    - unfold contains. change (ga_0 (start_addr r)) with (key r). lia.
    - unfold in_bits. lia. }
  destruct x as [buf addr|buf addr];
    cbn [access_addr access_buf to_call host_call call_ok] in *; unfold host_addr in *; (split; [split; [done|by apply Hp]|]).
  - unfold write_ok. split_and!; [lia..|]. destruct Hcase as [Ha|Hcov]; [left; unfold apart_field in *; lia|right].
    split; [done|]. right. exists xs, buf, addr. apply (covers_chunk_field _ k Hchunk) in Hcov.
    split_and!; [done..|unfold covers_field in *; lia|]. f_equal. lia.
  - unfold read_ok. split_and!; [lia..|]. destruct Hcase; [left; unfold apart_field in *; lia|by right].
Qed.

(** The field of the region, as it is in memory. *)
Lemma host_view_field w r g k :
  host_ok w r → key r ≤ g → 0 < k → g + k ≤ key r + region_size r →
  read_bytes (space w (pid r)) (host_addr r g) k = Ret (chunk (g - key r) k (host_view w r)).
Proof.
  intros Hok Hlo Hk Hhi. pose proof (host_view_read w r Hok) as [Hr _]. unfold host_addr.
  apply (read_bytes_sub _ _ (region_size r)); (done || lia).
Qed.

Lemma to_call_turns r xs : client_turns (to_call r <$> xs) = access_turns_of xs.
Proof.
  unfold client_turns, access_turns_of. rewrite <-list_fmap_compose. f_equal. apply list_fmap_ext.
  by intros i [] _.
Qed.
Lemma access_result_guest r g k value x res :
  access_result (host_addr r g) k value (to_call r x) res →
  res.1 = Ok tt ∧
  match x with
  | WriteSlice _ _ => True
  | ReadSlice buf addr => lenZ res.2 = lenZ buf ∧
      (covers_field g k (ga_0 addr) (lenZ buf) → value (chunk (g - ga_0 addr) k res.2))
  end.
Proof.
  intros [Hr Hx]. split; [done|]. destruct x as [buf addr|buf addr]; [done|]. destruct Hx as [Hl Hv].
  split; [done|]. unfold has_value, covers_field, host_addr in *. intros Hc.
  replace (g - ga_0 addr) with (mr_addr (mapping r) + (g - key r) - (mr_addr (mapping r) + (ga_0 addr - key r))) by lia.
  apply Hv. lia.
Qed.

(** C22: no torn values in guest memory.  Any number of threads make any number of
    [write_slice] and [read_slice] calls each on a [GuestMemoryMmap], all within one
    of its regions, and the turns of their system calls are interleaved in any way.
    The system keeps what the comment on [ALG] assumes: for some [c] of at most [ALG]
    bytes, each aligned chunk of [c] bytes of the host's memory that lies within a
    transfer is moved at once (the other bytes one at a time or not, in any order).
    Then no thread fails, every call reports success, and a value that lies within
    such a chunk, and that no call accesses other than with the whole chunk, is, in
    the buffer of every call that reads it and in the region in the end, the value
    that the region had at first or one that some thread has written, never a
    mixture. *)
Theorem guest_values_whole m w r g k clients schedule :
  memory_ok m → r ∈ regions m → host_ok w r → 0 < k →
  key r ≤ g → g + k ≤ key r + region_size r → host_addr r g `mod` c + k ≤ c →
  Forall (Forall (access_within r g k)) clients →
  (∀ i xs, clients !! i = Some xs → (access_turns_of xs ≤ turns i schedule)%nat) →
  ∃ results w', run_pool schedule ((λ xs, guest_client m xs []) <$> clients, w)
      = Ret (Finished <$> results, w') ∧
    Forall2 (Forall2 (λ x res, res.1 = Ok tt ∧
      match x with
      | WriteSlice _ _ => True
      | ReadSlice buf addr => lenZ res.2 = lenZ buf ∧
          (covers_field g k (ga_0 addr) (lenZ buf) →
           guest_value w r clients g k (chunk (g - ga_0 addr) k res.2))
      end)) clients results ∧
    guest_value w r clients g k (chunk (g - key r) k (host_view w' r)).
Proof.
  intros Hm Hin Hok Hk Hlo Hhi Hchunk Hacc Hturns.
  destruct (pool_finished (field_inv (pid r) (mr_addr (mapping r)) (region_size r) (host_addr r g) k
      (guest_value w r clients g k))
    ((λ xs rs, Forall2 (access_result (host_addr r g) k (guest_value w r clients g k)) (to_call r <$> xs) rs) <$> clients)
    (λ i, access_turns_of (clients !!! i)) ((λ xs, guest_client m xs []) <$> clients) w schedule)
    as (results & w' & E & (Hacc' & bs & Hbs & Hv) & Hrs).
  - split; [apply Hok|]. eexists. split; [by apply host_view_field|by left].
  - split; [by rewrite !length_fmap|]. intros i Q t. rewrite !list_lookup_fmap, list_lookup_total_alt.
    destruct (clients !! i) as [xs|] eqn:Ei; simpl; intros [= <-] [= <-].
    apply list_elem_of_lookup_2 in Ei. rewrite list.Forall_forall in Hacc.
    specialize (Hacc _ Ei). rewrite list.Forall_forall in Hacc.
    eapply ok_mono; [eapply (guest_client_ok _ _ _ k _ Hk Hchunk m r xs (to_call r <$> xs) [])|..].
    + apply Forall2_fmap_r, Forall_Forall2_diag, list.Forall_forall. intros x Hx. by eapply to_call_ok; eauto.
    + apply Forall_fmap, list.Forall_forall. intros x Hx. by eapply to_call_ok; eauto.
    + by rewrite to_call_turns.
    + by intros rs (rs' & -> & Hrs).
  - intros i Hi. rewrite length_fmap in Hi. destruct (lookup_lt_is_Some_2 _ _ Hi) as [xs Ei].
    rewrite list_lookup_total_alt, Ei. by apply Hturns.
  - exists results, w'. split_and!; [done| |].
    + apply Forall2_fmap_l in Hrs. eapply Forall2_impl; [|exact Hrs]. intros xs rs Hxs.
      unfold compose in Hxs. rewrite Forall2_fmap_l in Hxs. eapply Forall2_impl; [|exact Hxs]. intros x res. apply access_result_guest.
    + assert (host_ok w' r) as Hok' by (destruct Hok as (? & ? & ? & ? & _); by split_and!).
      rewrite host_view_field in Hbs by done. by injection Hbs as ->.
Qed.
End guest.
