(* ===== verification/RefCount.v ===== *)
(** * Reference counting ([std::sync::Arc], [std::rc::Rc])

    The crate shares regions and memory maps by [Arc].  A [heap] has the
    allocations of the [Arc]s of one type with their strong counts; an [Arc] is
    the index of its allocation.  Dropping the last reference drops the
    contents, which changes the rest of the state ([world]) as the [Drop] of
    their type says.  Following a reference to an allocation that is gone is
    undefined behaviour. *)

From S2P Require Import Prelude Memory.

(** [Drop::drop] of [T], with its effect on the state [W]. *)
Class Drop (T W : Type) := drop_in_place : W → T → outcome W.
Class DropTotal (T W : Type) `{Drop T W} : Prop :=
  drop_total : ∀ (w : W) (x : T), ∃ w', drop_in_place w x = Ret w'.

(** [objects] are the allocations with their strong counts, [next] the first
    index not used yet, [freed] the allocations whose contents were dropped,
    the latest first. *)
Record heap (T W : Type) := Heap {
  objects : gmap nat (T * nat);
  next : nat;
  freed : list nat;
  world : W
}.
Arguments Heap {T W} _ _ _ _.
Arguments objects {T W} _.
Arguments next {T W} _.
Arguments freed {T W} _.
Arguments world {T W} _.

Section arc.
Context `{Drop T W}.
Implicit Types (h : heap T W) (a : nat) (v : list nat) (x : T).

Definition arc_new h x : nat * heap T W :=
  (next h, Heap (<[next h := (x, 1%nat)]> (objects h)) (S (next h)) (freed h) (world h)).

Definition deref h a : outcome T :=
  match objects h !! a with Some (x, _) => Ret x | None => Undef end.

Definition arc_clone h a : outcome (heap T W) :=
  match objects h !! a with
  | Some (x, n) => Ret (Heap (<[a := (x, S n)]> (objects h)) (next h) (freed h) (world h))
  | None => Undef
  end.

(** The last reference drops the contents. *)
Definition arc_drop h a : outcome (heap T W) :=
  match objects h !! a with
  | Some (x, S (S n)) => Ret (Heap (<[a := (x, S n)]> (objects h)) (next h) (freed h) (world h))
  | Some (x, _) =>
      w ← drop_in_place (world h) x;
      Ret (Heap (delete a (objects h)) (next h) (a :: freed h) w)
  | None => Undef
  end.

(** [Vec<Arc<_>>]: [clone], [drop], and access to the elements. *)
Fixpoint vec_clone h v : outcome (heap T W) :=
  match v with [] => Ret h | a :: v => h ← arc_clone h a; vec_clone h v end.
Fixpoint vec_drop h v : outcome (heap T W) :=
  match v with [] => Ret h | a :: v => h ← arc_drop h a; vec_drop h v end.
Fixpoint vec_deref h v : outcome (list T) :=
  match v with [] => Ret [] | a :: v => x ← deref h a; xs ← vec_deref h v; Ret (x :: xs) end.
End arc.

(** ** Counting references *)
Section uses.
Implicit Types (l : list nat) (a b : nat).

(** How often [a] is referred to. *)
Definition uses a l : nat := length (filter (a =.) l).

#[export] Instance uses_proper a : Proper ((≡ₚ) ==> eq) (uses a).
Proof. intros l l' Hl. unfold uses. by rewrite Hl. Qed.
Lemma uses_app a l l' : uses a (l ++ l') = (uses a l + uses a l')%nat.
Proof. unfold uses. by rewrite list.filter_app, length_app. Qed.
Lemma uses_cons a b l : uses a (b :: l) = ((if decide (a = b) then 1 else 0) + uses a l)%nat.
Proof. unfold uses. rewrite list.filter_cons. by case_decide. Qed.
Lemma uses_pos a l : a ∈ l ↔ (0 < uses a l)%nat.
Proof.
  induction l as [|b l IH]; [split; [by intros ?%elem_of_nil|unfold uses; simpl; lia]|].
  rewrite elem_of_cons, uses_cons, IH. case_decide.
  - split; [lia|by left].
  - split; [intros [?|?]; [done|lia]|intros ?; right; lia].
Qed.
End uses.

(** ** The heap *)
Section heap_lemmas.
Context `{Drop T W}.
Implicit Types (h : heap T W) (a b : nat) (v l : list nat) (r : T).

(** The references [l] are all that exist: every allocation is counted right,
    and an allocation was freed, once, exactly when it is there no more. *)
Record heap_ok h l : Prop := {
  counted : ∀ a, match objects h !! a with
    | Some (_, n) => n = uses a l ∧ (0 < n)%nat
    | None => uses a l = 0%nat
    end;
  allocated : ∀ a, (a < next h)%nat ↔ is_Some (objects h !! a) ∨ a ∈ freed h;
  freed_once : NoDup (freed h);
  freed_gone : ∀ a, a ∈ freed h → objects h !! a = None
}.

(** The references [l] refer to the same contents in both heaps. *)
Definition same_contents h h' l : Prop := ∀ a, a ∈ l → fst <$> objects h' !! a = fst <$> objects h !! a.

#[export] Instance heap_ok_proper h : Proper ((≡ₚ) ==> iff) (heap_ok h).
Proof.
  intros l l' Hl. split; intros [Hc ? ? ?]; split; try done;
    intros a; specialize (Hc a); destruct (objects h !! a) as [[? ?]|]; by rewrite ?Hl in *.
Qed.

Lemma heap_ok_live h l a : heap_ok h l → a ∈ l → ∃ r n, objects h !! a = Some (r, n).
Proof.
  intros Hh Hin%uses_pos. pose proof (counted h l Hh a) as Hc.
  destruct (objects h !! a) as [[r n]|]; [eauto|lia].
Qed.
Lemma heap_ok_deref h l a : heap_ok h l → a ∈ l → ∃ r, deref h a = Ret r.
Proof. intros Hh Hin. destruct (heap_ok_live h l a Hh Hin) as (r & n & E). unfold deref. rewrite E. eauto. Qed.

Lemma same_contents_refl h l : same_contents h h l.
Proof. done. Qed.
Lemma same_contents_trans h1 h2 h3 l : same_contents h1 h2 l → same_contents h2 h3 l → same_contents h1 h3 l.
Proof. intros H1 H2 a Ha. by rewrite H2, H1. Qed.
Lemma same_contents_sub h h' l l' : same_contents h h' l → l' ⊆ l → same_contents h h' l'.
Proof. intros Hs Hsub a Ha. by apply Hs, Hsub. Qed.
Lemma same_deref h h' l a : same_contents h h' l → a ∈ l → deref h' a = deref h a.
Proof.
  intros Hs Ha. specialize (Hs a Ha). unfold deref.
  destruct (objects h !! a) as [[? ?]|], (objects h' !! a) as [[? ?]|]; simpl in *; congruence.
Qed.
Lemma same_vec_deref h h' l v : same_contents h h' l → v ⊆ l → vec_deref h' v = vec_deref h v.
Proof.
  intros Hs. induction v as [|a v IH]; intros Hsub; simpl; [done|].
  rewrite (same_deref h h' l) by (done || apply Hsub; left).
  rewrite IH; [done|]. intros b Hb. apply Hsub. by right.
Qed.

Lemma arc_new_ok h l r :
  heap_ok h l → let '(a, h') := arc_new h r in
    heap_ok h' (a :: l) ∧ same_contents h h' l ∧ deref h' a = Ret r.
Proof.
  intros Hh. unfold arc_new. assert (objects h !! next h = None ∧ next h ∉ freed h) as [Hn Hf].
  { pose proof (allocated h l Hh (next h)). split; [apply eq_None_not_Some|]; intros ?;
      assert (next h < next h)%nat by tauto; lia. }
  assert (∀ a, a ∈ l → a ≠ next h) as Hne.
  { intros a Ha ->. destruct (heap_ok_live h l _ Hh Ha) as (? & ? & ?). congruence. }
  split_and!.
  - destruct Hh as [Hc Ha Ho Hg]. split; simpl; [| |done|].
    + intros a. rewrite uses_cons. specialize (Hc a). destruct (decide (a = next h)) as [->|].
      * rewrite lookup_insert_eq. rewrite Hn in Hc. lia.
      * rewrite lookup_insert_ne by done. simpl. done.
    + intros a. rewrite lookup_insert_is_Some. specialize (Ha a).
      destruct (decide (a = next h)) as [->|]; [split; [by left; left|lia]|].
      split; [intros ?; assert (a < next h)%nat as [?|?]%Ha by lia; auto|].
      intros [[?|[? ?]]|?]; [congruence|..]; assert (a < next h)%nat by tauto; lia.
    + intros a Hin. rewrite lookup_insert_ne; [by apply Hg|]. by intros <-.
  - intros a Ha. simpl. by rewrite lookup_insert_ne by (intros E; by apply (Hne a)).
  - unfold deref. simpl. by rewrite lookup_insert_eq.
Qed.

(** Replacing the count of a live allocation. *)
Lemma heap_ok_count h l l' a r n n' :
  heap_ok h l → objects h !! a = Some (r, n) → n' = uses a l' → (0 < n')%nat →
  (∀ b, b ≠ a → uses b l' = uses b l) →
  heap_ok (Heap (<[a := (r, n')]> (objects h)) (next h) (freed h) (world h)) l' ∧
  ∀ l'', same_contents h (Heap (<[a := (r, n')]> (objects h)) (next h) (freed h) (world h)) l''.
Proof.
  intros [Hc Ha Ho Hg] E En Hpos Hu. split; [split; simpl; [| |done|]|].
  - intros b. destruct (decide (a = b)) as [->|]; [by rewrite lookup_insert_eq|].
    rewrite lookup_insert_ne, Hu by done. apply Hc.
  - intros b. rewrite Ha, lookup_insert_is_Some'. split; [tauto|].
    intros [[->|?]|?]; [left; eauto|tauto..].
  - intros b Hb. rewrite lookup_insert_ne; [by apply Hg|]. intros <-. apply Hg in Hb. congruence.
  - intros l'' b Hb. simpl. destruct (decide (a = b)) as [->|]; [by rewrite lookup_insert_eq, E|].
    by rewrite lookup_insert_ne.
Qed.

Lemma arc_clone_ok h l a :
  heap_ok h l → a ∈ l → wp (arc_clone h a) (λ h', heap_ok h' (a :: l) ∧ same_contents h h' l).
Proof.
  intros Hh Hin. destruct (heap_ok_live h l a Hh Hin) as (r & n & E).
  pose proof (counted h l Hh a) as Hc. rewrite E in Hc.
  unfold arc_clone. rewrite E. apply wp_ret.
  destruct (heap_ok_count h l (a :: l) a r n (S n)) as [? ?]; [done..| |lia| |by auto].
  - rewrite uses_cons, decide_True by done. lia.
  - intros b Hb. by rewrite uses_cons, decide_False.
Qed.

(** Dropping a reference: the last one drops the contents. *)
Lemma arc_drop_wp h l a r :
  heap_ok h (a :: l) → deref h a = Ret r → (a ∉ l → ∃ w, drop_in_place (world h) r = Ret w) →
  wp (arc_drop h a) (λ h', heap_ok h' l ∧ same_contents h h' l ∧
    if decide (a ∈ l) then world h' = world h ∧ fst <$> objects h' = fst <$> objects h
    else drop_in_place (world h) r = Ret (world h') ∧ objects h' = delete a (objects h)).
Proof.
  intros Hh Hr Hdrop. destruct (heap_ok_live h (a :: l) a Hh ltac:(left)) as (r' & n & E).
  unfold deref in Hr. rewrite E in Hr. injection Hr as ->.
  pose proof (counted h _ Hh a) as Hc. rewrite E, uses_cons, decide_True in Hc by done.
  assert (∀ b, b ≠ a → uses b l = uses b (a :: l)) as Hu.
  { intros b Hb. by rewrite uses_cons, decide_False. }
  unfold arc_drop. rewrite E. destruct n as [|[|n]]; [lia| |].
  - assert (a ∉ l) as Hnot by (rewrite uses_pos; lia). destruct (Hdrop Hnot) as [w' Ew].
    rewrite Ew, bind_ret. apply wp_ret. rewrite decide_False by done.
    destruct Hh as [Hc' Ha Ho Hg]. split; [split; simpl|split; [|done]].
    + intros b. destruct (decide (a = b)) as [->|]; [rewrite lookup_delete_eq; lia|].
      rewrite lookup_delete_ne, Hu by done. apply Hc'.
    + intros b. rewrite Ha, elem_of_cons, lookup_delete_is_Some.
      destruct (decide (a = b)) as [->|]; [split; [by right; left|left; eauto]|].
      split; [intros [?|?]; auto|intros [[? ?]|[?|?]]; [auto|congruence|auto]].
    + constructor; [|done]. intros Hf%Hg. congruence.
    + intros b [->|Hb]%elem_of_cons; [apply lookup_delete_eq|].
      rewrite lookup_delete_None. right. by apply Hg.
    + intros b Hb. simpl. rewrite lookup_delete_ne; [done|]. by intros <-.
  - apply wp_ret. rewrite decide_True by (apply uses_pos; lia).
    destruct (heap_ok_count h (a :: l) l a r (S (S n)) (S n)) as [? ?]; [done..|lia|lia|by auto|].
    split_and!; [done|by auto|done|]. simpl. rewrite fmap_insert. apply insert_id.
    by rewrite lookup_fmap, E.
Qed.
Lemma arc_drop_ok `{!DropTotal T W} h l a :
  heap_ok h (a :: l) → wp (arc_drop h a) (λ h', heap_ok h' l ∧ same_contents h h' l).
Proof.
  intros Hh. destruct (heap_ok_deref h _ a Hh ltac:(left)) as [r Hr].
  eapply wp_mono; [by eapply arc_drop_wp; [..|intros _; apply drop_total]|]. by intros h' (? & ? & _).
Qed.

Lemma vec_clone_ok h l v :
  heap_ok h l → v ⊆ l → wp (vec_clone h v) (λ h', heap_ok h' (v ++ l) ∧ same_contents h h' l).
Proof.
  revert h l. induction v as [|a v IH]; intros h l Hh Hsub; simpl; [by split|].
  apply wp_bind. eapply wp_mono; [apply arc_clone_ok; [done|apply Hsub; left]|].
  intros h1 [Hh1 Hs1]. eapply wp_mono; [apply (IH h1 (a :: l)); [done|]|].
  - intros b Hb. right. apply Hsub. by right.
  - intros h2 [Hh2 Hs2]. rewrite <-Permutation_middle in Hh2. split; [done|].
    eapply same_contents_trans; [done|]. eapply same_contents_sub; [done|]. intros b Hb. by right.
Qed.

Lemma vec_drop_ok `{!DropTotal T W} h l v :
  heap_ok h (v ++ l) → wp (vec_drop h v) (λ h', heap_ok h' l ∧ same_contents h h' l).
Proof.
  revert h. induction v as [|a v IH]; intros h Hh; simpl; [done|].
  apply wp_bind. eapply wp_mono; [by apply (arc_drop_ok h (v ++ l))|].
  intros h1 [Hh1 Hs1]. eapply wp_mono; [by apply IH|]. intros h2 [Hh2 Hs2]. split; [done|].
  eapply same_contents_trans; [|done]. eapply same_contents_sub; [done|].
  intros b Hb. apply elem_of_app. by right.
Qed.

Lemma vec_deref_ok h l v :
  heap_ok h l → v ⊆ l → ∃ rs, vec_deref h v = Ret rs ∧ length rs = length v.
Proof.
  intros Hh. induction v as [|a v IH]; intros Hsub; simpl; [by exists []|].
  destruct (heap_ok_deref h l a Hh) as [r ->]; [apply Hsub; left|].
  destruct IH as (rs & -> & Hl); [intros b Hb; apply Hsub; by right|].
  exists (r :: rs). simpl. by rewrite Hl.
Qed.
(** ** What no operation changes

    An index is used once, and the contents of an allocation are immutable. *)
Definition extends h h' : Prop :=
  (next h ≤ next h')%nat ∧
  ∀ a, (a < next h)%nat → objects h' !! a = None ∨ fst <$> objects h' !! a = fst <$> objects h !! a.

#[export] Instance extends_preorder : PreOrder extends.
Proof.
  split; [by split; [|right]|]. intros h1 h2 h3 [Hn1 H1] [Hn2 H2]. split; [lia|]. intros a Ha.
  destruct (H2 a ltac:(lia)) as [?|E2]; [by left|]. destruct (H1 a Ha) as [E1|E1].
  - left. rewrite E1 in E2. by apply fmap_None in E2.
  - right. by rewrite E2.
Qed.
Lemma extends_deref h h' a r : extends h h' → (a < next h)%nat → deref h' a = Ret r → deref h a = Ret r.
Proof.
  intros [_ He] Ha. unfold deref. destruct (He a Ha) as [->|E]; [done|].
  destruct (objects h' !! a) as [[??]|], (objects h !! a) as [[??]|]; simpl in *; congruence.
Qed.
Lemma arc_new_extends h r a h' : arc_new h r = (a, h') → extends h h'.
Proof.
  intros [= <- <-]. split; simpl; [lia|]. intros b Hb. right. by rewrite lookup_insert_ne by lia.
Qed.
Lemma count_extends h a r n n' :
  objects h !! a = Some (r, n) →
  extends h (Heap (<[a := (r, n')]> (objects h)) (next h) (freed h) (world h)).
Proof.
  intros E. split; [done|]. intros b _. right. simpl. destruct (decide (a = b)) as [->|].
  - by rewrite lookup_insert_eq, E.
  - by rewrite lookup_insert_ne.
Qed.
Lemma arc_clone_extends h a h' : arc_clone h a = Ret h' → extends h h'.
Proof.
  unfold arc_clone. destruct (objects h !! a) as [[r n]|] eqn:E; [|done].
  intros [= <-]. by eapply count_extends.
Qed.
Lemma arc_drop_extends h a h' : arc_drop h a = Ret h' → extends h h'.
Proof.
  unfold arc_drop. destruct (objects h !! a) as [[r n]|] eqn:E; [|done].
  assert (∀ w, extends h (Heap (delete a (objects h)) (next h) (a :: freed h) w)) as Hd.
  { intros w. split; [done|]. intros b _. simpl. destruct (decide (a = b)) as [->|].
    - left. apply lookup_delete_eq.
    - right. by rewrite lookup_delete_ne. }
  destruct n as [|[|n]]; [..|intros [= <-]; by eapply count_extends];
    destruct (drop_in_place (world h) r); try done; intros [= <-]; apply Hd.
Qed.
Lemma vec_clone_extends h v h' : vec_clone h v = Ret h' → extends h h'.
Proof.
  revert h. induction v as [|a v IH]; intros h; simpl; [by intros [= <-]|].
  destruct (arc_clone h a) eqn:E; try done. simpl. intros ?%IH.
  etrans; [by eapply arc_clone_extends|done].
Qed.
Lemma vec_drop_extends h v h' : vec_drop h v = Ret h' → extends h h'.
Proof.
  revert h. induction v as [|a v IH]; intros h; simpl; [by intros [= <-]|].
  destruct (arc_drop h a) eqn:E; try done. simpl. intros ?%IH.
  etrans; [by eapply arc_drop_extends|done].
Qed.
Lemma heap_ok_next h l a : heap_ok h l → a ∈ l → (a < next h)%nat.
Proof. intros Hh Ha. destruct (heap_ok_live h l a Hh Ha) as (? & ? & E). apply (allocated h l Hh). eauto. Qed.
Lemma vec_deref_extends h h' v xs xs' :
  extends h h' → (∀ a, a ∈ v → (a < next h)%nat) → vec_deref h v = Ret xs → vec_deref h' v = Ret xs' → xs' = xs.
Proof.
  intros He. revert xs xs'. induction v as [|a v IH]; intros xs xs' Hlt; simpl; [congruence|].
  destruct (deref h' a) as [r| | |] eqn:E; [|done..]. rewrite bind_ret.
  rewrite (extends_deref h h' a r He ltac:(apply Hlt; left) E), bind_ret.
  destruct (vec_deref h v) as [ys| | |]; [|done..]. destruct (vec_deref h' v) as [ys'| | |]; [|done..].
  rewrite !bind_ret. intros [= <-] [= <-]. f_equal. apply IH; [|done|done]. intros b Hb. apply Hlt. by right.
Qed.

(** What is freed is what nothing refers to. *)
Lemma freed_unused h l a :
  heap_ok h l → (a < next h)%nat → a ∈ freed h ↔ a ∉ l.
Proof.
  intros Hh Hlt. split.
  - intros Hf Hin. destruct (heap_ok_live h l a Hh Hin) as (? & ? & E).
    rewrite (freed_gone h l Hh a Hf) in E. done.
  - intros Hn. apply (allocated h l Hh) in Hlt as [[[r n] E]|?]; [|done].
    pose proof (counted h l Hh a) as Hc. rewrite E in Hc. destruct Hn. apply uses_pos. lia.
Qed.
End heap_lemmas.

Create HintDb heap.
#[export] Hint Resolve arc_new_extends arc_clone_extends arc_drop_extends vec_clone_extends vec_drop_extends : heap.
