(* ===== verification/Files.v ===== *)
(** * The files of mappings ([FileOffset] of [src/src/guest_memory.rs], [src/src/mmap_unix.rs])

    A [FileOffset] shares its file by an [Arc<File>], and a mapping of a file owns
    the [FileOffset] that it was made from.  [MmapUnix] has the file itself in
    the place of the [Arc]; here the references are counted, with every clone and
    drop of one, and the last one closes the file.  Programs that use them are
    a step relation. *)

From S2P Require Import Prelude Memory Address PlainData AtomicIntegers Bytes CopySlice Volatile Os Linux RemoteMem GuestMemory MmapUnix RefCount.

(** [Drop] of [std::fs::File]. *)
Class CloseFile (W : Type) `{OS W} := close_file : W → File → W.
#[export] Instance file_drop `{CloseFile W} : Drop File W := λ w f, Ret (close_file w f).
#[export] Instance file_drop_total `{CloseFile W} : DropTotal File W.
Proof. intros w f. by eexists. Qed.

Abbreviation file_heap W := (heap (File (W := W)) W).

(** [FileOffset { file: Arc<File>, start: u64 }]. *)
Record ArcFileOffset := AFileOff { afo_arc : nat; afo_start : Z }.

(** [MmapRegion], and the [FileOffset] in it. *)
Record FileRegion `{OS W} := FRegion { fr_region : MmapRegion W; fr_file_offset : option ArcFileOffset }.
Arguments FileRegion W {_}.
Arguments FRegion {W _} _ _.

Section files.
Context `{Target} `{CloseFile W}.
Implicit Types (h : file_heap W) (fo : ArcFileOffset) (self : FileRegion W).

Definition set_system h (w : W) : file_heap W := Heap (objects h) (next h) (freed h) w.

Definition afo_from_arc (file : nat) (start : Z) : ArcFileOffset := AFileOff file start.
Definition afo_new h (file : File) (start : Z) : ArcFileOffset * file_heap W :=
  let '(a, h) := arc_new h file in (afo_from_arc a start, h).
Definition afo_clone h fo : outcome (ArcFileOffset * file_heap W) :=
  h ← arc_clone h (afo_arc fo); Ret (fo, h).
Definition afo_drop h fo : outcome (file_heap W) := arc_drop h (afo_arc fo).

(** What the methods see: [file()] and [start()]. *)
Definition afo_value h fo : outcome (FileOffset W) :=
  f ← deref h (afo_arc fo); Ret (file_offset_from_arc f (afo_start fo)).

Definition option_drop h (o : option ArcFileOffset) : outcome (file_heap W) :=
  match o with Some fo => afo_drop h fo | None => Ret h end.

(** [build] takes the [FileOffset], and drops it when it fails. *)
Definition fr_build h (file_offset : option ArcFileOffset) (size prot flags : Z)
    : outcome (result (FileRegion W) MmapRegionError * file_heap W) :=
  v ← match file_offset with Some fo => v ← afo_value h fo; Ret (Some v) | None => Ret None end;
  let '(r, w) := build (world h) v size prot flags in
  let h := set_system h w in
  match r with
  | Ok r => Ret (Ok (FRegion r file_offset), h)
  | Err e => h ← option_drop h file_offset; Ret (Err e, h)
  end.
Definition fr_from_file h fo (size : Z) : outcome (result (FileRegion W) MmapRegionError * file_heap W) :=
  fr_build h (Some fo) size (Z.lor PROT_READ PROT_WRITE) (Z.lor MAP_NORESERVE MAP_SHARED).
(** [Drop], and then that of the fields. *)
Definition fr_drop h self : outcome (file_heap W) :=
  option_drop (set_system h (drop_region (world h) (fr_region self))) (fr_file_offset self).

(** ** Programs

    The [Arc]s of files, the [FileOffset]s and the mappings that a program has. *)
Record file_program := FProgram {
  fp_heap : file_heap W;
  fp_arcs : list nat;
  fp_offsets : list ArcFileOffset;
  fp_regions : list (FileRegion W)
}.

Inductive f_step : file_program → file_program → Prop :=
| f_new h as_ fos rs file start fo h' :
    afo_new h file start = (fo, h') →
    f_step (FProgram h as_ fos rs) (FProgram h' as_ (fo :: fos) rs)
| f_arc h as_ fos rs fo h' :
    fo ∈ fos → arc_clone h (afo_arc fo) = Ret h' →
    f_step (FProgram h as_ fos rs) (FProgram h' (afo_arc fo :: as_) fos rs)
| f_from_arc h as_ as' fos rs a start :
    as_ ≡ₚ a :: as' →
    f_step (FProgram h as_ fos rs) (FProgram h as' (afo_from_arc a start :: fos) rs)
| f_clone h as_ fos rs fo fo' h' :
    fo ∈ fos → afo_clone h fo = Ret (fo', h') →
    f_step (FProgram h as_ fos rs) (FProgram h' as_ (fo' :: fos) rs)
| f_file_offset h as_ fos rs r fo fo' h' :
    r ∈ rs → fr_file_offset r = Some fo → afo_clone h fo = Ret (fo', h') →
    f_step (FProgram h as_ fos rs) (FProgram h' as_ (fo' :: fos) rs)
| f_drop_arc h as_ as' fos rs a h' :
    as_ ≡ₚ a :: as' → arc_drop h a = Ret h' →
    f_step (FProgram h as_ fos rs) (FProgram h' as' fos rs)
| f_drop h as_ fos fos' rs fo h' :
    fos ≡ₚ fo :: fos' → afo_drop h fo = Ret h' →
    f_step (FProgram h as_ fos rs) (FProgram h' as_ fos' rs)
| f_build h as_ fos fos' rs o size prot flags res h' :
    fos ≡ₚ option_list o ++ fos' → fr_build h o size prot flags = Ret (res, h') →
    f_step (FProgram h as_ fos rs)
      (FProgram h' as_ fos' (match res with Ok r => r :: rs | Err _ => rs end))
| f_drop_region h as_ fos rs rs' r h' :
    rs ≡ₚ r :: rs' → fr_drop h r = Ret h' →
    f_step (FProgram h as_ fos rs) (FProgram h' as_ fos rs').

Inductive f_reachable (w : W) : file_program → Prop :=
| f_initial : f_reachable w (FProgram (Heap ∅ 0 [] w) [] [] [])
| f_reach p p' : f_reachable w p → f_step p p' → f_reachable w p'.

(** The references to files. *)
Definition region_arcs self : list nat := afo_arc <$> option_list (fr_file_offset self).
Definition file_refs (p : file_program) : list nat :=
  fp_arcs p ++ (afo_arc <$> fp_offsets p) ++ (fp_regions p ≫= region_arcs).
End files.
Arguments file_program W {_}.

(** ** The invariant *)
Section theorems.
Context `{Target} `{CloseFile W}.
Implicit Types (h : file_heap W) (fo : ArcFileOffset) (o : option ArcFileOffset) (r : FileRegion W)
  (p : file_program W) (l : list nat).

(** The mapping was made from the file that it refers to. *)
Definition region_file_ok h r : Prop :=
  match fr_file_offset r with
  | Some fo => ∃ f, deref h (afo_arc fo) = Ret f ∧
      mr_file_offset (fr_region r) = Some (file_offset_from_arc f (afo_start fo))
  | None => mr_file_offset (fr_region r) = None
  end.
Definition files_ok p : Prop :=
  heap_ok (fp_heap p) (file_refs p) ∧ ∀ r, r ∈ fp_regions p → region_file_ok (fp_heap p) r.

Lemma region_file_ok_same h h' l r :
  same_contents h h' l → region_arcs r ⊆ l → region_file_ok h r → region_file_ok h' r.
Proof.
  unfold region_file_ok, region_arcs. intros Hs Hsub. destruct (fr_file_offset r) as [fo|]; [|done].
  intros (f & Hf & Hr). exists f. split; [|done]. rewrite (same_deref h h' l); [done..|].
  apply Hsub. by left.
Qed.
Lemma regions_file_ok_same h h' l (rs : list (FileRegion W)) :
  same_contents h h' l → (rs ≫= region_arcs) ⊆ l →
  (∀ r, r ∈ rs → region_file_ok h r) → ∀ r, r ∈ rs → region_file_ok h' r.
Proof.
  intros Hs Hsub Hr r Hin. eapply region_file_ok_same; [done| |by apply Hr].
  intros a Ha. apply Hsub, list_elem_of_bind. eauto.
Qed.
Lemma set_system_ok h l w : heap_ok h l → heap_ok (set_system h w) l ∧ same_contents h (set_system h w) l.
Proof. intros [? ? ? ?]. by split. Qed.

(** *** The calls *)
Lemma option_drop_ok h o l :
  heap_ok h ((afo_arc <$> option_list o) ++ l) →
  wp (option_drop h o) (λ h', heap_ok h' l ∧ same_contents h h' l).
Proof. destruct o as [fo|]; simpl; [apply arc_drop_ok|]. intros ?. by split. Qed.

Lemma build_file_offset (w : W) v sz prot flags g w' :
  build w v sz prot flags = (Ok g, w') → mr_file_offset g = v.
Proof.
  unfold build. destruct (negb _); [done|].
  destruct (match v with Some _ => _ | None => _ end) as [[fd off]|e]; [|done].
  unfold call_mmap. destruct (mmap _ _ _ _ _ _ _) as [a w1]. destruct (a =? MAP_FAILED); [done|].
  by intros [= <- _].
Qed.

Lemma fr_build_ok h o l sz prot flags :
  heap_ok h ((afo_arc <$> option_list o) ++ l) →
  wp (fr_build h o sz prot flags) (λ '(res, h'), same_contents h h' l ∧
    match res with
    | Ok r => heap_ok h' (region_arcs r ++ l) ∧ region_file_ok h' r
    | Err _ => heap_ok h' l
    end).
Proof.
  intros Hh. unfold fr_build.
  assert (∃ v, (match o with Some fo => v ← afo_value h fo; Ret (Some v) | None => Ret None end) = Ret v ∧
    match o with Some fo => ∃ f, deref h (afo_arc fo) = Ret f ∧ v = Some (file_offset_from_arc f (afo_start fo))
    | None => v = None end) as (v & -> & Hv).
  { destruct o as [fo|]; [|by eexists]. destruct (heap_ok_deref h _ (afo_arc fo) Hh) as [f Hf]; [by left|].
    unfold afo_value. rewrite Hf. eexists. split; [done|]. by exists f. }
  rewrite bind_ret. destruct (build _ _ _ _ _) as [[r|e] w'] eqn:E;
    destruct (set_system_ok h _ w' Hh) as [Hh' Hs'].
  - apply wp_ret. split; [done|]. split; [done|]. apply build_file_offset in E.
    unfold region_file_ok. simpl. destruct o as [fo|]; [|congruence].
    destruct Hv as (f & Hf & ->). by exists f.
  - apply wp_bind. eapply wp_mono; [by apply (option_drop_ok _ o l)|].
    intros h2 [Hh2 Hs2]. apply wp_ret. split; [|done].
    eapply same_contents_trans; [|done]. eapply same_contents_sub; [exact Hs'|].
    intros a Ha. apply elem_of_app. by right.
Qed.
Lemma fr_drop_ok h r l :
  heap_ok h (region_arcs r ++ l) → wp (fr_drop h r) (λ h', heap_ok h' l ∧ same_contents h h' l).
Proof.
  intros Hh. unfold fr_drop. destruct (set_system_ok h _ (drop_region (world h) (fr_region r)) Hh) as [Hh' _].
  eapply wp_mono; [by apply option_drop_ok|]. by intros h' [? ?].
Qed.

(** *** The references, with one of them in front *)
Lemma refs_arc_front h as_ a as' fos (rs : list (FileRegion W)) :
  as_ ≡ₚ a :: as' → file_refs (FProgram h as_ fos rs) ≡ₚ a :: file_refs (FProgram h as' fos rs).
Proof. unfold file_refs. cbn [fp_arcs fp_offsets fp_regions]. by intros ->. Qed.
Lemma refs_offset_front h as_ o fos fos' (rs : list (FileRegion W)) :
  fos ≡ₚ option_list o ++ fos' →
  file_refs (FProgram h as_ fos rs) ≡ₚ (afo_arc <$> option_list o) ++ file_refs (FProgram h as_ fos' rs).
Proof.
  unfold file_refs. cbn [fp_arcs fp_offsets fp_regions]. intros ->.
  rewrite fmap_app, <-(assoc_L (++)). apply Permutation_app_swap_app.
Qed.
Lemma refs_region_front h as_ fos r (rs rs' : list (FileRegion W)) :
  rs ≡ₚ r :: rs' →
  file_refs (FProgram h as_ fos rs) ≡ₚ region_arcs r ++ file_refs (FProgram h as_ fos rs').
Proof.
  unfold file_refs. cbn [fp_arcs fp_offsets fp_regions]. intros ->. rewrite bind_cons.
  rewrite (Permutation_app_swap_app (afo_arc <$> fos)). apply Permutation_app_swap_app.
Qed.
Lemma refs_regions h as_ fos (rs : list (FileRegion W)) :
  (rs ≫= region_arcs) ⊆ file_refs (FProgram h as_ fos rs).
Proof. intros a Ha. unfold file_refs. rewrite !elem_of_app. auto. Qed.

Lemma refs_offset_in h as_ fos (rs : list (FileRegion W)) fo :
  fo ∈ fos → afo_arc fo ∈ file_refs (FProgram h as_ fos rs).
Proof. intros Hfo. unfold file_refs. rewrite !elem_of_app. right. left. by apply list_elem_of_fmap_2. Qed.
Lemma refs_region_in h as_ fos (rs : list (FileRegion W)) r fo :
  r ∈ rs → fr_file_offset r = Some fo → afo_arc fo ∈ file_refs (FProgram h as_ fos rs).
Proof.
  intros Hr Hfo. apply refs_regions, list_elem_of_bind. exists r. split; [|done].
  unfold region_arcs. rewrite Hfo. by left.
Qed.

(** After a call that left the contents of the references [l] alone. *)
Lemma files_ok_moved h h' l as' fos' (rs' : list (FileRegion W)) :
  heap_ok h' (file_refs (FProgram h' as' fos' rs')) → same_contents h h' l →
  (rs' ≫= region_arcs) ⊆ l → (∀ r, r ∈ rs' → region_file_ok h r) →
  files_ok (FProgram h' as' fos' rs').
Proof. intros Hh Hs Hsub Hr. split; [done|]. by eapply regions_file_ok_same. Qed.
(** A call that returned satisfies what is known of it. *)
Lemma wp_ret_inv {A} (out : outcome A) a Q : out = Ret a → wp out Q → Q a.
Proof. by intros ->. Qed.
Lemma refs_afo_clone h l fo fo' h' :
  heap_ok h l → afo_arc fo ∈ l → afo_clone h fo = Ret (fo', h') →
  fo' = fo ∧ heap_ok h' (afo_arc fo :: l) ∧ same_contents h h' l.
Proof.
  intros Hh Hin. unfold afo_clone. destruct (arc_clone h (afo_arc fo)) as [h1| | |] eqn:E; [|done..].
  intros [= <- <-]. split; [done|]. exact (wp_ret_inv _ _ _ E (arc_clone_ok h l (afo_arc fo) Hh Hin)).
Qed.

Lemma files_ok_step p p' : files_ok p → f_step p p' → files_ok p'.
Proof.
  intros [Hh Hr] Hstep. destruct Hstep as [h as_ fos rs file start fo h' E|h as_ fos rs fo h' Hfo E|
    h as_ as' fos rs a start Ha|h as_ fos rs fo fo' h' Hfo E|h as_ fos rs r fo fo' h' Hin Hfo E|
    h as_ as' fos rs a h' Ha E|h as_ fos fos' rs fo h' Hfo E|h as_ fos fos' rs o size prot flags res h' Ho E|
    h as_ fos rs rs' r h' Hrs E]; cbn [fp_heap fp_regions] in *.
  - unfold afo_new in E. pose proof (arc_new_ok h _ file Hh) as Hn.
    destruct (arc_new h file) as [a h1]. injection E as <- <-. destruct Hn as (Hh1 & Hs & _).
    eapply files_ok_moved; [|exact Hs|apply refs_regions|done].
    by rewrite (refs_offset_front _ _ (Some (afo_from_arc a start)) _ fos).
  - destruct (wp_ret_inv _ _ _ E (arc_clone_ok h _ (afo_arc fo) Hh (refs_offset_in h as_ fos rs fo Hfo))) as [Hh' Hs].
    eapply files_ok_moved; [|exact Hs|apply refs_regions|done]. by rewrite (refs_arc_front _ _ (afo_arc fo) as_).
  - split; [|done]. cbn [fp_heap]. rewrite (refs_arc_front h as_ a as' fos rs Ha) in Hh.
    by rewrite (refs_offset_front _ _ (Some (afo_from_arc a start)) _ fos).
  - destruct (refs_afo_clone h _ fo fo' h' Hh (refs_offset_in h as_ fos rs fo Hfo) E) as (-> & Hh' & Hs).
    eapply files_ok_moved; [|exact Hs|apply refs_regions|done]. by rewrite (refs_offset_front _ _ (Some fo) _ fos).
  - destruct (refs_afo_clone h _ fo fo' h' Hh (refs_region_in h as_ fos rs r fo Hin Hfo) E) as (-> & Hh' & Hs).
    eapply files_ok_moved; [|exact Hs|apply refs_regions|done]. by rewrite (refs_offset_front _ _ (Some fo) _ fos).
  - rewrite (refs_arc_front h as_ a as' fos rs Ha) in Hh.
    destruct (wp_ret_inv _ _ _ E (arc_drop_ok h _ a Hh)) as [Hh' Hs].
    by eapply files_ok_moved; [|exact Hs|apply refs_regions|].
  - rewrite (refs_offset_front h as_ (Some fo) fos fos' rs Hfo) in Hh.
    destruct (wp_ret_inv _ _ _ E (arc_drop_ok h _ (afo_arc fo) Hh)) as [Hh' Hs].
    by eapply files_ok_moved; [|exact Hs|apply refs_regions|].
  - rewrite (refs_offset_front h as_ o fos fos' rs Ho) in Hh.
    destruct (wp_ret_inv _ _ _ E (fr_build_ok h o _ size prot flags Hh)) as [Hs Hres].
    destruct res as [r|e]; [|by eapply files_ok_moved; [|exact Hs|apply refs_regions|]].
    destruct Hres as [Hh' Hr']. split; [by rewrite (refs_region_front _ _ _ r _ rs)|].
    intros r2 [->|Hin]%elem_of_cons; [done|]. by eapply regions_file_ok_same; [exact Hs|apply refs_regions|..].
  - rewrite (refs_region_front h as_ fos r rs rs' Hrs) in Hh.
    destruct (wp_ret_inv _ _ _ E (fr_drop_ok h r _ Hh)) as [Hh' Hs].
    eapply files_ok_moved; [done|exact Hs|apply refs_regions|]. intros r2 Hin. apply Hr. rewrite Hrs. by right.
Qed.
Lemma files_reachable_ok w p : f_reachable w p → files_ok p.
Proof.
  induction 1 as [|p p' _ IH Hstep]; [|by eapply files_ok_step].
  split; [|by intros r ?%elem_of_nil].
  split; simpl; [done|intros a; rewrite elem_of_nil; split; [lia|by intros [[? ?]|[]]]|constructor|].
  by intros a ?%elem_of_nil.
Qed.

(** C16: a file is closed, once, exactly when nothing refers to it any more: in every
    state of every program that makes, clones and drops [FileOffset]s and [Arc]s of
    files, and makes mappings from them (also when that fails) and drops them,
    every reference leads to an open file, every mapping of a file has the file and the
    offset that it was made with, and a file that was opened is closed if and
    only if no [Arc], no [FileOffset] and no mapping refers to it. *)
Theorem files_closed w p :
  f_reachable w p →
  (∀ a, a ∈ file_refs p → (∃ f, deref (fp_heap p) a = Ret f) ∧ (a ∉ freed (fp_heap p))) ∧
  (∀ r, r ∈ fp_regions p → region_file_ok (fp_heap p) r) ∧
  NoDup (freed (fp_heap p)) ∧
  ∀ a, (a < next (fp_heap p))%nat → (a ∈ freed (fp_heap p) ↔ a ∉ file_refs p).
Proof.
  intros [Hh Hr]%files_reachable_ok. split_and!; [|done|apply Hh|intros a; by apply freed_unused].
  intros a Ha. split; [by eapply heap_ok_deref|]. intros Hf. revert Ha.
  apply (freed_unused _ _ _ Hh); [|done]. apply (allocated _ _ Hh). by right.
Qed.

(** No call follows a reference to a file that is closed: making a mapping and the
    drops return in every state. *)
Theorem file_calls_return w p :
  f_reachable w p →
  (∀ fo size prot flags, fo ∈ fp_offsets p → ∃ res h', fr_build (fp_heap p) (Some fo) size prot flags = Ret (res, h')) ∧
  (∀ fo, fo ∈ fp_offsets p → ∃ h', afo_drop (fp_heap p) fo = Ret h') ∧
  (∀ r, r ∈ fp_regions p → ∃ h', fr_drop (fp_heap p) r = Ret h').
Proof.
  intros [Hh _]%files_reachable_ok. destruct p as [h as_ fos rs]. cbn [fp_heap fp_offsets fp_regions] in *.
  split_and!.
  - intros fo size prot flags Hfo. apply elem_of_Permutation in Hfo as [fos' Hp].
    rewrite (refs_offset_front h as_ (Some fo) fos fos' rs Hp) in Hh.
    destruct (wp_inv _ _ (fr_build_ok h (Some fo) _ size prot flags Hh)) as ([res h'] & E & _). eauto.
  - intros fo Hfo. apply elem_of_Permutation in Hfo as [fos' Hp].
    rewrite (refs_offset_front h as_ (Some fo) fos fos' rs Hp) in Hh.
    destruct (wp_inv _ _ (arc_drop_ok h _ (afo_arc fo) Hh)) as (h' & E & _). eauto.
  - intros r Hin. apply elem_of_Permutation in Hin as [rs' Hp].
    rewrite (refs_region_front h as_ fos r rs rs' Hp) in Hh.
    destruct (wp_inv _ _ (fr_drop_ok h r _ Hh)) as (h' & E & _). eauto.
Qed.
End theorems.

(** ** Witness

    Two files: a mapping of the first is refused, which closes it; the second is mapped,
    and the program keeps another [Arc] of it. *)
#[local] Remove Hints toy_os toy_remote_spec toy_mmap_spec : typeclass_instances.
#[local] Existing Instance x86_64_debug.
#[local] Instance linux_close : CloseFile linux :=
  λ w f, Linux (delete f (l_files w)) (l_procs w) (l_down w) (l_errno w).
Definition two_files : linux :=
  with_file (with_file (linux_start false) 5 (replicate 16 x01)) 7 (replicate 16 x02).

(** The heap before the second mapping is made. *)
Definition before_mapping : file_heap linux :=
  Heap {[ 1%nat := ((7 : @File linux linux_os), 2%nat) ]} 2 [0%nat] (close_file two_files 5).

Lemma files_closed_witness : ∃ p, f_reachable two_files p ∧
  file_refs p = [1%nat; 1%nat] ∧ freed (fp_heap p) = [0%nat] ∧
  (∃ f, deref (fp_heap p) 1%nat = Ret f) ∧ (0%nat ∉ file_refs p).
Proof.
  assert (Hb : f_reachable two_files (FProgram before_mapping [1%nat] [afo_from_arc 1 0] [])).
  { eapply f_reach; [eapply f_reach; [eapply f_reach; [eapply f_reach; [apply f_initial|]|]|]|].
    - by apply (f_new _ _ _ _ (5 : @File linux linux_os) 0).
    - by eapply (f_build (W := linux) _ _ _ [] _ (Some (afo_from_arc 0 0)) 16 3 (Z.lor MAP_SHARED MAP_FIXED)).
    - by apply (f_new _ _ _ _ (7 : @File linux linux_os) 0).
    - eapply (f_arc _ _ _ _ (afo_from_arc 1 0)); [by left|done]. }
  assert (Hm : match fr_build before_mapping (Some (afo_from_arc 1 0)) 16 3 MAP_SHARED with
    | Ret (Ok r, h) => region_arcs r = [1%nat] ∧ freed h = [0%nat] ∧ next h = 2%nat
    | _ => False end) by (by vm_compute).
  destruct (fr_build _ _ _ _ _) as [[[r|e] h]| | |] eqn:E; [|done..]. destruct Hm as (Ha & Hf & Hn).
  assert (Hr : f_reachable two_files (FProgram h [1%nat] [] [r]))
    by (eapply f_reach; [exact Hb|exact (f_build _ _ _ [] _ _ _ _ _ _ _ (reflexivity _) E)]).
  destruct (files_closed _ _ Hr) as (Hopen & _ & _ & Hclosed). eexists. split; [exact Hr|].
  assert (Hrefs : file_refs (FProgram h [1%nat] [] [r]) = [1%nat; 1%nat])
    by (unfold file_refs; simpl; by rewrite Ha).
  split_and!; [done|done|apply Hopen; rewrite Hrefs; by left|].
  apply Hclosed; cbn [fp_heap]; [rewrite Hn; lia|]. rewrite Hf. by left.
Defined.
