(* ===== verification/Arcs.v ===== *)
(** * Shared regions ([src/src/mmap.rs], [src/src/mmap_unix.rs])

    A [GuestMemoryMmap] is a vector of [Arc<GuestRegionMmap>]: memories made
    from each other by [clone], [insert_region] and [remove_region] share
    regions, and a mapping is released by [Drop for MmapRegion] when the last
    reference to its region goes.  Here the operations of [Mmap] are followed
    with every clone and drop of an [Arc] that they make. *)

From S2P Require Import Prelude Memory Address PlainData AtomicIntegers Bytes CopySlice Volatile Os RemoteMem GuestMemory MmapUnix Mmap RefCount.

(** A heap of regions; its world is the system, from which the [Drop] of
    [MmapRegion] releases a mapping. *)
Abbreviation region_heap W := (heap (GuestRegionMmap W) W).
#[export] Instance region_drop `{OS W} : Drop (GuestRegionMmap W) W :=
  λ w r, Ret (drop_region w (mapping r)).
#[export] Instance region_drop_total `{OS W} : DropTotal (GuestRegionMmap W) W.
Proof. intros w r. by eexists. Qed.

Section memories.
Context `{Target} `{OS W}.
Implicit Types (h : region_heap W) (a : nat) (v : list nat) (w : W).

(** ** [GuestMemoryMmap] *)
Record ArcMemory := AMemory { am_pid : Z; am_regions : list nat }.
Implicit Types (self : ArcMemory).

Definition am_new (pid : Z) : ArcMemory := AMemory pid [].

(** [#[derive(Clone)]], and the drop of the vector. *)
Definition am_clone h self : outcome (ArcMemory * region_heap W) :=
  h ← vec_clone h (am_regions self); Ret (AMemory (am_pid self) (am_regions self), h).
Definition am_drop h self : outcome (region_heap W) := vec_drop h (am_regions self).

(** The vector is moved into the memory, or dropped with an error. *)
Definition am_from_arc_regions h (pid : Z) v : outcome (result ArcMemory MmapError * region_heap W) :=
  rs ← vec_deref h v;
  r ← from_arc_regions pid rs;
  match r with
  | Ok _ => Ret (Ok (AMemory pid v), h)
  | Err e => h ← vec_drop h v; Ret (Err e, h)
  end.

(** [regions.drain(..).map(Arc::new).collect()]. *)
Fixpoint arcs_new h (rs : list (GuestRegionMmap W)) : list nat * region_heap W :=
  match rs with
  | [] => ([], h)
  | r :: rs => let '(a, h) := arc_new h r in let '(v, h) := arcs_new h rs in (a :: v, h)
  end.
Definition am_from_regions h (pid : Z) (rs : list (GuestRegionMmap W))
    : outcome (result ArcMemory MmapError * region_heap W) :=
  let '(v, h) := arcs_new h rs in am_from_arc_regions h pid v.

(** [regions.sort_by_key(|x| x.start_addr())]. *)
Definition sort_arcs h v : outcome (list nat) :=
  rs ← vec_deref h v; Ret ((sort_by_key (zip v rs) (λ p, key p.2)).*1).

Definition am_insert_region h self a : outcome (result ArcMemory MmapError * region_heap W) :=
  h ← vec_clone h (am_regions self);
  v ← sort_arcs h (am_regions self ++ [a]);
  am_from_arc_regions h (am_pid self) v.

Definition am_remove_region h self (base : GuestAddress) (size : Z)
    : outcome (result (ArcMemory * nat) MmapError * region_heap W) :=
  rs ← vec_deref h (am_regions self);
  r ← binary_search_by_key rs (ga_0 base) key;
  match r with
  | Ok region_index =>
      g ← index rs region_index;
      if as_u64 (MmapUnix.size (mapping g)) =? size then
        h ← vec_clone h (am_regions self);
        '(region, v) ← vec_remove (am_regions self) region_index;
        Ret (Ok (AMemory (am_pid self) v, region), h)
      else Ret (Err InvalidGuestRegion, h)
  | Err _ => Ret (Err InvalidGuestRegion, h)
  end.

(** ** Programs

    The heap, and the memories and the single [Arc]s that the program owns. *)
Record program := Program {
  p_heap : region_heap W;
  p_memories : list ArcMemory;
  p_arcs : list nat
}.

(** One call.  Creating a region and accessing memory may change the state of
    the system in any way; a region comes from [GuestRegionMmap::new]. *)
Inductive p_step : program → program → Prop :=
| p_world h ms as_ w :
    p_step (Program h ms as_) (Program (Heap (objects h) (next h) (freed h) w) ms as_)
| p_arc_new h ms as_ region a h' :
    region_wf region → arc_new h region = (a, h') →
    p_step (Program h ms as_) (Program h' ms (a :: as_))
| p_arc_clone h ms as_ a h' :
    a ∈ as_ → arc_clone h a = Ret h' → p_step (Program h ms as_) (Program h' ms (a :: as_))
| p_arc_drop h ms as1 as2 a h' :
    arc_drop h a = Ret h' → p_step (Program h ms (as1 ++ a :: as2)) (Program h' ms (as1 ++ as2))
| p_new h ms as_ pid :
    p_step (Program h ms as_) (Program h (am_new pid :: ms) as_)
| p_clone h ms as_ m m' h' :
    m ∈ ms → am_clone h m = Ret (m', h') → p_step (Program h ms as_) (Program h' (m' :: ms) as_)
| p_drop h ms1 ms2 as_ m h' :
    am_drop h m = Ret h' → p_step (Program h (ms1 ++ m :: ms2) as_) (Program h' (ms1 ++ ms2) as_)
| p_from_regions h ms as_ pid rs res h' :
    Forall region_wf rs → am_from_regions h pid rs = Ret (res, h') →
    p_step (Program h ms as_)
      (Program h' (match res with Ok m => m :: ms | Err _ => ms end) as_)
| p_from_arcs h ms as_ rest pid v res h' :
    as_ ≡ₚ v ++ rest → am_from_arc_regions h pid v = Ret (res, h') →
    p_step (Program h ms as_)
      (Program h' (match res with Ok m => m :: ms | Err _ => ms end) rest)
| p_insert h ms as1 as2 m a res h' :
    m ∈ ms → am_insert_region h m a = Ret (res, h') →
    p_step (Program h ms (as1 ++ a :: as2))
      (Program h' (match res with Ok m' => m' :: ms | Err _ => ms end) (as1 ++ as2))
| p_remove h ms as_ m base size res h' :
    m ∈ ms → am_remove_region h m base size = Ret (res, h') →
    p_step (Program h ms as_)
      (match res with
       | Ok (m', a) => Program h' (m' :: ms) (a :: as_)
       | Err _ => Program h' ms as_
       end).

Definition p_initial w : program := Program (Heap ∅ 0 [] w) [] [].
Inductive p_reachable w : program → Prop :=
| reach_initial : p_reachable w (p_initial w)
| reach_step p p' : p_reachable w p → p_step p p' → p_reachable w p'.
End memories.
Arguments ArcMemory : clear implicits.
Arguments program W {_}.

(** ** The operations refine those of [Mmap] *)
Section operations.
Context `{Target} `{OS W}.
Implicit Types (h : region_heap W) (a : nat) (v l : list nat) (r : GuestRegionMmap W)
  (rs : list (GuestRegionMmap W)) (self : ArcMemory).

(** The memory that a vector of references stands for. *)
Definition value h self : outcome (GuestMemoryMmap W) :=
  rs ← vec_deref h (am_regions self); Ret (GMemory (am_pid self) rs).

Lemma vec_deref_Forall2 h v rs : vec_deref h v = Ret rs ↔ Forall2 (λ a r, deref h a = Ret r) v rs.
Proof.
  revert rs. induction v as [|a v IH]; intros rs; simpl.
  - split; [intros [= <-]; constructor|]. by intros ->%Forall2_nil_inv_l.
  - destruct (deref h a) as [r| | |] eqn:E; simpl.
    2-4: split; [done|]; intros (? & ? & ? & _ & _)%Forall2_cons_inv_l; congruence.
    split.
    + destruct (vec_deref h v) as [rs'| | |]; [|done..]. intros [= <-].
      constructor; [done|by apply IH].
    + intros (r' & rs' & Hr & Hrs & ->)%Forall2_cons_inv_l. apply IH in Hrs as ->. simpl. congruence.
Qed.
Lemma value_Ret h self m :
  value h self = Ret m ↔ am_pid self = mm_pid m ∧ vec_deref h (am_regions self) = Ret (regions m).
Proof.
  unfold value. destruct m as [p rs], (vec_deref h (am_regions self)); simpl;
    split; try done; [by intros [= <- <-]|by intros [<- [= <-]]|by intros [_ ?]..].
Qed.
Lemma same_value h h' l self : same_contents h h' l → am_regions self ⊆ l → value h' self = value h self.
Proof. intros. unfold value. by rewrite (same_vec_deref h h' l). Qed.

Lemma sort_by_key_fmap {A B} (f : A → B) (k : B → Z) (xs : list A) :
  f <$> sort_by_key xs (k ∘ f) = sort_by_key (f <$> xs) k.
Proof.
  assert (∀ x ys, f <$> insert_by_key (k ∘ f) x ys = insert_by_key k (f x) (f <$> ys)) as Hi.
  { intros x ys. induction ys as [|y ys IH]; [done|].
    cbn [insert_by_key fmap list_fmap]. change ((k ∘ f) ?z) with (k (f z)).
    destruct (k (f y) <=? k (f x)); cbn [fmap list_fmap]; [by f_equal|done]. }
  unfold sort_by_key. change [] with (f <$> ([] : list A)) at 2.
  generalize ([] : list A). induction xs as [|x xs IH]; intros acc; simpl; [done|].
  by rewrite IH, Hi.
Qed.

(** Sorting the references sorts the regions. *)
Lemma sort_arcs_ok h v rs :
  vec_deref h v = Ret rs → ∃ v', sort_arcs h v = Ret v' ∧ v' ≡ₚ v ∧
    vec_deref h v' = Ret (sort_by_key rs key).
Proof.
  intros E. pose proof E as Hf. rewrite vec_deref_Forall2 in Hf.
  unfold sort_arcs. rewrite E, bind_ret. eexists. split; [done|].
  pose proof (Forall2_length Hf) as Hl.
  destruct (sort_by_key_spec (λ p, key p.2) (zip v rs)) as [Hp _]. split.
  - by rewrite Hp, fst_zip by lia.
  - rewrite <-(snd_zip v rs) at 2 by lia. rewrite <-(sort_by_key_fmap snd key).
    change (key ∘ snd) with (λ p : nat * GuestRegionMmap W, key p.2).
    assert (Forall (λ p, deref h p.1 = Ret p.2) (sort_by_key (zip v rs) (λ p, key p.2))) as Hall.
    { rewrite Hp. clear -Hf. induction Hf; simpl; by constructor. }
    apply vec_deref_Forall2. clear Hp. induction Hall as [|[a r] ps Ha Hps IH]; simpl; by constructor.
Qed.

(** What a call that makes a memory returns, in terms of what [Mmap]'s
    operation [spec] on values returns; [l] are the other references. *)
Definition refines h l (res : result ArcMemory MmapError) h' (spec : result (GuestMemoryMmap W) MmapError)
    : Prop :=
  same_contents h h' l ∧
  match res, spec with
  | Ok s, Ok m => value h' s = Ret m ∧ heap_ok h' (am_regions s ++ l)
  | Err e, Err e' => e = e' ∧ heap_ok h' l
  | _, _ => False
  end.

Lemma from_arc_regions_value pid rs m :
  from_arc_regions pid rs = Ret (Ok m) → m = GMemory pid rs.
Proof.
  unfold from_arc_regions. destruct rs as [|x rs]; [done|].
  destruct (check_windows (x :: rs)) as [[?|?]| | |]; simpl; by intros [= <-].
Qed.

Lemma am_from_arc_regions_ok h pid v l rs spec :
  heap_ok h (v ++ l) → vec_deref h v = Ret rs → from_arc_regions pid rs = Ret spec →
  ∃ res h', am_from_arc_regions h pid v = Ret (res, h') ∧ refines h l res h' spec.
Proof.
  intros Hh E Hs. unfold am_from_arc_regions. rewrite E, bind_ret, Hs, bind_ret.
  destruct spec as [m|e].
  - apply from_arc_regions_value in Hs as ->. eexists _, h. split; [done|]. split; [done|].
    split; [|done]. by apply value_Ret.
  - destruct (wp_inv _ _ (vec_drop_ok h l v Hh)) as (h' & -> & Hh' & Hs').
    eexists _, h'. split; [done|]. by split.
Qed.

Lemma arcs_new_ok h l rs :
  heap_ok h l → let '(v, h') := arcs_new h rs in
    heap_ok h' (v ++ l) ∧ same_contents h h' l ∧ vec_deref h' v = Ret rs.
Proof.
  revert h l. induction rs as [|r rs IH]; intros h l Hh; [done|]. cbn [arcs_new].
  pose proof (arc_new_ok h l r Hh) as Hn. destruct (arc_new h r) as [a h1].
  destruct Hn as (Hh1 & Hs1 & Hd1). specialize (IH h1 (a :: l) Hh1).
  destruct (arcs_new h1 rs) as [v h2]. destruct IH as (Hh2 & Hs2 & Hd2).
  rewrite <-Permutation_middle in Hh2. split_and!; [done| |].
  - eapply same_contents_trans; [done|]. eapply same_contents_sub; [done|]. intros b Hb. by right.
  - simpl. rewrite (same_deref h1 h2 (a :: l)); [|done|left]. by rewrite Hd1, bind_ret, Hd2.
Qed.

Lemma am_from_regions_ok h pid l rs spec :
  heap_ok h l → from_regions pid rs = Ret spec →
  ∃ res h', am_from_regions h pid rs = Ret (res, h') ∧ refines h l res h' spec.
Proof.
  intros Hh Hs. unfold am_from_regions. pose proof (arcs_new_ok h l rs Hh) as Hn.
  destruct (arcs_new h rs) as [v h1]. destruct Hn as (Hh1 & Hs1 & Hd1).
  destruct (am_from_arc_regions_ok h1 pid v l rs spec Hh1 Hd1 Hs) as (res & h' & -> & Hs2 & Hr).
  eexists _, h'. split; [done|]. split; [by eapply same_contents_trans|done].
Qed.

Lemma am_insert_region_ok h self a l m r spec :
  heap_ok h (a :: l) → am_regions self ⊆ l → value h self = Ret m → deref h a = Ret r →
  insert_region m r = Ret spec →
  ∃ res h', am_insert_region h self a = Ret (res, h') ∧ refines h l res h' spec.
Proof.
  intros Hh Hsub [Hpid Hv]%value_Ret Hr Hs. unfold am_insert_region.
  destruct (wp_inv _ _ (vec_clone_ok h (a :: l) (am_regions self) Hh ltac:(set_solver)))
    as (h1 & -> & Hh1 & Hs1). rewrite bind_ret.
  assert (vec_deref h1 (am_regions self ++ [a]) = Ret (regions m ++ [r])) as Hd.
  { rewrite (same_vec_deref h h1 (a :: l)) by (done || set_solver). apply vec_deref_Forall2.
    apply Forall2_app; [by apply vec_deref_Forall2|by repeat constructor]. }
  destruct (sort_arcs_ok h1 _ _ Hd) as (v & -> & Hp & Hdv). rewrite bind_ret.
  destruct (am_from_arc_regions_ok h1 (am_pid self) v l (sort_by_key (regions m ++ [r]) key) spec)
    as (res & h' & -> & Hs2 & Hres); [|done|by rewrite Hpid|].
  { rewrite Hp, <-app_assoc. done. }
  eexists _, h'. split; [done|]. split; [|done].
  eapply same_contents_trans; [|done]. eapply same_contents_sub; [done|]. set_solver.
Qed.

Lemma am_remove_region_ok h self base size l m spec :
  heap_ok h l → am_regions self ⊆ l → value h self = Ret m → remove_region m base size = Ret spec →
  ∃ res h', am_remove_region h self base size = Ret (res, h') ∧ same_contents h h' l ∧
    match res, spec with
    | Ok (s, a), Ok (m', r) =>
        value h' s = Ret m' ∧ deref h' a = Ret r ∧ a ∈ l ∧ heap_ok h' (am_regions s ++ a :: l)
    | Err e, Err e' => e = e' ∧ heap_ok h' l
    | _, _ => False
    end.
Proof.
  intros Hh Hsub [Hpid Hv]%value_Ret Hs. unfold am_remove_region, remove_region in *.
  rewrite Hv, bind_ret. destruct (binary_search_by_key _ _ _) as [[i|?]| | |]; [| |done..].
  2: { injection Hs as <-. exists (Err InvalidGuestRegion), h. by split_and!. }
  cbn [mbind outcome_bind] in Hs |- *. destruct (index (regions m) i) as [g| | |] eqn:Ei; [|done..].
  cbn [mbind outcome_bind] in Hs |- *. destruct (_ =? size).
  2: { injection Hs as <-. exists (Err InvalidGuestRegion), h. by split_and!. }
  destruct (wp_inv _ _ (vec_clone_ok h l (am_regions self) Hh Hsub)) as (h1 & -> & Hh1 & Hs1).
  rewrite bind_ret. unfold vec_remove in *. rewrite Ei in Hs. cbn [mbind outcome_bind] in Hs. injection Hs as <-.
  pose proof Hv as Hf. rewrite <-(same_vec_deref h h1 l), vec_deref_Forall2 in Hf by done.
  unfold index in *. destruct (0 <=? i); [|done].
  destruct (regions m !! Z.to_nat i) as [g'|] eqn:Eg; [|done]. injection Ei as ->.
  destruct (Forall2_lookup_r _ _ _ _ _ Hf Eg) as (a & Ea & Hda).
  rewrite Ea. cbn [unwrap]. rewrite !bind_ret. eexists _, h1. split; [done|]. split; [done|].
  assert (am_regions self ≡ₚ a :: take (Z.to_nat i) (am_regions self) ++ drop (S (Z.to_nat i)) (am_regions self))
    as Hperm by (rewrite <-delete_take_drop; by apply delete_Permutation).
  split_and!; [|done|by eapply Hsub, list_elem_of_lookup_2|].
  - apply value_Ret. split; [done|]. simpl. apply vec_deref_Forall2.
    apply Forall2_app; [by apply Forall2_take|by apply Forall2_drop].
  - simpl. rewrite Hperm in Hh1. by rewrite <-Permutation_middle.
Qed.
End operations.

(** ** What is unmapped

    A region that owns its mapping is unmapped when it is released, with its own
    address and size; the mapping of one that [build_raw] made stays. *)
Section releases.
Context `{Target} `{OS W}.
Implicit Types (h : region_heap W) (a b : nat) (v : list nat) (g : GuestRegionMmap W) (w : W)
  (rs : list (GuestRegionMmap W)).

Definition unmap w g : W :=
  if mr_owned (mapping g) then munmap w (mr_addr (mapping g)) (mr_size (mapping g)) else w.

(** From [h] to [h'] exactly the allocations [released] are freed, in this order,
    and the system calls made are those that unmap their regions. *)
Record releases h h' (released : list (nat * GuestRegionMmap W)) : Prop := {
  releases_extends : extends h h';
  releases_freed : freed h' = rev released.*1 ++ freed h;
  releases_world : world h' = foldl unmap (world h) released.*2;
  releases_region : ∀ b g, (b, g) ∈ released → (b < next h)%nat → deref h b = Ret g
}.

Lemma releases_nil h h' : extends h h' → freed h' = freed h → world h' = world h → releases h h' [].
Proof. intros. split; [done..|]. by intros b g ?%elem_of_nil. Qed.
Lemma releases_refl h : releases h h [].
Proof. by apply releases_nil. Qed.
Lemma releases_trans h1 h2 h3 r1 r2 : releases h1 h2 r1 → releases h2 h3 r2 → releases h1 h3 (r1 ++ r2).
Proof.
  intros [He1 Hf1 Hw1 Hr1] [He2 Hf2 Hw2 Hr2]. split.
  - by etrans.
  - by rewrite Hf2, Hf1, fmap_app, rev_app_distr, app_assoc.
  - by rewrite Hw2, Hw1, fmap_app, foldl_app.
  - intros b g [Hb|Hb]%elem_of_app Hlt; [by apply Hr1|].
    eapply extends_deref; [exact He1|done|]. apply Hr2; [done|]. destruct He1. lia.
Qed.

Lemma arc_new_releases h g a h' : arc_new h g = (a, h') → releases h h' [].
Proof. intros E. apply releases_nil; [eauto with heap|by injection E as _ <-..]. Qed.
Lemma arc_clone_releases h a h' : arc_clone h a = Ret h' → releases h h' [].
Proof.
  intros E. apply releases_nil; [eauto with heap|..]; unfold arc_clone in E;
    destruct (objects h !! a) as [[? ?]|]; try done; by injection E as <-.
Qed.
Lemma vec_clone_releases h v h' : vec_clone h v = Ret h' → releases h h' [].
Proof.
  revert h. induction v as [|a v IH]; intros h; simpl; [intros [= <-]; apply releases_refl|].
  destruct (arc_clone h a) as [h1| | |] eqn:E; try done. simpl. intros Hv%IH.
  exact (releases_trans _ _ _ [] [] (arc_clone_releases _ _ _ E) Hv).
Qed.

(** The drops release, and allocate nothing. *)
Definition drops h h' : Prop := next h' = next h ∧ ∃ released, releases h h' released.
#[export] Instance drops_preorder : PreOrder drops.
Proof.
  split; [intros h; split; [done|]; exists []; apply releases_refl|].
  intros h1 h2 h3 [Hn1 [r1 Hr1]] [Hn2 [r2 Hr2]]. split; [congruence|].
  exists (r1 ++ r2). by eapply releases_trans.
Qed.
Lemma arc_drop_drops h a h' : arc_drop h a = Ret h' → drops h h'.
Proof.
  intros Ed. pose proof (arc_drop_extends h a h' Ed) as He. unfold arc_drop in Ed.
  destruct (objects h !! a) as [[g n]|] eqn:E; [|done].
  destruct n as [|[|n]]; injection Ed as <-; (split; [done|]).
  1-2: exists [(a, g)]; (split; [done..|]); intros b g' [[= -> ->]|[]%elem_of_nil]%elem_of_cons _;
    unfold deref; by rewrite E.
  exists []. by apply releases_nil.
Qed.
Lemma vec_drop_drops h v h' : vec_drop h v = Ret h' → drops h h'.
Proof.
  revert h. induction v as [|a v IH]; intros h; simpl; [by intros [= <-]|].
  destruct (arc_drop h a) as [h1| | |] eqn:E; try done. simpl. intros ?%IH.
  etrans; [by eapply arc_drop_drops|done].
Qed.

(** The operations on memories. *)
Lemma am_from_arcs_releases h pid v res h' :
  am_from_arc_regions h pid v = Ret (res, h') → ∃ released, releases h h' released.
Proof.
  unfold am_from_arc_regions. destruct (vec_deref h v) as [rs| | |]; try done. simpl.
  destruct (from_arc_regions pid rs) as [[?|?]| | |]; try done; simpl.
  - intros [= <- <-]. exists []. apply releases_refl.
  - destruct (vec_drop h v) as [h1| | |] eqn:E; try done. intros [= <- <-]. by eapply vec_drop_drops.
Qed.
Lemma am_clone_releases h m m' h' : am_clone h m = Ret (m', h') → releases h h' [].
Proof.
  unfold am_clone. destruct (vec_clone h (am_regions m)) as [h1| | |] eqn:E; [|done..].
  intros [= _ <-]. by eapply vec_clone_releases.
Qed.
Lemma am_insert_releases h m a res h' :
  am_insert_region h m a = Ret (res, h') → ∃ released, releases h h' released.
Proof.
  unfold am_insert_region. destruct (vec_clone h (am_regions m)) as [h1| | |] eqn:E; try done. simpl.
  destruct (sort_arcs h1 _); try done. simpl. intros [rel Hr]%am_from_arcs_releases.
  exists rel. exact (releases_trans _ _ _ [] _ (vec_clone_releases _ _ _ E) Hr).
Qed.
Lemma am_remove_releases h m base size res h' :
  am_remove_region h m base size = Ret (res, h') → releases h h' [].
Proof.
  unfold am_remove_region. destruct (vec_deref h (am_regions m)) as [rs| | |]; [|done..]. rewrite bind_ret.
  generalize (binary_search_by_key rs (ga_0 base) key). intros [[i|?]| | |]; [..|done|done|done];
    rewrite bind_ret; [|intros [= <- <-]; apply releases_refl].
  destruct (index rs i) as [g| | |]; [|done..]. rewrite bind_ret.
  destruct (_ =? size); [|intros [= <- <-]; apply releases_refl].
  destruct (vec_clone h (am_regions m)) eqn:E; [|done..]. rewrite bind_ret.
  destruct (vec_remove (am_regions m) i) as [[??]| | |]; [|done..]. rewrite bind_ret.
  intros [= <- <-]. by eapply vec_clone_releases.
Qed.

(** Regions that were just made are referred to once, and dropping these
    references unmaps all of them. *)
Lemma arcs_new_fresh h rs v h' :
  arcs_new h rs = (v, h') →
  v = seq (next h) (length rs) ∧ releases h h' [] ∧
  (∀ b, (b < next h)%nat → objects h' !! b = objects h !! b) ∧
  Forall2 (λ a g, objects h' !! a = Some (g, 1%nat)) v rs.
Proof.
  revert h v. induction rs as [|g rs IH]; intros h v; cbn [arcs_new].
  { intros [= <- <-]. split_and!; [done|apply releases_refl|done|constructor]. }
  destruct (arc_new h g) as [a h1] eqn:E1, (arcs_new h1 rs) as [v1 h2] eqn:E2. intros [= <- <-].
  pose proof (arc_new_releases _ _ _ _ E1) as R1. injection E1 as <- <-.
  destruct (IH _ _ E2) as (-> & R2 & Hold & Hnew). cbn [next objects] in *. split_and!.
  - done.
  - exact (releases_trans _ _ _ [] [] R1 R2).
  - intros b Hb. rewrite Hold by lia. by rewrite lookup_insert_ne by lia.
  - constructor; [|done]. rewrite Hold by lia. by rewrite lookup_insert_eq.
Qed.
Lemma vec_drop_last h v rs :
  NoDup v → Forall2 (λ a g, objects h !! a = Some (g, 1%nat)) v rs →
  ∃ h', vec_drop h v = Ret h' ∧ freed h' = rev v ++ freed h ∧ world h' = foldl unmap (world h) rs.
Proof.
  revert h rs. induction v as [|a v IH]; intros h rs Hnd Hf.
  { apply Forall2_nil_inv_l in Hf as ->. by exists h. }
  apply list.NoDup_cons in Hnd as [Ha Hnd]. apply Forall2_cons_inv_l in Hf as (g & rs' & E & Hf & ->).
  set (h1 := Heap (delete a (objects h)) (next h) (a :: freed h) (drop_region (world h) (mapping g))).
  assert (arc_drop h a = Ret h1) as Ed by (unfold arc_drop; by rewrite E).
  cbn [vec_drop]. rewrite Ed, bind_ret. destruct (IH h1 rs' Hnd) as (h' & Ev & Hfr & Hw).
  - unfold h1. cbn [objects]. clear -Hf Ha. induction Hf as [|b g' v rs E _ IH]; constructor.
    + rewrite lookup_delete_ne; [done|]. intros ->. apply Ha. left.
    + apply IH. intros Hin. apply Ha. by right.
  - exists h'. split; [done|]. rewrite Hfr, Hw. split; [by cbn [rev]; rewrite <-app_assoc|done].
Qed.
Lemma am_from_regions_releases h pid rs res h' :
  am_from_regions h pid rs = Ret (res, h') →
  (∃ released, releases h h' released) ∧
  match res with
  | Ok _ => freed h' = freed h ∧ world h' = world h
  | Err _ => freed h' = rev (seq (next h) (length rs)) ++ freed h ∧ world h' = foldl unmap (world h) rs
  end.
Proof.
  unfold am_from_regions. destruct (arcs_new h rs) as [v h1] eqn:En.
  destruct (arcs_new_fresh _ _ _ _ En) as (Hv & R1 & _ & Hnew). intros E. split.
  { destruct (am_from_arcs_releases _ _ _ _ _ E) as [rel R2]. exists rel. exact (releases_trans _ _ _ [] _ R1 R2). }
  destruct R1 as [_ Hf Hw _]. simpl in Hf, Hw. unfold am_from_arc_regions in E.
  destruct (vec_deref h1 v) as [rs'| | |]; try done. simpl in E.
  destruct (from_arc_regions pid rs') as [[?|?]| | |]; try done; simpl in E; [by injection E as <- <-|].
  destruct (vec_drop_last h1 v rs) as (h2 & Ed & Hf2 & Hw2); [rewrite Hv; apply NoDup_ListNoDup, seq_NoDup|done|].
  rewrite Ed in E. injection E as <- <-. by rewrite Hf2, Hw2, Hf, Hw, Hv.
Qed.

(** One call: it releases, or it is one that changed nothing but the system. *)
Lemma p_step_releases (p p' : program W) :
  p_step p p' →
  (∃ released, releases (p_heap p) (p_heap p') released) ∨
  ∃ w, p' = Program (Heap (objects (p_heap p)) (next (p_heap p)) (freed (p_heap p)) w) (p_memories p) (p_arcs p).
Proof.
  destruct 1; cbn [p_heap p_memories p_arcs]; [right; by eexists|left..].
  - exists []. by eapply arc_new_releases.
  - exists []. by eapply arc_clone_releases.
  - by eapply arc_drop_drops.
  - exists []. apply releases_refl.
  - exists []. by eapply am_clone_releases.
  - by eapply vec_drop_drops.
  - by eapply am_from_regions_releases.
  - by eapply am_from_arcs_releases.
  - by eapply am_insert_releases.
  - exists []. destruct res as [[??]|]; by eapply am_remove_releases.
Qed.
End releases.

(** ** Programs *)
Section programs.
Context `{Target} `{OS W}.
Implicit Types (h : region_heap W) (a : nat) (v l : list nat) (r : GuestRegionMmap W)
  (self m : ArcMemory) (ms : list ArcMemory) (p : program W).

(** All references that a program has. *)
Definition p_refs p : list nat := p_arcs p ++ (p_memories p ≫= am_regions).

(** The references lead to well-formed regions, the memories are well formed. *)
Definition memory_typed h m : Prop := ∃ g, value h m = Ret g ∧ regions_ok (regions g).
Definition typed h l ms : Prop :=
  (∀ a, a ∈ l → ∃ r, deref h a = Ret r ∧ region_wf r) ∧
  (∀ m, m ∈ ms → am_regions m ⊆ l ∧ memory_typed h m).

Definition p_ok p : Prop :=
  heap_ok (p_heap p) (p_refs p) ∧ typed (p_heap p) (p_refs p) (p_memories p).

Lemma memory_regions_sub ms m : m ∈ ms → am_regions m ⊆ ms ≫= am_regions.
Proof. intros Hm a Ha. apply list_elem_of_bind. eauto. Qed.

Lemma typed_same h h' l ms l' ms' :
  typed h l ms → same_contents h h' l' → l' ⊆ l → ms' ⊆ ms → (∀ m, m ∈ ms' → am_regions m ⊆ l') →
  typed h' l' ms'.
Proof.
  intros [Hr Hm] Hs Hsub Hms Hin. split.
  - intros a Ha. rewrite (same_deref h h' l') by done. by apply Hr, Hsub.
  - intros m Hm'. split; [by apply Hin|]. destruct (Hm m (Hms m Hm')) as [_ (v & Hv & Hok)].
    exists v. split; [|done]. by rewrite (same_value h h' l') by auto.
Qed.
Lemma memory_typed_wf h m a r : memory_typed h m → a ∈ am_regions m → deref h a = Ret r → region_wf r.
Proof.
  intros (v & [_ Hv]%value_Ret & Hok) [i Hi]%list_elem_of_lookup_1 Hr.
  apply vec_deref_Forall2 in Hv. destruct (Forall2_lookup_l _ _ _ _ _ Hv Hi) as (r' & Hr' & E).
  rewrite Hr in E. injection E as <-. by eapply regions_wf.
Qed.
Lemma typed_cons h l m ms :
  typed h l ms → memory_typed h m → (∀ a, a ∈ am_regions m → ∃ r, deref h a = Ret r) →
  typed h (am_regions m ++ l) (m :: ms).
Proof.
  intros [Hr Hms] Hm Hd. split.
  - intros a [Ha|Ha]%elem_of_app; [|by apply Hr]. destruct (Hd a Ha) as [r E].
    exists r. split; [done|]. by eapply memory_typed_wf.
  - intros m' [->|Hm']%elem_of_cons; [split; [set_solver|done]|].
    destruct (Hms m' Hm'). split; [set_solver|done].
Qed.

(** What a call returns that makes a memory, beside the references [l]. *)
Definition am_made h l (res : result ArcMemory MmapError) h' : Prop :=
  same_contents h h' l ∧
  match res with
  | Ok s => memory_typed h' s ∧ heap_ok h' (am_regions s ++ l)
  | Err _ => heap_ok h' l
  end.

Lemma refines_made h l res h' spec :
  refines h l res h' spec → (∀ g, spec = Ok g → regions_ok (regions g)) → am_made h l res h'.
Proof.
  intros [Hs Hr] Hok. split; [done|]. destruct res as [s|e], spec as [v|e']; try done.
  - destruct Hr as [Hv Hh]. split; [|done]. exists v. auto.
  - by destruct Hr.
Qed.

(** After such a call, with [l] the references that the program kept. *)
Lemma made_ok h l ms res h' as_ :
  am_made h l res h' → typed h l ms → l ≡ₚ as_ ++ (ms ≫= am_regions) →
  p_ok (Program h' (match res with Ok s => s :: ms | Err _ => ms end) as_).
Proof.
  intros [Hs Hres] Ht Hl.
  assert (typed h' l ms) as Ht'.
  { eapply typed_same; [done|done|set_solver..|]. intros m Hm. by apply Ht. }
  destruct res as [s|e]; unfold p_ok, p_refs; simpl.
  - destruct Hres as [Hty Hh]. assert (am_regions s ++ l ≡ₚ as_ ++ am_regions s ++ (ms ≫= am_regions)) as Hp.
    { rewrite Hl. rewrite !app_assoc. f_equiv. apply Permutation_app_comm. }
    split; [by rewrite <-Hp|].
    assert (typed h' (am_regions s ++ l) (s :: ms)) as [Ht1 Ht2].
    { apply typed_cons; [done..|]. intros a Ha. eapply heap_ok_deref; [done|]. set_solver. }
    split.
    + intros a Ha. apply Ht1. by rewrite Hp.
    + intros m Hm. destruct (Ht2 m Hm) as [Hsub ?]. split; [|done]. intros a Ha. rewrite <-Hp. by apply Hsub.
  - split; [by rewrite <-Hl|]. destruct Ht' as [Ht1 Ht2]. split.
    + intros a Ha. apply Ht1. by rewrite Hl.
    + intros m Hm. destruct (Ht2 m Hm) as [Hsub ?]. split; [|done]. intros a Ha. rewrite <-Hl. by apply Hsub.
Qed.

Lemma typed_deref_wf h l ms v rs :
  typed h l ms → v ⊆ l → vec_deref h v = Ret rs → Forall region_wf rs.
Proof.
  intros [Hr _] Hsub Hv%vec_deref_Forall2. apply Forall_elem. intros r [i Hi]%list_elem_of_lookup_1.
  destruct (Forall2_lookup_r _ _ _ _ _ Hv Hi) as (a & Ha & E).
  destruct (Hr a) as (r' & E' & Hwf); [by apply Hsub; eapply list_elem_of_lookup_2|congruence].
Qed.

(** The calls return, and what they return is well formed. *)
Lemma from_arcs_made h pid v l ms :
  heap_ok h (v ++ l) → typed h (v ++ l) ms →
  ∃ res h', am_from_arc_regions h pid v = Ret (res, h') ∧ am_made h l res h'.
Proof.
  intros Hh Ht. destruct (vec_deref_ok h (v ++ l) v Hh) as (rs & Hv & _); [set_solver|].
  assert (Forall region_wf rs) as Hwf by (eapply typed_deref_wf; [done| |done]; set_solver).
  destruct (from_arc_regions_ok pid rs Hwf) as (spec & Hs & Hspec).
  destruct (am_from_arc_regions_ok h pid v l rs spec Hh Hv Hs) as (res & h' & E & Hr).
  exists res, h'. split; [done|]. eapply refines_made; [done|]. intros m ->. by destruct Hspec as (-> & ? & _).
Qed.
Lemma from_regions_made h pid l rs :
  heap_ok h l → Forall region_wf rs →
  ∃ res h', am_from_regions h pid rs = Ret (res, h') ∧ am_made h l res h'.
Proof.
  intros Hh Hwf. destruct (from_arc_regions_ok pid rs Hwf) as (spec & Hs & Hspec).
  destruct (am_from_regions_ok h pid l rs spec Hh Hs) as (res & h' & E & Hr).
  exists res, h'. split; [done|]. eapply refines_made; [done|]. intros m ->. by destruct Hspec as (-> & ? & _).
Qed.
Lemma insert_made h self a l ms :
  heap_ok h (a :: l) → typed h (a :: l) ms → self ∈ ms → am_regions self ⊆ l →
  ∃ res h', am_insert_region h self a = Ret (res, h') ∧ am_made h l res h'.
Proof.
  intros Hh [Hr Hms] Hin Hsub. destruct (Hr a) as (r & Hd & Hwf); [left|].
  destruct (Hms self Hin) as (_ & v & Hv & Hok).
  destruct (insert_region_ok v r Hok Hwf) as (spec & Hs & Hspec).
  destruct (am_insert_region_ok h self a l v r spec Hh Hsub Hv Hd Hs) as (res & h' & E & Href).
  exists res, h'. split; [done|]. eapply refines_made; [done|]. intros m ->. by destruct Hspec as (? & _).
Qed.
Lemma remove_made h self base size l ms :
  heap_ok h l → typed h l ms → self ∈ ms →
  ∃ res h', am_remove_region h self base size = Ret (res, h') ∧ same_contents h h' l ∧
    match res with
    | Ok (s, a) => memory_typed h' s ∧ a ∈ l ∧ heap_ok h' (am_regions s ++ a :: l)
    | Err _ => heap_ok h' l
    end.
Proof.
  intros Hh [Hr Hms] Hin. destruct (Hms self Hin) as (Hsub & v & Hv & Hok).
  destruct (remove_region_ok v base size Hok) as (spec & Hs & Hspec).
  destruct (am_remove_region_ok h self base size l v spec Hh Hsub Hv Hs) as (res & h' & E & Hsame & Href).
  exists res, h'. split; [done|]. split; [done|].
  destruct res as [[s a]|e], spec as [[m' r]|e']; try done; [|by destruct Href].
  destruct Href as (Hv' & Hd & Ha & Hh'). destruct Hspec as (i & Hi & Hdel & _).
  split_and!; [|done|done].
  exists m'. split; [done|]. rewrite Hdel. by apply regions_ok_delete.
Qed.

(** A call that gives up references and memories, or copies references. *)
Lemma kept_ok h ms as_ h' ms' as' :
  typed h (p_refs (Program h ms as_)) ms → heap_ok h' (p_refs (Program h' ms' as')) →
  same_contents h h' (p_refs (Program h ms as_)) ∨ same_contents h h' (p_refs (Program h' ms' as')) →
  p_refs (Program h' ms' as') ⊆ p_refs (Program h ms as_) → ms' ⊆ ms →
  p_ok (Program h' ms' as').
Proof.
  intros Ht Hh Hs Hsub Hms. split; [done|]. eapply typed_same; [done| |done|done|].
  - destruct Hs as [Hs|Hs]; [|done]. by eapply same_contents_sub.
  - intros m Hm a Ha. unfold p_refs. simpl. apply elem_of_app. right.
    by eapply memory_regions_sub.
Qed.

Lemma refs_drop_arc h ms as1 a as2 :
  p_refs (Program h ms (as1 ++ a :: as2)) ≡ₚ a :: p_refs (Program h ms (as1 ++ as2)).
Proof. unfold p_refs. cbn [p_arcs p_memories]. rewrite <-!app_assoc. simpl. by rewrite <-Permutation_middle. Qed.
Lemma refs_drop_memory h ms1 m ms2 as_ :
  p_refs (Program h (ms1 ++ m :: ms2) as_) ≡ₚ am_regions m ++ p_refs (Program h (ms1 ++ ms2) as_).
Proof.
  unfold p_refs. simpl. rewrite !bind_app, bind_cons. rewrite !app_assoc. f_equiv.
  rewrite <-!app_assoc. rewrite (Permutation_app_comm (am_regions m)), <-!app_assoc. done.
Qed.

Lemma p_ok_arc_new h ms as_ r a h' :
  p_ok (Program h ms as_) → region_wf r → arc_new h r = (a, h') → p_ok (Program h' ms (a :: as_)).
Proof.
  intros [Hh Ht] Hr E. pose proof (arc_new_ok h _ r Hh) as Hn. rewrite E in Hn.
  destruct Hn as (Hh' & Hs & Hd). split; [done|]. destruct (typed_same h h' _ ms _ ms Ht Hs) as [H1 H2];
    [done|done|by intros m Hm; apply Ht|].
  split.
  - intros b [->|Hb]%elem_of_cons; [eauto|by apply H1].
  - intros m Hm. destruct (H2 m Hm). split; [set_solver|done].
Qed.

(** Every call returns: it never follows a reference to a region that is
    gone, and never panics. *)
Definition calls_return p : Prop :=
  let h := p_heap p in
  (∀ a, a ∈ p_arcs p → (∃ h', arc_clone h a = Ret h') ∧ ∃ h', arc_drop h a = Ret h') ∧
  (∀ m, m ∈ p_memories p →
    (∃ x, am_clone h m = Ret x) ∧ (∃ h', am_drop h m = Ret h') ∧
    (∀ base size, ∃ x, am_remove_region h m base size = Ret x) ∧
    ∀ a, a ∈ p_arcs p → ∃ x, am_insert_region h m a = Ret x) ∧
  (∀ pid v rest, p_arcs p ≡ₚ v ++ rest → ∃ x, am_from_arc_regions h pid v = Ret x) ∧
  (∀ pid rs, Forall region_wf rs → ∃ x, am_from_regions h pid rs = Ret x).

Lemma p_arc_returns p a :
  p_ok p → a ∈ p_arcs p → (∃ h', arc_clone (p_heap p) a = Ret h') ∧ ∃ h', arc_drop (p_heap p) a = Ret h'.
Proof.
  destruct p as [h ms as_]. intros [Hh _] (as1 & as2 & E)%list_elem_of_split. cbn [p_heap p_arcs] in *. subst as_.
  rewrite refs_drop_arc in Hh. split.
  - destruct (wp_inv _ _ (arc_clone_ok h _ a Hh ltac:(left))) as (h' & ? & _). eauto.
  - destruct (wp_inv _ _ (arc_drop_ok h _ a Hh)) as (h' & ? & _). eauto.
Qed.
Lemma p_insert_returns p m a :
  p_ok p → m ∈ p_memories p → a ∈ p_arcs p → ∃ x, am_insert_region (p_heap p) m a = Ret x.
Proof.
  destruct p as [h ms as_]. intros [Hh Ht] Hm (as1 & as2 & E)%list_elem_of_split.
  cbn [p_heap p_arcs p_memories] in *. subst as_. pose proof Ht as [_ Hms].
  assert (typed h (a :: p_refs (Program h ms (as1 ++ as2))) ms) as Ht'.
  { eapply typed_same; [done|done|by rewrite <-refs_drop_arc|done|].
    intros m' Hm' b Hb. rewrite <-refs_drop_arc. by apply (Hms m'). }
  rewrite refs_drop_arc in Hh. destruct (insert_made h m a _ _ Hh Ht' Hm) as (? & ? & ? & _); [|eauto].
  intros b Hb. apply elem_of_app. right. by eapply memory_regions_sub.
Qed.
Lemma p_memory_returns p m :
  p_ok p → m ∈ p_memories p →
  (∃ x, am_clone (p_heap p) m = Ret x) ∧ (∃ h', am_drop (p_heap p) m = Ret h') ∧
  ∀ base size, ∃ x, am_remove_region (p_heap p) m base size = Ret x.
Proof.
  destruct p as [h ms as_]. intros [Hh Ht] Hm. cbn [p_heap p_memories] in *.
  pose proof Ht as [_ Hms]. destruct (Hms m Hm) as [Hsub _]. split_and!.
  - unfold am_clone. destruct (wp_inv _ _ (vec_clone_ok h _ _ Hh Hsub)) as (h' & -> & _). eexists. done.
  - pose proof Hm as (ms1 & ms2 & E)%list_elem_of_split. subst ms.
    rewrite refs_drop_memory in Hh. destruct (wp_inv _ _ (vec_drop_ok h _ _ Hh)) as (h' & ? & _). eauto.
  - intros base size. destruct (remove_made h m base size _ _ Hh Ht Hm) as (? & ? & ? & _). eauto.
Qed.
Lemma p_from_arcs_returns p pid v rest :
  p_ok p → p_arcs p ≡ₚ v ++ rest → ∃ x, am_from_arc_regions (p_heap p) pid v = Ret x.
Proof.
  destruct p as [h ms as_]. intros [Hh Ht] Hp. cbn [p_heap p_memories p_arcs] in *. pose proof Ht as [_ Hms].
  assert (p_refs (Program h ms as_) ≡ₚ v ++ rest ++ (ms ≫= am_regions)) as Hp'.
  { unfold p_refs. cbn [p_arcs p_memories]. by rewrite Hp, <-app_assoc. }
  rewrite Hp' in Hh. destruct (from_arcs_made h pid v _ ms Hh) as (? & ? & ? & _); [|eauto].
  eapply typed_same; [done|done|by rewrite <-Hp'|done|].
  intros m' Hm' b Hb. rewrite <-Hp'. by apply (Hms m').
Qed.
Lemma p_call_returns p : p_ok p → calls_return p.
Proof.
  intros Hp. split_and!.
  - intros a Ha. by apply p_arc_returns.
  - intros m Hm. destruct (p_memory_returns p m Hp Hm) as (? & ? & ?). split_and!; [done..|].
    intros a Ha. by apply p_insert_returns.
  - intros pid v rest Hv. by eapply p_from_arcs_returns.
  - intros pid rs Hrs. destruct Hp as [Hh _].
    destruct (from_regions_made _ pid _ rs Hh Hrs) as (? & ? & ? & _). eauto.
Qed.

(** The calls that make a memory beside references that are kept. *)
Lemma typed_sub h l ms l' :
  typed h l ms → l' ⊆ l → (ms ≫= am_regions) ⊆ l' → typed h l' ms.
Proof.
  intros Ht Hsub Hms. eapply typed_same; [done|done|done|done|]. intros m Hm. etrans; [|done].
  by apply memory_regions_sub.
Qed.

Lemma p_ok_clone h ms as_ m m' h' :
  p_ok (Program h ms as_) → m ∈ ms → am_clone h m = Ret (m', h') → p_ok (Program h' (m' :: ms) as_).
Proof.
  intros [Hh Ht] Hm E. pose proof Ht as [_ Hms]. cbn [p_heap p_memories] in *.
  destruct (Hms m Hm) as (Hsub & g & Hg & Hok).
  unfold am_clone in E. destruct (wp_inv _ _ (vec_clone_ok h _ _ Hh Hsub)) as (h1 & E1 & Hh1 & Hs1).
  rewrite E1 in E. injection E as <- <-. apply (made_ok h (p_refs (Program h ms as_)) ms (Ok (AMemory (am_pid m) (am_regions m))) h1 as_);
    [|done|done].
  split; [done|]. split; [|done]. exists g. split; [|done].
  by rewrite <-Hg, <-(same_value h h1 _ m Hs1 Hsub).
Qed.
Lemma p_ok_from_arcs h ms as_ rest pid v res h' :
  p_ok (Program h ms as_) → as_ ≡ₚ v ++ rest → am_from_arc_regions h pid v = Ret (res, h') →
  p_ok (Program h' (match res with Ok m => m :: ms | Err _ => ms end) rest).
Proof.
  intros [Hh Ht] Hv E. cbn [p_heap p_memories] in *.
  assert (p_refs (Program h ms as_) ≡ₚ v ++ rest ++ (ms ≫= am_regions)) as Hp.
  { unfold p_refs. cbn [p_arcs p_memories]. by rewrite Hv, <-app_assoc. }
  rewrite Hp in Hh. assert (typed h (v ++ rest ++ (ms ≫= am_regions)) ms) as Ht'.
  { eapply typed_sub; [done|by rewrite Hp|]. intros b Hb. rewrite !elem_of_app. tauto. }
  destruct (from_arcs_made h pid v _ ms Hh Ht') as (res' & h'' & E' & Hmade).
  rewrite E in E'. injection E' as <- <-. eapply made_ok; [done| |done].
  eapply typed_sub; [done|intros b Hb; rewrite !elem_of_app in *; tauto|].
  intros b Hb. rewrite !elem_of_app. tauto.
Qed.
Lemma p_ok_insert h ms as1 as2 m a res h' :
  p_ok (Program h ms (as1 ++ a :: as2)) → m ∈ ms → am_insert_region h m a = Ret (res, h') →
  p_ok (Program h' (match res with Ok m' => m' :: ms | Err _ => ms end) (as1 ++ as2)).
Proof.
  intros [Hh Ht] Hm E. cbn [p_heap p_memories] in *. rewrite refs_drop_arc in Hh.
  set (l := p_refs (Program h ms (as1 ++ as2))) in *.
  assert ((ms ≫= am_regions) ⊆ l) as Hms by (intros b Hb; apply elem_of_app; by right).
  assert (typed h (a :: l) ms) as Ht'.
  { eapply typed_sub; [done|by rewrite refs_drop_arc|]. intros b Hb. right. by apply Hms. }
  destruct (insert_made h m a l ms Hh Ht' Hm) as (res' & h'' & E' & Hmade).
  { etrans; [by apply memory_regions_sub|done]. }
  rewrite E in E'. injection E' as <- <-. eapply made_ok; [done| |done].
  eapply typed_sub; [done|by intros b ?; right|done].
Qed.
Lemma p_ok_remove h ms as_ m base size res h' :
  p_ok (Program h ms as_) → m ∈ ms → am_remove_region h m base size = Ret (res, h') →
  p_ok match res with
       | Ok (m', a) => Program h' (m' :: ms) (a :: as_)
       | Err _ => Program h' ms as_
       end.
Proof.
  intros [Hh Ht] Hm E. cbn [p_heap p_memories] in *.
  destruct (remove_made h m base size _ ms Hh Ht Hm) as (res' & h'' & E' & Hs & Hres).
  rewrite E in E'. injection E' as <- <-. destruct res as [[m' a]|e].
  - destruct Hres as (Hty & Ha & Hh'). set (l := p_refs (Program h ms as_)) in *.
    apply (made_ok h (a :: l) ms (Ok m') h' (a :: as_)); [|by eapply typed_sub; [done|..];
      intros b; rewrite elem_of_cons; [intros [->|?]|intros ?; right; apply elem_of_app; right]|done].
    split; [|done]. intros b [->|Hb]%elem_of_cons; by apply Hs.
  - eapply kept_ok; [done|done|by left|done|done].
Qed.

Lemma p_ok_step p p' : p_ok p → p_step p p' → p_ok p'.
Proof.
  intros Hp Hstep. pose proof Hp as [Hh Ht]. destruct Hstep as [h ms as_ w|h ms as_ r a h' Hr E|
    h ms as_ a h' Ha E|h ms as1 as2 a h' E|h ms as_ pid|h ms as_ m m' h' Hm E|h ms1 ms2 as_ m h' E|
    h ms as_ pid rs res h' Hrs E|h ms as_ rest pid v res h' Hv E|h ms as1 as2 m a res h' Hm E|
    h ms as_ m base size res h' Hm E]; cbn [p_heap p_memories] in *.
  - eapply kept_ok; [done| |by left|done|done]. by destruct Hh; split.
  - by eapply p_ok_arc_new.
  - assert (a ∈ p_refs (Program h ms as_)) as Hin by (apply elem_of_app; by left).
    pose proof (arc_clone_ok h _ a Hh Hin) as Hc. rewrite E in Hc. destruct Hc as [Hh' Hs].
    eapply kept_ok; [done|done|by left| |done]. intros b [->|Hb]%elem_of_cons; done.
  - pose proof Hh as Hh0. rewrite refs_drop_arc in Hh0. pose proof (arc_drop_ok h _ a Hh0) as Hc.
    rewrite E in Hc. destruct Hc as [Hh' Hs]. eapply kept_ok; [done|done|by right| |done].
    rewrite (refs_drop_arc h). by intros b ?; right.
  - split; [done|]. destruct Ht as [Ht1 Ht2]. split; [done|].
    intros m [->|Hm]%elem_of_cons; [|by apply Ht2].
    split; [by intros b ?%elem_of_nil|]. exists (GMemory pid []). by repeat constructor.
  - by eapply p_ok_clone.
  - pose proof Hh as Hh0. rewrite refs_drop_memory in Hh0. unfold am_drop in E.
    pose proof (vec_drop_ok h _ _ Hh0) as Hc. rewrite E in Hc. destruct Hc as [Hh' Hs].
    eapply kept_ok; [done|done|by right| |set_solver].
    rewrite (refs_drop_memory h). by intros b ?; apply elem_of_app; right.
  - destruct (from_regions_made h pid _ rs Hh Hrs) as (res' & h'' & E' & Hmade).
    rewrite E in E'. injection E' as <- <-. by eapply made_ok.
  - by eapply p_ok_from_arcs.
  - by eapply p_ok_insert.
  - by eapply p_ok_remove.
Qed.

(** No call reuses an index or changes a region. *)
Lemma am_from_arcs_extends h pid v res h' : am_from_arc_regions h pid v = Ret (res, h') → extends h h'.
Proof.
  unfold am_from_arc_regions. destruct (vec_deref h v) as [rs| | |]; try done. simpl.
  destruct (from_arc_regions pid rs) as [[?|?]| | |]; try done; simpl; [by intros [= <- <-]|].
  destruct (vec_drop h v) eqn:E; try done. intros [= <- <-]. eauto with heap.
Qed.
Lemma am_clone_extends h m m' h' : am_clone h m = Ret (m', h') → extends h h'.
Proof.
  unfold am_clone. destruct (vec_clone h (am_regions m)) as [h1| | |] eqn:E; [|done..].
  intros [= <- <-]. eauto with heap.
Qed.
Lemma arcs_new_extends h rs v h' : arcs_new h rs = (v, h') → extends h h'.
Proof.
  revert h v. induction rs as [|r rs IH]; intros h v; cbn [arcs_new]; [by intros [= <- <-]|].
  destruct (arc_new h r) as [a h1] eqn:E1, (arcs_new h1 rs) as [v1 h2] eqn:E2. intros [= <- <-].
  etrans; eauto with heap.
Qed.
Lemma am_insert_extends h m a res h' : am_insert_region h m a = Ret (res, h') → extends h h'.
Proof.
  unfold am_insert_region. destruct (vec_clone h (am_regions m)) as [h1| | |] eqn:E; try done. simpl.
  destruct (sort_arcs h1 _); try done. simpl. intros ?%am_from_arcs_extends. etrans; eauto with heap.
Qed.
Lemma am_remove_extends h m base size res h' : am_remove_region h m base size = Ret (res, h') → extends h h'.
Proof.
  unfold am_remove_region. destruct (vec_deref h (am_regions m)) as [rs| | |]; [|done..]. rewrite bind_ret.
  generalize (binary_search_by_key rs (ga_0 base) key). intros [[i|?]| | |]; [..|done|done|done];
    rewrite bind_ret; [|by intros [= <- <-]].
  destruct (index rs i) as [g| | |]; [|done..]. rewrite bind_ret.
  destruct (_ =? size); [|by intros [= <- <-]].
  destruct (vec_clone h (am_regions m)) eqn:E; [|done..]. rewrite bind_ret.
  destruct (vec_remove (am_regions m) i) as [[??]| | |]; [|done..]. rewrite bind_ret.
  intros [= <- <-]. eauto with heap.
Qed.
Lemma p_step_extends p p' : p_step p p' → extends (p_heap p) (p_heap p').
Proof.
  destruct 1; cbn [p_heap]; eauto with heap.
  - split; [done|by right].
  - done.
  - by eapply am_clone_extends.
  - unfold am_from_regions in *. destruct (arcs_new h rs) as [v h1] eqn:E.
    etrans; [by eapply arcs_new_extends|]. by eapply am_from_arcs_extends.
  - by eapply am_from_arcs_extends.
  - by eapply am_insert_extends.
  - destruct res as [[??]|]; by eapply am_remove_extends.
Qed.

Lemma p_reachable_ok w p : p_reachable w p → p_ok p.
Proof.
  induction 1 as [|p p' _ IH Hstep]; [|by eapply p_ok_step].
  split; [split; simpl|split; simpl].
  - done.
  - intros a. rewrite elem_of_nil. split; [lia|]. by intros [[? ?]|[]].
  - constructor.
  - by intros a ?%elem_of_nil.
  - by intros a ?%elem_of_nil.
  - by intros m ?%elem_of_nil.
Qed.

(** A region is dropped exactly once and exactly when the program has no
    reference to it any more: in every state that calls of the API lead to, the
    regions of every memory are there, and one that nothing refers to has been
    released. *)
Theorem regions_released w p :
  p_reachable w p →
  NoDup (freed (p_heap p)) ∧
  (∀ a, (a < next (p_heap p))%nat → (a ∈ freed (p_heap p) ↔ a ∉ p_refs p)) ∧
  (∀ m a, m ∈ p_memories p → a ∈ am_regions m → (a ∉ freed (p_heap p)) ∧ ∃ r, deref (p_heap p) a = Ret r).
Proof.
  intros [Hh [Hr Hms]]%p_reachable_ok. split_and!; [apply Hh|intros a Hlt; by apply freed_unused|].
  intros m a Hm Ha. destruct (Hms m Hm) as [Hsub _]. apply Hsub in Ha. split.
  - intros Hf. revert Ha. apply (freed_unused _ _ _ Hh); [|done]. apply (allocated _ _ Hh). by right.
  - destruct (Hr a Ha) as (r & ? & _). eauto.
Qed.

(** C15: in every such state each memory of the program is well formed, and every
    call returns: none follows a reference to a region that is gone, and none
    panics.  This holds of each [Arc] that the program owns ([clone], [drop]), of
    each memory ([clone], [drop], [remove_region], and [insert_region] with each
    [Arc]), of [from_arc_regions] with any of the [Arc]s, and of [from_regions]
    with any well-formed regions. *)
Theorem arc_calls_return w p :
  p_reachable w p →
  (∀ m, m ∈ p_memories p → ∃ g, value (p_heap p) m = Ret g ∧ regions_ok (regions g)) ∧
  calls_return p.
Proof.
  intros Hp%p_reachable_ok. split; [|by apply p_call_returns].
  intros m Hm. by destruct Hp as [_ [_ Hms]]; destruct (Hms m Hm).
Qed.

(** C14: [insert_region] and [remove_region] on shared regions do what they do
    on values: they return the memory, or the error, that the operations on
    the regions themselves return, and every memory of the program keeps its
    regions, also the one they are called on. *)
Theorem arc_operations_refine w p m g :
  p_reachable w p → m ∈ p_memories p → value (p_heap p) m = Ret g →
  (∀ a r, a ∈ p_arcs p → deref (p_heap p) a = Ret r →
    ∃ res h' spec, am_insert_region (p_heap p) m a = Ret (res, h') ∧ insert_region g r = Ret spec ∧
      match res, spec with
      | Ok s, Ok g' => value h' s = Ret g'
      | Err e, Err e' => e = e'
      | _, _ => False
      end ∧ ∀ m', m' ∈ p_memories p → value h' m' = value (p_heap p) m') ∧
  (∀ base size, ∃ res h' spec,
    am_remove_region (p_heap p) m base size = Ret (res, h') ∧ remove_region g base size = Ret spec ∧
      match res, spec with
      | Ok (s, a), Ok (g', r) => value h' s = Ret g' ∧ deref h' a = Ret r
      | Err e, Err e' => e = e'
      | _, _ => False
      end ∧ ∀ m', m' ∈ p_memories p → value h' m' = value (p_heap p) m').
Proof.
  intros [Hh [Hr Hms]]%p_reachable_ok Hm Hg. destruct p as [h ms as_].
  cbn [p_heap p_memories p_arcs] in *.
  destruct (Hms m Hm) as (Hsub & g' & Hg' & Hok). rewrite Hg in Hg'. injection Hg' as <-.
  split.
  - intros a r Ha Hd. destruct (Hr a) as (r' & Hd' & Hwf); [apply elem_of_app; by left|].
    rewrite Hd in Hd'. injection Hd' as <-. apply list_elem_of_split in Ha as (as1 & as2 & ->).
    rewrite refs_drop_arc in Hh. set (l := p_refs (Program h ms (as1 ++ as2))) in *.
    assert (∀ m', m' ∈ ms → am_regions m' ⊆ l) as Hl.
    { intros m' Hm' b Hb. apply elem_of_app. right. by eapply memory_regions_sub. }
    destruct (insert_region_ok g r Hok Hwf) as (spec & Hs & _).
    destruct (am_insert_region_ok h m a l g r spec) as (res & h' & E & Hsame & Hres);
      [done|by apply Hl|done..|].
    exists res, h', spec. split_and!; [done|done| |].
    + destruct res, spec; try done; by destruct Hres.
    + intros m' Hm'. apply (same_value _ _ l); [done|by apply Hl].
  - intros base size. destruct (remove_region_ok g base size Hok) as (spec & Hs & _).
    destruct (am_remove_region_ok h m base size _ g spec Hh Hsub Hg Hs) as (res & h' & E & Hsame & Hres).
    exists res, h', spec. split_and!; [done|done| |].
    + destruct res as [[??]|], spec as [[??]|]; try done; [by destruct Hres as (? & ? & _)|by destruct Hres].
    + intros m' Hm'. apply (same_value _ _ _ _ Hsame). by apply Hms.
Qed.
End programs.
