(* ===== verification/CrossRegion.v ===== *)
(** * Accesses that span regions ([src/src/guest_memory.rs], [src/src/mmap.rs])

    [Bytes::write] and [Bytes::read] of a [GuestMemory] hand the rest of the
    buffer to each region in turn and rely on the region to stop at its end, as
    the documentation of [Bytes] says that a container does.  [BoundedRegionSpec]
    is that promise; with it an access that spans regions moves the right
    bytes.  [GuestRegionMmap] does not keep it, and what a write across the end
    of one of its regions does instead is stated for [GuestMemoryMmap]. *)

From S2P Require Import Prelude Memory Address PlainData AtomicIntegers Bytes CopySlice Volatile Os RemoteMem GuestMemory MmapUnix Mmap SharedMemory.

(** ** Regions that stop at their end *)
Class BoundedRegionSpec (R W : Type) `{RegionSpec R W} : Prop := {
  write_bounded : ∀ w r off buf, region_ok w r → 0 ≤ off < len r →
    let n := Z.min (lenZ buf) (len r - off) in
    ∃ w', write r w buf (RegionAddr off) = Ret (Ok n, w') ∧
      replaced w w' r (list_inserts (Z.to_nat off) (take (Z.to_nat n) buf) (view w r));
  read_bounded : ∀ w r off buf, region_ok w r → 0 ≤ off < len r →
    let n := Z.min (lenZ buf) (len r - off) in
    read r w buf (RegionAddr off) = Ret (Ok n,
      (take (Z.to_nat n) (drop (Z.to_nat off) (view w r)) ++ drop (Z.to_nat n) buf, w))
}.

Section across.
Context `{GuestMemorySpec M} `{!RegionSpec R W} `{!BoundedRegionSpec R W}.
Implicit Types (m : M) (w : W) (addr : GuestAddress) (buf : list byte).

Lemma take_app_drop {A} (l : list A) (i j : nat) :
  take i l ++ take j (drop i l) = take (i + j) l.
Proof. by rewrite take_take_drop. Qed.

Lemma memory_write_across_wp m w buf addr :
  memory_ok m → world_ok m w → in_bits 64 (ga_0 addr) → in_bits usize_bits (lenZ buf) →
  wp (memory_write m w buf addr) (λ '(res, w'), ∃ n, 0 ≤ n ≤ lenZ buf ∧ backed_range m addr n ∧
    stored m w w' addr (take (Z.to_nat n) buf) ∧
    ended m addr (lenZ buf) n False (λ _, False) res).
Proof.
  intros Hm Hw Ha Hc. pose proof (usize_le_u64 _ Hc) as Hc64. unfold in_bits in Hc64.
  apply (try_access_wp _ _ _ _ (λ total w', backed_range m addr total ∧
    stored m w w' addr (take (Z.to_nat total) buf)) (λ res w', _) Hm Ha Hc).
  - intros total w1 r [Hb Hst] Ht Hlt Hin Hcon off n. pose proof Hst as [[Hok _] _].
    pose proof Hcon as [Hlo Hhi]. assert (0 ≤ off < len r) as Hoff by (unfold off; lia).
    rewrite index_range_ok by lia. rewrite bind_ret.
    set (rest := take _ (drop _ buf)).
    assert (rest = drop (Z.to_nat total) buf) as Er by (unfold rest; rewrite take_ge; [done|rewrite length_drop; lia]).
    assert (lenZ rest = lenZ buf - total) as Hl by (rewrite Er, length_drop; lia).
    destruct (write_bounded w1 r off rest (Hok r Hin) Hoff) as (w' & -> & Hrep).
    replace (Z.min (lenZ rest) (len r - off)) with n in * by (unfold n; lia).
    assert (stored m w w' addr (take (Z.to_nat (total + n)) buf) ∧ backed_range m addr (total + n)) as [Hst' Hb'].
    { assert (lenZ (take (Z.to_nat total) buf) = total) as Hlt' by (rewrite length_take; lia).
      split.
      - replace (Z.to_nat (total + n)) with (Z.to_nat total + Z.to_nat n)%nat by (unfold n; lia).
        rewrite <-take_app_drop, <-Er. eapply stored_more; rewrite ?Hlt'; try done;
          rewrite length_take; unfold n; lia.
      - eapply backed_range_more; eauto; unfold n; lia. }
    apply wp_ret. split; [unfold n; lia|]. destruct (Z.eqb_spec n 0) as [E|]; [|done].
    exists total. rewrite E, Z.add_0_r in Hst'. split_and!; [lia|lia|done|done|].
    split; [done|]. split; [|left; unfold n in E; lia].
    eapply backed_here; [done|exact Hb|lia|done|done].
  - intros total w' [Hb Hst] Ht Hend. exists total. split_and!; [lia|lia|done|done|].
    apply ended_done; [done|done|lia|done].
  - split; [intros i Hi; lia|]. by apply stored_nil.
Qed.

Lemma memory_read_across_wp m w buf addr :
  memory_ok m → world_ok m w → in_bits 64 (ga_0 addr) → in_bits usize_bits (lenZ buf) →
  wp (memory_read m w buf addr) (λ '(res, (bs, w')), w' = w ∧ ∃ data, lenZ data ≤ lenZ buf ∧
    bs = data ++ drop (length data) buf ∧ guest_bytes m w addr data ∧
    ended m addr (lenZ buf) (lenZ data) False (λ _, False) res).
Proof.
  intros Hm Hw Ha Hc. pose proof (usize_le_u64 _ Hc) as Hc64. unfold in_bits in Hc64.
  apply (try_access_wp _ _ _ _ (λ total '(bs, w'), w' = w ∧ ∃ data, lenZ data = total ∧
    bs = data ++ drop (length data) buf ∧ guest_bytes m w addr data)
    (λ res '(bs, w'), _) Hm Ha Hc).
  - intros total [bs w1] r (-> & data & Hd & -> & Hg) Ht Hlt Hin Hcon off n. pose proof Hw as [Hok _].
    pose proof Hcon as [Hlo Hhi]. assert (0 ≤ off < len r) as Hoff by (unfold off; lia).
    assert (lenZ (data ++ drop (length data) buf) = lenZ buf) as Hl by (rewrite length_app, length_drop; lia).
    rewrite index_range_ok by lia. rewrite bind_ret, Hl.
    rewrite drop_app_length', take_ge by (rewrite ?length_drop; lia).
    set (rest := drop (length data) buf) in *.
    assert (lenZ rest = lenZ buf - total) as Hlr by (unfold rest; rewrite length_drop; lia).
    rewrite read_bounded by (by apply Hok || done). rewrite bind_ret.
    replace (Z.min (lenZ rest) (len r - off)) with n by (unfold n; lia).
    set (new := take (Z.to_nat n) (drop (Z.to_nat off) (view w r))).
    pose proof (view_length w r (Hok r Hin)) as Hv.
    assert (lenZ new = n) as Hn by (unfold new; rewrite length_take, length_drop; unfold n; lia).
    rewrite update_range_ok; [|lia|lia|rewrite length_app, length_drop; unfold n in *; lia].
    rewrite bind_ret, take_app_length', (drop_ge (data ++ rest)), app_nil_r by lia.
    assert (data ++ new ++ drop (Z.to_nat n) rest = (data ++ new) ++ drop (length (data ++ new)) buf) as ->.
    { rewrite <-app_assoc, length_app. unfold rest. rewrite drop_drop. do 3 f_equal. lia. }
    assert (guest_bytes m w addr (data ++ new)) as Hg'.
    { unfold new. subst total. apply guest_bytes_more; done || (unfold n; lia). }
    assert (lenZ (data ++ new) = total + n) as Hlen by (rewrite length_app; lia).
    apply wp_ret. split; [unfold n; lia|].
    destruct (Z.eqb_spec n 0) as [E|]; (split; [done|]); exists (data ++ new); split_and!; try done; try lia.
    replace (lenZ (data ++ new)) with total by lia.
    split; [done|]. split; [|left; unfold n in E; lia].
    eapply backed_here; [done|apply Hg|lia|done|by rewrite Hd].
  - intros total [bs w'] (-> & data & <- & -> & Hg) Ht Hend. split; [done|].
    exists data. split_and!; [lia|done|done|]. apply ended_done; [done|apply Hg|lia|done].
  - split; [done|]. exists []. split_and!; [done|done|]. split; intros i Hi; simpl in Hi; lia.
Qed.

(** C5: with regions that stop at their end, [write] and [read] move as many
    bytes as there are backed addresses from [addr] on, across regions and
    across the end of the address space: [write] stores that prefix of the
    buffer and changes nothing else of the guest's memory, [read] replaces
    that part of the buffer and changes nothing; both report how many, and
    fail with [InvalidGuestAddress] exactly when the first address is not
    backed. *)
Theorem memory_access_across m w buf addr :
  memory_ok m → world_ok m w → in_bits 64 (ga_0 addr) → in_bits usize_bits (lenZ buf) →
  (∃ res w' n, memory_write m w buf addr = Ret (res, w') ∧ 0 ≤ n ≤ lenZ buf ∧
    backed_range m addr n ∧ stored m w w' addr (take (Z.to_nat n) buf) ∧
    ended m addr (lenZ buf) n False (λ _, False) res) ∧
  (∃ res data, memory_read m w buf addr = Ret (res, (data ++ drop (length data) buf, w)) ∧
    lenZ data ≤ lenZ buf ∧ guest_bytes m w addr data ∧
    ended m addr (lenZ buf) (lenZ data) False (λ _, False) res).
Proof.
  intros Hm Hw Ha Hc. split.
  - pose proof (memory_write_across_wp m w buf addr Hm Hw Ha Hc) as Hwp.
    apply wp_inv in Hwp as ([res w'] & -> & n & ?). by exists res, w', n.
  - pose proof (memory_read_across_wp m w buf addr Hm Hw Ha Hc) as Hwp.
    apply wp_inv in Hwp as ([res [bs w']] & -> & -> & data & ? & -> & ?). by exists res, data.
Qed.
End across.

(** ** [GuestMemoryMmap] *)
Section mmap.
Context `{Target} `{RemoteSpec W}.
Implicit Types (r : GuestRegionMmap W) (m : GuestMemoryMmap W) (w : W).

(** The host memory of a region and what follows it, as one range. *)
Lemma accessible_past w r off n :
  host_ok w r → 0 ≤ off → region_size r ≤ off + n →
  accessible w (pid r) (mr_addr (mapping r) + region_size r) (off + n - region_size r) →
  accessible w (pid r) (mr_addr (mapping r) + off) n.
Proof.
  intros (_ & _ & _ & _ & [? Hm]) Hoff Hle [_ Hm2]. split; [done|]. intros i Hi.
  destruct (decide (off + i < region_size r)).
  - rewrite <-Z.add_assoc. apply Hm. lia.
  - replace (mr_addr (mapping r) + off + i)
      with (mr_addr (mapping r) + region_size r + (off + i - region_size r)) by lia.
    apply Hm2. lia.
Qed.

(** C33: a [write] to a [GuestMemoryMmap] that goes past the end of a region, when
    the host memory behind the mapping of that region can be accessed, is reported
    as complete, and all of it is stored in the host memory of that region and
    behind it: no region whose mapping lies apart from this range of host memory
    is written, also not one that backs the guest-physical addresses that follow.
    (With mappings that are adjacent in the order of the guest's addresses the
    bytes end up where they belong.) *)
Theorem write_across_misplaced m w r addr buf :
  memory_ok m → r ∈ regions m → host_ok w r → contains r (ga_0 addr) →
  in_bits 64 (ga_0 addr) → in_bits usize_bits (lenZ buf) →
  let off := ga_0 addr - key r in
  let host := mr_addr (mapping r) + off in
  region_size r < off + lenZ buf →
  accessible w (pid r) (mr_addr (mapping r) + region_size r) (off + lenZ buf - region_size r) →
  ∃ w', memory_write m w buf addr = Ret (Ok (lenZ buf), w') ∧
    read_bytes (space w' (pid r)) host (lenZ buf) = Ret buf ∧
    ∀ r', pid r' = pid r → host_ok w r' →
      disjoint_ranges host (lenZ buf) (mr_addr (mapping r')) (region_size r') →
      host_view w' r' = host_view w r'.
Proof.
  intros Hm Hin Hok Hcon Ha Hc off host Hlt Hacc.
  pose proof (host_len w r Hok) as Hlen. pose proof Hcon as [Hlo Hhi].
  assert (0 ≤ off < region_size r) as Hoff by (unfold off, key; lia).
  destruct (process_write_bytes_full w (pid r) host buf) as (w' & Ew & Hs & Hatt).
  { apply accessible_past; [done|lia|lia|done]. }
  exists w'. split_and!.
  - apply (try_access_once m addr (lenZ buf) r host); [apply (placed_ok m w); (done || lia)|].
    intros start l Ep. rewrite index_range_ok, drop_0, Z.sub_0_r, take_ge, bind_ret by lia.
    cbn [write region_bytes_impl GuestRegionMmap_Region GuestRegionMmap_Bytes].
    unfold region_write. by rewrite Ep, bind_ret, Ew.
  - rewrite Hs. apply read_back.
  - intros r' Hp (? & ? & ? & ? & _) Hd. unfold host_view.
    by rewrite Hp, Hs, read_bytes_store_disjoint.
Qed.
End mmap.

(** ** A region that keeps the promise

    [GuestRegionMmap] with the buffer cut to the room behind the address, which
    is what [write] and [read] of the source leave out. *)
Record Clamped `{OS W} := Clamp { unclamped : GuestRegionMmap W }.
Arguments Clamped W {_}.
Arguments Clamp {W _} _.

Section clamped.
Context `{Target} `{RemoteSpec W}.
Implicit Types (self : Clamped W) (w : W) (buf : list byte) (addr : MemoryRegionAddress).

Definition room self addr : nat := Z.to_nat (region_size (unclamped self) - mra_0 addr).

Definition clamped_write self w buf addr : outcome (gresult Z * W) :=
  region_write (unclamped self) w (take (room self addr) buf) addr.
Definition clamped_read self w buf addr : outcome (gresult Z * (list byte * W)) :=
  '(r, (piece, w)) ← region_read (unclamped self) w (take (room self addr) buf) addr;
  Ret (r, (piece ++ drop (room self addr) buf, w)).

#[export] Instance Clamped_Bytes : Bytes (Clamped W) MemoryRegionAddress GuestError W := {|
  write := clamped_write;
  read := clamped_read;
  write_slice self := region_write_slice (unclamped self);
  read_slice self := region_read_slice (unclamped self);
  read_from := λ F _ self, region_read_from (unclamped self);
  read_exact_from := λ F _ self, region_read_exact_from (unclamped self);
  write_to := λ F _ self, region_write_to (unclamped self);
  write_all_to := λ F _ self, region_write_all_to (unclamped self);
  store := λ T _ _ self, region_store (unclamped self);
  load := λ T _ _ self, region_load T (unclamped self)
|}.
#[export] Instance Clamped_Region : GuestMemoryRegion (Clamped W) W := {|
  region_bytes_impl := Clamped_Bytes;
  len self := region_len (unclamped self);
  start_addr self := guest_base (unclamped self);
  get_host_address self := region_get_host_address (unclamped self);
  file_offset self := mr_file_offset (mapping (unclamped self));
  region_as_slice _ _ := None;
  region_as_mut_slice _ _ := None;
  region_get_slice _ _ _ := Panic;
  is_hugetlbfs self := mr_hugetlbfs (mapping (unclamped self))
|}.

Lemma clamped_write_ok w self off buf :
  host_ok w (unclamped self) → 0 ≤ off < region_size (unclamped self) →
  let n := Z.min (lenZ buf) (region_size (unclamped self) - off) in
  ∃ w', clamped_write self w buf (RegionAddr off) = Ret (Ok n, w') ∧
    replaced w w' (unclamped self)
      (list_inserts (Z.to_nat off) (take (Z.to_nat n) buf) (host_view w (unclamped self))).
Proof.
  intros Hok Hoff n. unfold clamped_write, room. cbn [mra_0].
  set (piece := take _ buf). assert (piece = take (Z.to_nat n) buf) as Ep.
  { unfold piece, n. destruct (decide (lenZ buf ≤ region_size (unclamped self) - off)).
    - rewrite !take_ge by lia. done.
    - f_equal. lia. }
  assert (lenZ piece = n) as Hl by (rewrite Ep, length_take; unfold n; lia).
  pose proof (write_fits w (unclamped self) off piece Hok) as Hw.
  change (len (unclamped self)) with (region_len (unclamped self)) in Hw.
  change (write (unclamped self) w piece (RegionAddr off))
    with (region_write (unclamped self) w piece (RegionAddr off)) in Hw.
  pose proof (host_len w _ Hok) as El. change (len (unclamped self)) with (region_len (unclamped self)) in El.
  rewrite El in Hw. destruct Hw as (w' & E & Hr); [done|unfold n in Hl; lia|].
  exists w'. rewrite E, Hl. split; [done|]. by rewrite <-Ep.
Qed.
Lemma clamped_read_ok w self off buf :
  host_ok w (unclamped self) → 0 ≤ off < region_size (unclamped self) →
  let n := Z.min (lenZ buf) (region_size (unclamped self) - off) in
  clamped_read self w buf (RegionAddr off) = Ret (Ok n,
    (take (Z.to_nat n) (drop (Z.to_nat off) (host_view w (unclamped self))) ++ drop (Z.to_nat n) buf, w)).
Proof.
  intros Hok Hoff n. unfold clamped_read, room. cbn [mra_0].
  set (k := Z.to_nat (region_size (unclamped self) - off)).
  assert (lenZ (take k buf) = n) as Hl by (rewrite length_take; unfold k, n; lia).
  assert (drop k buf = drop (Z.to_nat n) buf) as ->.
  { destruct (decide (lenZ buf ≤ region_size (unclamped self) - off)).
    - rewrite !drop_ge by (unfold k, n; lia). done.
    - f_equal. unfold k, n. lia. }
  pose proof (read_fits w (unclamped self) off (take k buf) Hok) as Hr.
  change (len (unclamped self)) with (region_len (unclamped self)) in Hr.
  change (read (unclamped self) w (take k buf) (RegionAddr off))
    with (region_read (unclamped self) w (take k buf) (RegionAddr off)) in Hr.
  pose proof (host_len w _ Hok) as El. change (len (unclamped self)) with (region_len (unclamped self)) in El.
  rewrite El in Hr. rewrite Hr; [|done|unfold n in Hl; lia]. rewrite bind_ret, Hl.
  do 5 f_equal. lia.
Qed.

#[export] Instance Clamped_Spec : RegionSpec (Clamped W) W.
Proof.
  refine {| region_ok w self := host_ok w (unclamped self);
    view w self := host_view w (unclamped self);
    separate self other := host_separate (unclamped self) (unclamped other) |}; try done.
  - intros w r Hok. change (len r) with (len (unclamped r)). exact (view_length w (unclamped r) Hok).
  - intros w r off buf Hok. change (len r) with (len (unclamped r)). rewrite (host_len w) by done.
    intros Hoff Hle. destruct (clamped_write_ok w r off buf Hok Hoff) as (w' & E & ? & ? & Hsep).
    rewrite Z.min_l in * by lia. rewrite Nat2Z.id, take_ge in * by lia.
    exists w'. split; [done|]. split_and!; [done..|]. intros r'. exact (Hsep (unclamped r')).
  - intros w r off buf Hok. change (len r) with (len (unclamped r)). rewrite (host_len w) by done.
    intros Hoff Hle. pose proof (clamped_read_ok w r off buf Hok Hoff) as E. cbn zeta in E.
    rewrite Z.min_l in E by lia. rewrite Nat2Z.id, (drop_ge buf), app_nil_r in E by lia. exact E.
Defined.

#[export] Instance Clamped_Bounded : BoundedRegionSpec (Clamped W) W.
Proof.
  constructor.
  - intros w r off buf Hok. change (len r) with (len (unclamped r)). rewrite (host_len w) by done.
    intros Hoff. destruct (clamped_write_ok w r off buf Hok Hoff) as (w' & E & ? & ? & Hsep).
    exists w'. split; [done|]. split_and!; [done..|]. intros r'. exact (Hsep (unclamped r')).
  - intros w r off buf Hok. change (len r) with (len (unclamped r)). rewrite (host_len w) by done.
    intros Hoff. exact (clamped_read_ok w r off buf Hok Hoff).
Qed.
End clamped.

(** ** A memory that is a list of regions *)
Section list_memory.
Context `{GuestMemoryRegion R W}.

#[export] Instance list_memory : GuestMemory (list R) := {|
  num_regions m := lenZ m;
  find_region m a := Ret (snd <$> list_find (λ r, contains r (ga_0 a)) m);
  iter m := m
|}.
#[export] Instance list_memory_spec : GuestMemorySpec (list R).
Proof.
  refine {| memory_ok (m : list R) :=
    (∀ r, r ∈ m → 0 ≤ ga_0 (start_addr r) ∧ 0 < len r < 2 ^ 64 ∧ ga_0 (start_addr r) + len r ≤ 2 ^ 64) ∧
    (∀ r r' a, r ∈ m → r' ∈ m → contains r a → contains r' a → r = r') |}.
  - intros m r [Hb _]. apply Hb.
  - intros m r r' a [_ Hu]. apply Hu.
  - intros m a _ _. eexists. split; [done|].
    destruct (list_find (λ r, contains r (ga_0 a)) m) as [[i r]|] eqn:E; simpl.
    + apply list_find_Some in E as (Hi & Hc & _). by apply list_elem_of_lookup_2 in Hi.
    + intros r Hr. by apply (list_find_absent _ _ _ E).
Defined.
End list_memory.
