(* ===== verification/Refine.v ===== *)
(** * An abstract guest memory, and its refinement by [GuestMemoryMmap]

    What a client sees of a guest memory: the ranges of guest-physical addresses
    that exist, and a byte at each address.  The operations of the client are
    steps of this abstract machine.  [exec] runs the same operations on a
    [GuestMemoryMmap] ([src/src/mmap.rs]) through the traits of
    [src/src/guest_memory.rs]; the theorem is that every run of it is a run of
    the abstract machine, whatever the operating system does within its
    contract. *)

From stdpp Require Import sorting.
From S2P Require Import Prelude Memory Address PlainData AtomicIntegers Bytes CopySlice Volatile Os RemoteMem GuestMemory MmapUnix Mmap.

(** ** The abstract machine *)
Record guest := Guest {
  g_ranges : gmap Z Z;  (** the base of each range, with its size *)
  g_ram : mem           (** the byte at each guest-physical address *)
}.

(** The operations, with a reader of type [F] and a writer of type [G]. *)
Inductive op `{OS W} {F G : Type} :=
| OWrite (addr : Z) (buf : list byte)
| ORead (addr : Z) (buf : list byte)
| OReadFrom (addr : Z) (src : F) (count : Z)
| OWriteTo (addr : Z) (dst : G) (count : Z)
| OCheckRange (base n : Z)
| OToRegionAddr (addr : Z)
| OInsert (region : GuestRegionMmap W)
| ORemove (base size : Z).
Arguments op W {_} F G.

(** What an operation returns to the client. *)
Inductive obs {F G : Type} :=
| BWrite (r : gresult unit)
| BRead (r : gresult unit) (buf : list byte)
| BReadFrom (r : gresult Z) (src : F)
| BWriteTo (r : gresult Z) (dst : G)
| BCheckRange (b : bool)
| BToRegionAddr (o : option (Z * Z))  (** the base of the region, and the offset *)
| BInsert (r : result unit MmapError)
| BRemove (r : result unit MmapError).
Arguments obs : clear implicits.

Section abstract.
Context `{Target} `{OS W} `{ReadSpec F} `{WriteSpec G}.
Implicit Types (g : guest).

(** The [n] addresses from [a] on lie in one range. *)
Definition within g (a n : Z) : Prop :=
  ∃ b k, g_ranges g !! b = Some k ∧ b ≤ a < b + k ∧ a + n ≤ b + k.
Definition present g (a : Z) : Prop := is_Some (g_ram g !! a).

(** The result of a transfer of [n] bytes out of [count]. *)
Definition transfer_result g (a count n : Z) (exhausted : Prop) (failed : io_error → Prop)
    (r : gresult Z) : Prop :=
  match r with
  | Ok k => k = n ∧ present g a ∧ (n = count ∨ exhausted ∨ ¬ present g (a + n))
  | Err (InvalidGuestAddress addr) => addr = GuestAddr a ∧ n = 0 ∧ ¬ present g a
  | Err (GIOError io) => failed io ∧ present g a
  | Err _ => False
  end.

Inductive g_step g : op W F G → obs F G → guest → Prop :=
| g_write a buf :
    within g a (lenZ buf) →
    g_step g (OWrite a buf) (BWrite (Ok tt)) (Guest (g_ranges g) (store_list (g_ram g) a buf))
| g_read a buf bs :
    within g a (lenZ buf) → read_bytes (g_ram g) a (lenZ buf) = Ret bs →
    g_step g (ORead a buf) (BRead (Ok tt) bs) g
| g_read_from a src count r src' n :
    0 ≤ n ≤ count → n ≤ lenZ (stream src) → mapped (g_ram g) a n →
    stream src' = drop (Z.to_nat n) (stream src) →
    transfer_result g a count n (stream src' = []) (λ io, reader_failed io src') r →
    g_step g (OReadFrom a src count) (BReadFrom r src')
      (Guest (g_ranges g) (store_list (g_ram g) a (take (Z.to_nat n) (stream src))))
| g_write_to a dst count r dst' bs :
    lenZ bs ≤ count → read_bytes (g_ram g) a (lenZ bs) = Ret bs →
    written dst' = written dst ++ bs →
    transfer_result g a count (lenZ bs) False (λ io, writer_failed io dst' ∨ writer_full io dst') r →
    g_step g (OWriteTo a dst count) (BWriteTo r dst') g
| g_check_range a n b :
    (b = true ↔ present g a ∧ mapped (g_ram g) a n) →
    g_step g (OCheckRange a n) (BCheckRange b) g
| g_to_region_addr_some a b k :
    g_ranges g !! b = Some k → b ≤ a < b + k →
    g_step g (OToRegionAddr a) (BToRegionAddr (Some (b, a - b))) g
| g_to_region_addr_none a :
    ¬ present g a → g_step g (OToRegionAddr a) (BToRegionAddr None) g
| g_insert region bs :
    (∀ b k, g_ranges g !! b = Some k → disjoint_ranges (key region) (region_size region) b k) →
    lenZ bs = region_size region →
    g_step g (OInsert region) (BInsert (Ok tt))
      (Guest (<[key region := region_size region]> (g_ranges g)) (store_list (g_ram g) (key region) bs))
| g_insert_overlap region b k :
    g_ranges g !! b = Some k → ¬ disjoint_ranges (key region) (region_size region) b k →
    g_step g (OInsert region) (BInsert (Err MemoryRegionOverlap)) g
| g_remove b k :
    g_ranges g !! b = Some k →
    g_step g (ORemove b k) (BRemove (Ok tt))
      (Guest (delete b (g_ranges g)) (filter (λ '(a, _), ¬ b ≤ a < b + k) (g_ram g)))
| g_remove_absent b k :
    g_ranges g !! b ≠ Some k → g_step g (ORemove b k) (BRemove (Err InvalidGuestRegion)) g.

Inductive g_steps : guest → list (op W F G) → list (obs F G) → guest → Prop :=
| g_steps_nil g : g_steps g [] [] g
| g_steps_cons g o b g' os bs g'' :
    g_step g o b g' → g_steps g' os bs g'' → g_steps g (o :: os) (b :: bs) g''.
End abstract.

(** ** The concrete machine *)
Section concrete.
Context `{Target} `{OS W} `{ReadSpec F} `{WriteSpec G}.

Definition state : Type := GuestMemoryMmap W * W.
Implicit Types (s : state) (o : op W F G).

Definition exec o s : outcome (obs F G * state) :=
  let '(m, w) := s in
  match o with
  | OWrite a buf => '(r, w) ← write_slice m w buf (GuestAddr a); Ret (BWrite r, (m, w))
  | ORead a buf => '(r, (buf, w)) ← read_slice m w buf (GuestAddr a); Ret (BRead r buf, (m, w))
  | OReadFrom a src count =>
      '(r, (src, w)) ← read_from m w (GuestAddr a) src count; Ret (BReadFrom r src, (m, w))
  | OWriteTo a dst count =>
      '(r, (dst, w)) ← write_to m w (GuestAddr a) dst count; Ret (BWriteTo r dst, (m, w))
  | OCheckRange a n => b ← check_range m (GuestAddr a) n; Ret (BCheckRange b, (m, w))
  | OToRegionAddr a =>
      x ← to_region_addr m (GuestAddr a);
      Ret (BToRegionAddr ((λ '(r, off), (key r, mra_0 off)) <$> x), (m, w))
  | OInsert region =>
      x ← insert_region m region;
      Ret (match x with Ok m' => (BInsert (Ok tt), (m', w)) | Err e => (BInsert (Err e), (m, w)) end)
  | ORemove b k =>
      x ← remove_region m (GuestAddr b) k;
      Ret (match x with Ok (m', _) => (BRemove (Ok tt), (m', w)) | Err e => (BRemove (Err e), (m, w)) end)
  end.

Fixpoint exec_all (os : list (op W F G)) s : outcome (list (obs F G) * state) :=
  match os with
  | [] => Ret ([], s)
  | o :: os => '(b, s) ← exec o s; '(bs, s) ← exec_all os s; Ret (b :: bs, s)
  end.
End concrete.
Arguments state W {_}.

(** ** The simulation *)
Section simulation.
Context `{Target} `{RemoteSpec W} `{ReadSpec F} `{WriteSpec G}.
Implicit Types (m : GuestMemoryMmap W) (w : W) (g : guest) (r : GuestRegionMmap W) (a b k n : Z).

(** The ranges are those of the regions, the bytes those of the guest. *)
Definition sim (s : state W) g : Prop :=
  let '(m, w) := s in
  regions_ok (regions m) ∧ world_ok m w ∧
  (∀ b k, g_ranges g !! b = Some k ↔ ∃ r, r ∈ regions m ∧ key r = b ∧ region_size r = k) ∧
  (∀ a, g_ram g !! a = guest_byte m w a).

(** What the client owes: addresses and counts are values of their types,
    [write] and [read] stay within a region, readers and writers are
    interrupted finitely often, and a region that is inserted is accessible and
    shares no host memory with the others. *)
Definition allowed (s : state W) (o : op W F G) : Prop :=
  let '(m, w) := s in
  match o with
  | OWrite a buf | ORead a buf =>
      in_bits 64 a ∧ in_bits usize_bits (lenZ buf) ∧ ∃ r, fits m r (GuestAddr a) (lenZ buf)
  | OReadFrom a src count => in_bits 64 a ∧ in_bits usize_bits count ∧ read_pending src < 2 ^ 64
  | OWriteTo a dst count =>
      in_bits 64 a ∧ in_bits usize_bits count ∧ count + write_pending dst < 2 ^ 64
  | OCheckRange a n => in_bits 64 a ∧ in_bits usize_bits n
  | OToRegionAddr a => in_bits 64 a
  | OInsert r => region_wf r ∧ host_ok w r ∧ ∀ r', r' ∈ regions m → host_separate r r'
  | ORemove _ _ => True
  end.

Inductive legal : state W → list (op W F G) → Prop :=
| legal_nil s : legal s []
| legal_cons s o os :
    allowed s o → (∀ x s', exec o s = Ret (x, s') → legal s' os) → legal s (o :: os).

Lemma backed_lt m a : regions_ok (regions m) → backed m a → 0 ≤ a < 2 ^ 64 - 1.
Proof.
  intros Hok (r & Hr & Hc). pose proof (regions_wf_in _ r Hok Hr) as Hwf.
  rewrite contains_eq in Hc by done. destruct Hwf as (? & ? & ? & ?). lia.
Qed.
Lemma backed_present m w g a : sim (m, w) g → backed m a ↔ present g a.
Proof.
  intros (Hok & [Hw _] & _ & Hram). unfold present. rewrite Hram. split.
  - intros (r & Hr & Hc). rewrite (guest_byte_in m w r) by done. apply lookup_lt_is_Some.
    pose proof (view_length w r (Hw r Hr)). destruct Hc as [??]. lia.
  - intros [x Hx]. destruct (decide (Exists (λ r, contains r a) (regions m))) as [He|Hn].
    + apply Exists_exists in He as (r & Hr & Hc). exists r. by rewrite <-list_elem_of_In in Hr.
    + rewrite guest_byte_out in Hx; [done|]. intros (r & Hr & Hc). destruct Hn.
      apply Exists_exists. exists r. by rewrite <-list_elem_of_In.
Qed.
(** The ring is never passed, as its last address is never backed. *)
Lemma backed_ring m a n i :
  regions_ok (regions m) → in_bits 64 a → backed_range m (GuestAddr a) n → 0 ≤ i ≤ n →
  ring (GuestAddr a) i = a + i ∧ a + i < 2 ^ 64.
Proof.
  intros Hok [Ha Ha'] Hb Hi. destruct (decide (a + i < 2 ^ 64)) as [|Hge].
  - split; [|done]. unfold ring. cbn [ga_0]. apply wrap_small. unfold in_bits. lia.
  - exfalso. specialize (Hb (2 ^ 64 - 1 - a) ltac:(lia)).
    replace (ring (GuestAddr a) (2 ^ 64 - 1 - a)) with (2 ^ 64 - 1) in Hb.
    + apply backed_lt in Hb; [lia|done].
    + unfold ring. cbn [ga_0]. rewrite wrap_small; [lia|]. unfold in_bits. lia.
Qed.
Lemma backed_mapped m w g a n :
  sim (m, w) g → in_bits 64 a → backed_range m (GuestAddr a) n ↔ mapped (g_ram g) a n.
Proof.
  intros Hs Ha. pose proof Hs as (Hok & _). split.
  - intros Hb i Hi. destruct (backed_ring m a n i Hok Ha Hb ltac:(lia)) as [<- _].
    apply (backed_present m w g); [done|]. by apply Hb.
  - intros Hm i Hi. specialize (Hm i Hi). apply (backed_present m w g) in Hm; [|done].
    pose proof (backed_lt m _ Hok Hm). unfold in_bits in Ha.
    unfold ring. cbn [ga_0]. rewrite wrap_small; [done|]. unfold in_bits. lia.
Qed.

(** A store by the concrete machine is a store to the abstract memory. *)
Lemma sim_stored m w w' g a bs :
  sim (m, w) g → in_bits 64 a → stored m w w' (GuestAddr a) bs → backed_range m (GuestAddr a) (lenZ bs) →
  sim (m, w') (Guest (g_ranges g) (store_list (g_ram g) a bs)).
Proof.
  intros (Hok & Hw & Hr & Hram) Ha [Hw' Hst] Hb. split_and!; [done..|]. cbn [g_ram].
  destruct (backed_ring m a _ (lenZ bs) Hok Ha Hb ltac:(lia)) as [_ Hlt]. unfold in_bits in Ha.
  intros x. rewrite lookup_store_list. destruct (decide (in_bits 64 x)) as [Hx|Hx].
  - rewrite Hst, <-Hram by done. cbn [ga_0]. cbn zeta. unfold in_bits in Hx.
    destruct (decide (a ≤ x < a + lenZ bs)) as [Hin|Hout].
    + rewrite wrap_small by (unfold in_bits; lia). by rewrite decide_True by lia.
    + rewrite decide_False; [done|]. destruct (decide (a ≤ x)).
      * rewrite wrap_small by (unfold in_bits; lia). lia.
      * assert (wrap 64 (x - a) = x - a + 2 ^ 64) as ->; [|lia].
        rewrite <-(wrap_small 64 (x - a + 2 ^ 64)) by (unfold in_bits; lia).
        unfold wrap. rewrite <-Zplus_mod_idemp_r, Z_mod_same_full, Z.add_0_r. done.
  - assert (∀ v, guest_byte m v x = None) as Hnone.
    { intros v. apply guest_byte_out. intros Hbx%backed_lt; [|done]. unfold in_bits in Hx. lia. }
    unfold in_bits in Hx. rewrite decide_False by lia. by rewrite Hram, !Hnone.
Qed.
Lemma sim_guest_bytes m w g a bs :
  sim (m, w) g → in_bits 64 a → guest_bytes m w (GuestAddr a) bs →
  read_bytes (g_ram g) a (lenZ bs) = Ret bs.
Proof.
  intros Hs Ha [Hb Hbs]. pose proof Hs as (Hok & _ & _ & Hram).
  apply read_bytes_Ret; [lia|]. split; [done|]. intros i Hi. rewrite Hram, <-Hbs by done.
  by destruct (backed_ring m a _ i Hok Ha Hb ltac:(lia)) as [-> _].
Qed.

Lemma fits_within m w g r a n :
  sim (m, w) g → fits m r (GuestAddr a) n → within g a n.
Proof.
  intros (Hok & _ & Hr & _) (Hin & Hc & Hle). pose proof (regions_wf_in _ r Hok Hin) as Hwf.
  rewrite contains_eq in Hc by done. rewrite region_len_ok in Hle by done.
  exists (key r), (region_size r). split; [apply Hr; eauto|]. by split.
Qed.

(** What [try_access] reports, in terms of the abstract memory. *)
Lemma sim_ended m w g a count n (exhausted : Prop) failed res :
  sim (m, w) g → in_bits 64 a → 0 ≤ n → backed_range m (GuestAddr a) n →
  ended m (GuestAddr a) count n exhausted failed res → transfer_result g a count n exhausted failed res.
Proof.
  intros Hs Ha Hn Hb. pose proof Hs as (Hok & _). destruct res as [k|[]]; simpl; try done.
  - rewrite !(backed_present m w g) by done.
    destruct (backed_ring m a n n Hok Ha Hb ltac:(lia)) as [-> _]. done.
  - by rewrite (backed_present m w g).
  - by rewrite (backed_present m w g).
Qed.

(** A byte depends on the regions that contain its address only. *)
Lemma guest_byte_same m m' w a :
  regions_ok (regions m) → regions_ok (regions m') →
  (∀ r, contains r a → r ∈ regions m ↔ r ∈ regions m') → guest_byte m w a = guest_byte m' w a.
Proof.
  intros Hok Hok' Hiff. destruct (decide (Exists (λ x, contains x a) (regions m))) as [He|Hn].
  - apply Exists_exists in He as (x & Hx & Hc). rewrite <-list_elem_of_In in Hx.
    rewrite (guest_byte_in m w x), (guest_byte_in m' w x); try done. by apply (Hiff x Hc).
  - rewrite !guest_byte_out; [done|..]; intros (x & Hx & Hc); apply Hn, Exists_exists; exists x;
      rewrite <-list_elem_of_In; split; try done. by apply (Hiff x Hc).
Qed.

Lemma sim_insert m w g r m' :
  sim (m, w) g → region_wf r → host_ok w r → (∀ r', r' ∈ regions m → host_separate r r') →
  regions_ok (regions m') → regions m' ≡ₚ r :: regions m →
  sim (m', w) (Guest (<[key r := region_size r]> (g_ranges g)) (store_list (g_ram g) (key r) (host_view w r))).
Proof.
  intros (Hok & [Hw Hsep] & Hr & Hram) Hwf Hh Hs Hok' Hp.
  assert (∀ r', r' ∈ iter m' ↔ r' = r ∨ r' ∈ regions m) as Hin.
  { intros r'. simpl. by rewrite Hp, elem_of_cons. }
  assert (∀ x y, host_separate x y → host_separate y x) as Hsym.
  { intros x y [? ?]. split; [done|]. unfold disjoint_ranges in *. lia. }
  assert (∀ r', r' ∈ regions m → key r' ≠ key r) as Hkey.
  { intros r' Hr'. assert (StronglySorted (λ x y, key x ≠ key y) (r :: regions m)) as Hne.
    { apply (pairwise_perm _ (regions m')); [done|done|]. eapply sorted_mono; [|apply Hok'].
      intros i j x y Hx Hy Hlt _. pose proof (keys_sorted _ _ _ x y Hok' Hx Hy Hlt). lia. }
    apply StronglySorted_cons in Hne as [Hne _]. rewrite Forall_elem in Hne. by apply not_eq_sym, Hne. }
  split_and!; [done|..].
  - split; [intros r' [->|?]%Hin; [done|by apply Hw]|].
    intros x y [->|Hx]%Hin [->|Hy]%Hin Hne; [done|by apply Hs|by apply Hsym, Hs|by apply Hsep].
  - intros b k. cbn [g_ranges]. rewrite lookup_insert. case_decide as Hb.
    + split; [intros [= <-]; exists r; by rewrite Hin; auto|].
      intros (r' & [->|Hr']%Hin & Hkb & <-); [done|]. by destruct (Hkey r' Hr'); congruence.
    + rewrite Hr. split; intros (r' & Hr' & Hkb & Hsz); exists r'; rewrite Hin in *; split_and!; auto.
      destruct Hr' as [->|]; congruence.
  - intros a. cbn [g_ram]. rewrite lookup_store_list.
    destruct (host_view_read w r Hh) as [_ Hl]. rewrite Hl.
    destruct (decide (key r ≤ a < key r + region_size r)) as [Hc|Hc].
    + rewrite (guest_byte_in m' w r); [done|done|apply Hin; by left|by apply contains_eq].
    + rewrite Hram. apply guest_byte_same; [done..|]. intros x Hx. rewrite Hin.
      split; [by right|]. intros [->|?]; [|done]. by destruct Hc; apply contains_eq.
Qed.

Lemma sim_remove m w g r m' :
  sim (m, w) g → regions_ok (regions m') → regions m ≡ₚ r :: regions m' →
  sim (m', w) (Guest (delete (key r) (g_ranges g))
    (filter (λ '(a, _), ¬ key r ≤ a < key r + region_size r) (g_ram g))).
Proof.
  intros (Hok & [Hw Hsep] & Hr & Hram) Hok' Hp.
  assert (∀ r', r' ∈ regions m ↔ r' = r ∨ r' ∈ regions m') as Hin.
  { intros r'. simpl. by rewrite Hp, elem_of_cons. }
  assert (region_wf r) as Hwf by (apply (regions_wf_in (regions m)); [done|apply Hin; by left]).
  assert (∀ r' a, r' ∈ regions m' → contains r' a → ¬ contains r a) as Hdis.
  { intros r' a Hr' Hc' Hc. assert (StronglySorted (λ x y, ∀ a, contains x a → ¬ contains y a) (r :: regions m')) as Hss.
    { apply (pairwise_perm _ (regions m)); [by intros x y Hxy z Hy Hx; apply (Hxy z)|done|].
      eapply sorted_mono; [|apply Hok].
      intros i j x y Hx Hy Hlt Hb z Hzx Hzy.
      rewrite contains_eq in Hzx by (by apply (regions_wf _ i x Hok)).
      rewrite contains_eq in Hzy by (by apply (regions_wf _ j y Hok)). unfold before in Hb. lia. }
    apply StronglySorted_cons in Hss as [Hss _]. rewrite Forall_elem in Hss. by apply (Hss r' Hr' a). }
  assert (∀ r', r' ∈ regions m' → key r' ≠ key r) as Hkey.
  { intros r' Hr' E. pose proof (regions_wf_in _ r' Hok' Hr') as Hwf'.
    pose proof Hwf as (_ & ? & _). pose proof Hwf' as (_ & ? & _).
    apply (Hdis r' (key r')); [done|apply contains_eq; [done|lia]..]. }
  split_and!; [done|..].
  - split; [intros r' ?; apply Hw, Hin; by right|].
    intros x y Hx Hy Hne. apply Hsep; [apply Hin; by right..|done].
  - intros b k. cbn [g_ranges]. rewrite lookup_delete. case_decide as Hb.
    + split; [done|]. intros (r' & Hr' & Hkb & _). destruct (Hkey r' Hr'). congruence.
    + rewrite Hr. split; intros (r' & Hr' & Hkb & Hsz); exists r'; rewrite Hin in *; split_and!; auto.
      destruct Hr' as [->|]; congruence.
  - intros a. cbn [g_ram]. destruct (decide (key r ≤ a < key r + region_size r)) as [Hc|Hc].
    + rewrite guest_byte_out; [apply map_lookup_filter_None; right; by intros v _ Hn; apply Hn|].
      intros (x & Hx & Hcx). apply (Hdis x a); [done..|]. by apply contains_eq.
    + transitivity (g_ram g !! a).
      { destruct (g_ram g !! a) as [v|] eqn:E; [by apply map_lookup_filter_Some|].
        apply map_lookup_filter_None. by left. }
      rewrite Hram. apply guest_byte_same; [done..|]. intros x Hx. rewrite Hin.
      split; [|by right]. intros [->|?]; [|done]. by destruct Hc; apply contains_eq.
Qed.

Lemma sim_write m w g a buf :
  sim (m, w) g → allowed (m, w) (OWrite a buf) → ∃ x s' g',
    exec (OWrite a buf) (m, w) = Ret (x, s') ∧ g_step g (OWrite a buf) x g' ∧ sim s' g'.
Proof.
  intros Hs (Ha & Hl & r & Hf). pose proof Hs as (Hok & Hw & _).
  destruct (memory_write_spec m w r buf (GuestAddr a)) as (w' & E & Hst); [done..|].
  eexists _, (m, w'), _. split_and!; [|apply g_write; by eapply fits_within|].
  - cbn [exec write_slice memory_bytes]. unfold memory_write_slice. rewrite E, bind_ret. simpl.
    by rewrite Z.eqb_refl.
  - eapply sim_stored; [done|done|done|]. by eapply fits_backed.
Qed.
Lemma sim_read m w g a buf :
  sim (m, w) g → allowed (m, w) (ORead a buf) → ∃ x s' g',
    exec (ORead a buf) (m, w) = Ret (x, s') ∧ g_step g (ORead a buf) x g' ∧ sim s' g'.
Proof.
  intros Hs (Ha & Hl & r & Hf). pose proof Hs as (Hok & Hw & _).
  destruct (memory_read_spec m w r buf (GuestAddr a)) as (bs & E & Hlen & Hg); [done..|].
  exists (BRead (Ok tt) bs), (m, w), g. split_and!; [|apply g_read; [by eapply fits_within|]|done].
  - cbn [exec read_slice memory_bytes]. unfold memory_read_slice. rewrite E, bind_ret. simpl.
    by rewrite Z.eqb_refl.
  - rewrite <-Hlen. by eapply sim_guest_bytes.
Qed.
Lemma sim_read_from m w g a src count :
  sim (m, w) g → allowed (m, w) (OReadFrom a src count) → ∃ x s' g',
    exec (OReadFrom a src count) (m, w) = Ret (x, s') ∧ g_step g (OReadFrom a src count) x g' ∧ sim s' g'.
Proof.
  intros Hs (Ha & Hc & Hp). pose proof Hs as (Hok & Hw & _).
  destruct (memory_read_from_ok m w (GuestAddr a) src count)
    as (res & src' & w' & n & E & Hn & (Hn' & Hb & Hst & Hsrc) & Hend); [done..|].
  exists (BReadFrom res src'), (m, w'), (Guest (g_ranges g) (store_list (g_ram g) a (take (Z.to_nat n) (stream src)))).
  assert (lenZ (take (Z.to_nat n) (stream src)) = n) as Hlen by (rewrite length_take; lia).
  split_and!; [|apply g_read_from; [lia|lia|by eapply backed_mapped|done|]|].
  - cbn [exec read_from memory_bytes]. by rewrite E.
  - eapply sim_ended; [done|done|lia|done|done].
  - eapply sim_stored; [done|done|done|]. by rewrite Hlen.
Qed.
Lemma sim_write_to m w g a dst count :
  sim (m, w) g → allowed (m, w) (OWriteTo a dst count) → ∃ x s' g',
    exec (OWriteTo a dst count) (m, w) = Ret (x, s') ∧ g_step g (OWriteTo a dst count) x g' ∧ sim s' g'.
Proof.
  intros Hs (Ha & Hc & Hp). pose proof Hs as (Hok & Hw & _).
  destruct (memory_write_to_ok m w (GuestAddr a) dst count)
    as (res & dst' & bs & E & Hn & Hg & Hdst & Hend); [done..|].
  exists (BWriteTo res dst'), (m, w), g. split_and!; [|apply (g_write_to _ _ _ _ _ _ bs)|done].
  - cbn [exec write_to memory_bytes]. by rewrite E.
  - done.
  - by eapply sim_guest_bytes.
  - done.
  - eapply sim_ended; [done|done|lia|apply Hg|].
    destruct res as [k|[]]; simpl in *; try done. destruct Hend as (? & ? & Hor). split_and!; [done..|].
    destruct Hor as [?|[(r & _ & [? ?])|?]]; [by left|done|by right; right].
Qed.
Lemma sim_query m w g o :
  sim (m, w) g → allowed (m, w) o →
  match o with OCheckRange _ _ | OToRegionAddr _ => True | _ => False end →
  ∃ x s' g', exec o (m, w) = Ret (x, s') ∧ g_step g o x g' ∧ sim s' g'.
Proof.
  intros Hs Hal Ho. pose proof Hs as (Hok & Hw & Hr & _). destruct o as [| | | |a n|a| |]; try done.
  - destruct Hal as [Ha Hn].
    destruct (check_range_ok m (GuestAddr a) n) as (b & E & Hb); [done..|].
    exists (BCheckRange b), (m, w), g. split_and!; [cbn [exec]; by rewrite E|constructor|done].
    rewrite Hb. cbn [ga_0]. by rewrite (backed_present m w g), (backed_mapped m w g).
  - destruct (to_region_addr_ok m (GuestAddr a)) as (x & E & Hx); [done..|].
    eexists _, (m, w), g. split_and!; [cbn [exec]; by rewrite E|..|done].
    destruct x as [[r off]|]; simpl.
    + destruct Hx as (Hin & Hc & ->). pose proof (regions_wf_in _ r Hok Hin) as Hwf.
      rewrite contains_eq in Hc by done. simpl in Hc.
      apply (g_to_region_addr_some _ _ _ (region_size r)); [apply Hr; eauto|done].
    + apply g_to_region_addr_none. by rewrite <-(backed_present m w g).
Qed.
Lemma sim_update m w g o :
  sim (m, w) g → allowed (m, w) o →
  match o with OInsert _ | ORemove _ _ => True | _ => False end →
  ∃ x s' g', exec o (m, w) = Ret (x, s') ∧ g_step g o x g' ∧ sim s' g'.
Proof.
  intros Hs Hal Ho. pose proof Hs as (Hok & Hw & Hr & _). destruct o as [| | | | | |r|b k]; try done.
  - destruct Hal as (Hwf & Hh & Hsep).
    destruct (insert_region_ok m r Hok Hwf) as (res & E & Hres). destruct res as [m'|e].
    + destruct Hres as (Hok' & Hp & _ & Hap).
      eexists _, (m', w), _. split_and!; [cbn [exec]; by rewrite E|apply (g_insert _ _ (host_view w r))|].
      * intros b k (r' & Hin & <- & <-)%Hr. specialize (Hap r' Hin).
        unfold apart, before, disjoint_ranges in *. lia.
      * by apply host_view_read.
      * by apply (sim_insert m).
    + destruct Hres as (-> & r' & Hin & Hn).
      eexists _, (m, w), g. split_and!; [cbn [exec]; by rewrite E| |done].
      apply (g_insert_overlap _ _ (key r') (region_size r')); [apply Hr; eauto|].
      intros Hd. apply Hn. unfold apart, before, disjoint_ranges in *. lia.
  - destruct (remove_region_ok m (GuestAddr b) k Hok) as (res & E & Hres). destruct res as [[m' r]|e].
    + destruct Hres as (i & Hi & Hd & _ & Hb & <-). assert (key r = b) as <- by (unfold key; simpl; by rewrite Hb).
      eexists _, (m', w), _. split_and!; [cbn [exec]; by rewrite E|apply g_remove|].
      * apply Hr. exists r. split; [by eapply list_elem_of_lookup_2|done].
      * apply (sim_remove m); [done|rewrite Hd; by apply regions_ok_delete|].
        rewrite Hd. by apply delete_Permutation.
    + destruct Hres as (-> & Hn).
      eexists _, (m, w), g. split_and!; [cbn [exec]; by rewrite E|apply g_remove_absent|done].
      intros (r & Hin & Hk & Hsz)%Hr. apply (Hn r Hin); [|done].
      unfold key in Hk. simpl in Hk. destruct (guest_base r). simpl in *. congruence.
Qed.

(** One operation of the client is one step of the abstract machine. *)
Lemma exec_simulates s g o :
  sim s g → allowed s o → ∃ x s' g', exec o s = Ret (x, s') ∧ g_step g o x g' ∧ sim s' g'.
Proof.
  destruct s as [m w]. intros Hs Hal. destruct o; eauto using sim_write, sim_read, sim_read_from,
    sim_write_to, sim_query, sim_update.
Qed.

Lemma exec_all_simulates s g os :
  sim s g → legal s os →
  ∃ xs s' g', exec_all os s = Ret (xs, s') ∧ g_steps g os xs g' ∧ sim s' g'.
Proof.
  intros Hs Hl. revert g Hs. induction Hl as [s|s o os Hal _ IH]; intros g Hs; simpl.
  { exists [], s, g. split_and!; [done|constructor|done]. }
  destruct (exec_simulates s g o Hs Hal) as (x & s1 & g1 & E & Hstep & Hs1).
  destruct (IH x s1 E g1 Hs1) as (xs & s' & g' & E' & Hsteps & Hs').
  exists (x :: xs), s', g'. rewrite E, bind_ret, E', bind_ret. split_and!; [done|by econstructor|done].
Qed.

(** The abstract state of a memory: its ranges, and the contents of its regions. *)
Definition abs m w : guest := Guest
  (list_to_map ((λ r, (key r, region_size r)) <$> regions m))
  (foldr (λ r ram, store_list ram (key r) (host_view w r)) ∅ (regions m)).

Lemma sim_abs m w : regions_ok (regions m) → world_ok m w → sim (m, w) (abs m w).
Proof.
  destruct m as [p rs]. induction rs as [|r rs IH]; intros Hok Hw.
  { split_and!; [done..| |done]. intros b k. simpl. rewrite lookup_empty. split; [done|].
    by intros (r & ?%elem_of_nil & _). }
  destruct Hok as [[Hwf Hwfs]%Forall_cons_iff [Hb Hs]%StronglySorted_cons].
  destruct Hw as [Hreg Hsep].
  assert (∀ r', r' ∈ rs → r ≠ r') as Hne.
  { intros r' Hr' <-. rewrite Forall_elem in Hb. specialize (Hb r Hr').
    destruct Hwf as (_ & ? & _). unfold before in Hb. lia. }
  apply (sim_insert (GMemory p rs) w (abs (GMemory p rs) w) r (GMemory p (r :: rs))); [apply IH|done|..].
  - by split.
  - split; [intros r' ?; apply Hreg; by right|]. intros x y Hx Hy. apply Hsep; by right.
  - apply Hreg. left.
  - intros r' Hr'. apply Hsep; [left|by right|by apply Hne].
  - split; [by constructor|by constructor].
  - done.
Qed.
Lemma sim_unique m w g : sim (m, w) g → g = abs m w.
Proof.
  intros Hs. pose proof Hs as (Hok & Hw & Hr & Hram).
  destruct (sim_abs m w Hok Hw) as (_ & _ & Hr' & Hram'). destruct g as [rg ram], (abs m w) as [rg' ram'].
  cbn [g_ranges g_ram] in *. f_equal; apply map_eq.
  - intros b. apply option_eq. intros k. by rewrite Hr, Hr'.
  - intros a. by rewrite Hram, Hram'.
Qed.

(** C1: [GuestMemoryMmap] refines the abstract guest memory: from any
    well-formed state, every sequence of operations that its client may make
    runs to the end without a panic, undefined behaviour or divergence, what
    the client observes is what the abstract machine may answer, and the
    abstract machine ends in the abstraction of the final state, which is
    well formed again. *)
Theorem mmap_refines_guest m w os :
  regions_ok (regions m) → world_ok m w → legal (m, w) os →
  ∃ xs m' w', exec_all os (m, w) = Ret (xs, (m', w')) ∧
    g_steps (abs m w) os xs (abs m' w') ∧ regions_ok (regions m') ∧ world_ok m' w'.
Proof.
  intros Hok Hw Hl. destruct (exec_all_simulates (m, w) (abs m w) os) as (xs & [m' w'] & g & E & Hg & Hs);
    [by apply sim_abs|done|].
  rewrite (sim_unique m' w' g Hs) in Hg. destruct Hs as (? & ? & _). eauto 10.
Qed.
End simulation.
