(* ===== verification/MmapWindows.v ===== *)
(** * Mappings on Windows ([src/src/mmap_windows.rs])

    The counterpart of [MmapUnix].  The functions of [kernel32] that the source
    declares are the fields of a class over the state [W] of the system, and
    [WinSpec] is what their documentation says of the calls that the source
    makes: which allocations, views of files and open section handles there
    are afterwards.  [toy_win] is a system with which all of it holds. *)

From S2P Require Import Prelude Memory Address PlainData AtomicIntegers Bytes CopySlice Volatile.

(** Pointers and handles are addresses. *)
Class WinOS (W : Type) := {
  WinFile : Type;
  as_raw_handle : WinFile → Z;
  VirtualAlloc : W → Z → Z → Z → Z → Z * W;
  VirtualFree : W → Z → Z → Z → Z * W;
  CreateFileMappingA : W → Z → Z → Z → Z → Z → Z → Z * W;
  MapViewOfFile : W → Z → Z → Z → Z → Z → Z * W;
  CloseHandle : W → Z → Z * W;
  GetLastError : W → Z
}.

Definition MM_HIGHEST_VAD_ADDRESS : Z := 0x000007FFFFFDFFFF.
Definition MEM_COMMIT : Z := 0x00001000.
Definition MEM_RELEASE : Z := 0x00008000.
Definition FILE_MAP_ALL_ACCESS : Z := 0xf001f.
Definition PAGE_READWRITE : Z := 0x04.
Definition WIN_MAP_FAILED : Z := 0.
(** [libc::EINVAL] and [libc::EBADF] of the Windows C library. *)
Definition LIBC_EINVAL : Z := 22.
Definition LIBC_EBADF : Z := 9.

(** [FileOffset], with a file of this system. *)
Record WinFileOffset `{WinOS W} := WinFileOff { wfo_file : WinFile; wfo_start : Z }.
Arguments WinFileOffset W {_}.
Arguments WinFileOff {W _} _ _.

Record WinRegion `{WinOS W} := WinReg {
  wr_addr : Z;
  wr_size : Z;
  wr_file_offset : option (WinFileOffset W)
}.
Arguments WinRegion W {_}.
Arguments WinReg {W _} _ _ _.

Section region.
Context `{Target} `{WinOS W}.
Implicit Types (w : W) (self : WinRegion W) (f_off : WinFileOffset W).

(** [-1isize as RawHandle]. *)
Definition INVALID_HANDLE_VALUE : Z := 2 ^ usize_bits - 1.

(** [x as u32], and [x >> n] on a [bits]-bit integer. *)
Definition as_u32 (z : Z) : Z := wrap 32 z.
Definition ushr (bits x n : Z) : outcome Z :=
  if n <? bits then Ret (Z.shiftr x n)
  else if overflow_checks then Panic else Ret (Z.shiftr x (n `mod` bits)).

(** An [io::Error] is its OS error code. *)
Definition win_new w (size : Z) : result (WinRegion W) Z * W :=
  if (size =? 0) || (as_usize MM_HIGHEST_VAD_ADDRESS <? size) then (Err LIBC_EINVAL, w)
  else
    let '(addr, w) := VirtualAlloc w 0 size MEM_COMMIT PAGE_READWRITE in
    if addr =? WIN_MAP_FAILED then (Err (GetLastError w), w)
    else (Ok (WinReg addr size None), w).

Definition win_from_file w f_off (size : Z) : outcome (result (WinRegion W) Z * W) :=
  let handle := as_raw_handle (wfo_file f_off) in
  if handle =? INVALID_HANDLE_VALUE then Ret (Err LIBC_EBADF, w)
  else
    size_high ← ushr usize_bits size 32;
    let '(mapping, w) :=
      CreateFileMappingA w handle 0 PAGE_READWRITE (as_u32 size_high) (as_u32 size) 0 in
    if mapping =? 0 then Ret (Err (GetLastError w), w)
    else
      let offset := wfo_start f_off in
      offset_high ← ushr 64 offset 32;
      let '(addr, w) :=
        MapViewOfFile w mapping FILE_MAP_ALL_ACCESS (as_u32 offset_high) (as_u32 offset) size in
      let '(_, w) := CloseHandle w mapping in
      if addr =? 0 then Ret (Err (GetLastError w), w)
      else Ret (Ok (WinReg addr size (Some f_off)), w).

Definition win_as_ptr self : Z := wr_addr self.
Definition win_size self : Z := wr_size self.
Definition win_file_offset self : option (WinFileOffset W) := wr_file_offset self.

Definition win_as_slice self : slice := Slice (wr_addr self) (wr_size self).
Definition win_as_mut_slice self : slice := Slice (wr_addr self) (wr_size self).

#[export] Instance WinRegion_len : VolatileLen (WinRegion W) := wr_size.
Definition win_get_slice self (offset count : Z) : outcome (vresult VolatileSlice) :=
  match compute_offset offset count with
  | Err e => Ret (Err e)
  | Ok end_ =>
      if wr_size self <? end_ then Ret (Err (OutOfBounds end_))
      else a ← uadd usize_bits (wr_addr self) offset; Ret (Ok (VSlice a count))
  end.
#[export] Instance WinRegion_VolatileMemory : VolatileMemory (WinRegion W) := win_get_slice.

(** [Drop]: a call that fails is reported on the standard output with its
    address, size and error code. *)
Definition win_drop w self : option (Z * Z * Z) * W :=
  let '(ret_val, w) := VirtualFree w (wr_addr self) 0 MEM_RELEASE in
  if ret_val =? 0 then (Some (wr_addr self, wr_size self, GetLastError w), w) else (None, w).
End region.

(** ** What the system promises

    [allocs] are the allocations of [VirtualAlloc] by base address, [views]
    the views of [MapViewOfFile], [sections] the open section handles, all
    with their sizes.  [MapViewOfFile] of 0 bytes maps to the end of the
    section. *)
Definition view_size (max offset n : Z) : Z := if n =? 0 then max - offset else n.
Class WinSpec `{Target} (W : Type) `{WinOS W} := {
  allocs : W → gmap Z Z;
  views : W → gmap Z Z;
  sections : W → gmap Z Z;
  (** [VirtualAlloc] with no address reserves and commits, or returns null. *)
  virtual_alloc_spec : ∀ w n a w', 0 < n →
    VirtualAlloc w 0 n MEM_COMMIT PAGE_READWRITE = (a, w') →
    views w' = views w ∧ sections w' = sections w ∧
    if a =? 0 then allocs w' = allocs w
    else 0 < a ∧ a + n ≤ 2 ^ usize_bits ∧ allocs w !! a = None ∧ views w !! a = None ∧
      allocs w' = <[a := n]> (allocs w);
  (** [VirtualFree] with [MEM_RELEASE] needs the base of an allocation. *)
  virtual_free_spec : ∀ w a r w',
    VirtualFree w a 0 MEM_RELEASE = (r, w') →
    views w' = views w ∧ sections w' = sections w ∧
    match allocs w !! a with
    | Some _ => r ≠ 0 ∧ allocs w' = delete a (allocs w)
    | None => r = 0 ∧ allocs w' = allocs w
    end;
  (** A section has the maximum size it is created with; with 0, that of the file. *)
  create_file_mapping_spec : ∀ w h hi lo s w',
    CreateFileMappingA w h 0 PAGE_READWRITE hi lo 0 = (s, w') →
    allocs w' = allocs w ∧ views w' = views w ∧
    if s =? 0 then sections w' = sections w
    else sections w !! s = None ∧ ∃ max,
      sections w' = <[s := max]> (sections w) ∧ (hi * 2 ^ 32 + lo ≠ 0 → max = hi * 2 ^ 32 + lo);
  (** A view lies within the maximum size of its section. *)
  map_view_spec : ∀ w s max hi lo n a w',
    sections w !! s = Some max → MapViewOfFile w s FILE_MAP_ALL_ACCESS hi lo n = (a, w') →
    allocs w' = allocs w ∧ sections w' = sections w ∧
    if a =? 0 then views w' = views w
    else let len := view_size max (hi * 2 ^ 32 + lo) n in
      0 < a ∧ 0 ≤ len ∧ a + len ≤ 2 ^ usize_bits ∧ hi * 2 ^ 32 + lo + len ≤ max ∧
      allocs w !! a = None ∧ views w !! a = None ∧ views w' = <[a := len]> (views w);
  close_handle_spec : ∀ w s r w',
    CloseHandle w s = (r, w') → is_Some (sections w !! s) →
    allocs w' = allocs w ∧ views w' = views w ∧ sections w' = delete s (sections w)
}.

(** ** Theorems *)
Section theorems.
Context `{Target} `{!WinOS W} `{!WinSpec W}.
Implicit Types (w : W) (r : WinRegion W) (f_off : WinFileOffset W).

Lemma split_u64 z : in_bits 64 z → as_u32 (Z.shiftr z 32) * 2 ^ 32 + as_u32 z = z.
Proof.
  intros [? ?]. unfold as_u32, wrap. rewrite Z.shiftr_div_pow2 by done.
  rewrite (Z.mod_small (z / 2 ^ 32)).
  - pose proof (Z.div_mod z (2 ^ 32) ltac:(done)). lia.
  - split; [by apply Z.div_pos|]. by apply Z.div_lt_upper_bound.
Qed.

(** on Windows, [new] rejects an empty region and one that is larger than
    the user address space with [EINVAL] before it calls the system; otherwise
    the region is the allocation that [VirtualAlloc] made, or the error is the
    last one and nothing was allocated.  Dropping the region releases exactly
    that allocation, and reports nothing. *)
Theorem win_new_drop w size :
  in_bits usize_bits size →
  match win_new w size with
  | (Ok r, w') => 0 < size ≤ as_usize MM_HIGHEST_VAD_ADDRESS ∧ r = WinReg (wr_addr r) size None ∧
      0 < wr_addr r ∧ wr_addr r + size ≤ 2 ^ usize_bits ∧
      allocs w !! wr_addr r = None ∧ allocs w' = <[wr_addr r := size]> (allocs w) ∧
      let '(report, w'') := win_drop w' r in
      report = None ∧ allocs w'' = allocs w ∧ views w'' = views w ∧ sections w'' = sections w
  | (Err e, w') =>
      (e = LIBC_EINVAL ∧ w' = w ∧ (size = 0 ∨ as_usize MM_HIGHEST_VAD_ADDRESS < size)) ∨
      (e = GetLastError w' ∧ allocs w' = allocs w ∧ views w' = views w ∧ sections w' = sections w)
  end.
Proof.
  intros [Hs _]. unfold win_new.
  destruct (Z.eqb_spec size 0); [left; auto|].
  destruct (Z.ltb_spec (as_usize MM_HIGHEST_VAD_ADDRESS) size); [left; auto|]. cbn [orb].
  destruct (VirtualAlloc w 0 size MEM_COMMIT PAGE_READWRITE) as [a w'] eqn:E.
  apply virtual_alloc_spec in E as (Hv & Hse & Ha); [|lia]. unfold WIN_MAP_FAILED.
  destruct (Z.eqb_spec a 0); [by right|]. destruct Ha as (? & ? & Hn & _ & Hal). cbn [wr_addr].
  split_and!; try done; [lia|]. unfold win_drop. cbn [wr_addr].
  destruct (VirtualFree w' a 0 MEM_RELEASE) as [x w''] eqn:E.
  apply virtual_free_spec in E as (Hv' & Hse' & Hf). rewrite Hal, lookup_insert_eq in Hf.
  destruct Hf as [Hx Hal']. rewrite (proj2 (Z.eqb_neq _ _)) by done. split_and!; [done| |congruence..].
  by rewrite Hal', delete_insert_id.
Qed.

(** What [from_file] leaves behind on a 64-bit target. *)
Lemma win_from_file_ok w f_off size :
  usize_bits = 64 → in_bits 64 size → in_bits 64 (wfo_start f_off) →
  ∃ res w', win_from_file w f_off size = Ret (res, w') ∧
    allocs w' = allocs w ∧ sections w' = sections w ∧
    match res with
    | Ok r => r = WinReg (wr_addr r) size (Some f_off) ∧ ∃ len,
        0 < wr_addr r ∧ 0 ≤ len ∧ wr_addr r + len ≤ 2 ^ 64 ∧
        (0 < size → len = size ∧ wfo_start f_off = 0) ∧
        allocs w !! wr_addr r = None ∧ views w !! wr_addr r = None ∧
        views w' = <[wr_addr r := len]> (views w)
    | Err e => views w' = views w ∧ (e = LIBC_EBADF ∧ w' = w ∨ e = GetLastError w')
    end.
Proof.
  intros H64 Hs Ho. unfold win_from_file.
  destruct (as_raw_handle (wfo_file f_off) =? INVALID_HANDLE_VALUE).
  { eexists _, w. split; [done|]. split_and!; auto. }
  unfold ushr. rewrite H64. change (32 <? 64) with true. cbn iota. rewrite bind_ret.
  destruct (CreateFileMappingA _ _ _ _ _ _ _) as [s w1] eqn:E1.
  apply create_file_mapping_spec in E1 as (Ha1 & Hv1 & Hs1).
  destruct (Z.eqb_spec s 0). { eexists _, w1. split; [done|]. split_and!; auto. }
  destruct Hs1 as (Hn & max & Hsec & Hmax). rewrite split_u64 in Hmax by done. rewrite bind_ret.
  destruct (MapViewOfFile _ _ _ _ _ _) as [a w2] eqn:E2.
  apply (map_view_spec _ _ max) in E2 as (Ha2 & Hs2 & Hv2); [|by rewrite Hsec, lookup_insert_eq].
  destruct (CloseHandle w2 s) as [x w3] eqn:E3.
  apply close_handle_spec in E3 as (Ha3 & Hv3 & Hs3); [|rewrite Hs2, Hsec, lookup_insert_eq; eauto].
  assert (sections w3 = sections w) as Hsame by (by rewrite Hs3, Hs2, Hsec, delete_insert_id).
  destruct (Z.eqb_spec a 0); eexists _, w3; (split; [done|split; [congruence|split; [done|]]]).
  - split; [congruence|auto].
  - rewrite split_u64 in Hv2 by done. destruct Hv2 as (? & ? & ? & Hle & Hna & Hnv & Hvv).
    rewrite H64 in *. unfold in_bits in Ho. cbn [wr_addr]. split; [done|].
    exists (view_size max (wfo_start f_off) size). split_and!; try done; try congruence.
    intros Hpos. unfold view_size in *. rewrite (proj2 (Z.eqb_neq size 0)) in * by lia.
    rewrite Hmax in Hle by lia. lia.
Qed.

(** Dropping a region that [from_file] made. *)
Lemma win_file_view_leaks w f_off size r w' :
  usize_bits = 64 → in_bits 64 size → in_bits 64 (wfo_start f_off) →
  win_from_file w f_off size = Ret (Ok r, w') →
  let '(report, w'') := win_drop w' r in
  report = Some (wr_addr r, size, GetLastError w'') ∧ views w'' = views w'.
Proof.
  intros H64 Hs Ho E. destruct (win_from_file_ok w f_off size H64 Hs Ho)
    as (res & w1 & E' & Ha & _ & Hres). rewrite E in E'. injection E' as <- <-.
  destruct Hres as (Hr & len & _ & _ & _ & _ & Hna & _). unfold win_drop.
  destruct (VirtualFree w' (wr_addr r) 0 MEM_RELEASE) as [x w''] eqn:Ef.
  apply virtual_free_spec in Ef as (Hv' & _ & Hf). rewrite Ha, Hna in Hf. destruct Hf as [-> _].
  simpl. split; [|congruence]. by rewrite Hr.
Qed.

(** C38: on 64-bit Windows [from_file] returns, closes the section handle on
    every path and leaves the allocations alone; a region is a new view of the
    file.  As the section is created with the size of the region and not with
    that of the file, the view of a region that is not empty starts at offset 0
    of the file and has the size of the region: for a size other than 0 every
    other offset is an error.  (With size 0 the section is that of the whole file
    and the view goes to its end, while the region says that it is empty.)
    Dropping the region does not unmap the view: the address is not that of an
    allocation, so [VirtualFree] fails, which is printed, and the view remains. *)
Theorem win_from_file_outcome w f_off size :
  usize_bits = 64 → in_bits 64 size → in_bits 64 (wfo_start f_off) →
  ∃ res w', win_from_file w f_off size = Ret (res, w') ∧
    allocs w' = allocs w ∧ sections w' = sections w ∧
    match res with
    | Ok r => r = WinReg (wr_addr r) size (Some f_off) ∧
        (∃ len, 0 < wr_addr r ∧ 0 ≤ len ∧ wr_addr r + len ≤ 2 ^ 64 ∧
          (0 < size → len = size ∧ wfo_start f_off = 0) ∧
          views w !! wr_addr r = None ∧ views w' = <[wr_addr r := len]> (views w)) ∧
        let '(report, w'') := win_drop w' r in
        report = Some (wr_addr r, size, GetLastError w'') ∧ views w'' = views w'
    | Err e => views w' = views w ∧ (e = LIBC_EBADF ∧ w' = w ∨ e = GetLastError w')
    end.
Proof.
  intros H64 Hs Ho. destruct (win_from_file_ok w f_off size H64 Hs Ho) as (res & w' & E & Ha & Hse & Hres).
  exists res, w'. split; [done|]. split; [done|]. split; [done|]. destruct res as [r|e]; [|done].
  pose proof (win_file_view_leaks w f_off size r w' H64 Hs Ho E) as Hl.
  destruct Hres as (? & len & ? & ? & ? & ? & _ & ? & ?). destruct (win_drop w' r) as [report w''].
  split_and!; [done|by exists len|by destruct Hl..].
Qed.

Lemma win_get_slice_ok r offset count :
  0 ≤ wr_size r → 0 ≤ wr_addr r → wr_addr r + wr_size r < 2 ^ usize_bits → 0 ≤ offset → 0 ≤ count →
  win_get_slice r offset count = Ret (
    if 2 ^ usize_bits <=? offset + count then Err (Overflow offset count)
    else if wr_size r <? offset + count then Err (OutOfBounds (offset + count))
    else Ok (VSlice (wr_addr r + offset) count)).
Proof.
  intros. unfold win_get_slice, compute_offset, uint_checked_add.
  destruct (Z.ltb_spec (offset + count) (2 ^ usize_bits)), (Z.leb_spec (2 ^ usize_bits) (offset + count));
    try lia; [|done]. destruct (Z.ltb_spec (wr_size r) (offset + count)); [done|].
  by rewrite uadd_ok by (unfold in_bits; lia).
Qed.
End theorems.

(** ** A system *)
Record toy_windows := ToyWin {
  tw_allocs : gmap Z Z;
  tw_views : gmap Z Z;
  tw_sections : gmap Z Z;
  tw_next : Z  (** the next address and the next handle *)
}.
Implicit Types (t : toy_windows).

(** Whether [n] bytes can be handed out at the next address. *)
Definition tw_room t (n : Z) : bool :=
  (0 <? tw_next t) && (tw_next t + n <? 2 ^ 31) &&
  bool_decide (tw_allocs t !! tw_next t = None) && bool_decide (tw_views t !! tw_next t = None) &&
  bool_decide (tw_sections t !! tw_next t = None).

#[export] Instance toy_win : WinOS toy_windows := {|
  WinFile := Z;
  as_raw_handle f := f;
  VirtualAlloc t _ n _ _ :=
    if tw_room t n then
      (tw_next t, ToyWin (<[tw_next t := n]> (tw_allocs t)) (tw_views t) (tw_sections t) (tw_next t + n))
    else (0, t);
  VirtualFree t a _ _ :=
    match tw_allocs t !! a with
    | Some _ => (1, ToyWin (delete a (tw_allocs t)) (tw_views t) (tw_sections t) (tw_next t))
    | None => (0, t)
    end;
  CreateFileMappingA t _ _ _ hi lo _ :=
    if tw_room t 1 then
      (tw_next t, ToyWin (tw_allocs t) (tw_views t)
        (<[tw_next t := if hi * 2 ^ 32 + lo =? 0 then 0x2000 else hi * 2 ^ 32 + lo]> (tw_sections t))
        (tw_next t + 1))
    else (0, t);
  MapViewOfFile t s _ hi lo n :=
    match tw_sections t !! s with
    | Some max =>
        let len := view_size max (hi * 2 ^ 32 + lo) n in
        if tw_room t len && (0 <? len) && (hi * 2 ^ 32 + lo + len <=? max) then
          (tw_next t, ToyWin (tw_allocs t) (<[tw_next t := len]> (tw_views t)) (tw_sections t) (tw_next t + len))
        else (0, t)
    | None => (0, t)
    end;
  CloseHandle t s := (1, ToyWin (tw_allocs t) (tw_views t) (delete s (tw_sections t)) (tw_next t));
  GetLastError _ := 87
|}.

Lemma tw_room_spec t n :
  tw_room t n = true → 0 < tw_next t ∧ tw_next t + n < 2 ^ 31 ∧ tw_allocs t !! tw_next t = None ∧
    tw_views t !! tw_next t = None ∧ tw_sections t !! tw_next t = None.
Proof. unfold tw_room. rewrite !andb_true_iff, !Z.ltb_lt, !bool_decide_eq_true. tauto. Qed.

#[export] Instance toy_win_spec `{Target} : WinSpec toy_windows.
Proof.
  assert (2 ^ 31 < 2 ^ usize_bits) as Hbits by (by destruct usize_bits_cases as [[-> _]|[-> _]]).
  refine {| allocs := tw_allocs; views := tw_views; sections := tw_sections |}; simpl.
  - intros w n a w' Hn. destruct (tw_room w n) eqn:E; intros [= <- <-]; [|done].
    apply tw_room_spec in E as (? & ? & ? & ? & ?). simpl.
    rewrite (proj2 (Z.eqb_neq _ _)) by lia. split_and!; try done; lia.
  - intros w a r w'. destruct (tw_allocs w !! a) eqn:E; intros [= <- <-]; done.
  - intros w h hi lo s w'. destruct (tw_room w 1) eqn:E; intros [= <- <-]; [|done].
    apply tw_room_spec in E as (? & ? & ? & ? & ?). simpl.
    rewrite (proj2 (Z.eqb_neq (tw_next w) 0)) by lia. split_and!; try done. eexists. split; [done|].
    by intros ->%Z.eqb_neq.
  - intros w s max hi lo n a w' ->. set (len := view_size _ _ _).
    destruct (tw_room w len) eqn:E; simpl; [|by intros [= <- <-]].
    destruct (Z.ltb_spec 0 len); simpl; [|by intros [= <- <-]].
    destruct (Z.leb_spec (hi * 2 ^ 32 + lo + len) max); intros [= <- <-]; [|done].
    apply tw_room_spec in E as (? & ? & ? & ? & ?). simpl.
    rewrite (proj2 (Z.eqb_neq _ _)) by lia. split_and!; try done; lia.
  - by intros w s r w' [= <- <-].
Defined.

#[local] Existing Instance x86_64_debug.
Definition example_windows : toy_windows := ToyWin ∅ ∅ ∅ 0x10000.
Definition example_file (start : Z) : WinFileOffset toy_windows := @WinFileOff toy_windows toy_win 5 start.

Lemma win_new_drop_witness :
  match win_new example_windows 0x1000 with
  | (Ok r, w') => wr_addr r = 0x10000 ∧ allocs w' = <[wr_addr r := 0x1000]> ∅ ∧
      (win_drop w' r).1 = None ∧ allocs (win_drop w' r).2 = ∅
  | (Err _, _) => False
  end.
Proof.
  assert (W := win_new_drop example_windows 0x1000 ltac:(by vm_compute)).
  destruct (win_new example_windows 0x1000) as [[r|e] w'] eqn:E; [|done].
  destruct W as (_ & _ & _ & _ & _ & Ha & Hd). destruct (win_drop w' r) as [rep w''].
  destruct Hd as (? & ? & _). split_and!; try done. by injection E as <- _.
Defined.
(** A range at another offset is refused. *)
Lemma win_from_file_outcome_witness :
  ∃ res w', win_from_file example_windows (example_file 0x10000) 0x1000 = Ret (res, w') ∧
    ∃ e, res = Err e ∧ sections w' = ∅ ∧ views w' = ∅.
Proof.
  destruct (win_from_file_outcome example_windows (example_file 0x10000) 0x1000)
    as (res & w' & E & _ & Hs & Hr); [done|by vm_compute..|].
  exists res, w'. split; [done|]. destruct res as [r|e]; [|destruct Hr; by exists e].
  destruct Hr as (_ & (len & _ & _ & _ & Hz & _) & _). by destruct (Hz eq_refl).
Defined.
(** With size 0 the whole file, of 0x2000 bytes, is mapped from an offset on. *)
Lemma win_empty_view_example :
  win_from_file example_windows (example_file 0x1000) 0 =
    Ret (Ok (WinReg (W := toy_windows) 0x10001 0 (Some (example_file 0x1000))),
      ToyWin ∅ (<[0x10001 := 0x1000]> ∅) ∅ 0x11001).
Proof. reflexivity. Qed.
(** The first file that is mapped, from its start, is mapped for ever. *)
Lemma win_file_view_leaks_example :
  let r := WinReg (W := toy_windows) 0x10001 0x1000 (Some (example_file 0)) in
  let w' := ToyWin ∅ (<[0x10001 := 0x1000]> ∅) ∅ 0x11001 in
  win_from_file example_windows (example_file 0) 0x1000 = Ret (Ok r, w') ∧
  win_drop w' r = (Some (0x10001, 0x1000, 87), w').
Proof. split; reflexivity. Qed.
