(* ===== verification/Atomic.v ===== *)
(** * Mutable memory maps ([src/src/atomic.rs])

    [GuestMemoryAtomic] keeps the current memory map in an [ArcSwap] and a mutex
    that serialises updates.  Readers take a snapshot of the map; a writer locks
    the mutex, and replaces the map as it unlocks.  [ArcSwap] is a library: its
    operations are the fields of a class, with what its documentation promises
    in [ArcSwapSpec].  The threads of a program are interleaved by a step
    relation. *)

From S2P Require Import Prelude.

(** [C] is the container, [V] the [Arc<M>] that it holds. *)
Class ArcSwap (C V : Type) := {
  swap_new : V → C;
  swap_load : C → V;
  swap_store : C → V → C
}.
Class ArcSwapSpec (C V : Type) `{ArcSwap C V} : Prop := {
  load_new : ∀ v, swap_load (swap_new v) = v;
  load_store : ∀ c v, swap_load (swap_store c v) = v
}.

(** [std::sync::Mutex<()>]: the thread that holds it, and whether a thread
    panicked while holding it. *)
Record Mutex := { holder : option nat; poisoned : bool }.

Section atomic.
Context `{ArcSwap C M}.

(** The pair [(ArcSwap<M>, Mutex<()>)] shared by all clones. *)
Record GuestMemoryAtomic := Inner { inner_0 : C; inner_1 : Mutex }.

(** [From<Arc<M>>] and [new]. *)
Definition atomic_from (map : M) : GuestMemoryAtomic :=
  Inner (swap_new map) {| holder := None; poisoned := false |}.
Definition atomic_new (map : M) : GuestMemoryAtomic := atomic_from map.

Definition atomic_load (self : GuestMemoryAtomic) : M := swap_load (inner_0 self).

(** [memory] returns a guard that holds a snapshot; [into_inner], [clone] and
    [deref] give the snapshot back. *)
Record GuestMemoryLoadGuard := LoadGuard { guard : M }.
Definition memory (self : GuestMemoryAtomic) : GuestMemoryLoadGuard := LoadGuard (atomic_load self).
Definition into_inner (g : GuestMemoryLoadGuard) : M := guard g.
Definition guard_clone (g : GuestMemoryLoadGuard) : GuestMemoryLoadGuard := LoadGuard (guard g).
Definition guard_deref (g : GuestMemoryLoadGuard) : M := guard g.

(** [lock] by thread [t]: it blocks ([None]) while the mutex is held.  The
    guard is returned with [Ok], or with [Err] when the mutex is poisoned. *)
Record GuestMemoryExclusiveGuard := ExclusiveGuard { owner : nat }.
Definition lock (self : GuestMemoryAtomic) (t : nat)
    : option (result GuestMemoryExclusiveGuard GuestMemoryExclusiveGuard * GuestMemoryAtomic) :=
  match holder (inner_1 self) with
  | Some _ => None
  | None =>
      let p := poisoned (inner_1 self) in
      let self := Inner (inner_0 self) {| holder := Some t; poisoned := p |} in
      Some (if p then Err (ExclusiveGuard t) else Ok (ExclusiveGuard t), self)
  end.

(** Dropping the guard unlocks the mutex, and poisons it during a panic. *)
Definition drop_exclusive (self : GuestMemoryAtomic) (g : GuestMemoryExclusiveGuard)
    (panicking : bool) : GuestMemoryAtomic :=
  Inner (inner_0 self) {| holder := None; poisoned := poisoned (inner_1 self) || panicking |}.

(** [replace] stores the new map; the guard that it consumes is then dropped. *)
Definition replace (self : GuestMemoryAtomic) (g : GuestMemoryExclusiveGuard) (map : M)
    : GuestMemoryAtomic :=
  drop_exclusive (Inner (swap_store (inner_0 self) map) (inner_1 self)) g false.

(** ** Programs

    The shared object, the guards that the threads hold, and the maps that
    were ever current, the latest first. *)
Record config := Config {
  shared : GuestMemoryAtomic;
  loads : list (nat * GuestMemoryLoadGuard);
  exclusives : list GuestMemoryExclusiveGuard;
  history : list M
}.

Definition initial (map : M) : config := Config (atomic_new map) [] [] [map].

(** One call of a method by thread [t]. *)
Inductive step : config → nat → config → Prop :=
| step_memory s ls es h t :
    step (Config s ls es h) t (Config s ((t, memory s) :: ls) es h)
| step_clone s ls es h t u g :
    (u, g) ∈ ls → step (Config s ls es h) t (Config s ((t, guard_clone g) :: ls) es h)
| step_drop_load s ls1 ls2 es h t g :
    step (Config s (ls1 ++ (t, g) :: ls2) es h) t (Config s (ls1 ++ ls2) es h)
| step_lock s ls es h t g s' r :
    lock s t = Some (r, s') → r = Ok g ∨ r = Err g →
    step (Config s ls es h) t (Config s' ls (g :: es) h)
| step_drop_exclusive s ls es1 es2 h t g b :
    owner g = t →
    step (Config s ls (es1 ++ g :: es2) h) t (Config (drop_exclusive s g b) ls (es1 ++ es2) h)
| step_replace s ls es1 es2 h t g map :
    owner g = t →
    step (Config s ls (es1 ++ g :: es2) h) t (Config (replace s g map) ls (es1 ++ es2) (map :: h)).

(** Sequences of steps, with a condition on the configurations passed. *)
Inductive steps (P : config → Prop) : config → config → Prop :=
| steps_refl c : P c → steps P c c
| steps_step c t c' c'' : P c → step c t c' → steps P c' c'' → steps P c c''.

Definition reachable (map : M) (c : config) : Prop := steps (λ _, True) (initial map) c.
End atomic.
Arguments GuestMemoryAtomic : clear implicits.
Arguments GuestMemoryLoadGuard : clear implicits.
Arguments config : clear implicits.

(** ** Theorems *)
Section theorems.
Context `{ArcSwapSpec C M}.
Implicit Types (c : config C M) (map : M).

(** The mutex is held exactly when one exclusive guard exists, by its owner;
    the current map is the latest, and every snapshot was current once. *)
Definition inv c : Prop :=
  exclusives c = match holder (inner_1 (shared c)) with Some t => [ExclusiveGuard t] | None => [] end ∧
  head (history c) = Some (atomic_load (shared c)) ∧
  ∀ t g, (t, g) ∈ loads c → guard g ∈ history c.

Lemma inv_initial map : inv (initial map).
Proof.
  split_and!; simpl; [done| |by intros ? ? ?%not_elem_of_nil].
  unfold atomic_load. simpl. by rewrite load_new.
Qed.

Lemma head_in {A} (l : list A) x : head l = Some x → x ∈ l.
Proof. destruct l; simpl; [done|]. intros [= ->]. left. Qed.

(** With the mutex held, the guard in question is the only one. *)
Lemma only_guard (es1 es2 : list GuestMemoryExclusiveGuard) g o :
  es1 ++ g :: es2 = match o with Some t => [ExclusiveGuard t] | None => [] end →
  es1 ++ es2 = [] ∧ o = Some (owner g).
Proof. destruct o, es1 as [|? [|??]], es2; try done. by intros [= ->]. Qed.

Lemma inv_step c t c' : inv c → step c t c' → inv c'.
Proof.
  intros (He & Hh & Hl) Hstep. destruct Hstep as [s ls es h t|s ls es h t u g Hg|s ls1 ls2 es h t g|
    s ls es h t g s' r Hlock Hr|s ls es1 es2 h t g b Ho|s ls es1 es2 h t g map Ho]; simpl in *.
  - split_and!; [done..|]. simpl. intros u g [[= -> ->]|Hg]%elem_of_cons; [|by eapply Hl].
    simpl. by apply head_in.
  - split_and!; [done..|]. simpl. intros v g' [[= -> ->]|Hg']%elem_of_cons; [|by eapply Hl].
    simpl. by eapply Hl.
  - split_and!; [done..|]. simpl. intros u g' Hg'. apply (Hl u). rewrite elem_of_app in *.
    rewrite elem_of_cons. tauto.
  - unfold lock in Hlock. destruct (holder (inner_1 s)) eqn:Eh; [done|].
    injection Hlock as <- <-. assert (g = ExclusiveGuard t) as ->.
    { destruct (poisoned (inner_1 s)); by destruct Hr as [[= <-]|[= <-]]. }
    split_and!; simpl; [by rewrite He|done..].
  - apply only_guard in He as [-> _]. by split_and!.
  - apply only_guard in He as [-> _]. split_and!; simpl.
    + done.
    + unfold atomic_load. simpl. by rewrite load_store.
    + intros u g' Hg'. right. by eapply Hl.
Qed.

Lemma inv_steps P c c' : inv c → steps P c c' → inv c'.
Proof. intros Hi. induction 1; eauto using inv_step. Qed.

(** C17: in every reachable state at most one exclusive guard exists, its owner
    holds the mutex, and every snapshot that a reader holds is a map that was
    current at some moment. *)
Theorem atomic_invariant map c :
  reachable map c →
  (∀ g g', g ∈ exclusives c → g' ∈ exclusives c → g = g') ∧
  (∀ g, g ∈ exclusives c ↔ holder (inner_1 (shared c)) = Some (owner g)) ∧
  (∀ t g, (t, g) ∈ loads c → into_inner g ∈ history c) ∧
  head (history c) = Some (guard_deref (memory (shared c))).
Proof.
  intros Hr. destruct (inv_steps _ _ c (inv_initial map) Hr) as (He & Hh & Hl).
  rewrite He. split_and!; [| |done|done].
  - destruct (holder _); intros g g'; [|by intros ?%not_elem_of_nil].
    by intros ->%list_elem_of_singleton ->%list_elem_of_singleton.
  - intros [o]. destruct (holder _) as [t|]; simpl.
    + rewrite list_elem_of_singleton. split; intros [= ->]; done.
    + split; [by intros ?%not_elem_of_nil|done].
Qed.

(** While a guard exists no other call changes the map. *)
Lemma current_stable g c c' :
  inv c → steps (λ c, g ∈ exclusives c) c c' → atomic_load (shared c') = atomic_load (shared c).
Proof.
  intros Hi. induction 1 as [|c t c1 c2 Hin Hstep Hsteps IH]; [done|].
  pose proof (inv_step _ _ _ Hi Hstep) as Hi1. rewrite IH by done.
  assert (g ∈ exclusives c1) as Hin1 by (by destruct Hsteps).
  pose proof Hi as (He & _). destruct Hstep as [| | |s ls es h t g' s' r Hlock Hr| |];
    simpl in *; try done.
  - unfold lock in Hlock. destruct (holder (inner_1 s)); [done|]. by injection Hlock as _ <-.
  - exfalso. apply only_guard in He as [E _]. rewrite E in Hin1. by apply not_elem_of_nil in Hin1.
Qed.

(** C18: an update is atomic: when a thread locks, any calls of all threads
    follow while its guard exists, one of them the thread's own [memory]
    whose snapshot it maps with [f], and it then replaces the map, the new
    map is [f] of the map at the time of the lock, so no update is lost; and
    [memory] returns it afterwards. *)
Theorem update_atomic c t r s1 c1 c2 es1 es2 g (f : M → M) :
  inv c → lock (shared c) t = Some (r, s1) → g = ExclusiveGuard t →
  let c0 := Config s1 (loads c) (g :: exclusives c) (history c) in
  steps (λ c, g ∈ exclusives c) c0 c1 →
  steps (λ c, g ∈ exclusives c) c1 c2 →
  exclusives c2 = es1 ++ g :: es2 →
  let snapshot := guard_deref (memory (shared c1)) in
  let s3 := replace (shared c2) g (f snapshot) in
  step c2 t (Config s3 (loads c2) (es1 ++ es2) (f snapshot :: history c2)) ∧
  guard_deref (memory s3) = f (guard_deref (memory (shared c))) ∧
  holder (inner_1 s3) = None.
Proof.
  intros Hi Hlock -> c0 H1 H2 He snapshot s3.
  assert (step c t c0) as Hs0.
  { destruct c as [s ls es h]. eapply step_lock; [exact Hlock|].
    unfold lock in Hlock. simpl in Hlock. destruct (holder _); [done|].
    injection Hlock as <- _. destruct (poisoned _); auto. }
  pose proof (inv_step _ _ _ Hi Hs0) as Hi0. pose proof (inv_steps _ _ _ Hi0 H1) as Hi1.
  assert (atomic_load s1 = atomic_load (shared c)) as E0.
  { unfold lock in Hlock. destruct (holder _); [done|]. by injection Hlock as _ <-. }
  pose proof (current_stable _ _ _ Hi0 H1) as E1. simpl in E1.
  split_and!; [| |done].
  - destruct c2 as [s ls es h]. simpl in He. subst es. by apply step_replace.
  - unfold s3, snapshot, guard_deref, memory. simpl. unfold atomic_load at 1. simpl.
    rewrite load_store. f_equal. simpl. congruence.
Qed.
(** ** Progress *)
Lemma steps_app P c1 c2 c3 : steps P c1 c2 → steps P c2 c3 → steps P c1 c3.
Proof. induction 1 as [|c1 t c c2 Hp Hs _ IH]; [done|]. intros ?. eapply steps_step; [done|done|auto]. Qed.

(** The holder can always let go of the mutex. *)
Lemma unlock_step c u :
  inv c → holder (inner_1 (shared c)) = Some u →
  step c u (Config (drop_exclusive (shared c) (ExclusiveGuard u) false) (loads c) [] (history c)).
Proof.
  intros (He & _) Hh. destruct c as [s ls es h]. simpl in *. rewrite Hh in He. subst es.
  by apply (step_drop_exclusive s ls [] [] h u (ExclusiveGuard u) false).
Qed.
(** From a state where the mutex is free, an update completes. *)
Lemma update_steps c (t : nat) (f : M → M) :
  inv c → holder (inner_1 (shared c)) = None → ∃ c', steps (λ _, True) c c' ∧
    holder (inner_1 (shared c')) = None ∧ atomic_load (shared c') = f (atomic_load (shared c)).
Proof.
  intros (He & _) Hh. destruct c as [s ls es h]. simpl in *. rewrite Hh in He. subst es.
  set (s1 := Inner (inner_0 s) {| holder := Some t; poisoned := poisoned (inner_1 s) |}).
  set (map := f (atomic_load s)).
  exists (Config (replace s1 (ExclusiveGuard t) map) ls [] (map :: h)). split_and!; [|done|].
  - eapply (steps_step _ _ t (Config s1 ls [ExclusiveGuard t] h)); [done| |].
    + eapply step_lock; [unfold lock; rewrite Hh; done|]. destruct (poisoned (inner_1 s)); auto.
    + eapply (steps_step _ _ t); [done| |by apply steps_refl].
      by apply (step_replace s1 ls [] [] h t (ExclusiveGuard t) map).
  - unfold atomic_load at 1. simpl. by rewrite load_store.
Qed.

(** C19: nothing gets stuck: in every reachable state [memory] is enabled for
    every thread, and a thread that calls [lock] gets the mutex, or one other
    thread holds it and any call by which that thread gives up its guard lets
    the lock succeed; and from every reachable state any sequence of updates
    can be completed, with the current map the result of all of them in
    order. *)
Theorem atomic_progress map c (updates : list (nat * (M → M))) :
  reachable map c →
  (∀ t, step c t (Config (shared c) ((t, memory (shared c)) :: loads c) (exclusives c) (history c))) ∧
  (∀ t, is_Some (lock (shared c) t) ∨ ∃ u, holder (inner_1 (shared c)) = Some u ∧
    (∃ c', step c u c' ∧ exclusives c' = []) ∧
    ∀ c', step c u c' → exclusives c' = [] → is_Some (lock (shared c') t)) ∧
  ∃ c', steps (λ _, True) c c' ∧ holder (inner_1 (shared c')) = None ∧
    guard_deref (memory (shared c'))
      = foldl (λ m '(_, f), f m) (guard_deref (memory (shared c))) updates.
Proof.
  intros Hr. pose proof (inv_steps _ _ c (inv_initial map) Hr) as Hi. split_and!.
  - intros t. destruct c. apply step_memory.
  - intros t. destruct (holder (inner_1 (shared c))) as [u|] eqn:Hh.
    + right. exists u. split_and!; [done|eexists; split; [by apply unlock_step|done]|].
      intros c' Hs Hn. destruct (inv_step _ _ _ Hi Hs) as (He & _). rewrite Hn in He.
      unfold lock. destruct (holder (inner_1 (shared c'))); [done|by eexists].
    + left. unfold lock. rewrite Hh. by eexists.
  - assert (∃ c0, steps (λ _, True) c c0 ∧ holder (inner_1 (shared c0)) = None ∧
      atomic_load (shared c0) = atomic_load (shared c)) as (c0 & Hs0 & Hh0 & E0).
    { destruct (holder (inner_1 (shared c))) as [u|] eqn:Hh; [|exists c; split_and!; [by apply steps_refl|done..]].
      eexists. split; [eapply steps_step; [done|by apply unlock_step|by apply steps_refl]|]. done. }
    unfold guard_deref, memory. cbn [guard]. rewrite <-E0. pose proof (inv_steps _ _ _ Hi Hs0) as Hi0.
    clear E0 Hr Hi. revert c0 Hs0 Hh0 Hi0. induction updates as [|[t f] ups IH]; intros c0 Hs0 Hh0 Hi0.
    + by exists c0.
    + destruct (update_steps c0 t f Hi0 Hh0) as (c1 & Hs1 & Hh1 & E1). simpl. rewrite <-E1.
      apply IH; [by eapply steps_app|done|by eapply inv_steps].
Qed.
End theorems.
