(* ===== verification/AddressSpace.v ===== *)
(** * Address spaces ([src/src/guest_memory.rs], trait [GuestAddressSpace])

    A device accesses guest memory through a type that implements
    [GuestAddressSpace]: a reference to a memory map, an [Rc] or an [Arc] of it,
    or a [GuestMemoryAtomic].  The class has the trait's method and what the
    trait demands of the object that it returns.  Its documentation promises that
    this object is a consistent snapshot of the memory map: that is proved of the
    four implementations. *)

From S2P Require Import Prelude Memory RefCount Atomic.

(** [S] implements the trait for memory maps [M] with the access type [T]
    ([Clone + Deref<Target = M>]); [H] has the reference counts. *)
Class GuestAddressSpace (S T M H : Type) := {
  space_memory : H → S → outcome (T * H);
  space_deref : H → T → outcome M;
  space_clone : H → T → outcome (T * H);
  space_drop : H → T → outcome H
}.

(** ** The implementations *)

(** [&M]: the reference itself. *)
Record Ref (M : Type) := MkRef { referent : M }.
Arguments MkRef {M} _.
Arguments referent {M} _.
#[export] Instance Ref_AddressSpace {M H} : GuestAddressSpace (Ref M) (Ref M) M H := {|
  space_memory h self := Ret (self, h);
  space_deref h t := Ret (referent t);
  space_clone h t := Ret (t, h);
  space_drop h t := Ret h
|}.

(** [Rc<M>] and [Arc<M>]: a clone of the pointer. *)
Record Rc (M : Type) := MkRc { rc_ptr : nat }.
Arguments MkRc {M} _.
Arguments rc_ptr {M} _.
Record Arc (M : Type) := MkArc { arc_ptr : nat }.
Arguments MkArc {M} _.
Arguments arc_ptr {M} _.
#[export] Instance Rc_AddressSpace `{Drop M W} : GuestAddressSpace (Rc M) (Rc M) M (heap M W) := {|
  space_memory h self := h ← arc_clone h (rc_ptr self); Ret (self, h);
  space_deref h t := deref h (rc_ptr t);
  space_clone h t := h ← arc_clone h (rc_ptr t); Ret (t, h);
  space_drop h t := arc_drop h (rc_ptr t)
|}.
#[export] Instance Arc_AddressSpace `{Drop M W} : GuestAddressSpace (Arc M) (Arc M) M (heap M W) := {|
  space_memory h self := h ← arc_clone h (arc_ptr self); Ret (self, h);
  space_deref h t := deref h (arc_ptr t);
  space_clone h t := h ← arc_clone h (arc_ptr t); Ret (t, h);
  space_drop h t := arc_drop h (arc_ptr t)
|}.

(** [GuestMemoryAtomic<M>]: a guard for the current map. *)
#[export] Instance Atomic_AddressSpace `{Drop M W} `{ArcSwap C nat}
    : GuestAddressSpace (GuestMemoryAtomic C) (GuestMemoryLoadGuard nat) M (heap M W) := {|
  space_memory h self := h ← arc_clone h (atomic_load self); Ret (memory self, h);
  space_deref h t := deref h (guard_deref t);
  space_clone h t := h ← arc_clone h (guard_deref t); Ret (guard_clone t, h);
  space_drop h t := arc_drop h (guard_deref t)
|}.

(** ** Snapshots

    The object that [memory] returns is another reference to the map: it, and a
    clone of it, give access to the same map also when the address space has let
    go of the map, because it was dropped or, for [GuestMemoryAtomic], because
    the map was replaced; and with the last of them the map is dropped, once.
    [l] are the other references to maps that exist. *)
Section snapshots.
Context `{Drop M W}.
Implicit Types (h : heap M W) (a : nat) (l : list nat) (m : M).

(** The map that nothing refers to is dropped, the one that is referred to stays. *)
Definition map_released h l a m h' : Prop :=
  heap_ok h' l ∧
  if decide (a ∈ l) then world h' = world h ∧ deref h' a = Ret m
  else drop_in_place (world h) m = Ret (world h') ∧ a ∈ freed h'.

Definition snapshot {Sp T} `{!GuestAddressSpace Sp T M (heap M W)} h l (s : Sp) a m : Prop :=
  ∃ t t' h1 h2 h3 h4 h5,
    space_memory h s = Ret (t, h1) ∧ heap_ok h1 (a :: a :: l) ∧ space_deref h1 t = Ret m ∧
    space_clone h1 t = Ret (t', h2) ∧ heap_ok h2 (a :: a :: a :: l) ∧ space_deref h2 t' = Ret m ∧
    arc_drop h2 a = Ret h3 ∧ space_deref h3 t = Ret m ∧ space_deref h3 t' = Ret m ∧
    space_drop h3 t = Ret h4 ∧ space_deref h4 t' = Ret m ∧ world h4 = world h ∧
    space_drop h4 t' = Ret h5 ∧ map_released h l a m h5.

(** The map stays as long as there is another reference. *)
Lemma clone_keeps h l a m :
  heap_ok h (a :: l) → deref h a = Ret m →
  ∃ h', arc_clone h a = Ret h' ∧ heap_ok h' (a :: a :: l) ∧ deref h' a = Ret m ∧ world h' = world h.
Proof.
  intros Hh Hm. destruct (wp_inv _ _ (arc_clone_ok h _ a Hh ltac:(left))) as (h' & E & Hh' & Hs).
  exists h'. split_and!; [done..| |].
  - rewrite (same_deref h h' (a :: l)) by (done || left). done.
  - unfold arc_clone in E. destruct (objects h !! a) as [[? ?]|]; [|done]. by injection E as <-.
Qed.
Lemma drop_keeps h l a m :
  heap_ok h (a :: a :: l) → deref h a = Ret m →
  ∃ h', arc_drop h a = Ret h' ∧ heap_ok h' (a :: l) ∧ deref h' a = Ret m ∧ world h' = world h.
Proof.
  intros Hh Hm. destruct (wp_inv _ _ (arc_drop_wp h (a :: l) a m Hh Hm ltac:(intros []; left)))
    as (h' & E & Hh' & Hs & Hw). rewrite decide_True in Hw by left. exists h'. split_and!; [done..| |apply Hw].
  rewrite (same_deref h h' (a :: l)) by (done || left). done.
Qed.
Lemma drop_releases h l a m :
  heap_ok h (a :: l) → deref h a = Ret m → (∃ w, drop_in_place (world h) m = Ret w) →
  ∃ h', arc_drop h a = Ret h' ∧ map_released h l a m h'.
Proof.
  intros Hh Hm Hd. destruct (wp_inv _ _ (arc_drop_wp h l a m Hh Hm ltac:(by intros _)))
    as (h' & E & Hh' & Hs & Hw). exists h'. split; [done|]. split; [done|].
  destruct (decide (a ∈ l)) as [Ha|Ha].
  - split; [apply Hw|]. by rewrite (same_deref h h' l).
  - split; [apply Hw|]. apply (freed_unused h' l a Hh'); [|done].
    apply Nat.lt_le_trans with (next h); [by eapply heap_ok_next; [|left]|].
    by apply arc_drop_extends in E as [? _].
Qed.

(** An address space whose operations are those of the pointer [a]. *)
Lemma pointer_snapshot {Sp T} `{!GuestAddressSpace Sp T M (heap M W)} h l (s : Sp) (t t' : T) a m :
  (∀ h, space_memory h s = (h ← arc_clone h a; Ret (t, h))) →
  (∀ h, space_clone h t = (h ← arc_clone h a; Ret (t', h))) →
  (∀ h, space_deref h t = deref h a) → (∀ h, space_deref h t' = deref h a) →
  (∀ h, space_drop h t = arc_drop h a) → (∀ h, space_drop h t' = arc_drop h a) →
  heap_ok h (a :: l) → deref h a = Ret m → (∃ w, drop_in_place (world h) m = Ret w) → snapshot h l s a m.
Proof.
  intros Em Ec Et Et' Ed Ed' Hh Hm Hd.
  destruct (clone_keeps h l a m Hh Hm) as (h1 & E1 & Hh1 & Hm1 & Hw1).
  destruct (clone_keeps h1 (a :: l) a m Hh1 Hm1) as (h2 & E2 & Hh2 & Hm2 & Hw2).
  destruct (drop_keeps h2 (a :: l) a m Hh2 Hm2) as (h3 & E3 & Hh3 & Hm3 & Hw3).
  destruct (drop_keeps h3 l a m Hh3 Hm3) as (h4 & E4 & Hh4 & Hm4 & Hw4).
  assert (world h4 = world h) as Hw by congruence. rewrite <-Hw in Hd.
  destruct (drop_releases h4 l a m Hh4 Hm4 Hd) as (h5 & E5 & Hr).
  exists t, t', h1, h2, h3, h4, h5. rewrite Em, Ec, Ed, Ed', !Et, !Et', E1, E2, !bind_ret.
  split_and!; try done. unfold map_released in *. by rewrite <-Hw.
Qed.

(** C20: the objects that [memory] returns are consistent snapshots, for each of
    the implementations of [GuestAddressSpace].  An [Rc], an [Arc] and a
    [GuestMemoryAtomic] return one more counted reference to the map that they
    currently have; it and its clone give access to that map, also after the
    address space itself let go of the map, and when all of them are dropped the
    map is dropped, exactly once, unless something else refers to it ([Drop] of
    the map returns).  A
    reference returns itself, with the map that it refers to. *)
Theorem address_space_snapshots `{ArcSwapSpec C nat} h l a m :
  heap_ok h (a :: l) → deref h a = Ret m → (∃ w, drop_in_place (world h) m = Ret w) →
  snapshot h l (MkRc a : Rc M) a m ∧ snapshot h l (MkArc a : Arc M) a m ∧
  (∀ s : GuestMemoryAtomic C, atomic_load s = a → snapshot h l s a m) ∧
  ∀ r : Ref M, space_memory h r = Ret (r, h) ∧ space_deref h r = Ret (referent r) ∧
    space_clone h r = Ret (r, h) ∧ space_drop h r = Ret h.
Proof.
  intros Hh Hm Hd. split_and!.
  - by apply (pointer_snapshot h l _ (MkRc a) (MkRc a)).
  - by apply (pointer_snapshot h l _ (MkArc a) (MkArc a)).
  - intros s <-. by apply (pointer_snapshot h l s (memory s) (memory s)).
  - done.
Qed.
End snapshots.
