(* ===== verification/Snapshots.v ===== *)
(** * Snapshots of a mutable memory map ([src/src/atomic.rs], [src/src/mmap.rs])

    A [GuestMemoryAtomic<GuestMemoryMmap>] composes the parts: the [ArcSwap] and
    the guards hold references to memory maps ([Atomic]), a map that nothing
    refers to is dropped with its references to regions ([Arcs]), and a region
    that nothing refers to is released, which unmaps it when it owns its mapping.
    A reader that holds a snapshot is not disturbed by updates: the theorems say
    that its map and its regions stay until it drops the guard, that they do not
    stay longer, and which system calls release them. *)

From S2P Require Import Prelude Memory Address PlainData AtomicIntegers Bytes CopySlice Volatile Os RemoteMem GuestMemory MmapUnix Mmap RefCount Arcs Atomic AddressSpace.

(** The heap of [Arc<GuestMemoryMmap>]; its world is the heap of regions. *)
Abbreviation map_heap W := (heap ArcMemory (region_heap W)).
#[export] Instance map_drop `{Target} `{OS W} : Drop ArcMemory (region_heap W) := am_drop.

Section system.
Context `{Target} `{OS W} `{ArcSwap C nat}.
Implicit Types (h : map_heap W) (s : GuestMemoryAtomic C).

(** The calls of [Atomic], with the references that they copy and drop; those
    of the trait [GuestAddressSpace] are its methods for [GuestMemoryAtomic].
    A guard keeps the map that it was loaded with alive. *)
Definition sys_from h (map : ArcMemory) : GuestMemoryAtomic C * map_heap W :=
  let '(a, h) := arc_new h map in (atomic_from a, h).
Definition sys_memory h s : outcome (GuestMemoryLoadGuard nat * map_heap W) :=
  space_memory h s.
Definition sys_guard_clone h (g : GuestMemoryLoadGuard nat)
    : outcome (GuestMemoryLoadGuard nat * map_heap W) :=
  space_clone h g.
(** [Arc::new], [ArcSwap::store], which drops the map it had, and the unlock. *)
Definition sys_replace h s (g : GuestMemoryExclusiveGuard) (map : ArcMemory)
    : outcome (GuestMemoryAtomic C * map_heap W) :=
  let '(a, h) := arc_new h map in
  let old := atomic_load s in
  h ← arc_drop h old;
  Ret (replace s g a, h).
(** [Clone] of the object is that of its [Arc<(ArcSwap<M>, Mutex<()>)>], of which
    there are [n]; dropping the last one drops the [ArcSwap], and with it the map. *)
Definition sys_clone (n : nat) : nat := S n.
Definition sys_drop h s (n : nat) : outcome (nat * map_heap W) :=
  match n with
  | S (S n) => Ret (S n, h)
  | _ => h ← arc_drop h (atomic_load s); Ret (0%nat, h)
  end.

(** ** Programs

    The maps, the shared object and how many clones of it there are, the guards, the [Arc]s of maps that
    [into_inner] returned, and the memories and regions that the program owns
    itself. *)
Record system := System {
  s_maps : map_heap W;
  s_atomic : GuestMemoryAtomic C;
  s_clones : nat;
  s_guards : list (GuestMemoryLoadGuard nat);
  s_arcs : list nat;
  s_locks : list GuestMemoryExclusiveGuard;
  s_owned : list ArcMemory;
  s_regions : list nat
}.

(** The maps that exist. *)
Definition live h : list ArcMemory := (map_to_list (fst <$> objects h)).*2.

(** The program of [Arcs] that owns the maps and what the clients own. *)
Definition regions_of h (owned : list ArcMemory) (rs : list nat) : program W :=
  Program (world h) (owned ++ live h) rs.

Definition set_world h (w : region_heap W) : map_heap W := Heap (objects h) (next h) (freed h) w.

(** The calls need a clone of the object.  An exclusive guard borrows it, so that the
    last clone is dropped after the guards; the other guards may outlive it. *)
Inductive s_step : system → system → Prop :=
| s_memory h s n gs as_ es ms rs g h' :
    sys_memory h s = Ret (g, h') →
    s_step (System h s (S n) gs as_ es ms rs) (System h' s (S n) (g :: gs) as_ es ms rs)
| s_clone h s n gs as_ es ms rs g g' h' :
    g ∈ gs → sys_guard_clone h g = Ret (g', h') →
    s_step (System h s n gs as_ es ms rs) (System h' s n (g' :: gs) as_ es ms rs)
| s_into_inner h s n gs1 g gs2 as_ es ms rs :
    s_step (System h s n (gs1 ++ g :: gs2) as_ es ms rs)
      (System h s n (gs1 ++ gs2) (into_inner g :: as_) es ms rs)
| s_drop_guard h s n gs1 g gs2 as_ es ms rs h' :
    arc_drop h (guard g) = Ret h' →
    s_step (System h s n (gs1 ++ g :: gs2) as_ es ms rs) (System h' s n (gs1 ++ gs2) as_ es ms rs)
| s_drop_arc h s n gs as1 a as2 es ms rs h' :
    arc_drop h a = Ret h' →
    s_step (System h s n gs (as1 ++ a :: as2) es ms rs) (System h' s n gs (as1 ++ as2) es ms rs)
| s_lock h s n gs as_ es ms rs t r g s' :
    lock s t = Some (r, s') → r = Ok g ∨ r = Err g →
    s_step (System h s (S n) gs as_ es ms rs) (System h s' (S n) gs as_ (g :: es) ms rs)
| s_unlock h s n gs as_ es1 g es2 ms rs b :
    s_step (System h s n gs as_ (es1 ++ g :: es2) ms rs)
      (System h (drop_exclusive s g b) n gs as_ (es1 ++ es2) ms rs)
| s_replace h s n gs as_ es1 g es2 ms1 m ms2 rs s' h' :
    sys_replace h s g m = Ret (s', h') →
    s_step (System h s (S n) gs as_ (es1 ++ g :: es2) (ms1 ++ m :: ms2) rs)
      (System h' s' (S n) gs as_ (es1 ++ es2) (ms1 ++ ms2) rs)
| s_client h s n gs as_ es ms rs w' ms' rs' :
    p_step (regions_of h ms rs) (Program w' (ms' ++ live h) rs') →
    s_step (System h s n gs as_ es ms rs) (System (set_world h w') s n gs as_ es ms' rs')
| s_clone_object h s n gs as_ es ms rs :
    s_step (System h s (S n) gs as_ es ms rs) (System h s (sys_clone (S n)) gs as_ es ms rs)
| s_drop_object h s n gs as_ es ms rs n' h' :
    (n = 0%nat → es = []) → sys_drop h s (S n) = Ret (n', h') →
    s_step (System h s (S n) gs as_ es ms rs) (System h' s n' gs as_ es ms rs).

(** A program that makes a memory as in [Arcs], and then shares it. *)
Inductive s_reachable (w : W) : system → Prop :=
| s_initial r ms1 m ms2 rs s h :
    p_reachable w (Program r (ms1 ++ m :: ms2) rs) → sys_from (Heap ∅ 0 [] r) m = (s, h) →
    s_reachable w (System h s 1 [] [] [] (ms1 ++ ms2) rs)
| s_reach x x' : s_reachable w x → s_step x x' → s_reachable w x'.

Inductive s_steps : system → system → Prop :=
| s_refl x : s_steps x x
| s_trans x x' x'' : s_step x x' → s_steps x' x'' → s_steps x x''.

(** The references to maps: the current one, until the object is gone, and those of
    the guards and of [into_inner]. *)
Definition current (x : system) : list nat :=
  match s_clones x with O => [] | S _ => [atomic_load (s_atomic x)] end.
Definition map_refs (x : system) : list nat :=
  current x ++ (guard <$> s_guards x) ++ s_arcs x.
End system.
Arguments system W {_} C.

(** ** The invariant *)
Section theorems.
Context `{Target} `{OS W} `{ArcSwapSpec C nat}.
Implicit Types (h : map_heap W) (x : system W C) (a : nat) (l rs : list nat) (m : ArcMemory) (ms : list ArcMemory).

(** All references to maps are counted, and the program below, which owns the
    maps that exist, is as in [Arcs]. *)
Definition sys_ok x : Prop :=
  heap_ok (s_maps x) (map_refs x) ∧ p_ok (regions_of (s_maps x) (s_owned x) (s_regions x)).

Lemma p_ok_perm (r : region_heap W) ms ms' rs : ms ≡ₚ ms' → p_ok (Program r ms rs) → p_ok (Program r ms' rs).
Proof.
  intros Hp [Hh Ht]. assert (p_refs (Program r ms rs) ≡ₚ p_refs (Program r ms' rs)) as Hr.
  { unfold p_refs. cbn [p_arcs p_memories]. by rewrite Hp. }
  split; [by rewrite <-Hr|]. cbn [p_heap p_memories] in *. destruct Ht as [Hre Hme]. split.
  - intros a Ha. apply Hre. by rewrite Hr.
  - intros m Hm. rewrite <-Hp in Hm. destruct (Hme m Hm) as [Hsub ?]. split; [|done].
    intros b Hb. rewrite <-Hr. by apply Hsub.
Qed.
Lemma p_ok_am_drop (r : region_heap W) m ms rs :
  p_ok (Program r (m :: ms) rs) → ∃ r', am_drop r m = Ret r' ∧ p_ok (Program r' ms rs).
Proof.
  intros Hp. pose proof Hp as [Hh _]. cbn [p_heap] in Hh.
  pose proof (refs_drop_memory r [] m ms rs) as Hr. cbn [app] in Hr. rewrite Hr in Hh.
  destruct (wp_inv _ _ (vec_drop_ok r _ (am_regions m) Hh)) as (r' & E & _).
  exists r'. split; [done|]. by eapply (p_ok_step _ _ Hp), (p_drop _ []).
Qed.

(** The maps that exist, after each operation. *)
Lemma live_insert h a m n : objects h !! a = None →
  (map_to_list (fst <$> <[a := (m, n)]> (objects h))).*2 ≡ₚ m :: live h.
Proof.
  intros E. unfold live. rewrite fmap_insert, map_to_list_insert; [done|]. by rewrite lookup_fmap, E.
Qed.
Lemma live_delete h h' a m : deref h a = Ret m → objects h' = delete a (objects h) → live h ≡ₚ m :: live h'.
Proof.
  unfold deref, live. intros E ->. destruct (objects h !! a) as [[m' n]|] eqn:Eo; [|done]. injection E as ->.
  rewrite fmap_delete. rewrite <-(map_to_list_delete _ a m); [done|]. by rewrite lookup_fmap, Eo.
Qed.
Lemma live_deref h l a m : heap_ok h l → deref h a = Ret m → m ∈ live h.
Proof.
  intros _. unfold deref. destruct (objects h !! a) as [[m' n]|] eqn:E; [|done]. intros [= ->].
  apply list_elem_of_fmap. exists (a, m). split; [done|]. apply elem_of_map_to_list.
  by rewrite lookup_fmap, E.
Qed.
Lemma live_inv h l m : heap_ok h l → m ∈ live h → ∃ a, a ∈ l ∧ deref h a = Ret m.
Proof.
  intros Hh ([a m'] & -> & Ha)%list_elem_of_fmap. apply elem_of_map_to_list in Ha.
  rewrite lookup_fmap in Ha. unfold deref. exists a. pose proof (counted h l Hh a) as Hc.
  destruct (objects h !! a) as [[? n]|]; [|done]. injection Ha as <-.
  split; [|done]. apply uses_pos. lia.
Qed.

Lemma new_ref h l m ms1 ms2 rs :
  heap_ok h l → p_ok (regions_of h (ms1 ++ m :: ms2) rs) → let '(a, h') := arc_new h m in
    heap_ok h' (a :: l) ∧ p_ok (regions_of h' (ms1 ++ ms2) rs).
Proof.
  intros Hh Hp. pose proof (arc_new_ok h l m Hh) as Hn. destruct (arc_new h m) as [a h'] eqn:E.
  destruct Hn as (Hh' & _ & _). split; [done|]. injection E as <- <-.
  assert (objects h !! next h = None) as Hnone.
  { apply eq_None_not_Some. intros ?. assert (next h < next h)%nat by (apply (allocated h l Hh); by left). lia. }
  eapply p_ok_perm, Hp. unfold live at 2. cbn [objects]. rewrite (live_insert h _ m 1 Hnone).
  by rewrite <-(Permutation_middle ms1), <-Permutation_middle.
Qed.
Lemma clone_ref h l a ms rs :
  heap_ok h l → a ∈ l → p_ok (regions_of h ms rs) →
  wp (arc_clone h a) (λ h', heap_ok h' (a :: l) ∧ p_ok (regions_of h' ms rs)).
Proof.
  intros Hh Ha Hp. pose proof (arc_clone_ok h l a Hh Ha) as Hc. unfold arc_clone in *.
  destruct (objects h !! a) as [[m n]|] eqn:E; [|done]. apply wp_ret. destruct Hc as [Hh' _].
  split; [done|]. unfold regions_of, live in *. cbn [objects world].
  rewrite fmap_insert, insert_id; [done|]. by rewrite lookup_fmap, E.
Qed.
Lemma drop_ref h l a ms rs :
  heap_ok h (a :: l) → p_ok (regions_of h ms rs) →
  wp (arc_drop h a) (λ h', heap_ok h' l ∧ p_ok (regions_of h' ms rs)).
Proof.
  intros Hh Hp. destruct (heap_ok_deref h _ a Hh ltac:(left)) as [m Hm].
  assert (∀ ms', live h ≡ₚ m :: ms' → p_ok (Program (world h) (m :: ms ++ ms') rs)) as Hd.
  { intros ms' Hl. eapply p_ok_perm, Hp. by rewrite Hl, <-Permutation_middle. }
  eapply wp_mono; [apply (arc_drop_wp h l a m Hh Hm)|].
  - intros _. set (h0 := Heap (delete a (objects h)) (next h) (freed h) (world h)).
    destruct (p_ok_am_drop _ _ _ _ (Hd (live h0) (live_delete h h0 a m Hm eq_refl))) as (r' & E & _).
    by exists r'.
  - intros h' (Hh' & _ & Hcase). split; [done|]. destruct (decide (a ∈ l)) as [_|_].
    + destruct Hcase as [Hw Ho]. unfold regions_of, live in *. by rewrite Hw, Ho.
    + destruct Hcase as [Hw Ho]. pose proof (Hd _ (live_delete h h' a m Hm Ho)) as Hp'.
      destruct (p_ok_am_drop _ _ _ _ Hp') as (r' & E & ?). change (am_drop (world h) m = Ret (world h')) in Hw.
      rewrite Hw in E. by injection E as <-.
Qed.

(** ** The calls *)
Lemma sys_memory_ok h (s : GuestMemoryAtomic C) l ms rs :
  heap_ok h l → atomic_load s ∈ l → p_ok (regions_of h ms rs) →
  wp (sys_memory h s) (λ '(g, h'), guard g = atomic_load s ∧ heap_ok h' (guard g :: l) ∧ p_ok (regions_of h' ms rs)).
Proof.
  intros Hh Ha Hp. apply wp_bind. eapply wp_mono; [by eapply clone_ref|]. intros h' [? ?]. by apply wp_ret.
Qed.
Lemma sys_guard_clone_ok h (g : GuestMemoryLoadGuard nat) l ms rs :
  heap_ok h l → guard g ∈ l → p_ok (regions_of h ms rs) →
  wp (sys_guard_clone h g) (λ '(g', h'), guard g' = guard g ∧ heap_ok h' (guard g :: l) ∧ p_ok (regions_of h' ms rs)).
Proof.
  intros Hh Ha Hp. apply wp_bind. eapply wp_mono; [by eapply clone_ref|]. intros h' [? ?]. by apply wp_ret.
Qed.
Lemma sys_replace_ok h (s : GuestMemoryAtomic C) g l ms1 m ms2 rs :
  heap_ok h (atomic_load s :: l) → p_ok (regions_of h (ms1 ++ m :: ms2) rs) →
  wp (sys_replace h s g m) (λ '(s', h'),
    heap_ok h' (atomic_load s' :: l) ∧ p_ok (regions_of h' (ms1 ++ ms2) rs)).
Proof.
  intros Hh Hp. pose proof (new_ref h _ m ms1 ms2 rs Hh Hp) as Hn. unfold sys_replace.
  destruct (arc_new h m) as [a h1]. destruct Hn as [Hh1 Hp1]. apply wp_bind.
  eapply wp_mono; [apply (drop_ref h1 (a :: l)); [|done]|].
  - by rewrite (Permutation_swap a).
  - intros h' [? ?]. apply wp_ret. split; [|done]. unfold replace, atomic_load. simpl. by rewrite load_store.
Qed.

(** Moving a guard, or an [Arc], to the front. *)
Lemma refs_guard h (s : GuestMemoryAtomic C) n gs1 g gs2 as_ es ms rs :
  map_refs (System h s n (gs1 ++ g :: gs2) as_ es ms rs) ≡ₚ guard g :: map_refs (System h s n (gs1 ++ gs2) as_ es ms rs).
Proof.
  unfold map_refs, current. cbn [s_clones s_atomic s_guards s_arcs]. rewrite !fmap_app, fmap_cons.
  rewrite <-(Permutation_middle (guard <$> gs1)). symmetry. apply Permutation_middle.
Qed.
Lemma refs_arc h (s : GuestMemoryAtomic C) n gs as1 a as2 es ms rs :
  map_refs (System h s n gs (as1 ++ a :: as2) es ms rs) ≡ₚ a :: map_refs (System h s n gs (as1 ++ as2) es ms rs).
Proof.
  unfold map_refs, current. cbn [s_clones s_atomic s_guards s_arcs].
  rewrite <-(Permutation_middle as1), <-(Permutation_middle (guard <$> gs)). symmetry. apply Permutation_middle.
Qed.
Lemma heap_ok_world h l (w : region_heap W) : heap_ok h l → heap_ok (set_world h w) l.
Proof. intros [? ? ? ?]. by split. Qed.

Lemma sys_ok_step x x' : sys_ok x → s_step x x' → sys_ok x'.
Proof.
  intros [Hh Hp] Hstep. destruct Hstep as [h s n gs as_ es ms rs g h' E|h s n gs as_ es ms rs g g' h' Hg E|
    h s n gs1 g gs2 as_ es ms rs|h s n gs1 g gs2 as_ es ms rs h' E|h s n gs as1 a as2 es ms rs h' E|
    h s n gs as_ es ms rs t r g s' E Hr|h s n gs as_ es1 g es2 ms rs b|h s n gs as_ es1 g es2 ms1 m ms2 rs s' h' E|
    h s n gs as_ es ms rs w' ms' rs' E| |h s n gs as_ es ms rs n' h' Hes E]; cbn [s_maps s_owned s_regions] in *.
  - pose proof (sys_memory_ok h s _ ms rs Hh ltac:(left) Hp) as Hc. rewrite E in Hc. destruct Hc as (Hg & Hh' & Hp').
    split; [|done]. exact (proj2 (heap_ok_proper h' _ _ (refs_guard h' s (S n) [] g gs as_ es ms rs)) Hh').
  - pose proof (sys_guard_clone_ok h g _ ms rs Hh) as Hc. rewrite E in Hc. destruct Hc as (Hg' & Hh' & Hp'); [|done|].
    { apply elem_of_app. right. apply elem_of_app. left. by apply list_elem_of_fmap_2. }
    split; [|done]. rewrite <-Hg' in Hh'. exact (proj2 (heap_ok_proper h' _ _ (refs_guard h' s n [] g' gs as_ es ms rs)) Hh').
  - split; [|done]. rewrite refs_guard in Hh. exact (proj2 (heap_ok_proper h _ _ (refs_arc h s n (gs1 ++ gs2) [] (guard g) as_ es ms rs)) Hh).
  - rewrite refs_guard in Hh. pose proof (drop_ref h _ _ ms rs Hh Hp) as Hc. rewrite E in Hc. by destruct Hc.
  - rewrite refs_arc in Hh. pose proof (drop_ref h _ _ ms rs Hh Hp) as Hc. rewrite E in Hc. by destruct Hc.
  - split; [|done]. unfold map_refs, current, atomic_load in *. unfold lock in E.
    cbn [s_maps s_clones s_atomic s_guards s_arcs] in *.
    destruct (holder (inner_1 s)); [done|]. by injection E as _ <-.
  - by split.
  - pose proof (sys_replace_ok h s g _ ms1 m ms2 rs Hh Hp) as Hc. rewrite E in Hc. by destruct Hc.
  - split; [by apply heap_ok_world|]. exact (p_ok_step _ _ Hp E).
  - by split.
  - destruct n as [|n]; [|by injection E as <- <-]. cbn [sys_drop] in E.
    pose proof (drop_ref h _ (atomic_load s) ms rs Hh Hp) as Hc.
    destruct (arc_drop h (atomic_load s)) as [h1| | |]; [|done..]. injection E as <- <-. by destruct Hc.
Qed.

Lemma sys_reachable_ok w x : s_reachable w x → sys_ok x.
Proof.
  induction 1 as [r ms1 m ms2 rs s h Hr E|x x' _ IH Hstep]; [|by eapply sys_ok_step].
  apply p_reachable_ok in Hr. set (h0 := Heap ∅ 0 [] r : map_heap W).
  assert (heap_ok h0 []) as Hh0.
  { split; simpl; [done|intros a; rewrite elem_of_nil; split; [lia|by intros [[? ?]|[]]]|constructor|].
    by intros a ?%elem_of_nil. }
  assert (p_ok (regions_of h0 (ms1 ++ m :: ms2) rs)) as Hp0.
  { unfold regions_of. assert (live h0 = []) as -> by done. by rewrite app_nil_r. }
  pose proof (new_ref h0 [] m ms1 ms2 rs Hh0 Hp0) as Hn. unfold sys_from in E. fold h0 in E.
  destruct (arc_new h0 m) as [a h1]. injection E as <- <-. destruct Hn as [Hh Hp].
  split; [|done]. unfold map_refs, current. cbn [s_clones s_atomic s_guards s_arcs s_maps]. unfold atomic_load, atomic_from.
  cbn [inner_0]. by rewrite load_new.
Qed.

(** ** What the steps keep *)
Lemma arc_drop_world h a h' : arc_drop h a = Ret h' → extends (world h) (world h').
Proof.
  unfold arc_drop. destruct (objects h !! a) as [[m n]|]; [|done].
  destruct n as [|[|n]]; [..|by intros [= <-]];
    (destruct (drop_in_place (world h) m) as [w| | |] eqn:E; [|done..]; rewrite bind_ret; intros [= <-]);
    exact (vec_drop_extends _ _ _ E).
Qed.
Lemma arc_clone_world h a h' : arc_clone h a = Ret h' → extends h h' ∧ extends (world h) (world h').
Proof.
  intros E. split; [eauto with heap|]. unfold arc_clone in E.
  destruct (objects h !! a) as [[m n]|]; [|done]. by injection E as <-.
Qed.
Lemma s_step_extends x x' : s_step x x' →
  extends (s_maps x) (s_maps x') ∧ extends (world (s_maps x)) (world (s_maps x')).
Proof.
  destruct 1 as [h s n gs as_ es ms rs g h' E|h s n gs as_ es ms rs g g' h' Hg E| |
    h s n gs1 g gs2 as_ es ms rs h' E|h s n gs as1 a as2 es ms rs h' E| | |
    h s n gs as_ es1 g es2 ms1 m ms2 rs s' h' E|h s n gs as_ es ms rs w' ms' rs' E| |
    h s n gs as_ es ms rs n' h' Hes E]; cbn [s_maps]; try done.
  - unfold sys_memory in E. cbn [space_memory Atomic_AddressSpace] in E. destruct (arc_clone h _) as [h1| | |] eqn:Ec; [|done..].
    injection E as <- <-. by eapply arc_clone_world.
  - unfold sys_guard_clone in E. cbn [space_clone Atomic_AddressSpace] in E. destruct (arc_clone h _) as [h1| | |] eqn:Ec; [|done..].
    injection E as <- <-. by eapply arc_clone_world.
  - split; [eauto with heap|by eapply arc_drop_world].
  - split; [eauto with heap|by eapply arc_drop_world].
  - unfold sys_replace in E. destruct (arc_new h m) as [a h1] eqn:En.
    destruct (arc_drop h1 _) as [h2| | |] eqn:Ed; [|done..]. injection E as <- <-.
    assert (world h1 = world h) as <- by (by injection En as _ <-).
    split; [etrans; eauto with heap|by eapply arc_drop_world].
  - split; [split; [done|by right]|]. apply p_step_extends in E. exact E.
  - destruct n as [|n]; [|by injection E as _ <-]. cbn [sys_drop] in E.
    destruct (arc_drop h _) as [h1| | |] eqn:Ed; [|done..]. injection E as _ <-.
    split; [eauto with heap|by eapply arc_drop_world].
Qed.
Lemma s_steps_keep x x' : sys_ok x → s_steps x x' →
  sys_ok x' ∧ extends (s_maps x) (s_maps x') ∧ extends (world (s_maps x)) (world (s_maps x')).
Proof.
  intros Hok. induction 1 as [|x x1 x2 Hstep _ IH]; [done|].
  destruct IH as (? & ? & ?); [by eapply sys_ok_step|]. destruct (s_step_extends _ _ Hstep).
  split_and!; [done|by etrans..].
Qed.

(** ** What the steps unmap *)
Lemma map_drop_drops h a h' : arc_drop h a = Ret h' → drops (world h) (world h').
Proof.
  unfold arc_drop. destruct (objects h !! a) as [[m n]|]; [|done].
  destruct n as [|[|n]]; [..|by intros [= <-]];
    (destruct (drop_in_place (world h) m) as [w| | |] eqn:E; [|done..]; rewrite bind_ret; intros [= <-]);
    exact (vec_drop_drops _ _ _ E).
Qed.
Lemma map_clone_drops h a h' : arc_clone h a = Ret h' → drops (world h) (world h').
Proof.
  unfold arc_clone. destruct (objects h !! a) as [[m n]|]; [|done]. by intros [= <-].
Qed.

(** [x] in another state of the system. *)
Definition with_system x (w : W) : system W C :=
  let r := world (s_maps x) in
  System (set_world (s_maps x) (Heap (objects r) (next r) (freed r) w)) (s_atomic x) (s_clones x)
    (s_guards x) (s_arcs x) (s_locks x) (s_owned x) (s_regions x).

Lemma s_step_releases x x' : s_step x x' →
  (∃ released, releases (world (s_maps x)) (world (s_maps x')) released) ∨ ∃ w, x' = with_system x w.
Proof.
  assert (∀ h h', drops (world h) (world h') → (∃ released, releases (world h) (world h') released) ∨
    ∃ w, x' = with_system x w) as Hd by (intros h h' [_ ?]; by left).
  destruct 1 as [h s n gs as_ es ms rs g h' E|h s n gs as_ es ms rs g g' h' Hg E| |
    h s n gs1 g gs2 as_ es ms rs h' E|h s n gs as1 a as2 es ms rs h' E| | |
    h s n gs as_ es1 g es2 ms1 m ms2 rs s' h' E|h s n gs as_ es ms rs w' ms' rs' E| |
    h s n gs as_ es ms rs n' h' Hes E]; cbn [s_maps]; try by apply Hd.
  - unfold sys_memory in E. cbn [space_memory Atomic_AddressSpace] in E. destruct (arc_clone h _) as [h1| | |] eqn:Ec; [|done..].
    injection E as <- <-. by eapply Hd, map_clone_drops.
  - unfold sys_guard_clone in E. cbn [space_clone Atomic_AddressSpace] in E. destruct (arc_clone h _) as [h1| | |] eqn:Ec; [|done..].
    injection E as <- <-. by eapply Hd, map_clone_drops.
  - by eapply Hd, map_drop_drops.
  - by eapply Hd, map_drop_drops.
  - unfold sys_replace in E. destruct (arc_new h m) as [a h1] eqn:En.
    destruct (arc_drop h1 _) as [h2| | |] eqn:Ed; [|done..]. injection E as <- <-.
    assert (world h1 = world h) as <- by (by injection En as _ <-). by eapply Hd, map_drop_drops.
  - apply p_step_releases in E as [?|[w E]]; [by left|right]. injection E as -> E ->.
    apply app_inv_tail in E as ->. by exists w.
  - destruct n as [|n]; [|injection E as _ <-; by apply Hd]. cbn [sys_drop] in E.
    destruct (arc_drop h _) as [h1| | |] eqn:Ed; [|done..]. injection E as _ <-. by eapply Hd, map_drop_drops.
Qed.

(** A map that is referred to is there, with its regions. *)
Lemma sys_ok_map x a :
  sys_ok x → a ∈ map_refs x → ∃ m v, deref (s_maps x) a = Ret m ∧ value (world (s_maps x)) m = Ret v ∧
    regions_ok (regions v) ∧
    ∀ r, r ∈ am_regions m → r ∈ p_refs (regions_of (s_maps x) (s_owned x) (s_regions x)).
Proof.
  intros [Hh [Hw [_ Ht]]] Ha. destruct (heap_ok_deref _ _ a Hh Ha) as [m Hm].
  assert (m ∈ s_owned x ++ live (s_maps x)) as Hin.
  { apply elem_of_app. right. by eapply live_deref. }
  destruct (Ht m Hin) as (Hsub & v & Hv & Hok). exists m, v. split_and!; try done.
Qed.
(** C11: readers are not disturbed by updates, and nothing leaks: in every
    reachable state of a [GuestMemoryAtomic<GuestMemoryMmap>] and its clients,
    the current map and the map of every guard exist, are well formed and none of
    their regions has been released; a map is dropped, once, exactly when it is
    not current, or the last clone of the object is gone, and no guard refers to
    it; and a region is released, once, exactly when no map that exists, no memory
    and no [Arc] refers to it.  Releasing unmaps: the system calls of each step
    are, in order, a [munmap] with the address and the size of each region that
    the step releases and that owns its mapping (nothing for one that [build_raw]
    made), unless the step is one of a client that makes a mapping or accesses
    memory and touches no reference; a [from_regions] that fails releases, and so
    unmaps, all the regions given to it. *)
Theorem snapshots_protected w x :
  s_reachable w x → let r := world (s_maps x) in
  (∀ a, a ∈ map_refs x → ∃ m v, deref (s_maps x) a = Ret m ∧ value r m = Ret v ∧
    regions_ok (regions v) ∧ ∀ b, b ∈ am_regions m → (b ∉ freed r)) ∧
  NoDup (freed (s_maps x)) ∧ NoDup (freed r) ∧
  (∀ a, (a < next (s_maps x))%nat → (a ∈ freed (s_maps x) ↔ a ∉ map_refs x)) ∧
  (∀ b, (b < next r)%nat → (b ∈ freed r ↔ (b ∉ s_regions x) ∧
    (∀ m, m ∈ s_owned x → b ∉ am_regions m) ∧
    ∀ a m, a ∈ map_refs x → deref (s_maps x) a = Ret m → b ∉ am_regions m)) ∧
  (∀ x', s_step x x' →
    (∃ released, releases r (world (s_maps x')) released) ∨ ∃ w', x' = with_system x w') ∧
  (∀ pid regs e r', am_from_regions r pid regs = Ret (Err e, r') →
    freed r' = rev (seq (next r) (length regs)) ++ freed r ∧ world r' = foldl unmap (world r) regs).
Proof.
  intros Hx%sys_reachable_ok r. pose proof Hx as [Hh [Hw Ht]]. cbn [p_heap regions_of] in Hw.
  split_and!; [|apply Hh|apply Hw|intros a Hlt; by apply freed_unused| |apply s_step_releases|].
  - intros a Ha. destruct (sys_ok_map x a Hx Ha) as (m & v & ? & ? & ? & Hsub). exists m, v.
    split_and!; try done. intros b Hb. apply Hsub in Hb. intros Hf. revert Hb.
    apply (freed_unused _ _ _ Hw); [|done]. apply (allocated _ _ Hw). by right.
  - intros b Hlt. rewrite (freed_unused r _ b Hw Hlt). unfold p_refs, regions_of. cbn [p_arcs p_memories].
    rewrite elem_of_app, list_elem_of_bind. split.
    + intros Hn. split_and!; [tauto|..].
      * intros m Hm Hb. apply Hn. right. exists m. rewrite elem_of_app. tauto.
      * intros a m Ha Hm Hb. apply Hn. right. exists m. split; [done|]. rewrite elem_of_app. right. by eapply live_deref.
    + intros (Hr & Ho & Hl) [?|(m & Hb & [Hm|Hm]%elem_of_app)]; [done|by eapply Ho|].
      destruct (live_inv _ _ m Hh Hm) as (a & Ha & Hd). by eapply Hl.
  - intros pid regs e r' E. by apply am_from_regions_releases in E as [_ ?].
Qed.

(** C12: a guard, or the [Arc] that [into_inner] makes of it, is a consistent
    snapshot: whatever calls of whatever threads follow, the map that it
    refers to stays the same, with the same regions. *)
Theorem snapshot_consistent w x x' a :
  s_reachable w x → s_steps x x' → a ∈ map_refs x → a ∈ map_refs x' →
  ∃ m v, deref (s_maps x) a = Ret m ∧ deref (s_maps x') a = Ret m ∧
    value (world (s_maps x)) m = Ret v ∧ value (world (s_maps x')) m = Ret v.
Proof.
  intros Hx%sys_reachable_ok Hs Ha Ha'. destruct (s_steps_keep x x' Hx Hs) as (Hx' & He & Hew).
  destruct (sys_ok_map x a Hx Ha) as (m & v & Hm & Hv & _ & Hsub).
  destruct (sys_ok_map x' a Hx' Ha') as (m' & v' & Hm' & Hv' & _).
  pose proof Hx as [Hh [Hw _]]. cbn [p_heap regions_of] in Hw.
  pose proof (extends_deref _ _ _ _ He (heap_ok_next _ _ _ Hh Ha) Hm') as E. rewrite Hm in E. injection E as <-.
  exists m, v. split_and!; try done. apply value_Ret in Hv as [Hp Hv], Hv' as [Hp' Hv'].
  apply value_Ret. split; [done|]. rewrite Hv'. f_equal.
  eapply vec_deref_extends; [exact Hew| |done|done]. intros b Hb. eapply heap_ok_next; [done|]. by apply Hsub.
Qed.

(** No call of the shared object follows a reference to a map or a region that is
    gone: as long as there is a clone of the object, [memory], the drop of the
    clone, and [replace] with a memory of the program return; and so do the clone
    and the drop of a guard, also when the object is gone. *)
Theorem snapshot_calls_return w x :
  s_reachable w x →
  (s_clones x ≠ 0%nat →
    (∃ g h', sys_memory (s_maps x) (s_atomic x) = Ret (g, h')) ∧
    (∃ n h', sys_drop (s_maps x) (s_atomic x) (s_clones x) = Ret (n, h')) ∧
    ∀ g m, m ∈ s_owned x → ∃ s' h', sys_replace (s_maps x) (s_atomic x) g m = Ret (s', h')) ∧
  (∀ g, g ∈ s_guards x → (∃ g' h', sys_guard_clone (s_maps x) g = Ret (g', h')) ∧
    ∃ h', arc_drop (s_maps x) (guard g) = Ret h') ∧
  (∀ a, a ∈ s_arcs x → ∃ h', arc_drop (s_maps x) a = Ret h').
Proof.
  intros Hx%sys_reachable_ok. destruct x as [h s n gs as_ es ms rs]. destruct Hx as [Hh Hp].
  cbn [s_maps s_atomic s_clones s_guards s_arcs s_owned s_regions] in *. split_and!.
  - destruct n as [|n]; [done|]. intros _. split_and!.
    + destruct (wp_inv _ _ (sys_memory_ok h s _ ms rs Hh ltac:(left) Hp)) as ([g h'] & E & _). eauto.
    + destruct n as [|n]; [|by eexists _, _].
      destruct (wp_inv _ _ (drop_ref h _ (atomic_load s) ms rs Hh Hp)) as (h' & E & _).
      exists 0%nat, h'. cbn [sys_drop]. by rewrite E.
    + intros g m Hm. apply list_elem_of_split in Hm as (ms1 & ms2 & ->).
      destruct (wp_inv _ _ (sys_replace_ok h s g _ ms1 m ms2 rs Hh Hp)) as ([s' h'] & E & _). eauto.
  - intros g Hg. apply list_elem_of_split in Hg as (gs1 & gs2 & ->). rewrite refs_guard in Hh. split.
    + destruct (wp_inv _ _ (sys_guard_clone_ok h g _ ms rs Hh ltac:(left) Hp)) as ([g' h'] & E & _). eauto.
    + destruct (wp_inv _ _ (drop_ref h _ _ ms rs Hh Hp)) as (h' & E & _). eauto.
  - intros a Ha. apply list_elem_of_split in Ha as (as1 & as2 & ->). rewrite refs_arc in Hh.
    destruct (wp_inv _ _ (drop_ref h _ _ ms rs Hh Hp)) as (h' & E & _). eauto.
Qed.

(** ** Releasing everything *)
Lemma s_steps_trans x y z : s_steps x y → s_steps y z → s_steps x z.
Proof. induction 1; [done|]. intros. econstructor; eauto. Qed.
(** Steps that drop references only. *)
Definition drained x x' : Prop := s_steps x x' ∧ drops (world (s_maps x)) (world (s_maps x')).
Lemma drained_trans x y z : drained x y → drained y z → drained x z.
Proof. intros [? ?] [? ?]. split; [by eapply s_steps_trans|by etrans]. Qed.
Lemma drained_step x x' : s_step x x' → drops (world (s_maps x)) (world (s_maps x')) → drained x x'.
Proof. intros. split; [|done]. econstructor; [done|constructor]. Qed.
(** When the objects of a list can be dropped one at a time, all of them can. *)
Lemma drain {A St} (mk : St → list A → system W C) :
  (∀ st y ys, sys_ok (mk st (y :: ys)) → ∃ st', s_step (mk st (y :: ys)) (mk st' ys) ∧
    drops (world (s_maps (mk st (y :: ys)))) (world (s_maps (mk st' ys)))) →
  ∀ ys st, sys_ok (mk st ys) → ∃ st', drained (mk st ys) (mk st' []) ∧ sys_ok (mk st' []).
Proof.
  intros Hdrop. induction ys as [|y ys IH]; intros st Hx; [exists st; split; [split; [constructor|done]|done]|].
  destruct (Hdrop st y ys Hx) as (st1 & Hstep & Hd).
  destruct (IH st1) as (st' & ? & ?); [by eapply sys_ok_step|].
  exists st'. split; [|done]. eapply drained_trans; [by apply drained_step|done].
Qed.

(** Dropping the guards, the [Arc]s, the exclusive guards and the clones in turn. *)
Lemma drain_all h s n gs as_ es ms rs :
  sys_ok (System h s n gs as_ es ms rs : system W C) →
  ∃ h' s', drained (System h s n gs as_ es ms rs) (System h' s' 0 [] [] [] ms rs) ∧
    sys_ok (System h' s' 0 [] [] [] ms rs).
Proof.
  intros Hx.
  destruct (drain (λ h gs, System h s n gs as_ es ms rs)) with gs h as (h1 & S1 & X1); [|done|].
  { intros h1 g l [Hh Hp]. rewrite (refs_guard h1 s n [] g l) in Hh.
    destruct (wp_inv _ _ (drop_ref h1 _ _ ms rs Hh Hp)) as (h2 & E & _).
    exists h2. split; [by apply (s_drop_guard h1 s n [] g l)|by eapply map_drop_drops]. }
  destruct (drain (λ h as_, System h s n [] as_ es ms rs)) with as_ h1 as (h2 & S2 & X2); [|done|].
  { intros h2 a l [Hh Hp]. rewrite (refs_arc h2 s n [] [] a l) in Hh.
    destruct (wp_inv _ _ (drop_ref h2 _ _ ms rs Hh Hp)) as (h3 & E & _).
    exists h3. split; [by apply (s_drop_arc h2 s n [] [] a l)|by eapply map_drop_drops]. }
  destruct (drain (λ s es, System h2 s n [] [] es ms rs)) with es s as (s3 & S3 & X3); [|done|].
  { intros s3 g l _. exists (drop_exclusive s3 g false). split; [|done]. apply (s_unlock h2 s3 n [] [] [] g l). }
  destruct (drain (λ h (ys : list unit), System h s3 (length ys) [] [] [] ms rs)) with (replicate n tt) h2
    as (h4 & S4 & X4); [|by rewrite length_replicate|].
  { intros h4 y ys [Hh Hp].
    assert (∃ h5, sys_drop h4 s3 (S (length ys)) = Ret (length ys, h5) ∧ drops (world h4) (world h5))
      as (h5 & E & Hd).
    { destruct ys as [|? ys]; [|by eexists].
      destruct (wp_inv _ _ (drop_ref h4 _ (atomic_load s3) ms rs Hh Hp)) as (h5 & E & _).
      exists h5. cbn [sys_drop length]. rewrite E. split; [done|by eapply map_drop_drops]. }
    exists h5. split; [by apply s_drop_object|done]. }
  rewrite length_replicate in S4. exists h4, s3. split; [|done].
  eapply drained_trans; [exact S1|]. eapply drained_trans; [exact S2|].
  by eapply drained_trans; [exact S3|].
Qed.

(** C13: everything can be released, and then is: from every reachable state the
    clients can drop their guards, their [Arc]s of maps and all clones of the
    object, in whatever states these are; afterwards no map exists any more,
    exactly those regions have been released that no memory and no [Arc] of the
    program itself refers to, and the system calls that were made are, in order, a
    [munmap] with the address and the size of each region released on the way that
    owns its mapping (a mapping that [build_raw] took over stays). *)
Theorem snapshots_released w x :
  s_reachable w x → let r := world (s_maps x) in
  ∃ x' released, s_steps x x' ∧
    s_clones x' = 0%nat ∧ s_owned x' = s_owned x ∧ s_regions x' = s_regions x ∧
    objects (s_maps x') = ∅ ∧ let r' := world (s_maps x') in
    next r' = next r ∧ freed r' = rev released.*1 ++ freed r ∧
    (∀ b, (b < next r)%nat →
      (b ∈ freed r' ↔ (b ∉ s_regions x) ∧ ∀ m, m ∈ s_owned x → b ∉ am_regions m)) ∧
    (∀ b g, (b, g) ∈ released → deref r b = Ret g) ∧
    world r' = foldl unmap (world r) released.*2.
Proof.
  intros Hx%sys_reachable_ok. destruct x as [h s n gs as_ es ms rs].
  destruct (drain_all _ _ _ _ _ _ _ _ Hx) as (h4 & s4 & (Hsteps & Hnext & released & [_ Hfr Hw Hreg]) & Hh & Hp).
  cbn [s_maps s_clones s_owned s_regions] in *. eexists _, released. split; [exact Hsteps|].
  cbn [s_maps s_clones s_owned s_regions] in *.
  assert (objects h4 = ∅) as Ho.
  { apply map_eq. intros a. rewrite lookup_empty. pose proof (counted _ _ Hh a) as Hc.
    destruct (objects h4 !! a) as [[m k]|]; [|done]. destruct Hc as [-> Hc]. by apply Nat.lt_irrefl in Hc. }
  destruct Hp as [Hheap _]. cbn [p_heap regions_of s_maps] in Hheap.
  split_and!; [done..| | |done].
  - intros b Hb. rewrite <-Hnext in Hb. rewrite (freed_unused _ _ b Hheap Hb).
    unfold p_refs, regions_of, live. cbn [s_maps s_owned s_regions p_arcs p_memories]. rewrite Ho.
    rewrite fmap_empty, map_to_list_empty, app_nil_r, elem_of_app, list_elem_of_bind. split.
    + intros Hn. split; [tauto|]. intros m Hm Hbm. apply Hn. right. by exists m.
    + intros [Hr Hown] [?|(m & Hbm & Hm)]; [done|by eapply Hown].
  - intros b g Hb. apply Hreg; [done|]. rewrite <-Hnext. apply (allocated _ _ Hheap). right.
    rewrite Hfr, elem_of_app, rev_alt. left. apply (elem_of_reverse_2 b released.*1).
    by apply (list_elem_of_fmap_2 fst _ (b, g)).
Qed.
End theorems.
