(* ===== verification/Display.v ===== *)
(** * Error messages

    The [Display] implementations of the error types ([volatile_memory.rs],
    [remote_mem.rs], [guest_memory.rs], [mmap_unix.rs], [mmap.rs]).  The text of an
    [io::Error] and of a [nix::Error] comes from outside the crate and is a
    parameter.  The theorem is that a message identifies its error. *)

From stdpp Require Import strings.
From Stdlib Require Import Ascii String.
From S2P Require Import Prelude Memory Address PlainData AtomicIntegers Bytes CopySlice Volatile Os RemoteMem GuestMemory MmapUnix Mmap.
#[local] Open Scope string_scope.
#[local] Open Scope Z_scope.

(** ** [{}] and [{:x}] for unsigned integers *)
Definition digit (d : Z) : ascii :=
  match String.get (Z.to_nat d) "0123456789abcdef" with Some c => c | None => "?"%char end.
Fixpoint render (fuel : nat) (base z : Z) (acc : string) : string :=
  match fuel with
  | O => acc
  | S fuel =>
      let acc := String (digit (z `mod` base)) acc in
      if z <? base then acc else render fuel base (z / base) acc
  end.
(** A number has no more digits than bits. *)
Definition radix (base z : Z) : string := render (S (Z.to_nat (Z.log2 z))) base z "".
Definition dec : Z → string := radix 10.
Definition hex : Z → string := radix 16.

(** ** The messages *)
Class Display (T : Type) := fmt : T → string.

Section messages.
Context `{Target} `{!Display io_error} `{!Display errno}.

#[export] Instance VolatileError_Display : Display VolatileError := λ e,
  match e with
  | OutOfBounds addr => "address 0x" +:+ hex addr +:+ " is out of bounds"
  | Overflow base offset => "address 0x" +:+ hex base +:+ " offset by 0x" +:+ hex offset +:+ " would overflow"
  | TooBig nelements size => dec nelements +:+ " elements of size " +:+ dec size +:+ " would overflow a usize"
  | Misaligned addr alignment => "address 0x" +:+ hex addr +:+ " is not aligned to " +:+ dec alignment
  | VIOError error => fmt error
  | VPartialBuffer expected completed =>
      "only used " +:+ dec completed +:+ " bytes in " +:+ dec expected +:+ " long buffer"
  end.

#[export] Instance RemoteError_Display : Display RemoteError := λ e,
  match e with
  | Rw e => "cannot read/write from remote process memory: " +:+ fmt e
  | ByteCount got should =>
      "reading from remote process memory: " +:+ dec got +:+ " bytes completed, "
        +:+ dec should +:+ " bytes expected"
  end.

#[export] Instance GuestError_Display : Display GuestError := λ e,
  "Guest memory error: " +:+
  match e with
  | InvalidGuestAddress addr => "invalid guest address " +:+ dec (raw_value addr)
  | GIOError error => fmt error
  | GPartialBuffer expected completed =>
      "only used " +:+ dec completed +:+ " bytes in " +:+ dec expected +:+ " long buffer"
  | InvalidBackendAddress => "invalid backend address"
  | HostAddressNotAvailable => "host virtual address not available"
  | RemoteMemError e => "memory of remote process not accessible: " +:+ fmt e
  end.

#[export] Instance MmapRegionError_Display : Display MmapRegionError := λ e,
  match e with
  | InvalidOffsetLength => "The specified file offset and length cause overflow when added"
  | InvalidPointer => "The specified pointer to the mapping is not page-aligned"
  | InvalidSize => "The specified size for the region is not a multiple of the page size"
  | MapFixed => "The forbidden `MAP_FIXED` flag was specified"
  | MappingOverlap => "Mappings using the same fd overlap in terms of file offset and length"
  | MappingPastEof => "The specified file offset and length is greater then file length"
  | MmapFailed error => fmt error
  end.

#[export] Instance MmapError_Display : Display MmapError := λ e,
  match e with
  | InvalidGuestRegion =>
      "Adding the guest base address to the length of the underlying mapping resulted in an overflow"
  | MmapRegionErr e => fmt e
  | NoMemoryRegion => "No memory region found"
  | MemoryRegionOverlap => "Some of the memory regions intersect with each other"
  | UnsortedMemoryRegions => "The provided memory regions haven't been sorted"
  end.
End messages.

(** ** Numerals *)
Definition digit_value (c : ascii) : Z :=
  match String.index 0 (String c "") "0123456789abcdef" with Some n => Z.of_nat n | None => -1 end.
Fixpoint parse (base v : Z) (s : string) : Z :=
  match s with "" => v | String c s => parse base (v * base + digit_value c) s end.

(** All characters are digits. *)
Fixpoint numeral (base : Z) (s : string) : bool :=
  match s with
  | "" => true
  | String c s => (0 <=? digit_value c) && (digit_value c <? base) && numeral base s
  end.

Lemma digit_value_digit d : 0 ≤ d < 16 → digit_value (digit d) = d.
Proof.
  intros ?. assert (d ∈ seqZ 0 16) as Hin by (apply elem_of_seqZ; lia).
  cut (Forall (λ d, digit_value (digit d) = d) (seqZ 0 16)); [intros Hf; rewrite Forall_elem in Hf; by apply Hf|].
  by repeat constructor.
Qed.
Section radix.
Context (base : Z) (Hbase : 2 ≤ base ≤ 16).

Lemma digit_mod z : 0 ≤ z → digit_value (digit (z `mod` base)) = z `mod` base.
Proof. intros ?. apply digit_value_digit. pose proof (Z.mod_pos_bound z base). lia. Qed.

Lemma parse_render fuel z acc : 0 ≤ z < 2 ^ Z.of_nat fuel → (0 < fuel)%nat →
  parse base 0 (render fuel base z acc) = parse base z acc.
Proof.
  revert z acc. induction fuel as [|fuel IH]; intros z acc Hz Hf; [lia|].
  cbn [render]. destruct (Z.ltb_spec z base).
  - cbn [parse]. rewrite digit_mod, Z.mod_small by lia. f_equal; lia.
  - assert (0 ≤ z / base < 2 ^ Z.of_nat fuel) as Hd.
    { split; [apply Z.div_pos; lia|]. apply Z.div_lt_upper_bound; [lia|].
      rewrite Nat2Z.inj_succ, Z.pow_succ_r in Hz by lia. nia. }
    rewrite IH; [|done|]; [|destruct fuel; [|lia]].
    + cbn [parse]. rewrite digit_mod by lia. f_equal. pose proof (Z.div_mod z base). lia.
    + simpl in Hd. assert (z / base = 0) as E%Z.div_small_iff by lia; lia.
Qed.
Lemma radix_enough z : 0 ≤ z → 0 ≤ z < 2 ^ Z.of_nat (S (Z.to_nat (Z.log2 z))).
Proof.
  intros ?. pose proof (Z.log2_nonneg z). rewrite Nat2Z.inj_succ, Z2Nat.id by done.
  destruct (decide (z = 0)) as [->|]; [by vm_compute|]. pose proof (Z.log2_spec z). lia.
Qed.
Lemma parse_radix z : 0 ≤ z → parse base 0 (radix base z) = z.
Proof. intros ?. unfold radix. rewrite parse_render; [done|by apply radix_enough|lia]. Qed.
Lemma radix_inj z z' : 0 ≤ z → 0 ≤ z' → radix base z = radix base z' → z = z'.
Proof. intros ? ? E. by rewrite <-(parse_radix z), <-(parse_radix z'), E. Qed.

Lemma numeral_render fuel z acc : 0 ≤ z → numeral base acc = true → numeral base (render fuel base z acc) = true.
Proof.
  revert z acc. induction fuel as [|fuel IH]; intros z acc Hz Ha; [done|]. cbn [render].
  assert (numeral base (String (digit (z `mod` base)) acc) = true).
  { cbn [numeral]. rewrite digit_mod, Ha by done. pose proof (Z.mod_pos_bound z base).
    by rewrite (proj2 (Z.leb_le _ _)), (proj2 (Z.ltb_lt _ _)) by lia. }
  destruct (z <? base); [done|]. apply IH; [apply Z.div_pos; lia|done].
Qed.
Lemma numeral_radix z : 0 ≤ z → numeral base (radix base z) = true.
Proof. intros ?. by apply numeral_render. Qed.
End radix.

Lemma numeral_dec z : 0 ≤ z → numeral 10 (dec z) = true.
Proof. apply numeral_radix. lia. Qed.
Lemma numeral_hex z : 0 ≤ z → numeral 16 (hex z) = true.
Proof. apply numeral_radix. lia. Qed.
Lemma dec_inj z z' : 0 ≤ z → 0 ≤ z' → dec z = dec z' → z = z'.
Proof. apply radix_inj. lia. Qed.
Lemma hex_inj z z' : 0 ≤ z → 0 ≤ z' → hex z = hex z' → z = z'.
Proof. apply radix_inj. lia. Qed.

(** A numeral ends at the first space, and starts with a digit. *)
Lemma numeral_space base x y s t :
  numeral base x = true → numeral base y = true →
  x +:+ String " " s = y +:+ String " " t → x = y ∧ s = t.
Proof.
  revert y. induction x as [|c x IH]; intros [|d y] Hx Hy E; simpl in E.
  - by injection E.
  - injection E as <- _. done.
  - injection E as -> _. done.
  - injection E as <- E. apply andb_true_iff in Hx as [_ Hx], Hy as [_ Hy].
    destruct (IH y Hx Hy E) as [-> ->]. done.
Qed.
Lemma numeral_start base x s c t :
  numeral base x = true → x +:+ String " " s = String c t → c = " "%char ∨ 0 ≤ digit_value c < base.
Proof.
  destruct x as [|d x]; intros Hx E; injection E as -> _; [by left|right].
  apply andb_true_iff in Hx as [Hx _]. apply andb_true_iff in Hx as [? ?]. lia.
Qed.

(** ** Messages identify their errors *)

(** Errors whose message is the crate's own. *)
Definition own_volatile (e : VolatileError) : Prop :=
  match e with
  | OutOfBounds a => 0 ≤ a
  | Overflow a b | TooBig a b | Misaligned a b | VPartialBuffer a b => 0 ≤ a ∧ 0 ≤ b
  | VIOError _ => False
  end.
Definition own_remote (e : RemoteError) : Prop :=
  match e with ByteCount a b => 0 ≤ a ∧ 0 ≤ b | Rw _ => False end.
Definition own_guest (e : GuestError) : Prop :=
  match e with
  | InvalidGuestAddress a => 0 ≤ ga_0 a
  | GPartialBuffer a b => 0 ≤ a ∧ 0 ≤ b
  | GIOError _ => False
  | RemoteMemError e => own_remote e
  | _ => True
  end.

(** Compares two messages from the left: text with text, number with number,
    and a decimal number with text that starts with no digit. *)
Lemma not_numeral x s c t : numeral 10 x = true → digit_value c = -1 ∨ digit_value c = 10 → c ≠ " "%char →
  x +:+ String " " s ≠ String c t.
Proof. intros Hx Hc Hs E. destruct (numeral_start 10 x s c t Hx E) as [|]; [done|lia]. Qed.

Lemma append_cons c (s t : string) : String c s +:+ t = String c (s +:+ t).
Proof. done. Qed.
Lemma append_nil (t : string) : "" +:+ t = t.
Proof. done. Qed.
Ltac match_text E := repeat (rewrite ?append_cons, ?append_nil in E; lazymatch type of E with
  | String _ _ = String _ _ => first [discriminate E | injection E as E]
  | hex _ +:+ _ = hex _ +:+ _ =>
      apply (numeral_space 16) in E as [?%hex_inj E]; [|by auto using numeral_hex..]
  | dec _ +:+ _ = dec _ +:+ _ =>
      apply (numeral_space 10) in E as [?%dec_inj E]; [|by auto using numeral_dec..]
  | dec _ = dec _ => apply dec_inj in E; [|by auto..]
  | dec _ +:+ _ = String _ _ =>
      apply not_numeral in E; [destruct E|by auto using numeral_dec|by auto|done]
  | String _ _ = dec _ +:+ _ => symmetry in E
  end); subst; try done.

Section unambiguous.
Context `{Target} `{!Display io_error} `{!Display errno}.

Lemma volatile_messages (e e' : VolatileError) :
  own_volatile e → own_volatile e' → fmt e = fmt e' → e = e'.
Proof.
  destruct e, e'; cbn [own_volatile]; try done; intros; destruct_and?;
    match goal with E : fmt _ = fmt _ |- _ => unfold fmt, VolatileError_Display in E; match_text E end.
Qed.
Lemma remote_messages (e e' : RemoteError) : own_remote e → own_remote e' → fmt e = fmt e' → e = e'.
Proof.
  destruct e, e'; cbn [own_remote]; try done; intros; destruct_and?;
    match goal with E : fmt _ = fmt _ |- _ => unfold fmt, RemoteError_Display in E; match_text E end.
Qed.
Lemma guest_messages (e e' : GuestError) : own_guest e → own_guest e' → fmt e = fmt e' → e = e'.
Proof.
  assert (∀ e, fmt e = "Guest memory error: " +:+ (λ e : GuestError, match e with
    | InvalidGuestAddress addr => "invalid guest address " +:+ dec (ga_0 addr)
    | GIOError error => fmt error
    | GPartialBuffer expected completed =>
        "only used " +:+ dec completed +:+ " bytes in " +:+ dec expected +:+ " long buffer"
    | InvalidBackendAddress => "invalid backend address"
    | HostAddressNotAvailable => "host virtual address not available"
    | RemoteMemError e => "memory of remote process not accessible: " +:+ fmt e
    end) e) as Hf by (by intros []).
  intros Ho Ho'. rewrite !Hf. intros E. injection E as E. rewrite !append_nil in E.
  destruct e as [a|?| | | |], e' as [a'|?| | | |]; cbn [own_guest] in *; try done; destruct_and?; match_text E.
  { destruct a, a'. simpl in E. by subst. }
  f_equal. by apply remote_messages.
Qed.

(** A message identifies its error, among those whose text is the crate's
    own: no two errors of a type with different contents have the same
    message. *)
Theorem messages_unambiguous :
  (∀ e e' : VolatileError, own_volatile e → own_volatile e' → fmt e = fmt e' → e = e') ∧
  (∀ e e' : RemoteError, own_remote e → own_remote e' → fmt e = fmt e' → e = e') ∧
  (∀ e e' : GuestError, own_guest e → own_guest e' → fmt e = fmt e' → e = e') ∧
  (∀ e e' : MmapRegionError, (∀ io, e ≠ MmapFailed io) → (∀ io, e' ≠ MmapFailed io) → fmt e = fmt e' → e = e') ∧
  (∀ e e' : MmapError, (∀ r, e ≠ MmapRegionErr r) → (∀ r, e' ≠ MmapRegionErr r) → fmt e = fmt e' → e = e').
Proof.
  split_and!; [apply volatile_messages|apply remote_messages|apply guest_messages|..];
    intros [] [] Ho Ho' E; try done; (exfalso; by eapply Ho) || (exfalso; by eapply Ho').
Qed.
End unambiguous.
