(* ===== verification/Tests.v ===== *)
(** * The unit tests of the crate

    The functions of the [mod tests] of [address.rs], [endian.rs], [bytes.rs],
    [volatile_memory.rs], [mmap_unix.rs], [mmap_windows.rs] and
    [atomic_integer.rs], run on the definitions of this library, for several
    targets and placements in memory: what the authors expect of the code holds
    of its model.  [assert!] is [rassert], a test returns or panics, and a test
    with [should_panic] panics.  The test that waits for another thread
    ([observe_mutate]) runs under a schedule of [Concurrency].  The tests of
    [mmap.rs], [guest_memory.rs] and [atomic.rs] are in [TestsMmap]. *)

From stdpp Require Import strings.
From S2P Require Import Prelude Memory Address PlainData AtomicIntegers Bytes CopySlice Volatile Os Linux RemoteMem Concurrency Endian GuestMemory MmapUnix Mmap MmapWindows Display.

(** ** Assertions *)
Definition assert_eq {A} `{EqDecision A} (a b : A) : outcome unit := rassert (bool_decide (a = b)).
Definition assert_ne {A} `{EqDecision A} (a b : A) : outcome unit := rassert (bool_decide (a ≠ b)).
Definition is_ok {A E} (r : result A E) : bool := match r with Ok _ => true | Err _ => false end.
Definition is_err {A E} (r : result A E) : bool := negb (is_ok r).
Definition unwrap_ok {A E} (r : result A E) : outcome A := match r with Ok a => Ret a | Err _ => Panic end.
Definition unwrap_err {A E} (r : result A E) : outcome E := match r with Ok _ => Panic | Err e => Ret e end.
(** [catch_unwind(..).is_err()]. *)
Definition catch_panics {A} (o : outcome A) : bool := match o with Panic => true | _ => false end.
Definition passes (test : outcome unit) : bool := match test with Ret _ => true | _ => false end.

Definition u64_max : Z := 2 ^ 64 - 1.

(** ** [src/src/address.rs] *)
Module AddressTests.
Record MockAddress := Mock { mock_0 : Z }.
#[export] Instance MockAddress_eq_dec : EqDecision MockAddress.
Proof. solve_decision. Defined.
#[export] Instance MockAddress_Address `{Target} : Address MockAddress := impl_address_ops Mock mock_0 64.

Section tests.
Context `{Target}.

Definition test_new : outcome unit :=
  _ ← assert_eq (new 0) (Mock 0);
  assert_eq (new u64_max) (Mock u64_max).

Definition test_offset_from : outcome unit :=
  let base := Mock 0x100 in
  let addr := Mock 0x150 in
  x ← unchecked_offset_from addr base;
  _ ← assert_eq x 0x50;
  _ ← assert_eq (checked_offset_from addr base) (Some 0x50);
  assert_eq (checked_offset_from base addr) None.

Definition test_equals : outcome unit :=
  let a := Mock 0x300 in
  let b := Mock 0x300 in
  let c := Mock 0x301 in
  _ ← assert_eq a (Mock (raw_value a));
  _ ← assert_eq a b;
  _ ← assert_eq b a;
  _ ← assert_ne a c;
  assert_ne c a.

Definition test_cmp : outcome unit :=
  let a := Mock 0x300 in
  let b := Mock 0x301 in
  rassert (mock_0 a <? mock_0 b).

Definition test_checked_align_up : outcome unit :=
  x ← checked_align_up (new 0x128 : MockAddress) 8;
  _ ← assert_eq x (Some (Mock 0x128));
  x ← checked_align_up (new 0x128 : MockAddress) 16;
  _ ← assert_eq x (Some (Mock 0x130));
  x ← checked_align_up (new (u64_max - 0x3fff) : MockAddress) 0x10000;
  assert_eq x None.

(** [#[should_panic]]. *)
Definition test_checked_align_up_invalid : outcome unit :=
  _x ← checked_align_up (new 0x128 : MockAddress) 12; Ret tt.

Definition test_unchecked_align_up : outcome unit :=
  x ← unchecked_align_up (new 0x128 : MockAddress) 8;
  _ ← assert_eq x (Mock 0x128);
  x ← unchecked_align_up (new 0x128 : MockAddress) 16;
  assert_eq x (Mock 0x130).

Definition test_mask : outcome unit :=
  let a := Mock 0x5050 in
  _ ← assert_eq (Mock 0x5000) (bitand a 0xff00);
  _ ← assert_eq 0x5000 (mask a 0xff00);
  assert_eq (Mock 0x5055) (bitor a 0x0005).

Definition check_add (a b : Z) (expected_overflow : bool) (expected_result : Z) : outcome unit :=
  _ ← assert_eq (Mock expected_result, expected_overflow) (overflowing_add (Mock a) b);
  if expected_overflow then
    _ ← assert_eq (checked_add (Mock a) b) None;
    if debug_assertions then rassert (catch_panics (unchecked_add (Mock a) b)) else Ret tt
  else
    _ ← assert_eq (Some (Mock expected_result)) (checked_add (Mock a) b);
    x ← unchecked_add (Mock a) b;
    assert_eq (Mock expected_result) x.

Definition test_add : outcome unit :=
  _ ← check_add 10 10 false 20;
  _ ← check_add (u64_max - 1) 1 false u64_max;
  check_add u64_max 1 true 0.

Definition check_sub (a b : Z) (expected_overflow : bool) (expected_result : Z) : outcome unit :=
  _ ← assert_eq (Mock expected_result, expected_overflow) (overflowing_sub (Mock a) b);
  if expected_overflow then
    _ ← assert_eq (checked_sub (Mock a) b) None;
    _ ← assert_eq (checked_offset_from (Mock a) (Mock b)) None;
    if debug_assertions then rassert (catch_panics (unchecked_sub (Mock a) b)) else Ret tt
  else
    _ ← assert_eq (Some (Mock expected_result)) (checked_sub (Mock a) b);
    _ ← assert_eq (Some expected_result) (checked_offset_from (Mock a) (Mock b));
    x ← unchecked_sub (Mock a) b;
    assert_eq (Mock expected_result) x.

Definition test_sub : outcome unit :=
  _ ← check_sub 20 10 false 10;
  _ ← check_sub 1 1 false 0;
  check_sub 0 1 true u64_max.

Definition test_bit_and : outcome unit := assert_eq (bitand (Mock 0x0ff0) 0xf00f) (Mock 0).
Definition test_default : outcome unit := assert_eq addr_default (Mock 0).

Definition test_bit_or : outcome unit := assert_eq (bitor (Mock 0x0ff0) 0xf00f) (Mock 0xffff).

Definition tests : list (outcome unit) :=
  [test_new; test_offset_from; test_equals; test_cmp; test_checked_align_up; test_unchecked_align_up;
   test_mask; test_add; test_sub; test_bit_and; test_bit_or; test_default].
End tests.

Example address_tests_pass :
  ∀ t, t ∈ [x86_64_debug; x86_64_release; armv7_debug] →
    forallb passes (tests (H := t)) = true ∧ test_checked_align_up_invalid (H := t) = Panic.
Proof.
  intros t. rewrite !elem_of_cons, elem_of_nil. by intros [->|[->|[->|[]]]]; vm_compute.
Qed.
End AddressTests.

(** ** [src/src/endian.rs] *)
Module EndianTests.
Section tests.
Context `{Target}.

(** The macro [endian_test!]: [native] is [NATIVE_LITTLE] or [NATIVE_BIG]. *)
Definition test_endian_type (o : order) (n : nat) (native : bool) : outcome unit :=
  _ ← assert_eq (align_of (endian o n)) (align_of (uint n));
  _ ← assert_eq (size_of (endian o n)) (size_of (uint n));
  let v : uint n := uint_of 0x0123456789ABCDEF in
  let endian_v : endian o n := endian_from v in
  let endian_into : uint n := endian_into endian_v in
  let endian_transmute : uint n := from_bytes (as_slice endian_v) in
  _ ← rassert (endian_eq_old endian_v (if native then endian_transmute else swap_bytes endian_transmute));
  _ ← assert_eq (uval endian_into) (uval v);
  _ ← assert_eq (uval (to_native endian_v)) (uval v);
  _ ← rassert (old_eq_endian v endian_v);
  rassert (endian_eq_old endian_v v).

Definition NATIVE_LITTLE : bool := negb target_big_endian.
Definition NATIVE_BIG : bool := negb NATIVE_LITTLE.

Definition tests : list (outcome unit) :=
  [test_endian_type LE 2 NATIVE_LITTLE; test_endian_type LE 4 NATIVE_LITTLE; test_endian_type LE 8 NATIVE_LITTLE;
   test_endian_type LE (Z.to_nat usize_bytes) NATIVE_LITTLE;
   test_endian_type BE 2 NATIVE_BIG; test_endian_type BE 4 NATIVE_BIG; test_endian_type BE 8 NATIVE_BIG;
   test_endian_type BE (Z.to_nat usize_bytes) NATIVE_BIG].
End tests.

Definition big_endian : Target := {|
  pointer_width_64 := true; overflow_checks := true; debug_assertions := true; target_big_endian := true |}.
Example endian_tests_pass :
  ∀ t, t ∈ [x86_64_debug; x86_64_release; armv7_debug; big_endian] → forallb passes (tests (H := t)) = true.
Proof.
  intros t. rewrite !elem_of_cons, elem_of_nil. by intros [->|[->|[->|[->|[]]]]]; vm_compute.
Qed.
End EndianTests.

(** ** [src/src/bytes.rs] *)
Module BytesTests.
Section tests.
Context `{Target}.

(** Helper method to test atomic accesses for a given [b : Bytes] that is
    zero-initialised. *)
Definition check_atomic_accesses {C A E W} `{Bytes C A E W} (b : C) (w : W) (addr bad_addr : A) : outcome unit :=
  let val : u32 := uint_of 100 in
  '(r, w) ← load u32 b w addr Relaxed;
  v ← unwrap_ok r;
  _ ← assert_eq (uval v) 0;
  '(r, w) ← store b w val addr Relaxed;
  _ ← unwrap_ok r;
  '(r, w) ← load u32 b w addr Relaxed;
  v ← unwrap_ok r;
  _ ← assert_eq (uval v) (uval val);
  '(r, w) ← load u32 b w bad_addr Relaxed;
  _ ← rassert (is_err r);
  '(r, w) ← store b w val bad_addr Relaxed;
  rassert (is_err r).

(** [data] is an array of 32 bytes at [base]; a reference to a value is its
    address, and the value there is compared. *)
Definition check_byte_valued_type (T : Type) `{ByteValued T} (base : Z) : outcome unit :=
  let m := store_list ∅ base (replicate 32 x00) in
  let data := Slice base 32 in
  let pre_len := (align_to T data).1.1 in
  aligned_data ← slice_range data pre_len (pre_len + size_of T);
  let val := as_slice (default_value : T) in
  a ← unwrap (from_slice T aligned_data);
  bs ← read_bytes m a (size_of T);
  _ ← assert_eq bs val;
  a ← unwrap (from_mut_slice T aligned_data);
  bs ← read_bytes m a (size_of T);
  _ ← assert_eq bs val;
  bs ← read_bytes m (s_ptr aligned_data) (s_len aligned_data);
  _ ← assert_eq val bs;
  _ ← foldl (λ o i,
        _ ← o;
        unaligned_data ← slice_range data (pre_len + i) (pre_len + i + size_of T);
        if negb (align_of T =? 1) then
          _ ← assert_eq (from_slice T unaligned_data) None;
          assert_eq (from_mut_slice T unaligned_data) None
        else Ret tt) (Ret tt) (seqZ 1 (size_of T - 1));
  _ ← assert_eq (from_slice T data) None;
  assert_eq (from_mut_slice T data) None.

Definition test_byte_valued (base : Z) : outcome unit :=
  _ ← check_byte_valued_type u8 base;
  _ ← check_byte_valued_type u16 base;
  _ ← check_byte_valued_type u32 base;
  _ ← check_byte_valued_type u64 base;
  _ ← check_byte_valued_type usize base;
  _ ← check_byte_valued_type i8 base;
  _ ← check_byte_valued_type i16 base;
  _ ← check_byte_valued_type i32 base;
  _ ← check_byte_valued_type i64 base;
  check_byte_valued_type isize base.

Definition MOCK_BYTES_CONTAINER_SIZE : Z := 10.

(** The container is the state that its methods change. *)
Inductive MockBytesContainer := MockBytes.
Definition container_new : list byte := replicate 10 x00.

Definition validate_slice_op (buf : list byte) (addr : Z) : outcome (result unit unit) :=
  d ← usub usize_bits MOCK_BYTES_CONTAINER_SIZE (lenZ buf);
  Ret (if d <=? addr then Err tt else Ok tt).

Definition mock_write_slice (self : MockBytesContainer) (container buf : list byte) (addr : Z)
    : outcome (result unit unit * list byte) :=
  r ← validate_slice_op buf addr;
  match r with
  | Err e => Ret (Err e, container)
  | Ok _ => container ← update_range container addr (addr + lenZ buf) buf; Ret (Ok tt, container)
  end.
(** [copy_from_slice] panics when the lengths differ. *)
Definition mock_read_slice (self : MockBytesContainer) (container buf : list byte) (addr : Z)
    : outcome (result unit unit * (list byte * list byte)) :=
  r ← validate_slice_op buf addr;
  match r with
  | Err e => Ret (Err e, (buf, container))
  | Ok _ =>
      src ← index_range container addr (lenZ buf);
      _ ← rassert (lenZ src =? lenZ buf);
      Ret (Ok tt, (src, container))
  end.
#[export] Instance Mock_Bytes : Bytes MockBytesContainer Z unit (list byte) := {|
  write _ _ _ _ := Panic;
  read _ _ _ _ := Panic;
  write_slice := mock_write_slice;
  read_slice := mock_read_slice;
  read_from := λ _ _ _ _ _ _ _, Panic;
  read_exact_from := λ _ _ _ _ _ _ _, Panic;
  write_to := λ _ _ _ _ _ _ _, Panic;
  write_all_to := λ _ _ _ _ _ _ _, Panic;
  store := λ _ _ _ _ _ _ _ _, Panic;
  load := λ _ _ _ _ _ _ _, Panic
|}.

Definition test_bytes : outcome unit :=
  let w := container_new in
  '(r, w) ← write_obj MockBytes w (uint_of u64_max : u64) 0;
  _ ← rassert (is_ok r);
  '(r, w) ← read_obj u64 MockBytes w 0;
  v ← unwrap_ok r;
  _ ← assert_eq (uval v) u64_max;
  '(r, w) ← write_obj MockBytes w (uint_of u64_max : u64) MOCK_BYTES_CONTAINER_SIZE;
  _ ← rassert (is_err r);
  '(r, w) ← read_obj u64 MockBytes w MOCK_BYTES_CONTAINER_SIZE;
  rassert (is_err r).

(** The struct [S { a: u32, b: u32 }] with [repr(C)] at [s], the array at [a]. *)
Definition byte_valued_slice (s a : Z) : outcome unit :=
  let m := store_list (store_list ∅ s (replicate 8 x00)) a [x00; x00; x00; x00; x01; x01; x01; x01] in
  m ← vs_copy_from u8 m (as_bytes (array u32 2) s) (Slice a 8);
  x ← read_bytes m s 4;
  _ ← assert_eq (uval (from_bytes x : u32)) 0;
  x ← read_bytes m (s + 4) 4;
  assert_eq (uval (from_bytes x : u32)) 0x01010101.

Definition tests (base : Z) : list (outcome unit) :=
  [test_byte_valued base; test_bytes; byte_valued_slice 0x1000 (base + 0x100)].
End tests.

Example bytes_tests_pass :
  ∀ t, t ∈ [x86_64_debug; x86_64_release; armv7_debug] →
    forallb (λ base, forallb passes (tests (H := t) base)) (seqZ 0x2000 8) = true.
Proof.
  intros t. rewrite !elem_of_cons, elem_of_nil. by intros [->|[->|[->|[]]]]; vm_compute.
Qed.
End BytesTests.

(** ** [src/src/volatile_memory.rs] *)
Module VolatileTests.

(** [Arc<[u8]>] of [vm_size] bytes at [vm_ptr]. *)
Record VecMem := VMem { vm_ptr : Z; vm_size : Z }.
#[export] Instance VecMem_len : VolatileLen VecMem := vm_size.
Definition vecmem_get_slice `{Target} (self : VecMem) (offset count : Z) : outcome (vresult VolatileSlice) :=
  match compute_end_offset self offset count with
  | Err e => Ret (Err e)
  | Ok _ => a ← uadd usize_bits (vm_ptr self) offset; Ret (Ok (VSlice a count))
  end.
#[export] Instance VecMem_VolatileMemory `{Target} : VolatileMemory VecMem := vecmem_get_slice.

Section tests.
Context `{Target} (base : Z).

(** A buffer, and a value, of the test function itself. *)
Definition buf_at : Z := 0x8000.
Definition obj_at : Z := 0x9000.
Definition buffer (m : mem) (bs : list byte) : slice * mem := (Slice buf_at (lenZ bs), store_list m buf_at bs).
Definition bytes_of (l : list Z) : list byte := byte_of <$> l.
Definition vec_new (size : Z) : VecMem * mem :=
  (VMem 0x1000 size, store_list ∅ 0x1000 (replicate (Z.to_nat size) x00)).
(** An array of elements of [n] bytes at the address [a]. *)
Definition array_at {n} (m : mem) (a : Z) (l : list Z) : mem :=
  store_list m a (concat ((λ z, as_slice (uint_of z : uint n)) <$> l)).
Definition elements_at n (m : mem) (a k : Z) : outcome (list Z) :=
  foldr (λ i o, xs ← o; bs ← read_bytes m (a + i * Z.of_nat n) (Z.of_nat n);
                Ret (uval (from_bytes bs : uint n) :: xs)) (Ret []) (seqZ 0 k).

Definition vs_write m s (bs : list byte) (addr : Z) : outcome (vresult Z * mem) :=
  let '(buf, m) := buffer m bs in VolatileBytes.write m s buf addr.
Definition vs_write_slice m s (bs : list byte) (addr : Z) : outcome (vresult unit * mem) :=
  let '(buf, m) := buffer m bs in VolatileBytes.write_slice m s buf addr.
Definition vs_read m s (bs : list byte) (addr : Z) : outcome (vresult Z * list byte) :=
  let '(buf, m) := buffer m bs in
  '(r, m) ← VolatileBytes.read m s buf addr;
  bs ← read_bytes m buf_at (lenZ bs); Ret (r, bs).
Definition vs_read_slice m s (bs : list byte) (addr : Z) : outcome (vresult unit * list byte) :=
  let '(buf, m) := buffer m bs in
  '(r, m) ← VolatileBytes.read_slice m s buf addr;
  bs ← read_bytes m buf_at (lenZ bs); Ret (r, bs).
(** [Bytes::write_obj] and [read_obj]. *)
Definition vs_write_obj {T} `{ByteValued T} m s (val : T) (addr : Z) : outcome (vresult unit * mem) :=
  VolatileBytes.write_slice (store_list m obj_at (as_slice val)) s (Slice obj_at (size_of T)) addr.
Definition vs_read_obj (T : Type) `{ByteValued T} m s (addr : Z) : outcome (vresult T) :=
  '(r, m) ← VolatileBytes.read_slice (store_list m obj_at (as_slice (default_value : T))) s
               (Slice obj_at (size_of T)) addr;
  match r with
  | Ok _ => bs ← read_bytes m obj_at (size_of T); Ret (Ok (from_bytes bs))
  | Err e => Ret (Err e)
  end.

Definition test_display_error : outcome unit :=
  let fmt := VolatileError_Display (Display0 := λ _, ""%string) in
  _ ← assert_eq (fmt (OutOfBounds 0x10)) "address 0x10 is out of bounds"%string;
  _ ← assert_eq (fmt (Overflow 0x0 0x10)) "address 0x0 offset by 0x10 would overflow"%string;
  _ ← assert_eq (fmt (TooBig 100000 1000000000))
        "100000 elements of size 1000000000 would overflow a usize"%string;
  _ ← assert_eq (fmt (Misaligned 0x4 8)) "address 0x4 is not aligned to 8"%string;
  assert_eq (fmt (VPartialBuffer 100 90)) "only used 90 bytes in 100 long buffer"%string.

Definition misaligned_ref : outcome unit :=
  let a_ref := Slice base 3 in
  x ← aligned_as_ref u16 a_ref 0;
  y ← aligned_as_ref u16 a_ref 1;
  _ ← rassert (xorb (is_err x) (is_err y));
  x ← aligned_as_mut u16 a_ref 0;
  y ← aligned_as_mut u16 a_ref 1;
  rassert (xorb (is_err x) (is_err y)).

Definition test_atomic_store : outcome unit :=
  let m := array_at (n := Z.to_nat usize_bytes) ∅ 0x1000 [0] in
  let a_ref := VSlice 0x1000 usize_bytes in
  r ← get_atomic_ref AtomicUsize a_ref 0;
  atomic ← unwrap_ok r;
  m ← atomic_store AtomicUsize m atomic (uint_of 2 : usize) Relaxed;
  a ← elements_at (Z.to_nat usize_bytes) m 0x1000 1;
  assert_eq a [2].

Definition test_atomic_load : outcome unit :=
  let m := array_at (n := Z.to_nat usize_bytes) ∅ 0x1000 [5] in
  let a_ref := VSlice 0x1000 usize_bytes in
  r ← get_atomic_ref AtomicUsize a_ref 0;
  atomic ← unwrap_ok r;
  v ← (atomic_load AtomicUsize m atomic Relaxed : outcome usize);
  _ ← assert_eq (uval v) 5;
  _v ← (atomic_load AtomicUsize m atomic Relaxed : outcome usize);
  Ret tt.

Definition misaligned_atomic : outcome unit :=
  let a_ref := VSlice 0x1000 usize_bytes in
  r ← get_atomic_ref AtomicUsize a_ref 0;
  _ ← rassert (is_ok r);
  r ← get_atomic_ref AtomicUsize a_ref 1;
  rassert (is_err r).

Definition ref_store : outcome unit :=
  let m := array_at (n := 1) ∅ base [0] in
  let a_ref := Slice base 1 in
  r ← get_ref u8 a_ref 0;
  v_ref ← unwrap_ok r;
  m ← vr_store m v_ref (uint_of 2);
  a ← elements_at 1 m base 1;
  assert_eq a [2].

Definition ref_load : outcome unit :=
  let m := array_at (n := 1) ∅ base [5] in
  let a_ref := Slice base 1 in
  r ← get_ref u8 a_ref 0;
  v_ref ← unwrap_ok r;
  v ← vr_load m v_ref;
  _ ← assert_eq (uval v) 5;
  _v ← vr_load m v_ref;
  Ret tt.

Definition ref_to_slice : outcome unit :=
  let m := array_at (n := 1) ∅ base [1; 1; 1; 1; 1] in
  let a_ref := Slice base 5 in
  r ← get_ref u32 a_ref 1;
  v_ref ← unwrap_ok r;
  _m ← vr_store m v_ref (uint_of 0x12345678);
  let ref_slice := vr_to_slice v_ref in
  _ ← assert_eq (vr_as_ptr v_ref) (vs_as_ptr ref_slice);
  _ ← assert_eq (vr_len v_ref) (vs_len ref_slice);
  rassert (negb (is_empty ref_slice)).

Definition mem_is_empty : outcome unit :=
  _ ← rassert (negb (is_empty (vec_new 100).1));
  rassert (is_empty (vec_new 0).1).

Definition test_slice_len : outcome unit :=
  let mem := (vec_new 100).1 in
  r ← vecmem_get_slice mem 0 27; slice ← unwrap_ok r;
  _ ← assert_eq (vs_len slice) 27;
  _ ← rassert (negb (is_empty slice));
  r ← vecmem_get_slice mem 34 27; slice ← unwrap_ok r;
  _ ← assert_eq (vs_len slice) 27;
  _ ← rassert (negb (is_empty slice));
  r ← vs_get_slice slice 20 5; slice ← unwrap_ok r;
  _ ← assert_eq (vs_len slice) 5;
  _ ← rassert (negb (is_empty slice));
  r ← vecmem_get_slice mem 34 0; slice ← unwrap_ok r;
  rassert (is_empty slice).

Definition usize_max : Z := 2 ^ usize_bits - 1.

Definition slice_subslice : outcome unit :=
  let '(mem, m) := vec_new 100 in
  r ← vecmem_get_slice mem 0 100; slice ← unwrap_ok r;
  '(r, m) ← vs_write m slice (replicate 80 x01) 10;
  _ ← rassert (is_ok r);
  r ← subslice slice 0 0; _ ← rassert (is_ok r);
  r ← subslice slice 0 101; _ ← rassert (is_err r);
  r ← subslice slice 99 0; _ ← rassert (is_ok r);
  r ← subslice slice 99 1; _ ← rassert (is_ok r);
  r ← subslice slice 99 2; _ ← rassert (is_err r);
  r ← subslice slice 100 0; _ ← rassert (is_ok r);
  r ← subslice slice 100 1; _ ← rassert (is_err r);
  r ← subslice slice 101 0; _ ← rassert (is_err r);
  r ← subslice slice 101 1; _ ← rassert (is_err r);
  r ← subslice slice usize_max 2; _ ← rassert (is_err r);
  r ← subslice slice 2 usize_max; _ ← rassert (is_err r);
  maybe_offset_slice ← subslice slice 10 80;
  _ ← rassert (is_ok maybe_offset_slice);
  offset_slice ← unwrap_ok maybe_offset_slice;
  _ ← assert_eq (vs_len offset_slice) 80;
  '(r, buf) ← vs_read m offset_slice (replicate 80 x00) 0;
  _ ← rassert (is_ok r);
  assert_eq buf (replicate 80 x01).

Definition slice_offset : outcome unit :=
  let '(mem, m) := vec_new 100 in
  r ← vecmem_get_slice mem 0 100; slice ← unwrap_ok r;
  '(r, m) ← vs_write m slice (replicate 80 x01) 10;
  _ ← rassert (is_ok r);
  r ← Volatile.offset slice 101; _ ← rassert (is_err r);
  maybe_offset_slice ← Volatile.offset slice 10;
  _ ← rassert (is_ok maybe_offset_slice);
  offset_slice ← unwrap_ok maybe_offset_slice;
  _ ← assert_eq (vs_len offset_slice) 90;
  '(r, buf) ← vs_read m offset_slice (replicate 90 x00) 0;
  _ ← rassert (is_ok r);
  _ ← assert_eq (take 80 buf) (replicate 80 x01);
  assert_eq (drop 80 buf) (replicate 10 x00).

Definition slice_copy_to_u8 : outcome unit :=
  let m := array_at (n := 1) (array_at (n := 1) (array_at (n := 1) ∅ base [2; 4; 6; 8; 10])
    0x4000 [0; 0; 0; 0]) 0x5000 [0; 0; 0; 0; 0; 0] in
  let a_ref := Slice base 5 in
  r ← slice_get_slice a_ref 0 (s_len a_ref); v_ref ← unwrap_ok r;
  '(_, m) ← vs_copy_to u8 m v_ref (Slice 0x4000 4);
  '(_, m) ← vs_copy_to u8 m v_ref (Slice 0x5000 6);
  a ← elements_at 1 m base 5; b ← elements_at 1 m 0x4000 4; c ← elements_at 1 m 0x5000 6;
  _ ← assert_eq b (take 4 a);
  assert_eq (take 5 c) (take 5 a).

Definition slice_copy_to_u16 : outcome unit :=
  let m := array_at (n := 2) (array_at (n := 2) (array_at (n := 2) ∅ 0x3000 [0x01; 0x2; 0x03; 0x4; 0x5])
    0x4000 [0; 0; 0; 0]) 0x5000 [0; 0; 0; 0; 0; 0] in
  let v_ref := VSlice 0x3000 9 in
  '(_, m) ← vs_copy_to u16 m v_ref (Slice 0x4000 4);
  '(_, m) ← vs_copy_to u16 m v_ref (Slice 0x5000 6);
  a ← elements_at 2 m 0x3000 5; b ← elements_at 2 m 0x4000 4; c ← elements_at 2 m 0x5000 6;
  _ ← assert_eq b (take 4 a);
  _ ← assert_eq (take 4 c) (take 4 a);
  assert_eq (c !! 4%nat) (Some 0).

Definition slice_copy_from_u8 : outcome unit :=
  let m := array_at (n := 1) (array_at (n := 1) (array_at (n := 1) ∅ base [2; 4; 6; 8; 10])
    0x4000 [0; 0; 0; 0]) 0x5000 [0; 0; 0; 0; 0; 0] in
  let b_ref := Slice 0x4000 4 in
  r ← slice_get_slice b_ref 0 (s_len b_ref); v_ref ← unwrap_ok r;
  m ← vs_copy_from u8 m v_ref (Slice base 5);
  a ← elements_at 1 m base 5; b ← elements_at 1 m 0x4000 4;
  _ ← assert_eq b (take 4 a);
  let c_ref := Slice 0x5000 6 in
  r ← slice_get_slice c_ref 0 (s_len c_ref); v_ref ← unwrap_ok r;
  m ← vs_copy_from u8 m v_ref (Slice base 5);
  c ← elements_at 1 m 0x5000 6;
  assert_eq (take 5 c) (take 5 a).

Definition slice_copy_from_u16 : outcome unit :=
  let m := array_at (n := 2) (array_at (n := 2) (array_at (n := 2) ∅ 0x3000 [2; 4; 6; 8; 10])
    0x4000 [0; 0; 0; 0]) 0x5000 [0; 0; 0; 0; 0; 0] in
  m ← vs_copy_from u16 m (VSlice 0x4000 8) (Slice 0x3000 5);
  a ← elements_at 2 m 0x3000 5; b ← elements_at 2 m 0x4000 4;
  _ ← assert_eq b (take 4 a);
  m ← vs_copy_from u16 m (VSlice 0x5000 9) (Slice 0x3000 5);
  c ← elements_at 2 m 0x5000 6;
  _ ← assert_eq (take 4 c) (take 4 a);
  assert_eq (c !! 4%nat) (Some 0).

Definition slice_copy_to_volatile_slice : outcome unit :=
  let m := array_at (n := 1) (array_at (n := 1) ∅ base [2; 4; 6; 8; 10]) 0x4000 [0; 0; 0; 0] in
  r ← slice_get_slice (Slice base 5) 0 5; a_slice ← unwrap_ok r;
  r ← slice_get_slice (Slice 0x4000 4) 0 4; b_slice ← unwrap_ok r;
  m ← vs_copy_to_volatile_slice m a_slice b_slice;
  b ← elements_at 1 m 0x4000 4;
  assert_eq b [2; 4; 6; 8].

Definition slice_overflow_error : outcome unit :=
  let a := (vec_new 1).1 in
  r ← vecmem_get_slice a usize_max 1; res ← unwrap_err r;
  assert_eq res (Overflow usize_max 1).

Definition slice_oob_error : outcome unit :=
  let a := (vec_new 100).1 in
  r ← vecmem_get_slice a 50 50; _ ← unwrap_ok r;
  r ← vecmem_get_slice a 55 50; res ← unwrap_err r;
  assert_eq res (OutOfBounds 105).

Definition ref_overflow_error : outcome unit :=
  let a := (vec_new 1).1 in
  r ← get_ref u8 a usize_max; res ← unwrap_err r;
  assert_eq res (Overflow usize_max 1).

Definition ref_oob_error : outcome unit :=
  let a := (vec_new 100).1 in
  r ← get_ref u8 a 99; _ ← unwrap_ok r;
  r ← get_ref u16 a 99; res ← unwrap_err r;
  assert_eq res (OutOfBounds 101).

Definition ref_oob_too_large : outcome unit :=
  let a := (vec_new 3).1 in
  r ← get_ref u32 a 0; res ← unwrap_err r;
  assert_eq res (OutOfBounds 4).

Definition slice_store : outcome unit :=
  let '(a, m) := vec_new 5 in
  s ← as_volatile_slice a;
  r ← get_ref u16 a 2; r ← unwrap_ok r;
  m ← vr_store m r (uint_of 9);
  v ← vs_read_obj u16 m s 2; v ← unwrap_ok v;
  assert_eq (uval v) 9.

Definition test_write_past_end : outcome unit :=
  let '(a, m) := vec_new 5 in
  s ← as_volatile_slice a;
  '(res, m) ← vs_write m s (bytes_of [1; 2; 3; 4; 5; 6]) 0;
  _ ← rassert (is_ok res);
  n ← unwrap_ok res;
  assert_eq n 5.

Definition slice_read_and_write : outcome unit :=
  let '(a, m) := vec_new 5 in
  s ← as_volatile_slice a;
  let sample_buf := bytes_of [1; 2; 3] in
  '(r, m) ← vs_write m s sample_buf 5; _ ← rassert (is_err r);
  '(r, m) ← vs_write m s sample_buf 2; _ ← rassert (is_ok r);
  let buf := bytes_of [0; 0; 0] in
  '(r, buf) ← vs_read m s buf 5; _ ← rassert (is_err r);
  '(r, buf) ← vs_read_slice m s buf 2; _ ← rassert (is_ok r);
  assert_eq buf sample_buf.

Definition obj_read_and_write : outcome unit :=
  let '(a, m) := vec_new 5 in
  s ← as_volatile_slice a;
  '(r, m) ← vs_write_obj m s (uint_of 55 : u16) 4; _ ← rassert (is_err r);
  '(r, m) ← vs_write_obj m s (uint_of 55 : u16) usize_max; _ ← rassert (is_err r);
  '(r, m) ← vs_write_obj m s (uint_of 55 : u16) 2; _ ← rassert (is_ok r);
  r ← vs_read_obj u16 m s 2; v ← unwrap_ok r;
  _ ← assert_eq (uval v) 55;
  r ← vs_read_obj u16 m s 4; _ ← rassert (is_err r);
  r ← vs_read_obj u16 m s usize_max; rassert (is_err r).

(** [/dev/zero] as far as it is read, a file that is empty, and a [Vec]. *)
Definition dev_zero : Cursor := {| c_data := replicate 64 x00; c_interrupts := 0; c_chunk := 63 |}.
Definition empty_file : Cursor := {| c_data := []; c_interrupts := 0; c_chunk := 63 |}.

Definition mem_read_and_write : outcome unit :=
  let '(a, m) := vec_new 5 in
  s ← as_volatile_slice a;
  '(r, m) ← vs_write_obj m s (uint_of (2 ^ 32 - 1) : u32) 1; _ ← rassert (is_ok r);
  '(r, (file, m)) ← VolatileBytes.read_exact_from m s 2 dev_zero 4; _ ← rassert (is_err r);
  '(r, (file, m)) ← VolatileBytes.read_exact_from m s usize_max file 4; _ ← rassert (is_err r);
  '(r, (file, m)) ← VolatileBytes.read_exact_from m s 1 file 4; _ ← rassert (is_ok r);
  '(r, (f, m)) ← VolatileBytes.read_exact_from m s 1 empty_file 4; _ ← rassert (is_err r);
  r ← vs_read_obj u32 m s 1; value ← unwrap_ok r;
  _ ← assert_eq (uval value) 0;
  let sink := empty_file in
  '(r, sink) ← VolatileBytes.write_all_to m s 1 sink 4; _ ← rassert (is_ok r);
  '(r, sink) ← VolatileBytes.write_all_to m s 2 sink 4; _ ← rassert (is_err r);
  '(r, sink) ← VolatileBytes.write_all_to m s usize_max sink 4; _ ← rassert (is_err r);
  assert_eq (c_data sink) (replicate 4 x00).

Definition unaligned_read_and_write : outcome unit :=
  let '(a, m) := vec_new 7 in
  s ← as_volatile_slice a;
  let sample_buf := bytes_of [1; 2; 0xAA; 0xAA; 0xAA; 0xAA; 4] in
  '(r, m) ← vs_write_slice m s sample_buf 0; _ ← rassert (is_ok r);
  r ← get_ref u32 a 2; r ← unwrap_ok r;
  v ← vr_load m r;
  _ ← assert_eq (uval v) 0xAAAAAAAA;
  m ← vr_store m r (uint_of 0x55555555);
  let sample_buf := bytes_of [1; 2; 0x55; 0x55; 0x55; 0x55; 4] in
  '(r, buf) ← vs_read_slice m s (replicate 7 x00) 0; _ ← rassert (is_ok r);
  assert_eq buf sample_buf.

Definition ref_array_from_slice : outcome unit :=
  let m := array_at (n := 1) ∅ base [2; 4; 6; 8; 10] in
  r ← slice_get_slice (Slice base 5) 0 5; a_slice ← unwrap_ok r;
  let a_array_ref := array_ref_of_slice a_slice in
  foldl (λ o '(i, entry), _ ← o; v ← va_load m a_array_ref i; assert_eq (uval v) entry) (Ret tt)
    [(0, 2); (1, 4); (2, 6); (3, 8); (4, 10)].

Definition ref_array_store : outcome unit :=
  let m := array_at (n := 1) ∅ base [0; 0; 0; 0; 0] in
  r ← get_array_ref u8 (Slice base 5) 1 4; v_ref ← unwrap_ok r;
  m ← va_store m v_ref 1 (uint_of 2);
  m ← va_store m v_ref 2 (uint_of 4);
  m ← va_store m v_ref 3 (uint_of 6);
  a ← elements_at 1 m base 5;
  assert_eq (drop 2 a) [2; 4; 6].

Definition ref_array_load : outcome unit :=
  let m := array_at (n := 1) ∅ base [0; 0; 2; 3; 10] in
  r ← get_array_ref u8 (Slice base 5) 1 4; v_ref ← unwrap_ok r;
  v ← va_load m v_ref 1; _ ← assert_eq (uval v) 2;
  v ← va_load m v_ref 2; _ ← assert_eq (uval v) 3;
  v ← va_load m v_ref 3; _ ← assert_eq (uval v) 10;
  _v ← va_load m v_ref 0;
  Ret tt.

Definition ref_array_overflow : outcome unit :=
  r ← get_array_ref u32 (Slice base 5) 4 usize_max; res ← unwrap_err r;
  assert_eq res (TooBig usize_max 4).

Definition test_alignment : outcome unit :=
  let a := base + align_offset base 32 in
  x ← alignment a; _ ← rassert (32 <=? x);
  x ← alignment (a + 9); _ ← assert_eq x 1;
  x ← alignment (a + 30); _ ← assert_eq x 2;
  x ← alignment (a + 12); _ ← assert_eq x 4;
  x ← alignment (a + 8); assert_eq x 8.

(** [Bytes<usize>] for the slice, with buffers as above. *)
#[local] Instance slice_Bytes : Bytes VolatileSlice Z VolatileError mem := {|
  write s m bs a := vs_write m s bs a;
  read s m bs a := '(r, bs) ← vs_read m s bs a; Ret (r, (bs, m));
  write_slice s m bs a := vs_write_slice m s bs a;
  read_slice s m bs a := '(r, bs) ← vs_read_slice m s bs a; Ret (r, (bs, m));
  read_from := λ F _ s m a src n, VolatileBytes.read_from m s a src n;
  read_exact_from := λ F _ s m a src n, VolatileBytes.read_exact_from m s a src n;
  write_to := λ F _ s m a dst n, '(r, dst) ← VolatileBytes.write_to m s a dst n; Ret (r, (dst, m));
  write_all_to := λ F _ s m a dst n, '(r, dst) ← VolatileBytes.write_all_to m s a dst n; Ret (r, (dst, m));
  store := λ T _ _ s m v a o, VolatileBytes.store m s v a o;
  load := λ T _ _ s m a o, r ← VolatileBytes.load m s a o; Ret (r, m)
|}.
Definition test_atomic_accesses : outcome unit :=
  let '(a, m) := vec_new 0x1000 in
  s ← as_volatile_slice a;
  BytesTests.check_atomic_accesses s m 0 0x1000.

Definition test_split_at : outcome unit :=
  r ← slice_get_slice (Slice base 32) 0 32; vslice ← unwrap_ok r;
  r ← split_at vslice 8; '(start, end_) ← unwrap_ok r;
  _ ← assert_eq (vs_len start) 8; _ ← assert_eq (vs_len end_) 24;
  r ← split_at vslice 0; '(start, end_) ← unwrap_ok r;
  _ ← assert_eq (vs_len start) 0; _ ← assert_eq (vs_len end_) 32;
  r ← split_at vslice 31; '(start, end_) ← unwrap_ok r;
  _ ← assert_eq (vs_len start) 31; _ ← assert_eq (vs_len end_) 1;
  r ← split_at vslice 32; '(start, end_) ← unwrap_ok r;
  _ ← assert_eq (vs_len start) 32; _ ← assert_eq (vs_len end_) 0;
  r ← split_at vslice 33; err ← unwrap_err r;
  rassert (match err with OutOfBounds _ => true | _ => false end).

Definition tests : list (outcome unit) :=
  [test_display_error; misaligned_ref; test_atomic_store; test_atomic_load; misaligned_atomic; ref_store;
   ref_load; ref_to_slice; mem_is_empty; test_slice_len; slice_subslice; slice_offset; slice_copy_to_u8;
   slice_copy_to_u16; slice_copy_from_u8; slice_copy_from_u16; slice_copy_to_volatile_slice;
   slice_overflow_error; slice_oob_error; ref_overflow_error; ref_oob_error; ref_oob_too_large; slice_store;
   test_write_past_end; slice_read_and_write; obj_read_and_write; mem_read_and_write;
   unaligned_read_and_write; ref_array_from_slice; ref_array_store; ref_array_load; ref_array_overflow;
   test_alignment; test_atomic_accesses; test_split_at].
End tests.

(** *** The test with two threads, in which each access is a turn *)
Section observe_mutate.
Context `{Target}.

Definition RETRY_MAX : Z := if debug_assertions then 500000000 else 10000000000.

Definition load_turn (v_ref : VolatileRef u8) (k : Z → outcome (thread mem unit)) : thread mem unit :=
  Running (λ m, v ← vr_load m v_ref; t ← k (uval v); Ret (t, m)).
(** [2^n] rounds of the loop, and what follows it. *)
Fixpoint retry_loop (v_ref : VolatileRef u8) (n : nat) (k : Z → thread mem unit) (retry : Z) : thread mem unit :=
  match n with
  | O => load_turn v_ref (λ v,
      if (v =? 99) && (retry <? RETRY_MAX) then retry ← uadd usize_bits retry 1; Ret (k retry)
      else _ ← assert_ne retry RETRY_MAX;
           Ret (load_turn v_ref (λ v, _ ← assert_eq v 0; Ret (Finished tt))))
  | S n => retry_loop v_ref n (retry_loop v_ref n k) retry
  end.
(** The thread of the test, and the one that it spawns after its first turn. *)
Definition observer (v_ref : VolatileRef u8) : thread mem unit :=
  Running (λ m, m ← vr_store m v_ref (uint_of 99);
    Ret (load_turn v_ref (λ v, _ ← assert_eq v 99;
           Ret (retry_loop v_ref 34 (λ _, Running (λ _, OutOfFuel)) 0)), m)).
Definition mutator (clone_v_ref : VolatileRef u8) : thread mem unit :=
  Running (λ m, m ← vr_store m clone_v_ref (uint_of 0); Ret (Finished tt, m)).

Definition observe_mutate (schedule : list nat) : outcome unit :=
  let '(a, m) := vec_new 1 in
  r ← get_ref u8 a 0; v_ref ← unwrap_ok r;
  r ← get_ref u8 a 0; clone_v_ref ← unwrap_ok r;
  '(ts, m) ← run_pool schedule ([observer v_ref; mutator clone_v_ref], m);
  match ts with [Finished _; Finished _] => Ret tt | _ => OutOfFuel end.
End observe_mutate.

(** When the spawned thread writes after the first assertion the change is seen;
    the test fails when it writes before. *)
Example observe_mutate_passes :
  ∀ t, t ∈ [x86_64_debug; x86_64_release; armv7_debug] →
    forallb (λ n, passes (observe_mutate (H := t) (replicate (2 + n) 0 ++ [1; 0; 0])%nat)) (seq 0 20) = true ∧
    observe_mutate (H := t) [0; 1; 0]%nat = Panic.
Proof.
  intros t. rewrite !elem_of_cons, elem_of_nil. by intros [->|[->|[->|[]]]]; vm_compute.
Qed.

(** For eight placements of the arrays of bytes. *)
Example volatile_tests_pass :
  ∀ t, t ∈ [x86_64_debug; x86_64_release; armv7_debug] →
    forallb (λ base, forallb passes (tests (H := t) base)) (seqZ 0x2000 8) = true.
Proof.
  intros t. rewrite !elem_of_cons, elem_of_nil. by intros [->|[->|[->|[]]]]; vm_compute.
Qed.
End VolatileTests.

(** ** [src/src/mmap_unix.rs] *)
Module MmapUnixTests.

(** [Error::raw_os_error] of the tests, [i32::MIN] for other variants. *)
Definition raw_os_error (e : MmapRegionError) : Z :=
  match e with MmapFailed (IoError (OtherKind code)) => code | _ => - 2 ^ 31 end.

Section tests.
Context `{Target} (down : bool).
Implicit Types (w : linux) (r : MmapRegion linux).

Definition file_at (fd start : Z) : FileOffset linux := file_offset_new (W := linux) fd start.

(** The assertions that are made of every new region. *)
Definition check_anonymous r (size : Z) (huge : option bool) : outcome unit :=
  _ ← assert_eq (MmapUnix.size r) size;
  _ ← rassert (negb (bool_decide (is_Some (fo_get_start <$> mmap_file_offset r))));
  _ ← assert_eq (mmap_prot r) (Z.lor PROT_READ PROT_WRITE);
  _ ← assert_eq (mmap_flags r) (Z.lor (Z.lor MAP_ANONYMOUS MAP_NORESERVE) MAP_PRIVATE);
  assert_eq (mmap_is_hugetlbfs r) huge.

Definition test_mmap_region_new : outcome unit :=
  let '(r, w) := mmap_region_new (linux_start down) 0 in
  _ ← rassert (is_err r);
  let '(r, w) := mmap_region_new w 4096 in
  r ← unwrap_ok r;
  _ ← assert_eq (MmapUnix.size r) 4096;
  _ ← rassert (negb (bool_decide (is_Some (fo_get_start <$> mmap_file_offset r))));
  _ ← assert_eq (mmap_prot r) (Z.lor PROT_READ PROT_WRITE);
  assert_eq (mmap_flags r) (Z.lor (Z.lor MAP_ANONYMOUS MAP_NORESERVE) MAP_PRIVATE).

Definition test_mmap_region_set_hugetlbfs : outcome unit :=
  let '(r, w) := mmap_region_new (linux_start down) 0 in
  _ ← rassert (is_err r);
  let '(r, w) := mmap_region_new w 4096 in
  r ← unwrap_ok r;
  _ ← check_anonymous r 4096 None;
  let '(r, w) := mmap_region_new w 4096 in
  r ← unwrap_ok r;
  _ ← check_anonymous (set_hugetlbfs r false) 4096 (Some false);
  let '(r, w) := mmap_region_new w 4096 in
  r ← unwrap_ok r;
  check_anonymous (set_hugetlbfs r true) 4096 (Some true).

Definition test_mmap_region_from_file : outcome unit :=
  let buf1 := [x01; x02; x03; x04; x05] in
  let w := with_file (linux_start down) 3 buf1 in
  let '(r, w) := from_file w (file_at 3 0) (lenZ buf1) in
  r ← unwrap_ok r;
  _ ← assert_eq (MmapUnix.size r) (lenZ buf1);
  _ ← assert_eq (fo_get_start <$> mmap_file_offset r) (Some 0);
  _ ← assert_eq (mmap_prot r) (Z.lor PROT_READ PROT_WRITE);
  _ ← assert_eq (mmap_flags r) (Z.lor MAP_NORESERVE MAP_SHARED);
  buf2 ← read_bytes (l_mem w) (as_ptr r) (lenZ buf1);
  assert_eq buf1 buf2.

Definition test_mmap_region_build : outcome unit :=
  let w := with_file (linux_start down) 3 [] in
  let prot := Z.lor PROT_READ PROT_WRITE in
  let flags := Z.lor MAP_NORESERVE MAP_PRIVATE in
  let offset := 4096 in
  let size := 1000 in
  let '(r, w) := build w (Some (file_at 3 u64_max)) size prot flags in
  e ← unwrap_err r; _ ← assert_eq e InvalidOffsetLength;
  let '(r, w) := build w (Some (file_at 3 offset)) size prot flags in
  e ← unwrap_err r; _ ← assert_eq e MappingPastEof;
  let '(r, w) := build w (Some (file_at 3 offset)) size prot (Z.lor flags MAP_FIXED) in
  e ← unwrap_err r; _ ← assert_eq e MapFixed;
  let w := set_len w 3 (1024 * 10) in
  let '(r, w) := build w (Some (file_at 3 (offset - 1))) size prot flags in
  e ← unwrap_err r; _ ← assert_eq (raw_os_error e) 22;
  let '(r, w) := build w (Some (file_at 3 offset)) size prot flags in
  r ← unwrap_ok r;
  _ ← assert_eq (MmapUnix.size r) size;
  _ ← assert_eq (fo_get_start <$> mmap_file_offset r) (Some offset);
  _ ← assert_eq (mmap_prot r) (Z.lor PROT_READ PROT_WRITE);
  _ ← assert_eq (mmap_flags r) (Z.lor MAP_NORESERVE MAP_PRIVATE);
  rassert (mmap_owned r).

Definition test_mmap_region_build_raw : outcome unit :=
  let size := page_size in
  let prot := Z.lor PROT_READ PROT_WRITE in
  let flags := Z.lor MAP_NORESERVE MAP_PRIVATE in
  r ← build_raw (W := linux) (0 + 1) size prot flags;
  e ← unwrap_err r; _ ← assert_eq e InvalidPointer;
  r ← build_raw (W := linux) 0 (size + 1) prot flags;
  e ← unwrap_err r; _ ← assert_eq e InvalidSize;
  r ← build_raw (W := linux) 0 size prot flags;
  r ← unwrap_ok r;
  _ ← assert_eq (MmapUnix.size r) size;
  _ ← assert_eq (mmap_prot r) (Z.lor PROT_READ PROT_WRITE);
  _ ← assert_eq (mmap_flags r) (Z.lor MAP_NORESERVE MAP_PRIVATE);
  rassert (negb (mmap_owned r)).

Definition test_mmap_region_fds_overlap : outcome unit :=
  let w := set_len (linux_start down) 3 (1024 * 10) in
  let '(r1, w) := from_file w (file_at 3 0) 4096 in r1 ← unwrap_ok r1;
  let '(r2, w) := from_file w (file_at 3 4096) 4096 in r2 ← unwrap_ok r2;
  b ← fds_overlap r1 r2; _ ← rassert (negb b);
  let '(r1, w) := from_file w (file_at 3 0) 5000 in r1 ← unwrap_ok r1;
  b ← fds_overlap r1 r2; _ ← rassert b;
  let '(r2, w) := from_file w (file_at 3 0) 1000 in r2 ← unwrap_ok r2;
  b ← fds_overlap r1 r2; _ ← rassert b;
  let w := set_len w 4 (1024 * 10) in
  let '(r2, w) := from_file w (file_at 4 0) 5000 in r2 ← unwrap_ok r2;
  b ← fds_overlap r1 r2; _ ← rassert (negb b);
  let '(r2, w) := mmap_region_new w 5000 in r2 ← unwrap_ok r2;
  b ← fds_overlap r1 r2; rassert (negb b).

Definition tests : list (outcome unit) :=
  [test_mmap_region_new; test_mmap_region_set_hugetlbfs; test_mmap_region_from_file; test_mmap_region_build;
   test_mmap_region_build_raw; test_mmap_region_fds_overlap].
End tests.

Example mmap_unix_tests_pass :
  ∀ t, t ∈ [x86_64_debug; x86_64_release; armv7_debug] →
    forallb passes (tests (H := t) false ++ tests (H := t) true) = true.
Proof.
  intros t. rewrite !elem_of_cons, elem_of_nil. by intros [->|[->|[->|[]]]]; vm_compute.
Qed.
End MmapUnixTests.

(** ** [src/src/mmap_windows.rs] *)
Module MmapWindowsTests.
Section tests.
Context `{Target}.

(** A [File] whose handle is [INVALID_HANDLE_VALUE]. *)
Definition map_invalid_handle : outcome unit :=
  let file_offset : WinFileOffset toy_windows := @WinFileOff toy_windows toy_win INVALID_HANDLE_VALUE 0 in
  '(r, w) ← win_from_file (ToyWin ∅ ∅ ∅ 0x10000) file_offset 1024;
  e ← unwrap_err r;
  assert_eq e LIBC_EBADF.
End tests.

Example mmap_windows_tests_pass :
  ∀ t, t ∈ [x86_64_debug; x86_64_release; armv7_debug] → map_invalid_handle (H := t) = Ret tt.
Proof.
  intros t. rewrite !elem_of_cons, elem_of_nil. by intros [->|[->|[->|[]]]]; vm_compute.
Qed.
End MmapWindowsTests.

(** ** [src/src/atomic_integer.rs] *)
Module AtomicIntegerTests.
Section tests.
Context `{Target}.

(** The integer is placed in memory, at [at_]. *)
Definition check_atomic_integer_ops (A : Type) `{AtomicInteger A} `{EqDecision (atomic_V A)}
    (from : Z → atomic_V A) (bytes : A → list byte) (at_ : Z) : outcome unit :=
  let v := from 0 in
  let a := atomic_new v in
  let m := store_list ∅ at_ (bytes a) in
  x ← atomic_load A m at_ Relaxed;
  _ ← rassert (bool_decide (x = v));
  let v2 := from 100 in
  m ← atomic_store A m at_ v2 Relaxed;
  x ← atomic_load A m at_ Relaxed;
  rassert (bool_decide (x = v2)).

Definition test_atomic_integer_ops : outcome unit :=
  check_atomic_integer_ops AtomicU32 (EqDecision0 := uint_eq_dec 4) uint_of (λ a, as_slice (inner a)) 0x1000.
End tests.

Example atomic_integer_tests_pass :
  ∀ t, t ∈ [x86_64_debug; x86_64_release; armv7_debug] → test_atomic_integer_ops (H := t) = Ret tt.
Proof.
  intros t. rewrite !elem_of_cons, elem_of_nil. by intros [->|[->|[->|[]]]]; vm_compute.
Qed.
End AtomicIntegerTests.
