(* ===== verification/TestsMmap.v ===== *)
(** * The unit tests of guest memory

    The functions of the [mod tests] of [mmap.rs], [guest_memory.rs] and [atomic.rs],
    run on the definitions of this library with the system of [Linux].  In the
    source these modules do not compile, because they call [from_ranges],
    [from_regions], [GuestRegionMmap::new] and the like without the process id that
    these take since the memory belongs to another process; here they are given the
    id of the process that runs the tests, so that its own memory is accessed.

    Mappings are placed upwards or downwards.  Most tests pass for both; the ones
    that fail are those for which the code does not do what they expect, and
    [mmap_tests_fail], [guest_memory_tests_fail] and [test_access_cross_boundary_by_placement]
    say which and how. *)

From S2P Require Import Prelude Memory Address PlainData AtomicIntegers Bytes CopySlice Volatile Os Linux RemoteMem GuestMemory MmapUnix Mmap RefCount Atomic AddressSpace Tests.

(** The only system here is [linux]. *)
#[local] Remove Hints toy_os toy_remote_spec toy_mmap_spec : typeclass_instances.

(** [for x in list]: the body changes the state [w]. *)
Definition for_each {A W} (l : list A) (w : W) (body : A → W → outcome W) : outcome W :=
  foldl (λ o x, w ← o; body x w) (Ret w) l.
Definition is_some {A} (o : option A) : bool := match o with Some _ => true | None => false end.
Definition is_none {A} (o : option A) : bool := negb (is_some o).

Section setup.
Context `{Target}.
Implicit Types (w : linux).

Abbreviation memory_of := (GuestMemoryMmap linux).
Abbreviation made := (outcome (result memory_of MmapError * linux)).

(** [GuestMemoryMmap::from_ranges(..).unwrap()]. *)
Definition anonymous w (ranges : list (GuestAddress * Z)) : outcome (memory_of * linux) :=
  '(r, w) ← from_ranges w own_pid ranges; m ← unwrap_ok r; Ret (m, w).

(** A new file for each range, of its size, and [from_ranges_with_files]. *)
Definition with_files w (ranges : list (GuestAddress * Z)) : made :=
  let '(w, ranges) := foldl (λ '(w, acc) '(a, n),
    let fd := 3 + lenZ (map_to_list (l_files w)) in
    (set_len w fd n, acc ++ [(a, n, Some (file_offset_new fd 0))])) (w, []) ranges in
  from_ranges_with_files w own_pid ranges.

(** [vec![gm, gm_backed_by_file]]. *)
Definition gm_list w (ranges : list (GuestAddress * Z)) : outcome (list memory_of * linux) :=
  '(gm, w) ← anonymous w ranges;
  '(r, w) ← with_files w ranges;
  gm_backed_by_file ← unwrap_ok r;
  Ret ([gm; gm_backed_by_file], w).

(** [GuestRegionMmap::new(MmapRegion::new(size).unwrap(), addr).unwrap()]. *)
Definition new_region w (addr : GuestAddress) (size : Z) : outcome (GuestRegionMmap linux * linux) :=
  let '(r, w) := mmap_region_new w size in
  m ← unwrap_ok r;
  g ← unwrap_ok (guest_region_new own_pid m addr);
  Ret (g, w).
Definition new_regions w (ranges : list (GuestAddress * Z)) : outcome (list (GuestRegionMmap linux) * linux) :=
  foldl (λ o '(a, n), '(rs, w) ← o; '(r, w) ← new_region w a n; Ret (rs ++ [r], w)) (Ret ([], w)) ranges.
End setup.

(** ** [src/src/mmap.rs] *)
Module MmapTests.
Section tests.
Context `{Target} (down : bool).
Implicit Types (w : linux) (guest_mem gm : GuestMemoryMmap linux).

Abbreviation start := (linux_start down).

Definition basic_map : outcome unit :=
  let '(r, w) := mmap_region_new start 1024 in
  m ← unwrap_ok r;
  assert_eq 1024 (vm_len m).

Definition check_guest_memory_mmap (maybe_guest_mem : result (GuestMemoryMmap linux) MmapError)
    (expected_regions_summary : list (GuestAddress * Z)) : outcome unit :=
  _ ← rassert (is_ok maybe_guest_mem);
  guest_mem ← unwrap_ok maybe_guest_mem;
  _ ← assert_eq (num_regions guest_mem) (lenZ expected_regions_summary);
  _ ← match head (rev expected_regions_summary) with
      | Some (region_addr, region_size) =>
          l ← unchecked_add region_addr region_size;
          l ← (if negb (raw_value l =? 0) then unchecked_sub l 1 else Ret l);
          x ← last_addr guest_mem;
          assert_eq x l
      | None => Ret tt
      end;
  for_each (zip expected_regions_summary (regions guest_mem)) tt (λ '((region_addr, region_size), mmap) _,
    _ ← assert_eq region_addr (guest_base mmap);
    _ ← assert_eq region_size (MmapUnix.size (mapping mmap));
    o ← find_region guest_mem region_addr;
    rassert (is_some o)).

Definition new_guest_memory_mmap w (regions_summary : list (GuestAddress * Z))
    : outcome (result (GuestMemoryMmap linux) MmapError * linux) :=
  from_ranges w own_pid regions_summary.
Definition new_guest_memory_mmap_from_regions w (regions_summary : list (GuestAddress * Z))
    : outcome (result (GuestMemoryMmap linux) MmapError * linux) :=
  '(rs, w) ← new_regions w regions_summary; r ← from_regions own_pid rs; Ret (r, w).
Definition new_guest_memory_mmap_from_arc_regions w (regions_summary : list (GuestAddress * Z))
    : outcome (result (GuestMemoryMmap linux) MmapError * linux) :=
  '(rs, w) ← new_regions w regions_summary; r ← from_arc_regions own_pid rs; Ret (r, w).
Definition new_guest_memory_mmap_with_files w (regions_summary : list (GuestAddress * Z))
    : outcome (result (GuestMemoryMmap linux) MmapError * linux) :=
  with_files w regions_summary.

(** The four constructors in turn. *)
Definition fails_with (regions_summary : list (GuestAddress * Z)) (e : MmapError) : outcome unit :=
  '(r, w) ← new_guest_memory_mmap start regions_summary;
  x ← unwrap_err r; _ ← assert_eq x e;
  '(r, w) ← new_guest_memory_mmap_with_files w regions_summary;
  x ← unwrap_err r; _ ← assert_eq x e;
  '(r, w) ← new_guest_memory_mmap_from_regions w regions_summary;
  x ← unwrap_err r; _ ← assert_eq x e;
  '(r, w) ← new_guest_memory_mmap_from_arc_regions w regions_summary;
  x ← unwrap_err r; assert_eq x e.

Definition test_no_memory_region : outcome unit := fails_with [] NoMemoryRegion.
Definition test_overlapping_memory_regions : outcome unit :=
  fails_with [(GuestAddr 0, 100); (GuestAddr 99, 100)] MemoryRegionOverlap.
Definition test_unsorted_memory_regions : outcome unit :=
  fails_with [(GuestAddr 100, 100); (GuestAddr 0, 100)] UnsortedMemoryRegions.

Definition test_valid_memory_regions : outcome unit :=
  let regions_summary := [(GuestAddr 0, 100); (GuestAddr 100, 100)] in
  let guest_mem : GuestMemoryMmap linux := memory_new own_pid in
  _ ← assert_eq (lenZ (regions guest_mem)) 0;
  '(r, w) ← new_guest_memory_mmap start regions_summary;
  _ ← check_guest_memory_mmap r regions_summary;
  '(r, w) ← new_guest_memory_mmap_with_files w regions_summary;
  _ ← check_guest_memory_mmap r regions_summary;
  '(r, w) ← new_guest_memory_mmap_from_regions w regions_summary;
  _ ← check_guest_memory_mmap r regions_summary;
  '(r, w) ← new_guest_memory_mmap_from_arc_regions w regions_summary;
  check_guest_memory_mmap r regions_summary.

Definition slice_addr : outcome unit :=
  let '(r, w) := mmap_region_new start 5 in
  m ← unwrap_ok r;
  s ← get_slice m 2 3; s ← unwrap_ok s;
  assert_eq (vs_as_ptr s) (MmapUnix.as_ptr m + 2).

Definition mapped_file_read : outcome unit :=
  let sample_buf := [x01; x02; x03; x04; x05] in
  let w := with_file start 3 sample_buf in
  let '(r, w) := from_file w (file_offset_new 3 0) (lenZ sample_buf) in
  mem_map ← unwrap_ok r;
  s ← as_volatile_slice mem_map;
  '(r, buf) ← VolatileTests.vs_read (l_mem w) s (replicate 16 x00) 0;
  n ← unwrap_ok r;
  _ ← assert_eq n (lenZ sample_buf);
  assert_eq (take 5 buf) sample_buf.

Definition two_ranges : list (GuestAddress * Z) := [(GuestAddr 0, 0x400); (GuestAddr 0x800, 0x400)].

Definition test_address_in_range : outcome unit :=
  '(guest_mem_list, w) ← gm_list start two_ranges;
  for_each guest_mem_list tt (λ guest_mem _,
    b ← address_in_range guest_mem (GuestAddr 0x200); _ ← rassert b;
    b ← address_in_range guest_mem (GuestAddr 0x600); _ ← rassert (negb b);
    b ← address_in_range guest_mem (GuestAddr 0xa00); _ ← rassert b;
    b ← address_in_range guest_mem (GuestAddr 0xc00); rassert (negb b)).

Definition test_check_address : outcome unit :=
  '(guest_mem_list, w) ← gm_list start two_ranges;
  for_each guest_mem_list tt (λ guest_mem _,
    a ← check_address guest_mem (GuestAddr 0x200); _ ← assert_eq a (Some (GuestAddr 0x200));
    a ← check_address guest_mem (GuestAddr 0x600); _ ← assert_eq a None;
    a ← check_address guest_mem (GuestAddr 0xa00); _ ← assert_eq a (Some (GuestAddr 0xa00));
    a ← check_address guest_mem (GuestAddr 0xc00); assert_eq a None).

Definition test_to_region_addr : outcome unit :=
  '(guest_mem_list, w) ← gm_list start two_ranges;
  for_each guest_mem_list tt (λ guest_mem _,
    o ← to_region_addr guest_mem (GuestAddr 0x600); _ ← rassert (is_none o);
    o ← to_region_addr guest_mem (GuestAddr 0x800); '(r0, addr0) ← unwrap o;
    o ← to_region_addr guest_mem (GuestAddr 0xa00); '(r1, addr1) ← unwrap o;
    _ ← rassert (MmapUnix.as_ptr (region_deref r0) =? MmapUnix.as_ptr (region_deref r1));
    _ ← assert_eq addr0 (RegionAddr 0);
    assert_eq addr1 (RegionAddr 0x200)).

Definition test_get_host_address : outcome unit :=
  '(guest_mem_list, w) ← gm_list start two_ranges;
  for_each guest_mem_list tt (λ guest_mem _,
    r ← memory_get_host_address guest_mem (GuestAddr 0x600); _ ← rassert (is_err r);
    r ← memory_get_host_address guest_mem (GuestAddr 0x800); ptr0 ← unwrap_ok r;
    r ← memory_get_host_address guest_mem (GuestAddr 0xa00); ptr1 ← unwrap_ok r;
    o ← find_region guest_mem (GuestAddr 0x800); region ← unwrap o;
    _ ← assert_eq ptr0 (MmapUnix.as_ptr (region_deref region));
    assert_eq (ptr0 + 0x200) ptr1).

(** It fails: [get_slice] of the region, and so [as_volatile_slice], is not implemented. *)
Definition test_deref : outcome unit :=
  let start_addr := GuestAddr 0 in
  '(guest_mem_list, w) ← gm_list start [(start_addr, 0x400)];
  _ ← for_each guest_mem_list w (λ guest_mem w,
    let sample_buf := [x01; x02; x03; x04; x05] in
    '(r, w) ← write guest_mem w sample_buf start_addr;
    n ← unwrap_ok r; _ ← assert_eq n 5;
    o ← find_region guest_mem (GuestAddr 0); region ← unwrap o;
    r ← region_as_volatile_slice region; slice ← unwrap_ok r;
    '(r, buf) ← VolatileTests.vs_read (l_mem w) slice (replicate 5 x00) 0;
    n ← unwrap_ok r; _ ← assert_eq n 5;
    _ ← assert_eq buf sample_buf;
    Ret w);
  Ret tt.

(** It fails: a write past the end of the last region is not cut off. *)
Definition test_read_u64 : outcome unit :=
  let bad_addr := GuestAddr 0x2001 in
  let bad_addr2 := GuestAddr 0x1ffc in
  let max_addr := GuestAddr 0x2000 in
  '(gm_list, w) ← gm_list start [(GuestAddr 0, 0x1000); (GuestAddr 0x1000, 0x1000)];
  _ ← for_each gm_list w (λ gm w,
    let val1 : u64 := uint_of 0xaa55aa55aa55aa55 in
    let val2 : u64 := uint_of 0x55aa55aa55aa55aa in
    '(r, w) ← write_obj gm w val1 bad_addr; e ← unwrap_err r;
    _ ← assert_eq e (InvalidGuestAddress bad_addr);
    '(r, w) ← write_obj gm w val1 bad_addr2; e ← unwrap_err r;
    completed ← unwrap (checked_offset_from max_addr bad_addr2);
    _ ← assert_eq e (GPartialBuffer (size_of u64) completed);
    '(r, w) ← write_obj gm w val1 (GuestAddr 0x500); _ ← unwrap_ok r;
    '(r, w) ← write_obj gm w val2 (GuestAddr (0x1000 + 32)); _ ← unwrap_ok r;
    '(r, w) ← read_obj u64 gm w (GuestAddr 0x500); num1 ← unwrap_ok r;
    '(r, w) ← read_obj u64 gm w (GuestAddr (0x1000 + 32)); num2 ← unwrap_ok r;
    _ ← assert_eq (uval val1) (uval num1);
    _ ← assert_eq (uval val2) (uval num2);
    Ret w);
  Ret tt.

(** It fails: at the last byte of the region 5 bytes are written, not 1. *)
Definition write_and_read : outcome unit :=
  '(gm_list, w) ← gm_list start [(GuestAddr 0x1000, 0x400)];
  _ ← for_each gm_list w (λ gm w,
    let sample_buf := [x01; x02; x03; x04; x05] in
    let start_addr := GuestAddr 0x1000 in
    '(r, w) ← write gm w sample_buf start_addr; n ← unwrap_ok r; _ ← assert_eq n 5;
    '(r, (buf, w)) ← read gm w (replicate 5 x00) start_addr; n ← unwrap_ok r; _ ← assert_eq n 5;
    _ ← assert_eq buf sample_buf;
    let start_addr := GuestAddr 0x13ff in
    '(r, w) ← write gm w sample_buf start_addr; n ← unwrap_ok r; _ ← assert_eq n 1;
    '(r, (buf, w)) ← read gm w buf start_addr; n ← unwrap_ok r; _ ← assert_eq n 1;
    _ ← assert_eq (head buf) (head sample_buf);
    Ret w);
  Ret tt.

(** [/dev/zero] is read, and the sink is a [Vec]. *)
Definition read_to_and_write_from_mem : outcome unit :=
  '(gm_list, w) ← gm_list start [(GuestAddr 0x1000, 0x400)];
  _ ← for_each gm_list w (λ gm w,
    let addr := GuestAddr 0x1010 in
    '(r, w) ← write_obj gm w (uint_of (2 ^ 32 - 1) : u32) addr; _ ← unwrap_ok r;
    '(r, (file, w)) ← read_exact_from gm w addr VolatileTests.dev_zero (size_of u32); _ ← unwrap_ok r;
    '(r, w) ← read_obj u32 gm w addr; value ← unwrap_ok r;
    _ ← assert_eq (uval value) 0;
    '(r, (sink, w)) ← write_all_to gm w addr VolatileTests.empty_file (size_of u32); _ ← unwrap_ok r;
    _ ← assert_eq (c_data sink) (replicate 4 x00);
    Ret w);
  Ret tt.

(** What [create_vec_with_regions], [test_memory] and the tests of [atomic.rs] do
    with a memory: the lengths are checked, and the ranges collected. *)
Definition check_lengths gm (region_size : Z) : outcome unit :=
  res ← with_regions gm (λ _ region, _ ← assert_eq (len region) region_size; Ret (Ok tt : gresult unit));
  rassert (is_ok res).
Definition iterated_regions gm : outcome (list (GuestAddress * Z)) :=
  '(res, l) ← with_regions_mut gm (λ l _ region,
    Ret (Ok tt : gresult unit, l ++ [(start_addr region, as_usize (len region))])) [];
  _ ← rassert (is_ok res);
  Ret l.

Definition create_vec_with_regions : outcome unit :=
  let region_size := 0x400 in
  let rs := [(GuestAddr 0, region_size); (GuestAddr 0x1000, region_size)] in
  '(gm, w) ← anonymous start rs;
  _ ← check_lengths gm region_size;
  l ← iterated_regions gm;
  _ ← assert_eq rs l;
  assert_eq (guest_base <$> regions gm) [GuestAddr 0; GuestAddr 0x1000].

(** [Arc::new(gm)], and [memory] of the [Arc]. *)
#[local] Instance memory_drop : Drop (GuestMemoryMmap linux) linux := λ w m, Ret (drop_regions w (regions m)).
Definition heap_of w : heap (GuestMemoryMmap linux) linux := Heap ∅ 0 [] w.

Definition test_memory : outcome unit :=
  let region_size := 0x400 in
  let rs := [(GuestAddr 0, region_size); (GuestAddr 0x1000, region_size)] in
  '(gm, w) ← anonymous start rs;
  let '(a, h) := arc_new (heap_of w) gm in
  '(mem, h) ← space_memory h (MkArc (M := GuestMemoryMmap linux) a);
  mem ← space_deref h mem;
  _ ← check_lengths mem region_size;
  l ← iterated_regions mem;
  _ ← assert_eq rs l;
  gm ← deref h a;
  assert_eq (guest_base <$> regions gm) [GuestAddr 0; GuestAddr 0x1000].

(** It passes when the mappings of the two regions happen to be adjacent. *)
Definition test_access_cross_boundary : outcome unit :=
  '(gm_list, w) ← gm_list start [(GuestAddr 0, 0x1000); (GuestAddr 0x1000, 0x1000)];
  _ ← for_each gm_list w (λ gm w,
    let sample_buf := [x01; x02; x03; x04; x05] in
    '(r, w) ← write gm w sample_buf (GuestAddr 0xffc); n ← unwrap_ok r; _ ← assert_eq n 5;
    '(r, (buf, w)) ← read gm w (replicate 5 x00) (GuestAddr 0xffc); n ← unwrap_ok r; _ ← assert_eq n 5;
    _ ← assert_eq buf sample_buf;
    Ret w);
  Ret tt.

Definition test_retrieve_fd_backing_memory_region : outcome unit :=
  let start_addr := GuestAddr 0 in
  '(gm, w) ← anonymous start [(start_addr, 0x400)];
  o ← find_region gm start_addr; _ ← rassert (is_some o);
  region ← unwrap o;
  _ ← rassert (is_none (file_offset region));
  '(r, w) ← with_files w [(start_addr, 0x400)];
  gm ← unwrap_ok r;
  o ← find_region gm start_addr; _ ← rassert (is_some o);
  region ← unwrap o;
  rassert (is_some (file_offset region)).

Definition test_retrieve_offset_from_fd_backing_memory_region : outcome unit :=
  let w := set_len start 3 0x1400 in
  let offset := 0x1000 in
  let start_addr := GuestAddr 0 in
  '(gm, w) ← anonymous w [(start_addr, 0x400)];
  o ← find_region gm start_addr; _ ← rassert (is_some o);
  region ← unwrap o;
  _ ← rassert (is_none (file_offset region));
  '(r, w) ← from_ranges_with_files w own_pid
    [(start_addr, 0x400, Some (file_offset_new 3 offset))];
  gm ← unwrap_ok r;
  o ← find_region gm start_addr; _ ← rassert (is_some o);
  region ← unwrap o;
  _ ← rassert (is_some (file_offset region));
  fo ← unwrap (file_offset region);
  assert_eq (fo_get_start fo) offset.

Definition test_mmap_insert_region : outcome unit :=
  let region_size := 0x1000 in
  '(gm, w) ← anonymous start [(GuestAddr 0, region_size); (GuestAddr 0x100000, region_size)];
  let mem_orig := gm in
  _ ← assert_eq (num_regions mem_orig) 2;
  '(mmap, w) ← new_region w (GuestAddr 0x8000) 0x1000;
  r ← insert_region gm mmap; gm ← unwrap_ok r;
  '(mmap, w) ← new_region w (GuestAddr 0x4000) 0x1000;
  r ← insert_region gm mmap; gm ← unwrap_ok r;
  '(mmap, w) ← new_region w (GuestAddr 0xc000) 0x1000;
  r ← insert_region gm mmap; gm ← unwrap_ok r;
  '(mmap, w) ← new_region w (GuestAddr 0xc000) 0x1000;
  r ← insert_region gm mmap; _ ← unwrap_err r;
  _ ← assert_eq (num_regions mem_orig) 2;
  _ ← assert_eq (num_regions gm) 5;
  assert_eq (start_addr <$> regions gm)
    [GuestAddr 0; GuestAddr 0x4000; GuestAddr 0x8000; GuestAddr 0xc000; GuestAddr 0x100000].

Definition test_mmap_remove_region : outcome unit :=
  let region_size := 0x1000 in
  '(gm, w) ← anonymous start [(GuestAddr 0, region_size); (GuestAddr 0x100000, region_size)];
  let mem_orig := gm in
  _ ← assert_eq (num_regions mem_orig) 2;
  r ← remove_region gm (GuestAddr 0) 128; _ ← unwrap_err r;
  r ← remove_region gm (GuestAddr 0x4000) 128; _ ← unwrap_err r;
  r ← remove_region gm (GuestAddr 0x100000) 0x1000; '(gm, region) ← unwrap_ok r;
  _ ← assert_eq (num_regions mem_orig) 2;
  _ ← assert_eq (num_regions gm) 1;
  _ ← assert_eq (start_addr <$> regions gm) [GuestAddr 0];
  assert_eq (start_addr region) (GuestAddr 0x100000).

(** These three fail: [get_slice] of the region is not implemented. *)
Definition test_guest_memory_mmap_get_slice : outcome unit :=
  '(region, w) ← new_region start (GuestAddr 0) 0x400;
  r ← region_get_slice region (RegionAddr 0x100) 0x200; slice ← unwrap_ok r;
  _ ← assert_eq (vs_len slice) 0x200;
  r ← region_get_slice region (RegionAddr 0x200) 0; slice ← unwrap_ok r;
  _ ← rassert (vs_is_empty slice);
  r ← region_get_slice region (RegionAddr 0x300) 0x200; rassert (is_err r).

Definition test_guest_memory_mmap_as_volatile_slice : outcome unit :=
  let region_size := 0x400 in
  '(region, w) ← new_region start (GuestAddr 0) region_size;
  r ← region_as_volatile_slice region; slice ← unwrap_ok r;
  _ ← assert_eq (vs_len slice) region_size;
  let v : u32 := uint_of 0x12345678 in
  r ← get_ref u32 slice 0x200; r ← unwrap_ok r;
  m ← vr_store (l_mem w) r v;
  x ← vr_load m r;
  assert_eq (uval x) (uval v).

Definition test_guest_memory_get_slice : outcome unit :=
  '(guest_mem, w) ← anonymous start two_ranges;
  r ← memory_get_slice guest_mem (GuestAddr 0x100) 0x200; slice ← unwrap_ok r;
  _ ← assert_eq (vs_len slice) 0x200;
  r ← memory_get_slice guest_mem (GuestAddr 0x800) 0x400; slice ← unwrap_ok r;
  _ ← assert_eq (vs_len slice) 0x400;
  r ← memory_get_slice guest_mem (GuestAddr 0x900) 0; slice ← unwrap_ok r;
  _ ← rassert (vs_is_empty slice);
  r ← memory_get_slice guest_mem (GuestAddr 0) 0x500; _ ← rassert (is_err r);
  r ← memory_get_slice guest_mem (GuestAddr 0x600) 0x100; _ ← rassert (is_err r);
  r ← memory_get_slice guest_mem (GuestAddr 0xc00) 0x100; rassert (is_err r).

Definition three_ranges : list (GuestAddress * Z) :=
  [(GuestAddr 0, 0x400); (GuestAddr 0x800, 0x400); (GuestAddr 0xc00, 0x400)].

Definition test_checked_offset : outcome unit :=
  let start_addr1 := GuestAddr 0 in
  let start_addr2 := GuestAddr 0x800 in
  '(guest_mem, w) ← anonymous start three_ranges;
  a ← checked_offset guest_mem start_addr1 0x200; _ ← assert_eq a (Some (GuestAddr 0x200));
  a ← checked_offset guest_mem start_addr1 0xa00; _ ← assert_eq a (Some (GuestAddr 0xa00));
  a ← checked_offset guest_mem start_addr2 0x7ff; _ ← assert_eq a (Some (GuestAddr 0xfff));
  a ← checked_offset guest_mem start_addr2 0xc00; _ ← assert_eq a None;
  a ← checked_offset guest_mem start_addr1 usize_max; _ ← assert_eq a None;
  a ← checked_offset guest_mem start_addr1 0x400; _ ← assert_eq a None;
  a ← checked_offset guest_mem start_addr1 (0x400 - 1); assert_eq a (Some (GuestAddr (0x400 - 1))).

Definition test_check_range : outcome unit :=
  let start_addr1 := GuestAddr 0 in
  let start_addr2 := GuestAddr 0x800 in
  '(guest_mem, w) ← anonymous start three_ranges;
  b ← check_range guest_mem start_addr1 0; _ ← assert_eq b true;
  b ← check_range guest_mem start_addr1 0x200; _ ← assert_eq b true;
  b ← check_range guest_mem start_addr1 0x400; _ ← assert_eq b true;
  b ← check_range guest_mem start_addr1 0xa00; _ ← assert_eq b false;
  b ← check_range guest_mem start_addr2 0x7ff; _ ← assert_eq b true;
  b ← check_range guest_mem start_addr2 0x800; _ ← assert_eq b true;
  b ← check_range guest_mem start_addr2 0x801; _ ← assert_eq b false;
  b ← check_range guest_mem start_addr2 0xc00; _ ← assert_eq b false;
  b ← check_range guest_mem start_addr1 usize_max; assert_eq b false.

(** It fails: the address is aligned to 8. *)
Definition test_atomic_accesses : outcome unit :=
  '(region, w) ← new_region start (GuestAddr 0) 0x1000;
  BytesTests.check_atomic_accesses region w (RegionAddr 0) (RegionAddr 0x1000).

Definition tests : list (outcome unit) :=
  [basic_map; test_no_memory_region; test_overlapping_memory_regions; test_unsorted_memory_regions;
   test_valid_memory_regions; slice_addr; mapped_file_read; test_address_in_range; test_check_address;
   test_to_region_addr; test_get_host_address; read_to_and_write_from_mem; create_vec_with_regions;
   test_memory; test_retrieve_fd_backing_memory_region; test_retrieve_offset_from_fd_backing_memory_region;
   test_mmap_insert_region; test_mmap_remove_region; test_checked_offset; test_check_range].
Definition failing : list (outcome unit) :=
  [test_deref; test_read_u64; write_and_read; test_guest_memory_mmap_get_slice;
   test_guest_memory_mmap_as_volatile_slice; test_guest_memory_get_slice; test_atomic_accesses].
End tests.

Example mmap_tests_pass :
  ∀ t, t ∈ [x86_64_debug; armv7_debug] →
    forallb passes (tests (H := t) false ++ tests (H := t) true) = true.
Proof. intros t. rewrite !elem_of_cons, elem_of_nil. by intros [->|[->|[]]]; vm_compute. Qed.

(** Wherever mappings are placed, these fail. *)
Example mmap_tests_fail :
  ∀ t, t ∈ [x86_64_debug; armv7_debug] →
    failing (H := t) false ++ failing (H := t) true = replicate 14 Panic.
Proof. intros t. rewrite !elem_of_cons, elem_of_nil. by intros [->|[->|[]]]; vm_compute. Qed.

(** Upwards the two regions are adjacent in the right order; downwards they are not. *)
Example test_access_cross_boundary_by_placement :
  test_access_cross_boundary (H := x86_64_debug) false = Ret tt ∧
  test_access_cross_boundary (H := x86_64_debug) true = Panic.
Proof. by vm_compute. Qed.
End MmapTests.

(** ** [src/src/guest_memory.rs] *)
Module GuestMemoryTests.
Section tests.
Context `{Target} (down : bool).

Definition make_image (size : Z) : list byte := byte_of <$> seqZ 0 size.
(** [Cursor::new(&image)]. *)
Definition cursor (bs : list byte) : Cursor := {| c_data := bs; c_interrupts := 0; c_chunk := 63 |}.

(** [file] and the contents of [arc] are the same file. *)
Definition test_file_offset : outcome unit :=
  let file := 3 in
  let start := 1234 in
  let file_offset := file_offset_new file start in
  _ ← assert_eq (fo_get_start file_offset) start;
  assert_eq (fo_get_file file_offset : Z) file.

Definition checked_read_from : outcome unit :=
  '(mem, w) ← anonymous (linux_start down) [(GuestAddr 0, 64); (GuestAddr 0x40, 64)];
  let image := make_image 0x80 in
  let offset := GuestAddr 0x30 in
  let count := 0x20 in
  '(r, _) ← read_from mem w offset (cursor image) count;
  n ← unwrap_ok r;
  assert_eq 0x20 n.

Definition test_zero_length_accesses : outcome unit :=
  let addr := GuestAddr 0x1000 in
  '(mem, w) ← anonymous (linux_start down) [(addr, 0x1000)];
  let obj : array u32 0 := default_value in
  let image := make_image 0x80 in
  '(r, w) ← write mem w [] addr; n ← unwrap_ok r; _ ← assert_eq n 0;
  '(r, (_, w)) ← read mem w [] addr; n ← unwrap_ok r; _ ← assert_eq n 0;
  '(r, w) ← write_slice mem w [] addr; _ ← rassert (is_ok r);
  '(r, (_, w)) ← read_slice mem w [] addr; _ ← rassert (is_ok r);
  '(r, w) ← write_obj mem w obj addr; _ ← rassert (is_ok r);
  '(r, w) ← read_obj (array u32 0) mem w addr; _ ← rassert (is_ok r);
  '(r, (_, w)) ← read_from mem w addr (cursor image) 0; n ← unwrap_ok r; _ ← assert_eq n 0;
  '(r, (_, w)) ← read_exact_from mem w addr (cursor image) 0; _ ← rassert (is_ok r);
  '(r, (_, w)) ← write_to mem w addr (cursor image) 0; n ← unwrap_ok r; _ ← assert_eq n 0;
  '(r, (_, w)) ← write_all_to mem w addr (cursor image) 0; rassert (is_ok r).

(** It fails: the address is aligned to 8. *)
Definition test_atomic_accesses : outcome unit :=
  let addr := GuestAddr 0x1000 in
  '(mem, w) ← anonymous (linux_start down) [(addr, 0x1000)];
  bad_addr ← unchecked_add addr 0x1000;
  BytesTests.check_atomic_accesses mem w addr bad_addr.

Definition test_guest_memory_mmap_is_hugetlbfs : outcome unit :=
  let addr := GuestAddr 0x1000 in
  '(mem, w) ← anonymous (linux_start down) [(addr, 0x1000)];
  o ← find_region mem addr; r ← unwrap o;
  assert_eq (is_hugetlbfs r) None.

Definition tests : list (outcome unit) :=
  [test_file_offset; checked_read_from; test_zero_length_accesses; test_guest_memory_mmap_is_hugetlbfs].
End tests.

Example guest_memory_tests_pass :
  ∀ t, t ∈ [x86_64_debug; armv7_debug] →
    forallb passes (tests (H := t) false ++ tests (H := t) true) = true.
Proof. intros t. rewrite !elem_of_cons, elem_of_nil. by intros [->|[->|[]]]; vm_compute. Qed.
Example guest_memory_tests_fail :
  ∀ t, t ∈ [x86_64_debug; armv7_debug] → test_atomic_accesses (H := t) false = Panic.
Proof. intros t. rewrite !elem_of_cons, elem_of_nil. by intros [->|[->|[]]]; vm_compute. Qed.
End GuestMemoryTests.

(** ** [src/src/atomic.rs] *)
Module AtomicTests.
(** [ArcSwap] as far as one thread sees it: the reference that it holds. *)
#[local] Instance swap : ArcSwap nat nat := {| swap_new v := v; swap_load c := c; swap_store _ v := v |}.

Section tests.
Context `{Target} (down : bool).
Implicit Types (h : heap (GuestMemoryMmap linux) linux).

Abbreviation space := (GuestMemoryAtomic nat).
Abbreviation load_guard := (GuestMemoryLoadGuard nat).
#[local] Instance memory_drop : Drop (GuestMemoryMmap linux) linux := MmapTests.memory_drop.

(** [GuestMemoryMmapAtomic::new(gmm)]. *)
Definition new_atomic h (gmm : GuestMemoryMmap linux) : space * heap (GuestMemoryMmap linux) linux :=
  let '(a, h) := arc_new h gmm in (atomic_new a, h).

(** The regions that every memory of the test has. *)
Definition check_regions (m : GuestMemoryMmap linux) : outcome unit :=
  _ ← assert_eq (num_regions m) 2;
  o ← find_region m (GuestAddr 0x1000); _ ← rassert (is_some o);
  o ← find_region m (GuestAddr 0x10000); rassert (is_none o).

Definition test_atomic_memory : outcome unit :=
  let region_size := 0x400 in
  let rs := [(GuestAddr 0, region_size); (GuestAddr 0x1000, region_size)] in
  '(gmm, w) ← anonymous (linux_start down) rs;
  let '(gm, h) := new_atomic (MmapTests.heap_of w) gmm in
  '(mem, h) ← space_memory (T := load_guard) h gm;
  m ← space_deref (S := space) h mem;
  _ ← MmapTests.check_lengths m region_size;
  l ← MmapTests.iterated_regions m;
  _ ← assert_eq rs l;
  _ ← check_regions m;
  let mem2 : Arc (GuestMemoryMmap linux) := MkArc (into_inner mem) in
  m ← space_deref (S := Arc (GuestMemoryMmap linux)) h mem2;
  _ ← MmapTests.check_lengths m region_size;
  _ ← MmapTests.iterated_regions m;
  _ ← check_regions m;
  '(mem3, h) ← space_memory h mem2;
  m ← space_deref (S := Arc (GuestMemoryMmap linux)) h mem3;
  _ ← MmapTests.check_lengths m region_size;
  _ ← MmapTests.iterated_regions m;
  check_regions m.

(** [guard1] is dropped at the end of its block. *)
Definition test_clone_guard : outcome unit :=
  let region_size := 0x400 in
  '(gmm, w) ← anonymous (linux_start down) [(GuestAddr 0, region_size); (GuestAddr 0x1000, region_size)];
  let '(gm, h) := new_atomic (MmapTests.heap_of w) gmm in
  '(guard1, h) ← space_memory (T := load_guard) h gm;
  '(mem, h) ← space_clone (S := space) h guard1;
  h ← space_drop (S := space) h guard1;
  m ← space_deref (S := space) h mem;
  assert_eq (num_regions m) 2.

(** [Arc::make_mut] of an [Arc] that is shared clones its contents, and the new
    map replaces them in the variable; the clone is of the vector, and the regions
    are the same. *)
Definition make_mut h (a : nat) : outcome (nat * heap (GuestMemoryMmap linux) linux) :=
  match objects h !! a with
  | Some (m, 1%nat) => Ret (a, h)
  | Some (m, _) => let '(b, h) := arc_new h m in h ← arc_drop h a; Ret (b, h)
  | None => Undef
  end.

Definition test_atomic_hotplug : outcome unit :=
  let region_size := 0x1000 in
  '(m, w) ← anonymous (linux_start down) [(GuestAddr 0, region_size); (GuestAddr 0x100000, region_size)];
  let '(gmm, h) := arc_new (MmapTests.heap_of w) m in
  h ← arc_clone h gmm;
  let gm : space := atomic_from gmm in
  '(mem_orig, h) ← space_memory (T := load_guard) h gm;
  m ← space_deref (S := space) h mem_orig;
  _ ← assert_eq (num_regions m) 2;
  '(guard, gm) ← unwrap (lock gm 0);
  guard ← unwrap_ok guard;
  '(gmm, h) ← make_mut h gmm;
  new_gmm ← deref h gmm;
  '(mmap, w) ← new_region (world h) (GuestAddr 0x8000) 0x1000;
  r ← insert_region new_gmm mmap; new_gmm ← unwrap_ok r;
  '(mmap, w) ← new_region w (GuestAddr 0x4000) 0x1000;
  r ← insert_region new_gmm mmap; new_gmm ← unwrap_ok r;
  '(mmap, w) ← new_region w (GuestAddr 0xc000) 0x1000;
  r ← insert_region new_gmm mmap; new_gmm ← unwrap_ok r;
  '(mmap, w) ← new_region w (GuestAddr 0xc000) 0x1000;
  r ← insert_region new_gmm mmap; _ ← unwrap_err r;
  let h := Heap (objects h) (RefCount.next h) (freed h) (drop_regions w [mmap]) in
  let '(a, h) := arc_new h new_gmm in
  let old := atomic_load gm in
  let gm := replace gm guard a in
  h ← arc_drop h old;
  m ← space_deref (S := space) h mem_orig;
  _ ← assert_eq (num_regions m) 2;
  '(mem, h) ← space_memory (T := load_guard) h gm;
  m ← space_deref (S := space) h mem;
  assert_eq (num_regions m) 5.

Definition tests : list (outcome unit) := [test_atomic_memory; test_clone_guard; test_atomic_hotplug].
End tests.

Example atomic_tests_pass :
  ∀ t, t ∈ [x86_64_debug; armv7_debug] →
    forallb passes (tests (H := t) false ++ tests (H := t) true) = true.
Proof. intros t. rewrite !elem_of_cons, elem_of_nil. by intros [->|[->|[]]]; vm_compute. Qed.
End AtomicTests.
