(* ===== verification/TestsThreads.v ===== *)
(** * The unit test of concurrent accesses ([src/src/guest_memory.rs])

    [test_non_atomic_access] writes and reads a value in two threads for three seconds.
    Here the threads make any number of accesses, in any schedule.  The theorem: the test
    passes, when the mappings of its two regions are adjacent and the system moves
    aligned chunks of two bytes at once ([AtomicCopySpec] with width 2).  A system that
    moves chunks of 8 bytes at once, and the bytes around them one at a time, keeps the
    assumption of the comment on [ALG] too; the value is then not within a chunk that is
    transferred as a whole, and there is a schedule with which the test fails. *)

From S2P Require Import Prelude Memory Address PlainData AtomicIntegers Bytes CopySlice Volatile Os Linux RemoteMem Concurrency Transfers GuestMemory MmapUnix Mmap SharedMemory Tests TestsMmap.

(** The only system here is [linux]. *)
#[local] Remove Hints toy_os toy_remote_spec toy_mmap_spec : typeclass_instances.

(** [struct Data<T> { val: T, some_bytes: [u8; 7] }] for the integers, which is padded to
    a multiple of the alignment. *)
Record Data (n : nat) := MkData { d_val : uint n; d_bytes : array u8 7 }.
Arguments MkData {n} _ _.
Arguments d_val {n} _.
Arguments d_bytes {n} _.

Section test.
Context `{Target}.

Definition data_padding (n : nat) : Z := (- 7) `mod` Z.of_nat n.
#[export] Instance Data_byte_valued n : ByteValued (Data n) := {|
  size_of := size_of (uint n) + 7 + data_padding n;
  align_of := align_of (uint n);
  as_slice d := as_slice (d_val d) ++ as_slice (d_bytes d) ++ replicate (Z.to_nat (data_padding n)) x00;
  from_bytes bs := MkData (from_bytes (take n bs)) (from_bytes (take 7 (drop n bs)));
  default_value := MkData default_value default_value
|}.

(** [!val]. *)
Definition uint_not {n} (v : uint n) : uint n := uint_of (2 ^ (8 * Z.of_nat n) - 1 - uval v).

Definition region_len : Z := 4096.
Definition data_start (n : nat) : GuestAddress := GuestAddr (as_u64 (region_len - size_of (uint n))).

(** The objects that the writer writes. *)
Fixpoint flips (n : nat) (count : nat) (data : Data n) : list access :=
  match count with
  | O => []
  | S count =>
      WriteSlice (as_slice data) (data_start n) :: flips n count (MkData (uint_not (d_val data)) (d_bytes data))
  end.
(** The buffers of the reader. *)
Definition read_objs (n : nat) (count : nat) : list access :=
  replicate count (ReadSlice (as_slice (default_value : Data n)) (data_start n)).

(** The bytes of a value that was read are the same. *)
Definition check_val {n} (data : Data n) : outcome unit :=
  let bytes := le_bytes 16 (uval (d_val data)) in
  foldl (λ o i, _ ← o; rassert (bool_decide (bytes !! 0%nat = bytes !! i))) (Ret tt) (seq 1 (n - 1)).

Definition some_bytes : array u8 7 := from_bytes [x01; x02; x04; x10; x20; x40; x80].
Definition first_data (n : nat) : Data n := MkData (uint_of 0) some_bytes.

(** What comes before the threads. *)
Definition setup (down : bool) (n : nat) : outcome (GuestMemoryMmap linux * linux) :=
  _ ← assert_eq (align_of (uint n)) (align_of (Data n));
  _ ← assert_eq (size_of (uint n)) (align_of (uint n));
  let start := GuestAddr 0 in
  second ← unchecked_add start (as_u64 region_len);
  '(mem, w) ← anonymous (linux_start down) [(start, region_len); (second, region_len)];
  let data := first_data n in
  '(r, w) ← write_obj mem w data (data_start n);
  _ ← unwrap_ok r;
  '(r, w) ← read_obj (Data n) mem w (data_start n);
  read_data ← unwrap_ok r;
  _ ← assert_eq (as_slice read_data) (as_slice data);
  Ret (mem, w).

Context `{!AtomicCopy linux}.
Definition non_atomic_access_helper (down : bool) (n : nat) (writes reads : nat) (schedule : list nat)
    : outcome unit :=
  '(mem, w) ← setup down n;
  '(ts, w) ← run_pool schedule
    ([guest_client mem (flips n writes (first_data n)) []; guest_client mem (read_objs n reads) []], w);
  match ts with
  | [Finished written; Finished read] =>
      _ ← for_each written tt (λ '(r, _) _, unwrap_ok r);
      for_each read tt (λ '(r, bytes) _, _ ← unwrap_ok r; check_val (from_bytes bytes : Data n))
  | _ => OutOfFuel
  end.

Definition test_non_atomic_access (down : bool) (writes reads : nat) (schedule : list nat) : outcome unit :=
  non_atomic_access_helper down 2 writes reads schedule.
End test.

(** ** The test passes *)
Section passes.
#[local] Existing Instance x86_64_debug.

(** Where the object is in memory. *)
Definition object : Z := 0x10ffe.
(** The values that the writer alternates between. *)
Definition flipped (bs : list byte) : Prop := bs = [x00; x00] ∨ bs = [xff; xff].

Lemma setup_ok : match setup false 2 with
  | Ret (mem, w) =>
      match access_find mem 10 (data_start 2) 0 with
      | Ret (Some (r, start, _)) => host_ptr r start = Ret (Ok object) ∧ pid r = own_pid
      | _ => False
      end ∧
      read_bytes (space w own_pid) object 10 = Ret (as_slice (first_data 2)) ∧
      bool_decide (is_Some (toy_space (l_procs w) !! own_pid)) = true
  | _ => False
  end.
Proof. by vm_compute. Qed.

(** The two objects that are written. *)
Definition second_data : Data 2 := MkData (uint_not (uint_of 0)) some_bytes.
Lemma flips_data count :
  Forall (λ x, ∃ d, x = WriteSlice (as_slice d) (data_start 2) ∧ (d = first_data 2 ∨ d = second_data))
    (flips 2 count (first_data 2)) ∧
  Forall (λ x, ∃ d, x = WriteSlice (as_slice d) (data_start 2) ∧ (d = first_data 2 ∨ d = second_data))
    (flips 2 count second_data).
Proof.
  induction count as [|count [IH1 IH2]]; [by split; constructor|]. split; cbn [flips].
  - constructor; [eauto|]. exact IH2.
  - constructor; [eauto|]. assert (uint_not (d_val second_data) = uint_of 0) as -> by (by apply uint_eq).
    exact IH1.
Qed.
Lemma length_data (d : Data 2) : length (as_slice d) = 10%nat.
Proof.
  pose proof (length_as_slice (d_val d)) as Hv.
  assert (ByteValuedSpec (array u8 7)) as Hspec by (apply array_byte_valued_spec; vm_compute; congruence).
  pose proof (length_as_slice (d_bytes d)) as Hb.
  cbn [as_slice Data_byte_valued]. rewrite !length_app, length_replicate. simpl size_of in *.
  change (Z.to_nat (data_padding 2)) with 1%nat. lia.
Qed.
(** How many turns the threads take. *)
Section turns.
Context `{!AtomicCopy linux} `{!AtomicCopySpec linux 2}.
Lemma flips_turns count d :
  client_turns ((λ x, WriteBytes object (access_buf x)) <$> flips 2 count d) = (count * copy_turns 10)%nat.
Proof.
  revert d. induction count as [|count IH]; intros d; [done|]. specialize (IH (MkData (uint_not (d_val d)) (d_bytes d))).
  unfold client_turns in *. cbn [flips]. rewrite !fmap_cons. cbn [sum_list call_buf access_buf].
  rewrite IH, length_data. simpl. lia.
Qed.
Lemma reads_turns count :
  client_turns ((λ x, ReadBytes object (access_buf x)) <$> read_objs 2 count) = (count * copy_turns 10)%nat.
Proof.
  unfold read_objs, client_turns. induction count as [|count IH]; [done|].
  cbn [replicate]. rewrite !fmap_cons. cbn [sum_list call_buf access_buf]. rewrite IH, length_data. simpl. lia.
Qed.
End turns.

Lemma for_each_ok {A} (l : list A) body : Forall (λ x, body x tt = Ret tt) l → for_each l tt body = Ret tt.
Proof. unfold for_each. induction 1 as [|x l Hx _ IH]; [done|]. simpl. by rewrite Hx. Qed.
Lemma check_val_ok bs : lenZ bs = 10 → flipped (chunk 0 2 bs) → check_val (from_bytes bs : Data 2) = Ret tt.
Proof.
  destruct bs as [|b0 [|b1 bs]]; [done..|]. unfold flipped, chunk. simpl take. simpl drop.
  intros _ [[= -> ->]|[= -> ->]]; by vm_compute.
Qed.

(** In adjacent mappings the object is in one range, and the value is a chunk. *)
Section threads.
Context `{!AtomicCopy linux} `{!AtomicCopySpec linux 2}.
Context (mem : GuestMemoryMmap linux) (r : GuestRegionMmap linux).
Context (Hplaced : placed mem (data_start 2) 10 r object).

Abbreviation ok := (ok_thread (field_inv (pid r) object 10 object 2 flipped)).
Lemma writer_ok writes :
  ok (Forall (λ res, res.1 = Ok tt)) (writes * copy_turns 10) (guest_client mem (flips 2 writes (first_data 2)) []).
Proof.
  rewrite <-(flips_turns writes (first_data 2)).
  pose proof (proj1 (flips_data writes)) as Hall. rewrite list.Forall_forall in Hall.
  eapply ok_mono; [eapply (guest_client_ok (c := 2) object 10 object 2 flipped ltac:(lia) ltac:(by vm_compute) mem r)|done|].
  - apply Forall2_fmap_r, Forall_Forall2_diag, list.Forall_forall. intros x Hx.
    destruct (Hall x Hx) as (d & -> & [-> | ->]); by split.
  - apply Forall_fmap, list.Forall_forall. intros x Hx.
    destruct (Hall x Hx) as (d & -> & Hd). simpl. split_and!; [done|by destruct Hd as [-> | ->]|]. right.
    split; [by destruct Hd as [-> | ->]|]. destruct Hd as [-> | ->]; [by left|by right].
  - intros rs (rs' & -> & Hrs). simpl. clear -Hrs. revert Hrs. generalize (flips 2 writes (first_data 2)). intros l Hrs.
    rewrite Forall2_fmap_l in Hrs. induction Hrs as [|x res xs rs [Hres _] _ IH]; constructor; auto.
Qed.
Lemma reader_ok reads :
  ok (Forall (λ res, res.1 = Ok tt ∧ check_val (from_bytes res.2 : Data 2) = Ret tt)) (reads * copy_turns 10)
    (guest_client mem (read_objs 2 reads) []).
Proof.
  rewrite <-(reads_turns reads).
  assert (∀ x, x ∈ read_objs 2 reads → x = ReadSlice (as_slice (default_value : Data 2)) (data_start 2)) as Hall
    by (unfold read_objs; by intros x ?%elem_of_replicate_inv).
  eapply ok_mono; [eapply (guest_client_ok (c := 2) object 10 object 2 flipped ltac:(lia) ltac:(by vm_compute) mem r)|done|].
  - apply Forall2_fmap_r, Forall_Forall2_diag, list.Forall_forall. intros x ->%Hall. by split.
  - apply Forall_fmap, list.Forall_forall. intros x ->%Hall. split_and!; [done..|]. by right.
  - intros rs (rs' & -> & Hrs). simpl. unfold read_objs in Hrs. clear -Hrs. rewrite Forall2_fmap_l in Hrs.
    revert rs' Hrs. induction reads as [|reads IH]; intros rs' Hrs; inversion Hrs as [|? res ? ? Hres Hrest]; subst;
      constructor; [|by apply IH].
    destruct Hres as (Hr & Hl & Hv). split; [done|]. by apply check_val_ok, Hv.
Qed.
End threads.

(** The test passes for every number of accesses and every schedule that lets the threads
    finish, when the system moves aligned pairs of bytes at once. *)
Theorem non_atomic_access_passes `{!AtomicCopy linux} `{!AtomicCopySpec linux 2} writes reads schedule :
  (writes * copy_turns 10 ≤ turns 0 schedule)%nat → (reads * copy_turns 10 ≤ turns 1 schedule)%nat →
  test_non_atomic_access false writes reads schedule = Ret tt.
Proof.
  intros Hw Hr. unfold test_non_atomic_access, non_atomic_access_helper.
  pose proof setup_ok as Hs. destruct (setup false 2) as [[mem w]| | |]; [|done..].
  destruct Hs as (Hp & Hread & Hatt). rewrite bind_ret.
  destruct (access_find mem 10 (data_start 2) 0) as [[[[r start] l]|]| | |] eqn:Ef; [|done..].
  destruct Hp as [Ep Hpid]. assert (placed mem (data_start 2) 10 r object) as Hplaced
    by (split_and!; [done|done|]; by exists start, l).
  destruct (pool_finished (field_inv (pid r) object 10 object 2 flipped)
    [Forall (λ res, res.1 = Ok tt); Forall (λ res, res.1 = Ok tt ∧ check_val (from_bytes res.2 : Data 2) = Ret tt)]
    (λ i, match i with O => writes | _ => reads end * copy_turns 10)%nat
    [guest_client mem (flips 2 writes (first_data 2)) []; guest_client mem (read_objs 2 reads) []] w schedule)
    as (rs & w' & E & _ & Hrs).
  - rewrite Hpid. split; [split|].
    + by apply bool_decide_eq_true in Hatt.
    + intros i Hi. apply read_bytes_Ret in Hread as [Hl Hx]; [|lia]. rewrite Hx by lia. apply lookup_lt_is_Some.
      change (length (as_slice (first_data 2))) with 10%nat. lia.
    + exists [x00; x00]. split; [|by left].
      rewrite <-(Z.add_0_r object), (read_bytes_sub _ _ 10 (as_slice (first_data 2)) 0 2) by (done || lia). done.
  - split; [done|]. intros [|[|i]] Q t [= <-] [= <-]; [by apply writer_ok|by apply reader_ok].
  - intros [|[|i]] Hi; simpl in *; [done..|lia].
  - inversion Hrs as [|? written ? ? Hwritten Hrest]; subst. inversion Hrest as [|? read ? ? Hread' Hnil]; subst.
    inversion Hnil; subst. rewrite E, bind_ret. cbn [fmap list_fmap].
    rewrite (for_each_ok written); cycle 1.
    { eapply list.Forall_impl; [exact Hwritten|]. intros [res b] Hres. simpl in *. by subst. }
    rewrite bind_ret. apply for_each_ok. eapply list.Forall_impl; [exact Hread'|]. intros [res b] [Hres Hval].
    simpl in Hres, Hval. by subst.
Qed.
(** Downwards the regions are not adjacent, and the check before the threads fails. *)
Example non_atomic_access_downwards `{!AtomicCopy linux} writes reads schedule :
  test_non_atomic_access true writes reads schedule = Panic.
Proof.
  unfold test_non_atomic_access, non_atomic_access_helper.
  assert (match setup true 2 with Panic => true | _ => false end = true) as E by (by vm_compute).
  by destruct (setup true 2).
Qed.
(** A system that moves chunks of 8 bytes at once: the value comes before the first of
    them, is moved one byte at a time, and the reader can see half of it. *)
Example non_atomic_access_width_8 :
  @AtomicCopySpec _ linux _ _ (copying 8) 8 * (
  @test_non_atomic_access _ (copying 8) false 2 1
    (replicate 4 0%nat ++ replicate 10 1%nat ++ replicate 9 0%nat) = Panic).
Proof. split; [by apply copying_spec|by vm_compute]. Qed.
(** With pairs of bytes the same accesses pass in that schedule. *)
Example non_atomic_access_width_2 :
  @test_non_atomic_access _ (copying 2) false 2 1
    (replicate 4 0%nat ++ replicate 10 1%nat ++ replicate 9 0%nat) = Ret tt.
Proof. by vm_compute. Qed.
End passes.
