(* ===== verification/Witnesses.v ===== *)
(** * The theorems at concrete inputs

    A process with 32 bytes of memory at 0x1000, holding 0 to 31, accessed
    through a guest memory of two regions of 16 bytes each at the
    guest-physical addresses 0x8000 and 0x8010; and instances of the theorems
    about guest memory, mappings and atomic maps for it. *)

From S2P Require Import Prelude Memory Address PlainData AtomicIntegers Bytes CopySlice Volatile Os RemoteMem Concurrency Transfers GuestMemory MmapUnix Mmap SharedMemory RefCount Arcs CrossRegion Refine Atomic AddressSpace Snapshots.

#[local] Existing Instance x86_64_debug.

Definition region1 : GuestRegionMmap toy :=
  GRegion (MmapReg 0x1000 16 None 3 0x22 true None) (GuestAddr 0x8000) 7.
Definition region2 : GuestRegionMmap toy :=
  GRegion (MmapReg 0x1010 16 None 3 0x22 true None) (GuestAddr 0x8010) 7.
(** A region that fits between others, and one that overlaps the first. *)
Definition region3 : GuestRegionMmap toy :=
  GRegion (MmapReg 0x3000 16 None 3 0x22 true None) (GuestAddr 0x7000) 7.
Definition example_memory : GuestMemoryMmap toy := GMemory 7 [region1; region2].

(** Closes arithmetic on the example. *)
Ltac by_eval := solve [by vm_compute | by split; vm_compute | split_and!; vm_compute; congruence | done].

Lemma example_wf r : r ∈ [region1; region2; region3] → region_wf r.
Proof.
  rewrite !elem_of_cons, elem_of_nil. intros [-> |[-> |[-> |[]]]]; by_eval.
Qed.
Lemma example_ok : regions_ok [region1; region2].
Proof.
  split.
  - apply Forall_elem. intros r Hr. apply example_wf. rewrite !elem_of_cons in *. tauto.
  - repeat constructor; by vm_compute.
Qed.
Lemma example_host_ok r : r ∈ [region1; region2] → host_ok example_world r.
Proof.
  rewrite !elem_of_cons, elem_of_nil. intros [-> |[-> |[]]];
    (split_and!; [by vm_compute..|by apply example_accessible; vm_compute]).
Qed.
Lemma example_world_ok : world_ok example_memory example_world.
Proof.
  split; [apply example_host_ok|]. intros r r'. simpl. rewrite !elem_of_cons, !elem_of_nil.
  intros [-> |[-> |[]]] [-> |[-> |[]]] Hne; try done; (split; [done|]);
    [left|right]; by vm_compute.
Qed.

(** ** Guest memory *)
Lemma check_range_iff_witness :
  ∃ b, check_range example_memory (GuestAddr 0x8008) 16 = Ret b ∧
    (b = true ↔ backed example_memory 0x8008 ∧ backed_range example_memory (GuestAddr 0x8008) 16).
Proof. apply (check_range_iff example_memory); [apply example_ok|by_eval..]. Defined.

Lemma to_region_addr_spec_witness :
  ∃ o, to_region_addr example_memory (GuestAddr 0x8012) = Ret o ∧
    (∀ r off, o = Some (r, off) ↔ r ∈ iter example_memory ∧
       0x8012 = ga_0 (start_addr r) + mra_0 off ∧ 0 ≤ mra_0 off < len r) ∧
    address_in_range example_memory (GuestAddr 0x8012) = Ret (bool_decide (is_Some o)) ∧
    check_address example_memory (GuestAddr 0x8012)
      = Ret (if bool_decide (is_Some o) then Some (GuestAddr 0x8012) else None) ∧
    (o = None ↔ ¬ backed example_memory 0x8012).
Proof. apply (to_region_addr_spec example_memory (GuestAddr 0x8012)); [apply example_ok|by_eval]. Defined.

Lemma last_addr_greatest_witness :
  ∃ a, last_addr example_memory = Ret a ∧ backed example_memory (ga_0 a) ∧
    ∀ x, backed example_memory x → x ≤ ga_0 a.
Proof. apply (last_addr_greatest example_memory); [apply example_ok|done]. Defined.

(** A stream that crosses from the first region into the second. *)
Lemma memory_read_from_stream_witness :
  ∃ res src' w' n,
    memory_read_from example_memory example_world (GuestAddr 0x800e) example_stream 5
      = Ret (res, (src', w')) ∧ n ≤ 5 ∧
    received example_memory example_world (GuestAddr 0x800e) example_stream n src' w' ∧
    ended example_memory (GuestAddr 0x800e) 5 n (stream src' = [])
      (λ io, reader_failed io src') res.
Proof.
  apply (memory_read_from_stream example_memory); [apply example_ok|apply example_world_ok|by_eval..].
Defined.

Lemma memory_write_to_stream_witness :
  ∃ res dst' bs,
    memory_write_to example_memory example_world (GuestAddr 0x800e) example_stream 5
      = Ret (res, (dst', example_world)) ∧ lenZ bs ≤ 5 ∧
    guest_bytes example_memory example_world (GuestAddr 0x800e) bs ∧
    written dst' = written example_stream ++ bs ∧
    ended example_memory (GuestAddr 0x800e) 5 (lenZ bs)
      (∃ r, r ∈ iter example_memory ∧ is_Some (region_as_slice r example_world))
      (λ io, writer_failed io dst' ∨ writer_full io dst') res.
Proof.
  apply (memory_write_to_stream example_memory); [apply example_ok|apply example_world_ok|by_eval..].
Defined.

Lemma example_fits : fits example_memory region2 (GuestAddr 0x8011) 3.
Proof. split; [by right; left|]. by_eval. Qed.

Lemma memory_write_read_witness :
  ∃ w', write_slice example_memory example_world [xaa; xbb; xcc] (GuestAddr 0x8011) = Ret (Ok tt, w') ∧
    stored example_memory example_world w' (GuestAddr 0x8011) [xaa; xbb; xcc] ∧
    read_slice example_memory w' [x00; x00; x00] (GuestAddr 0x8011) = Ret (Ok tt, ([xaa; xbb; xcc], w')).
Proof.
  apply (memory_write_read example_memory example_world region2 [xaa; xbb; xcc]);
    [apply example_ok|apply example_world_ok|by_eval|by_eval|apply example_fits|done].
Defined.

(** ** Remote memory *)
Lemma process_read_outcome_witness :
  match process_read u32 example_world 7 0x1004 with
  | Ok v => read_bytes (space example_world 7) 0x1004 4 = Ret (as_slice v)
  | Err (ByteCount got should) => should = 4 ∧ 0 ≤ got < should ∧ mapped (space example_world 7) 0x1004 got
  | Err (Rw e) => ¬ accessible example_world 7 0x1004 4
  end.
Proof. exact (proj1 (process_read_outcome (T := u32) example_world 7 0x1004)). Defined.

Lemma process_write_outcome_witness :
  let '(r, w') := process_write example_world 7 0x1004 (uint_of 0x12345678 : u32) in
  accessible example_world 7 0x1004 4 → r = Ok tt.
Proof.
  pose proof (process_write_outcome (T := u32) example_world 7 0x1004 (uint_of 0x12345678)) as W.
  destruct (process_write _ _ _ _) as [r w']. apply W.
Defined.

(** ** Mappings *)
Lemma build_outcome_witness :
  let fo := Some (FileOff toy _ 3 0x1000) in
  let '(res, _) := build example_world fo 0x2000 3 0x4001 in
  match res with
  | Ok r => mr_size r = 0x2000 ∧ mmap_ok_region r ∧ file_range_ok example_world fo 0x2000
  | Err _ => False
  end.
Proof.
  pose proof (build_outcome (W := toy) example_world (Some (FileOff toy _ 3 0x1000)) 0x2000 3 0x4001
    ltac:(by_eval)) as W.
  assert ((build example_world (Some (FileOff toy _ 3 0x1000)) 0x2000 3 0x4001).1
    = Ok (MmapReg 0x4000 0x2000 (Some (FileOff toy _ 3 0x1000)) 3 0x4001 true None)) as E by reflexivity.
  destruct (build example_world _ 0x2000 3 0x4001) as [res w']. cbn [fst] in E. subst res.
  by destruct W as (? & ? & ? & ? & ? & ?).
Defined.

Lemma build_raw_outcome_witness :
  build_raw (W := toy) 0x1000 0x1800 3 0x22 = Ret (Err InvalidSize).
Proof.
  assert (W := proj1 (build_raw_outcome (W := toy) 0x1000 0x1800 3 0x22 ltac:(by_eval) ltac:(by_eval))).
  exact W.
Defined.

Definition file_region (start sz : Z) : MmapRegion toy :=
  MmapReg 0x4000 sz (Some (file_offset_new (W := toy) 5 start)) 3 1 true None.
Lemma fds_overlap_iff_witness :
  ∃ b, fds_overlap (file_region 0 0x2000) (file_region 0x1000 0x1000) = Ret b ∧
    (b = true ↔ ∃ fd x, maps_file_byte (file_region 0 0x2000) fd x ∧
                        maps_file_byte (file_region 0x1000 0x1000) fd x).
Proof.
  apply (fds_overlap_iff (W := toy)); [by_eval..| |]; intros f E;
    assert (fo_start f = fo_start (file_offset_new (W := toy) 5 _)) as -> by (injection E as <-; done);
    by_eval.
Defined.

Lemma find_region_iff_witness :
  ∃ o, mmap_find_region example_memory (GuestAddr 0x800f) = Ret o ∧
    ∀ r, o = Some r ↔ r ∈ regions example_memory ∧ contains r 0x800f.
Proof. apply (find_region_iff example_memory (GuestAddr 0x800f)), example_ok. Defined.

Lemma from_arc_regions_iff_witness :
  ∃ res, from_arc_regions 7 [region2; region1] = Ret res ∧
    (res = Ok (GMemory 7 [region2; region1]) ↔ [region2; region1] ≠ [] ∧ regions_ok [region2; region1]) ∧
    match res with
    | Ok m => m = GMemory 7 [region2; region1]
    | Err NoMemoryRegion => [region2; region1] = []
    | Err UnsortedMemoryRegions => unsorted [region2; region1]
    | Err MemoryRegionOverlap => overlapping [region2; region1]
    | Err _ => False
    end.
Proof.
  apply (from_arc_regions_iff 7 [region2; region1]), Forall_elem.
  intros r Hr. apply example_wf. rewrite !elem_of_cons in *. tauto.
Defined.

Lemma region3_wf : region_wf region3.
Proof. apply example_wf. rewrite !elem_of_cons. tauto. Qed.
Lemma region3_apart : Forall (apart region3) (regions example_memory).
Proof. repeat constructor; by vm_compute. Qed.

Lemma insert_region_iff_witness :
  ∃ m', insert_region example_memory region3 = Ret (Ok m') ∧ regions_ok (regions m') ∧
    regions m' ≡ₚ region3 :: regions example_memory ∧ mm_pid m' = 7 ∧
    ∀ a, backed m' a ↔ contains region3 a ∨ backed example_memory a.
Proof.
  pose proof (insert_region_iff example_memory region3 example_ok region3_wf) as W.
  rewrite decide_True in W by apply region3_apart. exact W.
Defined.

Lemma remove_region_iff_witness :
  ∃ res, remove_region example_memory (GuestAddr 0x8000) 16 = Ret res ∧
    match res with
    | Ok (m', r) => r ∈ regions example_memory ∧ guest_base r = GuestAddr 0x8000 ∧ region_size r = 16 ∧
        regions_ok (regions m') ∧ regions example_memory ≡ₚ r :: regions m' ∧ mm_pid m' = 7 ∧
        sublist (regions m') (regions example_memory)
    | Err e => e = InvalidGuestRegion ∧
        ¬ ∃ r, r ∈ regions example_memory ∧ guest_base r = GuestAddr 0x8000 ∧ region_size r = 16
    end.
Proof. apply (remove_region_iff example_memory (GuestAddr 0x8000) 16), example_ok. Defined.

Lemma insert_remove_region_witness :
  remove_region (GMemory 7 [region3; region1; region2]) (GuestAddr 0x7000) 16
    = Ret (Ok (example_memory, region3)).
Proof.
  apply (insert_remove_region example_memory region3 (GMemory 7 [region3; region1; region2]));
    [apply example_ok|apply region3_wf|].
  vm_cast_no_check (eq_refl (insert_region example_memory region3)).
Defined.

(** The write to the first region that lands in the second. *)
Lemma region_write_overruns_witness :
  ∃ w', write region1 example_world [xaa; xbb; xcc] (RegionAddr 14) = Ret (Ok 3, w') ∧
    read_bytes (space w' 7) 0x1010 1 = Ret [xcc].
Proof.
  apply (region_write_overruns example_world region1 14 [xaa; xbb; xcc]).
  - apply example_host_ok. left.
  - by_eval.
  - by_eval.
  - by apply example_accessible; vm_compute.
Defined.

Lemma memory_atomic_access_witness :
  store example_memory example_world (uint_of 5 : u32) (GuestAddr 0x8008) Relaxed = Panic ∧
  load u32 example_memory example_world (GuestAddr 0x8008) Relaxed = Panic.
Proof.
  pose proof (memory_atomic_access (T := u32) example_memory example_world region1
    (GuestAddr 0x8008) (uint_of 5) Relaxed Relaxed) as W.
  cbn zeta in W. rewrite decide_False in W by (intros [? _]; done).
  apply W; [apply example_ok|by left|apply example_host_ok; by left|by_eval..].
Defined.

Lemma from_ranges_outcome_witness :
  let ranges := [(GuestAddr 0x8000, 0x1000, None); (GuestAddr 0xa000, 0x2000, None)] in
  ∃ res w', from_ranges_with_files example_world 7 ranges = Ret (res, w') ∧
    match res with
    | Ok m => regions_ok (regions m) ∧ mm_pid m = 7 ∧ Forall2 (made 7) (regions m) ranges ∧ ranges ≠ []
    | Err NoMemoryRegion => ranges = []
    | Err UnsortedMemoryRegions => neighbours (λ b _ b', b' < b) ranges
    | Err MemoryRegionOverlap => neighbours (λ b n b', b ≤ b' < b + n) ranges
    | Err InvalidGuestRegion => ∃ b sz fo, (b, sz, fo) ∈ ranges ∧ 2 ^ 64 ≤ ga_0 b + sz
    | Err (MmapRegionErr e) => ∃ range w1 w2, range ∈ ranges ∧ map_range w1 range = (Err e, w2)
    end.
Proof. apply (from_ranges_outcome example_world 7). repeat constructor; by_eval. Defined.

Definition empty_region : GuestRegionMmap toy :=
  GRegion (MmapReg 0x1000 0 None 3 0x22 false None) (GuestAddr 0x8000) 7.
Lemma empty_region_panics_witness :
  guest_region_new 7 (mapping empty_region) (GuestAddr 0x8000) = Ok empty_region ∧
  from_arc_regions 7 [empty_region] = Ret (Ok (GMemory 7 [empty_region])) ∧
  to_region_addr (GMemory 7 [empty_region]) (GuestAddr 0x8000) = Panic.
Proof. apply (empty_region_panics 7 empty_region); by_eval. Defined.

(** ** Shared regions

    A memory of two regions; a memory without the second; the first memory and
    the reference to the second region are dropped. *)
Definition objects_1 : gmap nat (GuestRegionMmap toy * nat) := {[0%nat := (region1, 1%nat); 1%nat := (region2, 1%nat)]}.
Definition objects_2 : gmap nat (GuestRegionMmap toy * nat) := {[0%nat := (region1, 2%nat); 1%nat := (region2, 2%nat)]}.
Definition both : ArcMemory := AMemory 7 [0%nat; 1%nat].
Definition first : ArcMemory := AMemory 7 [0%nat].
Definition program_1 : program toy := Program (Heap objects_1 2 [] example_world) [both] [].
Definition program_2 : program toy := Program (Heap objects_2 2 [] example_world) [first; both] [1%nat].
Definition program_3 : program toy := Program (Heap objects_1 2 [] example_world) [first] [1%nat].
Definition unmapped_world : toy := Toy (toy_space example_world) (toy_next example_world) [(0x1010, 16)].
Definition program_4 : program toy := Program (Heap {[0%nat := (region1, 1%nat)]} 2 [1%nat] unmapped_world) [first] [].

Lemma program_1_reachable : p_reachable example_world program_1.
Proof.
  eapply reach_step; [apply reach_initial|].
  apply (p_from_regions _ [] [] 7 [region1; region2] (Ok both)).
  - apply Forall_elem. intros r Hr. apply example_wf. rewrite !elem_of_cons in *. tauto.
  - vm_cast_no_check (eq_refl (Ret (A := result ArcMemory MmapError * region_heap toy) (Ok both, p_heap program_1))).
Qed.
Lemma program_2_reachable : p_reachable example_world program_2.
Proof.
  eapply reach_step; [apply program_1_reachable|].
  apply (p_remove _ [both] [] both (GuestAddr 0x8010) 16 (Ok (first, 1%nat))); [left|].
  vm_cast_no_check (eq_refl (Ret (A := result (ArcMemory * nat) MmapError * region_heap toy)
    (Ok (first, 1%nat), p_heap program_2))).
Qed.
Lemma program_4_reachable : p_reachable example_world program_4.
Proof.
  eapply reach_step; [eapply reach_step; [apply program_2_reachable|]|].
  - apply (p_drop _ [first] [] [1%nat] both (p_heap program_3)).
    vm_cast_no_check (eq_refl (Ret (p_heap program_3))).
  - apply (p_arc_drop (p_heap program_3) [first] [] [] 1%nat (p_heap program_4)).
    vm_cast_no_check (eq_refl (Ret (p_heap program_4))).
Qed.

Lemma regions_released_witness :
  NoDup (freed (p_heap program_4)) ∧
  (∀ a, (a < 2)%nat → (a ∈ [1%nat] ↔ a ∉ p_refs program_4)) ∧
  (∀ m a, m ∈ p_memories program_4 → a ∈ am_regions m →
    (a ∉ [1%nat]) ∧ ∃ r, deref (p_heap program_4) a = Ret r).
Proof. exact (regions_released example_world program_4 program_4_reachable). Defined.

Lemma arc_calls_return_witness :
  (∃ g, value (p_heap program_2) both = Ret g ∧ regions_ok (regions g)) ∧
  (∃ x, am_insert_region (p_heap program_2) first 1%nat = Ret x) ∧
  (∃ h', arc_drop (p_heap program_2) 1 = Ret h') ∧
  (∃ h', am_drop (p_heap program_2) both = Ret h') ∧
  (∃ x, am_from_arc_regions (p_heap program_2) 7 [1%nat] = Ret x) ∧
  (∃ x, am_from_regions (p_heap program_2) 7 [region1; region2] = Ret x).
Proof.
  destruct (arc_calls_return example_world program_2 program_2_reachable) as (Hv & Ha & Hm & Hf & Hr).
  destruct (Hm first ltac:(left)) as (_ & _ & _ & Hi), (Hm both ltac:(by right; left)) as (_ & Hd & _ & _).
  split_and!; [apply Hv; by right; left|apply Hi; left|apply Ha; left|done|by apply (Hf 7 _ [])|].
  apply Hr, Forall_elem. intros r Hin. apply example_wf. rewrite !elem_of_cons in *. tauto.
Defined.

Lemma arc_operations_refine_witness :
  ∃ res h' spec, am_remove_region (p_heap program_2) both (GuestAddr 0x8000) 16 = Ret (res, h') ∧
    remove_region example_memory (GuestAddr 0x8000) 16 = Ret spec ∧
    match res, spec with
    | Ok (s, a), Ok (g', r) => value h' s = Ret g' ∧ deref h' a = Ret r
    | Err e, Err e' => e = e'
    | _, _ => False
    end ∧ ∀ m', m' ∈ [first; both] → value h' m' = value (p_heap program_2) m'.
Proof.
  apply (arc_operations_refine example_world program_2 both example_memory);
    [apply program_2_reachable|right; left|done].
Defined.

(** ** Accesses that span regions

    With regions that stop at their end, and with those of the crate. *)
Definition clamped_memory : list (Clamped toy) := [Clamp region1; Clamp region2].
Lemma clamped_in (r : Clamped toy) : r ∈ iter clamped_memory → r = Clamp region1 ∨ r = Clamp region2.
Proof. unfold clamped_memory. cbn [iter list_memory]. rewrite !elem_of_cons, elem_of_nil. tauto. Qed.
Lemma clamped_memory_ok : memory_ok clamped_memory.
Proof.
  split.
  - intros r [-> | ->]%clamped_in; by_eval.
  - intros r r' a [-> | ->]%clamped_in [-> | ->]%clamped_in [Hc1 Hc2] [Hd1 Hd2]; try done; exfalso;
    change (ga_0 (start_addr (Clamp region1))) with 0x8000 in *;
    change (ga_0 (start_addr (Clamp region2))) with 0x8010 in *;
    change (len (Clamp region1)) with 16 in *; change (len (Clamp region2)) with 16 in *; lia.
Qed.
Lemma clamped_world_ok : world_ok clamped_memory example_world.
Proof.
  destruct example_world_ok as [Hok Hsep].
  assert (∀ r, r ∈ iter clamped_memory → unclamped r ∈ iter example_memory) as Hin.
  { intros r [-> | ->]%clamped_in; [left|right; left]. }
  split; [intros r Hr; by apply (Hok (unclamped r)), Hin|].
  intros r r' Hr Hr' Hne. apply (Hsep (unclamped r) (unclamped r')); [by apply Hin..|].
  destruct r, r'. simpl. congruence.
Qed.
Lemma memory_access_across_witness :
  (∃ res w' n, memory_write clamped_memory example_world [xaa; xbb; xcc] (GuestAddr 0x800f) = Ret (res, w') ∧
    0 ≤ n ≤ 3 ∧ backed_range clamped_memory (GuestAddr 0x800f) n ∧
    stored clamped_memory example_world w' (GuestAddr 0x800f) (take (Z.to_nat n) [xaa; xbb; xcc]) ∧
    ended clamped_memory (GuestAddr 0x800f) 3 n False (λ _, False) res).
Proof.
  apply (memory_access_across clamped_memory example_world [xaa; xbb; xcc] (GuestAddr 0x800f));
    [apply clamped_memory_ok|apply clamped_world_ok|by_eval..].
Defined.

(** Regions that follow each other in the guest, with 8 bytes between their
    mappings in the host: the third byte goes there, and the second region, which
    backs its guest-physical address 0x8008, is not written. *)
Definition lower_region : GuestRegionMmap toy :=
  GRegion (MmapReg 0x1000 8 None 3 0x22 true None) (GuestAddr 0x8000) 7.
Definition upper_region : GuestRegionMmap toy :=
  GRegion (MmapReg 0x1010 16 None 3 0x22 true None) (GuestAddr 0x8008) 7.
Definition apart_memory : GuestMemoryMmap toy := GMemory 7 [lower_region; upper_region].
Lemma apart_ok : regions_ok (regions apart_memory).
Proof.
  split; [|repeat constructor; by vm_compute].
  apply Forall_elem. intros r. unfold apart_memory. cbn [regions].
  rewrite !elem_of_cons, elem_of_nil. intros [-> |[-> |[]]]; by_eval.
Qed.
Lemma apart_host_ok r : r ∈ regions apart_memory → host_ok example_world r.
Proof.
  unfold apart_memory. cbn [regions]. rewrite !elem_of_cons, elem_of_nil. intros [-> |[-> |[]]];
    (split_and!; [by vm_compute..|by apply example_accessible; vm_compute]).
Qed.
Lemma write_across_misplaced_witness :
  contains upper_region 0x8008 ∧
  ∃ w', memory_write apart_memory example_world [xaa; xbb; xcc] (GuestAddr 0x8006) = Ret (Ok 3, w') ∧
    read_bytes (space w' 7) 0x1006 3 = Ret [xaa; xbb; xcc] ∧
    host_view w' upper_region = host_view example_world upper_region.
Proof.
  split; [by_eval|].
  destruct (write_across_misplaced apart_memory example_world lower_region (GuestAddr 0x8006) [xaa; xbb; xcc])
    as (w' & ? & ? & Hr); [apply apart_ok|left|apply apart_host_ok; left|by_eval..| |].
  - by apply example_accessible; vm_compute.
  - exists w'. split_and!; [done..|]. apply Hr; [done|apply apart_host_ok; by right; left|]. by left.
Defined.

(** ** Refinement: a write, a transfer across regions, a check, a removal *)
Definition example_ops : list (op toy Cursor Cursor) :=
  [OWrite 0x8011 [xaa; xbb; xcc]; OReadFrom 0x800e example_stream 5; OCheckRange 0x8000 32;
   ORemove 0x8000 16; OToRegionAddr 0x8000].
Lemma mmap_refines_guest_witness :
  ∃ xs m' w', exec_all example_ops (example_memory, example_world) = Ret (xs, (m', w')) ∧
    g_steps (abs example_memory example_world) example_ops xs (abs m' w') ∧
    regions_ok (regions m') ∧ world_ok m' w'.
Proof.
  apply (mmap_refines_guest example_memory example_world example_ops);
    [apply example_ok|apply example_world_ok|].
  apply legal_cons; [split; [by_eval|]; split; [by_eval|]; exists region2; apply example_fits|].
  intros x1 s1 _. apply legal_cons; [destruct s1; split_and!; by_eval|].
  intros x2 s2 _. apply legal_cons; [destruct s2; split_and!; by_eval|].
  intros x3 s3 _. apply legal_cons; [by destruct s3|].
  intros x4 s4 _. apply legal_cons; [destruct s4; by_eval|].
  intros x5 s5 _. apply legal_nil.
Defined.

(** ** Atomic maps: an [ArcSwap] is its contents *)
#[local] Instance swap_value : ArcSwap nat nat := {|
  swap_new v := v; swap_load c := c; swap_store _ v := v |}.
#[local] Instance swap_value_spec : ArcSwapSpec nat nat.
Proof. by constructor. Qed.

Definition locked : config nat nat :=
  Config (Inner 3%nat {| holder := Some 1%nat; poisoned := false |})
    [] [ExclusiveGuard 1] [3%nat].
Lemma initial_lock : step (initial 3%nat) 1 locked.
Proof. eapply (step_lock _ _ _ _ 1 (ExclusiveGuard 1)); [done|by left]. Qed.

Lemma atomic_invariant_witness :
  (∀ g g', g ∈ exclusives locked → g' ∈ exclusives locked → g = g') ∧
  (∀ g, g ∈ exclusives locked ↔ holder (inner_1 (shared locked)) = Some (owner g)) ∧
  (∀ t g, (t, g) ∈ loads locked → into_inner g ∈ history locked) ∧
  head (history locked) = Some (guard_deref (memory (shared locked))).
Proof.
  apply (atomic_invariant (C := nat) 3%nat). eapply steps_step; [done|apply initial_lock|].
  by apply steps_refl.
Defined.

Lemma update_atomic_witness :
  let map := S (guard_deref (memory (shared locked))) in
  let s3 := replace (shared locked) (ExclusiveGuard 1) map in
  step locked 1 (Config s3 (loads locked) ([] ++ []) (map :: history locked)) ∧
  guard_deref (memory s3) = S (guard_deref (memory (shared (initial 3%nat)))) ∧ holder (inner_1 s3) = None.
Proof.
  apply (update_atomic (C := nat) (initial 3%nat) 1 (Ok (ExclusiveGuard 1)) (shared locked) locked locked
    [] [] (ExclusiveGuard 1) S); try done.
  - apply inv_initial.
  - apply steps_refl. left.
  - apply steps_refl. left.
Defined.

Lemma atomic_progress_witness :
  ∃ c', steps (λ _, True) locked c' ∧ holder (inner_1 (shared c')) = None ∧
    guard_deref (memory (shared c')) = 8%nat.
Proof.
  refine (proj2 (proj2 (atomic_progress (C := nat) 3%nat locked [(1, S); (2, Nat.mul 2)]%nat _))).
  eapply steps_step; [done|apply initial_lock|]. by apply steps_refl.
Defined.

(** ** Snapshots

    A reader takes a snapshot of the memory of two regions, a writer replaces
    it by the one without the second; the reader drops its guard, and the
    writer the region. *)
Definition maps_of (os : gmap nat (ArcMemory * nat)) (n : nat) (fs : list nat) (p : program toy)
  : heap ArcMemory (heap (GuestRegionMmap toy) toy) := Heap os n fs (p_heap p).
Definition unlocked (a : nat) : GuestMemoryAtomic nat := Inner a {| holder := None; poisoned := false |}.
Definition held_by (t a : nat) : GuestMemoryAtomic nat := Inner a {| holder := Some t; poisoned := false |}.

Definition system_0 : system toy nat :=
  System (maps_of {[0%nat := (both, 1%nat)]} 1 [] program_1) (unlocked 0) 1 [] [] [] [] [].
Definition system_1 : system toy nat :=
  System (maps_of {[0%nat := (both, 2%nat)]} 1 [] program_1) (unlocked 0) 1 [LoadGuard 0%nat] [] [] [] [].
Definition system_2 : system toy nat :=
  System (maps_of {[0%nat := (both, 2%nat)]} 1 [] program_2) (unlocked 0) 1 [LoadGuard 0%nat] [] [] [first] [1%nat].
Definition system_3 : system toy nat :=
  System (maps_of {[0%nat := (both, 2%nat)]} 1 [] program_2) (held_by 1 0) 1 [LoadGuard 0%nat] []
    [ExclusiveGuard 1] [first] [1%nat].
Definition system_4 : system toy nat :=
  System (maps_of {[0%nat := (both, 1%nat); 1%nat := (first, 1%nat)]} 2 [] program_2) (unlocked 1) 1
    [LoadGuard 0%nat] [] [] [] [1%nat].
Definition system_5 : system toy nat :=
  System (maps_of {[1%nat := (first, 1%nat)]} 2 [0%nat] program_3) (unlocked 1) 1 [] [] [] [] [1%nat].
Definition system_6 : system toy nat :=
  System (maps_of {[1%nat := (first, 1%nat)]} 2 [0%nat] program_4) (unlocked 1) 1 [] [] [] [] [].

Lemma system_1_reachable : s_reachable example_world system_1.
Proof.
  apply (s_reach _ system_0).
  - apply (s_initial _ (p_heap program_1) [] both [] []); [apply program_1_reachable|done].
  - apply (s_memory _ _ 0 [] [] [] [] []). vm_cast_no_check (eq_refl (Ret (LoadGuard 0%nat, s_maps system_1))).
Qed.
Lemma system_1_steps : s_steps system_1 system_4.
Proof.
  apply (s_trans _ system_2); [|apply (s_trans _ system_3); [|apply (s_trans _ system_4); [|apply s_refl]]].
  - apply (s_client (s_maps system_1) (unlocked 0) 1 [LoadGuard 0%nat] [] [] [] [] (p_heap program_2) [first] [1%nat]).
    apply (p_remove (p_heap program_1) [both] [] both (GuestAddr 0x8010) 16 (Ok (first, 1%nat))); [left|].
    vm_cast_no_check (eq_refl (Ret (A := result (ArcMemory * nat) MmapError * region_heap toy)
      (Ok (first, 1%nat), p_heap program_2))).
  - by eapply (s_lock (s_maps system_2) (unlocked 0) 0 [LoadGuard 0%nat] [] [] [first] [1%nat] 1); [|left].
  - apply (s_replace (s_maps system_3) (held_by 1 0) 0 [LoadGuard 0%nat] [] [] (ExclusiveGuard 1) [] [] first [] [1%nat]).
    vm_cast_no_check (eq_refl (Ret (unlocked 1, s_maps system_4))).
Qed.
Lemma s_reachable_steps (x x' : system toy nat) :
  s_reachable example_world x → s_steps x x' → s_reachable example_world x'.
Proof. intros Hx. induction 1 as [|x x1 x2 Hs _ IH]; [done|]. apply IH. by eapply s_reach. Qed.
Lemma system_5_reachable : s_reachable example_world system_5.
Proof.
  apply (s_reach _ system_4).
  - by eapply s_reachable_steps; [apply system_1_reachable|apply system_1_steps].
  - apply (s_drop_guard (s_maps system_4) (unlocked 1) 1 [] (LoadGuard 0%nat) [] [] [] [] [1%nat]).
    vm_cast_no_check (eq_refl (Ret (s_maps system_5))).
Qed.
Lemma system_5_step : s_step system_5 system_6.
Proof.
  apply (s_client (s_maps system_5) (unlocked 1) 1 [] [] [] [] [1%nat] (p_heap program_4) [] []).
  apply (p_arc_drop (p_heap program_3) [first] [] [] 1%nat (p_heap program_4)).
  vm_cast_no_check (eq_refl (Ret (p_heap program_4))).
Qed.

(** The address spaces that share the map with two references. *)
Lemma address_space_snapshots_witness :
  let h := s_maps system_1 in
  snapshot h [0%nat] (MkRc 0 : Rc ArcMemory) 0 both ∧ snapshot h [0%nat] (MkArc 0 : Arc ArcMemory) 0 both ∧
  snapshot h [0%nat] (unlocked 0) 0 both.
Proof.
  assert (heap_ok (s_maps system_1) [0%nat; 0%nat]) as Hh by (by destruct (sys_reachable_ok _ _ system_1_reachable)).
  destruct (address_space_snapshots (C := nat) (s_maps system_1) [0%nat] 0 both Hh eq_refl)
    as (? & ? & Ha & _); [by eexists|].
  split_and!; [done..|by apply Ha].
Defined.

(** The second region is released by the step to [system_6], which unmaps its 16
    bytes at 0x1010. *)
Lemma snapshots_protected_witness :
  let r := world (s_maps system_5) in
  NoDup (freed (s_maps system_5)) ∧ NoDup (freed r) ∧
  (∀ a, (a < 2)%nat → (a ∈ [0%nat] ↔ a ∉ map_refs system_5)) ∧
  (∀ b, (b < 2)%nat → (b ∈ [] ↔ (b ∉ [1%nat]) ∧ (∀ m, m ∈ s_owned system_5 → b ∉ am_regions m) ∧
    ∀ a m, a ∈ map_refs system_5 → deref (s_maps system_5) a = Ret m → b ∉ am_regions m)) ∧
  (∃ released, releases r (world (s_maps system_6)) released) ∧
  toy_unmapped (world (world (s_maps system_6))) = [(0x1010, 16)] ∧
  ∃ r', am_from_regions r 7 [region2; region1] = Ret (Err UnsortedMemoryRegions, r') ∧
    world r' = foldl unmap (world r) [region2; region1].
Proof.
  destruct (snapshots_protected example_world system_5 system_5_reachable)
    as (_ & ? & ? & Hm & Hr & Hstep & Hfail).
  intros r. split_and!; [done..|by apply Hm|by apply Hr| |done|].
  - destruct (Hstep system_6 system_5_step) as [?|[w' [=]]]. done.
  - assert (match am_from_regions r 7 [region2; region1] with
      Ret (Err UnsortedMemoryRegions, _) => true | _ => false end = true) as E by by_eval.
    destruct (am_from_regions r 7 [region2; region1]) as [[[?|[]] r']| | |] eqn:Er; try done.
    exists r'. split; [done|]. by apply (Hfail 7 [region2; region1] UnsortedMemoryRegions).
Defined.
Lemma snapshot_consistent_witness :
  ∃ m v, deref (s_maps system_1) 0 = Ret m ∧ deref (s_maps system_4) 0 = Ret m ∧
    value (world (s_maps system_1)) m = Ret v ∧ value (world (s_maps system_4)) m = Ret v.
Proof.
  apply (snapshot_consistent example_world system_1 system_4 0%nat);
    [apply system_1_reachable|apply system_1_steps|right; left|right; left].
Defined.
Lemma snapshot_calls_return_witness :
  (∃ g h', sys_memory (s_maps system_1) (s_atomic system_1) = Ret (g, h')) ∧
  ∃ h', arc_drop (s_maps system_1) 0 = Ret h'.
Proof.
  destruct (snapshot_calls_return example_world system_1 system_1_reachable) as (Hm & Hg & _).
  split; [by apply Hm|]. by apply (Hg (LoadGuard 0%nat)); left.
Defined.
(** From there the rest of what is shared is released: the current map, and the
    first region with it, while the program still owns the second. *)
Lemma snapshots_released_witness :
  let r := world (s_maps system_5) in
  ∃ x' released, s_steps system_5 x' ∧ s_clones x' = 0%nat ∧ objects (s_maps x') = ∅ ∧
    let r' := world (s_maps x') in
    freed r' = rev released.*1 ∧
    (∀ b, (b < 2)%nat → (b ∈ freed r' ↔ (b ∉ [1%nat]) ∧ ∀ m, m ∈ s_owned system_5 → b ∉ am_regions m)) ∧
    (∀ b g, (b, g) ∈ released → deref r b = Ret g) ∧
    world r' = foldl unmap example_world released.*2.
Proof.
  destruct (snapshots_released example_world system_5 system_5_reachable)
    as (x' & released & ? & ? & _ & _ & ? & _ & Hf & Hb & Hd & Hw).
  exists x', released. do 3 (split; [assumption|]). cbv zeta.
  split; [rewrite Hf; apply app_nil_r|]. split; [exact Hb|]. split; [exact Hd|exact Hw].
Defined.

(** ** Several threads

    One thread writes 12 bytes at 0x1004 while another reads them, in turns. *)
Definition in_turns : list nat := concat (replicate 12 [0%nat; 1%nat]).

(** A system that moves aligned chunks of 8 bytes at once, and the first 4 of the 12
    bytes one at a time. *)
#[local] Instance copying_8 : AtomicCopy toy := copying 8.
#[local] Instance copying_8_spec : AtomicCopySpec toy 8 := copying_spec 8 ltac:(done).

Lemma transfers_never_torn_witness :
  let clients := [[WriteBytes 0x1004 (replicate 12 xaa)]; [ReadBytes 0x1004 (replicate 12 x00)]] in
  ∃ results w', run_pool in_turns ((λ calls, client 7 calls []) <$> clients, example_world)
      = Ret (Finished <$> results, w') ∧
    Forall2 (Forall2 (call_result 0x1008 8 (field_value 7 example_world clients 0x1008 8))) clients results ∧
    ∃ bs, read_bytes (space w' 7) 0x1008 8 = Ret bs ∧ field_value 7 example_world clients 0x1008 8 bs.
Proof.
  apply (transfers_never_torn (c := 8) 7 example_world 0x1000 32 0x1008 8
    [[WriteBytes 0x1004 (replicate 12 xaa)]; [ReadBytes 0x1004 (replicate 12 x00)]] in_turns); [|by_eval..| |].
  - by apply example_accessible; vm_compute.
  - repeat (apply List.Forall_cons || apply List.Forall_nil); (split_and!; [by_eval|by_eval|right; by_eval]).
  - intros [|[|i]] calls [= <-]; vm_compute; lia.
Defined.

Lemma guest_values_whole_witness :
  let clients := [[WriteSlice (replicate 12 xaa) (GuestAddr 0x8004)]; [ReadSlice (replicate 12 x00) (GuestAddr 0x8004)]] in
  ∃ results w', run_pool in_turns ((λ xs, guest_client example_memory xs []) <$> clients, example_world)
      = Ret (Finished <$> results, w') ∧
    Forall2 (Forall2 (λ x res, res.1 = Ok tt ∧
      match x with
      | WriteSlice _ _ => True
      | ReadSlice buf addr => lenZ res.2 = lenZ buf ∧
          (covers_field 0x800a 4 (ga_0 addr) (lenZ buf) →
           guest_value example_world region1 clients 0x800a 4 (chunk (0x800a - ga_0 addr) 4 res.2))
      end)) clients results ∧
    guest_value example_world region1 clients 0x800a 4 (chunk (0x800a - key region1) 4 (host_view w' region1)).
Proof.
  apply (guest_values_whole (c := 8) example_memory example_world region1 0x800a 4
    [[WriteSlice (replicate 12 xaa) (GuestAddr 0x8004)]; [ReadSlice (replicate 12 x00) (GuestAddr 0x8004)]] in_turns);
    [apply example_ok|by left|apply example_host_ok; by left|by_eval..| |].
  - repeat (apply List.Forall_cons || apply List.Forall_nil); (split_and!; [done|by_eval|by_eval|right; by_eval]).
  - intros [|[|i]] calls [= <-]; vm_compute; lia.
Defined.
